(* ===== verification/_CoqProject ===== *)
-Q . S2P
Prelude.v
GoStd.v
GoSlice.v
Reader.v
ProxyConn.v
Forward.v
Group.v
GroupRotation.v
GroupDial.v
GroupSched.v
GroupInv.v
DomainWalk.v
RuleProxy.v
Status.v
RuleWitness.v
DnsMessage.v
DnsSafety.v
DnsCache.v
DnsCacheRef.v
DnsClient.v
DnsClientProofs.v
DnsWitness.v
SmuxFrame.v
SmuxStream.v
SmuxStreamProofs.v
SmuxSession.v
SmuxSessionProofs.v
SmuxShaper.v
SmuxShaperProofs.v
SmuxWitness.v
SocksAddr.v
Trojan.v
Vless.v
Dialogue.v
Socks5.v
Socks5Proofs.v
ProtoWitness.v
Dhcp.v
DhcpProofs.v
DhcpWitness.v
WsFrame.v
WsProofs.v
Shadowsocks.v
ShadowsocksProofs.v
TunnelWitness.v
UdpSession.v
UdpSessionProofs.v
AnyTls.v
AnyTlsProofs.v
AnyTlsPool.v
AnyTlsWitness.v
HttpHead.v
Http.v
HttpHeadProofs.v
HttpProofs.v
WsHandshake.v
WsHandshakeProofs.v
HttpWitness.v
Vmess.v
VmessWitness.v
SsStream.v
Obfs.v
Socks4.v
PxyProto.v
Pool.v
SsrSum.v
SsrProto.v
SsrChain.v
SsrObfs.v
SsrConn.v
SsrObfsProofs.v
SsrCipher.v
SsrChainHead.v
SsrObfsHttp.v
SsrStack.v
Admin.v
MainConfig.v
MainLoop.v
Transport.v
Reconnect.v
