(* ===== verification/Prelude.v ===== *)
(** * Glider: a verification development

    Glider is a forwarding proxy.  A local server (SOCKS5, HTTP, shadowsocks,
    trojan, vless, anytls, WebSocket, UDP tunnels, ...) accepts a connection and reads the
    target the client asks for; the rule proxy chooses a group of upstream forwarders
    for it; the group chooses a forwarder by its strategy, dials with retries and keeps
    track of which forwarders are up; bytes are then relayed.  A DNS server answers
    from static records, a cache and upstream servers, and tells the rule proxy which
    addresses belong to which domain.  smux multiplexes streams over one connection,
    and a DHCP server hands out addresses.

    ** Conventions

    Go strings and byte slices are lists of bytes ([GoSlice] keeps the capacity where
    the code re-slices).  Integers are [Z], with [u16], [u32], [u64], [i32], [i64]
    written where Go wraps.  A call that can fail returns an [outcome]: [Ok], [Err],
    [Panic] (index or slice bound, nil dereference) or [OutOfFuel].  Objects shared by
    pointer live in a store that is part of the state.  What the network, the clock,
    the random source or a library answers is an argument; cryptography is an argument
    with its documented laws as a class.  Goroutines that share state are steps of a
    relation or of an executable step function over events, one per atomic action or
    critical section, and the theorems quantify over all interleavings.

    ** Files

    - [Prelude], [GoStd], [GoSlice], [Reader]: automation, integers, bytes, the parts of
      the standard library the code uses, the monad for code that reads a stream with
      [io.ReadFull] and the queue of messages that specifies framed readers.
    - [ProxyConn]: src/proxy/conn.go (copy loops), the interface [ProxyDialer] a server
      needs of the proxy, and the end of the [Serve] methods ([serve_header],
      [serve_target], [serveFallback]).
    - [Forward], [Group], [GroupRotation], [GroupDial], [GroupSched], [GroupInv]: src/rule/forward.go,
      group.go, check.go.  [Forward] is written against the class [FwdrWorld], which
      [Group] implements.
    - [DomainWalk], [RuleProxy], [Status], [RuleWitness]: src/rule/proxy.go, config.go, status.go.
    - [DnsMessage], [DnsSafety], [DnsCache], [DnsCacheRef], [DnsClient], [DnsClientProofs], [DnsWitness]:
      src/dns.
    - [SmuxFrame], [SmuxStream], [SmuxSession], [SmuxShaper], their proofs and [SmuxWitness]: src/pkg/smux.
    - [SocksAddr], [Trojan], [Vless], [Dialogue], [Socks5], [Socks5Proofs], [ProtoWitness]: src/pkg/socks,
      src/proxy/trojan, vless, socks5.  [Dialogue] runs two programs against each other.
    - [Dhcp], [DhcpProofs], [DhcpWitness]: src/service/dhcpd.
    - [WsFrame], [WsProofs]: src/proxy/ws/frame.go.  [Shadowsocks], [ShadowsocksProofs]: src/proxy/ss and its
      AEAD ciphers, over an abstract AEAD.  [TunnelWitness]: runs of both.
    - [UdpSession], [UdpSessionProofs]: the session table of the UDP servers of socks5, ss, udp,
      unix and tproxy.
    - [AnyTls], [AnyTlsProofs], [AnyTlsPool], [AnyTlsWitness]: src/proxy/anytls and its sessions.
    - [HttpHead], [Http], [HttpHeadProofs], [HttpProofs], [WsHandshake], [WsHandshakeProofs], [HttpWitness]:
      src/proxy/http and the HTTP upgrade of src/proxy/ws; [HttpHead] is the part of
      net/textproto and base64 they use.
    - [Vmess], [VmessWitness]: src/proxy/vmess.  [SsStream]:
      src/proxy/ss/cipher, its table and its stream ciphers.  [Obfs]: src/proxy/obfs.
    - [Socks4]: src/proxy/socks4.  [PxyProto]: src/proxy/pxyproto and src/proxy/mixed.  [Pool]:
      src/pkg/pool/buffer.go.
    - src/proxy/ssr: [SsrSum] (checksums), [SsrProto] (origin, verify_sha1, auth_sha1_v4,
      auth_aes128), [SsrChain], [SsrChainHead] (auth_chain_a and b), [SsrObfs], [SsrObfsProofs],
      [SsrObfsHttp] (disguises), [SsrCipher] (ciphers), [SsrConn] (the connection, over the
      interfaces [IObfs] and [IProtocol]), [SsrStack] (the registries, the dialer, examples).
    - [Admin]: src/admin and the address check of src/config.go.  [MainConfig]: src/config.go,
      src/rule/config.go, the registries of src/proxy/server.go and src/service, src/ipset, and the
      start of src/service/dhcpd.
      [MainLoop]: src/main.go, over the configurations and the rule proxy.
    - [Transport]: src/proxy/direct.go, reject, and what tcp, tls, kcp, unix, vsock, redir and the smux
      server have of their own: options and [Serve] over the rule proxy.  [Reconnect]: the
      clients of src/proxy/smux, over the sessions of [SmuxSession], and of src/proxy/ssh.

    ** What is shown

    - Groups: the rotation is exactly the enabled forwarders of the best priority under
      every interleaving of status changes ([rotation_exact]); through any sequence of
      operations a group stays usable ([group_lifetime]); [Dial] tries distinct candidates
      in order until one answers, all have failed or its budget is spent, and charges
      failures to the right forwarder; round robin is fair, latency-based HA optimal up to
      the tolerance.
    - Routing: a dial on any published generation reaches a live group
      ([Proxy_Dial_total]); the suffix walk is the search of the shortest suffix with a rule.
    - DNS: messages survive a round trip; on which bytes the parser returns, panics or
      never returns, and that a fuel of the message's length decides; the linked LRU cache
      implements a recency list ([lru_refines]); upstream servers are tried in ring order;
      answers are cached with bounded lifetimes.
    - smux: bytes written are bytes read; a write round keeps within the peer's window
      across wrap-around; the token bucket accounts for every buffered byte up to the one
      frame that is not debited yet; the shaper is a priority queue.
    - Protocols: addresses are self-delimiting and print and parse back; the server of
      trojan, vless, SOCKS5 and shadowsocks serves the target the client named and relays
      exactly what follows; a rejected trojan connection reaches the fallback unchanged;
      SOCKS5 credentials are required.
    - Tunnels: the WebSocket and shadowsocks readers implement a queue of messages, for
      any buffers; no nonce is used twice.
    - HTTP: a forwarded head is one head with the client's bytes after it; CONNECT
      opens the tunnel the client asked for; credentials are required; the two sides of
      the WebSocket upgrade accept each other.
    - anytls: a session's pool and streams through any interleaving of their goroutines,
      each channel operation and count a step, and its frames on the wire.
    - vmess: the header opens to what the client meant (a legacy one if the clock reads the
      same second twice); chunked streams are read as the queue of chunks written; how far
      the nonces go.  Stream ciphers and both disguises of simple-obfs are transparent, the
      TLS disguise's first write is a well-formed client hello that carries the data.
    - SOCKS 4 requests say the target; the PROXY header is taken exactly when well formed;
      pooled buffers in use never overlap and stay inside their allocations.
    - shadowsocksR: a connection over any disguise and protocol that keep their promise reads
      what its peer sent ([ssr_reads]); the plain and TLS disguises and the origin,
      auth_sha1_v4 and auth_aes128 protocols keep it, and the two ends of auth_chain stay in
      step; every cipher of the table works and the Salsa20 stream is one keystream; the
      checksums are the standard ones, the key derivation that of shadowsocks; the TLS hello
      is well formed and the HTTP request carries its data.
    - UDP servers: packets of a source are delivered in order and once; exactly when the
      reading goroutine can stop for good.
    - DHCP: a running lease is exclusive; reserved addresses are kept for their hosts whatever
      happens ([dhcp_static]).
    - The program: through any signals routing and settings come from the configurations that
      parsed and built, and nothing bound at start changes ([main_reloads]); the metrics
      parse back to one sample per value with distinct series ([admin_metrics]); a resolved
      address goes into the set of every matching domain ([ipset_resolved]).
    - Transports: what a refused tunnel connection is charged for ([tunnel_dial_charges]); the
      direct dialer uses the first local address that connects; the smux and ssh clients
      keep one connection, leak none and never panic ([smux_client_one_session],
      [ssh_one_connection]).
    - Defects: the theorems named [*_panics], [*_loop], [*_endless], [*_spins], [*_stuck], [*_deadlock],
      [*_wedged] state inputs on which the code panics, never returns or stops serving.

    ** Fuel and bounds

    Recursion that is not structural takes fuel, and the theorems say how much is enough:
    a DNS name needs one more step than the message has bytes, or is never read
    ([domain_fuel_enough]); a [Write] of n bytes needs n rounds; [Dial] needs its number of
    candidates.  A loop of the code that runs for ever is a theorem that no fuel is enough.
    Payloads are assumed shorter than 2^63 bytes, as any Go slice is; an AEAD overhead of
    at most 8000 bytes makes a chunk fit in the buffers of the code (real ones have 16).

    ** Not modelled

    Listening and accepting, the TLS, SSH, KCP, netlink and flag libraries, JSON encoding, and the
    system calls of transparent proxying and vsock sockets are calls of the system or of
    libraries around the modelled logic, and arguments of the model where their answer
    matters; logging, usage texts and platform stubs have no behaviour to state.  The DHCP
    client only calls a library on a raw socket.  Of vmess, obfs, pxyproto and mixed, the calls
    of the dialer or listener below are left out; of ssr the parsing of the URL and the
    pooled buffers of a connection. *)
From Stdlib Require Export ZArith Lia Strings.Byte Strings.String.
From stdpp Require Export base numbers strings fin_maps gmap list.

Declare Scope go_scope.
Delimit Scope go_scope with go.
#[global] Open Scope Z_scope.

(** ** Automation *)

(** The comparisons of the code stay folded under [simpl]. *)
#[global] Arguments Nat.leb : simpl never.
#[global] Arguments Nat.ltb : simpl never.
#[global] Arguments Nat.eqb : simpl never.
#[global] Arguments Nat.min : simpl never.
#[global] Arguments Nat.max : simpl never.

Create HintDb go.

(** Case analysis on every [match]/[if] of the goal and the context, clearing
    the impossible branches. *)
Ltac go_cases := repeat (case_match; simplify_eq/=; try done).

(** Turn boolean tests of the code into propositions. *)
Ltac bools :=
  repeat match goal with
  | H : (_ && _)%bool = true |- _ => apply andb_true_iff in H as [? ?]
  | H : (_ || _)%bool = false |- _ => apply orb_false_iff in H as [? ?]
  | H : negb _ = true |- _ => apply negb_true_iff in H
  | H : negb _ = false |- _ => apply negb_false_iff in H
  | H : (_ =? _)%Z = true |- _ => apply Z.eqb_eq in H
  | H : (_ =? _)%Z = false |- _ => apply Z.eqb_neq in H
  | H : (_ <? _)%Z = true |- _ => apply Z.ltb_lt in H
  | H : (_ <? _)%Z = false |- _ => apply Z.ltb_ge in H
  | H : (_ <=? _)%Z = true |- _ => apply Z.leb_le in H
  | H : (_ <=? _)%Z = false |- _ => apply Z.leb_gt in H
  | H : (_ =? _)%nat = true |- _ => apply Nat.eqb_eq in H
  | H : (_ =? _)%nat = false |- _ => apply Nat.eqb_neq in H
  | H : (_ <? _)%nat = true |- _ => apply Nat.ltb_lt in H
  | H : (_ <? _)%nat = false |- _ => apply Nat.ltb_ge in H
  | H : (_ <=? _)%nat = true |- _ => apply Nat.leb_le in H
  | H : (_ <=? _)%nat = false |- _ => apply Nat.leb_gt in H
  end.

(** ** Results of Go functions *)

(** A Go error value, identified by its message. *)
Definition error := string.

(** What a call of a Go function does: it returns a value ([Ok]), it returns a
    non-nil error ([Err]), it panics ([Panic]: an index or slice bound out of
    range, a nil map write, a division by zero), or the model ran out of fuel
    ([OutOfFuel]: the call has not returned after that many nested calls). *)
Inductive outcome (A : Type) : Type :=
| Ok (a : A)
| Err (e : error)
| Panic
| OutOfFuel.
Arguments Ok {A} a.
Arguments Err {A} e.
Arguments Panic {A}.
Arguments OutOfFuel {A}.

Definition is_ok {A} (x : outcome A) : bool := match x with Ok _ => true | _ => false end.

#[global] Instance outcome_ret : MRet outcome := fun A a => Ok a.
#[global] Instance outcome_bind : MBind outcome := fun A B f m =>
  match m with
  | Ok a => f a
  | Err e => Err e
  | Panic => Panic
  | OutOfFuel => OutOfFuel
  end.

#[global] Instance outcome_eq_dec `{EqDecision A} : EqDecision (outcome A).
Proof. solve_decision. Defined.

Lemma bind_ret {A B} (a : A) (f : A → outcome B) : Ok a ≫= f = f a.
Proof. done. Qed.

Lemma bind_Ok {A B} (m : outcome A) (f : A → outcome B) b :
  m ≫= f = Ok b ↔ ∃ a, m = Ok a ∧ f a = Ok b.
Proof. destruct m; simpl; (split; [intros ?|intros (? & ? & ?)]); simplify_eq; eauto. Qed.

Lemma bind_Panic {A B} (m : outcome A) (f : A → outcome B) :
  m ≫= f = Panic ↔ m = Panic ∨ ∃ a, m = Ok a ∧ f a = Panic.
Proof.
  destruct m; simpl; (split; [intros ?|intros [|(? & ? & ?)]]); simplify_eq; eauto.
Qed.

(** ** Machine integers *)

Definition u8 (z : Z) : Z := z mod 2 ^ 8.
Definition u16 (z : Z) : Z := z mod 2 ^ 16.
Definition u32 (z : Z) : Z := z mod 2 ^ 32.
Definition u64 (z : Z) : Z := z mod 2 ^ 64.
Definition i32 (z : Z) : Z := (z + 2 ^ 31) mod 2 ^ 32 - 2 ^ 31.
Definition i64 (z : Z) : Z := (z + 2 ^ 63) mod 2 ^ 64 - 2 ^ 63.

Lemma u16_small z : 0 <= z < 2 ^ 16 → u16 z = z.
Proof. intros. apply Z.mod_small. lia. Qed.
Lemma u32_small z : 0 <= z < 2 ^ 32 → u32 z = z.
Proof. intros. apply Z.mod_small. lia. Qed.
Lemma u16_range z : 0 <= u16 z < 2 ^ 16.
Proof. apply Z.mod_pos_bound. lia. Qed.
Lemma u32_range z : 0 <= u32 z < 2 ^ 32.
Proof. apply Z.mod_pos_bound. lia. Qed.
Lemma u32_idem z : u32 (u32 z) = u32 z.
Proof. apply Z.mod_mod. lia. Qed.
Lemma i32_range z : - 2 ^ 31 <= i32 z < 2 ^ 31.
Proof. unfold i32. pose proof (Z.mod_pos_bound (z + 2 ^ 31) (2 ^ 32)). lia. Qed.
Lemma i32_small z : - 2 ^ 31 <= z < 2 ^ 31 → i32 z = z.
Proof. intros. unfold i32. rewrite Z.mod_small; lia. Qed.
Lemma i64_small z : - 2 ^ 63 <= z < 2 ^ 63 → i64 z = z.
Proof. intros. unfold i64. rewrite Z.mod_small; lia. Qed.

(** Signed 32-bit wrap-around is a congruence: every 32-bit addition can be
    read modulo [2^32]. *)
Lemma i32_add_l a b : i32 (i32 a + b) = i32 (a + b).
Proof.
  unfold i32. f_equal.
  replace ((a + 2 ^ 31) `mod` 2 ^ 32 - 2 ^ 31 + b + 2 ^ 31)
    with ((a + 2 ^ 31) `mod` 2 ^ 32 + b) by lia.
  rewrite Zplus_mod_idemp_l. f_equal. lia.
Qed.

#[export] Hint Resolve u16_range u32_range i32_range : go.

(** ** Bytes *)

Definition b2z (b : byte) : Z := Z.of_N (Byte.to_N b).
Definition z2b (z : Z) : byte :=
  match Byte.of_N (Z.to_N (z mod 256)) with Some b => b | None => x00 end.

#[global] Instance byte_eq_dec : EqDecision byte := Byte.byte_eq_dec.

Lemma b2z_range b : 0 <= b2z b < 256.
Proof. unfold b2z. pose proof (Byte.to_N_bounded b). lia. Qed.

Lemma b2z_z2b z : b2z (z2b z) = z mod 256.
Proof.
  unfold b2z, z2b. pose proof (Z.mod_pos_bound z 256 ltac:(lia)).
  destruct (Byte.of_N _) eqn:E.
  - apply Byte.to_of_N in E. lia.
  - apply Byte.of_N_None_iff in E. lia.
Qed.

Lemma z2b_b2z b : z2b (b2z b) = b.
Proof.
  unfold z2b, b2z. pose proof (Byte.to_N_bounded b).
  rewrite Z.mod_small by lia. rewrite N2Z.id, Byte.of_to_N. done.
Qed.

Lemma b2z_inj a b : b2z a = b2z b → a = b.
Proof. intros H. rewrite <- (z2b_b2z a), <- (z2b_b2z b). by f_equal. Qed.

Lemma b2z_z2b_small z : 0 <= z < 256 → b2z (z2b z) = z.
Proof. intros. rewrite b2z_z2b. apply Z.mod_small. lia. Qed.

#[export] Hint Resolve b2z_range : go.

#[global] Program Instance byte_countable : Countable byte :=
  inj_countable' b2z z2b z2b_b2z.

(** Go strings are byte sequences; a string literal of the source is [lit]. *)
Definition lit (s : string) : list byte := String.list_byte_of_string s.
Arguments lit s%_string.

(** ** Byte orders ([encoding/binary]) *)

(** [n] bytes of [z], most significant first. *)
Fixpoint be_bytes (n : nat) (z : Z) : list byte :=
  match n with
  | O => []
  | S n' => z2b (z / 256 ^ Z.of_nat n') :: be_bytes n' z
  end.

(** [n] bytes of [z], least significant first. *)
Fixpoint le_bytes (n : nat) (z : Z) : list byte :=
  match n with
  | O => []
  | S n' => z2b z :: le_bytes n' (z / 256)
  end.

Fixpoint be_val (l : list byte) : Z :=
  match l with
  | [] => 0
  | b :: l' => b2z b * 256 ^ Z.of_nat (length l') + be_val l'
  end.

Fixpoint le_val (l : list byte) : Z :=
  match l with
  | [] => 0
  | b :: l' => b2z b + 256 * le_val l'
  end.

Lemma length_be_bytes n z : length (be_bytes n z) = n.
Proof. induction n; simpl; congruence. Qed.
Lemma length_le_bytes n z : length (le_bytes n z) = n.
Proof. revert z. induction n; intros; simpl; [done|]. by rewrite IHn. Qed.

Lemma pow256_succ n : 256 ^ Z.of_nat (S n) = 256 * 256 ^ Z.of_nat n.
Proof. rewrite Nat2Z.inj_succ, Z.pow_succ_r; lia. Qed.

Lemma pow256_pos n : 0 < 256 ^ Z.of_nat n.
Proof. apply Z.pow_pos_nonneg; lia. Qed.

Lemma be_val_range l : 0 <= be_val l < 256 ^ Z.of_nat (length l).
Proof.
  induction l as [|b l IH]; simpl length; [simpl; lia|].
  rewrite pow256_succ. simpl. pose proof (b2z_range b). nia.
Qed.

Lemma le_val_range l : 0 <= le_val l < 256 ^ Z.of_nat (length l).
Proof.
  induction l as [|b l IH]; simpl length; [simpl; lia|].
  rewrite pow256_succ. simpl. pose proof (b2z_range b). lia.
Qed.

Lemma be_val_bytes n z : be_val (be_bytes n z) = z mod 256 ^ Z.of_nat n.
Proof.
  induction n as [|n IH]; [simpl; by rewrite Z.mod_1_r|].
  simpl be_bytes. simpl be_val.
  rewrite length_be_bytes, IH, b2z_z2b, pow256_succ.
  pose proof (pow256_pos n).
  rewrite (Z.mul_comm 256), Z.rem_mul_r by lia. lia.
Qed.

Lemma le_val_bytes n z : le_val (le_bytes n z) = z mod 256 ^ Z.of_nat n.
Proof.
  revert z. induction n as [|n IH]; intros z; [simpl; by rewrite Z.mod_1_r|].
  simpl le_bytes. simpl le_val. rewrite IH, b2z_z2b, pow256_succ.
  pose proof (pow256_pos n). rewrite Z.rem_mul_r by lia. done.
Qed.

Lemma be_bytes_mod n z m :
  (n <= m)%nat → be_bytes n (z mod 256 ^ Z.of_nat m) = be_bytes n z.
Proof.
  revert m. induction n as [|n IH]; intros m Hm; simpl; [done|].
  rewrite IH by lia. f_equal. apply b2z_inj. rewrite !b2z_z2b.
  replace (Z.of_nat m) with (Z.of_nat n + Z.of_nat (m - n)) by lia.
  pose proof (pow256_pos n). pose proof (pow256_pos (m - n - 1)).
  rewrite Z.pow_add_r by lia.
  rewrite Z.rem_mul_r by lia.
  rewrite (Z.mul_comm (256 ^ Z.of_nat n)), Z.div_add by lia.
  rewrite Z.div_small by (apply Z.mod_pos_bound; lia). rewrite Z.add_0_l.
  replace (m - n)%nat with (S (m - n - 1)) by lia. rewrite pow256_succ.
  rewrite Z.rem_mul_r by lia.
  rewrite (Z.mul_comm 256), Z.mod_add by lia. by rewrite Z.mod_mod by lia.
Qed.

Lemma be_bytes_val l : be_bytes (length l) (be_val l) = l.
Proof.
  induction l as [|b l IH]; [done|]. simpl.
  pose proof (be_val_range l) as Hr. pose proof (pow256_pos (length l)).
  f_equal.
  - rewrite Z.div_add_l, Z.div_small by lia. rewrite Z.add_0_r. apply z2b_b2z.
  - etransitivity; [|exact IH].
    rewrite <- (be_bytes_mod (length l) (_ + _) (length l)) by lia.
    f_equal. rewrite Z.add_comm, Z.mod_add by lia. apply Z.mod_small. lia.
Qed.

Lemma le_bytes_val l : le_bytes (length l) (le_val l) = l.
Proof.
  induction l as [|b l IH]; [done|]. simpl. f_equal.
  - apply b2z_inj. rewrite b2z_z2b, Z.mul_comm, Z.mod_add by lia.
    apply Z.mod_small, b2z_range.
  - replace ((b2z b + 256 * le_val l) / 256) with (le_val l); [done|].
    rewrite Z.mul_comm, Z.div_add by lia.
    rewrite Z.div_small by apply b2z_range. lia.
Qed.

(** The widths the program uses. *)
Lemma be16_id z : 0 <= z < 2 ^ 16 → be_val (be_bytes 2 z) = z.
Proof. intros. rewrite be_val_bytes. apply Z.mod_small. lia. Qed.
Lemma be32_id z : 0 <= z < 2 ^ 32 → be_val (be_bytes 4 z) = z.
Proof. intros. rewrite be_val_bytes. apply Z.mod_small. lia. Qed.
Lemma le16_id z : 0 <= z < 2 ^ 16 → le_val (le_bytes 2 z) = z.
Proof. intros. rewrite le_val_bytes. apply Z.mod_small. lia. Qed.
Lemma le32_id z : 0 <= z < 2 ^ 32 → le_val (le_bytes 4 z) = z.
Proof. intros. rewrite le_val_bytes. apply Z.mod_small. lia. Qed.


#[global] Arguments be_bytes : simpl never.
#[global] Arguments le_bytes : simpl never.
#[global] Arguments be_val : simpl never.
#[global] Arguments le_val : simpl never.

(** ** Durations ([time.Duration] counts nanoseconds) *)

Definition second : Z := 1000000000.
Definition millisecond : Z := 1000000.

(** ** Package io *)

Definition EOF : error := "EOF".
Definition ErrUnexpectedEOF : error := "unexpected EOF".
Definition ErrClosedPipe : error := "io: read/write on closed pipe".

(** [io.ReadFull] of [n] bytes from a stream that ends after [s]. *)
Definition ReadFull (n : nat) (s : list byte) : outcome (list byte * list byte) :=
  if (n <=? length s)%nat then Ok (take n s, drop n s)
  else Err (if bool_decide (s = []) then EOF else ErrUnexpectedEOF).

Lemma ReadFull_app l s : ReadFull (length l) (l ++ s) = Ok (l, s).
Proof.
  unfold ReadFull. rewrite length_app, (proj2 (Nat.leb_le _ _)) by lia.
  by rewrite take_app_length, drop_app_length.
Qed.

Lemma ReadFull_exact n l s : length l = n → ReadFull n (l ++ s) = Ok (l, s).
Proof. intros <-. apply ReadFull_app. Qed.

Lemma ReadFull_Ok n s l r : ReadFull n s = Ok (l, r) → s = l ++ r ∧ length l = n.
Proof.
  unfold ReadFull. destruct (n <=? length s)%nat eqn:E; [|done]. apply Nat.leb_le in E.
  intros [= <- <-]. rewrite take_drop, length_take. split; [done|lia].
Qed.

Lemma ReadFull_cases n s :
  (∃ l r, ReadFull n s = Ok (l, r)) ∨ (∃ e, ReadFull n s = Err e ∧ (length s < n)%nat).
Proof.
  unfold ReadFull. destruct (n <=? length s)%nat eqn:E; [by left; eauto|]. right.
  apply Nat.leb_gt in E. eauto.
Qed.
