(* ===== verification/GoStd.v ===== *)
(** Go standard library, as far as the modelled code uses it: [strings],
    [strconv], [net.SplitHostPort] / [net.JoinHostPort], [net/netip] addresses
    and prefixes.  A Go string is the list of its bytes.  [strings.ToLower] is
    modelled on ASCII, the alphabet of host names and URL schemes. *)
From S2P Require Import Prelude.

(** ** Package strings *)

Definition byte_of (s : string) : byte :=
  match lit s with b :: _ => b | [] => x00 end.

Definition c_dot : byte := x2e.
Definition c_colon : byte := x3a.
Definition c_comma : byte := x2c.
Definition c_hash : byte := x23.
Definition c_slash : byte := x2f.
Definition c_percent : byte := x25.
Definition c_lbr : byte := x5b.
Definition c_rbr : byte := x5d.

(** [strings.IndexByte], [None] for -1. *)
Fixpoint index_byte (s : list byte) (c : byte) : option nat :=
  match s with
  | [] => None
  | b :: s' => if decide (b = c) then Some 0%nat else S <$> index_byte s' c
  end.

(** [strings.LastIndexByte], [None] for -1. *)
Fixpoint last_index_byte (s : list byte) (c : byte) : option nat :=
  match s with
  | [] => None
  | b :: s' =>
      match last_index_byte s' c with
      | Some i => Some (S i)
      | None => if decide (b = c) then Some 0%nat else None
      end
  end.

(** [strings.Split] with a one-byte separator. *)
Fixpoint split_byte (sep : byte) (s : list byte) : list (list byte) :=
  match s with
  | [] => [[]]
  | b :: s' =>
      if decide (b = sep) then [] :: split_byte sep s'
      else match split_byte sep s' with
           | seg :: rest => (b :: seg) :: rest
           | [] => [[b]]
           end
  end.

(** [strings.Join]. *)
Fixpoint join_bytes (sep : list byte) (l : list (list byte)) : list byte :=
  match l with
  | [] => []
  | [s] => s
  | s :: l' => s ++ sep ++ join_bytes sep l'
  end.

(** [strings.Cut] with a one-byte separator. *)
Definition cut_byte (s : list byte) (sep : byte) : option (list byte * list byte) :=
  match index_byte s sep with
  | Some i => Some (take i s, drop (S i) s)
  | None => None
  end.

Definition has_prefix (s p : list byte) : bool := bool_decide (take (length p) s = p).
Definition has_suffix (s p : list byte) : bool :=
  bool_decide (drop (length s - length p) s = p).

(** [strings.Contains]. *)
Fixpoint contains (s sub : list byte) : bool :=
  has_prefix s sub || match s with [] => false | _ :: s' => contains s' sub end.

Definition trim_suffix (s p : list byte) : list byte :=
  if has_suffix s p then take (length s - length p) s else s.

(** [filepath.Base] and [filepath.Ext] on a slash-separated path. *)
Fixpoint drop_slashes (s : list byte) : list byte :=
  match s with
  | c :: s' => if bool_decide (c = c_slash) then drop_slashes s' else s
  | [] => []
  end.

Definition path_last (s : list byte) : list byte :=
  match last_index_byte s c_slash with Some i => drop (S i) s | None => s end.

Definition path_Base (path : list byte) : list byte :=
  if bool_decide (path = []) then lit "."
  else
    let p := path_last (rev (drop_slashes (rev path))) in
    if bool_decide (p = []) then lit "/" else p.

Definition path_Ext (path : list byte) : list byte :=
  let p := path_last path in
  match last_index_byte p c_dot with Some i => drop i p | None => [] end.

Definition lower_byte (b : byte) : byte :=
  if (65 <=? b2z b) && (b2z b <=? 90) then z2b (b2z b + 32) else b.
Definition to_lower (s : list byte) : list byte := map lower_byte s.

Lemma last_index_byte_Some s c i :
  last_index_byte s c = Some i →
  s !! i = Some c ∧ (c ∉ drop (S i) s) ∧ (i < length s)%nat.
Proof.
  revert i. induction s as [|b s IH]; simpl; [done|]. intros i.
  destruct (last_index_byte s c) as [j|] eqn:E.
  - intros [= <-]. destruct (IH j eq_refl) as (? & ? & ?). simpl. auto with lia.
  - case_decide as Hb; [|done]. intros [= <-]. subst. simpl. repeat split; [|lia].
    rewrite drop_0. clear IH. induction s as [|a s IH]; [set_solver|].
    simpl in E. destruct (last_index_byte s c); [done|].
    case_decide; [done|]. intros [<-|?]%elem_of_cons; [done|]. by apply IH.
Qed.

Lemma last_index_byte_None s c : last_index_byte s c = None ↔ c ∉ s.
Proof.
  induction s as [|b s IH]; simpl; [set_solver|].
  destruct (last_index_byte s c) as [j|].
  - split; [done|]. intros H. exfalso.
    assert (c ∉ s) as Hs by set_solver. by apply IH in Hs.
  - case_decide; subst; [split; [done|set_solver]|]. set_solver.
Qed.

Lemma index_byte_None s c : index_byte s c = None ↔ c ∉ s.
Proof.
  induction s as [|b s IH]; simpl; [set_solver|].
  case_decide; subst; [split; [done|set_solver]|].
  destruct (index_byte s c); simpl; set_solver.
Qed.

Lemma index_byte_app s1 c s2 : c ∉ s1 → index_byte (s1 ++ c :: s2) c = Some (length s1).
Proof.
  induction s1 as [|b s1 IH]; simpl; intros H; [by rewrite decide_True|].
  rewrite decide_False by set_solver. rewrite IH by set_solver. done.
Qed.

Lemma cut_byte_app a c b : c ∉ a → cut_byte (a ++ c :: b) c = Some (a, b).
Proof.
  intros Ha. unfold cut_byte. rewrite index_byte_app by done.
  rewrite take_app_length. by rewrite drop_app_ge, Nat.sub_succ_l, Nat.sub_diag by lia.
Qed.

Lemma index_byte_Some s c i : index_byte s c = Some i → s !! i = Some c ∧ c ∉ take i s.
Proof.
  revert i. induction s as [|b s IH]; simpl; [done|]. intros i.
  case_decide as Hb; [intros [= <-]; subst; split; [done|apply not_elem_of_nil]|].
  destruct (index_byte s c) as [j|]; [|done]. intros [= <-]. destruct (IH j eq_refl) as [Hj Hn].
  split; [done|]. simpl. by apply not_elem_of_cons.
Qed.

Lemma cut_byte_Some s c a b : cut_byte s c = Some (a, b) → s = a ++ c :: b ∧ c ∉ a.
Proof.
  unfold cut_byte. destruct (index_byte s c) as [i|] eqn:E; [|done]. intros [= <- <-].
  apply index_byte_Some in E as [Hi Hn]. split; [|done]. symmetry. by apply take_drop_middle.
Qed.

Lemma last_index_byte_app s1 c s2 :
  c ∉ s2 → last_index_byte (s1 ++ c :: s2) c = Some (length s1).
Proof.
  intros H. induction s1 as [|b s1 IH]; simpl.
  - apply last_index_byte_None in H. rewrite H. by rewrite decide_True.
  - by rewrite IH.
Qed.

Lemma split_byte_nonempty sep s : split_byte sep s ≠ [].
Proof. destruct s; simpl; [done|]. case_decide; [done|]. by case_match. Qed.

Lemma split_byte_nosep sep s : sep ∉ s → split_byte sep s = [s].
Proof.
  induction s as [|b s IH]; simpl; [done|]. intros H.
  rewrite decide_False by set_solver. by rewrite IH by set_solver.
Qed.

Lemma split_byte_app sep s1 s2 :
  sep ∉ s1 → split_byte sep (s1 ++ sep :: s2) = s1 :: split_byte sep s2.
Proof.
  induction s1 as [|b s1 IH]; simpl; intros H; [by rewrite decide_True|].
  rewrite decide_False by set_solver. by rewrite IH by set_solver.
Qed.

(** [strings.Split] undoes [strings.Join] on separator-free pieces. *)
Lemma split_join sep l :
  l ≠ [] → Forall (λ s, sep ∉ s) l → split_byte sep (join_bytes [sep] l) = l.
Proof.
  induction l as [|s l IH]; [done|]. intros _ [Hs Hl]%Forall_cons_1.
  destruct l as [|s' l].
  - simpl. by apply split_byte_nosep.
  - change (join_bytes [sep] (s :: s' :: l)) with
      (s ++ [sep] ++ join_bytes [sep] (s' :: l)).
    simpl app. rewrite split_byte_app by done. f_equal. by apply IH.
Qed.

Lemma join_split sep s : join_bytes [sep] (split_byte sep s) = s.
Proof.
  induction s as [|b s IH]; [done|]. simpl.
  pose proof (split_byte_nonempty sep s) as Hne.
  case_decide as Hb; subst.
  - destruct (split_byte sep s) as [|x l]; [done|].
    simpl in *. by rewrite IH.
  - destruct (split_byte sep s) as [|x l]; [done|]. destruct l; simpl in *; by rewrite IH.
Qed.

(** ** Package strconv *)

Definition is_digit (b : byte) : bool := (48 <=? b2z b) && (b2z b <=? 57).
Definition ErrSyntax : error := "invalid syntax".
Definition ErrRange : error := "value out of range".

Fixpoint parse_uint_loop (maxVal n : Z) (s : list byte) : Z * option error :=
  match s with
  | [] => (n, None)
  | c :: s' =>
      if is_digit c then
        let n1 := n * 10 + (b2z c - 48) in
        if maxVal <? n1 then (maxVal, Some ErrRange) else parse_uint_loop maxVal n1 s'
      else (0, Some ErrSyntax)
  end.

(** [strconv.ParseUint(s, 10, bitSize)]: the value and the error. *)
Definition parse_uint (s : list byte) (bitSize : Z) : Z * option error :=
  match s with
  | [] => (0, Some ErrSyntax)
  | _ => parse_uint_loop (2 ^ bitSize - 1) 0 s
  end.

Fixpoint dec_digits (fuel : nat) (z : Z) (acc : list byte) : list byte :=
  match fuel with
  | O => acc
  | S fuel' =>
      let acc' := z2b (48 + z mod 10) :: acc in
      if z <? 10 then acc' else dec_digits fuel' (z / 10) acc'
  end.

(** [strconv.FormatUint(z, 10)] and [strconv.Itoa] of a non-negative [z]. *)
Definition format_uint (z : Z) : list byte := dec_digits (Z.to_nat (Z.log2 z + 2)) z [].

Lemma parse_uint_range s bitSize :
  0 <= bitSize → 0 <= (parse_uint s bitSize).1 <= 2 ^ bitSize - 1.
Proof.
  intros Hb. assert (0 < 2 ^ bitSize) by (apply Z.pow_pos_nonneg; lia).
  assert (∀ s n, 0 <= n <= 2 ^ bitSize - 1 →
    0 <= (parse_uint_loop (2 ^ bitSize - 1) n s).1 <= 2 ^ bitSize - 1) as Hl.
  { clear s. intros s. induction s as [|c s IH]; intros n Hn; simpl; [done|].
    destruct (is_digit c) eqn:Ec; simpl; [|lia].
    case_match eqn:E; simpl; [lia|].
    unfold is_digit in Ec. bools. apply IH. lia. }
  destruct s; [simpl; lia|]. apply Hl. lia.
Qed.

Lemma parse_uint_loop_app maxVal s t n m :
  parse_uint_loop maxVal n s = (m, None) →
  parse_uint_loop maxVal n (s ++ t) = parse_uint_loop maxVal m t.
Proof.
  revert n. induction s as [|c s IH]; intros n; simpl; [congruence|].
  destruct (is_digit c); [|done]. case_match; [done|]. apply IH.
Qed.

Lemma digit_of z : 0 <= z < 10 → is_digit (z2b (48 + z)) = true ∧ b2z (z2b (48 + z)) = 48 + z.
Proof.
  intros. rewrite b2z_z2b_small by lia. split; [|done].
  unfold is_digit. rewrite b2z_z2b_small by lia. apply andb_true_iff. split; lia.
Qed.

Lemma dec_digits_parse fuel z acc maxVal :
  0 <= z <= maxVal → z < 2 ^ Z.of_nat fuel → (fuel ≠ 0)%nat →
  ∃ ds, dec_digits fuel z acc = ds ++ acc ∧ ds ≠ [] ∧
        parse_uint_loop maxVal 0 ds = (z, None).
Proof.
  revert z acc. induction fuel as [|fuel IH]; intros z acc Hz Hf Hne; [done|].
  simpl. pose proof (Z.mod_pos_bound z 10 ltac:(lia)) as Hm.
  destruct (digit_of (z mod 10) ltac:(lia)) as [Hd Hv].
  assert (parse_uint_loop maxVal (z / 10) [z2b (48 + z mod 10)] = (z, None)) as Hlast.
  { simpl. rewrite Hd, Hv. pose proof (Z.div_mod z 10).
    rewrite (proj2 (Z.ltb_ge _ _)) by lia. f_equal. lia. }
  destruct (z <? 10) eqn:E; bools.
  - exists [z2b (48 + z mod 10)]. repeat split; [done|].
    by rewrite (Z.div_small z 10) in Hlast by lia.
  - pose proof (Z.div_mod z 10).
    assert (2 ^ Z.of_nat (S fuel) = 2 * 2 ^ Z.of_nat fuel) as Hp.
    { rewrite Nat2Z.inj_succ, Z.pow_succ_r; lia. }
    assert (fuel ≠ 0)%nat as Hne' by (intros ->; simpl in *; lia).
    destruct (IH (z / 10) (z2b (48 + z mod 10) :: acc)) as (ds & -> & Hds & Hp'); [lia..|].
    exists (ds ++ [z2b (48 + z mod 10)]). rewrite <- (assoc (++)).
    repeat split; [by destruct ds|].
    by rewrite (parse_uint_loop_app _ _ _ _ _ Hp').
Qed.

(** [strconv.ParseUint] undoes [strconv.FormatUint] on every value of the width. *)
Lemma parse_format_uint z bitSize :
  0 <= z < 2 ^ bitSize → parse_uint (format_uint z) bitSize = (z, None).
Proof.
  intros Hz. unfold format_uint. pose proof (Z.log2_nonneg z).
  destruct (dec_digits_parse (Z.to_nat (Z.log2 z + 2)) z [] (2 ^ bitSize - 1))
    as (ds & -> & Hne & Hp); [lia| |lia|].
  - rewrite Z2Nat.id by lia. destruct (decide (z = 0)) as [->|]; [done|].
    pose proof (Z.log2_spec z ltac:(lia)) as [_ Hs].
    rewrite Z.add_comm. change 2 with (1 + 1) at 2.
    rewrite <- Z.add_assoc, Z.pow_add_r by lia.
    rewrite <- Z.add_1_r in Hs. rewrite Z.add_comm in Hs. lia.
  - rewrite app_nil_r. unfold parse_uint. by destruct ds.
Qed.

(** ** Package net: host and port *)

Definition missingPort : error := "missing port in address".
Definition tooManyColons : error := "too many colons in address".

(** [net.SplitHostPort]. *)
Definition SplitHostPort (hostport : list byte) : outcome (list byte * list byte) :=
  match last_index_byte hostport c_colon with
  | None => Err missingPort
  | Some i =>
      hjk ← (if bool_decide (head hostport = Some c_lbr) then
               match index_byte hostport c_rbr with
               | None => Err "missing ']' in address"
               | Some e =>
                   if (e + 1 =? length hostport)%nat then Err missingPort
                   else if (e + 1 =? i)%nat then
                     Ok (take (e - 1) (drop 1 hostport), 1%nat, (e + 1)%nat)
                   else if bool_decide (hostport !! (e + 1)%nat = Some c_colon)
                        then Err tooManyColons else Err missingPort
               end
             else
               let host := take i hostport in
               match index_byte host c_colon with
               | Some _ => Err tooManyColons
               | None => Ok (host, 0%nat, 0%nat)
               end);
      let '(host, j, k) := hjk in
      match index_byte (drop j hostport) c_lbr with
      | Some _ => Err "unexpected '[' in address"
      | None =>
          match index_byte (drop k hostport) c_rbr with
          | Some _ => Err "unexpected ']' in address"
          | None => Ok (host, drop (S i) hostport)
          end
      end
  end.

(** The [host, port, _ := net.SplitHostPort(s)] idiom: on an error both results
    are empty strings. *)
Definition SplitHostPort_ (s : list byte) : list byte * list byte :=
  match SplitHostPort s with Ok hp => hp | _ => ([], []) end.

(** [net.JoinHostPort]. *)
Definition JoinHostPort (host port : list byte) : list byte :=
  match index_byte host c_colon with
  | Some _ => lit "[" ++ host ++ lit "]:" ++ port
  | None => host ++ lit ":" ++ port
  end.

(** The colons the address texts have. *)
Lemma JoinHostPort_colon h p : c_colon ∈ JoinHostPort h p.
Proof. unfold JoinHostPort. case_match; set_solver. Qed.

Lemma SplitHostPort_colon s : (SplitHostPort_ s).2 ≠ [] → c_colon ∈ s.
Proof.
  intros H. destruct (decide (c_colon ∈ s)) as [|Hn]; [done|].
  apply last_index_byte_None in Hn. unfold SplitHostPort_, SplitHostPort in H. by rewrite Hn in H.
Qed.

(** A host that [net.JoinHostPort] puts in brackets or leaves as it is without
    creating an ambiguity. *)
Definition host_ok (h : list byte) : Prop := (c_lbr ∉ h) ∧ (c_rbr ∉ h).
Definition port_ok (p : list byte) : Prop := (c_lbr ∉ p) ∧ (c_rbr ∉ p) ∧ (c_colon ∉ p).

(** [net.SplitHostPort] undoes [net.JoinHostPort]. *)
Lemma split_join_host_port h p :
  host_ok h → port_ok p → SplitHostPort (JoinHostPort h p) = Ok (h, p).
Proof.
  intros [Hl Hr] (Pl & Pr & Pc). unfold JoinHostPort.
  destruct (index_byte h c_colon) as [n|] eqn:E.
  - unfold SplitHostPort.
    replace (lit "[" ++ h ++ lit "]:" ++ p) with ((c_lbr :: h ++ [c_rbr]) ++ c_colon :: p)
      by (simpl; by rewrite <- (assoc (++))).
    rewrite last_index_byte_app by done.
    rewrite (bool_decide_true (head _ = _)) by done.
    assert (index_byte ((c_lbr :: h ++ [c_rbr]) ++ c_colon :: p) c_rbr
            = Some (S (length h))) as ->.
    { replace ((c_lbr :: h ++ [c_rbr]) ++ c_colon :: p)
        with ((c_lbr :: h) ++ c_rbr :: (c_colon :: p)) by (simpl; by rewrite <- (assoc (++))).
      rewrite index_byte_app; [done|]. apply not_elem_of_cons. done. }
    simpl length. rewrite !length_app. simpl length.
    rewrite (proj2 (Nat.eqb_neq _ _)) by lia.
    rewrite (proj2 (Nat.eqb_eq _ _)) by lia.
    rewrite bind_ret. simpl take. simpl drop.
    rewrite !drop_0, Nat.sub_0_r.
    rewrite (proj2 (index_byte_None _ _)).
    2:{ rewrite !not_elem_of_app, !not_elem_of_cons. repeat split; try done; by inversion 1. }
    assert (length (h ++ [c_rbr]) = length h + 1)%nat as Hlen by (rewrite length_app; done).
    rewrite !drop_app_ge by lia. rewrite Hlen, Nat.sub_diag, drop_0.
    rewrite (proj2 (index_byte_None _ _)) by (apply not_elem_of_cons; done).
    replace (S (length h + 1) - (length h + 1))%nat with 1%nat by lia.
    do 2 f_equal. rewrite <- (assoc (++)). apply take_app_length.
  - apply index_byte_None in E. unfold SplitHostPort.
    change (lit ":" ++ p) with (c_colon :: p).
    rewrite last_index_byte_app by done.
    rewrite bool_decide_false.
    2:{ destruct h as [|b h]; simpl; [done|]. intros [= ->]. apply Hl. by left. }
    rewrite take_app_length. rewrite (proj2 (index_byte_None h _)) by done.
    rewrite bind_ret, !drop_0.
    rewrite (proj2 (index_byte_None _ _)).
    2:{ rewrite not_elem_of_app, not_elem_of_cons. done. }
    rewrite (proj2 (index_byte_None _ _)).
    2:{ rewrite not_elem_of_app, not_elem_of_cons. done. }
    do 2 f_equal. rewrite drop_app_ge by lia.
    replace (S (length h) - length h)%nat with 1%nat by lia. done.
Qed.

(** ** Package net/netip *)

(** [netip.Addr]: an IPv4 address (4 bytes) or an IPv6 address (16 bytes) with
    its zone, empty for none.  The zero [netip.Addr] is [None] of
    [option Addr]. *)
Inductive Addr :=
| Addr4 (a : list byte)
| Addr6 (a : list byte) (zone : list byte).

#[global] Instance Addr_eq_dec : EqDecision Addr.
Proof. solve_decision. Defined.
#[global] Program Instance Addr_countable : Countable Addr :=
  inj_countable'
    (λ a, match a with Addr4 x => inl x | Addr6 x z => inr (x, z) end)
    (λ s, match s with inl x => Addr4 x | inr (x, z) => Addr6 x z end) _.
Next Obligation. by intros []. Qed.

Definition Is4 (a : Addr) : bool := match a with Addr4 _ => true | Addr6 _ _ => false end.
Definition Is6 (a : Addr) : bool := negb (Is4 a).
Definition AsSlice (a : Addr) : list byte := match a with Addr4 x => x | Addr6 x _ => x end.
Definition addr_zone (a : Addr) : list byte := match a with Addr4 _ => [] | Addr6 _ z => z end.
Definition addr_wf (a : Addr) : Prop :=
  match a with Addr4 x => length x = 4%nat | Addr6 x _ => length x = 16%nat end.

(** [Addr.IsUnspecified]: [0.0.0.0] or [::] without a zone. *)
Definition IsUnspecified (a : Addr) : bool :=
  bool_decide (a = Addr4 (replicate 4 x00)) || bool_decide (a = Addr6 (replicate 16 x00) []).

Definition ErrParseAddr : error := "unable to parse IP".

(** The loop of [parseIPv4Fields]: [val], [digLen] of the current octet, the
    octets read so far, whether the previous byte was a dot (or there was none). *)
Fixpoint parseIPv4_loop (s : list byte) (val : Z) (digLen : nat) (fields : list byte)
    (prevDot : bool) : outcome (list byte) :=
  match s with
  | [] => if (length fields <? 3)%nat then Err ErrParseAddr else Ok (fields ++ [z2b val])
  | c :: s' =>
      if is_digit c then
        if (digLen =? 1)%nat && (val =? 0) then Err ErrParseAddr
        else let val' := val * 10 + (b2z c - 48) in
             if 255 <? val' then Err ErrParseAddr
             else parseIPv4_loop s' val' (S digLen) fields false
      else if bool_decide (c = c_dot) then
        if prevDot || bool_decide (s' = []) then Err ErrParseAddr
        else if (length fields =? 3)%nat then Err ErrParseAddr
        else parseIPv4_loop s' 0 0 (fields ++ [z2b val]) true
      else Err ErrParseAddr
  end.

Definition parseIPv4Fields (s : list byte) : outcome (list byte) :=
  parseIPv4_loop s 0 0 [] true.

Definition hex_val (c : byte) : option Z :=
  if is_digit c then Some (b2z c - 48)
  else if (97 <=? b2z c) && (b2z c <=? 102) then Some (b2z c - 97 + 10)
  else if (65 <=? b2z c) && (b2z c <=? 70) then Some (b2z c - 65 + 10)
  else None.

(** The inner loop of [parseIPv6]: hexadecimal digits; [Err] on a fifth digit
    (the accumulator cannot exceed 16 bits before that). *)
Fixpoint parse_hex_group (s : list byte) (off : nat) (acc : Z) : outcome (nat * Z) :=
  match s with
  | [] => Ok (off, acc)
  | c :: s' =>
      match hex_val c with
      | None => Ok (off, acc)
      | Some d => if (3 <? off)%nat then Err ErrParseAddr
                  else parse_hex_group s' (S off) (acc * 16 + d)
      end
  end.

(** The outer loop of [parseIPv6]: the rest of the text, the bytes read so far
    and the position of the ellipsis; the result is what is left of the text,
    the bytes and the ellipsis.  Each round reads two bytes, eight rounds are
    enough. *)
Fixpoint parseIPv6_loop (rounds : nat) (s ip : list byte) (ellipsis : option nat)
    : outcome (list byte * list byte * option nat) :=
  match rounds with
  | O => Ok (s, ip, ellipsis)
  | S rounds' =>
      if (16 <=? length ip)%nat then Ok (s, ip, ellipsis) else
      g ← parse_hex_group s 0 0;
      let '(off, acc) := g in
      if (off =? 0)%nat then Err ErrParseAddr
      else if bool_decide (s !! off = Some c_dot) then
        if bool_decide (ellipsis = None) && negb (length ip =? 12)%nat then Err ErrParseAddr
        else if (16 <? length ip + 4)%nat then Err ErrParseAddr
        else q ← parseIPv4Fields s; Ok ([], ip ++ q, ellipsis)
      else
        let ip' := ip ++ [z2b (acc / 256); z2b acc] in
        match drop off s with
        | [] => Ok ([], ip', ellipsis)
        | c :: s1 =>
            if bool_decide (c ≠ c_colon) then Err ErrParseAddr
            else match s1 with
                 | [] => Err ErrParseAddr
                 | d :: s2 =>
                     if bool_decide (d = c_colon) then
                       if bool_decide (ellipsis ≠ None) then Err ErrParseAddr
                       else match s2 with
                            | [] => Ok ([], ip', Some (length ip'))
                            | _ => parseIPv6_loop rounds' s2 ip' (Some (length ip'))
                            end
                     else parseIPv6_loop rounds' s1 ip' ellipsis
                 end
        end
  end.

Definition parseIPv6 (in_ : list byte) : outcome Addr :=
  let '(s, zone, zoneErr) :=
    match cut_byte in_ c_percent with
    | None => (in_, [], false)
    | Some (s, z) => (s, z, bool_decide (z = []))
    end in
  if (zoneErr : bool) then Err ErrParseAddr else
  let lead := has_prefix s (lit "::") in
  let s := if lead then drop 2 s else s in
  if lead && bool_decide (s = []) then Ok (Addr6 (replicate 16 x00) zone) else
  r ← parseIPv6_loop 8 s [] (if lead then Some 0%nat else None);
  let '(rest, ip, ellipsis) := r in
  if negb (bool_decide (rest = [])) then Err ErrParseAddr
  else if (length ip <? 16)%nat then
    match ellipsis with
    | None => Err ErrParseAddr
    | Some e => Ok (Addr6 (take e ip ++ replicate (16 - length ip) x00 ++ drop e ip) zone)
    end
  else if bool_decide (ellipsis ≠ None) then Err ErrParseAddr
  else Ok (Addr6 ip zone).

(** [netip.ParseAddr]: the first of '.', ':' and '%' decides the family. *)
Fixpoint ParseAddr_scan (s whole : list byte) : outcome Addr :=
  match s with
  | [] => Err ErrParseAddr
  | c :: s' =>
      if bool_decide (c = c_dot) then a ← parseIPv4Fields whole; Ok (Addr4 a)
      else if bool_decide (c = c_colon) then parseIPv6 whole
      else if bool_decide (c = c_percent) then Err ErrParseAddr
      else ParseAddr_scan s' whole
  end.
Definition ParseAddr (s : list byte) : outcome Addr := ParseAddr_scan s s.

(** [netip.Prefix]. *)
Record Prefix := MkPrefix { pfx_addr : Addr; pfx_bits : nat }.

#[global] Instance Prefix_eq_dec : EqDecision Prefix.
Proof. solve_decision. Defined.
#[global] Program Instance Prefix_countable : Countable Prefix :=
  inj_countable' (λ p, (pfx_addr p, pfx_bits p)) (λ '(a, n), MkPrefix a n) _.
Next Obligation. by intros []. Qed.

(** [netip.ParsePrefix]: an address without zone, '/', and a decimal length
    without sign or leading zero that fits the family. *)
Definition ParsePrefix (s : list byte) : outcome Prefix :=
  match last_index_byte s c_slash with
  | None => Err "no '/'"
  | Some i =>
      ip ← ParseAddr (take i s);
      if negb (bool_decide (addr_zone ip = [])) then
        Err "IPv6 zones cannot be present in a prefix"
      else
        let bitsStr := drop (S i) s in
        if (1 <? length bitsStr)%nat &&
           match bitsStr with c :: _ => (b2z c <? 49) || (57 <? b2z c) | [] => false end
        then Err "bad bits after slash"
        else match parse_uint bitsStr 63 with
             | (n, None) =>
                 let maxBits := if Is6 ip then 128 else 32 in
                 if maxBits <? n then Err "prefix length out of range"
                 else Ok (MkPrefix ip (Z.to_nat n))
             | (_, Some _) => Err "bad bits after slash"
             end
  end.

(** [Prefix.Contains]: same family, no zone, equal leading bits. *)
Definition Contains (p : Prefix) (ip : Addr) : bool :=
  let maxBits := if Is4 ip then 32 else 128 in
  bool_decide (addr_zone ip = []) && Bool.eqb (Is4 ip) (Is4 (pfx_addr p)) &&
  (be_val (AsSlice ip) / 2 ^ (maxBits - Z.of_nat (pfx_bits p)) =?
   be_val (AsSlice (pfx_addr p)) / 2 ^ (maxBits - Z.of_nat (pfx_bits p))).

(** What [ParseAddr] accepts has the width of its family. *)
Lemma parseIPv4_loop_length s val dl fields pd r :
  parseIPv4_loop s val dl fields pd = Ok r → (length fields <= 3)%nat → length r = 4%nat.
Proof.
  revert val dl fields pd. induction s as [|c s IH]; simpl; intros val dl fields pd H Hl.
  - case_match; [done|]. bools. simplify_eq. rewrite length_app. simpl. lia.
  - repeat (case_match; try done); bools; [by eapply IH|].
    eapply IH; [done|]. rewrite length_app. simpl.
    lia.
Qed.

Lemma parseIPv6_loop_length rounds s ip e rest ip' e' :
  parseIPv6_loop rounds s ip e = Ok (rest, ip', e') →
  (∃ k, length ip = 2 * k ∧ k <= 8)%nat → (length ip' <= 16)%nat.
Proof.
  revert s ip e. induction rounds as [|rounds IH]; intros s ip e H (k & Hk & Hk8);
    simpl in H; [simplify_eq; lia|].
  destruct (16 <=? length ip)%nat eqn:E16; bools; [simplify_eq; lia|].
  apply bind_Ok in H as ([off acc] & _ & H).
  assert (length (ip ++ [z2b (acc / 256); z2b acc]) = 2 * (k + 1))%nat as Hlen
    by (rewrite length_app; simpl; lia).
  destruct (off =? 0)%nat; [done|]. case_bool_decide.
  - destruct (_ && _); [done|]. destruct (16 <? length ip + 4)%nat eqn:E; [done|]. bools.
    apply bind_Ok in H as (q & Hq & [= <- <- <-]).
    apply parseIPv4_loop_length in Hq; [|simpl; lia]. rewrite length_app. lia.
  - repeat (case_match; try done); simplify_eq; try lia;
      (eapply IH; [done|]; exists (k + 1)%nat; lia).
Qed.

Lemma ParseAddr_wf s a : ParseAddr s = Ok a → addr_wf a.
Proof.
  unfold ParseAddr. generalize s at 2. induction s as [|c s IH]; intros w H; [done|].
  simpl in H. case_bool_decide.
  - apply bind_Ok in H as (q & Hq & [= <-]).
    apply parseIPv4_loop_length in Hq; [done|simpl; lia].
  - case_bool_decide; [|case_bool_decide; [done|by eapply IH]].
    unfold parseIPv6 in H.
    destruct (match cut_byte w c_percent with Some _ => _ | None => _ end)
      as [[s1 zone] [|]]; [done|].
    destruct (has_prefix s1 (lit "::") && _); [by simplify_eq|].
    apply bind_Ok in H as ([[rest ip] e] & Hl & H).
    apply parseIPv6_loop_length in Hl; [|exists 0%nat; simpl; lia].
    repeat (case_match; try done); bools; simplify_eq; simpl; [|lia].
    rewrite !length_app, length_replicate, length_take, length_drop. lia.
Qed.

Example ParseAddr_v4 : ParseAddr (lit "192.168.1.9") = Ok (Addr4 [xc0; xa8; x01; x09]).
Proof. reflexivity. Qed.
Example ParseAddr_v6 :
  ParseAddr (lit "2001:db8::1%eth0") =
  Ok (Addr6 ([x20; x01; x0d; xb8] ++ replicate 11 x00 ++ [x01]) (lit "eth0")).
Proof. reflexivity. Qed.
Example ParseAddr_mapped :
  ParseAddr (lit "::ffff:1.2.3.4") =
  Ok (Addr6 (replicate 10 x00 ++ [xff; xff; x01; x02; x03; x04]) []).
Proof. reflexivity. Qed.
Example ParseAddr_bad :
  map ParseAddr [lit "01.2.3.4"; lit "1:2"; lit "::1::"; lit "example.com"] =
  replicate 4 (Err ErrParseAddr).
Proof. reflexivity. Qed.

(** ** Package net/url: query strings *)

(** [url.QueryUnescape]. *)
Fixpoint QueryUnescape (s : list byte) : outcome (list byte) :=
  match s with
  | [] => Ok []
  | c :: s' =>
      if bool_decide (c = c_percent) then
        match s' with
        | h :: l :: s'' =>
            match hex_val h, hex_val l with
            | Some x, Some y => r ← QueryUnescape s''; Ok (z2b (16 * x + y) :: r)
            | _, _ => Err "invalid URL escape"
            end
        | _ => Err "invalid URL escape"
        end
      else r ← QueryUnescape s'; Ok ((if bool_decide (c = x2b) then x20 else c) :: r)
  end.

(** [url.ParseQuery]: the key/value pairs in order and the first error. *)
Definition parse_query_step (acc : list (list byte * list byte) * option error)
    (part : list byte) : list (list byte * list byte) * option error :=
  let '(m, err) := acc in
  let keep e := match err with Some _ => err | None => Some e end in
  if contains part (lit ";") then (m, Some "invalid semicolon separator in query"%string)
  else if bool_decide (part = []) then (m, err)
  else
    let '(k, v) := match cut_byte part x3d with Some kv => kv | None => (part, []) end in
    match QueryUnescape k with
    | Ok k' => match QueryUnescape v with
               | Ok v' => (m ++ [(k', v')], err)
               | _ => (m, keep "invalid URL escape"%string)
               end
    | _ => (m, keep "invalid URL escape"%string)
    end.
Definition ParseQuery (query : list byte) : list (list byte * list byte) * option error :=
  foldl parse_query_step ([], None) (split_byte x26 query).

(** [Values.Get]: the first value of the key, empty for none. *)
Definition query_get (m : list (list byte * list byte)) (k : list byte) : list byte :=
  match list_find (λ kv, kv.1 = k) m with Some (_, kv) => kv.2 | None => [] end.
