(* ===== verification/GoSlice.v ===== *)
(** Go byte slices: a window of [s_len] bytes on a backing array that goes on to
    the slice's capacity.  Re-slicing [s[i:j]] is allowed up to the capacity, an
    index only up to the length; both panic beyond. *)
From S2P Require Import Prelude.

Record slice := MkSlice { s_mem : list byte; s_len : nat }.

Definition cap (s : slice) : nat := length (s_mem s).
Definition bytes_of (s : slice) : list byte := take (s_len s) (s_mem s).
Definition slice_of (l : list byte) : slice := MkSlice l (length l).
Definition slice_wf (s : slice) : Prop := (s_len s <= cap s)%nat.

(** [s[i:j]] *)
Definition slice_sub (s : slice) (i j : nat) : outcome slice :=
  if (i <=? j)%nat && (j <=? cap s)%nat then Ok (MkSlice (drop i (s_mem s)) (j - i)) else Panic.
(** [s[i:]] *)
Definition slice_from (s : slice) (i : nat) : outcome slice := slice_sub s i (s_len s).
(** [s[:j]] *)
Definition slice_to (s : slice) (j : nat) : outcome slice := slice_sub s 0 j.
(** [s[i]] *)
Definition slice_get (s : slice) (i : nat) : outcome byte :=
  if (i <? s_len s)%nat then match s_mem s !! i with Some c => Ok c | None => Panic end else Panic.

(** [binary.BigEndian.Uint16(b)] and [Uint32]: a panic when [b] is too short. *)
Definition Uint16 (b : slice) : outcome Z :=
  if (s_len b <? 2)%nat then Panic else Ok (be_val (take 2 (s_mem b))).
Definition Uint32 (b : slice) : outcome Z :=
  if (s_len b <? 4)%nat then Panic else Ok (be_val (take 4 (s_mem b))).

Lemma bytes_of_slice_of l : bytes_of (slice_of l) = l.
Proof. apply take_ge. done. Qed.

Lemma slice_wf_of l : slice_wf (slice_of l).
Proof. unfold slice_wf, cap. done. Qed.

Lemma length_bytes_of s : slice_wf s → length (bytes_of s) = s_len s.
Proof. unfold slice_wf, bytes_of, cap. intros. rewrite length_take. lia. Qed.

Lemma slice_sub_Ok s i j s' :
  slice_sub s i j = Ok s' ↔ (i <= j <= cap s)%nat ∧ s' = MkSlice (drop i (s_mem s)) (j - i).
Proof.
  unfold slice_sub. split.
  - intros. case_match; simplify_eq. by bools.
  - intros [[? ?] ->]. rewrite (proj2 (Nat.leb_le i j)), (proj2 (Nat.leb_le j _)) by done. done.
Qed.

Lemma slice_sub_wf s i j s' : slice_sub s i j = Ok s' → slice_wf s'.
Proof.
  intros [? ->]%slice_sub_Ok. unfold slice_wf, cap in *. simpl. rewrite length_drop. lia.
Qed.

Lemma slice_sub_bytes s i j s' :
  slice_sub s i j = Ok s' → (j <= s_len s)%nat →
  bytes_of s' = take (j - i) (drop i (bytes_of s)).
Proof.
  intros [? ->]%slice_sub_Ok Hj. unfold bytes_of. simpl.
  rewrite skipn_firstn_comm, firstn_firstn. f_equal. lia.
Qed.

Lemma slice_from_eq s i :
  slice_wf s → (i <= s_len s)%nat →
  slice_from s i = Ok (MkSlice (drop i (s_mem s)) (s_len s - i)).
Proof. intros ? ?. apply slice_sub_Ok. unfold slice_wf in *. split; [lia|done]. Qed.

Lemma slice_from_Panic s i : (s_len s < i)%nat → slice_from s i = Panic.
Proof. intros. unfold slice_from, slice_sub. by rewrite (proj2 (Nat.leb_gt i _)). Qed.

Lemma bytes_of_drop s i :
  slice_wf s → (i <= s_len s)%nat →
  bytes_of (MkSlice (drop i (s_mem s)) (s_len s - i)) = drop i (bytes_of s).
Proof. intros. unfold bytes_of. simpl. by rewrite skipn_firstn_comm. Qed.

Lemma slice_get_bytes s i c l :
  drop i (bytes_of s) = c :: l → slice_get s i = Ok c.
Proof.
  intros H. assert (bytes_of s !! i = Some c) as Hl.
  { rewrite <- (Nat.add_0_r i), <- lookup_drop, H. done. }
  unfold bytes_of in Hl. apply lookup_take_Some in Hl as [Hl Hi].
  unfold slice_get. rewrite (proj2 (Nat.ltb_lt _ _)) by done. by rewrite Hl.
Qed.

Lemma drop_cons_lt {A} i (l : list A) c r : drop i l = c :: r → (i < length l)%nat.
Proof.
  intros H. assert (length (drop i l) = S (length r)) as Hl by by rewrite H.
  rewrite length_drop in Hl. lia.
Qed.

Lemma drop_app_lt {A} i (l a r : list A) :
  drop i l = a ++ r → (0 < length a)%nat → (i + length a <= length l)%nat.
Proof.
  intros H Ha. assert (length (drop i l) = length a + length r)%nat as Hl
    by (rewrite H; apply length_app). rewrite length_drop in Hl. lia.
Qed.

(** Reading a field whose bytes are at position [i] of the slice. *)
Lemma slice_sub_field s i a r :
  slice_wf s → drop i (bytes_of s) = a ++ r → (0 < length a)%nat →
  ∃ s', slice_sub s i (i + length a) = Ok s' ∧ bytes_of s' = a ∧ s_len s' = length a.
Proof.
  intros Hwf Hd Ha. pose proof (drop_app_lt _ _ _ _ Hd Ha) as Hl.
  rewrite length_bytes_of in Hl by done.
  eexists. split; [apply slice_sub_Ok; split; [unfold slice_wf in Hwf; lia|done]|].
  simpl. split; [|lia].
  erewrite slice_sub_bytes; [|apply slice_sub_Ok; split; [|done]; unfold slice_wf in Hwf; lia|done].
  rewrite Hd. replace (i + length a - i)%nat with (length a) by lia. apply take_app_length.
Qed.

Lemma Uint16_bytes s a r :
  slice_wf s → bytes_of s = a ++ r → length a = 2%nat → Uint16 s = Ok (be_val a).
Proof.
  intros Hwf Hb Ha. unfold Uint16. pose proof (length_bytes_of s Hwf) as Hl.
  rewrite Hb, length_app in Hl. rewrite (proj2 (Nat.ltb_ge _ _)) by lia. do 2 f_equal.
  transitivity (take 2 (bytes_of s)).
  - unfold bytes_of. rewrite firstn_firstn. f_equal. lia.
  - rewrite Hb. rewrite <- Ha. apply take_app_length.
Qed.

Lemma Uint32_bytes s a r :
  slice_wf s → bytes_of s = a ++ r → length a = 4%nat → Uint32 s = Ok (be_val a).
Proof.
  intros Hwf Hb Ha. unfold Uint32. pose proof (length_bytes_of s Hwf) as Hl.
  rewrite Hb, length_app in Hl. rewrite (proj2 (Nat.ltb_ge _ _)) by lia. do 2 f_equal.
  transitivity (take 4 (bytes_of s)).
  - unfold bytes_of. rewrite firstn_firstn. f_equal. lia.
  - rewrite Hb. rewrite <- Ha. apply take_app_length.
Qed.

(** The fixed-width reads of the decoders. *)
Lemma read16_from s i a r :
  slice_wf s → drop i (bytes_of s) = a ++ r → length a = 2%nat →
  (t ← slice_from s i; Uint16 t) = Ok (be_val a).
Proof.
  intros Hwf Hd Ha. pose proof (drop_app_lt _ _ _ _ Hd ltac:(lia)) as Hl.
  rewrite length_bytes_of in Hl by done. rewrite slice_from_eq by (done || lia). simpl.
  apply (Uint16_bytes _ _ r); [|by rewrite bytes_of_drop by (done || lia)|done].
  unfold slice_wf, cap in *. simpl. rewrite length_drop. lia.
Qed.

Lemma read32_from s i a r :
  slice_wf s → drop i (bytes_of s) = a ++ r → length a = 4%nat →
  (t ← slice_from s i; Uint32 t) = Ok (be_val a).
Proof.
  intros Hwf Hd Ha. pose proof (drop_app_lt _ _ _ _ Hd ltac:(lia)) as Hl.
  rewrite length_bytes_of in Hl by done. rewrite slice_from_eq by (done || lia). simpl.
  apply (Uint32_bytes _ _ r); [|by rewrite bytes_of_drop by (done || lia)|done].
  unfold slice_wf, cap in *. simpl. rewrite length_drop. lia.
Qed.

Lemma read16_sub s i j a r :
  slice_wf s → drop i (bytes_of s) = a ++ r → length a = 2%nat → j = (i + 2)%nat →
  (t ← slice_sub s i j; Uint16 t) = Ok (be_val a).
Proof.
  intros Hwf Hd Ha ->. destruct (slice_sub_field s i a r Hwf Hd ltac:(lia)) as (s' & Hs & Hb & _).
  rewrite Ha in Hs. rewrite Hs. simpl. apply (Uint16_bytes _ _ []); [|by rewrite app_nil_r|done].
  by eapply slice_sub_wf.
Qed.

(** Advancing past a field. *)
Lemma drop_field {A} i (l a r : list A) :
  drop i l = a ++ r → drop (i + length a) l = r.
Proof. intros H. by rewrite <- drop_drop, H, drop_app_length. Qed.

(** Reading two bytes succeeds up to the capacity and panics beyond. *)
Lemma read16_sub_cases s i j :
  j = (i + 2)%nat →
  ((j <= cap s)%nat ∧ ∃ z, (t ← slice_sub s i j; Uint16 t) = Ok z) ∨
  ((cap s < j)%nat ∧ (t ← slice_sub s i j; Uint16 t) = Panic).
Proof.
  intros ->. unfold slice_sub. destruct (decide (i + 2 <= cap s)%nat).
  - left. rewrite (proj2 (Nat.leb_le _ _)), (proj2 (Nat.leb_le _ (cap s))) by lia.
    split; [done|]. cbn -[Nat.ltb]. unfold Uint16. cbn [s_len].
    rewrite (proj2 (Nat.ltb_ge _ _)) by lia. eauto.
  - right. rewrite (proj2 (Nat.leb_gt _ (cap s))), andb_false_r by lia. split; [lia|done].
Qed.
