(* ===== verification/Reader.v ===== *)
(** Reading a connection: a small monad for the code that parses a stream with
    [io.ReadFull], and the laws the protocol proofs use.

    A reader is what was consumed so far and what the peer has still to send; an
    [io.TeeReader] keeps the first part. *)
From S2P Require Import Prelude.

Definition reader : Type := list byte * list byte.
Definition rd (A : Type) : Type := reader → outcome A * reader.

Definition rd_ret {A} (a : A) : rd A := λ r, (Ok a, r).
Definition rd_fail {A} (e : error) : rd A := λ r, (Err e, r).
Definition rd_bind {A B} (m : rd A) (k : A → rd B) : rd B := λ r,
  match m r with
  | (Ok a, r) => k a r
  | (Err e, r) => (Err e, r)
  | (Panic, r) => (Panic, r)
  | (OutOfFuel, r) => (OutOfFuel, r)
  end.
(** [fmt.Errorf] around an error of [m]. *)
Definition rd_wrap {A} (f : error → error) (m : rd A) : rd A := λ r,
  match m r with
  | (Err e, r) => (Err (f e), r)
  | x => x
  end.

(** [io.ReadFull] of [n] bytes: a short stream is consumed whole. *)
Definition rd_full (n : nat) : rd (list byte) := λ '(done, rest),
  match ReadFull n rest with
  | Ok (b, rest) => (Ok b, (done ++ b, rest))
  | Err e => (Err e, (done ++ rest, []))
  | _ => (Panic, (done, rest))
  end.

(** [proxy.CopyN(io.Discard, r, n)], whose error the callers drop. *)
Definition rd_discard (n : nat) : rd unit := λ '(done, rest),
  (Ok tt, (done ++ take n rest, drop n rest)).

Declare Scope rd_scope.
Delimit Scope rd_scope with rd.
Notation "x <- m ;; k" := (rd_bind m (λ x, k)) (at level 100, m at next level, right associativity) : rd_scope.
Notation "m ;;; k" := (rd_bind m (λ _, k)) (at level 100, right associativity) : rd_scope.

Create HintDb rd.

(** ** Exactly the bytes [l] *)

Definition reads_exactly {A} (m : rd A) (l : list byte) (a : A) : Prop :=
  ∀ d rest, m (d, l ++ rest) = (Ok a, (d ++ l, rest)).

Lemma exact_ret {A} (a : A) : reads_exactly (rd_ret a) [] a.
Proof. intros d rest. unfold rd_ret. by rewrite app_nil_r. Qed.

Lemma exact_bind {A B} (m : rd A) (k : A → rd B) l l' a b :
  reads_exactly m l a → reads_exactly (k a) l' b → reads_exactly (rd_bind m k) (l ++ l') b.
Proof.
  intros Hm Hk d rest. unfold rd_bind. rewrite <- app_assoc, (Hm d (l' ++ rest)), (Hk (d ++ l) rest).
  by rewrite app_assoc.
Qed.

(** The last read of a parser. *)
Lemma exact_last {A B} (m : rd A) (f : A → B) l a :
  reads_exactly m l a → reads_exactly (rd_bind m (λ x, rd_ret (f x))) l (f a).
Proof. intros Hm. rewrite <- (app_nil_r l). eapply exact_bind; [done|apply exact_ret]. Qed.

Lemma exact_full n l : length l = n → reads_exactly (rd_full n) l l.
Proof. intros <- d rest. unfold rd_full. by rewrite ReadFull_app. Qed.

Lemma exact_discard n l : length l = n → reads_exactly (rd_discard n) l tt.
Proof. intros <- d rest. unfold rd_discard. by rewrite take_app_length, drop_app_length. Qed.

Lemma exact_wrap {A} f (m : rd A) l a : reads_exactly m l a → reads_exactly (rd_wrap f m) l a.
Proof. intros H d rest. unfold rd_wrap. by rewrite H. Qed.

(** ** Nothing is lost *)

(** What is consumed and what is left is what there was, whatever the result. *)
Definition keeps {A} (m : rd A) : Prop := ∀ r, (m r).2.1 ++ (m r).2.2 = r.1 ++ r.2.

Lemma keeps_ret {A} (a : A) : keeps (rd_ret a).
Proof. by intros r. Qed.
Lemma keeps_fail {A} e : keeps (@rd_fail A e).
Proof. by intros r. Qed.
Lemma keeps_bind {A B} (m : rd A) (k : A → rd B) : keeps m → (∀ a, keeps (k a)) → keeps (rd_bind m k).
Proof.
  intros Hm Hk r. unfold rd_bind. specialize (Hm r). destruct (m r) as [[a|e| |] r']; simpl in *; try done.
  by rewrite Hk.
Qed.
Lemma keeps_full n : keeps (rd_full n).
Proof.
  intros [d rest]. unfold rd_full. destruct (ReadFull n rest) as [[b rest']| | |] eqn:E; simpl; try done.
  - apply ReadFull_Ok in E as [-> _]. by rewrite app_assoc.
  - by rewrite app_nil_r.
Qed.
Lemma keeps_discard n : keeps (rd_discard n).
Proof. intros [d rest]. simpl. by rewrite <- app_assoc, take_drop. Qed.
Lemma keeps_wrap {A} f (m : rd A) : keeps m → keeps (rd_wrap f m).
Proof. intros Hm r. unfold rd_wrap. specialize (Hm r). by destruct (m r) as [[] r']. Qed.
Lemma keeps_if {A} (c : bool) (m1 m2 : rd A) : keeps m1 → keeps m2 → keeps (if c then m1 else m2).
Proof. by destruct c. Qed.

(** ** Message queues *)

(** The specification of the readers of a framed stream: what is left of the
    current message and the messages to come; a read gives at most one message. *)
Definition msg_Read (n : nat) (q : list byte * list (list byte))
    : list byte * option error * (list byte * list (list byte)) :=
  match q with
  | ([], []) => ([], Some EOF, q)
  | ([], p :: ps) => (take n p, None, (drop n p, ps))
  | (cur, ps) => (take n cur, None, (drop n cur, ps))
  end.
Fixpoint msg_reads (q : list byte * list (list byte)) (sizes : list nat) : list (list byte * option error) :=
  match sizes with
  | [] => []
  | n :: sizes => let '(b, e, q) := msg_Read n q in (b, e) :: msg_reads q sizes
  end.

(** The bytes of the messages are read in order. *)
Definition queue_bytes (q : list byte * list (list byte)) : list byte := q.1 ++ concat q.2.

Lemma msg_Read_bytes n q : (msg_Read n q).1.1 ++ queue_bytes (msg_Read n q).2 = queue_bytes q.
Proof.
  unfold queue_bytes. destruct q as [[|c cur] [|p ps]]; simpl; try done;
    by rewrite app_assoc, ?take_drop.
Qed.

Lemma msg_reads_prefix q sizes : concat (map fst (msg_reads q sizes)) `prefix_of` queue_bytes q.
Proof.
  revert q. induction sizes as [|n sizes IH]; intros q; simpl; [apply prefix_nil|].
  rewrite <- (msg_Read_bytes n q). destruct (msg_Read n q) as [[b e] q']. simpl. apply prefix_app, IH.
Qed.

(** ** Plain connections *)

(** A read of a connection (or of a [bufio.Reader] on it) that carries [s], into a slice of
    length [n] when [avail] bytes are ready: an empty slice asks nothing of it. *)
Definition ready (n avail : nat) : nat := Nat.min n (Nat.max 1 avail).
Definition plain_Read (n avail : nat) (s : list byte) : list byte * option error * list byte :=
  match n, s with
  | O, _ => ([], None, s)
  | _, [] => ([], Some EOF, [])
  | _, _ => (take (ready n avail) s, None, drop (ready n avail) s)
  end.
Fixpoint plain_reads (bufs : list (nat * nat)) (s : list byte) : list (list byte * option error) :=
  match bufs with
  | [] => []
  | (n, avail) :: bufs => let '(b, e, s) := plain_Read n avail s in (b, e) :: plain_reads bufs s
  end.

#[export] Hint Resolve keeps_ret keeps_fail keeps_bind keeps_full keeps_discard keeps_wrap keeps_if
  exact_ret exact_bind exact_discard exact_wrap : rd.
