(* ===== verification/ProxyConn.v ===== *)
(** proxy/conn.go and the interfaces of proxy/proxy.go and proxy/dialer.go: what
    the servers and the DNS client need of the proxy behind them, copying between
    connections, and the part of serving a stream the servers share. *)
From S2P Require Import Prelude GoStd Reader.

Inductive network := Tcp | Udp.

#[global] Instance network_eq_dec : EqDecision network.
Proof. solve_decision. Defined.

(** What a server needs of [proxy.Proxy] and of the dialers it hands out; [W] is
    the state of the proxy. *)
Class ProxyDialer (W D : Type) := {
  pd_NextDialer : list byte → W → D * W;
  pd_Addr : D → list byte;
  pd_Record : D → bool → W → W }.

(** ** Copying *)

Definition ErrShortWrite : error := "short write".
Definition ErrDeadlineExceeded : error := "i/o timeout".

(** The loop of [CopyBuffer]: each read of the source gives bytes and perhaps an
    error, [write i b] is the answer of the destination to the [i]-th write.  The
    bytes offered to the destination, the count and the error; [None]: the source
    has not ended. *)
Fixpoint CopyBuffer (write : nat → list byte → Z * option error) (i : nat) (src : list (list byte * option error))
    : option (list byte * Z * option error) :=
  match src with
  | [] => None
  | (b, er) :: src =>
      let '(nw, ew) := if (0 <? length b)%nat then write i b else (0, None) in
      let stop := if (0 <? length b)%nat then
                    match ew with
                    | Some e => Some (Some e)
                    | None => if negb (nw =? Z.of_nat (length b)) then Some (Some ErrShortWrite) else None
                    end
                  else None in
      match stop with
      | Some e => Some (b, Z.max nw 0, e)
      | None =>
          match er with
          | Some e => Some (b, Z.max nw 0, if bool_decide (e = EOF) then None else Some e)
          | None =>
              let i := if (0 <? length b)%nat then S i else i in
              '(out, n, e) ← CopyBuffer write i src; Some (b ++ out, Z.max nw 0 + n, e)
          end
      end
  end.

(** The error [Relay] reports, of the errors of its two copies: [err1] from the
    left to the right, [err] from the right to the left. *)
Definition Relay_error (err1 err : option error) : option error :=
  let real e := match e with
                | Some e => if bool_decide (e = ErrDeadlineExceeded) then None else Some e
                | None => None
                end in
  match real err1 with Some e => Some e | None => real err end.

(** The read timeouts of [CopyUDP]: from [step] by [step] up to [timeout]. *)
Definition udp_timeout (timeout step t : Z) : Z :=
  let t := i64 (t + step) in
  if (t =? 0) || (timeout <? t) then timeout else t.

(** The loop of [CopyUDP]: each read of the source gives a packet and its address,
    or the error that ends the copy; [write i] is the answer to the [i]-th write.
    The deadlines it sets, the packets it writes and the error ([None]: the source
    has not ended). *)
Fixpoint CopyUDP {A} (timeout step : Z) (write : nat → list byte * A → option error)
    (writeTo : option A) (t : Z) (i : nat) (src : list (list byte * A + error))
    : list Z * list (list byte * A) * option error :=
  let t := udp_timeout timeout step t in
  match src with
  | [] => ([t], [], None)
  | inr e :: _ => ([t], [], Some e)
  | inl (b, addr) :: src =>
      let pkt := (b, default addr writeTo) in
      match write i pkt with
      | Some e => ([t], [pkt], Some e)
      | None =>
          let '(ts, pkts, e) := CopyUDP timeout step write writeTo t (S i) src in
          (t :: ts, pkt :: pkts, e)
      end
  end.

(** ** Serving a stream *)

(** What becomes of a connection: closed; packets over the stream; or relayed
    to a dialer, [first] being written before the relay and [rest] what the
    client has still to send. *)
Inductive action (D : Type) :=
| Drop
| UoT (target rest : list byte)
| RelayTo (d : D) (net : network) (target first rest : list byte).
Arguments Drop {D}.
Arguments UoT {D}.
Arguments RelayTo {D}.

(** The bytes the remote end gets of the client. *)
Definition to_remote {D} (a : action D) : list byte :=
  match a with
  | RelayTo _ _ _ first rest => first ++ rest
  | _ => []
  end.

Section Serve.
Context {W D : Type} `{!ProxyDialer W D}.
(** What dialing gives, and the error of the relay. *)
Context (dial : D → network → list byte → option error) (relay : option error).

(** The end of the [Serve] methods that read a target: packets without an
    upstream proxy are served on the spot; a relay error that does not name the
    server's own address counts against the dialer. *)
Definition serve_target (saddr : list byte) (udp : bool) (target rest : list byte) (w : W)
    : action D * W :=
  let '(d, w) := pd_NextDialer target w in
  if udp && bool_decide (pd_Addr d = lit "DIRECT") then (UoT target rest, w)
  else
    let net := if udp then Udp else Tcp in
    match dial d net target with
    | Some _ => (Drop, w)
    | None =>
        (RelayTo d net target [] rest,
         match relay with
         | Some e => if contains (String.list_byte_of_string e) saddr then w else pd_Record d false w
         | None => w
         end)
    end.

(** [serveFallback]: what was read of the header, then the rest. *)
Definition serveFallback (tgt head rest : list byte) (w : W) : action D * W :=
  let '(d, w) := pd_NextDialer tgt w in
  match dial d Tcp tgt with
  | Some _ => (Drop, w)
  | None => (RelayTo d Tcp tgt head rest, w)
  end.

(** [Serve] of the servers whose header decides between a target and the
    fallback. *)
Definition serve_header (header : rd (bool * list byte)) (saddr fallback : list byte)
    (input : list byte) (w : W) : outcome (action D * W) :=
  match header ([], input) with
  | (Ok (udp, target), (_, rest)) => Ok (serve_target saddr udp target rest w)
  | (Err _, (head, rest)) =>
      Ok (if bool_decide (fallback = []) then (Drop, w) else serveFallback fallback head rest w)
  | (Panic, _) => Panic
  | (OutOfFuel, _) => OutOfFuel
  end.

Lemma serve_header_ok header saddr fallback hdr udp target rest w :
  reads_exactly header hdr (udp, target) →
  serve_header header saddr fallback (hdr ++ rest) w = Ok (serve_target saddr udp target rest w).
Proof. intros H. unfold serve_header. by rewrite H. Qed.

(** A rejected connection goes to the fallback with nothing lost or added. *)
Lemma serve_header_fallback header saddr fallback input e w :
  keeps header → (header ([], input)).1 = Err e → fallback ≠ [] →
  ∃ a w', serve_header header saddr fallback input w = Ok (a, w') ∧
    (dial (pd_NextDialer fallback w).1 Tcp fallback = None →
     to_remote a = input ∧
     ∃ head rest, a = RelayTo (pd_NextDialer fallback w).1 Tcp fallback head rest).
Proof.
  intros Hk He Hf. unfold serve_header. specialize (Hk ([], input)).
  destruct (header ([], input)) as [[| | |] [head rest]]; simpl in *; simplify_eq.
  rewrite bool_decide_eq_false_2 by done. unfold serveFallback.
  destruct (pd_NextDialer fallback w) as [d w'] eqn:En. simpl.
  destruct (dial d Tcp fallback) eqn:Ed; eexists _, _; (split; [done|]); simpl; [done|].
  intros _. split; [done|]. by eexists _, _.
Qed.
End Serve.

(** ** Copying is faithful *)

(** The bytes read up to and with the first read that reports an error. *)
Fixpoint until_error (src : list (list byte * option error)) : list byte :=
  match src with
  | [] => []
  | (b, None) :: src => b ++ until_error src
  | (b, Some _) :: _ => b
  end.
Fixpoint first_error (src : list (list byte * option error)) : option error :=
  match src with
  | [] => None
  | (_, None) :: src => first_error src
  | (_, Some e) :: _ => Some e
  end.

Lemma CopyBuffer_spec write i src out n e :
  CopyBuffer write i src = Some (out, n, e) →
  out `prefix_of` until_error src ∧
  (e = None → out = until_error src ∧ n = Z.of_nat (length out) ∧ first_error src = Some EOF).
Proof.
  revert i out n e. induction src as [|[b er] src IH]; intros i out n e; [done|].
  cbn [CopyBuffer until_error first_error].
  destruct (if (0 <? length b)%nat then write i b else (0, None)) as [nw ew] eqn:Ew.
  set (stop := if (0 <? length b)%nat then _ else _).
  assert (∀ x, stop = Some x → x ≠ None) as Hstop.
  { unfold stop. intros x. repeat case_match; intros [= <-]; done. }
  assert (stop = None → Z.max nw 0 = Z.of_nat (length b)) as Hnw.
  { unfold stop. destruct (0 <? length b)%nat eqn:El.
    - destruct ew; [done|]. destruct (nw =? Z.of_nat (length b)) eqn:E; [|done]. bools. lia.
    - bools. simplify_eq. lia. }
  clearbody stop. destruct stop as [x|].
  - intros [= <- <- <-]. specialize (Hstop x eq_refl). split; [|done].
    destruct er; [done|]. by apply prefix_app_r.
  - specialize (Hnw eq_refl). destruct er as [er|].
    + intros [= <- <- <-]. split; [done|]. case_bool_decide; [|done]. subst. done.
    + destruct (CopyBuffer write _ src) as [[[out' n'] e']|] eqn:Ec; [|done].
      intros [= <- <- <-]. apply IH in Ec as [Hp He]. split; [by apply prefix_app|].
      intros ->. destruct (He eq_refl) as (-> & -> & ->). split; [done|]. split; [|done].
      rewrite length_app. lia.
Qed.

Lemma CopyBuffer_ends write i src : is_Some (first_error src) → is_Some (CopyBuffer write i src).
Proof.
  revert i. induction src as [|[b er] src IH]; intros i; [by intros []|].
  cbn [CopyBuffer first_error]. destruct (if (0 <? length b)%nat then write i b else (0, None)) as [nw ew].
  set (stop := if (0 <? length b)%nat then _ else _). clearbody stop.
  destruct stop; [done|]. destruct er; [done|]. intros H.
  destruct (IH (if (0 <? length b)%nat then S i else i) H) as [[[out n] e] ->]. done.
Qed.

(** Copying between connections loses nothing silently: the copy ends when the source does, what
    the destination is given is a prefix of what the source delivered, and a nil error means that
    the source ended with EOF and every byte was accepted. *)
Theorem copy_no_silent_loss write src :
  is_Some (first_error src) →
  ∃ out n e, CopyBuffer write 0 src = Some (out, n, e) ∧ out `prefix_of` until_error src ∧
    (e = None → out = until_error src ∧ n = Z.of_nat (length out) ∧ first_error src = Some EOF).
Proof.
  intros H. destruct (CopyBuffer_ends write 0 src H) as [[[out n] e] Hc].
  exists out, n, e. split; [done|]. by eapply CopyBuffer_spec.
Qed.
