(* ===== verification/Forward.v ===== *)
(** rule/forward.go and proxy/dialer.go: forwarders and their health state.

    A forwarder is a shared mutable object: it is referred to by pointer from
    its group's slices and mutated through atomics by dials, by health checks
    and by status changes.  The store of forwarders is a component of a world
    [W]; the class [FwdrWorld] is what this file needs of the world: the store,
    and what running a status handler does.  rule/group.go (file [Group])
    supplies the instance. *)
From S2P Require Import Prelude GoStd.

(** ** proxy/dialer.go *)

(** A [proxy.Dialer] value: what [Addr()] answers, and its identity. *)
Record Dialer := MkDialer { dialer_addr : list byte; dialer_id : nat }.

#[global] Instance Dialer_eq_dec : EqDecision Dialer.
Proof. solve_decision. Defined.

Definition ErrNotSupported : error := "not supported".

Definition DialerCreator := list byte → Dialer → outcome Dialer.

Definition RegisterDialer (name : list byte) (c : DialerCreator)
    (dialerCreators : gmap (list byte) DialerCreator) : gmap (list byte) DialerCreator :=
  <[to_lower name := c]> dialerCreators.

Definition DialerFromURL (dialerCreators : gmap (list byte) DialerCreator)
    (s : list byte) (dialer : option Dialer) : outcome Dialer :=
  match dialer with
  | None => Err "DialerFromURL: dialer cannot be nil"
  | Some dialer =>
      let s := if contains s (lit "://") then s else s ++ lit "://" in
      let scheme := match index_byte s c_colon with Some i => take i s | None => [] end in
      match dialerCreators !! to_lower scheme with
      | Some c => c s dialer
      | None => Err "unknown scheme"
      end
  end.

(** ** The forwarder *)

(** Closures registered with [AddHandler]; the only one the program creates is
    the [onStatusChanged] method of the forwarder's group. *)
Inductive StatusHandler := OnStatusChanged.

Definition ptr := nat.

Record Forwarder := MkForwarder {
  embedded : Dialer;
  url : list byte;
  f_addr : list byte;
  f_priority : Z;
  f_maxFailures : Z;
  f_disabled : Z;
  f_failures : Z;
  f_latency : Z;
  f_intface : list byte;
  handlers : list StatusHandler;
}.

Definition zeroForwarder : Forwarder :=
  MkForwarder (MkDialer [] 0) [] [] 0 0 0 0 0 [] [].
#[global] Instance Forwarder_inhabited : Inhabited Forwarder := populate zeroForwarder.

Definition set_embedded d f := MkForwarder d (url f) (f_addr f) (f_priority f)
  (f_maxFailures f) (f_disabled f) (f_failures f) (f_latency f) (f_intface f) (handlers f).
Definition set_addr a f := MkForwarder (embedded f) (url f) a (f_priority f)
  (f_maxFailures f) (f_disabled f) (f_failures f) (f_latency f) (f_intface f) (handlers f).
Definition set_priority p f := MkForwarder (embedded f) (url f) (f_addr f) p
  (f_maxFailures f) (f_disabled f) (f_failures f) (f_latency f) (f_intface f) (handlers f).
Definition set_maxFailures m f := MkForwarder (embedded f) (url f) (f_addr f) (f_priority f)
  m (f_disabled f) (f_failures f) (f_latency f) (f_intface f) (handlers f).
Definition set_disabled d f := MkForwarder (embedded f) (url f) (f_addr f) (f_priority f)
  (f_maxFailures f) d (f_failures f) (f_latency f) (f_intface f) (handlers f).
Definition set_failures n f := MkForwarder (embedded f) (url f) (f_addr f) (f_priority f)
  (f_maxFailures f) (f_disabled f) n (f_latency f) (f_intface f) (handlers f).
Definition set_latency l f := MkForwarder (embedded f) (url f) (f_addr f) (f_priority f)
  (f_maxFailures f) (f_disabled f) (f_failures f) l (f_intface f) (handlers f).
Definition set_intface i f := MkForwarder (embedded f) (url f) (f_addr f) (f_priority f)
  (f_maxFailures f) (f_disabled f) (f_failures f) (f_latency f) i (handlers f).
Definition set_handlers h f := MkForwarder (embedded f) (url f) (f_addr f) (f_priority f)
  (f_maxFailures f) (f_disabled f) (f_failures f) (f_latency f) (f_intface f) h.

Definition isTrue (n : Z) : bool := Z.land n 1 =? 1.
Definition Enabled (f : Forwarder) : bool := negb (isTrue (f_disabled f)).

(** ** Construction *)

(** [parseOption]: the options after '#'; the returned error and the forwarder. *)
Definition parseOption (opt : list byte) (f : Forwarder) : Forwarder * option error :=
  match ParseQuery opt with
  | (_, Some e) => (f, Some e)
  | (query, None) =>
      let p := query_get query (lit "priority") in
      let '(priority, err) :=
        if negb (bool_decide (p = [])) then parse_uint p 32 else (0, None) in
      let f := set_priority (u32 priority) f in
      (set_intface (query_get query (lit "interface")) f, err)
  end.

Section Construct.
(** [proxy.NewDirect] looks up network interfaces and local addresses; the
    dialer creators are the registered protocol packages. *)
Context (NewDirect : list byte → Z → Z → outcome Dialer)
        (dialerCreators : gmap (list byte) DialerCreator).

(** The loop over the chain: the dialer built so far, the addresses collected. *)
Fixpoint dial_chain (urls : list (list byte)) (d : Dialer) (addrs : list (list byte))
    : outcome (Dialer * list (list byte)) :=
  match urls with
  | [] => Ok (d, addrs)
  | u :: urls' =>
      d' ← DialerFromURL dialerCreators u (Some d);
      dial_chain urls' d'
        (if bool_decide (addrs = []) || bool_decide (last addrs ≠ Some (dialer_addr d'))
         then addrs ++ [dialer_addr d'] else addrs)
  end.

(** [ForwarderFromURL].  The error of [parseOption] is overwritten by the one
    of [NewDirect]: a malformed option never makes the construction fail. *)
Definition ForwarderFromURL (s intface : list byte) (dialTimeout relayTimeout : Z)
    : outcome Forwarder :=
  let f := MkForwarder (MkDialer [] 0) s [] 0 0 0 0 0 [] [] in
  let ss := split_byte c_hash s in
  let f := match ss with _ :: opt :: _ => (parseOption opt f).1 | _ => f end in
  let iface := if bool_decide (f_intface f ≠ []) && bool_decide (f_intface f ≠ intface)
               then f_intface f else intface in
  d ← NewDirect iface dialTimeout relayTimeout;
  r ← dial_chain (split_byte c_comma (default [] (head ss))) d [];
  let '(d, addrs) := r in
  let f := set_addr (if bool_decide (addrs = []) then dialer_addr d
                     else join_bytes (lit ",") addrs) (set_embedded d f) in
  (* f.Disable(): no handler is registered yet *)
  Ok (set_disabled 1 f).

Definition DirectForwarder (intface : list byte) (dialTimeout relayTimeout : Z)
    : outcome Forwarder :=
  d ← NewDirect intface dialTimeout relayTimeout;
  Ok (MkForwarder d [] (dialer_addr d) 0 0 0 0 0 [] []).
End Construct.

(** ** The world *)

(** What the forwarders need of the rest of the program: the store they live
    in, and the effect of calling a status handler.  A handler may change the
    listener's own state but not the forwarders. *)
Class FwdrWorld (W : Type) := {
  fheap : W → gmap ptr Forwarder;
  set_fheap : gmap ptr Forwarder → W → W;
  notify : StatusHandler → ptr → W → W;
  fheap_set : ∀ h w, fheap (set_fheap h w) = h;
  fheap_notify : ∀ h f w, fheap (notify h f w) = fheap w;
}.

Section Operations.
Context {W : Type} `{!FwdrWorld W}.
Implicit Types (w : W) (f g : ptr).

Definition getF w f : Forwarder := fheap w !!! f.
Definition updF f (u : Forwarder → Forwarder) w : W :=
  set_fheap (<[f := u (getF w f)]> (fheap w)) w.

(** [atomic.CompareAndSwapUint32(&f.disabled, old, new)]. *)
Definition cas_disabled f (old new : Z) w : bool * W :=
  if f_disabled (getF w f) =? old then (true, updF f (set_disabled new) w) else (false, w).

(** [for _, h := range f.handlers { h(f) }]. *)
Definition run_handlers f w : W :=
  foldl (λ w h, notify h f w) w (handlers (getF w f)).

Definition AddHandler f (h : StatusHandler) w : W :=
  updF f (λ x, set_handlers (handlers x ++ [h]) x) w.

Definition Enable f w : W :=
  let '(swapped, w) := cas_disabled f 1 0 w in
  let w := if (swapped : bool) then run_handlers f w else w in
  updF f (set_failures 0) w.

Definition Disable f w : W :=
  let '(swapped, w) := cas_disabled f 0 1 w in
  if (swapped : bool) then run_handlers f w else w.

Definition SetMaxFailures f (l : Z) w : W := updF f (set_maxFailures (u32 l)) w.
Definition SetLatency f (l : Z) w : W := updF f (set_latency l) w.

Definition IncFailures f w : W :=
  let n := u32 (f_failures (getF w f) + 1) in
  let w := updF f (set_failures n) w in
  if f_maxFailures (getF w f) =? 0 then w
  else if (n =? f_maxFailures (getF w f)) && Enabled (getF w f) then Disable f w
  else w.

(** [Forwarder.Dial]: the embedded dialer answers [r], a connection or an
    error; a failure is charged to the forwarder. *)
Definition Forwarder_Dial {C} f (r : C + error) w : (C + error) * W :=
  match r with
  | inl c => (inl c, w)
  | inr e => (inr e, IncFailures f w)
  end.
End Operations.

#[global] Arguments updF : simpl never.
#[global] Arguments getF : simpl never.

(** ** Health accounting *)

Section Laws.
Context {W : Type} `{!FwdrWorld W}.
Implicit Types (w : W) (f g : ptr).

Lemma getF_updF f u w g :
  getF (updF f u w) g = if decide (f = g) then u (getF w f) else getF w g.
Proof.
  unfold getF, updF. rewrite fheap_set, lookup_total_alt, lookup_insert.
  case_decide; subst; done.
Qed.

Lemma fheap_run_handlers f w : fheap (run_handlers f w) = fheap w.
Proof.
  unfold run_handlers. generalize (handlers (getF w f)). intros l. revert w.
  induction l as [|h l IH]; intros w; simpl; [done|]. by rewrite IH, fheap_notify.
Qed.

Lemma getF_run_handlers f w g : getF (run_handlers f w) g = getF w g.
Proof. unfold getF. by rewrite fheap_run_handlers. Qed.

(** Every field of every forwarder after [Enable] and after [Disable]. *)
Lemma getF_Enable f w g :
  getF (Enable f w) g =
  if decide (f = g) then
    set_failures 0 (if f_disabled (getF w f) =? 1 then set_disabled 0 (getF w f)
                    else getF w f)
  else getF w g.
Proof.
  unfold Enable, cas_disabled. destruct (_ =? 1) eqn:E;
    rewrite getF_updF, ?getF_run_handlers, ?getF_updF; repeat case_decide; done.
Qed.

Lemma getF_Disable f w g :
  getF (Disable f w) g =
  if decide (f = g) then
    (if f_disabled (getF w f) =? 0 then set_disabled 1 (getF w f) else getF w f)
  else getF w g.
Proof.
  unfold Disable, cas_disabled. destruct (_ =? 0) eqn:E;
    rewrite ?getF_run_handlers, ?getF_updF; repeat case_decide; by subst.
Qed.

Lemma getF_IncFailures_other f w g : f ≠ g → getF (IncFailures f w) g = getF w g.
Proof.
  intros Hne. unfold IncFailures.
  repeat case_match; rewrite ?getF_Disable, ?decide_False, ?getF_updF, ?decide_False; done.
Qed.

(** [IncFailures] on the forwarder itself. *)
Lemma getF_IncFailures f w :
  let x := getF w f in
  let n := u32 (f_failures x + 1) in
  getF (IncFailures f w) f =
  set_failures n
    (if negb (f_maxFailures x =? 0) && (n =? f_maxFailures x) &&
        (f_disabled x =? 0)
     then set_disabled 1 x else x).
Proof.
  simpl. unfold IncFailures. rewrite getF_updF, decide_True by done. simpl.
  destruct (f_maxFailures (getF w f) =? 0) eqn:E0; simpl.
  { by rewrite getF_updF, decide_True. }
  destruct (_ =? f_maxFailures (getF w f)) eqn:E1; simpl.
  2:{ by rewrite getF_updF, decide_True. }
  destruct (Enabled _) eqn:E2.
  - rewrite getF_Disable, decide_True, getF_updF, decide_True by done. simpl.
    by destruct (f_disabled (getF w f) =? 0).
  - rewrite getF_updF, decide_True by done.
    unfold Enabled, isTrue in E2. simpl in E2.
    destruct (f_disabled (getF w f) =? 0) eqn:Ed; [|done].
    bools. rewrite Ed in E2. done.
Qed.

(** The state a forwarder is in after [Enable]. *)
Definition healthy (x : Forwarder) : Prop := f_disabled x = 0 ∧ f_failures x = 0.

(** [k] failures in a row on a healthy forwarder. *)
Definition fail_times (k : nat) f w : W := Nat.iter k (IncFailures f) w.

Lemma fail_times_S k f w : fail_times (S k) f w = IncFailures f (fail_times k f w).
Proof. done. Qed.

Lemma fail_times_state k f w :
  healthy (getF w f) → Z.of_nat k < 2 ^ 32 → 0 <= f_maxFailures (getF w f) →
  getF (fail_times k f w) f =
  set_failures (Z.of_nat k)
    (if bool_decide (0 < f_maxFailures (getF w f) <= Z.of_nat k)
     then set_disabled 1 (getF w f) else getF w f).
Proof.
  intros [Hd Hf] Hk Hm. induction k as [|k IH].
  - simpl. rewrite bool_decide_false by lia. destruct (getF w f). simpl in *. by subst.
  - rewrite fail_times_S, getF_IncFailures, IH by lia. clear IH.
    rewrite (bool_decide_ext (0 < f_maxFailures (getF w f) <= Z.of_nat (S k))
      (0 < f_maxFailures (getF w f) <= Z.of_nat k
       ∨ (f_maxFailures (getF w f) = Z.of_nat (S k)))) by lia.
    simpl f_failures. rewrite u32_small by lia.
    destruct (getF w f) as [? ? ? ? m d n ? ? ?]. simpl in *. subst.
    destruct (decide (0 < m <= Z.of_nat k)) as [Hlt|Hge].
    + rewrite (bool_decide_true (0 < m <= _)) by done.
      rewrite (bool_decide_true (_ ∨ _)) by auto. simpl.
      rewrite andb_false_r. unfold set_failures. simpl. f_equal; lia.
    + rewrite (bool_decide_false (0 < m <= _)) by done. simpl. rewrite andb_true_r.
      replace (Z.of_nat k + 1) with (Z.of_nat (S k)) by lia.
      destruct (decide (m = Z.of_nat (S k))) as [->|Hm'].
      * rewrite (bool_decide_true (_ ∨ _)) by auto.
        rewrite Z.eqb_refl, (proj2 (Z.eqb_neq _ _)) by lia. done.
      * rewrite (bool_decide_false (_ ∨ _)) by lia.
        rewrite (proj2 (Z.eqb_neq (Z.of_nat (S k)) m)) by lia. by rewrite andb_false_r.
Qed.
End Laws.

(** ** Properties *)

(** A forwarder stays enabled through every failure before the
    [maxfailures]-th since it was last enabled, is disabled by exactly that one,
    and is never disabled by failures when [maxfailures] is 0. *)
Theorem maxfailures_threshold {W} (HW : FwdrWorld W) (w : W) (f : ptr) (k : nat) :
  healthy (getF w f) → 0 <= f_maxFailures (getF w f) → Z.of_nat k < 2 ^ 32 →
  Enabled (getF (fail_times k f w) f) =
  bool_decide (f_maxFailures (getF w f) = 0 ∨ Z.of_nat k < f_maxFailures (getF w f)).
Proof.
  intros Hh Hm Hk. rewrite fail_times_state by done. destruct Hh as [Hd _].
  unfold Enabled, isTrue. case_bool_decide as H1; simpl; rewrite ?Hd; simpl;
    case_bool_decide; try done; lia.
Qed.

(** The forwarder with its [url] field replaced. *)
Definition set_url u f := MkForwarder (embedded f) u (f_addr f) (f_priority f)
  (f_maxFailures f) (f_disabled f) (f_failures f) (f_latency f) (f_intface f) (handlers f).

(** The options after '#' are never a reason for [ForwarderFromURL] to fail:
    with an option text [url.ParseQuery] rejects, it builds the same forwarder as
    without options (only the stored URL text differs). *)
Theorem bad_option_ignored NewDirect creators u opt e intface dt rt :
  c_hash ∉ u → c_hash ∉ opt → (ParseQuery opt).2 = Some e →
  ForwarderFromURL NewDirect creators (u ++ c_hash :: opt) intface dt rt =
  (f ← ForwarderFromURL NewDirect creators u intface dt rt;
   Ok (set_url (u ++ c_hash :: opt) f)).
Proof.
  intros Hu Ho He. unfold ForwarderFromURL.
  rewrite split_byte_app, (split_byte_nosep c_hash u), (split_byte_nosep c_hash opt) by done.
  assert (∀ f, (parseOption opt f).1 = f) as Hp.
  { intros f. unfold parseOption. destruct (ParseQuery opt) as [q [e'|]]; done. }
  rewrite Hp. simpl.
  destruct (NewDirect intface dt rt) as [d| | |]; simpl; [|done..].
  destruct (dial_chain creators (split_byte c_comma u) d []) as [[d' addrs]| | |]; done.
Qed.
