(* ===== verification/Group.v ===== *)
(** rule/group.go: a forwarder group, its rotation, its schedulers, dialing with
    retries, and health checking.

    The world of a group is the store of its forwarders and the group object
    itself.  [onStatusChanged] is the status handler the group registers on each
    of its forwarders: this file's instance of [FwdrWorld]. *)
From stdpp Require Import sorting.
From S2P Require Import Prelude GoStd Forward.

(** ** Data *)

(** rule/config.go, [Strategy]. *)
Record Strategy := MkStrategy {
  s_Strategy : list byte;
  s_Check : list byte;
  s_CheckInterval : Z;
  s_CheckTimeout : Z;
  s_CheckTolerance : Z;
  s_CheckLatencySamples : Z;
  s_CheckDisabledOnly : bool;
  s_MaxFailures : Z;
  s_DialTimeout : Z;
  s_RelayTimeout : Z;
  s_IntFace : list byte;
  s_DialAttempts : Z;
  s_DialBudget : Z;
}.

Definition DefaultDialAttempts : Z := 3.
Definition DefaultDialBudget : Z := 8.
Definition maxDialBudget : Z := 3600.

(** The four values of the [next] method pointer. *)
Inductive Scheduler := ScheduleRR | ScheduleHA | ScheduleLHA | ScheduleDH.

Record FwdrGroup := MkGroup {
  g_name : list byte;
  g_config : Strategy;
  g_fwdrs : list ptr;
  g_avail : list ptr;
  g_index : Z;
  g_priority : Z;
  g_next : Scheduler;
  g_done : option bool;   (* None: nil channel, Some c: made, closed when c *)
  g_dialAttempts : Z;
  g_dialBudget : Z;
}.

(** The store of forwarders and the group object. *)
Record GW := MkGW { gw_heap : gmap ptr Forwarder; gw_group : FwdrGroup }.

Definition set_avail a g := MkGroup (g_name g) (g_config g) (g_fwdrs g) a (g_index g)
  (g_priority g) (g_next g) (g_done g) (g_dialAttempts g) (g_dialBudget g).
Definition set_index i g := MkGroup (g_name g) (g_config g) (g_fwdrs g) (g_avail g) i
  (g_priority g) (g_next g) (g_done g) (g_dialAttempts g) (g_dialBudget g).
Definition set_gpriority p g := MkGroup (g_name g) (g_config g) (g_fwdrs g) (g_avail g)
  (g_index g) p (g_next g) (g_done g) (g_dialAttempts g) (g_dialBudget g).
Definition set_done d g := MkGroup (g_name g) (g_config g) (g_fwdrs g) (g_avail g)
  (g_index g) (g_priority g) (g_next g) d (g_dialAttempts g) (g_dialBudget g).
Definition upd_group (u : FwdrGroup → FwdrGroup) (w : GW) : GW :=
  MkGW (gw_heap w) (u (gw_group w)).

(** ** The rotation *)

Definition fwdr (w : GW) (f : ptr) : Forwarder := gw_heap w !!! f.
Definition enabled (w : GW) (f : ptr) : bool := Enabled (fwdr w f).
Definition prio (w : GW) (f : ptr) : Z := f_priority (fwdr w f).

(** [init]: the active priority is the one of the first enabled forwarder, the
    rotation every enabled forwarder of at least that priority; with none, the
    priority is 0. *)
Definition init (w : GW) : GW :=
  let w := match List.find (enabled w) (g_fwdrs (gw_group w)) with
           | Some f => upd_group (set_gpriority (prio w f)) w
           | None => w
           end in
  let avail := List.filter
    (λ f, enabled w f && (g_priority (gw_group w) <=? prio w f))
    (g_fwdrs (gw_group w)) in
  let w := upd_group (set_avail avail) w in
  if bool_decide (avail = []) then upd_group (set_gpriority 0) w else w.

Definition inAvail (f : ptr) (w : GW) : bool := bool_decide (f ∈ g_avail (gw_group w)).

(** The removal of the [else] branch: the first occurrence is overwritten with
    the last element and the slice is cut by one. *)
Fixpoint index_of (f : ptr) (l : list ptr) : option nat :=
  match l with
  | [] => None
  | x :: l' => if (x =? f)%nat then Some 0%nat else S <$> index_of f l'
  end.

Definition swap_remove (f : ptr) (l : list ptr) : list ptr :=
  match index_of f l with
  | None => l
  | Some i =>
      match last l with
      | Some z => take (length l - 1) (<[i := z]> l)
      | None => l
      end
  end.

Definition onStatusChanged (f : ptr) (w : GW) : GW :=
  let w :=
    if enabled w f then
      if prio w f =? g_priority (gw_group w) then
        if inAvail f w then w
        else upd_group (λ g, set_avail (g_avail g ++ [f]) g) w
      else if g_priority (gw_group w) <? prio w f then init w
      else w
    else upd_group (λ g, set_avail (swap_remove f (g_avail g)) g) w in
  if bool_decide (g_avail (gw_group w) = []) then init w else w.

Lemma gw_heap_init w : gw_heap (init w) = gw_heap w.
Proof. unfold init. by repeat case_match. Qed.

Lemma gw_heap_onStatusChanged f w : gw_heap (onStatusChanged f w) = gw_heap w.
Proof. unfold onStatusChanged. repeat case_match; rewrite ?gw_heap_init; done. Qed.

#[global] Program Instance GW_world : FwdrWorld GW := {|
  fheap := gw_heap;
  set_fheap h w := MkGW h (gw_group w);
  notify h f w := match h with OnStatusChanged => onStatusChanged f w end;
|}.
Next Obligation. done. Qed.
Next Obligation. intros [] f w. apply gw_heap_onStatusChanged. Qed.

(** ** Construction *)

(** [sort.Sort(p.fwdrs)] with [Less] of [priSlice]: documented to order the
    slice, not to keep the order of equal elements. *)
Class PrioritySort (sort : (ptr → Z) → list ptr → list ptr) := {
  sort_perm : ∀ p l, sort p l ≡ₚ l;
  sort_sorted : ∀ p l, Sorted (λ a b, p b <= p a) (sort p l);
}.

Definition scheduler_of (strategy : list byte) : Scheduler :=
  if bool_decide (strategy = lit "rr") then ScheduleRR
  else if bool_decide (strategy = lit "ha") then ScheduleHA
  else if bool_decide (strategy = lit "lha") then ScheduleLHA
  else if bool_decide (strategy = lit "dh") then ScheduleDH
  else ScheduleRR.

Definition newFwdrGroup (sort : (ptr → Z) → list ptr → list ptr) (name : list byte)
    (fwdrs : list ptr) (c : Strategy) (h : gmap ptr Forwarder) : GW :=
  let p := MkGroup name c fwdrs [] 0 0 ScheduleRR None
             (Z.max (s_DialAttempts c) 1)
             (Z.min (Z.max (s_DialBudget c) 0) maxDialBudget * second) in
  let w := MkGW h p in
  let sorted := sort (prio w) fwdrs in
  let w := upd_group (λ p, MkGroup (g_name p) (g_config p) sorted (g_avail p) (g_index p)
             (g_priority p) (g_next p) (g_done p) (g_dialAttempts p) (g_dialBudget p)) w in
  let w := init w in
  let w := upd_group (λ p, MkGroup (g_name p) (g_config p) (g_fwdrs p) (g_avail p) (g_index p)
             (g_priority p)
             (if (1 <? length fwdrs)%nat then scheduler_of (s_Strategy c) else ScheduleRR)
             (g_done p) (g_dialAttempts p) (g_dialBudget p)) w in
  foldl (λ w f, AddHandler f OnStatusChanged w) w sorted.

Section NewGroup.
Context (sort : (ptr → Z) → list ptr → list ptr)
        (NewDirect : list byte → Z → Z → outcome Dialer)
        (dialerCreators : gmap (list byte) DialerCreator).

(** The loop of [NewFwdrGroup] over the forwarder URLs; forwarder [i] of the
    group is allocated at pointer [i]. *)
Fixpoint build_forwarders (s : list (list byte)) (c : Strategy) (h : gmap ptr Forwarder)
    (fwdrs : list ptr) : outcome (gmap ptr Forwarder * list ptr) :=
  match s with
  | [] => Ok (h, fwdrs)
  | chain :: s' =>
      f ← ForwarderFromURL NewDirect dialerCreators chain (s_IntFace c)
            (i64 (s_DialTimeout c * second)) (i64 (s_RelayTimeout c * second));
      let p := length fwdrs in
      build_forwarders s' c (<[p := set_maxFailures (u32 (s_MaxFailures c)) f]> h)
        (fwdrs ++ [p])
  end.

(** The strategy with its [Strategy] field set to "rr". *)
Definition force_rr (c : Strategy) : Strategy :=
  MkStrategy (lit "rr") (s_Check c) (s_CheckInterval c) (s_CheckTimeout c)
    (s_CheckTolerance c) (s_CheckLatencySamples c) (s_CheckDisabledOnly c)
    (s_MaxFailures c) (s_DialTimeout c) (s_RelayTimeout c) (s_IntFace c)
    (s_DialAttempts c) (s_DialBudget c).

(** The group's name. *)
Definition rule_name (rulePath : list byte) : list byte :=
  trim_suffix (path_Base rulePath) (path_Ext rulePath).

(** The strategy record is shared with the caller; after this call nothing reads
    its [Strategy] field, so the assignment of "rr" is seen by this group only. *)
Definition NewFwdrGroup (rulePath : list byte) (s : list (list byte)) (c : Strategy)
    : outcome GW :=
  r ← build_forwarders s c ∅ [];
  let '(h, fwdrs) := r in
  if bool_decide (fwdrs = []) then
    direct ← DirectForwarder NewDirect (s_IntFace c) (i64 (s_DialTimeout c * second))
               (i64 (s_RelayTimeout c * second));
    Ok (newFwdrGroup sort (rule_name rulePath) [0%nat] (force_rr c) {[0%nat := direct]})
  else Ok (newFwdrGroup sort (rule_name rulePath) fwdrs c h).
End NewGroup.

(** ** Schedulers *)

(** [l[i]], a panic when out of range. *)
Definition index_ptr (l : list ptr) (i : Z) : outcome ptr :=
  if i <? 0 then Panic else match l !! Z.to_nat i with Some f => Ok f | None => Panic end.

(** [l[atomic.AddUint32(&p.index, 1) % uint32(len(l))]]: the division by zero of
    an empty slice is a panic. *)
Definition next_index (l : list ptr) (w : GW) : outcome ptr * GW :=
  let i := u32 (g_index (gw_group w) + 1) in
  let w := upd_group (set_index i) w in
  if u32 (Z.of_nat (length l)) =? 0 then (Panic, w)
  else (index_ptr l (i mod u32 (Z.of_nat (length l))), w).

Definition scheduleRR (w : GW) : outcome ptr * GW := next_index (g_avail (gw_group w)) w.

Definition scheduleHA (w : GW) : outcome ptr := index_ptr (g_avail (gw_group w)) 0.

Definition latency (w : GW) (f : ptr) : Z := f_latency (fwdr w f).

(** The loop of [scheduleLHA]: [lowest] and [newfwdr]. *)
Definition lha_scan (w : GW) (l : list ptr) (start : Z * ptr) : Z * ptr :=
  foldl (λ '(lowest, newf) f,
    if latency w f <? lowest then (latency w f, f) else (lowest, newf)) start l.

Definition scheduleLHA (w : GW) : outcome ptr :=
  match g_avail (gw_group w) with
  | [] => Panic
  | oldfwdr :: _ =>
      let '(_, newfwdr) :=
        lha_scan w (g_avail (gw_group w)) (latency w oldfwdr, oldfwdr) in
      let tolerance := i64 (s_CheckTolerance (g_config (gw_group w)) * millisecond) in
      if latency w newfwdr <? i64 (latency w oldfwdr - tolerance)
      then Ok newfwdr else Ok oldfwdr
  end.

(** [hash/fnv] New32a. *)
Definition fnv32a (s : list byte) : Z :=
  foldl (λ h b, u32 (Z.lxor h (b2z b) * 16777619)) 2166136261 s.

Definition scheduleDH (dstAddr : list byte) (w : GW) : outcome ptr :=
  let l := g_avail (gw_group w) in
  if u32 (Z.of_nat (length l)) =? 0 then Panic
  else index_ptr l (fnv32a dstAddr mod u32 (Z.of_nat (length l))).

Definition run_next (dstAddr : list byte) (w : GW) : outcome ptr * GW :=
  match g_next (gw_group w) with
  | ScheduleRR => scheduleRR w
  | ScheduleHA => (scheduleHA w, w)
  | ScheduleLHA => (scheduleLHA w, w)
  | ScheduleDH => (scheduleDH dstAddr w, w)
  end.

Definition nextDialer (dstAddr : list byte) (w : GW) : outcome ptr * GW :=
  if bool_decide (g_avail (gw_group w) = []) then next_index (g_fwdrs (gw_group w)) w
  else run_next dstAddr w.

(** ** Dial candidates *)

Definition cand_pool (w : GW) : list ptr :=
  if bool_decide (g_avail (gw_group w) = []) then g_fwdrs (gw_group w)
  else g_avail (gw_group w).

(** The second loop of [dialCandidates], [k] rounds left starting at round [i]. *)
Fixpoint cand_loop (pool : list ptr) (first : ptr) (start n i k : nat) (out : list ptr)
    : list ptr :=
  match k with
  | O => out
  | S k' =>
      if (length out <? n)%nat then
        let out' := match pool !! ((start + i) mod length pool)%nat with
                    | Some f => if (f =? first)%nat then out else out ++ [f]
                    | None => out
                    end in
        cand_loop pool first start n (S i) k' out'
      else out
  end.

Definition dialCandidates (dstAddr : list byte) (n : Z) (w : GW) : outcome (list ptr) * GW :=
  let pool := cand_pool w in
  let n := Z.to_nat (Z.min n (Z.of_nat (length pool))) in
  let '(r, w) := nextDialer dstAddr w in
  (first ← r;
   let start := match index_of first pool with Some i => S i | None => 0%nat end in
   Ok (cand_loop pool first start n 0 (length pool) [first]), w).

(** ** Dial *)

(** The lines [Dial] logs, in order. *)
Inductive DialLog :=
| LogGaveUp (attempts : nat) (elapsed lastCost : Z)
| LogSucceeded (f : ptr) (attempt : nat)
| LogFailed (f : ptr) (cost : Z) (attempt : nat) (e : error).

Section Dial.
(** The embedded dialers answer attempt [i] through forwarder [f] with
    [reply i f]; [clock k] is what the [k]-th call of [time.Now] returns. *)
Context {Conn : Type} (reply : nat → ptr → Conn + error) (clock : nat → Z).

Record DialResult := MkDialResult {
  dr_conn : option Conn;
  dr_dialer : option ptr;
  dr_err : option error;
  dr_log : list DialLog;
}.

(** The loop of [Dial] over the candidates: [i] the attempt, [k] the clock
    readings so far, [start] the first one. *)
Fixpoint dial_loop (cands : list ptr) (i k : nat) (start lastCost : Z)
    (lastDialer : option ptr) (lastErr : option error) (log : list DialLog) (w : GW)
    : DialResult * GW :=
  match cands with
  | [] => (MkDialResult None lastDialer lastErr log, w)
  | nd :: cands' =>
      let budget := g_dialBudget (gw_group w) in
      let gated := (0 <? i)%nat && (0 <? budget) in
      let elapsed := clock k - start in
      let k1 := if gated then S k else k in
      if gated && (budget <=? elapsed + lastCost) then
        (MkDialResult None lastDialer lastErr (log ++ [LogGaveUp i elapsed lastCost]), w)
      else
        let attempt := clock k1 in
        let '(r, w') := Forwarder_Dial nd (reply i nd) w in
        let cost := clock (S k1) - attempt in
        match r with
        | inl c =>
            (MkDialResult (Some c) (Some nd) None
               (if (0 <? i)%nat then log ++ [LogSucceeded nd (i + 1)] else log), w')
        | inr e =>
            dial_loop cands' (S i) (S (S k1)) start cost (Some nd) (Some e)
              (log ++ [LogFailed nd cost (i + 1) e]) w'
        end
  end.

Definition Dial (addr : list byte) (w : GW) : outcome DialResult * GW :=
  let '(cands, w) := dialCandidates addr (g_dialAttempts (gw_group w)) w in
  match cands with
  | Ok cands =>
      let '(r, w) := dial_loop cands 0 1 (clock 0%nat) 0 None None [] w in (Ok r, w)
  | Err e => (Err e, w)
  | Panic => (Panic, w)
  | OutOfFuel => (OutOfFuel, w)
  end.

(** [DialUDP] dials the embedded dialer directly. *)
Definition DialUDP (dstAddr : list byte) (w : GW) : outcome ((Conn + error) * ptr) * GW :=
  let '(nd, w) := nextDialer dstAddr w in
  (nd ← nd; Ok (reply 0%nat nd, nd), w).
End Dial.

Definition NextDialer (dstAddr : list byte) (w : GW) : outcome ptr * GW := nextDialer dstAddr w.

(** ** Health checks *)

(** [setLatency]: a moving average over the configured number of samples. *)
Definition setLatency (f : ptr) (elapsed : Z) (w : GW) : GW :=
  let cnt := s_CheckLatencySamples (g_config (gw_group w)) in
  let lastLatency := latency w f in
  let newLatency :=
    if (1 <? cnt) && (0 <? lastLatency)
    then Z.quot (i64 (lastLatency * (cnt - 1) + elapsed)) cnt
    else elapsed in
  SetLatency f newLatency w.

(** What one iteration of the loop of [check] does after the wait. *)
Inductive CheckResult := CheckContinue | CheckBreak.

(** One iteration of [check]: [check w] is what [checker.Check(fwdr)] answers
    and the world after it (the checker dials through the forwarder).  [wait] is
    an uint8. *)
Definition check_iter (f : ptr) (check : GW → (Z + error) * GW) (wait : Z) (w : GW)
    : CheckResult * Z * GW :=
  if (0 <? wait) && (prio w f <? g_priority (gw_group w)) then (CheckContinue, wait, w)
  else if enabled w f && s_CheckDisabledOnly (g_config (gw_group w)) then
    (CheckContinue, wait, w)
  else
    let '(r, w) := check w in
    match r with
    | inl elapsed => (CheckContinue, 1, Enable f (setLatency f elapsed w))
    | inr e =>
        if bool_decide (e = ErrNotSupported) then
          (CheckBreak, wait, Enable f (SetMaxFailures f 0 w))
        else
          let wait := u8 (wait + 1) in
          let wait := if 16 <? wait then 16 else wait in
          (CheckContinue, wait, Disable f w)
    end.

(** The pause before an iteration, in nanoseconds. *)
Definition check_delay (wait : Z) (w : GW) : Z :=
  let d := i64 (i64 (s_CheckInterval (g_config (gw_group w)) * second) * wait) in
  if 0 <? d then d else 0.

(** The loop of [check] against a list of checker answers, until it breaks, [done]
    is seen closed or the answers run out; the accumulated pauses, and whether it
    ended. *)
Fixpoint check_loop (f : ptr) (checks : list (GW → (Z + error) * GW)) (wait slept : Z) (w : GW)
    : CheckResult * Z * Z * GW :=
  match checks with
  | [] => (CheckContinue, wait, slept, w)
  | c :: checks' =>
      let slept := slept + check_delay wait w in
      if bool_decide (g_done (gw_group w) = Some true) then (CheckBreak, wait, slept, w) else
      match check_iter f c wait w with
      | (CheckBreak, wait, w) => (CheckBreak, wait, slept, w)
      | (CheckContinue, wait, w) => check_loop f checks' wait slept w
      end
  end.

(** [tcpChecker.Check] (rule/check.go). *)
Definition tcp_check (f : ptr) (r : unit + error) (elapsed : Z) (w : GW) : (Z + error) * GW :=
  let '(r, w) := Forwarder_Dial f r w in
  (match r with inl _ => inl elapsed | inr e => inr e end, w).

(** [httpChecker.Check]: the steps after the dial answer [steps] in order (TLS
    handshake, write of the request, read of the first line, match against the
    expected text), [Some e] for a failure; a success slower than the timeout is
    an error. *)
Definition http_check (f : ptr) (r : unit + error) (steps : list (option error))
    (elapsed timeout : Z) (w : GW) : (Z + error) * GW :=
  let '(r, w) := Forwarder_Dial f r w in
  (match r with
   | inr e => inr e
   | inl _ =>
       match list_find (λ s, is_Some s) steps with
       | Some (_, Some e) => inr e
       | _ => if timeout <? elapsed then inr "timeout"%string else inl elapsed
       end
   end, w).

(** [warmCheck]: one check per forwarder; [order] is the order in which the
    goroutines finish. *)
Definition warm_one (check : ptr → GW → (Z + error) * GW) (w : GW) (f : ptr) : GW :=
  let '(r, w) := check f w in
  match r with
  | inl elapsed => Enable f (setLatency f elapsed w)
  | inr _ => w
  end.

Definition warmCheck (checker : option (ptr → GW → (Z + error) * GW)) (order : list ptr)
    (w : GW) : GW :=
  match checker with
  | None => foldl (λ w f, Enable f w) w (g_fwdrs (gw_group w))
  | Some check => foldl (warm_one check) w order
  end.

Definition startCheckers (has_checker : bool) (w : GW) : GW :=
  if has_checker then upd_group (set_done (Some false)) w else w.

(** [stop]: closes [done] once, a no-op when the checkers never started. *)
Definition stop (w : GW) : GW :=
  match g_done (gw_group w) with
  | None => w
  | Some _ => upd_group (set_done (Some true)) w
  end.
