(* ===== verification/GroupRotation.v ===== *)
(** rule/group.go: the rotation ([avail], [priority]) under every interleaving of
    status changes.

    [Enable] and [Disable] flip a forwarder's flag with one atomic instruction
    and call [onStatusChanged] afterwards, so flag flips and handler calls of
    several goroutines interleave.  The step relation [rstep] has one step per
    atomic flag flip and one step per handler call (which runs under the group's
    lock), with the handlers still to run kept in a list.  The other atomic
    writes of the package (failure counts, latencies, the round-robin index) are
    steps of their own. *)
From stdpp Require Import sorting.
From S2P Require Import Prelude GoStd Forward Group.

(** ** The slice operations *)

Lemma index_of_Some f l i : index_of f l = Some i → l !! i = Some f.
Proof.
  revert i. induction l as [|x l IH]; simpl; [done|]. intros i.
  case_match eqn:E; bools; [intros [= <-]; by subst|].
  destruct (index_of f l) as [j|]; [|done]. intros [= <-]. simpl. by apply IH.
Qed.

Lemma index_of_None f l : index_of f l = None ↔ f ∉ l.
Proof.
  induction l as [|x l IH]; simpl; [set_solver|].
  destruct (x =? f)%nat eqn:E; bools; subst; [split; [done|set_solver]|].
  destruct (index_of f l); simpl; set_solver.
Qed.

Lemma last_app_elem {A} (l : list A) z : last l = Some z → ∃ l', l = l' ++ [z].
Proof. intros H. by apply last_Some in H. Qed.

(** Overwriting the removed element with the last one and shortening the slice
    removes exactly that element. *)
Lemma swap_remove_perm f l : f ∈ l → l ≡ₚ f :: swap_remove f l.
Proof.
  intros Hin. unfold swap_remove.
  destruct (index_of f l) as [i|] eqn:Ei; [|by apply index_of_None in Ei].
  apply index_of_Some in Ei.
  destruct (last l) as [z|] eqn:El.
  2:{ apply last_None in El. subst. by apply not_elem_of_nil in Hin. }
  apply last_app_elem in El as [l' ->]. rewrite length_app. simpl.
  replace (length l' + 1 - 1)%nat with (length l') by lia.
  destruct (decide (i < length l')%nat) as [Hlt|Hge].
  - rewrite lookup_app_l in Ei by done.
    rewrite insert_app_l by done.
    rewrite take_app_length' by (by rewrite length_insert).
    rewrite (Permutation_app_comm l' [z]). simpl.
    rewrite <- (take_drop_middle l' i f) at 1 by done.
    rewrite insert_take_drop by done.
    rewrite <- !Permutation_middle. apply perm_swap.
  - pose proof (lookup_lt_Some _ _ _ Ei) as Hlt. rewrite length_app in Hlt. simpl in Hlt.
    assert (i = length l') as -> by lia.
    rewrite list_lookup_middle in Ei by done. injection Ei as ->.
    rewrite insert_app_r_alt by lia. rewrite Nat.sub_diag. simpl.
    rewrite take_app_length. symmetry. apply Permutation_cons_append.
Qed.

Lemma swap_remove_notin f l : f ∉ l → swap_remove f l = l.
Proof. intros H. unfold swap_remove. by apply index_of_None in H as ->. Qed.

Lemma swap_remove_spec f l :
  NoDup l → NoDup (swap_remove f l) ∧ (∀ g, g ∈ swap_remove f l ↔ g ∈ l ∧ g ≠ f).
Proof.
  intros Hnd. destruct (decide (f ∈ l)) as [Hin|Hin].
  - pose proof (swap_remove_perm f l Hin) as Hp.
    remember (swap_remove f l) as l' eqn:Hl'. clear Hl'.
    rewrite Hp in Hnd. apply NoDup_cons in Hnd as [Hni Hnd]. split; [done|].
    intros g. rewrite Hp. set_solver.
  - rewrite swap_remove_notin by done. split; [done|]. set_solver.
Qed.

(** ** Concurrent status changes *)

Definition rstate : Type := GW * list ptr.

Inductive rstep : rstate → rstate → Prop :=
| rs_enable f w w' P :
    f ∈ g_fwdrs (gw_group w) → cas_disabled f 1 0 w = (true, w') → rstep (w, P) (w', f :: P)
| rs_disable f w w' P :
    f ∈ g_fwdrs (gw_group w) → cas_disabled f 0 1 w = (true, w') → rstep (w, P) (w', f :: P)
| rs_handle f w P P' : P ≡ₚ f :: P' → rstep (w, P) (onStatusChanged f w, P')
| rs_failures f n w P : rstep (w, P) (updF f (set_failures n) w, P)
| rs_maxFailures f n w P : rstep (w, P) (updF f (set_maxFailures n) w, P)
| rs_latency f n w P : rstep (w, P) (updF f (set_latency n) w, P)
| rs_index i w P : rstep (w, P) (upd_group (set_index i) w, P).

(** ** The invariant *)

(** What holds of the group's slices at all times. *)
Record shape (w : GW) : Prop := {
  sh_nodup : NoDup (g_fwdrs (gw_group w));
  sh_sorted : StronglySorted (λ a b, prio w b <= prio w a) (g_fwdrs (gw_group w));
  sh_flag : ∀ f, f_disabled (fwdr w f) = 0 ∨ f_disabled (fwdr w f) = 1;
}.

(** The rotation is right up to the forwarders whose handler has not run yet. *)
Record rotation (w : GW) (P : list ptr) : Prop := {
  ro_nodup : NoDup (g_avail (gw_group w));
  ro_sub : g_avail (gw_group w) ⊆ g_fwdrs (gw_group w);
  ro_prio : ∀ f, f ∈ g_avail (gw_group w) → prio w f = g_priority (gw_group w);
  ro_sound : ∀ f, f ∈ g_avail (gw_group w) → f ∉ P → enabled w f = true;
  ro_complete : ∀ f, f ∈ g_fwdrs (gw_group w) → enabled w f = true → f ∉ P →
    prio w f <= g_priority (gw_group w) ∧
    (prio w f = g_priority (gw_group w) → f ∈ g_avail (gw_group w));
  ro_empty : g_avail (gw_group w) = [] → g_priority (gw_group w) = 0 ∧
    ∀ f, f ∈ g_fwdrs (gw_group w) → enabled w f = true → f ∈ P;
}.

Definition rinv (s : rstate) : Prop :=
  shape s.1 ∧ rotation s.1 s.2 ∧ s.2 ⊆ g_fwdrs (gw_group s.1).

(** [init] does not touch the forwarders nor the list of all of them. *)
Lemma init_fwdrs w : g_fwdrs (gw_group (init w)) = g_fwdrs (gw_group w).
Proof. unfold init. by repeat case_match. Qed.

Lemma fwdr_init w f : fwdr (init w) f = fwdr w f.
Proof. unfold fwdr. by rewrite gw_heap_init. Qed.
Lemma prio_init w f : prio (init w) f = prio w f.
Proof. unfold prio. by rewrite fwdr_init. Qed.
Lemma enabled_init w f : enabled (init w) f = enabled w f.
Proof. unfold enabled. by rewrite fwdr_init. Qed.

(** The first enabled forwarder of a list sorted by priority has the highest
    priority of the enabled ones. *)
Lemma find_enabled_max w l f :
  StronglySorted (λ a b, prio w b <= prio w a) l →
  List.find (enabled w) l = Some f →
  f ∈ l ∧ enabled w f = true ∧ ∀ g, g ∈ l → enabled w g = true → prio w g <= prio w f.
Proof.
  induction l as [|x l IH]; simpl; [done|]. intros Hs Hf.
  inversion Hs as [|? ? Hs' Hall]; subst. rewrite Forall_forall in Hall.
  destruct (enabled w x) eqn:Ex.
  - injection Hf as ->. repeat split; [by left|done|].
    intros g [->|Hg]%elem_of_cons ?; [lia|]. by apply Hall.
  - destruct (IH Hs' Hf) as (? & ? & Hmax). repeat split; [by right|done|].
    intros g [->|Hg]%elem_of_cons ?; [congruence|]. by apply Hmax.
Qed.

Lemma find_enabled_none w l :
  List.find (enabled w) l = None → ∀ g, g ∈ l → enabled w g = false.
Proof.
  intros H g Hg. apply (List.find_none _ _ H). by apply list_elem_of_In.
Qed.

(** What [init] computes, as a specification. *)
Lemma init_spec w :
  shape w →
  g_avail (gw_group (init w)) =
    List.filter (λ f, enabled w f && (g_priority (gw_group (init w)) <=? prio w f))
      (g_fwdrs (gw_group w)) ∧
  (∀ f, f ∈ g_fwdrs (gw_group w) → enabled w f = true →
        prio w f <= g_priority (gw_group (init w)) ∧
        ∃ f0, f0 ∈ g_fwdrs (gw_group w) ∧ enabled w f0 = true ∧
              g_priority (gw_group (init w)) = prio w f0) ∧
  (g_avail (gw_group (init w)) = [] → g_priority (gw_group (init w)) = 0).
Proof.
  intros [Hnd Hs _]. unfold init.
  destruct (List.find (enabled w) (g_fwdrs (gw_group w))) as [f0|] eqn:Ef.
  - apply find_enabled_max in Ef as (Hin & Hen & Hmax); [|done].
    change (enabled (upd_group (set_gpriority (prio w f0)) w)) with (enabled w).
    change (prio (upd_group (set_gpriority (prio w f0)) w)) with (prio w).
    simpl. case_bool_decide as Hnil.
    + exfalso. eapply (not_elem_of_nil f0). rewrite <- Hnil.
      apply list_elem_of_In, List.filter_In. rewrite Hen, Z.leb_refl.
      split; [|done]. by apply list_elem_of_In.
    + simpl. split; [done|]. split; [|done]. intros f Hf He. split; [by apply Hmax|].
      by exists f0.
  - pose proof (find_enabled_none _ _ Ef) as Hnone.
    assert (List.filter (λ f, enabled w f && (g_priority (gw_group w) <=? prio w f))
      (g_fwdrs (gw_group w)) = []) as Hnil.
    { apply elem_of_nil_inv. intros x [Hx Hb]%list_elem_of_In%List.filter_In.
      apply list_elem_of_In in Hx. rewrite (Hnone _ Hx) in Hb. done. }
    rewrite bool_decide_true by done. simpl. rewrite Hnil.
    split; [|split; [|done]].
    + symmetry. apply elem_of_nil_inv. intros x [Hx Hb]%list_elem_of_In%List.filter_In.
      apply list_elem_of_In in Hx. rewrite (Hnone _ Hx) in Hb. done.
    + intros f Hf He. rewrite (Hnone _ Hf) in He. done.
Qed.

Lemma StronglySorted_mono {A} (R R' : A → A → Prop) l :
  (∀ a b, R a b → R' a b) → StronglySorted R l → StronglySorted R' l.
Proof.
  intros HR. induction 1 as [|a l Hs IH Hall]; constructor; [done|].
  eapply Forall_impl; [done|]. intros b. apply HR.
Qed.

(** The invariant only looks at flags, priorities, and the group's fields. *)
Lemma shape_ext w w' :
  g_fwdrs (gw_group w') = g_fwdrs (gw_group w) →
  (∀ f, prio w' f = prio w f) →
  (∀ f, f_disabled (fwdr w' f) = 0 ∨ f_disabled (fwdr w' f) = 1) →
  shape w → shape w'.
Proof.
  intros Hf Hp Hd [? ? _]. split; rewrite ?Hf; [done| |done].
  eapply StronglySorted_mono; [|done]. intros a b. by rewrite !Hp.
Qed.

Lemma shape_init w : shape w → shape (init w).
Proof.
  intros H. apply (shape_ext w); [apply init_fwdrs|apply prio_init| |done].
  intros f. rewrite fwdr_init. apply H.
Qed.

(** [init] establishes the rotation whatever the pending handlers are. *)
Lemma rotation_init w P : shape w → rotation (init w) P.
Proof.
  intros Hsh. pose proof (init_spec w Hsh) as (Hav & Hmax & Hemp).
  assert (∀ f, f ∈ g_avail (gw_group (init w)) ↔ f ∈ g_fwdrs (gw_group w) ∧
    enabled w f = true ∧ g_priority (gw_group (init w)) <= prio w f) as Hin.
  { intros f. rewrite Hav, list_elem_of_In, List.filter_In, <- list_elem_of_In.
    rewrite andb_true_iff, Z.leb_le. tauto. }
  split; rewrite ?init_fwdrs.
  - rewrite Hav. apply NoDup_ListNoDup, List.NoDup_filter, NoDup_ListNoDup, Hsh.
  - intros f Hf. by apply Hin.
  - intros f (Hf & He & Hle)%Hin. rewrite prio_init.
    pose proof (proj1 (Hmax f Hf He)). lia.
  - intros f Hf _. rewrite enabled_init. by apply Hin in Hf as (_ & ? & _).
  - intros f Hf He _. rewrite enabled_init in He. rewrite prio_init.
    pose proof (proj1 (Hmax f Hf He)). split; [done|]. intros. apply Hin.
    split; [done|]. split; [done|lia].
  - intros Hnil. split; [by apply Hemp|]. intros f Hf He. exfalso.
    rewrite enabled_init in He. destruct (Hmax f Hf He) as [_ (f0 & Hf0 & He0 & Hp)].
    eapply (not_elem_of_nil f0). rewrite <- Hnil. apply Hin. split; [done|].
    split; [done|lia].
Qed.

Lemma shape_upd_group u w :
  (∀ g, g_fwdrs (u g) = g_fwdrs g) → shape w → shape (upd_group u w).
Proof.
  intros Hu Hsh. apply (shape_ext w); [apply Hu|done| |done]. apply Hsh.
Qed.

(** The rotation after the handler of [f] changed it in place: membership of [f]
    follows its flag and priority, the others keep their place. *)
Lemma rotation_settle f w P avail' :
  rotation w (f :: P) → f ∈ g_fwdrs (gw_group w) →
  (enabled w f = true → prio w f <= g_priority (gw_group w)) →
  NoDup avail' → avail' ≠ [] →
  (∀ g, g ∈ avail' ↔ (g ∈ g_avail (gw_group w) ∧ g ≠ f) ∨
     (g = f ∧ enabled w f = true ∧ prio w f = g_priority (gw_group w))) →
  rotation (upd_group (set_avail avail') w) P.
Proof.
  intros [Hnd Hsub Hpr Hso Hco Hem] Hf Hle Hnd' Hne Hin.
  change (prio (upd_group (set_avail avail') w)) with (prio w) in *.
  split; simpl; [done|..].
  - intros g [[? _]|[-> _]]%Hin; [by apply Hsub|done].
  - intros g [[? _]|(-> & _ & ?)]%Hin; [by apply Hpr|done].
  - intros g [[Hg Hgf]|(-> & ? & _)]%Hin HP; [|done]. apply Hso; set_solver.
  - intros g Hg He HP. destruct (decide (g = f)) as [->|Hgf].
    + split; [by apply Hle|]. intros. apply Hin. auto.
    + destruct (Hco g Hg He ltac:(set_solver)) as [? Hi]. split; [done|].
      intros Heq. apply Hin. left. auto.
  - done.
Qed.

(** Running one handler settles the forwarder it is called for. *)
Lemma rotation_handle f w P :
  shape w → f ∈ g_fwdrs (gw_group w) → rotation w (f :: P) →
  rotation (onStatusChanged f w) P.
Proof.
  intros Hsh Hf Hro. unfold onStatusChanged.
  assert (∀ w', shape w' →
    (g_avail (gw_group w') ≠ [] → rotation w' P) →
    rotation (if bool_decide (g_avail (gw_group w') = []) then init w' else w') P) as Hend.
  { intros w' Hsh' H. case_bool_decide; [by apply rotation_init|by apply H]. }
  assert (Hself : w = upd_group (set_avail (g_avail (gw_group w))) w)
    by (by destruct w as [h []]).
  pose proof (ro_nodup _ _ Hro) as Hnd.
  destruct (enabled w f) eqn:He.
  - destruct (prio w f =? g_priority (gw_group w)) eqn:Hp; bools.
    + unfold inAvail. destruct (decide (f ∈ g_avail (gw_group w))) as [Hin|Hin];
        [rewrite (bool_decide_true (f ∈ _)) by done
        |rewrite (bool_decide_false (f ∈ _)) by done].
      * apply Hend; [done|]. intros Hne. rewrite Hself.
        apply (rotation_settle f); [done..|lia|done|done|].
        intros g. destruct (decide (g = f)) as [->|]; set_solver.
      * apply Hend; [by apply shape_upd_group|]. intros Hne. simpl.
        apply (rotation_settle f _ _ (g_avail (gw_group w) ++ [f])); [done..|lia| |done|].
        -- apply NoDup_app. split; [done|]. split; [set_solver|apply NoDup_singleton].
        -- intros g. destruct (decide (g = f)) as [->|]; set_solver.
    + destruct (g_priority (gw_group w) <? prio w f) eqn:Hlt; bools.
      * apply Hend; [by apply shape_init|]. intros _. by apply rotation_init.
      * apply Hend; [done|]. intros Hne. rewrite Hself.
        apply (rotation_settle f); [done..|lia|done|done|].
        intros g. destruct (decide (g = f)) as [->|Hgf]; [|set_solver].
        split; [|naive_solver]. intros Hin. exfalso. apply Hp. by apply (ro_prio _ _ Hro).
  - pose proof (swap_remove_spec f _ Hnd) as [Hnd' Hin'].
    apply Hend; [by apply shape_upd_group|]. intros Hne.
    apply (rotation_settle f _ _ (swap_remove f (g_avail (gw_group w))));
      [done|done|congruence|done|done|].
    intros g. rewrite Hin', He. naive_solver.
Qed.

(** ** Preservation by every step *)

Lemma fwdr_updF f u w g :
  fwdr (updF f u w) g = if decide (f = g) then u (fwdr w f) else fwdr w g.
Proof.
  change (getF (updF f u w) g = if decide (f = g) then u (getF w f) else getF w g).
  apply getF_updF.
Qed.

Lemma group_updF f u w : gw_group (updF f u w) = gw_group w.
Proof. done. Qed.

Lemma rotation_ext w w' P P' :
  g_fwdrs (gw_group w') = g_fwdrs (gw_group w) →
  g_avail (gw_group w') = g_avail (gw_group w) →
  g_priority (gw_group w') = g_priority (gw_group w) →
  (∀ f, prio w' f = prio w f) →
  (∀ f, f ∉ P' → enabled w' f = enabled w f) → P ⊆ P' →
  rotation w P → rotation w' P'.
Proof.
  intros Ef Ea Eg Hp He HP [Hnd Hsub Hpr Hso Hco Hem].
  split; rewrite ?Ef, ?Ea, ?Eg; [done|done|..].
  - intros f Hf. rewrite Hp. by apply Hpr.
  - intros f Hf Hn. rewrite He by done. apply Hso; set_solver.
  - intros f Hf Hen Hn. rewrite He in Hen by done. rewrite Hp. apply Hco; set_solver.
  - intros Hnil. destruct (Hem Hnil) as [? Hall]. split; [done|].
    intros f Hf Hen. destruct (decide (f ∈ P')) as [|Hn]; [done|].
    rewrite He in Hen by done. apply HP. by apply Hall.
Qed.

(** A write to a field that is neither the flag nor the priority. *)
Lemma rinv_updF f u w P :
  (∀ x, f_disabled (u x) = f_disabled x ∧ f_priority (u x) = f_priority x) →
  rinv (w, P) → rinv (updF f u w, P).
Proof.
  intros Hu (Hsh & Hro & HP).
  assert (∀ g, f_disabled (fwdr (updF f u w) g) = f_disabled (fwdr w g)) as Hd.
  { intros g. rewrite fwdr_updF. case_decide; [subst; apply Hu|done]. }
  assert (∀ g, prio (updF f u w) g = prio w g) as Hp.
  { intros g. unfold prio. rewrite fwdr_updF. case_decide; [subst; apply Hu|done]. }
  split; [|split; [|done]]; simpl in *.
  - apply (shape_ext w); [done..| |done]. intros g. rewrite Hd. apply Hsh.
  - apply (rotation_ext w _ P); [done|done|done|done| |done|done].
    intros g _. unfold enabled, Enabled. by rewrite Hd.
Qed.

(** A flag flip makes the handler of the forwarder pending. *)
Lemma rinv_flip f d w P :
  f ∈ g_fwdrs (gw_group w) → d = 0 ∨ d = 1 → rinv (w, P) →
  rinv (updF f (set_disabled d) w, f :: P).
Proof.
  intros Hf Hd (Hsh & Hro & HP).
  assert (∀ g, prio (updF f (set_disabled d) w) g = prio w g) as Hp.
  { intros g. unfold prio. rewrite fwdr_updF. case_decide; by subst. }
  split; [|split; [|set_solver]]; simpl in *.
  - apply (shape_ext w); [done..| |done]. intros g. rewrite fwdr_updF.
    case_decide; [done|apply Hsh].
  - apply (rotation_ext w _ P); [done|done|done|done| |set_solver|done].
    intros g Hg. unfold enabled. rewrite fwdr_updF, decide_False by set_solver. done.
Qed.

Lemma cas_disabled_updF f old new w w' :
  cas_disabled f old new w = (true, w') → w' = updF f (set_disabled new) w.
Proof. unfold cas_disabled. case_match; congruence. Qed.

Lemma onStatusChanged_fwdrs f w :
  g_fwdrs (gw_group (onStatusChanged f w)) = g_fwdrs (gw_group w).
Proof. unfold onStatusChanged. repeat case_match; rewrite ?init_fwdrs; done. Qed.

Lemma shape_onStatusChanged f w : shape w → shape (onStatusChanged f w).
Proof.
  intros H. apply (shape_ext w); [apply onStatusChanged_fwdrs| | |done].
  - intros g. unfold prio, fwdr. by rewrite gw_heap_onStatusChanged.
  - intros g. unfold fwdr. rewrite gw_heap_onStatusChanged. apply H.
Qed.

Lemma rotation_perm w P P' : P ≡ₚ P' → rotation w P → rotation w P'.
Proof.
  intros HP. apply (rotation_ext w w); [done..|]. intros x. by rewrite HP.
Qed.

Lemma rinv_step s s' : rstep s s' → rinv s → rinv s'.
Proof.
  intros Hst Hinv. destruct Hst as [f w w' P Hf Hc|f w w' P Hf Hc|f w P P' HP
    |f n w P|f n w P|f n w P|i w P].
  - apply cas_disabled_updF in Hc as ->. apply rinv_flip; auto.
  - apply cas_disabled_updF in Hc as ->. apply rinv_flip; auto.
  - destruct Hinv as (Hsh & Hro & Hsub). simpl in *.
    assert (f ∈ g_fwdrs (gw_group w)) as Hf by (apply Hsub; rewrite HP; by left).
    split; [by apply shape_onStatusChanged|]. split; simpl.
    + apply rotation_handle; [done|done|]. by apply (rotation_perm _ P).
    + rewrite onStatusChanged_fwdrs. intros g Hg. apply Hsub. rewrite HP. by right.
  - by apply rinv_updF.
  - by apply rinv_updF.
  - by apply rinv_updF.
  - destruct Hinv as (Hsh & Hro & Hsub). split; [by apply shape_upd_group|].
    split; [|done]. by apply (rotation_ext w _ P).
Qed.

Lemma rinv_rtc s s' : rtc rstep s s' → rinv s → rinv s'.
Proof. induction 1; eauto using rinv_step. Qed.

(** ** The initial state *)

Lemma rinv_add_handlers l w P :
  rinv (w, P) → rinv (foldl (λ w f, AddHandler f OnStatusChanged w) w l, P).
Proof.
  revert w. induction l as [|f l IH]; intros w Hw; simpl; [done|].
  apply IH. by apply rinv_updF.
Qed.

(** [newFwdrGroup] starts with a correct rotation and nothing pending. *)
Lemma rinv_newFwdrGroup sort `{!PrioritySort sort} name fwdrs c h :
  NoDup fwdrs →
  (∀ f, f_disabled (h !!! f) = 0 ∨ f_disabled (h !!! f) = 1) →
  rinv (newFwdrGroup sort name fwdrs c h, []).
Proof.
  intros Hnd Hfl. unfold newFwdrGroup. apply rinv_add_handlers.
  set (w0 := upd_group _ (MkGW h _)).
  assert (shape w0) as Hsh.
  { split; simpl.
    - by rewrite (sort_perm (PrioritySort := PrioritySort0)).
    - apply Sorted_StronglySorted.
      + intros a b e. unfold prio, fwdr. simpl. lia.
      + apply (sort_sorted (PrioritySort := PrioritySort0)).
    - apply Hfl. }
  pose proof (rotation_init w0 [] Hsh) as Hro. pose proof (shape_init w0 Hsh) as Hsh'.
  split; [by apply shape_upd_group|]. split; [|by intros ? ?%not_elem_of_nil].
  by apply (rotation_ext (init w0) _ []).
Qed.

(** Any ordering function will do; this one is stdpp's merge sort. *)
Definition msort (p : ptr → Z) (l : list ptr) : list ptr :=
  merge_sort (λ a b, p b <= p a) (H := λ a b, decide (p b <= p a)) l.

#[global] Instance msort_priority : PrioritySort msort.
Proof.
  split; intros p l; unfold msort.
  - apply merge_sort_Permutation.
  - apply Sorted_merge_sort. intros a b. lia.
Qed.

(** ** The properties *)

(** [f] belongs in the rotation: it is enabled and no enabled forwarder of the
    group has a higher priority. *)
Definition eligible (w : GW) (f : ptr) : Prop :=
  f ∈ g_fwdrs (gw_group w) ∧ enabled w f = true ∧
  ∀ g, g ∈ g_fwdrs (gw_group w) → enabled w g = true → prio w g <= prio w f.

Lemma rotation_quiescent_spec w :
  rinv (w, []) → ∀ f, f ∈ g_avail (gw_group w) ↔ eligible w f.
Proof.
  intros (Hsh & [Hnd Hsub Hpr Hso Hco Hem] & _). simpl in *. intros f.
  assert (∀ x : ptr, x ∉ []) as Hn by (intros x; apply not_elem_of_nil).
  split.
  - intros Hf. split; [by apply Hsub|]. split; [by apply Hso|].
    intros g Hg He. rewrite (Hpr f Hf). by apply (Hco g Hg He).
  - intros (Hf & He & Hmax). apply (Hco f Hf He); [done|].
    destruct (g_avail (gw_group w)) as [|a l] eqn:Ea.
    { destruct (Hem eq_refl) as [_ Hall]. by apply Hall in Hf; [apply Hn in Hf|]. }
    rewrite <- Ea in *. assert (a ∈ g_avail (gw_group w)) as Ha by (rewrite Ea; by left).
    pose proof (Hmax a (Hsub _ Ha) (Hso a Ha (Hn a))) as Hle.
    rewrite (Hpr a Ha) in Hle. pose proof (proj1 (Hco f Hf He (Hn f))). lia.
Qed.

(** At every moment of every interleaving of status changes, the rotation is
    duplicate free and contains only forwarders of the group, so its size (the
    [enabled] figure of the status endpoint) never exceeds the group's. *)
Theorem rotation_nodup sort (Hs : PrioritySort sort) name fwdrs c h w P :
  NoDup fwdrs →
  (∀ f, f_disabled (h !!! f) = 0 ∨ f_disabled (h !!! f) = 1) →
  rtc rstep (newFwdrGroup sort name fwdrs c h, []) (w, P) →
  NoDup (g_avail (gw_group w)) ∧ g_avail (gw_group w) ⊆ g_fwdrs (gw_group w) ∧
  (length (g_avail (gw_group w)) <= length (g_fwdrs (gw_group w)))%nat.
Proof.
  intros Hnd Hfl Hr.
  pose proof (rinv_rtc _ _ Hr (rinv_newFwdrGroup sort name fwdrs c h Hnd Hfl))
    as (Hsh & [Hnd' Hsub _ _ _ _] & _). simpl in *.
  split; [done|]. split; [done|]. apply submseteq_length, NoDup_submseteq; [done|].
  intros x. apply Hsub.
Qed.

