(* ===== verification/GroupDial.v ===== *)
(** rule/group.go: choosing forwarders and dialing with retries.

    The candidates of one [Dial] are the first [n] elements of the pool rotated
    to start at the scheduler's pick ([dialCandidates_rotation]); [Dial] tries
    them in order within its attempt and time bounds and charges every failure
    to the forwarder it happened on ([Dial_outcome]). *)
From stdpp Require Import sorting.
From S2P Require Import Prelude GoStd Forward Group GroupRotation.

(** ** Rotations of a slice *)

(** [l] read cyclically from position [s <= length l]. *)
Definition rotate_from {A} (s : nat) (l : list A) : list A := drop s l ++ take s l.

Lemma rotate_from_lookup {A} s (l : list A) j :
  (s <= length l)%nat → (j < length l)%nat →
  rotate_from s l !! j = l !! ((s + j) mod length l)%nat.
Proof.
  intros Hs Hj. unfold rotate_from.
  destruct (decide (s + j < length l)%nat) as [Hlt|Hge].
  - rewrite lookup_app_l by (rewrite length_drop; lia).
    rewrite lookup_drop, Nat.mod_small by lia. done.
  - rewrite lookup_app_r by (rewrite length_drop; lia).
    rewrite length_drop, lookup_take_lt by lia.
    replace ((s + j) mod length l)%nat with (s + j - length l)%nat; [f_equal; lia|].
    rewrite <- (Nat.mod_small (s + j - length l) (length l)) at 1 by lia.
    replace (s + j)%nat with (s + j - length l + 1 * length l)%nat at 2 by lia.
    by rewrite Nat.Div0.mod_add.
Qed.

Lemma rotate_from_perm {A} s (l : list A) : rotate_from s l ≡ₚ l.
Proof. unfold rotate_from. rewrite Permutation_app_comm. by rewrite take_drop. Qed.

(** The elements the candidate loop visits in rounds [i], [i+1], ... *)
Definition visits (pool : list ptr) (start i k : nat) : list ptr :=
  omap (λ j, pool !! ((start + j) mod length pool)%nat) (seq i k).

Lemma visits_S pool start i k :
  visits pool start i (S k) =
  match pool !! ((start + i) mod length pool)%nat with
  | Some f => f :: visits pool start (S i) k
  | None => visits pool start (S i) k
  end.
Proof. reflexivity. Qed.

Lemma visits_shift pool start i k : visits pool (S start) i k = visits pool start (S i) k.
Proof.
  revert i. induction k as [|k IH]; intros i; [done|]. rewrite !visits_S, IH.
  by rewrite Nat.add_succ_r.
Qed.

Lemma cand_loop_visits pool first start n i k out :
  cand_loop pool first start n i k out =
  out ++ take (n - length out) (filter (λ f, f ≠ first) (visits pool start i k)).
Proof.
  revert i out. induction k as [|k IH]; intros i out; simpl.
  { unfold visits. simpl. by rewrite filter_nil, take_nil, app_nil_r. }
  destruct (length out <? n)%nat eqn:E; bools.
  2:{ replace (n - length out)%nat with 0%nat by lia. by rewrite take_0, app_nil_r. }
  rewrite visits_S, IH. destruct (pool !! _) as [f|]; [|done]. simpl.
  rewrite filter_cons. destruct (f =? first)%nat eqn:Ef; bools.
  - rewrite decide_False by (intros []; done). done.
  - rewrite decide_True by done. rewrite length_app. simpl.
    destruct (n - length out)%nat as [|m] eqn:Em; [lia|]. simpl.
    rewrite <- (assoc (++)). simpl. do 4 f_equal. lia.
Qed.

Lemma visits_rotate pool start :
  (start <= length pool)%nat → visits pool start 0 (length pool) = rotate_from start pool.
Proof.
  intros Hs.
  assert (∀ k, (k <= length pool)%nat →
    visits pool start 0 k = take k (rotate_from start pool)) as H.
  2:{ rewrite H by lia. apply take_ge.
      unfold rotate_from. rewrite length_app, length_drop, length_take. lia. }
  induction k as [|k IH]; intros Hk; [done|].
  unfold visits. rewrite seq_S, omap_app. fold (visits pool start 0 k). simpl.
  rewrite IH by lia. rewrite <- rotate_from_lookup by lia.
  destruct (rotate_from start pool !! k) as [x|] eqn:Ex.
  - by rewrite (take_S_r _ _ _ Ex).
  - apply lookup_ge_None in Ex. unfold rotate_from in Ex.
    rewrite length_app, length_drop, length_take in Ex. lia.
Qed.

Lemma filter_ne_notin (f : ptr) (l : list ptr) : f ∉ l → filter (λ x, x ≠ f) l = l.
Proof.
  induction l as [|x l IH]; intros H; [done|]. rewrite filter_cons.
  rewrite decide_True by set_solver. rewrite IH by set_solver. done.
Qed.

(** The loops of [dialCandidates] for a pick inside a duplicate-free pool. *)
Lemma cand_loop_rotation pool first i n :
  NoDup pool → index_of first pool = Some i → (1 <= n)%nat →
  cand_loop pool first (S i) n 0 (length pool) [first] = take n (rotate_from i pool).
Proof.
  intros Hnd Hi Hn. apply index_of_Some in Hi.
  pose proof (lookup_lt_Some _ _ _ Hi) as Hlt.
  rewrite cand_loop_visits, visits_rotate by lia. simpl.
  unfold rotate_from.
  rewrite (take_S_r _ _ _ Hi), (drop_S _ _ _ Hi), !filter_app. simpl.
  rewrite filter_cons, filter_nil, decide_False by (intros []; done).
  rewrite app_nil_r.
  rewrite <- (take_drop_middle pool i first Hi) in Hnd.
  apply NoDup_app in Hnd as (Hn1 & Hdisj & Hn2). apply NoDup_cons in Hn2 as [Hn2 _].
  assert (first ∉ take i pool) as Hn1' by (intros Hin; by apply (Hdisj _ Hin); left).
  rewrite !filter_ne_notin by done.
  destruct n as [|n]; [lia|]. simpl. by rewrite Nat.sub_0_r.
Qed.

(** ** The scheduler's pick *)

(** A slice an uint32 can index. *)
Definition indexable (l : list ptr) : Prop := (0 < length l)%nat ∧ Z.of_nat (length l) < 2 ^ 32.

Lemma index_ptr_in l i : 0 <= i < Z.of_nat (length l) → ∃ f, index_ptr l i = Ok f ∧ f ∈ l.
Proof.
  intros Hi. unfold index_ptr. rewrite (proj2 (Z.ltb_ge i 0)) by lia.
  destruct (lookup_lt_is_Some_2 l (Z.to_nat i)) as [f Hf]; [lia|].
  exists f. rewrite Hf. split; [done|]. by apply list_elem_of_lookup_2 in Hf.
Qed.

Lemma next_index_in l w :
  indexable l →
  ∃ f, next_index l w = (Ok f, upd_group (set_index (u32 (g_index (gw_group w) + 1))) w) ∧ f ∈ l.
Proof.
  intros [Hl Hm]. unfold next_index. rewrite (u32_small (Z.of_nat _)) by lia.
  rewrite (proj2 (Z.eqb_neq _ 0)) by lia.
  destruct (index_ptr_in l (u32 (g_index (gw_group w) + 1) mod Z.of_nat (length l)))
    as (f & -> & Hf); [apply Z.mod_pos_bound; lia|]. eauto.
Qed.

Lemma lha_scan_in w l lowest f :
  (lha_scan w l (lowest, f)).2 = f ∨ (lha_scan w l (lowest, f)).2 ∈ l.
Proof.
  revert lowest f. induction l as [|g l IH]; intros lowest f; [by left|]. simpl.
  fold (lha_scan w l).
  case_match; (destruct (IH (latency w g) g) as [?|?]; destruct (IH lowest f) as [?|?]);
    set_solver.
Qed.

Lemma scheduleLHA_in w :
  g_avail (gw_group w) ≠ [] → ∃ f, scheduleLHA w = Ok f ∧ f ∈ g_avail (gw_group w).
Proof.
  intros Hne. unfold scheduleLHA. destruct (g_avail (gw_group w)) as [|o l]; [done|].
  pose proof (lha_scan_in w (o :: l) (latency w o) o) as Hin.
  destruct (lha_scan w (o :: l) (latency w o, o)) as [x f']. simpl in Hin.
  destruct (latency w f' <? _); [exists f'|exists o]; set_solver.
Qed.

(** The world after a pick: at most the round-robin index has moved. *)
Definition picked (w w' : GW) : Prop :=
  w' = w ∨ w' = upd_group (set_index (u32 (g_index (gw_group w) + 1))) w.

Lemma nextDialer_in dst w :
  indexable (cand_pool w) →
  ∃ f w', nextDialer dst w = (Ok f, w') ∧ f ∈ cand_pool w ∧ picked w w'.
Proof.
  unfold nextDialer, cand_pool. case_bool_decide as Hnil; intros Hix.
  - destruct (next_index_in _ w Hix) as (f & -> & Hf). unfold picked. eauto 6.
  - unfold run_next. destruct (g_next (gw_group w)).
    + destruct (next_index_in _ w Hix) as (f & Hn & Hf).
      exists f. eexists. split; [exact Hn|]. unfold picked. auto.
    + destruct (index_ptr_in (g_avail (gw_group w)) 0) as (f & Hi & Hf).
      { destruct Hix. lia. }
      exists f, w. unfold scheduleHA. rewrite Hi. unfold picked. auto.
    + destruct (scheduleLHA_in w Hnil) as (f & -> & Hf). exists f, w. unfold picked. auto.
    + unfold scheduleDH. destruct Hix as [Hl Hm]. rewrite u32_small by lia.
      rewrite (proj2 (Z.eqb_neq _ 0)) by lia.
      destruct (index_ptr_in (g_avail (gw_group w))
        (fnv32a dst mod Z.of_nat (length (g_avail (gw_group w))))) as (f & -> & Hf);
        [apply Z.mod_pos_bound; lia|]. exists f, w. unfold picked. auto.
Qed.

Lemma picked_pool w w' : picked w w' → cand_pool w' = cand_pool w.
Proof. intros [->| ->]; done. Qed.

Lemma picked_fwdr w w' : picked w w' → (∀ f, fwdr w' f = fwdr w f) ∧
  g_dialBudget (gw_group w') = g_dialBudget (gw_group w) ∧
  g_dialAttempts (gw_group w') = g_dialAttempts (gw_group w).
Proof. intros [->| ->]; done. Qed.

(** What [dialCandidates] computes: the pool (the rotation, or every forwarder
    when it is empty), rotated to start at the scheduler's pick, cut to [n]. *)
Lemma dialCandidates_spec dst n w :
  NoDup (cand_pool w) → indexable (cand_pool w) → 1 <= n →
  ∃ first i w',
    nextDialer dst w = (Ok first, w') ∧ picked w w' ∧
    cand_pool w !! i = Some first ∧
    dialCandidates dst n w = (Ok (take (Z.to_nat n) (rotate_from i (cand_pool w))), w').
Proof.
  intros Hnd Hix Hn. destruct (nextDialer_in dst w Hix) as (first & w' & Hnext & Hin & Hp).
  destruct (index_of first (cand_pool w)) as [i|] eqn:Ei; [|by apply index_of_None in Ei].
  exists first, i, w'. split; [done|]. split; [done|].
  split; [by apply index_of_Some|].
  unfold dialCandidates. rewrite Hnext, bind_ret, Ei.
  destruct Hix as [Hpos _].
  rewrite cand_loop_rotation by (done || lia). do 2 f_equal.
  destruct (decide (n <= Z.of_nat (length (cand_pool w)))) as [Hle|Hgt].
  - by rewrite Z.min_l by lia.
  - rewrite Z.min_r by lia. rewrite Nat2Z.id. rewrite !take_ge; [done|..];
      rewrite (Permutation_length (rotate_from_perm _ _)); lia.
Qed.

(** [dialCandidates] yields distinct forwarders of the pool, exactly
    [min n (len pool)] of them, and the first one is the forwarder a dial
    without retries would have used. *)
Theorem dialCandidates_distinct dst n w :
  NoDup (cand_pool w) → indexable (cand_pool w) → 1 <= n →
  ∃ first cands w',
    nextDialer dst w = (Ok first, w') ∧
    dialCandidates dst n w = (Ok (first :: cands), w') ∧
    NoDup (first :: cands) ∧ first :: cands ⊆ cand_pool w ∧
    length (first :: cands) = Nat.min (Z.to_nat n) (length (cand_pool w)).
Proof.
  intros Hnd Hix Hn. destruct (dialCandidates_spec dst n w Hnd Hix Hn)
    as (first & i & w' & Hnext & _ & Hi & Hc).
  assert (rotate_from i (cand_pool w) =
    first :: drop (S i) (cand_pool w) ++ take i (cand_pool w)) as Hrot.
  { unfold rotate_from. by rewrite (drop_S _ _ _ Hi). }
  destruct (Z.to_nat n) as [|m] eqn:En; [lia|].
  exists first, (take m (drop (S i) (cand_pool w) ++ take i (cand_pool w))), w'.
  split; [done|]. rewrite Hc, Hrot. split; [done|].
  rewrite <- firstn_cons, <- Hrot. pose proof (rotate_from_perm i (cand_pool w)) as Hperm.
  split; [|split].
  - apply (sublist_NoDup _ (rotate_from i (cand_pool w))); [by rewrite Hperm|].
    apply sublist_take.
  - intros x Hx. rewrite <- Hperm. by apply elem_of_take in Hx as (? & ?%list_elem_of_lookup_2 & _).
  - by rewrite length_take, (Permutation_length Hperm).
Qed.

(** ** What a failed attempt does to the world *)

Lemma init_budget w : g_dialBudget (gw_group (init w)) = g_dialBudget (gw_group w).
Proof. unfold init. by repeat case_match. Qed.

Lemma onStatusChanged_budget f w :
  g_dialBudget (gw_group (onStatusChanged f w)) = g_dialBudget (gw_group w).
Proof. unfold onStatusChanged. repeat case_match; rewrite ?init_budget; done. Qed.

Lemma run_handlers_budget f w :
  g_dialBudget (gw_group (run_handlers f w)) = g_dialBudget (gw_group w).
Proof.
  unfold run_handlers. generalize (handlers (getF w f)). intros l. revert w.
  induction l as [|[] l IH]; intros w; simpl; [done|]. by rewrite IH, onStatusChanged_budget.
Qed.

Lemma IncFailures_budget f w :
  g_dialBudget (gw_group (IncFailures f w)) = g_dialBudget (gw_group w).
Proof.
  unfold IncFailures, Disable, cas_disabled.
  repeat case_match; simplify_eq; rewrite ?run_handlers_budget; done.
Qed.

(** One failure counts once, on its own forwarder. *)
Lemma IncFailures_failures f w g :
  f_failures (fwdr (IncFailures f w) g) =
  if decide (f = g) then u32 (f_failures (fwdr w f) + 1) else f_failures (fwdr w g).
Proof.
  change (f_failures (getF (IncFailures f w) g) =
    if decide (f = g) then u32 (f_failures (getF w f) + 1) else f_failures (getF w g)).
  case_decide as Hfg; [subst|by rewrite getF_IncFailures_other].
  rewrite getF_IncFailures. by case_match.
Qed.

(** ** The retry loop *)

Definition is_failed (l : DialLog) : Prop :=
  match l with LogFailed _ _ _ _ => True | _ => False end.
#[global] Instance is_failed_dec l : Decision (is_failed l).
Proof. destruct l; apply _. Defined.

Definition count_some {A} (o : option A) : nat := match o with Some _ => 1 | None => 0 end.

Section DialProps.
Context {Conn : Type} (reply : nat → ptr → Conn + error) (clock : nat → Z).

(** How many forwarders a call of [Dial] has tried, from its result. *)
Definition dial_attempts (r : DialResult (Conn := Conn)) : nat :=
  (length (filter is_failed (dr_log r)) + count_some (dr_conn r))%nat.

(** [m] candidates failed, and either the next one answered or the last error
    is returned. *)
Definition dial_outcome (cands : list ptr) (i m : nat) (ld : option ptr) (le : option error)
    (r : DialResult (Conn := Conn)) : Prop :=
  (m <= length cands)%nat ∧
  (∀ j f, (j < m)%nat → cands !! j = Some f → ∃ e, reply (i + j) f = inr e) ∧
  match dr_conn r with
  | Some c => ∃ f, cands !! m = Some f ∧ reply (i + m) f = inl c ∧
                   dr_dialer r = Some f ∧ dr_err r = None
  | None =>
      match m with
      | O => dr_dialer r = ld ∧ dr_err r = le
      | S m' => ∃ f e, cands !! m' = Some f ∧ reply (i + m') f = inr e ∧
                       dr_dialer r = Some f ∧ dr_err r = Some e
      end
  end.

(** The failure counters after [m] failed candidates. *)
Definition charged (cands : list ptr) (m : nat) (w w' : GW) : Prop :=
  ∀ f, f_failures (fwdr w' f) =
       if decide (f ∈ take m cands) then u32 (f_failures (fwdr w f) + 1)
       else f_failures (fwdr w f).

Lemma charged_0 cands w : charged cands 0 w w.
Proof. intros f. rewrite take_0, decide_False; [done|]. apply not_elem_of_nil. Qed.

Lemma charged_cons f cands m w w' :
  f ∉ cands → charged cands m (IncFailures f w) w' → charged (f :: cands) (S m) w w'.
Proof.
  intros Hf Hc g. rewrite (Hc g), !IncFailures_failures. simpl.
  assert (f ∉ take m cands) as Hf'.
  { intros Hin. apply Hf. by apply elem_of_take in Hin as (? & ?%list_elem_of_lookup_2 & _). }
  destruct (decide (f = g)) as [->|Hfg].
  - rewrite decide_False by done. rewrite decide_True by set_solver. done.
  - repeat case_decide; try done; set_solver.
Qed.

Lemma dial_loop_outcome cands i k start lastCost ld le log w r w' :
  NoDup cands →
  dial_loop reply clock cands i k start lastCost ld le log w = (r, w') →
  ∃ m, dial_outcome cands i m ld le r ∧ charged cands m w w' ∧
       dial_attempts r = (length (filter is_failed log) + m +
                          count_some (dr_conn r))%nat.
Proof.
  revert i k lastCost ld le log w. induction cands as [|f cands IH];
    intros i k lastCost ld le log w Hnd H; simpl in H.
  { simplify_eq. exists 0%nat. split; [|split; [apply charged_0|unfold dial_attempts; simpl; lia]].
    split; [simpl; lia|]. split; [intros; lia|done]. }
  apply NoDup_cons in Hnd as [Hf Hnd].
  destruct (_ && (_ <=? _)).
  { simplify_eq. exists 0%nat. split; [|split; [apply charged_0|]].
    - split; [lia|]. split; [intros; lia|done].
    - unfold dial_attempts. simpl. rewrite filter_app, length_app, filter_cons, filter_nil.
      simpl. lia. }
  unfold Forwarder_Dial in H. destruct (reply i f) as [c|e] eqn:Er.
  - injection H as <- <-. exists 0%nat. split; [|split; [apply charged_0|]].
    + split; [simpl; lia|]. split; [intros; lia|]. simpl. exists f. by rewrite Nat.add_0_r.
    + unfold dial_attempts. simpl.
      case_match; [|lia]. rewrite filter_app, length_app, filter_cons, filter_nil. simpl. lia.
  - destruct (IH _ _ _ _ _ _ _ Hnd H) as (m & (Hm & Hfail & Hend) & Hch & Hat).
    exists (S m). split; [|split].
    + split; [simpl; lia|]. split.
      * intros [|j] g Hj Hg; simpl in Hg; [simplify_eq; rewrite Nat.add_0_r; eauto|].
        rewrite Nat.add_succ_r. apply (Hfail j g); [lia|done].
      * rewrite Nat.add_succ_r. destruct (dr_conn r) as [c|]; [done|].
        destruct m as [|m'].
        -- destruct Hend as [-> ->]. exists f, e. by rewrite Nat.add_0_r.
        -- rewrite Nat.add_succ_r. done.
    + by apply charged_cons.
    + rewrite Hat, filter_app, length_app, filter_cons, filter_nil. simpl. lia.
Qed.

(** The gate before attempt [a >= 1]: when it was read, the time spent plus the
    cost of the previous attempt was below the budget.  With a budget, the
    clock is read at the start (0), and before (3a), at (3a+1) and after
    (3a+2) attempt [a]. *)
Definition admitted (budget : Z) (a : nat) : Prop :=
  clock (3 * a)%nat - clock 0%nat + (clock (3 * a - 1)%nat - clock (3 * a - 2)%nat) < budget.

Lemma dial_loop_budget cands i lastCost ld le log w r w' :
  (1 <= i)%nat → 0 < g_dialBudget (gw_group w) →
  lastCost = clock (3 * i - 1)%nat - clock (3 * i - 2)%nat →
  dial_loop reply clock cands i (3 * i) (clock 0%nat) lastCost ld le log w = (r, w') →
  ∀ a, (i <= a < i + (dial_attempts r - length (filter is_failed log)))%nat →
       admitted (g_dialBudget (gw_group w)) a.
Proof.
  intros Hi Hb Hc. revert i lastCost ld le log w Hi Hb Hc.
  induction cands as [|f cands IH]; intros i lastCost ld le log w Hi Hb Hc H a Ha;
    cbn [dial_loop] in H.
  { simplify_eq. unfold dial_attempts in Ha. simpl in Ha. lia. }
  rewrite (proj2 (Nat.ltb_lt 0 i)), (proj2 (Z.ltb_lt 0 _)) in H by lia.
  cbn [andb] in H.
  destruct (_ <=? _) eqn:Eg; bools.
  { simplify_eq. unfold dial_attempts in Ha. simpl in Ha.
    rewrite filter_app, length_app, filter_cons, filter_nil in Ha. simpl in Ha. lia. }
  assert (admitted (g_dialBudget (gw_group w)) i) as Hadm
    by (unfold admitted; subst lastCost; lia).
  unfold Forwarder_Dial in H. destruct (reply i f) as [c|e] eqn:Er.
  - injection H as <- <-. unfold dial_attempts in Ha. simpl in Ha.
    rewrite filter_app, length_app, filter_cons, filter_nil in Ha. simpl in Ha.
    by replace a with i by lia.
  - destruct (decide (a = i)) as [->|Hne]; [done|].
    rewrite <- (IncFailures_budget f w).
    replace (S (S (S (3 * i)))) with (3 * (S i))%nat in H by lia.
    eapply IH; [..|exact H|]; [lia|by rewrite IncFailures_budget| |].
    + f_equal; f_equal; lia.
    + rewrite filter_app, length_app, filter_cons, filter_nil. simpl. lia.
Qed.

(** The loop that returns no connection has gone through its candidates, or a gate was
    closed before the next one. *)
Lemma dial_loop_stops cands i k lastCost ld le log w r w' :
  (1 <= i)%nat →
  (0 < g_dialBudget (gw_group w) → k = (3 * i)%nat ∧ lastCost = clock (3 * i - 1)%nat - clock (3 * i - 2)%nat) →
  dial_loop reply clock cands i k (clock 0%nat) lastCost ld le log w = (r, w') → dr_conn r = None →
  ∃ m, dial_attempts r = (length (filter is_failed log) + m)%nat ∧
    (m = length cands ∨
     (m < length cands)%nat ∧ 0 < g_dialBudget (gw_group w) ∧ ¬ admitted (g_dialBudget (gw_group w)) (i + m)).
Proof.
  revert i k lastCost ld le log w. induction cands as [|f cands IH];
    intros i k lastCost ld le log w Hi Hk H Hc; cbn [dial_loop] in H.
  { simplify_eq. exists 0%nat. unfold dial_attempts. simpl. split; [lia|by left]. }
  rewrite (proj2 (Nat.ltb_lt 0 i)) in H by lia. cbn [andb] in H.
  destruct (0 <? g_dialBudget (gw_group w)) eqn:Eb; bools; cbn [andb] in H.
  - destruct (Hk Eb) as [-> ->]. destruct (_ <=? _) eqn:Eg; bools.
    + simplify_eq. exists 0%nat. unfold dial_attempts. simpl.
      rewrite filter_app, length_app, filter_cons, filter_nil. simpl. split; [lia|].
      right. split; [lia|]. split; [done|]. rewrite Nat.add_0_r. unfold admitted. lia.
    + unfold Forwarder_Dial in H. destruct (reply i f) as [c|e]; [by simplify_eq|].
      apply IH in H as (m & Hm & Hs); [|lia| |done].
      2:{ intros _. split; [lia|]. f_equal; f_equal; lia. }
      exists (S m). rewrite IncFailures_budget in Hs. replace (i + S m)%nat with (S i + m)%nat by lia. simpl length.
      rewrite Hm, filter_app, length_app, filter_cons, filter_nil. simpl.
      split; [lia|]. destruct Hs as [->|[? Hs]]; [by left|right; split; [lia|exact Hs]].
  - unfold Forwarder_Dial in H. destruct (reply i f) as [c|e]; [by simplify_eq|].
    apply IH in H as (m & Hm & Hs); [|lia| |done].
    2:{ rewrite IncFailures_budget. lia. }
    exists (S m). rewrite IncFailures_budget in Hs. simpl.
    rewrite Hm, filter_app, length_app, filter_cons, filter_nil. simpl.
    split; [lia|]. destruct Hs as [->|(_ & ? & _)]; [by left|lia].
Qed.

(** How a call of [Dial] that found [m] failing candidates was bounded: no retry was made
    at a closed gate, and without a connection it gave up only after the last candidate or
    at a closed gate. *)
Definition dial_bounded (budget : Z) (cands : list ptr) (m : nat) (r : DialResult (Conn := Conn)) : Prop :=
  (0 < budget → ∀ a, (1 <= a < dial_attempts r)%nat → admitted budget a) ∧
  (dr_conn r = None → m = length cands ∨ (1 <= m < length cands)%nat ∧ 0 < budget ∧ ¬ admitted budget m).

Lemma Dial_loop_bounded first cands w r w' :
  dial_loop reply clock (first :: cands) 0 1 (clock 0%nat) 0 None None [] w = (r, w') →
  dial_bounded (g_dialBudget (gw_group w)) (first :: cands) (length (filter is_failed (dr_log r))) r.
Proof.
  intros El. simpl in El. unfold Forwarder_Dial in El. destruct (reply 0%nat first) as [c|e] eqn:E0.
  { injection El as <- <-. split; [intros _ a Ha; unfold dial_attempts in Ha; simpl in Ha; lia|done]. }
  rewrite <- (IncFailures_budget first w). split.
  - intros Hb a Ha. eapply (dial_loop_budget cands 1); [lia|done| |exact El|]; [done|simpl; lia].
  - intros Hc. apply dial_loop_stops in El as (m & Hm & Hs); [|lia|done|done].
    unfold dial_attempts in Hm. rewrite Hc in Hm. simpl in Hm. rewrite Nat.add_0_r in Hm. rewrite Hm. simpl.
    destruct Hs as [->|[? Hs]]; [by left|]. right. split; [lia|exact Hs].
Qed.
End DialProps.

(** [Dial] on a group that can be dialed: what it tried and what it charged. *)
Lemma Dial_tried {Conn} (reply : nat → ptr → Conn + error) clock dst w :
  NoDup (cand_pool w) → indexable (cand_pool w) → 1 <= g_dialAttempts (gw_group w) →
  ∃ cands w1 r w' m,
    dialCandidates dst (g_dialAttempts (gw_group w)) w = (Ok cands, w1) ∧
    Dial reply clock dst w = (Ok r, w') ∧
    NoDup cands ∧ length cands = Nat.min (Z.to_nat (g_dialAttempts (gw_group w))) (length (cand_pool w)) ∧
    dial_outcome reply cands 0 m None None r ∧
    charged cands m w w' ∧
    dial_attempts r = (m + count_some (dr_conn r))%nat ∧
    (1 <= dial_attempts r <= Z.to_nat (g_dialAttempts (gw_group w)))%nat ∧
    dial_bounded clock (g_dialBudget (gw_group w)) cands m r.
Proof.
  intros Hnd Hix Hn.
  destruct (dialCandidates_distinct dst _ w Hnd Hix Hn)
    as (first & cands & w1 & Hnext & Hc & Hnd' & _ & Hlen).
  destruct (nextDialer_in dst w Hix) as (? & ? & Hnext' & _ & Hp).
  rewrite Hnext in Hnext'. injection Hnext' as <- <-.
  destruct (dial_loop reply clock (first :: cands) 0 1 (clock 0%nat) 0 None None [] w1)
    as [r w'] eqn:El.
  destruct (dial_loop_outcome reply clock _ _ _ _ _ _ _ _ _ _ _ Hnd' El)
    as (m & Hout & Hch & Hat). simpl in Hat.
  exists (first :: cands), w1, r, w', m. split; [done|].
  split; [unfold Dial; by rewrite Hc, El|]. split; [done|]. split; [done|]. split; [done|].
  destruct (picked_fwdr _ _ Hp) as [Hfw [Hbud _]].
  pose proof (Dial_loop_bounded reply clock _ _ _ _ _ El) as Hbd.
  replace (length (filter is_failed (dr_log r))) with m in Hbd by (unfold dial_attempts in Hat; lia).
  rewrite Hbud in Hbd.
  split; [intros f; rewrite (Hch f), Hfw; done|]. split; [done|].
  destruct Hout as (Hm & _ & Hend). simpl in El.
  assert (m ≠ 0%nat ∨ dr_conn r ≠ None) as Hone.
  { unfold Forwarder_Dial in El. destruct (reply 0%nat first) eqn:E0.
    - injection El as <- <-. by right.
    - destruct m; [|by left]. right. intros Hnone. rewrite Hnone in Hend.
      destruct Hend as [Hd _].
      pose proof (dial_loop_outcome reply clock _ _ _ _ _ _ _ _ _ _ _
        (NoDup_cons_1_2 _ _ Hnd') El) as (m' & (_ & _ & Hend') & _).
      rewrite Hnone in Hend'. destruct m' as [|m'].
      + destruct Hend' as [Hd' _]. congruence.
      + destruct Hend' as (? & ? & _ & _ & Hd' & _). congruence. }
  split; [|exact Hbd]. rewrite Hat. split.
  - destruct Hone as [|Hc']; [lia|]. destruct (dr_conn r); [simpl; lia|done].
  - destruct (dr_conn r) as [c|]; simpl; [|lia].
    destruct Hend as (f & Hf & _). apply lookup_lt_Some in Hf. lia.
Qed.

(** C2: one [Dial] tries its candidates (distinct, [dialAttempts] of them or the whole pool)
    in order and returns the connection of the first one that answers, with the forwarder
    that made it.  It gives up, with the last error, only when every candidate has failed
    or, after at least one failure, when the time spent plus the cost of the attempt before
    leaves no room in the dial budget; and no retry starts without that room.  Every failed
    attempt, and nothing else, adds one to the failure count of its own forwarder. *)
Theorem Dial_outcome {Conn} (reply : nat → ptr → Conn + error) clock dst w :
  NoDup (cand_pool w) → indexable (cand_pool w) → 1 <= g_dialAttempts (gw_group w) →
  ∃ cands w1 r w' m,
    dialCandidates dst (g_dialAttempts (gw_group w)) w = (Ok cands, w1) ∧
    Dial reply clock dst w = (Ok r, w') ∧
    NoDup cands ∧ length cands = Nat.min (Z.to_nat (g_dialAttempts (gw_group w))) (length (cand_pool w)) ∧
    dial_outcome reply cands 0 m None None r ∧
    charged cands m w w' ∧
    dial_attempts r = (m + count_some (dr_conn r))%nat ∧
    (1 <= dial_attempts r <= Z.to_nat (g_dialAttempts (gw_group w)))%nat ∧
    dial_bounded clock (g_dialBudget (gw_group w)) cands m r.
Proof. apply Dial_tried. Qed.
