(* ===== verification/GroupSched.v ===== *)
(** rule/group.go: what the schedulers choose, the latency average, and the
    health-check loop. *)
From S2P Require Import Prelude GoStd Forward Group GroupRotation GroupDial.

(** ** Round robin *)

(** The picks of [k] consecutive calls of [scheduleRR]. *)
Fixpoint rr_picks (k : nat) (w : GW) : list (outcome ptr) :=
  match k with
  | O => []
  | S k' => let '(r, w') := scheduleRR w in r :: rr_picks k' w'
  end.

Lemma scheduleRR_pick w :
  indexable (g_avail (gw_group w)) → 0 <= g_index (gw_group w) < 2 ^ 32 - 1 →
  ∃ f, g_avail (gw_group w) !! (Z.to_nat (g_index (gw_group w) + 1) mod
         length (g_avail (gw_group w)))%nat = Some f ∧
       scheduleRR w = (Ok f, upd_group (set_index (g_index (gw_group w) + 1)) w).
Proof.
  intros [Hl Hm] Hi. unfold scheduleRR, next_index. rewrite !u32_small by lia.
  rewrite (proj2 (Z.eqb_neq _ 0)) by lia. unfold index_ptr.
  set (n := length (g_avail (gw_group w))) in *.
  pose proof (Z.mod_pos_bound (g_index (gw_group w) + 1) (Z.of_nat n) ltac:(lia)).
  rewrite (proj2 (Z.ltb_ge _ 0)) by lia.
  assert (Z.to_nat ((g_index (gw_group w) + 1) mod Z.of_nat n) =
    (Z.to_nat (g_index (gw_group w) + 1) mod n)%nat) as ->.
  { rewrite Z2Nat.inj_mod by lia. by rewrite Nat2Z.id. }
  destruct (lookup_lt_is_Some_2 (g_avail (gw_group w))
    (Z.to_nat (g_index (gw_group w) + 1) mod n)) as [f Hf].
  { apply Nat.mod_upper_bound. lia. }
  exists f. by rewrite Hf.
Qed.

Lemma rr_picks_visits k w :
  indexable (g_avail (gw_group w)) → 0 <= g_index (gw_group w) →
  g_index (gw_group w) + Z.of_nat k < 2 ^ 32 →
  rr_picks k w = map Ok (visits (g_avail (gw_group w))
                           (Z.to_nat (g_index (gw_group w) + 1)) 0 k).
Proof.
  revert w. induction k as [|k IH]; intros w Hix Hi Hk; [done|].
  destruct (scheduleRR_pick w Hix ltac:(lia)) as (f & Hf & Hs).
  simpl. rewrite Hs. rewrite IH; simpl; [|done|lia..].
  rewrite visits_S, Nat.add_0_r, Hf. simpl. do 2 f_equal.
  rewrite <- visits_shift. f_equal. lia.
Qed.

Lemma visits_mod pool start i k :
  pool ≠ [] → visits pool start i k = visits pool (start mod length pool) i k.
Proof.
  intros Hne. unfold visits. apply list_omap_ext. apply Forall2_same_length_lookup_2; [done|].
  intros j a b Ha Hb. rewrite Ha in Hb. injection Hb as <-. f_equal.
  by rewrite Nat.Div0.add_mod_idemp_l.
Qed.

(** Round robin is fair: as long as the 32-bit counter does not wrap, any
    [len(avail)] consecutive picks use every forwarder of the rotation exactly
    once. *)
Theorem scheduleRR_fair w :
  indexable (g_avail (gw_group w)) → 0 <= g_index (gw_group w) →
  g_index (gw_group w) + Z.of_nat (length (g_avail (gw_group w))) < 2 ^ 32 →
  ∃ l, rr_picks (length (g_avail (gw_group w))) w = map Ok l ∧ l ≡ₚ g_avail (gw_group w).
Proof.
  intros Hix Hi Hk. rewrite rr_picks_visits by done. eexists. split; [done|].
  assert (g_avail (gw_group w) ≠ []) as Hne by (intros E; destruct Hix; rewrite E in *; simpl in *; lia).
  rewrite visits_mod, visits_rotate by (done || (apply Nat.lt_le_incl, Nat.mod_upper_bound; by destruct (g_avail (gw_group w)))).
  apply rotate_from_perm.
Qed.

(** ** Latency based high availability *)

Lemma lha_scan_min w l lowest f :
  lowest = latency w f →
  let '(lo, g) := lha_scan w l (lowest, f) in
  lo = latency w g ∧ lo <= lowest ∧ (∀ x, x ∈ l → lo <= latency w x).
Proof.
  revert lowest f. induction l as [|x l IH]; intros lowest f Hl; simpl.
  { repeat split; [done|lia|]. intros x ?%not_elem_of_nil. done. }
  fold (lha_scan w l).
  destruct (latency w x <? lowest) eqn:E; bools.
  - specialize (IH (latency w x) x eq_refl).
    destruct (lha_scan w l _) as [lo g]. destruct IH as (H1 & H2 & H3).
    repeat split; [done|lia|]. intros y [->|Hy]%elem_of_cons; [lia|]. by apply H3.
  - specialize (IH lowest f Hl). destruct (lha_scan w l _) as [lo g].
    destruct IH as (H1 & H2 & H3). repeat split; [done|lia|].
    intros y [->|Hy]%elem_of_cons; [lia|]. by apply H3.
Qed.

(** [scheduleLHA] keeps the head of the rotation unless some forwarder beats
    its latency by more than the tolerance, and then picks one of the lowest
    latency of the rotation. *)
Theorem scheduleLHA_optimal w old rest :
  let tol := s_CheckTolerance (g_config (gw_group w)) * millisecond in
  g_avail (gw_group w) = old :: rest →
  0 <= tol < 2 ^ 62 → 0 <= latency w old < 2 ^ 62 →
  (scheduleLHA w = Ok old ∧
     ∀ f, f ∈ g_avail (gw_group w) → latency w old - tol <= latency w f) ∨
  (∃ f, scheduleLHA w = Ok f ∧ f ∈ g_avail (gw_group w) ∧
     latency w f < latency w old - tol ∧
     ∀ g, g ∈ g_avail (gw_group w) → latency w f <= latency w g).
Proof.
  intros tol Hav Htol Hold. unfold scheduleLHA. rewrite Hav. fold tol.
  pose proof (lha_scan_min w (old :: rest) (latency w old) old eq_refl) as Hmin.
  pose proof (lha_scan_in w (old :: rest) (latency w old) old) as Hin.
  destruct (lha_scan w (old :: rest) _) as [lo f]. simpl in Hin.
  destruct Hmin as (-> & _ & Hmin).
  rewrite (i64_small tol) by lia. rewrite i64_small by lia.
  destruct (latency w f <? latency w old - tol) eqn:E; bools.
  - right. exists f. repeat split; [set_solver|done|done].
  - left. split; [done|]. intros g Hg. specialize (Hmin g Hg). lia.
Qed.

(** ** The latency average *)

(** The moving average [setLatency] stores lies between the previous latency
    and the new sample, whatever the number of samples, as long as the sum does
    not overflow 64 bits; with one sample or no previous value it is the sample. *)
Theorem setLatency_between f elapsed w :
  let cnt := s_CheckLatencySamples (g_config (gw_group w)) in
  let old := latency w f in
  let new := latency (setLatency f elapsed w) f in
  0 <= elapsed → old * (cnt - 1) + elapsed < 2 ^ 63 →
  (1 < cnt ∧ 0 < old → Z.min old elapsed <= new <= Z.max old elapsed) ∧
  (~ (1 < cnt ∧ 0 < old) → new = elapsed).
Proof.
  intros cnt old new He Hov. unfold new, setLatency. fold cnt old.
  assert (∀ x, latency (SetLatency f x w) f = x) as ->.
  { intros x. unfold latency, SetLatency. by rewrite fwdr_updF, decide_True. }
  split.
  - intros [Hc Ho]. rewrite !(proj2 (Z.ltb_lt _ _)) by lia. simpl.
    rewrite i64_small by nia. rewrite Z.quot_div_nonneg by nia.
    split.
    + apply Z.div_le_lower_bound; [lia|]. destruct (Z.min_spec old elapsed) as [[? ->]|[? ->]]; nia.
    + apply Z.div_le_upper_bound; [lia|].
      destruct (Z.max_spec old elapsed) as [[? ->]|[? ->]]; nia.
  - intros Hn. destruct (1 <? cnt) eqn:E1, (0 <? old) eqn:E2; bools; simpl; try done. lia.
Qed.

(** ** The health-check loop *)

Lemma enabled_Enable f w g :
  f_disabled (fwdr w f) = 0 ∨ f_disabled (fwdr w f) = 1 →
  enabled (Enable f w) g = if decide (f = g) then true else enabled w g.
Proof.
  intros Hd. unfold enabled. change (fwdr (Enable f w) g) with (getF (Enable f w) g).
  rewrite getF_Enable. case_decide; [|done].
  change (getF w f) with (fwdr w f). unfold Enabled, isTrue.
  destruct (f_disabled (fwdr w f) =? 1) eqn:E; simpl; [done|]. bools.
  destruct Hd as [->| ?]; [done|congruence].
Qed.

Lemma enabled_Disable f w g :
  f_disabled (fwdr w f) = 0 ∨ f_disabled (fwdr w f) = 1 →
  enabled (Disable f w) g = if decide (f = g) then false else enabled w g.
Proof.
  intros Hd. unfold enabled. change (fwdr (Disable f w) g) with (getF (Disable f w) g).
  rewrite getF_Disable. case_decide; [|done].
  change (getF w f) with (fwdr w f). unfold Enabled, isTrue.
  destruct (f_disabled (fwdr w f) =? 0) eqn:E; simpl; [done|]. bools.
  destruct Hd as [?| ->]; [congruence|done].
Qed.

(** A flag word holds 0 or 1. *)
Definition flag01 (w : GW) (f : ptr) : Prop :=
  f_disabled (fwdr w f) = 0 ∨ f_disabled (fwdr w f) = 1.

(** One round of the health check that consults the checker leaves the
    forwarder enabled with a pause of one interval after a success; after a
    failure disabled, with a pause that grows by one interval up to sixteen; and
    after "not supported" enabled for good, with failure counting switched off. *)
Theorem check_iter_verdict f check wait w r w1 :
  0 <= wait <= 16 → check w = (r, w1) → flag01 w1 f →
  ~ (0 < wait ∧ prio w f < g_priority (gw_group w)) →
  ~ (enabled w f = true ∧ s_CheckDisabledOnly (g_config (gw_group w)) = true) →
  match check_iter f check wait w, r with
  | (res, wait', w'), inl elapsed =>
      res = CheckContinue ∧ wait' = 1 ∧ enabled w' f = true
  | (res, wait', w'), inr e =>
      if bool_decide (e = ErrNotSupported)
      then res = CheckBreak ∧ enabled w' f = true ∧ f_maxFailures (fwdr w' f) = 0
      else res = CheckContinue ∧ wait' = Z.min (wait + 1) 16 ∧ enabled w' f = false
  end.
Proof.
  intros Hw Hc Hfl Hg1 Hg2. unfold check_iter.
  destruct ((0 <? wait) && _) eqn:E1; [bools; tauto|].
  destruct (enabled w f && _) eqn:E2; [bools; tauto|].
  rewrite Hc. destruct r as [elapsed|e].
  - repeat split. rewrite enabled_Enable, decide_True; [done..|].
    unfold setLatency, SetLatency. rewrite fwdr_updF, decide_True by done. exact Hfl.
  - case_bool_decide.
    + assert (fwdr (SetMaxFailures f 0 w1) f = set_maxFailures 0 (fwdr w1 f)) as Hm.
      { unfold SetMaxFailures. by rewrite fwdr_updF, decide_True. }
      repeat split.
      * rewrite enabled_Enable, decide_True; [done..|]. by rewrite Hm.
      * change (f_maxFailures (getF (Enable f (SetMaxFailures f 0 w1)) f) = 0).
        rewrite getF_Enable, decide_True by done.
        change (getF (SetMaxFailures f 0 w1) f) with (fwdr (SetMaxFailures f 0 w1) f).
        rewrite Hm. by case_match.
    + repeat split; [|by rewrite enabled_Disable, decide_True].
      unfold u8. rewrite Z.mod_small by lia.
      destruct (16 <? wait + 1) eqn:E; bools; lia.
Qed.

(** With [checkdisabledonly] set, the check loop of a forwarder that is
    already enabled when it starts (as [warmCheck] leaves every healthy one)
    never pauses and never checks: until [stop] closes the channel, any number
    of iterations takes no time and changes nothing. *)
Theorem check_loop_spins f checks w :
  s_CheckDisabledOnly (g_config (gw_group w)) = true → enabled w f = true →
  g_done (gw_group w) ≠ Some true →
  check_loop f checks 0 0 w = (CheckContinue, 0, 0, w).
Proof.
  intros Hd He Hdone. induction checks as [|c checks IH]; simpl; [done|].
  rewrite bool_decide_false by done.
  unfold check_iter. rewrite He, Hd. simpl. unfold check_delay. by rewrite Z.mul_0_r.
Qed.

(** ** The synchronous check before a state is published *)

Lemma flag01_Enable f w g : flag01 w g → flag01 (Enable f w) g.
Proof.
  unfold flag01. change (fwdr (Enable f w) g) with (getF (Enable f w) g).
  rewrite getF_Enable. change (getF w) with (fwdr w). intros H.
  case_decide; [subst|done]. case_match; simpl; auto.
Qed.

Lemma flag01_updF f u w g :
  (∀ x, f_disabled (u x) = f_disabled x) → flag01 w g → flag01 (updF f u w) g.
Proof.
  unfold flag01. rewrite fwdr_updF. intros Hu H. case_decide; [subst; by rewrite Hu|done].
Qed.

Lemma tcp_check_disabled f r elapsed w g :
  enabled w f = false → flag01 w g →
  enabled (tcp_check f r elapsed w).2 g = enabled w g ∧ flag01 (tcp_check f r elapsed w).2 g.
Proof.
  intros Hdis Hfl. unfold tcp_check, Forwarder_Dial. destruct r as [|e]; simpl; [done|].
  unfold flag01, enabled. change (fwdr (IncFailures f w) g) with (getF (IncFailures f w) g).
  destruct (decide (f = g)) as [->|Hne]; [|by rewrite getF_IncFailures_other].
  rewrite getF_IncFailures. change (getF w g) with (fwdr w g).
  unfold enabled, Enabled, isTrue in Hdis.
  destruct (f_disabled (fwdr w g) =? 0) eqn:E; bools; [rewrite E in Hdis; done|].
  rewrite andb_false_r. done.
Qed.

(** [warmCheck] with the TCP checker, run on a freshly built group (every
    forwarder disabled), enables exactly the forwarders whose check succeeded,
    in whatever order the checks finish. *)
Theorem warmCheck_verdict (ans : ptr → unit + error) (cost : ptr → Z) order w :
  NoDup order → (∀ f, f ∈ order → enabled w f = false) → (∀ f, flag01 w f) →
  ∀ f, f ∈ order →
    (enabled (warmCheck (Some (λ f, tcp_check f (ans f) (cost f))) order w) f = true ↔
     ∃ u, ans f = inl u).
Proof.
  intros Hnd Hdis Hfl. unfold warmCheck.
  assert (∀ l v, NoDup l → (∀ f, f ∈ l → enabled v f = false) → (∀ f, flag01 v f) →
    ∀ f, enabled (foldl (warm_one (λ f, tcp_check f (ans f) (cost f))) v l) f = true ↔
         enabled v f = true ∨ (f ∈ l ∧ ∃ u, ans f = inl u)) as Hgen.
  2:{ intros f Hf. rewrite Hgen, Hdis by auto. naive_solver. }
  clear. induction l as [|g l IH]; intros v Hnd Hdis Hfl f; simpl; [set_solver|].
  apply NoDup_cons in Hnd as [Hg Hnd].
  assert (∀ x, enabled (warm_one (λ f, tcp_check f (ans f) (cost f)) v g) x =
    (enabled v x || (bool_decide (x = g) && match ans g with inl _ => true | inr _ => false end))
    ∧ flag01 (warm_one (λ f, tcp_check f (ans f) (cost f)) v g) x) as Hone.
  { intros x. unfold warm_one. pose proof (tcp_check_disabled g (ans g) (cost g) v) as Ht.
    unfold tcp_check, Forwarder_Dial in *. destruct (ans g) as [u|e]; simpl in *.
    - assert (∀ y, flag01 (setLatency g (cost g) v) y) as Hfl'
        by (intros y; by apply flag01_updF).
      split; [|apply flag01_Enable, Hfl'].
      rewrite enabled_Enable by apply Hfl'. case_decide as Hgx; subst.
      + rewrite bool_decide_true by done. by rewrite orb_true_r.
      + rewrite bool_decide_false by done. rewrite orb_false_r.
        unfold enabled, setLatency, SetLatency. by rewrite fwdr_updF, decide_False.
    - rewrite andb_false_r, orb_false_r. apply Ht; [apply Hdis; by left|apply Hfl]. }
  rewrite IH; [|done| |intros x; apply Hone].
  - rewrite (proj1 (Hone f)), orb_true_iff, andb_true_iff, bool_decide_eq_true, elem_of_cons.
    destruct (decide (f = g)) as [->|]; [|naive_solver].
    destruct (ans g) as [[]|e]; naive_solver.
  - intros x Hx. rewrite (proj1 (Hone x)), (Hdis x) by (by right).
    rewrite bool_decide_false; [done|]. by intros ->.
Qed.
