(* ===== verification/GroupInv.v ===== *)
(** rule/group.go: the invariant of a group between operations, and that every
    operation keeps it. *)
From S2P Require Import Prelude GoStd Forward Group GroupRotation GroupDial GroupSched.

(** Between operations no handler is pending, the rotation is exact
    ([rotation_quiescent_spec]), every forwarder reports its status changes to
    the group, and the group can be dialed: it has forwarders and at least one
    attempt. *)
Record group_ok (w : GW) : Prop := {
  ok_rot : rinv (w, []);
  ok_handlers : ∀ f, f ∈ g_fwdrs (gw_group w) → handlers (fwdr w f) ≠ [];
  ok_fwdrs : indexable (g_fwdrs (gw_group w));
  ok_attempts : 1 <= g_dialAttempts (gw_group w);
}.

Lemma group_ok_pool w : group_ok w → NoDup (cand_pool w) ∧ indexable (cand_pool w) ∧
  cand_pool w ⊆ g_fwdrs (gw_group w).
Proof.
  intros [(Hsh & Hro & _) _ Hix _]. simpl in *. unfold cand_pool.
  case_bool_decide as Hnil; [split; [apply Hsh|done]|].
  split; [apply Hro|]. split; [|apply Hro].
  assert (length (g_avail (gw_group w)) <= length (g_fwdrs (gw_group w)))%nat as Hle.
  { apply submseteq_length, NoDup_submseteq; [apply Hro|]. apply Hro. }
  destruct Hix as [Hpos Hlt]. split; [|lia].
  destruct (g_avail (gw_group w)); [done|simpl; lia].
Qed.

(** The parts of the invariant the rotation does not own. *)
Lemma group_ok_ext w w' :
  group_ok w → rinv (w', []) →
  g_fwdrs (gw_group w') = g_fwdrs (gw_group w) →
  g_dialAttempts (gw_group w') = g_dialAttempts (gw_group w) →
  (∀ f, handlers (fwdr w' f) = handlers (fwdr w f)) →
  group_ok w'.
Proof.
  intros [_ Hh Hx Ha] Hr Ef Ea Eh. split; rewrite ?Ef, ?Ea; [done| |done|done].
  intros f Hf. rewrite Eh. by apply Hh.
Qed.

Lemma rinv_weaken w f :
  rinv (w, []) → f ∈ g_fwdrs (gw_group w) → rinv (w, [f]).
Proof.
  intros (Hsh & Hro & _) Hf. split; [done|]. split.
  - apply (rotation_ext w w []); [done..|set_solver|done].
  - intros g. set_solver.
Qed.

(** What a handler call keeps. *)
Definition kept (w w' : GW) : Prop :=
  g_fwdrs (gw_group w') = g_fwdrs (gw_group w) ∧
  g_dialAttempts (gw_group w') = g_dialAttempts (gw_group w).

Lemma kept_onStatusChanged f w : kept w (onStatusChanged f w).
Proof.
  split; [apply onStatusChanged_fwdrs|].
  unfold onStatusChanged, init. by repeat case_match.
Qed.

Lemma kept_trans w1 w2 w3 : kept w1 w2 → kept w2 w3 → kept w1 w3.
Proof. intros [] []. split; congruence. Qed.

Lemma rinv_handler f w : rinv (w, [f]) → rinv (onStatusChanged f w, []).
Proof. intros H. by apply (rinv_step (w, [f])); [apply rs_handle|]. Qed.

Lemma rinv_more_handlers f (l : list StatusHandler) w :
  rinv (w, []) → f ∈ g_fwdrs (gw_group w) →
  let w' := foldl (λ w h, notify h f w) w l in rinv (w', []) ∧ kept w w'.
Proof.
  revert w. induction l as [|[] l IH]; intros w Hr Hf; [done|]. simpl in *.
  pose proof (kept_onStatusChanged f w) as Hk.
  destruct (IH (onStatusChanged f w)) as [Hr' Hk'].
  - apply rinv_handler. by apply rinv_weaken.
  - destruct Hk as [-> _]. done.
  - split; [done|]. by eapply kept_trans.
Qed.

(** Handlers run one after the other; the first one settles the flip. *)
Lemma rinv_run_handlers f w :
  rinv (w, [f]) → f ∈ g_fwdrs (gw_group w) → handlers (fwdr w f) ≠ [] →
  rinv (run_handlers f w, []) ∧ kept w (run_handlers f w).
Proof.
  intros Hr Hf Hne. unfold run_handlers.
  change (handlers (getF w f)) with (handlers (fwdr w f)).
  destruct (handlers (fwdr w f)) as [|[] l]; [done|]. simpl.
  pose proof (kept_onStatusChanged f w) as Hk.
  destruct (rinv_more_handlers f l (onStatusChanged f w)) as [Hr' Hk'].
  - by apply rinv_handler.
  - destruct Hk as [-> _]. done.
  - split; [done|]. by eapply kept_trans.
Qed.

Lemma fwdr_run_handlers f w g : fwdr (run_handlers f w) g = fwdr w g.
Proof. exact (getF_run_handlers f w g). Qed.

(** ** Each operation *)

Lemma group_ok_updF f u w :
  (∀ x, f_disabled (u x) = f_disabled x ∧ f_priority (u x) = f_priority x ∧
        handlers (u x) = handlers x) →
  group_ok w → group_ok (updF f u w).
Proof.
  intros Hu Hok. apply (group_ok_ext w); [done| |done|done|].
  - apply rinv_updF; [|apply Hok]. intros x. by destruct (Hu x) as (? & ? & ?).
  - intros g. rewrite fwdr_updF. case_decide; [subst; apply Hu|done].
Qed.

(** A successful flip followed by its handlers. *)
Lemma group_ok_flip f d w :
  f ∈ g_fwdrs (gw_group w) → d = 0 ∨ d = 1 → group_ok w →
  group_ok (run_handlers f (updF f (set_disabled d) w)).
Proof.
  intros Hf Hd Hok. set (w1 := updF f (set_disabled d) w).
  assert (∀ g, handlers (fwdr w1 g) = handlers (fwdr w g)) as Hh.
  { intros g. unfold w1. rewrite fwdr_updF. case_decide; by subst. }
  destruct (rinv_run_handlers f w1) as [Hr [Ef Ea]].
  - apply rinv_flip; [done|done|apply Hok].
  - done.
  - rewrite Hh. by apply Hok.
  - apply (group_ok_ext w); [done|done|by rewrite Ef|by rewrite Ea|].
    intros g. rewrite fwdr_run_handlers. apply Hh.
Qed.

Lemma group_ok_Enable f w : f ∈ g_fwdrs (gw_group w) → group_ok w → group_ok (Enable f w).
Proof.
  intros Hf Hok. unfold Enable, cas_disabled.
  destruct (_ =? 1); apply group_ok_updF; try done.
  apply group_ok_flip; auto.
Qed.

Lemma group_ok_Disable f w : f ∈ g_fwdrs (gw_group w) → group_ok w → group_ok (Disable f w).
Proof.
  intros Hf Hok. unfold Disable, cas_disabled. destruct (_ =? 0); [|done].
  apply group_ok_flip; auto.
Qed.

Lemma group_ok_IncFailures f w :
  f ∈ g_fwdrs (gw_group w) → group_ok w → group_ok (IncFailures f w).
Proof.
  intros Hf Hok. unfold IncFailures.
  destruct (_ =? 0); [by apply group_ok_updF|].
  destruct (_ && _); [|by apply group_ok_updF].
  apply group_ok_Disable; [done|]. by apply group_ok_updF.
Qed.

Lemma group_ok_upd_group u w :
  (∀ g, g_fwdrs (u g) = g_fwdrs g ∧ g_avail (u g) = g_avail g ∧
        g_priority (u g) = g_priority g ∧ g_dialAttempts (u g) = g_dialAttempts g) →
  group_ok w → group_ok (upd_group u w).
Proof.
  intros Hu Hok. destruct (Hu (gw_group w)) as (Ef & Ea & Ep & Ed).
  apply (group_ok_ext w); [done| |done|done|done].
  destruct Hok as [(Hsh & Hro & _) _ _ _]. split; [|split].
  - apply shape_upd_group; [|done]. intros g. by destruct (Hu g).
  - by apply (rotation_ext w _ []).
  - intros ? ?%not_elem_of_nil. done.
Qed.

Lemma group_ok_picked w w' : picked w w' → group_ok w → group_ok w'.
Proof. intros [->| ->]; [done|]. by apply group_ok_upd_group. Qed.

Lemma group_ok_setLatency f l w : group_ok w → group_ok (setLatency f l w).
Proof. intros. unfold setLatency, SetLatency. by apply group_ok_updF. Qed.

Lemma kept_run_handlers f w : kept w (run_handlers f w).
Proof.
  unfold run_handlers. generalize (handlers (getF w f)). intros l. revert w.
  induction l as [|[] l IH]; intros w; [done|]. simpl.
  eapply kept_trans; [apply kept_onStatusChanged|apply IH].
Qed.

Lemma kept_Enable f w : kept w (Enable f w).
Proof. unfold Enable, cas_disabled. destruct (_ =? 1); [|done].
  exact (kept_run_handlers f (updF f (set_disabled 0) w)). Qed.

Lemma kept_Disable f w : kept w (Disable f w).
Proof. unfold Disable, cas_disabled. destruct (_ =? 0); [|done].
  exact (kept_run_handlers f (updF f (set_disabled 1) w)). Qed.

Lemma kept_IncFailures f w : kept w (IncFailures f w).
Proof.
  unfold IncFailures. destruct (_ =? 0); [done|]. destruct (_ && _); [|done].
  eapply kept_trans; [|apply kept_Disable]. done.
Qed.

Lemma group_ok_dial_loop {Conn} (reply : nat → ptr → Conn + error) clock
    cands i k start lastCost ld le log w r w' :
  cands ⊆ g_fwdrs (gw_group w) → group_ok w →
  dial_loop reply clock cands i k start lastCost ld le log w = (r, w') → group_ok w'.
Proof.
  revert i k lastCost ld le log w. induction cands as [|f cands IH];
    intros i k lastCost ld le log w Hsub Hok H; simpl in H; [by simplify_eq|].
  destruct (_ && (_ <=? _)); [by simplify_eq|].
  unfold Forwarder_Dial in H. destruct (reply i f); [by simplify_eq|].
  assert (f ∈ g_fwdrs (gw_group w)) as Hf by (apply Hsub; by left).
  eapply IH; [| |exact H].
  - destruct (kept_IncFailures f w) as [-> _]. set_solver.
  - by apply group_ok_IncFailures.
Qed.

Lemma group_ok_Dial {Conn} (reply : nat → ptr → Conn + error) clock dst w :
  group_ok w → ∃ r w', Dial reply clock dst w = (Ok r, w') ∧ group_ok w'.
Proof.
  intros Hok. destruct (group_ok_pool w Hok) as (Hnd & Hix & Hsub).
  destruct (dialCandidates_distinct dst (g_dialAttempts (gw_group w)) w)
    as (first & cands & w1 & Hnext & Hc & _ & Hin & _); [done|done|apply Hok|].
  destruct (nextDialer_in dst w Hix) as (? & ? & Hnext' & _ & Hp).
  rewrite Hnext in Hnext'. injection Hnext' as <- <-.
  unfold Dial. rewrite Hc.
  destruct (dial_loop reply clock (first :: cands) 0 1 (clock 0%nat) 0 None None [] w1)
    as [r w'] eqn:El.
  exists r, w'. split; [done|]. eapply group_ok_dial_loop; [|by eapply group_ok_picked|exact El].
  destruct Hp as [->| ->]; simpl; set_solver.
Qed.

(** The checkers dial through the forwarder and do nothing else to the group. *)
Lemma group_ok_tcp_check f r elapsed w :
  f ∈ g_fwdrs (gw_group w) → group_ok w →
  group_ok (tcp_check f r elapsed w).2 ∧ kept w (tcp_check f r elapsed w).2.
Proof.
  intros Hf Hok. unfold tcp_check, Forwarder_Dial. destruct r; simpl; [done|].
  split; [by apply group_ok_IncFailures|apply kept_IncFailures].
Qed.

Lemma group_ok_http_check f r steps elapsed timeout w :
  f ∈ g_fwdrs (gw_group w) → group_ok w →
  group_ok (http_check f r steps elapsed timeout w).2 ∧
  kept w (http_check f r steps elapsed timeout w).2.
Proof.
  intros Hf Hok. unfold http_check, Forwarder_Dial. destruct r; simpl; [done|].
  split; [by apply group_ok_IncFailures|apply kept_IncFailures].
Qed.

(** What a checker may do: keep the invariant and the list of forwarders. *)
Definition check_ok (f : ptr) (check : GW → (Z + error) * GW) : Prop :=
  ∀ w, f ∈ g_fwdrs (gw_group w) → group_ok w → group_ok (check w).2 ∧ kept w (check w).2.

Lemma group_ok_check_iter f check wait w :
  check_ok f check → f ∈ g_fwdrs (gw_group w) → group_ok w →
  group_ok (check_iter f check wait w).2.
Proof.
  intros Hc Hf Hok. unfold check_iter. case_match; [done|]. case_match; [done|].
  destruct (Hc w Hf Hok) as [Hok' [Ef _]]. destruct (check w) as [[elapsed|e] w1]; simpl in *.
  - apply group_ok_Enable; [by rewrite <- Ef in Hf|]. by apply group_ok_setLatency.
  - case_bool_decide; simpl.
    + apply group_ok_Enable; [by rewrite <- Ef in Hf|]. by apply group_ok_updF.
    + apply group_ok_Disable; [by rewrite Ef|done].
Qed.

Lemma group_ok_warm_one check w f :
  check_ok f (check f) → f ∈ g_fwdrs (gw_group w) → group_ok w →
  group_ok (warm_one check w f) ∧ kept w (warm_one check w f).
Proof.
  intros Hc Hf Hok. unfold warm_one. destruct (Hc w Hf Hok) as [Hok' Hk].
  destruct (check f w) as [[elapsed|e] w1]; simpl in *; [|done]. split.
  - apply group_ok_Enable; [destruct Hk as [Ef _]; by rewrite <- Ef in Hf|].
    by apply group_ok_setLatency.
  - eapply kept_trans; [exact Hk|]. eapply kept_trans; [|apply kept_Enable]. done.
Qed.

Lemma group_ok_warmCheck checker order w :
  (∀ check f, checker = Some check → check_ok f (check f)) →
  order ⊆ g_fwdrs (gw_group w) → group_ok w → group_ok (warmCheck checker order w).
Proof.
  intros Hc Hsub Hok. unfold warmCheck. destruct checker as [check|].
  - revert w Hsub Hok. induction order as [|f order IH]; intros w Hsub Hok; [done|]. simpl.
    destruct (group_ok_warm_one check w f) as [Hok' [Ef _]]; [by apply Hc|set_solver|done|].
    apply IH; [rewrite Ef; set_solver|done].
  - assert (∀ l v, l ⊆ g_fwdrs (gw_group v) → group_ok v →
      group_ok (foldl (λ w f, Enable f w) v l)) as H; [|by apply H].
    clear. induction l as [|f l IH]; intros v Hsub Hok; [done|]. simpl.
    destruct (kept_Enable f v) as [Ef _].
    apply IH; [rewrite Ef; set_solver|]. apply group_ok_Enable; [set_solver|done].
Qed.

(** ** A newly built group *)

Lemma ForwarderFromURL_flag ND cs s i d r f :
  ForwarderFromURL ND cs s i d r = Ok f → f_disabled f = 1.
Proof.
  unfold ForwarderFromURL. intros H.
  apply bind_Ok in H as (x & _ & H). apply bind_Ok in H as ([y z] & _ & H).
  by injection H as <-.
Qed.

Lemma build_forwarders_spec ND cs s c h fwdrs h' fwdrs' :
  build_forwarders ND cs s c h fwdrs = Ok (h', fwdrs') →
  fwdrs = seq 0 (length fwdrs) → (∀ f, f_disabled (h !!! f) = 0 ∨ f_disabled (h !!! f) = 1) →
  fwdrs' = seq 0 (length fwdrs + length s) ∧
  (∀ f, f_disabled (h' !!! f) = 0 ∨ f_disabled (h' !!! f) = 1).
Proof.
  revert h fwdrs. induction s as [|chain s IH]; intros h fwdrs H Hseq Hfl; simpl in H.
  { simplify_eq. simpl. by rewrite Nat.add_0_r. }
  apply bind_Ok in H as (f & Hf & H). apply ForwarderFromURL_flag in Hf.
  apply IH in H as [-> Hfl'].
  - split; [|done]. rewrite length_app. simpl. f_equal. lia.
  - rewrite length_app. simpl. rewrite Nat.add_1_r, seq_S. simpl. by f_equal.
  - intros g. rewrite lookup_total_alt, lookup_insert. case_decide; simpl; [by right|].
    apply Hfl.
Qed.

Lemma AddHandlers_spec l w :
  let w' := foldl (λ w f, AddHandler f OnStatusChanged w) w l in
  gw_group w' = gw_group w ∧
  (∀ f, (f ∈ l ∨ handlers (fwdr w f) ≠ []) → handlers (fwdr w' f) ≠ []).
Proof.
  revert w. induction l as [|g l IH]; intros w; simpl; [set_solver|].
  destruct (IH (AddHandler g OnStatusChanged w)) as [Hg Hh]. split; [by rewrite Hg|].
  intros f Hf. apply Hh.
  assert (handlers (fwdr (AddHandler g OnStatusChanged w) f) =
    if decide (g = f) then handlers (fwdr w g) ++ [OnStatusChanged] else handlers (fwdr w f)) as E.
  { unfold AddHandler. rewrite fwdr_updF. by case_decide. }
  rewrite E. destruct Hf as [[->|Hf]%elem_of_cons|Hf].
  - right. rewrite decide_True by done. by destruct (handlers (fwdr w g)).
  - by left.
  - right. case_decide; [subst; by destruct (handlers (fwdr w f))|done].
Qed.

Lemma group_ok_newFwdrGroup sort `{!PrioritySort sort} name fwdrs c h :
  NoDup fwdrs → indexable fwdrs →
  (∀ f, f_disabled (h !!! f) = 0 ∨ f_disabled (h !!! f) = 1) →
  group_ok (newFwdrGroup sort name fwdrs c h).
Proof.
  intros Hnd Hix Hfl. split; [by apply rinv_newFwdrGroup|..].
  all: unfold newFwdrGroup; match goal with |- context [foldl ?op ?v ?l] =>
    destruct (AddHandlers_spec l v) as [Hg Hh] end; simpl in Hg; rewrite Hg.
  all: match goal with |- context [init ?v] => set (w0 := v) in * end.
  - intros f Hf. apply Hh. left. simpl in Hf. by rewrite init_fwdrs in Hf.
  - simpl. rewrite init_fwdrs. simpl. unfold indexable.
    by rewrite (Permutation_length (sort_perm (PrioritySort := PrioritySort0) _ _)).
  - simpl. assert (g_dialAttempts (gw_group (init w0)) = g_dialAttempts (gw_group w0)) as ->.
    { unfold init. by repeat case_match. }
    simpl. lia.
Qed.

Lemma group_ok_NewFwdrGroup sort `{!PrioritySort sort} ND cs name s c w :
  Z.of_nat (length s) < 2 ^ 32 →
  NewFwdrGroup sort ND cs name s c = Ok w → group_ok w.
Proof.
  intros Hlen H. unfold NewFwdrGroup in H.
  apply bind_Ok in H as ([h fwdrs] & Hb & H).
  apply build_forwarders_spec in Hb as [Hf Hfl]; [|done|by left]. simpl in Hf.
  case_bool_decide as Hnil.
  - apply bind_Ok in H as (d & Hd & H). injection H as <-.
    unfold DirectForwarder in Hd. apply bind_Ok in Hd as (dd & _ & [= <-]).
    apply group_ok_newFwdrGroup; [done|apply NoDup_singleton|split; simpl; lia|].
    intros f. left. rewrite lookup_total_alt, lookup_singleton. case_decide; done.
  - injection H as <-. apply group_ok_newFwdrGroup; [done| | |done].
    + rewrite Hf. apply NoDup_seq.
    + split; rewrite Hf, length_seq; [|done]. destruct s; [by rewrite Hf in Hnil|simpl; lia].
Qed.

(** ** The life of a group *)

(** Everything the rest of the program does to a group. *)
Inductive gstep : GW → GW → Prop :=
| gs_dial {Conn} (reply : nat → ptr → Conn + error) clock dst w r w' :
    Dial reply clock dst w = (r, w') → gstep w w'
| gs_dial_udp {Conn} (reply : nat → ptr → Conn + error) dst w r w' :
    DialUDP reply dst w = (r, w') → gstep w w'
| gs_next dst w r w' : NextDialer dst w = (r, w') → gstep w w'
| gs_success f w : f ∈ g_fwdrs (gw_group w) → gstep w (Enable f w)
| gs_failure f w : f ∈ g_fwdrs (gw_group w) → gstep w (IncFailures f w)
| gs_check f check wait w :
    check_ok f check → f ∈ g_fwdrs (gw_group w) → gstep w (check_iter f check wait w).2
| gs_warm checker order w :
    (∀ check f, checker = Some check → check_ok f (check f)) →
    order ⊆ g_fwdrs (gw_group w) → gstep w (warmCheck checker order w)
| gs_start b w : gstep w (startCheckers b w)
| gs_stop w : gstep w (stop w).

Lemma group_ok_step w w' : gstep w w' → group_ok w → group_ok w'.
Proof.
  intros Hst Hok. destruct (group_ok_pool w Hok) as (_ & Hix & _).
  destruct Hst as [Conn reply clock dst w r w' H|Conn reply dst w r w' H|dst w r w' H|f w Hf|f w Hf
    |f check wait w Hc Hf|checker order w Hc Hs|b w|w].
  - destruct (group_ok_Dial reply clock dst w Hok) as (r' & w'' & HD & ?).
    rewrite HD in H. by simplify_eq.
  - destruct (nextDialer_in dst w Hix) as (? & ? & Hn & _ & Hp).
    unfold DialUDP in H. rewrite Hn in H. simplify_eq. by eapply group_ok_picked.
  - destruct (nextDialer_in dst w Hix) as (? & ? & Hn & _ & Hp).
    unfold NextDialer in H. rewrite Hn in H. simplify_eq. by eapply group_ok_picked.
  - by apply group_ok_Enable.
  - by apply group_ok_IncFailures.
  - by apply group_ok_check_iter.
  - by apply group_ok_warmCheck.
  - unfold startCheckers. destruct b; [by apply group_ok_upd_group|done].
  - unfold stop. case_match; [by apply group_ok_upd_group|done].
Qed.

Lemma group_ok_rtc w w' : rtc gstep w w' → group_ok w → group_ok w'.
Proof. induction 1; eauto using group_ok_step. Qed.

(** C7: through any sequence of dials, recorded results, health checks, warm
    checks and checker starts and stops, a group built by [NewFwdrGroup] keeps
    an exact rotation (the enabled forwarders of the highest enabled priority)
    and every [Dial] on it returns a result instead of panicking. *)
Theorem group_lifetime sort (Hs : PrioritySort sort) ND cs name urls c w0 w :
  Z.of_nat (length urls) < 2 ^ 32 →
  NewFwdrGroup sort ND cs name urls c = Ok w0 → rtc gstep w0 w →
  (∀ f, f ∈ g_avail (gw_group w) ↔ eligible w f) ∧
  ∀ Conn (reply : nat → ptr → Conn + error) clock dst,
    ∃ r w', Dial reply clock dst w = (Ok r, w').
Proof.
  intros Hlen HN Hr.
  pose proof (group_ok_rtc _ _ Hr (group_ok_NewFwdrGroup sort ND cs name urls c w0 Hlen HN)) as Hok.
  split; [apply rotation_quiescent_spec, Hok|].
  intros Conn reply clock dst. destruct (group_ok_Dial reply clock dst w Hok) as (r & w' & H & _).
  eauto.
Qed.
