(* ===== verification/DomainWalk.v ===== *)
(** The suffix walk over a domain name, as three functions of the program write
    it ([proxyState.findDialer] and [Proxy.AddDomainIP] in rule/proxy.go,
    [Client.UpStream] in dns/client.go):

      for i := len(s); i != -1; {
        i = strings.LastIndexByte(s[:i], '.')
        ... m[s[i+1:]] ...
      }

    and the sequence of keys it visits: the last label, the last two labels,
    and so on up to the whole name. *)
From S2P Require Import Prelude GoStd.

(** The suffixes of a list of labels, as text, longest first. *)
Fixpoint label_suffixes (ls : list (list byte)) : list (list byte) :=
  match ls with
  | [] => []
  | l :: ls' => join_bytes [c_dot] (l :: ls') :: label_suffixes ls'
  end.

(** The domain suffixes of a name at label boundaries, shortest first. *)
Definition dot_suffixes (s : list byte) : list (list byte) :=
  reverse (label_suffixes (split_byte c_dot s)).

(** The loop with a lookup that returns at the first hit; [i] is the loop
    variable, the [None] of the search is the final [i == -1]. *)
Fixpoint domain_lookup {A} (m : list byte → option A) (fuel : nat) (s : list byte) (i : nat)
    : option A :=
  match fuel with
  | O => None
  | S fuel' =>
      match last_index_byte (take i s) c_dot with
      | Some j => match m (drop (S j) s) with
                  | Some a => Some a
                  | None => domain_lookup m fuel' s j
                  end
      | None => m s
      end
  end.

(** The loop with a body that does not return: a fold over every key. *)
Fixpoint domain_fold {A} (f : A → list byte → A) (fuel : nat) (s : list byte) (i : nat) (a : A)
    : A :=
  match fuel with
  | O => a
  | S fuel' =>
      match last_index_byte (take i s) c_dot with
      | Some j => domain_fold f fuel' s j (f a (drop (S j) s))
      | None => f a s
      end
  end.

(** One round per dot and one for the whole name. *)
Definition walk_fuel (s : list byte) : nat := S (length s).

(** ** The keys *)

Lemma split_byte_snoc sep s1 s2 :
  sep ∉ s2 → split_byte sep (s1 ++ sep :: s2) = split_byte sep s1 ++ [s2].
Proof.
  intros H2. induction s1 as [|b s1 IH]; simpl.
  - rewrite decide_True by done. by rewrite split_byte_nosep.
  - case_decide; [by rewrite IH|]. rewrite IH.
    pose proof (split_byte_nonempty sep s1). by destruct (split_byte sep s1).
Qed.

Lemma join_bytes_snoc sep l ls x :
  join_bytes sep ((l :: ls) ++ [x]) = join_bytes sep (l :: ls) ++ sep ++ x.
Proof.
  revert l. induction ls as [|l' ls IH]; intros l; [done|].
  change (join_bytes sep ((l :: l' :: ls) ++ [x]))
    with (l ++ sep ++ join_bytes sep ((l' :: ls) ++ [x])).
  rewrite IH. change (join_bytes sep (l :: l' :: ls)) with (l ++ sep ++ join_bytes sep (l' :: ls)).
  by rewrite !(assoc (++)).
Qed.

Lemma label_suffixes_snoc ls x :
  label_suffixes (ls ++ [x]) = map (λ y, y ++ c_dot :: x) (label_suffixes ls) ++ [x].
Proof.
  induction ls as [|l ls IH]; [done|].
  change (label_suffixes ((l :: ls) ++ [x]))
    with (join_bytes [c_dot] ((l :: ls) ++ [x]) :: label_suffixes (ls ++ [x])).
  rewrite join_bytes_snoc, IH. done.
Qed.

Lemma dot_suffixes_snoc s1 s2 :
  c_dot ∉ s2 →
  dot_suffixes (s1 ++ c_dot :: s2) = s2 :: map (λ y, y ++ c_dot :: s2) (dot_suffixes s1).
Proof.
  intros H. unfold dot_suffixes. rewrite split_byte_snoc by done.
  rewrite label_suffixes_snoc, reverse_app. simpl. f_equal.
  by rewrite <- (fmap_reverse (λ y, y ++ c_dot :: s2)).
Qed.

Lemma dot_suffixes_nodot s : c_dot ∉ s → dot_suffixes s = [s].
Proof. intros H. unfold dot_suffixes. by rewrite split_byte_nosep. Qed.

(** Where the last dot of the scanned prefix is. *)
Lemma walk_split s i j :
  (i <= length s)%nat → last_index_byte (take i s) c_dot = Some j →
  take i s = take j s ++ c_dot :: drop (S j) (take i s) ∧
  (c_dot ∉ drop (S j) (take i s)) ∧ (j < i)%nat ∧
  drop (S j) s = drop (S j) (take i s) ++ drop i s.
Proof.
  intros Hi Hl. apply last_index_byte_Some in Hl as (Hj & Hn & Hlt).
  rewrite length_take in Hlt. split; [|split; [done|split; [lia|]]].
  - rewrite <- (take_drop_middle (take i s) j c_dot Hj) at 1.
    by rewrite take_take, Nat.min_l by lia.
  - rewrite <- (take_drop i s) at 1. rewrite drop_app_le; [done|]. rewrite length_take. lia.
Qed.

(** The keys of the walk from position [i]: the suffixes of the part before [i],
    each extended by the rest. *)
Lemma domain_fold_keys {A} (f : A → list byte → A) fuel s i a :
  (i <= length s)%nat → (i < fuel)%nat →
  domain_fold f fuel s i a =
  foldl f a (map (λ y, y ++ drop i s) (dot_suffixes (take i s))).
Proof.
  revert i a. induction fuel as [|fuel IH]; intros i a Hi Hf; [lia|]. simpl.
  destruct (last_index_byte (take i s) c_dot) as [j|] eqn:E.
  - destruct (walk_split s i j Hi E) as (Hs & Hn & Hj & Hd).
    rewrite IH by lia. rewrite Hs, dot_suffixes_snoc by done. simpl. rewrite <- Hd.
    f_equal. rewrite map_map. apply map_ext. intros y.
    rewrite <- (assoc (++)). simpl. f_equal.
    apply last_index_byte_Some in E as (Hj' & _ & _).
    rewrite lookup_take_lt in Hj' by done. rewrite (drop_S _ _ _ Hj'). f_equal. exact Hd.
  - apply last_index_byte_None in E. rewrite dot_suffixes_nodot by done. simpl.
    by rewrite take_drop.
Qed.

(** The lookup loop is the fold that keeps the first hit. *)
Definition first_hit {A} (m : list byte → option A) (acc : option A) (k : list byte) : option A :=
  match acc with Some a => Some a | None => m k end.

Lemma first_hit_Some {A} (m : list byte → option A) l a :
  foldl (first_hit m) (Some a) l = Some a.
Proof. induction l; done. Qed.

Lemma domain_lookup_keys {A} (m : list byte → option A) fuel s i :
  (i <= length s)%nat → (i < fuel)%nat →
  domain_lookup m fuel s i =
  foldl (first_hit m) None (map (λ y, y ++ drop i s) (dot_suffixes (take i s))).
Proof.
  intros Hi Hf. rewrite <- (domain_fold_keys (first_hit m) fuel) by done.
  revert i Hi Hf. induction fuel as [|fuel IH]; intros i Hi Hf; [lia|]. simpl.
  destruct (last_index_byte (take i s) c_dot) as [j|] eqn:E; [|done].
  destruct (walk_split s i j Hi E) as (_ & _ & Hj & _).
  destruct (m (drop (S j) s)) as [a|] eqn:Em.
  - rewrite domain_fold_keys, first_hit_Some by lia. done.
  - by apply IH; lia.
Qed.

(** The first hit in a list of keys. *)
Definition find_key {A} (m : list byte → option A) (ks : list (list byte)) : option A :=
  foldl (first_hit m) None ks.

Lemma find_key_Some {A} (m : list byte → option A) ks a :
  find_key m ks = Some a ↔
  ∃ n k, ks !! n = Some k ∧ m k = Some a ∧ ∀ n' k', (n' < n)%nat → ks !! n' = Some k' → m k' = None.
Proof.
  unfold find_key. induction ks as [|k ks IH]; simpl.
  { split; [done|]. intros (n & k & Hk & _). by rewrite lookup_nil in Hk. }
  destruct (m k) as [b|] eqn:Em.
  - rewrite first_hit_Some. split.
    + intros [= ->]. exists 0%nat, k. repeat split; [done|]. intros n' k' Hn. lia.
    + intros ([|n] & k0 & Hk & Hm & Hb); simpl in Hk; [congruence|].
      specialize (Hb 0%nat k ltac:(lia) eq_refl). congruence.
  - rewrite IH. split.
    + intros (n & k0 & Hk & Hm & Hb). exists (S n), k0. repeat split; [done|done|].
      intros [|n'] k' Hn Hk'; simpl in Hk'; [congruence|]. apply (Hb n'); [lia|done].
    + intros ([|n] & k0 & Hk & Hm & Hb); simpl in Hk; [congruence|].
      exists n, k0. repeat split; [done|done|]. intros n' k' Hn Hk'.
      apply (Hb (S n')); [lia|done].
Qed.

Lemma find_key_None {A} (m : list byte → option A) ks :
  find_key m ks = None ↔ ∀ k, k ∈ ks → m k = None.
Proof.
  unfold find_key. induction ks as [|k ks IH]; simpl; [set_solver|].
  destruct (m k) as [b|] eqn:Em.
  - rewrite first_hit_Some. split; [done|]. intros H. rewrite (H k) in Em; [done|by left].
  - rewrite IH. set_solver.
Qed.

(** The walk over a whole name. *)
Lemma domain_lookup_spec {A} (m : list byte → option A) s :
  domain_lookup m (walk_fuel s) s (length s) = find_key m (dot_suffixes s).
Proof.
  rewrite domain_lookup_keys by (unfold walk_fuel; lia).
  rewrite take_ge, drop_ge by lia. unfold find_key. f_equal.
  induction (dot_suffixes s); simpl; [done|]. by rewrite app_nil_r, IHl.
Qed.

Lemma domain_fold_spec {A} (f : A → list byte → A) s a :
  domain_fold f (walk_fuel s) s (length s) a = foldl f a (dot_suffixes s).
Proof.
  rewrite domain_fold_keys by (unfold walk_fuel; lia).
  rewrite take_ge, drop_ge by lia. f_equal.
  induction (dot_suffixes s); simpl; [done|]. by rewrite app_nil_r, IHl.
Qed.

Example dot_suffixes_ex :
  dot_suffixes (lit "www.example.com") = [lit "com"; lit "example.com"; lit "www.example.com"].
Proof. reflexivity. Qed.
