(* ===== verification/RuleProxy.v ===== *)
(** rule/proxy.go: the rule proxy: routing tables, dialer choice, hot reload.

    The groups of one generation of the configuration are referred to by
    pointer from the routing tables; a generation [proxyState] holds the store
    of its groups.  [sync.Map] is a finite map whose [Range] visits the entries
    in an unspecified order. *)
From S2P Require Import Prelude GoStd Forward Group GroupRotation GroupInv DomainWalk.

Definition gid := nat.

(** rule/config.go, [Config]. *)
Record Config := MkConfig {
  RulePath : list byte;
  c_Forward : list (list byte);
  c_Strategy : Strategy;
  DNSServers : list (list byte);
  IPSet : list byte;
  Domain : list (list byte);
  c_IP : list (list byte);
  c_CIDR : list (list byte);
}.

Record proxyState := MkState {
  ps_main : gid;
  ps_all : list gid;
  domainMap : gmap (list byte) gid;
  ipMap : gmap Addr gid;
  cidrMap : gmap Prefix gid;
  ps_groups : gmap gid GW;
}.

(** ** Building a generation *)

(** [fmt.Errorf("<prefix>%w", err)]. *)
Definition wrap_err {A} (prefix : list byte) (r : outcome A) : outcome A :=
  match r with
  | Err e => Err (String.string_of_list_byte prefix ++ e)%string
  | r => r
  end.

Lemma wrap_err_Ok {A} prefix (r : outcome A) a : wrap_err prefix r = Ok a ↔ r = Ok a.
Proof. by destruct r. Qed.

Section Build.
Context (sort : (ptr → Z) → list ptr → list ptr)
        (NewDirect : list byte → Z → Z → outcome Dialer)
        (dialerCreators : gmap (list byte) DialerCreator).

Definition store_domains (g : gid) (ds : list (list byte)) (m : gmap (list byte) gid) :=
  foldl (λ m d, <[to_lower d := g]> m) m ds.

(** Entries that do not parse are skipped with a log line. *)
Definition store_ips (g : gid) (ips : list (list byte)) (m : gmap Addr gid) :=
  foldl (λ m s, match ParseAddr s with Ok ip => <[ip := g]> m | _ => m end) m ips.

Definition store_cidrs (g : gid) (cs : list (list byte)) (m : gmap Prefix gid) :=
  foldl (λ m s, match ParsePrefix s with Ok p => <[p := g]> m | _ => m end) m cs.

(** The loop of [buildState] over the rule files. *)
Fixpoint build_rules (rules : list Config) (g : gid) (s : proxyState) : outcome proxyState :=
  match rules with
  | [] => Ok s
  | r :: rules' =>
      w ← wrap_err (lit "rule " ++ RulePath r ++ lit ": ")
            (NewFwdrGroup sort NewDirect dialerCreators (RulePath r) (c_Forward r) (c_Strategy r));
      build_rules rules' (S g)
        (MkState (ps_main s) (ps_all s ++ [g])
           (store_domains g (Domain r) (domainMap s))
           (store_ips g (c_IP r) (ipMap s))
           (store_cidrs g (c_CIDR r) (cidrMap s))
           (<[g := w]> (ps_groups s)))
  end.

(** The host names of the main forwarders' own servers are routed directly. *)
Definition store_upstreams (direct : gid) (main : GW) (m : gmap (list byte) gid) :=
  foldl (λ m f,
    let addr := default [] (head (split_byte c_comma (f_addr (fwdr main f)))) in
    let host := (SplitHostPort_ addr).1 in
    match ParseAddr host with
    | Ok _ => m
    | _ => <[to_lower host := direct]> m
    end) m (g_fwdrs (gw_group main)).

Definition buildState (mainForwarders : list (list byte)) (mainStrategy : Strategy)
    (rules : list Config) : outcome proxyState :=
  mainGroup ← wrap_err (lit "main forwarders: ")
    (NewFwdrGroup sort NewDirect dialerCreators (lit "main") mainForwarders mainStrategy);
  s ← build_rules rules 1%nat
        (MkState 0%nat [] ∅ ∅ ∅ {[ 0%nat := mainGroup ]});
  let d := S (length rules) in
  direct ← wrap_err (lit "direct forwarder: ")
    (NewFwdrGroup sort NewDirect dialerCreators [] [] mainStrategy);
  let dm := <[lit "direct" := d]> (domainMap s) in
  let dm := if bool_decide (mainForwarders = []) then dm
            else store_upstreams d mainGroup dm in
  Ok (MkState (ps_main s) (ps_all s) dm (ipMap s) (cidrMap s) (<[d := direct]> (ps_groups s))).
End Build.

(** ** Choosing a group *)

(** [cidrMap.Range]: the entries in the order the iteration happens to visit
    them, up to the first prefix containing the address. *)
Definition cidr_range (order : list (Prefix * gid)) (ip : Addr) : option gid :=
  snd <$> (snd <$> list_find (λ kv, Contains kv.1 ip = true) order).

(** [findDialer]; [order] is the iteration order of [cidrMap]. *)
Definition findDialer (order : list (Prefix * gid)) (s : proxyState) (dstAddr : list byte) : gid :=
  match SplitHostPort dstAddr with
  | Ok (host, _) =>
      let by_ip :=
        match ParseAddr host with
        | Ok ip =>
            match ipMap s !! ip with
            | Some g => Some g
            | None => cidr_range order ip
            end
        | _ => None
        end in
      match by_ip with
      | Some g => g
      | None =>
          let host := to_lower host in
          match domain_lookup (λ k, domainMap s !! k) (walk_fuel host) host (length host) with
          | Some g => g
          | None => ps_main s
          end
      end
  | _ => ps_main s
  end.

(** [AddDomainIP]: every suffix of the domain that has a rule stores its group
    for the address. *)
Definition AddDomainIP (domain : list byte) (ip : Addr) (s : proxyState) : proxyState :=
  let domain := to_lower domain in
  let ips := domain_fold
    (λ m k, match domainMap s !! k with Some g => <[ip := g]> m | None => m end)
    (walk_fuel domain) domain (length domain) (ipMap s) in
  MkState (ps_main s) (ps_all s) (domainMap s) ips (cidrMap s) (ps_groups s).

(** Running an operation of a group of the state. *)
Definition on_group {A} (g : gid) (op : GW → A * GW) (dflt : A) (s : proxyState)
    : A * proxyState :=
  match ps_groups s !! g with
  | Some w =>
      let '(a, w') := op w in
      (a, MkState (ps_main s) (ps_all s) (domainMap s) (ipMap s) (cidrMap s)
            (<[g := w']> (ps_groups s)))
  | None => (dflt, s)
  end.

Definition Proxy_Dial {Conn} (reply : nat → ptr → Conn + error) (clock : nat → Z)
    (order : list (Prefix * gid)) (addr : list byte) (s : proxyState) :=
  on_group (findDialer order s addr) (Dial reply clock addr) Panic s.

Definition Proxy_DialUDP {Conn} (reply : nat → ptr → Conn + error)
    (order : list (Prefix * gid)) (addr : list byte) (s : proxyState) :=
  on_group (findDialer order s addr) (DialUDP reply addr) Panic s.

Definition Proxy_NextDialer (order : list (Prefix * gid)) (dstAddr : list byte) (s : proxyState) :=
  on_group (findDialer order s dstAddr) (NextDialer dstAddr) Panic s.

(** [Record] on forwarder [f] of group [g]. *)
Definition Record_ (g : gid) (f : ptr) (success : bool) (s : proxyState) : proxyState :=
  (on_group g (λ w, ((), if success then Enable f w else IncFailures f w)) () s).2.

(** ** Reload *)

Definition map_groups (op : GW → GW) (s : proxyState) : proxyState :=
  let ids := ps_main s :: ps_all s in
  MkState (ps_main s) (ps_all s) (domainMap s) (ipMap s) (cidrMap s)
    (foldl (λ m g, match m !! g with Some w => <[g := op w]> m | None => m end)
       (ps_groups s) ids).

(** [proxyState.warmCheck], [startCheckers], [stopCheckers] on the main group and
    the rule groups; the checker and the completion order of each group's checks
    are arguments. *)
Definition state_warmCheck (checker : GW → option (ptr → GW → (Z + error) * GW))
    (order : GW → list ptr) (s : proxyState) : proxyState :=
  map_groups (λ w, warmCheck (checker w) (order w) w) s.
Definition state_startCheckers (has_checker : GW → bool) (s : proxyState) : proxyState :=
  map_groups (λ w, startCheckers (has_checker w) w) s.
Definition state_stopCheckers (s : proxyState) : proxyState := map_groups stop s.

(** The [Proxy]: the published generation, and the generations that were
    replaced, latest first (they live on until their connections end). *)
Record Proxy := MkProxy { p_state : option proxyState; p_retired : list proxyState }.

Section Reload.
Context (sort : (ptr → Z) → list ptr → list ptr)
        (NewDirect : list byte → Z → Z → outcome Dialer)
        (dialerCreators : gmap (list byte) DialerCreator)
        (checker : GW → option (ptr → GW → (Z + error) * GW))
        (order : GW → list ptr).

Definition has_checker (w : GW) : bool := match checker w with Some _ => true | None => false end.

Definition NewProxy (mainForwarders : list (list byte)) (mainStrategy : Strategy)
    (rules : list Config) : outcome Proxy :=
  state ← buildState sort NewDirect dialerCreators mainForwarders mainStrategy rules;
  let state := state_warmCheck checker order state in
  Ok (MkProxy (Some (state_startCheckers has_checker state)) []).

(** [Reload]: the returned error, if any, and the proxy after the call. *)
Definition Reload (mainForwarders : list (list byte)) (mainStrategy : Strategy)
    (rules : list Config) (p : Proxy) : outcome unit * Proxy :=
  match buildState sort NewDirect dialerCreators mainForwarders mainStrategy rules with
  | Ok state =>
      let state := state_warmCheck checker order state in
      let old := p_state p in
      let state := state_startCheckers has_checker state in
      (Ok (), MkProxy (Some state)
                (match old with
                 | Some o => state_stopCheckers o :: p_retired p
                 | None => p_retired p
                 end))
  | Err e => (Err e, p)
  | Panic => (Panic, p)
  | OutOfFuel => (OutOfFuel, p)
  end.
End Reload.

(** ** Routing tables name live groups *)

(** The group exists and satisfies its invariant. *)
Definition live (s : proxyState) (g : gid) : Prop :=
  ∃ w, ps_groups s !! g = Some w ∧ group_ok w.

Record state_ok (s : proxyState) : Prop := {
  so_main : live s (ps_main s);
  so_all : ∀ g, g ∈ ps_all s → live s g;
  so_domain : ∀ k g, domainMap s !! k = Some g → live s g;
  so_ip : ∀ k g, ipMap s !! k = Some g → live s g;
  so_cidr : ∀ k g, cidrMap s !! k = Some g → live s g;
}.

Lemma store_domains_lookup g ds m k x :
  store_domains g ds m !! k = Some x → x = g ∨ m !! k = Some x.
Proof.
  revert m. induction ds as [|d ds IH]; intros m H; [by right|]. simpl in H.
  apply IH in H as [->|H]; [by left|]. rewrite lookup_insert in H.
  case_decide; [left; congruence|by right].
Qed.

Lemma store_ips_lookup g ips m k x :
  store_ips g ips m !! k = Some x → x = g ∨ m !! k = Some x.
Proof.
  revert m. induction ips as [|d ds IH]; intros m H; [by right|]. simpl in H.
  apply IH in H as [->|H]; [by left|]. destruct (ParseAddr d); try (by right).
  rewrite lookup_insert in H. case_decide; [left; congruence|by right].
Qed.

Lemma store_cidrs_lookup g cs m k x :
  store_cidrs g cs m !! k = Some x → x = g ∨ m !! k = Some x.
Proof.
  revert m. induction cs as [|d ds IH]; intros m H; [by right|]. simpl in H.
  apply IH in H as [->|H]; [by left|]. destruct (ParsePrefix d); try (by right).
  rewrite lookup_insert in H. case_decide; [left; congruence|by right].
Qed.

Lemma store_upstreams_lookup d main m k x :
  store_upstreams d main m !! k = Some x → x = d ∨ m !! k = Some x.
Proof.
  unfold store_upstreams. generalize (g_fwdrs (gw_group main)). intros l. revert m.
  induction l as [|f l IH]; intros m H; [by right|]. simpl in H.
  apply IH in H as [->|H]; [by left|]. case_match; try (by right).
  all: rewrite lookup_insert in H; case_decide; [left; congruence|by right].
Qed.

(** A configuration whose groups an uint32 can index. *)
Definition config_ok (r : Config) : Prop := Z.of_nat (length (c_Forward r)) < 2 ^ 32.

Lemma live_insert s g g' w ma al dm im cm :
  group_ok w → live s g' ∨ g' = g →
  live (MkState ma al dm im cm (<[g := w]> (ps_groups s))) g'.
Proof.
  intros Hok Hl. unfold live. simpl. destruct (decide (g' = g)) as [->|Hne].
  - exists w. split; [apply lookup_insert_eq|done].
  - destruct Hl as [(w' & Hw & Hok')|?]; [|done]. exists w'.
    by rewrite lookup_insert_ne.
Qed.

Lemma build_rules_ok sort `{!PrioritySort sort} ND cs rules g s s' :
  Forall config_ok rules → build_rules sort ND cs rules g s = Ok s' → state_ok s → state_ok s'.
Proof.
  revert g s. induction rules as [|r rules IH]; intros g s Hc H Hs; simpl in H; [by simplify_eq|].
  apply Forall_cons_1 in Hc as [Hr Hc].
  apply bind_Ok in H as (w & Hw%wrap_err_Ok & H). eapply IH; [done|exact H|].
  apply group_ok_NewFwdrGroup in Hw; [|done|done].
  destruct Hs as [Hm Ha Hd Hi Hci].
  split; simpl; intros; apply live_insert; try done; auto.
  - rewrite elem_of_app, list_elem_of_singleton in *. naive_solver.
  - match goal with H : store_domains _ _ _ !! _ = _ |- _ => apply store_domains_lookup in H end.
    naive_solver.
  - match goal with H : store_ips _ _ _ !! _ = _ |- _ => apply store_ips_lookup in H end.
    naive_solver.
  - match goal with H : store_cidrs _ _ _ !! _ = _ |- _ => apply store_cidrs_lookup in H end.
    naive_solver.
Qed.

Lemma buildState_ok sort `{!PrioritySort sort} ND cs mf ms rules s :
  Z.of_nat (length mf) < 2 ^ 32 → Forall config_ok rules →
  buildState sort ND cs mf ms rules = Ok s → state_ok s.
Proof.
  intros Hmf Hc H. unfold buildState in H.
  apply bind_Ok in H as (w & Hw%wrap_err_Ok & H).
  apply group_ok_NewFwdrGroup in Hw; [|done|done].
  apply bind_Ok in H as (s1 & Hs1 & H). apply bind_Ok in H as (d & Hd%wrap_err_Ok & H).
  simplify_eq.
  apply group_ok_NewFwdrGroup in Hd; [|done|simpl; lia].
  apply build_rules_ok in Hs1; [|done|done|].
  - destruct Hs1 as [Hm Ha Hdm Hi Hci].
    split; simpl; intros; apply live_insert; try done; eauto.
    match goal with H : _ !! _ = _ |- _ => revert H end. case_bool_decide.
    + rewrite lookup_insert. case_decide; naive_solver.
    + intros [->|Hl]%store_upstreams_lookup; [by right|]. revert Hl.
      rewrite lookup_insert. case_decide; naive_solver.
  - assert (live (MkState 0%nat [] ∅ ∅ ∅ {[0%nat := w]}) 0%nat) as Hlive.
    { exists w. split; [|done]. simpl. apply lookup_singleton_eq. }
    split; simpl; intros; try done; set_solver.
Qed.

(** An iteration order of [cidrMap]. *)
Definition range_order (s : proxyState) (order : list (Prefix * gid)) : Prop :=
  order ≡ₚ map_to_list (cidrMap s).

Lemma cidr_range_Some order ip g :
  cidr_range order ip = Some g → ∃ p, (p, g) ∈ order ∧ Contains p ip = true.
Proof.
  unfold cidr_range. destruct (list_find _ order) as [[i [p g']]|] eqn:E; [|done].
  simpl. intros [= ->]. apply list_find_Some in E as (Hl & Hc & _).
  exists p. split; [by eapply list_elem_of_lookup_2|done].
Qed.

Lemma findDialer_live s order dst :
  state_ok s → range_order s order → live s (findDialer order s dst).
Proof.
  intros [Hm _ Hd Hi Hc] Ho. unfold findDialer.
  destruct (SplitHostPort dst) as [[host port]| | |]; [|done..].
  assert (∀ host', live s (match domain_lookup (λ k, domainMap s !! k) (walk_fuel host') host'
    (length host') with Some g => g | None => ps_main s end)) as Hdom.
  { intros host'. rewrite domain_lookup_spec.
    destruct (find_key _ _) as [g|] eqn:E; [|done].
    apply find_key_Some in E as (n & k & _ & Hk & _). by apply (Hd k). }
  destruct (ParseAddr host) as [ip| | |]; [|apply Hdom..].
  destruct (ipMap s !! ip) as [g|] eqn:Eip; [by apply (Hi ip)|].
  destruct (cidr_range order ip) as [g|] eqn:Ec; [|apply Hdom].
  apply cidr_range_Some in Ec as (p & Hin & _). rewrite Ho in Hin.
  apply elem_of_map_to_list in Hin. by apply (Hc p).
Qed.

Lemma state_ok_group s g w w' :
  state_ok s → ps_groups s !! g = Some w → group_ok w' →
  state_ok (MkState (ps_main s) (ps_all s) (domainMap s) (ipMap s) (cidrMap s)
              (<[g := w']> (ps_groups s))).
Proof.
  intros [Hm Ha Hd Hi Hc] Hg Hok.
  split; simpl; intros; (apply live_insert; [done|]); left; eauto.
Qed.

(** C8: on any generation [buildState] returns, every TCP dial of the proxy,
    whatever the destination text, the iteration order of the CIDR table, the
    dialers' answers and the clock, reaches a live group and returns a result
    (never a panic), and leaves every table entry pointing to a live group. *)
Theorem Proxy_Dial_total sort (Hs : PrioritySort sort) ND cs mf ms rules s
    {Conn} (reply : nat → ptr → Conn + error) clock order addr :
  Z.of_nat (length mf) < 2 ^ 32 → Forall config_ok rules →
  buildState sort ND cs mf ms rules = Ok s → range_order s order →
  ∃ r s', Proxy_Dial reply clock order addr s = (Ok r, s') ∧ state_ok s'.
Proof.
  intros Hmf Hc Hb Ho. pose proof (buildState_ok sort ND cs mf ms rules s Hmf Hc Hb) as Hok.
  destruct (findDialer_live s order addr Hok Ho) as (w & Hw & Hgok).
  unfold Proxy_Dial, on_group. rewrite Hw.
  destruct (group_ok_Dial reply clock addr w Hgok) as (r & w' & HD & Hok').
  rewrite HD. eexists _, _. split; [done|]. by eapply state_ok_group.
Qed.

(** ** Which rule applies *)

(** The group of the first of the keys that has a rule, or the main group. *)
Definition route_domain (s : proxyState) (keys : list (list byte)) : gid :=
  default (ps_main s) (find_key (λ k, domainMap s !! k) keys).

(** C23: a destination whose host is not an IP address goes to the rule of its
    shortest matching domain suffix (the top-level label is tried first), and
    to the main group when no suffix has a rule; case does not matter. *)
Theorem findDialer_domain order s dst host port e :
  SplitHostPort dst = Ok (host, port) → ParseAddr host = Err e →
  findDialer order s dst = route_domain s (dot_suffixes (to_lower host)).
Proof.
  intros Hsp Hpa. unfold findDialer, route_domain. rewrite Hsp, Hpa, domain_lookup_spec.
  by destruct (find_key _ _).
Qed.

(** A destination whose host is an IP address goes to the address's own
    rule if it has one, otherwise to some CIDR rule containing it if there is
    one, and only otherwise through the domain rules. *)
Theorem findDialer_ip order s dst host port ip :
  SplitHostPort dst = Ok (host, port) → ParseAddr host = Ok ip → range_order s order →
  match ipMap s !! ip with
  | Some g => findDialer order s dst = g
  | None =>
      (∃ p, cidrMap s !! p = Some (findDialer order s dst) ∧ Contains p ip = true) ∨
      ((∀ p g, cidrMap s !! p = Some g → Contains p ip = false) ∧
       findDialer order s dst = route_domain s (dot_suffixes (to_lower host)))
  end.
Proof.
  intros Hsp Hpa Ho. unfold findDialer. rewrite Hsp, Hpa.
  destruct (ipMap s !! ip) as [g|]; [done|].
  destruct (cidr_range order ip) as [g|] eqn:Ec.
  - left. apply cidr_range_Some in Ec as (p & Hin & Hp). exists p. split; [|done].
    rewrite Ho in Hin. by apply elem_of_map_to_list.
  - right. split.
    + intros p g Hp. unfold cidr_range in Ec.
      destruct (list_find _ order) as [[i x]|] eqn:El; [done|].
      apply list_find_None in El. rewrite Forall_forall in El.
      destruct (Contains p ip) eqn:Ect; [|done]. exfalso. apply (El (p, g)); [|done].
      rewrite Ho. by apply elem_of_map_to_list.
    + unfold route_domain. rewrite domain_lookup_spec. by destruct (find_key _ _).
Qed.

(** ** Resolved addresses *)

(** The fold of [AddDomainIP] keeps the last key that has a rule. *)
Lemma AddDomainIP_fold (dm : gmap (list byte) gid) (ip : Addr) keys (m : gmap Addr gid) :
  foldl (λ m k, match dm !! k with Some g => <[ip := g]> m | None => m end) m keys !! ip =
  match find_key (λ k, dm !! k) (reverse keys) with Some g => Some g | None => m !! ip end.
Proof.
  revert m. induction keys as [|k keys IH] using rev_ind; intros m; [done|].
  rewrite foldl_app. simpl. rewrite reverse_app. simpl.
  unfold find_key. simpl. destruct (dm !! k) as [g|].
  - by rewrite lookup_insert_eq, first_hit_Some.
  - apply IH.
Qed.

Lemma AddDomainIP_ip domain ip s :
  ipMap (AddDomainIP domain ip s) !! ip =
  match find_key (λ k, domainMap s !! k) (reverse (dot_suffixes (to_lower domain))) with
  | Some g => Some g
  | None => ipMap s !! ip
  end.
Proof. unfold AddDomainIP. cbn [ipMap]. by rewrite domain_fold_spec, AddDomainIP_fold. Qed.

(** After [AddDomainIP], dialing the resolved address goes to the rule of
    the longest matching suffix of the domain, when the domain has a rule. *)
Theorem AddDomainIP_route order s domain ip dst host port g :
  SplitHostPort dst = Ok (host, port) → ParseAddr host = Ok ip →
  find_key (λ k, domainMap s !! k) (reverse (dot_suffixes (to_lower domain))) = Some g →
  findDialer order (AddDomainIP domain ip s) dst = g.
Proof.
  intros Hsp Hpa Hf. unfold findDialer. by rewrite Hsp, Hpa, AddDomainIP_ip, Hf.
Qed.

(** A domain and its resolved address can be routed to different groups:
    with rules for a suffix and for a longer one, [findDialer] on the name takes
    the shorter, [AddDomainIP] gives the address the longer. *)
Theorem domain_and_ip_disagree :
  ∃ s domain ip,
    let s' := AddDomainIP domain ip s in
    findDialer [] s' (domain ++ lit ":443") = 1%nat ∧
    findDialer [] s' (lit "192.0.2.7:443") = 2%nat ∧
    domainMap s = <[lit "com" := 1%nat]> {[ lit "example.com" := 2%nat ]}.
Proof.
  exists (MkState 0%nat [1%nat; 2%nat]
           (<[lit "com" := 1%nat]> {[ lit "example.com" := 2%nat ]}) ∅ ∅ ∅),
    (lit "www.example.com"), (Addr4 [xc0; x00; x02; x07]).
  split; [vm_compute; reflexivity|]. split; [vm_compute; reflexivity|reflexivity].
Qed.
