(* ===== verification/Status.v ===== *)
(** rule/status.go: the availability report of a group and of the proxy. *)
From S2P Require Import Prelude GoStd Forward Group GroupRotation GroupInv RuleProxy.

Record ForwarderStatus := MkForwarderStatus {
  fs_Addr : list byte;
  fs_Enabled : bool;
  fs_Priority : Z;
  fs_Failures : Z;
  fs_LatencyMs : Z;
}.

Record GroupStatus := MkGroupStatus {
  gst_Group : list byte;
  gst_Enabled : nat;
  gst_Total : nat;
  gst_Forwarders : list ForwarderStatus;
}.

(** [Duration.Milliseconds] truncates toward zero. *)
Definition forwarder_status (f : Forwarder) : ForwarderStatus :=
  MkForwarderStatus (f_addr f) (Enabled f) (f_priority f) (f_failures f)
    (Z.quot (f_latency f) millisecond).

(** [FwdrGroup.Status]. *)
Definition group_Status (w : GW) : GroupStatus :=
  MkGroupStatus (g_name (gw_group w)) (length (g_avail (gw_group w)))
    (length (g_fwdrs (gw_group w)))
    ((λ f, forwarder_status (fwdr w f)) <$> g_fwdrs (gw_group w)).

(** [Proxy.Status]: the main group, then the rule groups. *)
Definition Proxy_Status (p : Proxy) : list GroupStatus :=
  match p_state p with
  | None => []
  | Some s => omap (λ g, group_Status <$> ps_groups s !! g) (ps_main s :: ps_all s)
  end.

Definition forwarder_up (top : Z) (f : ForwarderStatus) : Prop :=
  fs_Enabled f = true ∧ top <= fs_Priority f.
#[global] Instance forwarder_up_dec top f : Decision (forwarder_up top f).
Proof. unfold forwarder_up. apply _. Defined.

(** The priority the rotation serves, as the report shows it: the highest of the
    enabled forwarders. *)
Definition top_priority (st : GroupStatus) : Z :=
  foldr (λ f m, if fs_Enabled f then Z.max (fs_Priority f) m else m) 0 (gst_Forwarders st).

Lemma top_priority_spec (w : GW) l f :
  foldr (λ f m, if fs_Enabled f then Z.max (fs_Priority f) m else m) 0
    ((λ f, forwarder_status (fwdr w f)) <$> l) <= prio w f →
  ∀ g, g ∈ l → enabled w g = true → prio w g <= prio w f.
Proof.
  induction l as [|x l IH]; csimpl; intros Hle g Hg He; [by apply not_elem_of_nil in Hg|].
  apply elem_of_cons in Hg as [->|Hg].
  - change (Enabled (fwdr w x)) with (enabled w x) in Hle. rewrite He in Hle.
    unfold prio at 1. lia.
  - apply IH; [|done..]. case_match; lia.
Qed.

Lemma top_priority_le (w : GW) l f :
  0 <= prio w f →
  (∀ g, g ∈ l → enabled w g = true → prio w g <= prio w f) →
  foldr (λ f m, if fs_Enabled f then Z.max (fs_Priority f) m else m) 0
    ((λ f, forwarder_status (fwdr w f)) <$> l) <= prio w f.
Proof.
  intros H0. induction l as [|x l IH]; csimpl; intros Hm; [done|].
  assert (foldr (λ f m, if fs_Enabled f then Z.max (fs_Priority f) m else m) 0
    ((λ f, forwarder_status (fwdr w f)) <$> l) <= prio w f) by (apply IH; set_solver).
  destruct (Enabled (fwdr w x)) eqn:E; [|done].
  pose proof (Hm x ltac:(by left) E). unfold prio in *. lia.
Qed.

Lemma length_filter_fmap {A B} (P : B → Prop) `{!∀ b, Decision (P b)} (f : A → B) l :
  length (filter P (f <$> l)) = length (filter (λ a, P (f a)) l).
Proof.
  induction l as [|x l IH]; csimpl; [done|]. rewrite !filter_cons.
  case_decide; simpl; by rewrite IH.
Qed.

(** The [enabled] figure of a group's report is the number of listed
    forwarders that are up at the highest priority any listed forwarder that is up
    has, and it never exceeds [total]. *)
Theorem Status_counts w :
  group_ok w → (∀ f, f ∈ g_fwdrs (gw_group w) → 0 <= prio w f) →
  let st := group_Status w in
  gst_Enabled st = length (filter (forwarder_up (top_priority st)) (gst_Forwarders st)) ∧
  (gst_Enabled st <= gst_Total st)%nat ∧ gst_Total st = length (gst_Forwarders st).
Proof.
  intros Hok H0 st. subst st.
  assert (g_avail (gw_group w) ≡ₚ
    filter (λ f, forwarder_up (top_priority (group_Status w)) (forwarder_status (fwdr w f)))
      (g_fwdrs (gw_group w))) as Hp.
  { pose proof (rotation_quiescent_spec w (ok_rot w Hok)) as Hel.
    destruct (ok_rot w Hok) as (Hsh & Hro & _). simpl in *.
    apply NoDup_Permutation; [apply Hro|apply NoDup_filter, Hsh|]. intros f.
    rewrite Hel, list_elem_of_filter. unfold eligible, forwarder_up, top_priority. simpl.
    split.
    - intros (Hf & He & Hm). split; [|done]. split; [done|]. apply top_priority_le; auto.
    - intros ((He & Hle) & Hf). split; [done|]. split; [done|]. by apply top_priority_spec. }
  apply Permutation_length in Hp. cbn -[filter top_priority].
  rewrite length_fmap. split; [|split; [|done]].
  - by rewrite length_filter_fmap.
  - rewrite Hp. apply length_filter.
Qed.
