(* ===== verification/RuleWitness.v ===== *)
(** Concrete groups and routing states on which the hypotheses of the theorems
    about package rule hold. *)
From stdpp Require Import sorting.
From S2P Require Import Prelude GoStd Forward Group GroupRotation GroupDial GroupSched GroupInv DomainWalk RuleProxy Status.

(** Two forwarders of priorities 0 and 5, disabled as [ForwarderFromURL] leaves
    them, with [maxfailures] 3. *)
Definition ex_fwdr (p d : Z) : Forwarder :=
  MkForwarder (MkDialer (lit "a:1") 0) [] (lit "a:1") p 3 d 0 0 [] [].
Definition ex_heap : gmap ptr Forwarder :=
  <[0%nat := ex_fwdr 0 1]> {[ 1%nat := ex_fwdr 5 1 ]}.
Definition ex_strategy : Strategy :=
  MkStrategy (lit "rr") (lit "tcp://1.1.1.1") 30 10 0 10 true 3 3 0 [] 3 8.
Definition ex_group : GW := newFwdrGroup msort (lit "main") [0%nat; 1%nat] ex_strategy ex_heap.

Lemma ex_heap_flags f : f_disabled (ex_heap !!! f) = 0 ∨ f_disabled (ex_heap !!! f) = 1.
Proof.
  unfold ex_heap. rewrite lookup_total_alt, lookup_insert.
  case_decide; [by right|]. rewrite lookup_singleton. case_decide; [by right|by left].
Qed.

Lemma ex_nodup : NoDup [0%nat; 1%nat].
Proof. apply (bool_decide_unpack _). vm_compute. done. Qed.

(** Both forwarders are enabled by two goroutines whose handlers run in the
    opposite order of the flag flips. *)
Definition ex_flip0 : GW := updF 0%nat (set_disabled 0) ex_group.
Definition ex_flip1 : GW := updF 1%nat (set_disabled 0) ex_flip0.
Definition ex_settled : GW := onStatusChanged 0%nat (onStatusChanged 1%nat ex_flip1).

Lemma ex_run : rtc rstep (ex_group, []) (ex_settled, []).
Proof.
  eapply rtc_l; [apply (rs_enable 0%nat _ ex_flip0)|].
  { apply (bool_decide_unpack _). vm_compute. done. }
  { unfold cas_disabled. by replace (f_disabled (getF ex_group 0%nat)) with 1. }
  eapply rtc_l; [apply (rs_enable 1%nat _ ex_flip1)|].
  { apply (bool_decide_unpack _). vm_compute. done. }
  { unfold cas_disabled. by replace (f_disabled (getF ex_flip0 1%nat)) with 1. }
  eapply rtc_l; [by apply (rs_handle 1%nat _ _ [0%nat])|].
  eapply rtc_l; [by apply (rs_handle 0%nat _ _ [])|]. done.
Qed.


Lemma rotation_nodup_witness :
  NoDup (g_avail (gw_group ex_settled)) ∧
  g_avail (gw_group ex_settled) ⊆ g_fwdrs (gw_group ex_settled) ∧
  (length (g_avail (gw_group ex_settled)) <= length (g_fwdrs (gw_group ex_settled)))%nat.
Proof.
  apply (rotation_nodup msort msort_priority (lit "main") [0%nat; 1%nat] ex_strategy ex_heap
           ex_settled []).
  - exact ex_nodup.
  - exact ex_heap_flags.
  - exact ex_run.
Defined.

(** A rotation of three forwarders of one priority. *)
Definition ex3_heap : gmap ptr Forwarder :=
  <[0%nat := ex_fwdr 0 0]> (<[1%nat := ex_fwdr 0 0]> {[ 2%nat := ex_fwdr 0 0 ]}).
Definition ex3 : GW := newFwdrGroup msort (lit "main") [0%nat; 1%nat; 2%nat] ex_strategy ex3_heap.

Lemma ex3_pool_nodup : NoDup (cand_pool ex3).
Proof. apply (bool_decide_unpack _). vm_compute. done. Qed.
Lemma ex3_pool_indexable : indexable (cand_pool ex3).
Proof. split; vm_compute; [lia|done]. Qed.
Lemma ex3_attempts : 1 <= g_dialAttempts (gw_group ex3).
Proof. vm_compute. done. Qed.

Lemma dialCandidates_distinct_witness :
  ∃ first cands w',
    nextDialer [] ex3 = (Ok first, w') ∧
    dialCandidates [] 2 ex3 = (Ok (first :: cands), w') ∧
    NoDup (first :: cands) ∧ first :: cands ⊆ cand_pool ex3 ∧
    length (first :: cands) = Nat.min (Z.to_nat 2) (length (cand_pool ex3)).
Proof.
  apply (dialCandidates_distinct [] 2 ex3).
  - exact ex3_pool_nodup.
  - exact ex3_pool_indexable.
  - lia.
Defined.

(** Forwarders 0 and 1 refuse, forwarder 2 answers; every clock reading is one
    millisecond after the previous one. *)
Definition ex_reply (i : nat) (f : ptr) : nat + error :=
  if (f =? 2)%nat then inl 77%nat else inr "connection refused"%string.
Definition ex_clock (k : nat) : Z := Z.of_nat k * millisecond.

Lemma Dial_outcome_witness :
  (∃ r w', Dial ex_reply ex_clock [] ex3 = (Ok r, w') ∧
     dr_conn r = Some 77%nat ∧ dr_dialer r = Some 2%nat ∧ dial_attempts r = 3%nat) ∧
  ∃ cands w1 r w' m,
    dialCandidates [] (g_dialAttempts (gw_group ex3)) ex3 = (Ok cands, w1) ∧
    Dial ex_reply ex_clock [] ex3 = (Ok r, w') ∧
    NoDup cands ∧ length cands = Nat.min (Z.to_nat (g_dialAttempts (gw_group ex3))) (length (cand_pool ex3)) ∧
    dial_outcome ex_reply cands 0 m None None r ∧
    charged cands m ex3 w' ∧
    dial_attempts r = (m + count_some (dr_conn r))%nat ∧
    (1 <= dial_attempts r <= Z.to_nat (g_dialAttempts (gw_group ex3)))%nat ∧
    dial_bounded ex_clock (g_dialBudget (gw_group ex3)) cands m r.
Proof.
  split; [eexists _, _; vm_compute; repeat split|].
  apply (Dial_outcome ex_reply ex_clock [] ex3).
  - exact ex3_pool_nodup.
  - exact ex3_pool_indexable.
  - exact ex3_attempts.
Defined.

Lemma scheduleRR_fair_witness :
  ∃ l, rr_picks (length (g_avail (gw_group ex3))) ex3 = map Ok l ∧ l ≡ₚ g_avail (gw_group ex3).
Proof.
  apply (scheduleRR_fair ex3).
  - exact ex3_pool_indexable.
  - vm_compute. done.
  - vm_compute. done.
Defined.

(** Latencies 30ms, 10ms and 20ms. *)
Definition ex_lat : GW :=
  SetLatency 0%nat (30 * millisecond) (SetLatency 1%nat (10 * millisecond)
    (SetLatency 2%nat (20 * millisecond) ex3)).
Definition ex_old : ptr := match g_avail (gw_group ex_lat) with o :: _ => o | [] => 0%nat end.

Lemma scheduleLHA_optimal_witness :
  (scheduleLHA ex_lat = Ok ex_old ∧
     ∀ f, f ∈ g_avail (gw_group ex_lat) →
          latency ex_lat ex_old - s_CheckTolerance (g_config (gw_group ex_lat)) * millisecond
          <= latency ex_lat f) ∨
  (∃ f, scheduleLHA ex_lat = Ok f ∧ f ∈ g_avail (gw_group ex_lat) ∧
     latency ex_lat f <
       latency ex_lat ex_old - s_CheckTolerance (g_config (gw_group ex_lat)) * millisecond ∧
     ∀ g, g ∈ g_avail (gw_group ex_lat) → latency ex_lat f <= latency ex_lat g).
Proof.
  apply (scheduleLHA_optimal ex_lat ex_old (tail (g_avail (gw_group ex_lat)))).
  - vm_compute. reflexivity.
  - vm_compute. split; [discriminate|reflexivity].
  - vm_compute. split; [discriminate|reflexivity].
Defined.

Lemma setLatency_between_witness :
  (1 < 10 ∧ 0 < latency ex_lat 0%nat →
   Z.min (latency ex_lat 0%nat) 5000000 <= latency (setLatency 0%nat 5000000 ex_lat) 0%nat
     <= Z.max (latency ex_lat 0%nat) 5000000) ∧
  (~ (1 < 10 ∧ 0 < latency ex_lat 0%nat) →
   latency (setLatency 0%nat 5000000 ex_lat) 0%nat = 5000000).
Proof.
  apply (setLatency_between 0%nat 5000000 ex_lat).
  - lia.
  - vm_compute. reflexivity.
Defined.

Lemma check_iter_verdict_witness :
  match check_iter 0%nat (tcp_check 0%nat (inr "refused"%string) 0) 3 ex_group with
  | (res, wait', w') => res = CheckContinue ∧ wait' = Z.min (3 + 1) 16 ∧ enabled w' 0%nat = false
  end.
Proof.
  apply (check_iter_verdict 0%nat (tcp_check 0%nat (inr "refused"%string) 0) 3 ex_group
    (inr "refused"%string) (IncFailures 0%nat ex_group)).
  - lia.
  - reflexivity.
  - right. vm_compute. reflexivity.
  - intros [_ Hp]. vm_compute in Hp. discriminate.
  - intros [Hp _]. vm_compute in Hp. discriminate.
Defined.

Lemma check_loop_spins_witness :
  check_loop 0%nat (replicate 1000 (tcp_check 0%nat (inl ()) 0)) 0 0 ex3 =
  (CheckContinue, 0, 0, ex3).
Proof.
  apply (check_loop_spins 0%nat (replicate 1000 (tcp_check 0%nat (inl ()) 0)) ex3);
    [vm_compute; reflexivity..|vm_compute; discriminate].
Defined.

(** Forwarder 1 answers its check, forwarder 0 does not. *)
Definition ex_ans (f : ptr) : unit + error :=
  if (f =? 1)%nat then inl () else inr "refused"%string.

Lemma ex_group_flags f : flag01 ex_group f.
Proof.
  pose proof (rinv_newFwdrGroup msort (lit "main") [0%nat; 1%nat] ex_strategy ex_heap
    ex_nodup ex_heap_flags) as (Hsh & _). apply Hsh.
Qed.

Lemma warmCheck_verdict_witness :
  (enabled (warmCheck (Some (λ f, tcp_check f (ex_ans f) 5)) [1%nat; 0%nat] ex_group) 1%nat = true
   ↔ ∃ u, ex_ans 1%nat = inl u) ∧
  (enabled (warmCheck (Some (λ f, tcp_check f (ex_ans f) 5)) [1%nat; 0%nat] ex_group) 0%nat = true
   ↔ ∃ u, ex_ans 0%nat = inl u).
Proof.
  split; (apply (warmCheck_verdict ex_ans (λ _, 5) [1%nat; 0%nat] ex_group); [| | |set_solver]).
  1, 4: apply (bool_decide_unpack _); vm_compute; done.
  1, 3: intros f Hf; assert (f = 1%nat ∨ f = 0%nat) as [->| ->] by set_solver;
      vm_compute; reflexivity.
  all: exact ex_group_flags.
Defined.

Lemma maxfailures_threshold_witness :
  Enabled (getF (fail_times 2 0%nat ex3) 0%nat) = true ∧
  Enabled (getF (fail_times 3 0%nat ex3) 0%nat) =
  bool_decide (f_maxFailures (getF ex3 0%nat) = 0 ∨ Z.of_nat 3 < f_maxFailures (getF ex3 0%nat)).
Proof.
  split; [vm_compute; reflexivity|].
  apply (maxfailures_threshold GW_world ex3 0%nat 3).
  - split; vm_compute; reflexivity.
  - vm_compute. discriminate.
  - vm_compute. reflexivity.
Defined.

(** A registry with one scheme, and a direct dialer that always exists. *)
Definition ex_creators : gmap (list byte) DialerCreator :=
  RegisterDialer (lit "HTTP") (λ s d, Ok (MkDialer (drop 7 s) 1)) ∅.
Definition ex_NewDirect (intface : list byte) (dt rt : Z) : outcome Dialer :=
  Ok (MkDialer (lit "DIRECT") 0).

Lemma bad_option_ignored_witness :
  ForwarderFromURL ex_NewDirect ex_creators (lit "http://a:1" ++ c_hash :: lit "priority=9;x")
    [] 3 0 =
  (f ← ForwarderFromURL ex_NewDirect ex_creators (lit "http://a:1") [] 3 0;
   Ok (set_url (lit "http://a:1" ++ c_hash :: lit "priority=9;x") f)).
Proof.
  apply (bad_option_ignored ex_NewDirect ex_creators (lit "http://a:1") (lit "priority=9;x")
    "invalid semicolon separator in query"%string).
  - apply (bool_decide_unpack _). vm_compute. done.
  - apply (bool_decide_unpack _). vm_compute. done.
  - vm_compute. reflexivity.
Defined.

(** A group built from two URLs, dialed once after a failure was recorded. *)
Definition ex_urls : list (list byte) := [lit "http://a:1"; lit "http://b:2#priority=5"].
Definition ex_built : GW :=
  match NewFwdrGroup msort ex_NewDirect ex_creators (lit "main") ex_urls ex_strategy with
  | Ok w => w
  | _ => ex3
  end.

Lemma group_lifetime_witness :
  let w := Enable 1%nat (IncFailures 0%nat ex_built) in
  g_avail (gw_group w) = [1%nat] ∧
  (∀ f, f ∈ g_avail (gw_group w) ↔ eligible w f) ∧
  ∀ Conn (reply : nat → ptr → Conn + error) clock dst,
    ∃ r w', Dial reply clock dst w = (Ok r, w').
Proof.
  cbv zeta. split; [vm_compute; reflexivity|].
  apply (group_lifetime msort msort_priority ex_NewDirect ex_creators (lit "main") ex_urls
    ex_strategy ex_built).
  - vm_compute. reflexivity.
  - vm_compute. reflexivity.
  - eapply rtc_l; [apply (gs_failure 0%nat)|].
    { apply (bool_decide_unpack _). vm_compute. done. }
    eapply rtc_l; [apply (gs_success 1%nat)|done].
    apply (bool_decide_unpack _). vm_compute. done.
Defined.

(** A state with one rule file: a domain, an address and a prefix. *)
Definition ex_rule : Config :=
  MkConfig (lit "rules.d/office.rule") [lit "http://c:3"] ex_strategy [] []
    [lit "Example.com"] [lit "10.0.0.1"] [lit "10.0.0.0/8"].
Definition ex_state : proxyState :=
  match buildState msort ex_NewDirect ex_creators ex_urls ex_strategy [ex_rule] with
  | Ok s => s
  | _ => MkState 0%nat [] ∅ ∅ ∅ ∅
  end.

Lemma ex_state_built :
  buildState msort ex_NewDirect ex_creators ex_urls ex_strategy [ex_rule] = Ok ex_state.
Proof.
  assert (is_ok (buildState msort ex_NewDirect ex_creators ex_urls ex_strategy [ex_rule]) = true) as Hok
    by (vm_compute; reflexivity).
  unfold ex_state. by destruct (buildState _ _ _ _ _ _).
Qed.

Lemma Proxy_Dial_total_witness :
  ∃ r s', Proxy_Dial ex_reply ex_clock (map_to_list (cidrMap ex_state))
            (lit "www.example.com:443") ex_state = (Ok r, s') ∧ state_ok s'.
Proof.
  apply (Proxy_Dial_total msort msort_priority ex_NewDirect ex_creators ex_urls ex_strategy
    [ex_rule] ex_state ex_reply ex_clock).
  - vm_compute. reflexivity.
  - constructor; [vm_compute; reflexivity|constructor].
  - exact ex_state_built.
  - unfold range_order. reflexivity.
Defined.

Lemma findDialer_domain_witness :
  findDialer [] ex_state (lit "WWW.Example.COM:443") = 1%nat ∧
  findDialer [] ex_state (lit "WWW.Example.COM:443") =
  route_domain ex_state (dot_suffixes (to_lower (lit "WWW.Example.COM"))).
Proof.
  split; [vm_compute; reflexivity|].
  apply (findDialer_domain [] ex_state (lit "WWW.Example.COM:443") (lit "WWW.Example.COM")
    (lit "443") ErrParseAddr); vm_compute; reflexivity.
Defined.

Lemma findDialer_ip_witness :
  match ipMap ex_state !! Addr4 [x0a; x02; x03; x04] with
  | Some g => findDialer (map_to_list (cidrMap ex_state)) ex_state (lit "10.2.3.4:80") = g
  | None =>
      (∃ p, cidrMap ex_state !! p =
              Some (findDialer (map_to_list (cidrMap ex_state)) ex_state (lit "10.2.3.4:80")) ∧
            Contains p (Addr4 [x0a; x02; x03; x04]) = true) ∨
      ((∀ p g, cidrMap ex_state !! p = Some g →
               Contains p (Addr4 [x0a; x02; x03; x04]) = false) ∧
       findDialer (map_to_list (cidrMap ex_state)) ex_state (lit "10.2.3.4:80") =
       route_domain ex_state (dot_suffixes (to_lower (lit "10.2.3.4"))))
  end.
Proof.
  apply (findDialer_ip (map_to_list (cidrMap ex_state)) ex_state (lit "10.2.3.4:80")
    (lit "10.2.3.4") (lit "80") (Addr4 [x0a; x02; x03; x04])).
  - vm_compute. reflexivity.
  - vm_compute. reflexivity.
  - unfold range_order. reflexivity.
Defined.

Lemma AddDomainIP_route_witness :
  findDialer [] (AddDomainIP (lit "www.example.com") (Addr4 [xc0; x00; x02; x07]) ex_state)
    (lit "192.0.2.7:443") = 1%nat.
Proof.
  apply (AddDomainIP_route [] ex_state (lit "www.example.com") (Addr4 [xc0; x00; x02; x07])
    (lit "192.0.2.7:443") (lit "192.0.2.7") (lit "443") 1%nat); vm_compute; reflexivity.
Defined.

Lemma Status_counts_witness :
  let st := group_Status (Enable 1%nat (Enable 0%nat ex_built)) in
  (gst_Enabled st, gst_Total st) = (1%nat, 2%nat) ∧
  gst_Enabled st = length (filter (forwarder_up (top_priority st)) (gst_Forwarders st)) ∧
  (gst_Enabled st <= gst_Total st)%nat ∧ gst_Total st = length (gst_Forwarders st).
Proof.
  cbv zeta. split; [vm_compute; reflexivity|].
  apply (Status_counts (Enable 1%nat (Enable 0%nat ex_built))).
  - assert (group_ok ex_built) as Hok.
    { apply (group_ok_NewFwdrGroup msort ex_NewDirect ex_creators (lit "main") ex_urls ex_strategy);
        vm_compute; reflexivity. }
    do 2 (apply group_ok_Enable; [apply (bool_decide_unpack _); vm_compute; done|]). exact Hok.
  - apply Forall_forall, (bool_decide_unpack _). vm_compute. done.
Defined.
