(* ===== verification/DnsMessage.v ===== *)
(** dns/message.go: DNS messages on the wire.

    A message is written to a [bytes.Buffer], which never fails, so the writers
    return the bytes they append.  Reading follows compression pointers by
    recursion without a bound; [fuel] bounds the labels and pointers a name may
    have before the model gives up with [OutOfFuel] ([domain_fuel_enough] shows
    how much fuel decides the question). *)
From S2P Require Import Prelude GoStd GoSlice.

Definition UDPMaxLen : nat := 1232.
Definition HeaderLen : nat := 12.
Definition QueryMsg : Z := 0.
Definition ResponseMsg : Z := 1.
Definition QTypeA : Z := 1.
Definition QTypeAAAA : Z := 28.
Definition ClassINET : Z := 1.

Record Header := MkHeader {
  ID : Z; Bits : Z; QDCOUNT : Z; ANCOUNT : Z; NSCOUNT : Z; ARCOUNT : Z }.

Record Question := MkQuestion { QNAME : list byte; QTYPE : Z; QCLASS : Z }.

(** [IP] is [None] for the zero [netip.Addr]. *)
Record RR := MkRR {
  NAME : list byte; TYPE : Z; CLASS : Z; TTL : Z; RDLENGTH : Z; RDATA : list byte;
  IP : option Addr }.

(** [Question] is a pointer, nil in a new message. *)
Record Message := MkMessage {
  m_Header : Header;
  m_Question : option Question;
  m_Answers : list RR;
  m_Authority : list RR;
  m_Additional : list RR;
  unMarshaled : slice }.

(** ** Construction *)

Definition SetMsgType (qr : Z) (h : Header) : Header :=
  MkHeader (ID h) (Z.lor (Bits h) (u16 (Z.shiftl qr 15))) (QDCOUNT h) (ANCOUNT h)
    (NSCOUNT h) (ARCOUNT h).
Definition SetTC (tc : Z) (h : Header) : Header :=
  MkHeader (ID h) (Z.lor (Bits h) (u16 (Z.shiftl (u16 tc) 9))) (QDCOUNT h) (ANCOUNT h)
    (NSCOUNT h) (ARCOUNT h).
Definition SetQdcount (qdcount : Z) (h : Header) : Header :=
  MkHeader (ID h) (Bits h) (u16 qdcount) (ANCOUNT h) (NSCOUNT h) (ARCOUNT h).
Definition SetAncount (ancount : Z) (h : Header) : Header :=
  MkHeader (ID h) (Bits h) (QDCOUNT h) (u16 ancount) (NSCOUNT h) (ARCOUNT h).

Definition set_header (h : Header) (m : Message) : Message :=
  MkMessage h (m_Question m) (m_Answers m) (m_Authority m) (m_Additional m) (unMarshaled m).

Definition nil_slice : slice := MkSlice [] 0.

(** [rnd] is what [rand.Uint32] returns. *)
Definition NewMessage (rnd id msgType : Z) : Message :=
  let id := if id =? 0 then u16 rnd else id in
  MkMessage (SetMsgType msgType (MkHeader id 0 0 0 0 0)) None [] [] [] nil_slice.

Definition SetQuestion (q : Question) (m : Message) : Message :=
  MkMessage (SetQdcount 1 (m_Header m)) (Some q) (m_Answers m) (m_Authority m) (m_Additional m)
    (unMarshaled m).

Definition AddAnswer (rr : RR) (m : Message) : Message :=
  MkMessage (m_Header m) (m_Question m) (m_Answers m ++ [rr]) (m_Authority m) (m_Additional m)
    (unMarshaled m).

Definition NewQuestion (qtype : Z) (domain : list byte) : Question :=
  MkQuestion domain qtype ClassINET.

Definition NewRR : RR := MkRR [] 0 0 0 0 [] None.

(** ** Writing *)

Definition Header_MarshalTo (h : Header) : list byte :=
  be_bytes 2 (ID h) ++ be_bytes 2 (Bits h) ++ be_bytes 2 (QDCOUNT h) ++
  be_bytes 2 (ANCOUNT h) ++ be_bytes 2 (NSCOUNT h) ++ be_bytes 2 (ARCOUNT h).

Definition marshal_label (seg : list byte) : list byte := z2b (Z.of_nat (length seg)) :: seg.

Definition MarshalDomainTo (domain : list byte) : list byte :=
  concat (marshal_label <$> split_byte c_dot domain) ++ [x00].

Definition Question_MarshalTo (q : Question) : list byte :=
  MarshalDomainTo (QNAME q) ++ be_bytes 2 (QTYPE q) ++ be_bytes 2 (QCLASS q).

Definition RR_MarshalTo (rr : RR) : list byte :=
  MarshalDomainTo (NAME rr) ++ be_bytes 2 (TYPE rr) ++ be_bytes 2 (CLASS rr) ++
  be_bytes 4 (TTL rr) ++ be_bytes 2 (RDLENGTH rr) ++ RDATA rr.

(** [MarshalTo]: the bytes written, and the message with its counts set; a nil
    question is a nil dereference. *)
Definition Message_MarshalTo (m : Message) : outcome (list byte * Message) :=
  let h := SetAncount (Z.of_nat (length (m_Answers m))) (SetQdcount 1 (m_Header m)) in
  let m := set_header h m in
  match m_Question m with
  | None => Panic
  | Some q =>
      Ok (Header_MarshalTo h ++ Question_MarshalTo q ++ concat (RR_MarshalTo <$> m_Answers m), m)
  end.

Definition Marshal (m : Message) : outcome (list byte * Message) := Message_MarshalTo m.

(** ** Reading *)

Definition UnmarshalHeader (b : slice) : outcome Header :=
  if negb (s_len b =? HeaderLen)%nat then
    Err "unmarshal header bytes has an unexpected size"
  else
    id ← (s ← slice_to b 2; Uint16 s);
    bits ← (s ← slice_sub b 2 4; Uint16 s);
    qd ← (s ← slice_sub b 4 6; Uint16 s);
    an ← (s ← slice_sub b 6 8; Uint16 s);
    ns ← (s ← slice_sub b 8 10; Uint16 s);
    ar ← (s ← slice_from b 10; Uint16 s);
    Ok (MkHeader id bits qd an ns ar).

(** [sb.WriteByte('.')] before every label but the first, then the label. *)
Definition write_label (sb seg : list byte) : list byte :=
  (if (0 <? length sb)%nat then sb ++ [c_dot] else sb) ++ seg.

(** [UnmarshalDomainTo] at position [idx] of [b], with the names written so far
    in [sb]; a pointer is followed in [um], the whole message
    ([UnmarshalDomainPointTo]), and ends the name. *)
Fixpoint UnmarshalDomainTo (fuel : nat) (um : slice) (sb : list byte) (b : slice) (idx : nat)
    : outcome (list byte * nat) :=
  match fuel with
  | O => OutOfFuel
  | S fuel =>
      rest ← slice_from b idx;
      if (s_len rest =? 0)%nat then Ok (sb, idx) else
      c ← slice_get b idx;
      if Z.land (b2z c) 192 =? 192 then
        if (s_len rest <? 2)%nat then
          Err "UnmarshalDomainTo: not enough size for compressed domain"
        else
          offset ← (s ← slice_sub b idx (idx + 2); Uint16 s);
          let offset := Z.to_nat (Z.land offset 16383) in
          r ← (if (s_len um <? offset)%nat then
                 Err "UnmarshalDomainPointTo: offset larger than msg length"
               else
                 t ← slice_from um offset;
                 UnmarshalDomainTo fuel um sb t 0);
          let '(sb, _) := r in Ok (sb, (idx + 2)%nat)
      else
        let size := Z.to_nat (b2z c) in
        let idx := S idx in
        if (size =? 0)%nat then Ok (sb, idx)
        else if (63 <? size)%nat then Err "UnmarshalDomainTo: label size larger than 63"
        else if (s_len b <? idx + size)%nat then
          Err "UnmarshalDomainTo: label size larger than msg length"
        else
          seg ← slice_sub b idx (idx + size);
          UnmarshalDomainTo fuel um (write_label sb (bytes_of seg)) b (idx + size)
  end.

Section Unmarshal.
Context (fuel : nat).

(** The question and the number of bytes it takes. *)
Definition UnmarshalQuestion (um b : slice) : outcome (Question * nat) :=
  if (s_len b <=? 5)%nat then Err "UnmarshalQuestion: not enough data" else
  r ← UnmarshalDomainTo fuel um [] b 0;
  let '(name, idx) := r in
  qtype ← (s ← slice_sub b idx (idx + 2); Uint16 s);
  qclass ← (s ← slice_sub b (idx + 2) (idx + 4); Uint16 s);
  Ok (MkQuestion name qtype qclass, (idx + 3 + 1)%nat).

(** The address of an A or AAAA record: [RDATA[:4]] and [RDATA[:16]] re-slice up
    to the capacity of [RDATA]. *)
Definition rr_ip (type : Z) (rdata : slice) : outcome (option Addr) :=
  if type =? QTypeA then s ← slice_to rdata 4; Ok (Some (Addr4 (bytes_of s)))
  else if type =? QTypeAAAA then s ← slice_to rdata 16; Ok (Some (Addr6 (bytes_of s) []))
  else Ok None.

Definition UnmarshalRR (um : slice) (start : nat) : outcome (RR * nat) :=
  p ← slice_from um start;
  r ← UnmarshalDomainTo fuel um [] p 0;
  let '(name, n) := r in
  if (s_len p <=? n + 10)%nat then Err "UnmarshalRR: not enough data" else
  type ← (s ← slice_from p n; Uint16 s);
  class ← (s ← slice_from p (n + 2); Uint16 s);
  ttl ← (s ← slice_from p (n + 4); Uint32 s);
  rdlength ← (s ← slice_from p (n + 8); Uint16 s);
  let rdl := Z.to_nat rdlength in
  if (s_len p <? n + 10 + rdl)%nat then Err "UnmarshalRR: not enough data for RDATA" else
  rdata ← slice_sub p (n + 10) (n + 10 + rdl);
  ip ← rr_ip type rdata;
  Ok (MkRR name type class ttl rdlength (bytes_of rdata) ip, (n + 10 + rdl)%nat).

(** The loop over [ANCOUNT] records. *)
Fixpoint unmarshal_answers (k : nat) (rrIdx : nat) (m : Message) : outcome Message :=
  match k with
  | O => Ok m
  | S k' =>
      r ← UnmarshalRR (unMarshaled m) rrIdx;
      let '(rr, rrLen) := r in
      unmarshal_answers k' (rrIdx + rrLen) (AddAnswer rr m)
  end.

Definition UnmarshalMessage (b : slice) : outcome Message :=
  if (s_len b <? HeaderLen)%nat then Err "UnmarshalMessage: not enough data" else
  h ← (s ← slice_to b HeaderLen; UnmarshalHeader s);
  r ← (s ← slice_from b HeaderLen; UnmarshalQuestion b s);
  let '(q, qLen) := r in
  let m := SetQuestion q (MkMessage h None [] [] [] b) in
  m ← unmarshal_answers (Z.to_nat (ANCOUNT h)) (HeaderLen + qLen) m;
  Ok (set_header (SetAncount (Z.of_nat (length (m_Answers m))) (m_Header m)) m).
End Unmarshal.

(** ** Names on the wire *)

Definition label_ok (seg : list byte) : Prop := (1 <= length seg <= 63)%nat.
(** A host name every label of which DNS allows. *)
Definition domain_ok (d : list byte) : Prop := Forall label_ok (split_byte c_dot d).

Definition marshal_labels (ls : list (list byte)) : list byte := concat (marshal_label <$> ls).

Lemma land_label c : b2z c <= 63 → (Z.land (b2z c) 192 =? 192) = false.
Proof. destruct c; vm_compute; intros H; try reflexivity; by destruct H. Qed.

Lemma write_label_ne sb seg : sb ≠ [] → write_label sb seg = sb ++ c_dot :: seg.
Proof.
  intros Hsb. unfold write_label. destruct sb as [|x sb]; [done|].
  rewrite (proj2 (Nat.ltb_lt _ _)) by (simpl; lia). by rewrite <- app_assoc.
Qed.

Lemma write_labels_ne sb ls :
  sb ≠ [] → foldl write_label sb ls = sb ++ concat ((λ l, c_dot :: l) <$> ls).
Proof.
  revert sb. induction ls as [|l ls IH]; intros sb Hsb; csimpl; [by rewrite app_nil_r|].
  rewrite write_label_ne, IH by (done || by destruct sb).
  by rewrite <- app_assoc.
Qed.

Lemma write_labels_join ls : Forall label_ok ls → foldl write_label [] ls = join_bytes [c_dot] ls.
Proof.
  destruct ls as [|l ls]; [done|]. intros [Hl Hls]%Forall_cons_1.
  change (foldl write_label [] (l :: ls)) with (foldl write_label l ls).
  rewrite write_labels_ne by (intros ->; unfold label_ok in Hl; simpl in Hl; lia).
  clear Hl Hls. revert l. induction ls as [|l' ls IH]; intros l; [by apply app_nil_r|].
  change (join_bytes [c_dot] (l :: l' :: ls)) with (l ++ [c_dot] ++ join_bytes [c_dot] (l' :: ls)).
  by rewrite <- IH.
Qed.

Lemma length_marshal_label_ge ls : (length ls <= length (marshal_labels ls))%nat.
Proof.
  unfold marshal_labels. induction ls as [|l ls IH]; csimpl; [done|]. rewrite length_app. lia.
Qed.

(** Reading back what [MarshalDomainTo] wrote. *)
Lemma UnmarshalDomainTo_labels fuel um sb b idx ls rest :
  slice_wf b → Forall label_ok ls → (length ls < fuel)%nat →
  drop idx (bytes_of b) = marshal_labels ls ++ x00 :: rest →
  UnmarshalDomainTo fuel um sb b idx =
  Ok (foldl write_label sb ls, (idx + length (marshal_labels ls) + 1)%nat).
Proof.
  intros Hwf. revert fuel sb idx. induction ls as [|l ls IH]; intros fuel sb idx Hls Hf Hd;
    (destruct fuel as [|fuel]; [simpl in Hf; lia|]); cbn [UnmarshalDomainTo].
  - simpl in Hd. pose proof (drop_cons_lt _ _ _ _ Hd) as Hlt.
    rewrite length_bytes_of in Hlt by done. rewrite slice_from_eq by (done || lia). simpl.
    rewrite (proj2 (Nat.eqb_neq _ _)) by lia. rewrite (slice_get_bytes _ _ _ _ Hd). simpl.
    do 2 f_equal. lia.
  - apply Forall_cons_1 in Hls as [Hl Hls]. simpl in Hd.
    pose proof (drop_cons_lt _ _ _ _ Hd) as Hlt.
    rewrite length_bytes_of in Hlt by done. rewrite slice_from_eq by (done || lia). simpl.
    rewrite (proj2 (Nat.eqb_neq _ _)) by lia. rewrite (slice_get_bytes _ _ _ _ Hd). simpl.
    unfold label_ok in Hl. assert (b2z (z2b (Z.of_nat (length l))) = Z.of_nat (length l)) as Hsz
      by (apply b2z_z2b_small; lia).
    rewrite land_label by (rewrite Hsz; lia). rewrite Hsz, Nat2Z.id.
    rewrite (proj2 (Nat.eqb_neq _ _)), (proj2 (Nat.ltb_ge _ _)) by lia.
    assert (drop (S idx) (bytes_of b) = l ++ marshal_labels ls ++ x00 :: rest) as Hd'.
    { replace (S idx) with (idx + 1)%nat by lia. rewrite <- drop_drop, Hd. simpl.
      by rewrite <- app_assoc. }
    pose proof (drop_app_lt _ _ _ _ Hd' ltac:(lia)) as Hle.
    rewrite length_bytes_of in Hle by done. rewrite (proj2 (Nat.ltb_ge _ _)) by lia.
    destruct (slice_sub_field b (S idx) l _ Hwf Hd' ltac:(lia)) as (s' & Hs & Hb & _).
    change (S idx + length l)%nat with (S (idx + length l)) in *. rewrite Hs. simpl. rewrite Hb.
    rewrite IH; [|done|simpl in Hf; lia|].
    + unfold marshal_labels. csimpl. rewrite length_app. do 2 f_equal. lia.
    + replace (S (idx + length l)) with (S idx + length l)%nat by lia.
      by rewrite <- drop_drop, Hd', drop_app_length.
Qed.

Lemma UnmarshalDomainTo_domain fuel um b idx d rest :
  slice_wf b → domain_ok d → (length (MarshalDomainTo d) <= fuel)%nat →
  drop idx (bytes_of b) = MarshalDomainTo d ++ rest →
  UnmarshalDomainTo fuel um [] b idx = Ok (d, (idx + length (MarshalDomainTo d))%nat).
Proof.
  intros Hwf Hd Hf Hdr. unfold MarshalDomainTo in *.
  fold (marshal_labels (split_byte c_dot d)) in *. rewrite length_app in *. simpl in Hf.
  pose proof (length_marshal_label_ge (split_byte c_dot d)).
  rewrite <- app_assoc in Hdr.
  rewrite (UnmarshalDomainTo_labels _ _ _ _ _ _ rest) by (done || lia).
  rewrite write_labels_join, join_split by done. do 2 f_equal. simpl. lia.
Qed.

(** ** Round trip *)

Definition rr_addr (type : Z) (rdata : list byte) : option Addr :=
  if type =? QTypeA then Some (Addr4 (take 4 rdata))
  else if type =? QTypeAAAA then Some (Addr6 (take 16 rdata) [])
  else None.

(** A record as it is read back: [IP] is derived from [RDATA]. *)
Definition parsed_rr (rr : RR) : RR :=
  MkRR (NAME rr) (TYPE rr) (CLASS rr) (TTL rr) (RDLENGTH rr) (RDATA rr)
    (rr_addr (TYPE rr) (RDATA rr)).

Record question_ok (q : Question) : Prop := {
  qo_name : domain_ok (QNAME q);
  qo_type : 0 <= QTYPE q < 2 ^ 16;
  qo_class : 0 <= QCLASS q < 2 ^ 16 }.

Record rr_ok (rr : RR) : Prop := {
  ro_name : domain_ok (NAME rr);
  ro_type : 0 <= TYPE rr < 2 ^ 16;
  ro_class : 0 <= CLASS rr < 2 ^ 16;
  ro_ttl : 0 <= TTL rr < 2 ^ 32;
  ro_len : RDLENGTH rr = Z.of_nat (length (RDATA rr));
  ro_data : (1 <= length (RDATA rr))%nat ∧ RDLENGTH rr < 2 ^ 16;
  ro_a : TYPE rr = QTypeA → (4 <= length (RDATA rr))%nat;
  ro_aaaa : TYPE rr = QTypeAAAA → (16 <= length (RDATA rr))%nat }.

Lemma UnmarshalQuestion_roundtrip fuel um b q rest :
  slice_wf b → question_ok q → bytes_of b = Question_MarshalTo q ++ rest →
  (length (bytes_of b) <= fuel)%nat →
  UnmarshalQuestion fuel um b = Ok (q, length (Question_MarshalTo q)).
Proof.
  intros Hwf [Hn Ht Hc] Hb Hf. unfold UnmarshalQuestion.
  unfold Question_MarshalTo in *. rewrite <- !app_assoc in Hb.
  assert (6 < s_len b)%nat as Hlen.
  { rewrite <- length_bytes_of, Hb, !length_app, !length_be_bytes by done.
    assert (2 < length (MarshalDomainTo (QNAME q)))%nat; [|lia].
    unfold MarshalDomainTo. rewrite length_app. simpl.
    pose proof (split_byte_nonempty c_dot (QNAME q)) as Hne. unfold domain_ok in Hn.
    destruct (split_byte c_dot (QNAME q)) as [|l ls]; [done|].
    apply Forall_cons_1 in Hn as [Hl _]. unfold label_ok in Hl. csimpl.
    rewrite length_app. simpl. lia. }
  rewrite (proj2 (Nat.leb_gt _ _)) by lia.
  rewrite (UnmarshalDomainTo_domain _ _ _ _ (QNAME q)
    (be_bytes 2 (QTYPE q) ++ be_bytes 2 (QCLASS q) ++ rest)); [|done|done| |done].
  2:{ rewrite Hb, length_app in Hf. lia. }
  rewrite bind_ret. cbv beta iota. pose proof (drop_field 0 _ _ _ Hb) as Hd1. rewrite Nat.add_0_l in Hd1.
  rewrite (read16_sub _ _ _ _ _ Hwf Hd1) by (apply length_be_bytes || lia).
  rewrite bind_ret.
  pose proof (drop_field _ _ _ _ Hd1) as Hd2. rewrite length_be_bytes in Hd2.
  rewrite (read16_sub _ _ _ _ _ Hwf Hd2) by (apply length_be_bytes || lia).
  rewrite bind_ret.
  rewrite !be16_id, !length_app, !length_be_bytes by done. destruct q. cbn [QNAME QTYPE QCLASS].
  do 2 f_equal. lia.
Qed.

Lemma UnmarshalRR_roundtrip fuel um start rr rest :
  slice_wf um → rr_ok rr → drop start (bytes_of um) = RR_MarshalTo rr ++ rest →
  (length (bytes_of um) <= fuel)%nat →
  UnmarshalRR fuel um start = Ok (parsed_rr rr, length (RR_MarshalTo rr)).
Proof.
  intros Hwf [Hn Ht Hc Httl Hl [Hd1 Hd2] Ha Haaaa] Hb Hf. unfold UnmarshalRR.
  assert (0 < length (RR_MarshalTo rr))%nat as Hpos.
  { unfold RR_MarshalTo. rewrite !length_app, !length_be_bytes. lia. }
  pose proof (drop_app_lt _ _ _ _ Hb Hpos) as Hst. rewrite length_bytes_of in Hst, Hf by done.
  rewrite slice_from_eq by (done || lia). simpl.
  set (p := MkSlice _ _).
  assert (bytes_of p = drop start (bytes_of um)) as Hbp by (apply bytes_of_drop; [done|lia]).
  assert (slice_wf p) as Hwp.
  { unfold slice_wf, cap in *. simpl. rewrite length_drop. lia. }
  rewrite Hb in Hbp. unfold RR_MarshalTo in Hbp. rewrite <- !app_assoc in Hbp.
  assert (s_len p = length (bytes_of p)) as Hlp by (symmetry; by apply length_bytes_of).
  rewrite Hbp, !length_app, !length_be_bytes in Hlp.
  rewrite (UnmarshalDomainTo_domain _ _ _ _ (NAME rr) _ Hwp Hn) by
    (try exact Hbp; simpl in Hlp; lia).
  rewrite bind_ret. cbv beta iota. change (s_len p) with (s_len um - start)%nat in Hlp.
  rewrite (proj2 (Nat.leb_gt _ _)) by lia.
  pose proof (drop_field 0 _ _ _ Hbp) as H1. rewrite Nat.add_0_l in H1.
  pose proof (drop_field _ _ _ _ H1) as H2. rewrite length_be_bytes in H2.
  pose proof (drop_field _ _ _ _ H2) as H3. rewrite length_be_bytes in H3.
  pose proof (drop_field _ _ _ _ H3) as H4. rewrite length_be_bytes in H4.
  pose proof (drop_field _ _ _ _ H4) as H5. rewrite length_be_bytes in H5.
  change (0 + length (MarshalDomainTo (NAME rr)))%nat with (length (MarshalDomainTo (NAME rr))).
  set (n := length (MarshalDomainTo (NAME rr))) in *.
  replace (n + 2 + 2)%nat with (n + 4)%nat in H3, H4, H5 by lia.
  replace (n + 4 + 4)%nat with (n + 8)%nat in H4, H5 by lia.
  replace (n + 8 + 2)%nat with (n + 10)%nat in H5 by lia.
  rewrite (read16_from _ _ _ _ Hwp H1), bind_ret by apply length_be_bytes.
  rewrite (read16_from _ _ _ _ Hwp H2), bind_ret by apply length_be_bytes.
  rewrite (read32_from _ _ _ _ Hwp H3), bind_ret by apply length_be_bytes.
  rewrite (read16_from _ _ _ _ Hwp H4), bind_ret by apply length_be_bytes.
  rewrite !be16_id, be32_id by lia.
  rewrite Hl, Nat2Z.id, (proj2 (Nat.ltb_ge _ _)) by lia.
  destruct (slice_sub_field p _ _ _ Hwp H5 ltac:(lia)) as (s' & Hs & Hbs & Hls).
  rewrite Hs, bind_ret. unfold rr_ip, parsed_rr, rr_addr.
  assert (∀ k, (k <= length (RDATA rr))%nat → ∃ t, slice_to s' k = Ok t ∧ bytes_of t = take k (RDATA rr))
    as Hto.
  { intros k Hk. unfold slice_to. pose proof (slice_sub_wf _ _ _ _ Hs) as Hws.
    eexists. split; [apply slice_sub_Ok; split; [|done]; unfold slice_wf in Hws; lia|].
    erewrite slice_sub_bytes; [|apply slice_sub_Ok; split; [|done]; unfold slice_wf in Hws; lia|lia].
    by rewrite Hbs, Nat.sub_0_r. }
  assert (n + 10 + length (RDATA rr) = length (RR_MarshalTo rr))%nat as Hlen.
  { unfold RR_MarshalTo, n. rewrite !length_app, !length_be_bytes. lia. }
  destruct (TYPE rr =? QTypeA) eqn:EA; bools.
  { destruct (Hto 4%nat (Ha EA)) as (t & -> & Hbt). simpl. by rewrite Hbt, Hbs, Hl, Hlen. }
  destruct (TYPE rr =? QTypeAAAA) eqn:EB; bools.
  { destruct (Hto 16%nat (Haaaa EB)) as (t & -> & Hbt). simpl. by rewrite Hbt, Hbs, Hl, Hlen. }
  simpl. by rewrite Hbs, Hl, Hlen.
Qed.

Record header_ok (h : Header) : Prop := {
  ho_id : 0 <= ID h < 2 ^ 16;
  ho_bits : 0 <= Bits h < 2 ^ 16;
  ho_ns : 0 <= NSCOUNT h < 2 ^ 16;
  ho_ar : 0 <= ARCOUNT h < 2 ^ 16 }.

Lemma length_Header_MarshalTo h : length (Header_MarshalTo h) = HeaderLen.
Proof. done. Qed.

Lemma UnmarshalHeader_roundtrip s h :
  slice_wf s → bytes_of s = Header_MarshalTo h → header_ok h →
  0 <= QDCOUNT h < 2 ^ 16 → 0 <= ANCOUNT h < 2 ^ 16 → UnmarshalHeader s = Ok h.
Proof.
  intros Hwf Hb [Hid Hbi Hns Har] Hq Ha. unfold UnmarshalHeader.
  assert (s_len s = HeaderLen) as Hl by by rewrite <- length_bytes_of, Hb by done.
  rewrite Hl. cbn [Nat.eqb negb HeaderLen]. rewrite Nat.eqb_refl. cbn [negb].
  unfold Header_MarshalTo in Hb.
  pose proof Hb as H0. rewrite <- (drop_0 (bytes_of s)) in H0.
  pose proof (drop_field _ _ _ _ H0) as H2. pose proof (drop_field _ _ _ _ H2) as H4.
  pose proof (drop_field _ _ _ _ H4) as H6. pose proof (drop_field _ _ _ _ H6) as H8.
  pose proof (drop_field _ _ _ _ H8) as H10. rewrite !length_be_bytes in *. simpl Nat.add in *.
  unfold slice_to. rewrite (read16_sub _ _ 2%nat _ _ Hwf H0), bind_ret by (apply length_be_bytes || done).
  rewrite (read16_sub _ _ 4%nat _ _ Hwf H2), bind_ret by (apply length_be_bytes || done).
  rewrite (read16_sub _ _ 6%nat _ _ Hwf H4), bind_ret by (apply length_be_bytes || done).
  rewrite (read16_sub _ _ 8%nat _ _ Hwf H6), bind_ret by (apply length_be_bytes || done).
  rewrite (read16_sub _ _ 10%nat _ _ Hwf H8), bind_ret by (apply length_be_bytes || done).
  rewrite <- (app_nil_r (be_bytes 2 (ARCOUNT h))) in H10.
  rewrite (read16_from _ _ _ _ Hwf H10), bind_ret by (apply length_be_bytes || done).
  rewrite !be16_id by done. by destruct h.
Qed.

Lemma unmarshal_answers_roundtrip fuel m rrs start rest :
  slice_wf (unMarshaled m) → Forall rr_ok rrs →
  drop start (bytes_of (unMarshaled m)) = concat (RR_MarshalTo <$> rrs) ++ rest →
  (length (bytes_of (unMarshaled m)) <= fuel)%nat →
  unmarshal_answers fuel (length rrs) start m =
  Ok (MkMessage (m_Header m) (m_Question m) (m_Answers m ++ (parsed_rr <$> rrs)) (m_Authority m)
        (m_Additional m) (unMarshaled m)).
Proof.
  revert m start. induction rrs as [|rr rrs IH]; intros m start Hwf Hok Hd Hf; simpl.
  { rewrite app_nil_r. by destruct m. }
  apply Forall_cons_1 in Hok as [Hrr Hok]. csimpl in Hd. rewrite <- app_assoc in Hd.
  rewrite (UnmarshalRR_roundtrip _ _ _ _ _ Hwf Hrr Hd Hf), bind_ret. cbv beta iota.
  rewrite IH; [|done|done| |done].
  - simpl. by rewrite <- app_assoc.
  - by apply (drop_field _ _ _ _ Hd).
Qed.

(** A message the server may send: one question, names, types and lengths that
    fit their fields, no empty record data. *)
Record message_ok (m : Message) (q : Question) : Prop := {
  mo_header : header_ok (m_Header m);
  mo_question : m_Question m = Some q;
  mo_qok : question_ok q;
  mo_answers : Forall rr_ok (m_Answers m);
  mo_count : Z.of_nat (length (m_Answers m)) < 2 ^ 16 }.

Lemma UnmarshalMessage_roundtrip m q w m' rest fuel :
  message_ok m q → Message_MarshalTo m = Ok (w, m') → (length (w ++ rest) <= fuel)%nat →
  UnmarshalMessage fuel (slice_of (w ++ rest)) =
  Ok (MkMessage (m_Header m') (Some q) (parsed_rr <$> m_Answers m) [] []
        (slice_of (w ++ rest))).
Proof.
  intros [Hh Hq Hqok Hrrs Hcnt] HM Hf. unfold Message_MarshalTo in HM.
  cbn [set_header m_Question] in HM. rewrite Hq in HM.
  set (h := SetAncount _ _) in HM. change (m_Answers (set_header h m)) with (m_Answers m) in HM.
  assert (w = Header_MarshalTo h ++ Question_MarshalTo q ++ concat (RR_MarshalTo <$> m_Answers m))
    as Hw by congruence.
  assert (m' = set_header h m) as -> by congruence. clear HM.
  pose proof (slice_wf_of (w ++ rest)) as Hwf. pose proof (bytes_of_slice_of (w ++ rest)) as Hb.
  assert (bytes_of (slice_of (w ++ rest)) = Header_MarshalTo h ++ Question_MarshalTo q ++
    concat (RR_MarshalTo <$> m_Answers m) ++ rest) as Hb' by (rewrite Hb, Hw; by rewrite <- !app_assoc).
  set (b := slice_of (w ++ rest)) in *. unfold UnmarshalMessage.
  assert (header_ok h ∧ QDCOUNT h = 1 ∧ ANCOUNT h = Z.of_nat (length (m_Answers m))) as (Hho & Hqd & Han).
  { destruct Hh. unfold h. split; [by split|]. split; [done|].
    apply u16_small. lia. }
  assert (HeaderLen <= s_len b)%nat as Hlen.
  { rewrite <- length_bytes_of, Hb', length_app, length_Header_MarshalTo by done. lia. }
  rewrite (proj2 (Nat.ltb_ge _ _)) by done.
  destruct (slice_sub_field b 0 (Header_MarshalTo h) _ Hwf Hb' ltac:(rewrite length_Header_MarshalTo; unfold HeaderLen; lia))
    as (s & Hs & Hbs & _).
  unfold slice_to. change (0 + length (Header_MarshalTo h))%nat with HeaderLen in Hs.
  rewrite Hs, bind_ret, (UnmarshalHeader_roundtrip s h) by
    (done || lia || by apply (slice_sub_wf _ _ _ _ Hs)). rewrite bind_ret.
  rewrite slice_from_eq by done. rewrite bind_ret.
  pose proof (drop_field 0 _ _ _ Hb') as Hq'. change (0 + length (Header_MarshalTo h))%nat with HeaderLen in Hq'.
  rewrite (UnmarshalQuestion_roundtrip fuel b _ q (concat (RR_MarshalTo <$> m_Answers m) ++ rest)).
  - rewrite bind_ret. cbv beta iota. rewrite Han, Nat2Z.id.
    rewrite (unmarshal_answers_roundtrip fuel _ (m_Answers m) _ rest); [|done|done| |].
    + rewrite bind_ret. unfold set_header. simpl. by rewrite length_fmap.
    + simpl. by apply (drop_field _ _ _ _ Hq').
    + simpl. by rewrite Hb.
  - unfold slice_wf, cap in *. simpl. rewrite length_drop. lia.
  - done.
  - by rewrite bytes_of_drop.
  - rewrite bytes_of_drop, length_drop, Hb by done. lia.
Qed.

Lemma Message_MarshalTo_length m w m' :
  Message_MarshalTo m = Ok (w, m') → (HeaderLen <= length w)%nat.
Proof.
  unfold Message_MarshalTo. cbv zeta. destruct (m_Question _) as [q|]; [|done]. intros [= <- _].
  apply Nat.leb_le. reflexivity.
Qed.

(** C4: every well-formed DNS message is written by [MarshalTo] and read back by [UnmarshalMessage]
    (from any buffer that starts with it, whatever follows) as the same header
    with the counts filled in, the same question and the same answers with the
    address of each A and AAAA record decoded. *)
Theorem dns_message_roundtrip m q :
  message_ok m q →
  ∃ w m', Message_MarshalTo m = Ok (w, m') ∧
    ∀ rest fuel, (length (w ++ rest) <= fuel)%nat →
      UnmarshalMessage fuel (slice_of (w ++ rest)) =
      Ok (MkMessage (m_Header m') (Some q) (parsed_rr <$> m_Answers m) [] []
            (slice_of (w ++ rest))).
Proof.
  intros Hok. destruct (Message_MarshalTo m) as [[w m']| | |] eqn:Hw;
    try (unfold Message_MarshalTo in Hw; cbn [set_header m_Question] in Hw;
         rewrite (mo_question _ _ Hok) in Hw; done).
  exists w, m'. split; [done|]. intros rest fuel Hf. by apply UnmarshalMessage_roundtrip.
Qed.
