(* ===== verification/DnsSafety.v ===== *)
(** dns/message.go: what [UnmarshalMessage] does on arbitrary bytes: when it
    returns, when it panics, when it never returns. *)
From S2P Require Import Prelude GoStd GoSlice DnsMessage.

(** ** No panic inside a name *)

Lemma UnmarshalDomainTo_safe fuel um sb b idx :
  slice_wf um → slice_wf b → (idx <= s_len b)%nat →
  UnmarshalDomainTo fuel um sb b idx ≠ Panic ∧
  ∀ name n, UnmarshalDomainTo fuel um sb b idx = Ok (name, n) → (idx <= n <= s_len b)%nat.
Proof.
  intros Hum. revert sb b idx. induction fuel as [|fuel IH]; intros sb b idx Hb Hi; [done|].
  cbn [UnmarshalDomainTo]. rewrite slice_from_eq by done. rewrite bind_ret. cbn [s_len].
  case_match eqn:E0; bools; [split; [done|intros; simplify_eq; lia]|].
  assert (∃ c, slice_get b idx = Ok c) as [c Hc].
  { unfold slice_get. rewrite (proj2 (Nat.ltb_lt _ _)) by lia.
    destruct (lookup_lt_is_Some_2 (s_mem b) idx) as [c Hc]; [unfold slice_wf, cap in Hb; lia|].
    exists c. by rewrite Hc. }
  rewrite Hc, bind_ret. case_match.
  - case_match; bools; [done|].
    destruct (slice_sub b idx (idx + 2)) as [s| | |] eqn:Es.
    2-4: unfold slice_sub, slice_wf in *;
         rewrite (proj2 (Nat.leb_le _ _)), (proj2 (Nat.leb_le _ (cap b))) in Es by lia; done.
    apply slice_sub_Ok in Es as [? ->]. rewrite bind_ret. unfold Uint16. cbn [s_len].
    rewrite (proj2 (Nat.ltb_ge _ _)), bind_ret by lia. case_match; bools; [done|].
    rewrite slice_from_eq by done. rewrite bind_ret.
    match goal with |- context [UnmarshalDomainTo fuel um sb ?t 0] =>
      destruct (IH sb t 0%nat) as [Hp _];
        [unfold slice_wf, cap in *; simpl; rewrite length_drop; lia|simpl; lia|];
      destruct (UnmarshalDomainTo fuel um sb t 0) as [[? ?]| | |] eqn:Er; try done end.
    simpl. split; [done|]. intros. simplify_eq. lia.
  - repeat (case_match; bools; [split; [done|intros; simplify_eq; lia]|]).
    destruct (slice_sub b (S idx) (S idx + Z.to_nat (b2z c))) as [s| | |] eqn:Es.
    2-4: unfold slice_sub, slice_wf in *;
         rewrite (proj2 (Nat.leb_le _ _)), (proj2 (Nat.leb_le _ (cap b))) in Es by lia; done.
    rewrite bind_ret. destruct (IH (write_label sb (bytes_of s)) b (S idx + Z.to_nat (b2z c))%nat)
      as [Hp Hr]; [done|lia|]. split; [done|]. intros name n Hn. apply Hr in Hn. lia.
Qed.

(** ** A name is read within as many steps as the message has bytes, or never *)

(** Where the reader of the message [um] goes from position [pos]: [None] when the
    name ends there (or an error is returned). *)
Definition next_pos (um : slice) (pos : nat) : option nat :=
  match drop pos (bytes_of um) with
  | [] => None
  | c :: rest =>
      if Z.land (b2z c) 192 =? 192 then
        match rest with
        | [] => None
        | d :: _ =>
            let offset := Z.to_nat (Z.land (be_val [c; d]) 16383) in
            if (s_len um <? offset)%nat then None else Some offset
        end
      else
        let size := Z.to_nat (b2z c) in
        if (size =? 0)%nat || (63 <? size)%nat || (s_len um <? pos + 1 + size)%nat then None
        else Some (pos + 1 + size)%nat
  end.

Fixpoint goes_on (um : slice) (n pos : nat) : bool :=
  match n with
  | O => true
  | S n => match next_pos um pos with Some p => goes_on um n p | None => false end
  end.

Lemma slice_get_drop s i :
  slice_wf s →
  slice_get s i = match drop i (bytes_of s) with c :: _ => Ok c | [] => Panic end.
Proof.
  intros Hwf. destruct (drop i (bytes_of s)) as [|c l] eqn:E; [|by eapply slice_get_bytes].
  assert (length (drop i (bytes_of s)) = 0%nat) as Hl by by rewrite E.
  rewrite length_drop, length_bytes_of in Hl by done.
  unfold slice_get. by rewrite (proj2 (Nat.ltb_ge _ _)) by lia.
Qed.

(** Whether the reader is still going after [fuel] steps depends on the position
    only, not on the text read so far. *)
Lemma UnmarshalDomainTo_goes_on fuel um sb o idx :
  slice_wf um → (o + idx <= s_len um)%nat →
  UnmarshalDomainTo fuel um sb (MkSlice (drop o (s_mem um)) (s_len um - o)) idx = OutOfFuel ↔
  goes_on um fuel (o + idx) = true.
Proof.
  intros Hum. revert sb o idx. induction fuel as [|fuel IH]; intros sb o idx Ho; [done|].
  set (b := MkSlice _ _).
  assert (slice_wf b) as Hb by (unfold slice_wf, cap in *; simpl; rewrite length_drop; lia).
  assert (bytes_of b = drop o (bytes_of um)) as Hbb by (apply bytes_of_drop; [done|lia]).
  assert (s_len b = s_len um - o)%nat as Hlb by done.
  cbn [UnmarshalDomainTo goes_on]. unfold next_pos.
  rewrite slice_from_eq by (done || lia). rewrite bind_ret. cbn [s_len].
  rewrite slice_get_drop, Hbb, drop_drop by done.
  assert (length (drop (o + idx) (bytes_of um)) = s_len um - (o + idx))%nat as Hlen
    by by rewrite length_drop, length_bytes_of.
  destruct (drop (o + idx) (bytes_of um)) as [|c rest] eqn:Ed; simpl in Hlen.
  { by rewrite (proj2 (Nat.eqb_eq _ _)) by lia. }
  rewrite (proj2 (Nat.eqb_neq _ _)), bind_ret by lia.
  destruct (Z.land (b2z c) 192 =? 192).
  - destruct rest as [|d rest]; simpl in Hlen.
    { by rewrite (proj2 (Nat.ltb_lt _ _)) by lia. }
    rewrite (proj2 (Nat.ltb_ge _ _)) by lia.
    rewrite (read16_sub b idx _ [c; d] rest), bind_ret; [|done|by rewrite Hbb, drop_drop|done|done].
    cbv zeta. case_match; bools; [done|]. rewrite slice_from_eq, bind_ret by done.
    specialize (IH sb (Z.to_nat (Z.land (be_val [c; d]) 16383)) 0%nat ltac:(lia)).
    rewrite Nat.add_0_r in IH. rewrite <- IH.
    by destruct (UnmarshalDomainTo fuel um sb _ 0) as [[? ?]| | |].
  - cbv zeta. destruct (Z.to_nat (b2z c) =? 0)%nat; [done|].
    destruct (63 <? Z.to_nat (b2z c))%nat; [done|]. rewrite Hlb. simpl orb.
    destruct (s_len um <? o + idx + 1 + Z.to_nat (b2z c))%nat eqn:El; bools.
    { by rewrite (proj2 (Nat.ltb_lt _ _)) by lia. }
    rewrite (proj2 (Nat.ltb_ge _ _)) by lia.
    destruct (slice_sub b (S idx) (S idx + Z.to_nat (b2z c))) as [s| | |] eqn:Es.
    2-4: unfold slice_sub, slice_wf in *;
         rewrite (proj2 (Nat.leb_le _ _)), (proj2 (Nat.leb_le _ (cap b))) in Es by lia; done.
    rewrite bind_ret. unfold b. rewrite IH by lia.
    by replace (o + (S idx + Z.to_nat (b2z c)))%nat with (o + idx + 1 + Z.to_nat (b2z c))%nat by lia.
Qed.

Lemma next_pos_lt um pos p : slice_wf um → next_pos um pos = Some p → (pos < s_len um)%nat.
Proof.
  intros Hwf H. unfold next_pos in H. destruct (drop pos (bytes_of um)) eqn:E; [done|].
  apply drop_cons_lt in E. by rewrite length_bytes_of in E.
Qed.

(** The reader started at a position stops after exactly [n] steps. *)
Inductive stops (um : slice) : nat → nat → Prop :=
| stops_here pos : next_pos um pos = None → stops um 1 pos
| stops_later n pos p : next_pos um pos = Some p → stops um n p → stops um (S n) pos.

Lemma stops_det um n m pos : stops um n pos → stops um m pos → n = m.
Proof.
  intros H. revert m. induction H as [pos H|n pos p Hp H IH]; intros m Hm; inversion Hm;
    simplify_eq; [done..|]. f_equal. by apply IH.
Qed.

Lemma stops_goes_on um n pos : stops um n pos → goes_on um n pos = false.
Proof. induction 1 as [pos H|n pos p Hp H IH]; simpl; [by rewrite H|by rewrite Hp]. Qed.

Lemma goes_on_false um n pos : goes_on um n pos = false → ∃ k, (k <= n)%nat ∧ stops um k pos.
Proof.
  revert pos. induction n as [|n IH]; intros pos H; [done|]. simpl in H.
  destruct (next_pos um pos) as [p|] eqn:E.
  - apply IH in H as (k & Hk & Hs). exists (S k). split; [lia|]. by econstructor.
  - exists 1%nat. split; [lia|]. by constructor.
Qed.

Lemma goes_on_mono um n m pos : (n <= m)%nat → goes_on um n pos = false → goes_on um m pos = false.
Proof.
  revert m pos. induction n as [|n IH]; intros m pos Hm H; [done|].
  destruct m as [|m]; [lia|]. simpl in *. destruct (next_pos um pos); [|done]. apply IH; [lia|done].
Qed.

(** A run that stops never visits a position twice: each position determines the
    number of steps that are left. *)
Lemma stops_positions um n pos :
  slice_wf um → stops um n pos →
  ∃ l, NoDup l ∧ S (length l) = n ∧
    ∀ x, x ∈ l → (x < s_len um)%nat ∧ ∃ k, (k <= n)%nat ∧ stops um k x.
Proof.
  intros Hwf. induction 1 as [pos H|n pos p Hp H (l & Hnd & Hl & Hx)].
  { exists []. split; [constructor|]. split; [done|]. intros x Hx. by apply not_elem_of_nil in Hx. }
  exists (pos :: l). split; [|split; [simpl; lia|]].
  - constructor; [|done]. intros (_ & k & Hk & Hs)%Hx.
    pose proof (stops_det _ _ _ _ Hs (stops_later _ _ _ _ Hp H)). lia.
  - intros x [->|Hin]%elem_of_cons.
    + split; [by eapply next_pos_lt|]. exists (S n). split; [done|]. by econstructor.
    + apply Hx in Hin as (? & k & ? & ?). split; [done|]. exists k. split; [lia|done].
Qed.

Lemma stops_bound um n pos : slice_wf um → stops um n pos → (n <= S (s_len um))%nat.
Proof.
  intros Hwf Hs. destruct (stops_positions um n pos Hwf Hs) as (l & Hnd & <- & Hl).
  assert (length l <= length (seq 0 (s_len um)))%nat as Hle.
  { apply submseteq_length, NoDup_submseteq; [done|]. intros x Hx. apply elem_of_seq.
    apply Hl in Hx as [? _]. lia. }
  rewrite length_seq in Hle. lia.
Qed.

Lemma UnmarshalDomainTo_mono fuel um sb b idx r :
  UnmarshalDomainTo fuel um sb b idx = r → r ≠ OutOfFuel →
  ∀ k, UnmarshalDomainTo (fuel + k) um sb b idx = r.
Proof.
  intros <-. revert sb b idx. induction fuel as [|fuel IH]; intros sb b idx Hr k; [done|].
  change (S fuel + k)%nat with (S (fuel + k)). cbn [UnmarshalDomainTo] in *.
  destruct (slice_from b idx) as [rest| | |]; try done. cbn [mbind outcome_bind] in Hr |- *.
  destruct (s_len rest =? 0)%nat; [done|].
  destruct (slice_get b idx) as [c| | |]; try done. cbn [mbind outcome_bind] in Hr |- *.
  destruct (Z.land (b2z c) 192 =? 192).
  - destruct (s_len rest <? 2)%nat; [done|].
    destruct (slice_sub b idx (idx + 2) ≫= _) as [off| | |]; try done. cbn [mbind outcome_bind] in Hr |- *.
    cbv zeta in *. destruct (s_len um <? Z.to_nat (Z.land off 16383))%nat; [done|].
    destruct (slice_from um (Z.to_nat (Z.land off 16383))) as [t| | |]; try done.
    cbn [mbind outcome_bind] in Hr |- *.
    rewrite IH; [done|]. intros E. rewrite E in Hr. done.
  - cbv zeta in *. destruct (Z.to_nat (b2z c) =? 0)%nat; [done|].
    destruct (63 <? Z.to_nat (b2z c))%nat; [done|].
    destruct (s_len b <? S idx + Z.to_nat (b2z c))%nat; [done|].
    destruct (slice_sub b (S idx) (S idx + Z.to_nat (b2z c))) as [s| | |]; try done.
    cbn [mbind outcome_bind] in Hr |- *. by apply IH.
Qed.

(** Reading a name at any position of a message either returns (a name or an
    error) within one more step than the message has bytes, and then more fuel
    does not change the answer, or it never returns: that much fuel decides. *)
Theorem domain_fuel_enough um sb o :
  slice_wf um → (o <= s_len um)%nat →
  let read fuel := UnmarshalDomainTo fuel um sb (MkSlice (drop o (s_mem um)) (s_len um - o)) 0 in
  (∀ fuel, read fuel = OutOfFuel) ∨
  ∃ r, r ≠ OutOfFuel ∧ r ≠ Panic ∧ ∀ fuel, (S (s_len um) <= fuel)%nat → read fuel = r.
Proof.
  intros Hwf Ho read.
  assert (∀ fuel, read fuel = OutOfFuel ↔ goes_on um fuel o = true) as Hgo.
  { intros fuel. unfold read. rewrite UnmarshalDomainTo_goes_on by (done || lia).
    by rewrite Nat.add_0_r. }
  destruct (goes_on um (S (s_len um)) o) eqn:E.
  - left. intros fuel. apply Hgo. destruct (goes_on um fuel o) eqn:Ef; [done|].
    apply goes_on_false in Ef as (k & _ & Hs). pose proof (stops_bound um k o Hwf Hs) as Hk.
    apply stops_goes_on, (goes_on_mono _ _ _ _ Hk) in Hs. congruence.
  - right. exists (read (S (s_len um))).
    assert (read (S (s_len um)) ≠ OutOfFuel) as Hne by (rewrite Hgo; congruence).
    split; [done|]. split.
    + apply UnmarshalDomainTo_safe; [done| |simpl; lia].
      unfold slice_wf, cap in *. simpl. rewrite length_drop. lia.
    + intros fuel Hf. replace fuel with (S (s_len um) + (fuel - S (s_len um)))%nat by lia.
      by apply UnmarshalDomainTo_mono.
Qed.

(** ** A pointer to itself *)

Lemma goes_on_self um pos : next_pos um pos = Some pos → ∀ n, goes_on um n pos = true.
Proof. intros H n. induction n as [|n IH]; simpl; [done|]. by rewrite H. Qed.

Lemma read_header b :
  slice_wf b → (HeaderLen <= s_len b)%nat →
  ∃ h, (s ← slice_to b HeaderLen; UnmarshalHeader s) = Ok h ∧
       ANCOUNT h = be_val (take 2 (drop 6 (bytes_of b))).
Proof.
  intros Hwf Hl. set (hb := take HeaderLen (bytes_of b)).
  assert (length hb = HeaderLen) as Hhb.
  { unfold hb. rewrite length_take, length_bytes_of by done. lia. }
  assert (∃ s, slice_to b HeaderLen = Ok s ∧ slice_wf s ∧ bytes_of s = hb ∧ s_len s = HeaderLen)
    as (s & Hs & Hws & Hbs & Hls).
  { eexists. split; [apply slice_sub_Ok; split; [unfold slice_wf in Hwf; lia|done]|].
    split; [unfold slice_wf, cap in *; cbn [s_mem s_len]; rewrite drop_0; lia|]. split; [|done].
    unfold hb, bytes_of. cbn [s_mem s_len]. rewrite firstn_firstn, drop_0. f_equal. lia. }
  rewrite Hs, bind_ret. unfold UnmarshalHeader. rewrite Hls, Nat.eqb_refl. simpl negb. cbv iota.
  assert (∀ i j, (i + 2 <= 12)%nat → j = (i + 2)%nat →
    (t ← slice_sub s i j; Uint16 t) = Ok (be_val (take 2 (drop i hb)))) as Hrd.
  { intros i j Hi ->. apply (read16_sub _ _ _ _ (drop 2 (drop i hb))); [done| | |done].
    - rewrite Hbs. by rewrite take_drop.
    - rewrite length_take, length_drop, Hhb. unfold HeaderLen. lia. }
  unfold slice_to, slice_from. rewrite Hls. unfold HeaderLen.
  rewrite !Hrd, !bind_ret by lia. eexists. split; [done|]. simpl. f_equal. unfold hb.
  rewrite skipn_firstn_comm, firstn_firstn. done.
Qed.

(** C40: a question whose name is a pointer to itself (12 bytes of any header, then
    C0 0C) never returns, with any amount of fuel: the recursion of
    [UnmarshalDomainTo] does not end. *)
Theorem dns_pointer_loop hdr rest fuel :
  length hdr = HeaderLen → (4 <= length rest)%nat →
  UnmarshalMessage fuel (slice_of (hdr ++ xc0 :: x0c :: rest)) = OutOfFuel.
Proof.
  intros Hh Hr. set (b := slice_of _). unfold UnmarshalMessage.
  assert (s_len b = HeaderLen + 2 + length rest)%nat as Hl.
  { unfold b, slice_of. cbn [s_len]. rewrite length_app, Hh. simpl length. lia. }
  assert (slice_wf b) as Hwf by apply slice_wf_of.
  rewrite (proj2 (Nat.ltb_ge _ _)) by (unfold HeaderLen in *; lia).
  destruct (read_header b Hwf ltac:(lia)) as (h & -> & _). rewrite bind_ret.
  rewrite slice_from_eq by (done || lia). rewrite bind_ret. unfold UnmarshalQuestion at 1.
  cbn [s_len]. rewrite (proj2 (Nat.leb_gt _ _)) by lia.
  assert (UnmarshalDomainTo fuel b [] (MkSlice (drop HeaderLen (s_mem b)) (s_len b - HeaderLen)) 0 =
    OutOfFuel) as Hloop; [|by rewrite Hloop].
  apply UnmarshalDomainTo_goes_on; [done|lia|]. apply goes_on_self. unfold next_pos, b.
  rewrite bytes_of_slice_of, Nat.add_0_r, <- Hh, drop_app_length.
  change (Z.land (b2z xc0) 192 =? 192) with true. cbv iota zeta.
  change (Z.to_nat (Z.land (be_val [xc0; x0c]) 16383)) with HeaderLen. fold b.
  rewrite (proj2 (Nat.ltb_ge _ _)) by lia. by rewrite Hh.
Qed.

(** ** Panics *)

(** Where the name of the question ends. *)
Definition question_name (fuel : nat) (b : slice) : outcome (list byte * nat) :=
  UnmarshalDomainTo fuel b [] (MkSlice (drop HeaderLen (s_mem b)) (s_len b - HeaderLen)) 0.

Definition ancount (b : slice) : Z := be_val (take 2 (drop 6 (bytes_of b))).

(** A message that announces an answer but ends inside the type or class of
    its question makes [UnmarshalMessage] panic, whatever the capacity of the
    buffer it was received in. *)
Theorem dns_truncated_question_panics fuel b name idx :
  slice_wf b → (HeaderLen + 5 < s_len b)%nat → question_name fuel b = Ok (name, idx) →
  (s_len b < HeaderLen + idx + 4)%nat → ancount b ≠ 0 →
  UnmarshalMessage fuel b = Panic.
Proof.
  intros Hwf Hl Hq Ht Ha. unfold UnmarshalMessage.
  rewrite (proj2 (Nat.ltb_ge _ _)) by lia.
  destruct (read_header b Hwf ltac:(lia)) as (h & -> & Han). rewrite bind_ret.
  rewrite slice_from_eq by (done || lia). rewrite bind_ret.
  set (s := MkSlice _ _). unfold UnmarshalQuestion.
  assert (s_len s = s_len b - HeaderLen)%nat as Hls by done.
  rewrite (proj2 (Nat.leb_gt _ _)) by lia.
  unfold question_name in Hq. fold s in Hq. rewrite Hq, bind_ret.
  cbv beta iota. destruct (read16_sub_cases s idx _ eq_refl) as [(_ & z1 & ->)|[_ ->]]; [|done].
  rewrite bind_ret.
  destruct (read16_sub_cases s (idx + 2) (idx + 4) ltac:(lia)) as [(_ & z2 & ->)|[_ ->]]; [|done].
  rewrite !bind_ret. cbv beta iota zeta.
  rewrite Han. fold (ancount b). pose proof (be_val_range (take 2 (drop 6 (bytes_of b)))) as Hrg.
  fold (ancount b) in Hrg. destruct (Z.to_nat (ancount b)) as [|k] eqn:Ek; [lia|].
  cbn [unmarshal_answers SetQuestion unMarshaled]. unfold UnmarshalRR.
  by rewrite slice_from_Panic by lia.
Qed.

(** The question's type and class are inside the message. *)
Definition question_complete (fuel : nat) (b : slice) : Prop :=
  ∀ name idx, question_name fuel b = Ok (name, idx) → (HeaderLen + idx + 4 <= s_len b)%nat.

(** Every record whose fixed part is inside the message is long enough for its
    address, wherever it starts. *)
Definition addresses_complete (fuel : nat) (b : slice) : Prop :=
  ∀ start name n type rdlength,
    (start <= s_len b)%nat →
    UnmarshalDomainTo fuel b [] (MkSlice (drop start (s_mem b)) (s_len b - start)) 0 = Ok (name, n) →
    (start + n + 10 < s_len b)%nat →
    type = be_val (take 2 (drop (start + n) (bytes_of b))) →
    rdlength = be_val (take 2 (drop (start + n + 8) (bytes_of b))) →
    (type = QTypeA → 4 <= rdlength) ∧ (type = QTypeAAAA → 16 <= rdlength).

Lemma slice_to_le s k : slice_wf s → (k <= s_len s)%nat → ∃ t, slice_to s k = Ok t.
Proof. intros. eexists. apply slice_sub_Ok. split; [unfold slice_wf in *; lia|done]. Qed.

Lemma take_drop_field {A} k n (l : list A) :
  (n + k <= length l)%nat → ∃ r, drop n l = take k (drop n l) ++ r ∧ length (take k (drop n l)) = k.
Proof.
  intros H. exists (drop k (drop n l)). rewrite take_drop. split; [done|].
  rewrite length_take, length_drop. lia.
Qed.

(** A record is read without a panic, and ends inside the message. *)
Lemma UnmarshalRR_safe fuel b start :
  slice_wf b → addresses_complete fuel b → (start <= s_len b)%nat →
  UnmarshalRR fuel b start ≠ Panic ∧
  ∀ rr n, UnmarshalRR fuel b start = Ok (rr, n) → (start + n <= s_len b)%nat.
Proof.
  intros Hwf Hac Hst. unfold UnmarshalRR. rewrite slice_from_eq, bind_ret by done.
  set (p := MkSlice _ _).
  assert (slice_wf p) as Hwp by (unfold slice_wf, cap in *; simpl; rewrite length_drop; lia).
  assert (s_len p = s_len b - start)%nat as Hlp by done.
  assert (bytes_of p = drop start (bytes_of b)) as Hbp by by apply bytes_of_drop.
  destruct (UnmarshalDomainTo_safe fuel b [] p 0 Hwf Hwp ltac:(lia)) as [Hnp _].
  destruct (UnmarshalDomainTo fuel b [] p 0) as [[name n]| | |] eqn:Ed; try done.
  rewrite bind_ret. cbv beta iota.
  destruct (s_len p <=? n + 10)%nat eqn:El; bools; [done|].
  assert (length (bytes_of p) = s_len p) as Hlb by by apply length_bytes_of.
  destruct (take_drop_field 2 n (bytes_of p)) as (? & H1 & Hl1); [lia|].
  destruct (take_drop_field 2 (n + 2) (bytes_of p)) as (? & H2 & Hl2); [lia|].
  destruct (take_drop_field 4 (n + 4) (bytes_of p)) as (? & H3 & Hl3); [lia|].
  destruct (take_drop_field 2 (n + 8) (bytes_of p)) as (? & H4 & Hl4); [lia|].
  rewrite (read16_from _ _ _ _ Hwp H1 Hl1), bind_ret, (read16_from _ _ _ _ Hwp H2 Hl2), bind_ret,
    (read32_from _ _ _ _ Hwp H3 Hl3), bind_ret, (read16_from _ _ _ _ Hwp H4 Hl4), bind_ret.
  rewrite Hbp, !drop_drop in *. rewrite Nat.add_assoc in *.
  destruct (Hac start name n _ _ Hst Ed ltac:(lia) eq_refl eq_refl) as [HA HAAAA].
  set (type := be_val (take 2 (drop (start + n) (bytes_of b)))) in *.
  set (rdl := be_val (take 2 (drop (start + n + 8) (bytes_of b)))) in *. cbv zeta.
  destruct (s_len p <? n + 10 + Z.to_nat rdl)%nat eqn:Er; bools; [done|].
  destruct (slice_sub p (n + 10) (n + 10 + Z.to_nat rdl)) as [s| | |] eqn:Es.
  2-4: unfold slice_sub, slice_wf in *;
       rewrite (proj2 (Nat.leb_le _ _)), (proj2 (Nat.leb_le _ (cap p))) in Es by lia; done.
  pose proof (slice_sub_wf _ _ _ _ Es) as Hws. apply slice_sub_Ok in Es as [_ Es].
  assert (s_len s = Z.to_nat rdl) as Hls by (rewrite Es; simpl; lia). clear Es.
  rewrite bind_ret.
  assert (∃ ip, rr_ip type s = Ok ip) as [ip ->].
  { unfold rr_ip. destruct (type =? QTypeA) eqn:EA; bools.
    { destruct (slice_to_le s 4 Hws) as [t ->]; [lia|]. rewrite bind_ret. eauto. }
    destruct (type =? QTypeAAAA) eqn:EB; bools; [|eauto].
    destruct (slice_to_le s 16 Hws) as [t ->]; [lia|]. rewrite bind_ret. eauto. }
  rewrite bind_ret. split; [done|]. intros. simplify_eq. lia.
Qed.

Lemma unmarshal_answers_safe fuel b k start m :
  slice_wf b → addresses_complete fuel b → (start <= s_len b)%nat → unMarshaled m = b →
  unmarshal_answers fuel k start m ≠ Panic.
Proof.
  intros Hwf Hac. revert start m. induction k as [|k IH]; intros start m Hst Hm; simpl; [done|].
  rewrite Hm. destruct (UnmarshalRR_safe fuel b start Hwf Hac Hst) as [Hnp Hn].
  destruct (UnmarshalRR fuel b start) as [[rr n]| | |]; try done. rewrite bind_ret. cbv beta iota.
  apply IH; [by apply (Hn rr)|done].
Qed.

Lemma UnmarshalMessage_safe fuel b :
  slice_wf b → question_complete fuel b → addresses_complete fuel b →
  UnmarshalMessage fuel b ≠ Panic.
Proof.
  intros Hwf Hqc Hac. unfold UnmarshalMessage.
  destruct (s_len b <? HeaderLen)%nat eqn:El; bools; [done|].
  destruct (read_header b Hwf El) as (h & -> & _). rewrite bind_ret.
  rewrite slice_from_eq, bind_ret by done.
  unfold question_complete, question_name in Hqc.
  assert (slice_wf (MkSlice (drop HeaderLen (s_mem b)) (s_len b - HeaderLen))) as Hws
    by (unfold slice_wf, cap in *; cbn [s_mem s_len]; rewrite length_drop; lia).
  destruct (UnmarshalDomainTo_safe fuel b [] _ 0 Hwf Hws ltac:(lia)) as [Hnp _].
  assert (s_len (MkSlice (drop HeaderLen (s_mem b)) (s_len b - HeaderLen)) =
    s_len b - HeaderLen)%nat as Hls by done.
  set (s := MkSlice _ _) in *. unfold UnmarshalQuestion.
  destruct (s_len s <=? 5)%nat; [done|].
  destruct (UnmarshalDomainTo fuel b [] s 0) as [[name idx]| | |]; try done.
  specialize (Hqc name idx eq_refl). rewrite bind_ret. cbv beta iota.
  assert (∀ i, (i <= 2)%nat → ¬ (cap s < idx + i + 2)%nat) as Hcap.
  { intros i Hi. unfold slice_wf, cap in *. cbn [s_mem] in *. lia. }
  destruct (read16_sub_cases s idx _ eq_refl) as [(_ & z1 & ->)|[H _]];
    [|specialize (Hcap 0%nat); lia]. rewrite bind_ret.
  destruct (read16_sub_cases s (idx + 2) (idx + 4) ltac:(lia)) as [(_ & z2 & ->)|[H _]];
    [|specialize (Hcap 2%nat); lia]. rewrite !bind_ret. cbv beta iota zeta.
  intros [H|(m & _ & H)]%bind_Panic; [|done]. revert H.
  apply (unmarshal_answers_safe fuel b); [done|done|lia|done].
Qed.

(** ** How much fuel decides *)

(** The name at a position of the message. *)
Definition name_at (fuel : nat) (b : slice) (o : nat) : outcome (list byte * nat) :=
  UnmarshalDomainTo fuel b [] (MkSlice (drop o (s_mem b)) (s_len b - o)) 0.
(** What is read of a name with the fuel [f] is what is read with [g]. *)
Definition agree (f g : nat) (b : slice) : Prop :=
  ∀ o, (o <= s_len b)%nat → name_at f b o = OutOfFuel ∨ name_at g b o = name_at f b o.

Lemma bind_OutOfFuel {A B} (m : outcome A) (f : A → outcome B) :
  m ≫= f = OutOfFuel → m = OutOfFuel ∨ ∃ a, m = Ok a ∧ f a = OutOfFuel.
Proof. destruct m; simpl; intros; simplify_eq; eauto. Qed.

Lemma UnmarshalRR_agree f g b start :
  slice_wf b → agree f g b →
  UnmarshalRR f b start = OutOfFuel ∨ UnmarshalRR g b start = UnmarshalRR f b start.
Proof.
  intros Hwf Hag. unfold UnmarshalRR. destruct (decide (start <= s_len b)%nat) as [Hs|Hs].
  - rewrite slice_from_eq by done. rewrite !bind_ret. fold (name_at f b start). fold (name_at g b start).
    destruct (Hag start Hs) as [->| ->]; [by left|by right].
  - right. by rewrite slice_from_Panic by lia.
Qed.
Lemma unmarshal_answers_agree f g k start m :
  slice_wf (unMarshaled m) → agree f g (unMarshaled m) →
  unmarshal_answers f k start m = OutOfFuel ∨ unmarshal_answers g k start m = unmarshal_answers f k start m.
Proof.
  revert start m. induction k as [|k IH]; intros start m Hwf Hag; simpl; [by right|].
  destruct (UnmarshalRR_agree f g _ start Hwf Hag) as [->| ->]; [by left|].
  destruct (UnmarshalRR f (unMarshaled m) start) as [[rr n]| | |]; [|by right..]. rewrite !bind_ret. by apply IH.
Qed.
Lemma UnmarshalMessage_agree f g b :
  slice_wf b → agree f g b →
  UnmarshalMessage f b = OutOfFuel ∨ UnmarshalMessage g b = UnmarshalMessage f b.
Proof.
  intros Hwf Hag. unfold UnmarshalMessage. destruct (s_len b <? HeaderLen)%nat eqn:El; bools; [by right|].
  destruct (slice_to b HeaderLen ≫= UnmarshalHeader) as [h| | |]; [|by right..]. rewrite !bind_ret.
  rewrite slice_from_eq by done. rewrite !bind_ret. unfold UnmarshalQuestion.
  destruct (_ <=? 5)%nat; [by right|]. fold (name_at f b HeaderLen). fold (name_at g b HeaderLen).
  destruct (Hag HeaderLen El) as [->| ->]; [by left|].
  match goal with |- ?q ≫= _ = _ ∨ _ => destruct q as [[q' n]| | |]; [|by right..] end. rewrite !bind_ret. cbv beta iota zeta.
  match goal with |- context [unmarshal_answers f ?k ?i ?m] => destruct (unmarshal_answers_agree f g k i m) as [->| ->] end;
    [done..|by left|by right].
Qed.

Lemma names_agree fuel b : slice_wf b → agree fuel (S (s_len b)) b.
Proof.
  intros Hwf o Ho. destruct (domain_fuel_enough b [] o Hwf Ho) as [H|(r & Hr & _ & H)]; [left; apply H|].
  destruct (name_at fuel b o) eqn:E; [..|by left]; right;
    (destruct (decide (S (s_len b) <= fuel)%nat) as [Hf|Hf];
     [unfold name_at in *; rewrite H, <- E by done; symmetry; by apply H
     |unfold name_at in *; replace (S (s_len b)) with (fuel + (S (s_len b) - fuel))%nat by lia; by apply UnmarshalDomainTo_mono]).
Qed.
Lemma names_decided fuel b : slice_wf b → (S (s_len b) <= fuel)%nat → agree (S (s_len b)) fuel b.
Proof.
  intros Hwf Hf o Ho. destruct (domain_fuel_enough b [] o Hwf Ho) as [H|(r & _ & _ & H)]; [left; apply H|].
  right. unfold name_at. by rewrite !H.
Qed.

(** Only a name can take for ever. *)
Lemma UnmarshalRR_OutOfFuel fuel b start :
  slice_wf b → UnmarshalRR fuel b start = OutOfFuel → ∃ o, (o <= s_len b)%nat ∧ name_at fuel b o = OutOfFuel.
Proof.
  intros Hwf. unfold UnmarshalRR. destruct (decide (start <= s_len b)%nat) as [Hs|Hs]; [|by rewrite slice_from_Panic by lia].
  rewrite slice_from_eq, bind_ret by done. fold (name_at fuel b start).
  destruct (name_at fuel b start) as [[name n]| | |] eqn:E; [|done..|by eauto]. rewrite bind_ret. cbv beta iota zeta.
  unfold rr_ip, slice_from, slice_to, slice_sub, Uint16, Uint32.
  repeat (case_match; simpl; try done).
Qed.
Lemma unmarshal_answers_OutOfFuel fuel k start m :
  slice_wf (unMarshaled m) → unmarshal_answers fuel k start m = OutOfFuel →
  ∃ o, (o <= s_len (unMarshaled m))%nat ∧ name_at fuel (unMarshaled m) o = OutOfFuel.
Proof.
  revert start m. induction k as [|k IH]; intros start m Hwf; simpl; [done|].
  intros [H|([rr n] & _ & H)]%bind_OutOfFuel; [by eapply UnmarshalRR_OutOfFuel|]. by apply (IH _ (AddAnswer rr m)) in H.
Qed.
Lemma UnmarshalMessage_OutOfFuel fuel b :
  slice_wf b → UnmarshalMessage fuel b = OutOfFuel → ∃ o, (o <= s_len b)%nat ∧ name_at fuel b o = OutOfFuel.
Proof.
  intros Hwf. unfold UnmarshalMessage. destruct (s_len b <? HeaderLen)%nat eqn:El; bools; [done|].
  destruct (read_header b Hwf El) as (h & -> & _). rewrite bind_ret. rewrite slice_from_eq, bind_ret by done.
  intros [H|([q n] & _ & H)]%bind_OutOfFuel.
  - unfold UnmarshalQuestion in H. destruct (_ <=? 5)%nat; [done|]. fold (name_at fuel b HeaderLen) in H.
    destruct (name_at fuel b HeaderLen) as [[name n]| | |] eqn:E; [|done..|by eauto]. rewrite bind_ret in H. cbv beta iota in H.
    exfalso. revert H. unfold slice_sub, Uint16. repeat (case_match; simpl; try done).
  - cbv beta iota zeta in H. apply bind_OutOfFuel in H as [H|(m & _ & H)]; [|done]. by apply unmarshal_answers_OutOfFuel in H.
Qed.

