(* ===== verification/DnsCache.v ===== *)
(** dns/cache.go: the LRU cache of answers, a hash map into a doubly linked list.

    The list items are heap objects that refer to each other by pointer; the
    model keeps the heap, and following a nil pointer is a panic.  The second
    half shows that the cache implements an abstract recency list. *)
From S2P Require Import Prelude.

Definition iid := nat.
Definition key := list byte.

Record item := MkItem {
  i_key : key; i_val : list byte; i_exp : Z; i_prev : option iid; i_next : option iid }.

Record LruCache := MkLru {
  l_size : Z;
  l_head : option iid;
  l_tail : option iid;
  l_cache : gmap key iid;
  l_store : gmap key (list byte);
  l_heap : gmap iid item;
  l_fresh : iid }.

Definition set_prev (v : option iid) (it : item) : item :=
  MkItem (i_key it) (i_val it) (i_exp it) v (i_next it).
Definition set_next (v : option iid) (it : item) : item :=
  MkItem (i_key it) (i_val it) (i_exp it) (i_prev it) v.
Definition set_val (v : list byte) (e : Z) (it : item) : item :=
  MkItem (i_key it) v e (i_prev it) (i_next it).

(** [p.field] and [p.field = v] through a pointer that may be nil. *)
Definition deref (h : gmap iid item) (p : option iid) : outcome item :=
  match p with
  | Some q => match h !! q with Some it => Ok it | None => Panic end
  | None => Panic
  end.
Definition assign (h : gmap iid item) (p : option iid) (f : item → item)
    : outcome (gmap iid item) :=
  it ← deref h p;
  match p with Some q => Ok (<[q := f it]> h) | None => Panic end.

Definition set_list (head tail : option iid) (h : gmap iid item) (c : LruCache) : LruCache :=
  MkLru (l_size c) head tail (l_cache c) (l_store c) h (l_fresh c).

Definition NewLruCache (size : Z) : LruCache :=
  let head := MkItem (lit "head") [] 0 None (Some 1%nat) in
  let tail := MkItem (lit "tail") [] 0 (Some 0%nat) None in
  MkLru size (Some 0%nat) (Some 1%nat)
    (<[lit "tail" := 1%nat]> (<[lit "head" := 0%nat]> ∅)) ∅
    (<[1%nat := tail]> (<[0%nat := head]> ∅)) 2%nat.

Definition putToHead (k : key) (v : list byte) (exp : Z) (c : LruCache) : outcome LruCache :=
  let it := l_fresh c in
  let h := <[it := MkItem k v exp None (l_head c)]> (l_heap c) in
  h ← assign h (l_head c) (set_prev (Some it));
  Ok (MkLru (l_size c) (Some it) (l_tail c) (<[k := it]> (l_cache c)) (l_store c) h (S it)).

Definition moveToHead (it : iid) (c : LruCache) : outcome LruCache :=
  if bool_decide (l_head c = Some it) then Ok c
  else
    c ← (if bool_decide (l_tail c = Some it) then
           x ← deref (l_heap c) (Some it);
           let tail := i_prev x in
           h ← assign (l_heap c) tail (set_next None);
           Ok (set_list (l_head c) tail h c)
         else
           x ← deref (l_heap c) (Some it);
           h ← assign (l_heap c) (i_prev x) (set_next (i_next x));
           x ← deref h (Some it);
           h ← assign h (i_next x) (set_prev (i_prev x));
           Ok (set_list (l_head c) (l_tail c) h c));
    h ← assign (l_heap c) (Some it) (set_prev None);
    h ← assign h (Some it) (set_next (l_head c));
    h ← assign h (l_head c) (set_prev (Some it));
    Ok (set_list (Some it) (l_tail c) h c).

Definition removeTail (c : LruCache) : outcome LruCache :=
  x ← deref (l_heap c) (l_tail c);
  let cache := delete (i_key x) (l_cache c) in
  h ← assign (l_heap c) (i_prev x) (set_next None);
  x ← deref h (l_tail c);
  Ok (MkLru (l_size c) (l_head c) (i_prev x) cache (l_store c) h (l_fresh c)).

(** [time.Now()] is [now], in nanoseconds since the epoch. *)
Definition unix (ns : Z) : Z := ns / second.

(** The value, whether it has expired, and the cache after the call; a nil slice
    is [[]]. *)
Definition lru_Get (k : key) (now : Z) (c : LruCache) : outcome (list byte * bool * LruCache) :=
  match l_store c !! k with
  | Some v => Ok (v, false, c)
  | None =>
      match l_cache c !! k with
      | Some it =>
          x ← deref (l_heap c) (Some it);
          c ← moveToHead it c;
          Ok (i_val x, i_exp x <? unix now, c)
      | None => Ok ([], false, c)
      end
  end.

Definition expiry (now ttl : Z) : Z := unix (now + i64 (second * ttl)).

Definition lru_Set (k : key) (v : list byte) (ttl now : Z) (c : LruCache) : outcome LruCache :=
  if ttl =? 0 then
    Ok (MkLru (l_size c) (l_head c) (l_tail c) (l_cache c) (<[k := v]> (l_store c)) (l_heap c)
          (l_fresh c))
  else
    let exp := expiry now ttl in
    match l_cache c !! k with
    | Some it =>
        h ← assign (l_heap c) (Some it) (set_val v exp);
        moveToHead it (set_list (l_head c) (l_tail c) h c)
    | None =>
        c ← putToHead k v exp c;
        if l_size c <? Z.of_nat (size (l_cache c)) then removeTail c else Ok c
    end.

(** ** The abstract cache *)

(** Entries, most recently used first. *)
Definition entry : Type := key * list byte * Z.
Definition e_key (e : entry) : key := e.1.1.

Record ALru := MkALru {
  a_size : Z; a_list : list entry; a_store : gmap key (list byte) }.

Definition lookup_entry (k : key) (l : list entry) : option entry :=
  snd <$> list_find (λ e, e_key e = k) l.
Definition without (k : key) (l : list entry) : list entry := filter (λ e, e_key e ≠ k) l.

Definition aNew (size : Z) : ALru :=
  MkALru size [(lit "head", [], 0); (lit "tail", [], 0)] ∅.

Definition aGet (k : key) (now : Z) (a : ALru) : list byte * bool * ALru :=
  match a_store a !! k with
  | Some v => (v, false, a)
  | None =>
      match lookup_entry k (a_list a) with
      | Some e => (e.1.2, e.2 <? unix now,
                   MkALru (a_size a) (e :: without k (a_list a)) (a_store a))
      | None => ([], false, a)
      end
  end.

(** A new key beyond the capacity drops the least recently used entry. *)
Definition aSet (k : key) (v : list byte) (ttl now : Z) (a : ALru) : ALru :=
  if ttl =? 0 then MkALru (a_size a) (a_list a) (<[k := v]> (a_store a))
  else
    let l := (k, v, expiry now ttl) :: without k (a_list a) in
    let l := match lookup_entry k (a_list a) with
             | Some _ => l
             | None => if a_size a <? Z.of_nat (length l) then removelast l else l
             end in
    MkALru (a_size a) l (a_store a).
