(* ===== verification/DnsCacheRef.v ===== *)
(** dns/cache.go: the linked cache implements the recency list. *)
From S2P Require Import Prelude DnsCache.

(** ** Doubly linked segments *)

Definition hd_or (l : list iid) (d : option iid) : option iid :=
  match l with [] => d | q :: _ => Some q end.
Definition last_or (d : option iid) (l : list iid) : option iid :=
  match last l with Some q => Some q | None => d end.

(** The items [l] of the heap are linked in order, between [pv] and [nx]. *)
Fixpoint seg (h : gmap iid item) (pv : option iid) (l : list iid) (nx : option iid) : Prop :=
  match l with
  | [] => True
  | p :: r =>
      ∃ it, h !! p = Some it ∧ i_prev it = pv ∧ i_next it = hd_or r nx ∧ seg h (Some p) r nx
  end.

Lemma last_or_cons d p l : last_or d (p :: l) = last_or (Some p) l.
Proof.
  unfold last_or. destruct l as [|x l]; [done|]. change (last (p :: x :: l)) with (last (x :: l)).
  destruct (last (x :: l)) eqn:E; [done|]. by apply last_None in E.
Qed.

Lemma seg_app h pv l1 l2 nx :
  seg h pv (l1 ++ l2) nx ↔ seg h pv l1 (hd_or l2 nx) ∧ seg h (last_or pv l1) l2 nx.
Proof.
  revert pv. induction l1 as [|p l1 IH]; intros pv; simpl; [naive_solver|].
  setoid_rewrite IH. rewrite last_or_cons.
  assert (hd_or (l1 ++ l2) nx = hd_or l1 (hd_or l2 nx)) as -> by by destruct l1.
  naive_solver.
Qed.

Lemma seg_frame h h' pv l nx :
  (∀ p, p ∈ l → h' !! p = h !! p) → seg h pv l nx → seg h' pv l nx.
Proof.
  revert pv. induction l as [|p l IH]; intros pv Hf; simpl; [done|].
  intros (it & Hp & ? & ? & Hs). exists it. rewrite Hf by by left.
  repeat split; [done..|]. apply IH; [|done]. intros q Hq. apply Hf. by right.
Qed.

Lemma seg_insert h pv l nx q it : q ∉ l → seg h pv l nx → seg (<[q := it]> h) pv l nx.
Proof. intros Hq. apply seg_frame. intros p Hp. apply lookup_insert_ne. by intros ->. Qed.

(** The two link updates, as total functions on the heap. *)
Definition upd (h : gmap iid item) (p : iid) (f : item → item) : gmap iid item := alter f p h.

Lemma assign_upd h p it f : h !! p = Some it → assign h (Some p) f = Ok (upd h p f).
Proof.
  intros Hp. unfold assign, deref, upd. rewrite Hp. simpl. f_equal. apply map_eq. intros q.
  destruct (decide (q = p)) as [->|].
  - by rewrite lookup_insert_eq, lookup_alter_eq, Hp.
  - by rewrite lookup_insert_ne, lookup_alter_ne.
Qed.

Lemma seg_upd_frame h p f pv l nx : p ∉ l → seg h pv l nx → seg (upd h p f) pv l nx.
Proof. intros Hp. apply seg_frame. intros q Hq. apply lookup_alter_ne. by intros ->. Qed.

Lemma seg_set_prev h pv p r nx v :
  p ∉ r → seg h pv (p :: r) nx → seg (upd h p (set_prev v)) v (p :: r) nx.
Proof.
  intros Hp (it & Hl & Hpv & Hn & Hs). simpl. exists (set_prev v it).
  unfold upd. rewrite lookup_alter_eq, Hl. repeat split; [done|]. by apply seg_upd_frame.
Qed.

Lemma seg_set_next h pv l p nx v :
  p ∉ l → seg h pv (l ++ [p]) nx → seg (upd h p (set_next v)) pv (l ++ [p]) v.
Proof.
  rewrite !seg_app. intros Hp [Hs (it & Hl & Hpv & Hn & _)].
  split; [by apply seg_upd_frame|]. simpl. exists (set_next v it).
  unfold upd. by rewrite lookup_alter_eq, Hl.
Qed.

Lemma seg_lookup h pv l1 p l2 nx :
  seg h pv (l1 ++ p :: l2) nx →
  ∃ it, h !! p = Some it ∧ i_prev it = last_or pv l1 ∧ i_next it = hd_or l2 nx.
Proof. intros [_ (it & ? & ? & ? & _)]%seg_app. by exists it. Qed.

(** What the items hold apart from their links. *)
Definition data (h : gmap iid item) (p : iid) : option entry :=
  (λ it, (i_key it, i_val it, i_exp it)) <$> h !! p.

Lemma data_upd h p f q :
  (∀ it, (i_key (f it), i_val (f it), i_exp (f it)) = (i_key it, i_val it, i_exp it)) →
  data (upd h p f) q = data h q.
Proof.
  intros Hf. unfold data, upd. destruct (decide (p = q)) as [->|].
  - rewrite lookup_alter_eq. destruct (h !! q); simpl; [|done]. by rewrite Hf.
  - by rewrite lookup_alter_ne.
Qed.

Lemma data_set_prev h p v q : data (upd h p (set_prev v)) q = data h q.
Proof. by apply data_upd. Qed.
Lemma data_set_next h p v q : data (upd h p (set_next v)) q = data h q.
Proof. by apply data_upd. Qed.

(** Moving an item to the front of its list: the heap after the link updates. *)
Definition relink_tail (h : gmap iid item) (q p hd : iid) : gmap iid item :=
  upd (upd (upd (upd h q (set_next None)) p (set_prev None)) p (set_next (Some hd)))
    hd (set_prev (Some p)).
Definition relink_mid (h : gmap iid item) (q p n hd : iid) : gmap iid item :=
  upd (upd (upd (upd (upd h q (set_next (Some n))) n (set_prev (Some q))) p (set_prev None))
    p (set_next (Some hd))) hd (set_prev (Some p)).

Lemma last_cons_split (hd : iid) m : ∃ l q, hd :: m = l ++ [q].
Proof.
  destruct m as [|x m] using rev_ind; [by exists [], hd|]. by exists (hd :: m), x.
Qed.

(** Putting a detached item in front of a list. *)
Lemma seg_push h p hd m it :
  p ∉ hd :: m → NoDup (hd :: m) → h !! p = Some it → seg h None (hd :: m) None →
  seg (upd (upd (upd h p (set_prev None)) p (set_next (Some hd))) hd (set_prev (Some p)))
    None (p :: hd :: m) None.
Proof.
  intros Hp [Hhd _]%NoDup_cons Hit Hs. assert (p ≠ hd) as Hne by set_solver.
  exists (set_next (Some hd) (set_prev None it)). split; [|split; [done|split; [done|]]].
  - unfold upd. rewrite lookup_alter_ne, !lookup_alter_eq, Hit by done. done.
  - eapply seg_set_prev; [done|]. do 2 (apply seg_upd_frame; [done|]). exact Hs.
Qed.

Lemma seg_relink_tail h l q p hd m :
  hd :: m = l ++ [q] → NoDup (l ++ [q; p]) → seg h None (l ++ [q; p]) None →
  seg (relink_tail h q p hd) None (p :: l ++ [q]) None.
Proof.
  intros Hl Hnd Hs. unfold relink_tail.
  replace (l ++ [q; p]) with ((l ++ [q]) ++ [p]) in * by by rewrite <- app_assoc.
  apply NoDup_app in Hnd as (Hnd1 & Hdis & _). assert (p ∉ l ++ [q]) as Hp by set_solver.
  apply seg_app in Hs as [Hs (it & Hit & _)].
  apply NoDup_app in Hnd1 as Hnd2. destruct Hnd2 as (_ & Hdq & _).
  apply (seg_set_next _ _ _ _ _ None) in Hs; [|set_solver].
  rewrite <- Hl in *. apply (seg_push _ _ _ _ it); [done|done| |done].
  unfold upd. rewrite lookup_alter_ne; [done|].
  intros ->. apply Hp. rewrite Hl. set_solver.
Qed.

Lemma seg_relink_mid h l q p n r hd m :
  hd :: m = l ++ [q] → NoDup (l ++ q :: p :: n :: r) → seg h None (l ++ q :: p :: n :: r) None →
  seg (relink_mid h q p n hd) None (p :: (l ++ [q]) ++ n :: r) None.
Proof.
  intros Hl Hnd Hs. unfold relink_mid.
  replace (l ++ q :: p :: n :: r) with ((l ++ [q]) ++ p :: n :: r) in * by by rewrite <- app_assoc.
  apply seg_app in Hs as [Hs1 (it & Hit & _ & _ & Hs2)].
  assert (NoDup ((l ++ [q]) ++ n :: r) ∧ p ∉ (l ++ [q]) ++ n :: r) as [Hnd' Hp].
  { assert (p :: (l ++ [q]) ++ n :: r ≡ₚ (l ++ [q]) ++ p :: n :: r) as HP
      by by rewrite Permutation_middle.
    rewrite <- HP in Hnd. apply NoDup_cons in Hnd. tauto. }
  pose proof Hnd' as (Hnd1 & Hdis & Hnd2)%NoDup_app.
  pose proof Hnd1 as (_ & Hdq & _)%NoDup_app. apply NoDup_cons in Hnd2 as [Hnr _].
  assert (n ∉ l ++ [q]) as Hn by (intros H; apply (Hdis n H); by left).
  assert (q ∉ n :: r) as Hq by (apply Hdis; set_solver).
  apply (seg_set_next _ _ _ _ _ (Some n)) in Hs1; [|set_solver].
  apply (seg_upd_frame _ n (set_prev (Some q))) in Hs1; [|done].
  apply (seg_upd_frame _ q (set_next (Some n))) in Hs2; [|done].
  apply (seg_set_prev _ _ _ _ _ (Some q)) in Hs2; [|done].
  assert (seg (upd (upd h q (set_next (Some n))) n (set_prev (Some q))) None
    ((l ++ [q]) ++ n :: r) None) as Hs.
  { apply seg_app. split; [done|]. unfold last_or. by rewrite last_snoc. }
  rewrite <- Hl in *. simpl in Hs |- *. apply (seg_push _ _ _ _ it); [done|done| |done].
  unfold upd. rewrite !lookup_alter_ne; [done| |].
  - intros ->. apply Hp. rewrite Hl. set_solver.
  - intros ->. apply Hp. set_solver.
Qed.

(** ** The representation *)

Definition node : Type := iid * entry.
Definition ids (ns : list node) : list iid := ns.*1.
Definition keys (ns : list node) : list key := e_key <$> ns.*2.
Definition index (ns : list node) : gmap key iid :=
  list_to_map ((λ n, (e_key n.2, n.1)) <$> ns).

(** The cache [c] holds the nodes [ns], in list order. *)
Record rep (c : LruCache) (ns : list node) : Prop := {
  rp_ids : NoDup (ids ns);
  rp_keys : NoDup (keys ns);
  rp_seg : seg (l_heap c) None (ids ns) None;
  rp_data : ∀ n, n ∈ ns → data (l_heap c) n.1 = Some n.2;
  rp_head : l_head c = hd_or (ids ns) None;
  rp_tail : l_tail c = last_or None (ids ns);
  rp_cache : l_cache c = index ns;
  rp_fresh : ∀ p, p ∈ ids ns → (p < l_fresh c)%nat;
  rp_len : (2 <= length ns)%nat;
}.

(** What it stands for. *)
Definition abs (c : LruCache) (ns : list node) : ALru := MkALru (l_size c) ns.*2 (l_store c).

Lemma index_perm ns ns' : NoDup (keys ns) → ns ≡ₚ ns' → index ns = index ns'.
Proof.
  intros Hnd Hp. unfold index. apply list_to_map_proper; [|by rewrite Hp].
  rewrite <- list_fmap_compose. unfold keys in Hnd. by rewrite <- list_fmap_compose in Hnd.
Qed.

Lemma index_Some ns k p :
  NoDup (keys ns) → index ns !! k = Some p → ∃ n1 e n2, ns = n1 ++ (p, e) :: n2 ∧ e_key e = k.
Proof.
  intros Hnd H. unfold index in H.
  apply elem_of_list_to_map_2, list_elem_of_fmap in H as ((q & e) & Heq & Hin).
  simplify_eq/=. apply list_elem_of_split in Hin as (n1 & n2 & ->). by exists n1, e, n2.
Qed.

Lemma index_None ns k : index ns !! k = None → k ∉ keys ns.
Proof.
  intros H%not_elem_of_list_to_map_2 Hin. apply H. unfold keys in Hin.
  rewrite <- list_fmap_compose in Hin. by rewrite <- list_fmap_compose.
Qed.

Lemma index_size ns : NoDup (keys ns) → size (index ns) = length ns.
Proof.
  intros Hnd. unfold index. rewrite map_size_list_to_map, length_fmap; [done|].
  rewrite <- list_fmap_compose. unfold keys in Hnd. by rewrite <- list_fmap_compose in Hnd.
Qed.

Lemma rep_perm_ids ns ns' : ns ≡ₚ ns' → ids ns ≡ₚ ids ns' ∧ keys ns ≡ₚ keys ns'.
Proof. intros Hp. unfold ids, keys. by rewrite Hp. Qed.

(** Rebuilding the representation after the nodes were re-linked in another order. *)
Lemma rep_relink c ns ns' h :
  rep c ns → ns ≡ₚ ns' → seg h None (ids ns') None →
  (∀ p, data h p = data (l_heap c) p) →
  rep (set_list (hd_or (ids ns') None) (last_or None (ids ns')) h c) ns'.
Proof.
  intros [Hi Hk Hs Hd Hh Ht Hc Hf Hl] Hp Hs' Hdata.
  destruct (rep_perm_ids _ _ Hp) as [Hpi Hpk]. split; simpl; try done.
  - by rewrite <- Hpi.
  - by rewrite <- Hpk.
  - intros n Hn. rewrite Hdata. apply Hd. by rewrite Hp.
  - rewrite Hc. by apply index_perm.
  - intros p. rewrite <- Hpi. apply Hf.
  - by rewrite <- Hp.
Qed.

Lemma is_Some_upd h p f q : is_Some (upd h p f !! q) ↔ is_Some (h !! q).
Proof. unfold upd. apply lookup_alter_is_Some. Qed.

Lemma deref_Some h p it : h !! p = Some it → deref h (Some p) = Ok it.
Proof. intros H. unfold deref. by rewrite H. Qed.

Lemma assign_Ok h p f : is_Some (h !! p) → assign h (Some p) f = Ok (upd h p f).
Proof. intros [it Hp]. by apply (assign_upd _ _ it). Qed.

Lemma seg_is_Some h pv l nx p : p ∈ l → seg h pv l nx → is_Some (h !! p).
Proof. intros (l1 & l2 & ->)%list_elem_of_split (it & ? & _)%seg_lookup. by eexists. Qed.

Lemma last_or_In d l x : last_or d l = Some x → x ∈ l ∨ d = Some x.
Proof.
  unfold last_or. destruct (last l) as [y|] eqn:E; [|by right]. intros [= ->]. left.
  apply last_Some in E as [l' ->]. set_solver.
Qed.

(** The code of [moveToHead] on an item between two others. *)
Lemma moveToHead_mid c l q p n r hd m :
  hd :: m = l ++ [q] → NoDup (l ++ q :: p :: n :: r) →
  seg (l_heap c) None (l ++ q :: p :: n :: r) None →
  l_head c = Some hd → l_tail c = last_or (Some n) r →
  moveToHead p c = Ok (set_list (Some p) (l_tail c) (relink_mid (l_heap c) q p n hd) c).
Proof.
  intros Hl Hnd Hs Hh Ht. unfold moveToHead.
  replace (l ++ q :: p :: n :: r) with ((l ++ [q]) ++ p :: n :: r) in * by by rewrite <- app_assoc.
  assert (∀ x, x ∈ (l ++ [q]) ++ p :: n :: r → is_Some (l_heap c !! x)) as Hin
    by (intros; by eapply seg_is_Some).
  destruct (seg_lookup _ _ _ _ _ _ Hs) as (it & Hit & Hpv & Hnx).
  unfold last_or in Hpv. rewrite last_snoc in Hpv. simpl in Hnx.
  apply NoDup_app in Hnd as (_ & Hdis & (Hpn & _)%NoDup_cons). rewrite <- Hl in *.
  assert (q ∈ hd :: m) as Hq by (rewrite Hl; set_solver).
  assert (p ≠ hd ∧ p ≠ q) as [Hne1 Hne2].
  { split; intros <-; apply (Hdis p); set_solver. }
  rewrite bool_decide_false by (rewrite Hh; congruence).
  rewrite bool_decide_false by (rewrite Ht; intros [?|?]%last_or_In; set_solver).
  rewrite (deref_Some _ _ _ Hit), bind_ret, Hpv, Hnx.
  rewrite assign_Ok, bind_ret by (apply Hin; set_solver).
  rewrite (deref_Some _ p it), bind_ret, Hpv, Hnx by (unfold upd; by rewrite lookup_alter_ne).
  rewrite assign_Ok by (rewrite is_Some_upd; apply Hin; set_solver). rewrite !bind_ret.
  cbn [set_list l_heap l_head l_tail].
  rewrite assign_Ok by (rewrite !is_Some_upd; apply Hin; set_solver). rewrite bind_ret.
  rewrite assign_Ok by (rewrite !is_Some_upd; apply Hin; set_solver). rewrite bind_ret, Hh.
  rewrite assign_Ok by (rewrite !is_Some_upd; apply Hin; set_solver). done.
Qed.

Lemma moveToHead_last c l q p hd m :
  hd :: m = l ++ [q] → NoDup (l ++ [q; p]) → seg (l_heap c) None (l ++ [q; p]) None →
  l_head c = Some hd → l_tail c = Some p →
  moveToHead p c = Ok (set_list (Some p) (Some q) (relink_tail (l_heap c) q p hd) c).
Proof.
  intros Hl Hnd Hs Hh Ht. unfold moveToHead.
  replace (l ++ [q; p]) with ((l ++ [q]) ++ [p]) in * by by rewrite <- app_assoc.
  assert (∀ x, x ∈ (l ++ [q]) ++ [p] → is_Some (l_heap c !! x)) as Hin
    by (intros; by eapply seg_is_Some).
  destruct (seg_lookup _ _ _ _ _ _ Hs) as (it & Hit & Hpv & Hnx).
  unfold last_or in Hpv. rewrite last_snoc in Hpv.
  apply NoDup_app in Hnd as (_ & Hdis & _). rewrite <- Hl in *.
  assert (q ∈ hd :: m) as Hq by (rewrite Hl; set_solver).
  assert (p ≠ hd) as Hne1 by (intros <-; apply (Hdis p); set_solver).
  rewrite bool_decide_false by (rewrite Hh; congruence).
  rewrite bool_decide_true by done.
  rewrite (deref_Some _ _ _ Hit), bind_ret, Hpv. cbv zeta.
  rewrite assign_Ok, !bind_ret by (apply Hin; set_solver).
  cbn [set_list l_heap l_head l_tail].
  rewrite assign_Ok by (rewrite !is_Some_upd; apply Hin; set_solver). rewrite bind_ret.
  rewrite assign_Ok by (rewrite !is_Some_upd; apply Hin; set_solver). rewrite bind_ret, Hh.
  rewrite assign_Ok by (rewrite !is_Some_upd; apply Hin; set_solver). done.
Qed.

Lemma data_relink_mid h q p n hd x : data (relink_mid h q p n hd) x = data h x.
Proof.
  unfold relink_mid. by rewrite data_set_prev, data_set_next, data_set_prev, data_set_prev,
    data_set_next.
Qed.
Lemma data_relink_tail h q p hd x : data (relink_tail h q p hd) x = data h x.
Proof. unfold relink_tail. by rewrite data_set_prev, data_set_next, data_set_prev, data_set_next. Qed.

(** [moveToHead] moves the item's node to the front and touches nothing else. *)
Lemma moveToHead_rep c n1 p e n2 :
  rep c (n1 ++ (p, e) :: n2) →
  ∃ c', moveToHead p c = Ok c' ∧ rep c' ((p, e) :: n1 ++ n2) ∧
        l_size c' = l_size c ∧ l_store c' = l_store c.
Proof.
  intros Hr. assert (n1 ++ (p, e) :: n2 ≡ₚ (p, e) :: n1 ++ n2) as HP
    by by rewrite Permutation_middle.
  pose proof Hr as [Hi _ Hs _ Hh Ht _ _ _].
  destruct n1 as [|(hd & ehd) m].
  { exists c. split; [|by split]. unfold moveToHead. simpl in Hh. by rewrite bool_decide_true. }
  destruct (last_cons_split hd (ids m)) as (l & q & Hl).
  assert (∀ Y, ids (((hd, ehd) :: m) ++ Y) = l ++ q :: ids Y) as Hids.
  { intros Y. unfold ids in *. rewrite fmap_app. csimpl. rewrite app_comm_cons, Hl.
    by rewrite <- app_assoc. }
  assert (l_head c = Some hd) as Hh' by done. rewrite Hids in Hi, Hs, Ht.
  destruct n2 as [|(n & en) r].
  - exists (set_list (Some p) (Some q) (relink_tail (l_heap c) q p hd) c).
    split; [apply (moveToHead_last c l q p hd (ids m)); try done|].
    { rewrite Ht. change (l ++ q :: ids [(p, e)]) with (l ++ [q] ++ [p]).
      unfold last_or. by rewrite app_assoc, last_snoc. }
    split; [|done].
    assert (ids ((p, e) :: ((hd, ehd) :: m) ++ []) = p :: l ++ [q]) as Hids'
      by (change (p :: ids (((hd, ehd) :: m) ++ []) = p :: l ++ [q]); by rewrite Hids).
    replace (Some q) with (last_or None (ids ((p, e) :: ((hd, ehd) :: m) ++ []))).
    2:{ rewrite Hids', app_comm_cons. unfold last_or. by rewrite last_snoc. }
    apply (rep_relink c _ _ _ Hr HP); [|apply data_relink_tail].
    rewrite Hids'. by apply (seg_relink_tail _ _ _ _ _ (ids m)).
  - assert (l_tail c = last_or (Some n) (ids r)) as Ht'.
    { rewrite Ht. change (l ++ q :: ids ((p, e) :: (n, en) :: r)) with (l ++ [q; p; n] ++ ids r).
      rewrite app_assoc. unfold last_or. rewrite last_app.
      destruct (last (ids r)); [done|]. change [q; p; n] with ([q; p] ++ [n]). by rewrite app_assoc, last_snoc. }
    exists (set_list (Some p) (l_tail c) (relink_mid (l_heap c) q p n hd) c).
    split; [by apply (moveToHead_mid c l q p n (ids r) hd (ids m))|]. split; [|done].
    assert (ids ((p, e) :: ((hd, ehd) :: m) ++ (n, en) :: r) = p :: (l ++ [q]) ++ n :: ids r) as Hids'.
    { change (p :: ids (((hd, ehd) :: m) ++ (n, en) :: r) = p :: (l ++ [q]) ++ n :: ids r).
      rewrite Hids. by rewrite <- app_assoc. }
    replace (l_tail c) with (last_or None (ids ((p, e) :: ((hd, ehd) :: m) ++ (n, en) :: r))).
    2:{ rewrite Ht', Hids'. change (n :: ids r) with ([n] ++ ids r). rewrite app_assoc, app_comm_cons.
        unfold last_or. rewrite last_app. destruct (last (ids r)); [done|].
        by rewrite app_comm_cons, last_snoc. }
    apply (rep_relink c _ _ _ Hr HP); [|apply data_relink_mid].
    rewrite Hids'. by apply (seg_relink_mid _ _ _ _ _ _ _ (ids m)).
Qed.

Lemma seg_links h h' pv l nx :
  (∀ p, (λ it, (i_prev it, i_next it)) <$> h' !! p = (λ it, (i_prev it, i_next it)) <$> h !! p) →
  seg h pv l nx → seg h' pv l nx.
Proof.
  intros Hh. revert pv. induction l as [|p l IH]; intros pv; simpl; [done|].
  intros (it & Hp & <- & Hn & Hs). specialize (Hh p). rewrite Hp in Hh.
  destruct (h' !! p) as [it'|]; simplify_eq/=. exists it'. split; [done|]. split; [congruence|].
  split; [congruence|]. by apply IH.
Qed.

(** Writing the value and expiry of an item. *)
Lemma set_val_rep c n1 p e n2 v x :
  rep c (n1 ++ (p, e) :: n2) →
  rep (set_list (l_head c) (l_tail c) (upd (l_heap c) p (set_val v x)) c)
    (n1 ++ (p, (e_key e, v, x)) :: n2).
Proof.
  intros [Hi Hk Hs Hd Hh Ht Hc Hf Hl].
  assert (ids (n1 ++ (p, (e_key e, v, x)) :: n2) = ids (n1 ++ (p, e) :: n2)) as Hids
    by (unfold ids; by rewrite !fmap_app).
  assert (keys (n1 ++ (p, (e_key e, v, x)) :: n2) = keys (n1 ++ (p, e) :: n2)) as Hkeys
    by (unfold keys; by rewrite !fmap_app).
  split; simpl; rewrite ?Hids, ?Hkeys; try done.
  - revert Hs. apply seg_links. intros q. unfold upd. destruct (decide (p = q)) as [->|].
    + rewrite lookup_alter_eq. by destruct (l_heap c !! q).
    + by rewrite lookup_alter_ne.
  - intros n Hn. unfold data, upd. destruct (decide (n = (p, (e_key e, v, x)))) as [->|Hne].
    + pose proof (Hd (p, e) ltac:(set_solver)) as Hpe. unfold data in Hpe. simpl in *.
      rewrite lookup_alter_eq. destruct (l_heap c !! p); simplify_eq/=. done.
    + assert (n ∈ n1 ++ (p, e) :: n2 ∧ n.1 ≠ p) as [Hin Hnp].
      { unfold ids in Hi. rewrite fmap_app in Hi. csimpl in Hi.
        apply NoDup_app in Hi as (_ & Hdis & (Hp2 & _)%NoDup_cons).
        apply elem_of_app in Hn as [Hn|[->|Hn]%elem_of_cons]; [|done|].
        - split; [set_solver|]. intros <-. apply (Hdis n.1); [|by left].
          apply list_elem_of_fmap. by exists n.
        - split; [set_solver|]. intros <-. apply Hp2, list_elem_of_fmap. by exists n. }
      rewrite lookup_alter_ne by done. by apply Hd.
  - rewrite Hc. unfold index. by rewrite !fmap_app.
  - rewrite length_app in *. done.
Qed.

Lemma putToHead_rep c ns k v x :
  rep c ns → k ∉ keys ns →
  ∃ c', putToHead k v x c = Ok c' ∧ rep c' ((l_fresh c, (k, v, x)) :: ns) ∧
        l_size c' = l_size c ∧ l_store c' = l_store c.
Proof.
  intros [Hi Hk Hs Hd Hh Ht Hc Hf Hl] Hkn. unfold putToHead.
  destruct ns as [|(hd & ehd) m]; [simpl in Hl; lia|]. set (p := l_fresh c) in *.
  assert (p ∉ ids ((hd, ehd) :: m)) as Hp by (intros Hin%Hf; lia).
  assert (∀ n, n ∈ (hd, ehd) :: m → n.1 ≠ p) as Hnp.
  { intros n Hn <-. apply Hp, list_elem_of_fmap. by exists n. }
  assert (p ≠ hd) as Hne by (apply not_eq_sym, (Hnp (hd, ehd)); by left).
  assert (is_Some (l_heap c !! hd)) as Hhd.
  { eapply seg_is_Some; [|exact Hs]. by left. }
  rewrite Hh. cbn [ids hd_or fmap list_fmap fst].
  rewrite assign_Ok by by rewrite lookup_insert_ne. rewrite bind_ret.
  eexists. split; [done|]. split; [|done]. split; simpl.
  - by constructor.
  - by constructor.
  - eexists. unfold upd. rewrite lookup_alter_ne, lookup_insert_eq by done.
    split; [done|]. split; [done|]. split; [done|].
    apply (seg_set_prev _ None hd (ids m)); [by apply NoDup_cons in Hi as [? _]|].
    by apply (seg_insert _ _ (hd :: ids m)).
  - intros n [->|Hn]%elem_of_cons.
    + unfold data, upd. simpl. by rewrite lookup_alter_ne, lookup_insert_eq.
    + rewrite data_set_prev. unfold data. rewrite lookup_insert_ne by by apply not_eq_sym, Hnp.
      by apply Hd.
  - done.
  - rewrite Ht. unfold ids. csimpl. by rewrite (last_or_cons None p), !last_or_cons.
  - rewrite Hc. done.
  - intros q [->|Hq]%elem_of_cons; [lia|]. apply Hf in Hq. lia.
  - lia.
Qed.

Lemma index_delete_last ns p e :
  NoDup (keys (ns ++ [(p, e)])) → delete (e_key e) (index (ns ++ [(p, e)])) = index ns.
Proof.
  intros Hnd. rewrite (index_perm (ns ++ [(p, e)]) ((p, e) :: ns)).
  - unfold index. csimpl. apply delete_insert_id. 
    unfold keys in Hnd. rewrite !fmap_app in Hnd. apply NoDup_app in Hnd as (_ & Hdis & _).
    apply not_elem_of_list_to_map_1. rewrite <- list_fmap_compose. intros Hin.
    apply (Hdis (e_key e)); [|by left]. by rewrite <- list_fmap_compose.
  - done.
  - by rewrite Permutation_app_comm.
Qed.

Lemma removeTail_rep c ns p e :
  rep c (ns ++ [(p, e)]) → (2 <= length ns)%nat →
  ∃ c', removeTail c = Ok c' ∧ rep c' ns ∧ l_size c' = l_size c ∧ l_store c' = l_store c.
Proof.
  intros [Hi Hk Hs Hd Hh Ht Hc Hf Hl] Hl2. unfold removeTail.
  assert (∃ l q, ids ns = l ++ [q]) as (l & q & Hq).
  { destruct ns as [|(hd & ehd) m]; [simpl in Hl2; lia|]. apply last_cons_split. }
  assert (ids (ns ++ [(p, e)]) = (l ++ [q]) ++ [p]) as Hids
    by (unfold ids in *; rewrite fmap_app, Hq; done).
  rewrite Hids in Hi, Hs, Ht, Hh. unfold last_or in Ht. rewrite last_snoc in Ht.
  pose proof Hs as [Hs1 (it & Hit & Hpv & _)]%seg_app.
  unfold last_or in Hpv. rewrite last_snoc in Hpv.
  pose proof (Hd (p, e) ltac:(set_solver)) as Hpe. unfold data in Hpe. simpl in Hpe.
  rewrite Hit in Hpe. simpl in Hpe. injection Hpe as Hpe.
  apply NoDup_app in Hi as (Hi & Hdis & _).
  assert (p ≠ q) as Hne by (intros ->; apply (Hdis q); set_solver).
  rewrite Ht, (deref_Some _ _ _ Hit), bind_ret, Hpv. cbv zeta.
  rewrite assign_Ok by (apply (seg_is_Some _ _ _ _ q) in Hs1; [done|set_solver]).
  rewrite bind_ret, (deref_Some _ p it), bind_ret by (unfold upd; by rewrite lookup_alter_ne).
  eexists. split; [done|]. split; [|done]. split; simpl.
  - by rewrite Hq.
  - unfold keys in *. rewrite !fmap_app in Hk. by apply NoDup_app in Hk as [? _].
  - rewrite Hq. eapply seg_set_next; [|exact Hs1].
    apply NoDup_app in Hi as (_ & Hd' & _). intros H. apply (Hd' q H). by left.
  - intros n Hn. rewrite data_set_next. apply Hd. set_solver.
  - rewrite Hh, Hq. by destruct l.
  - rewrite Hpv, Hq. unfold last_or. by rewrite last_snoc.
  - rewrite Hc. replace (i_key it) with (e_key e) by by rewrite <- Hpe.
    by apply (index_delete_last _ p).
  - intros x Hx. apply Hf. unfold ids in *. rewrite fmap_app. set_solver.
  - done.
Qed.

(** ** Operations *)

Lemma without_notin k l : k ∉ e_key <$> l → lookup_entry k l = None ∧ without k l = l.
Proof.
  intros Hk. split.
  - unfold lookup_entry. rewrite (proj2 (list_find_None _ _)); [done|].
    apply Forall_forall. intros e He <-. apply Hk, list_elem_of_fmap. by exists e.
  - unfold without. induction l as [|e l IH]; [done|]. csimpl in Hk.
    rewrite filter_cons, decide_True by set_solver. f_equal. apply IH. set_solver.
Qed.

Lemma without_split k e l1 l2 :
  NoDup (e_key <$> l1 ++ e :: l2) → e_key e = k →
  lookup_entry k (l1 ++ e :: l2) = Some e ∧ without k (l1 ++ e :: l2) = l1 ++ l2.
Proof.
  intros Hnd <-. rewrite fmap_app in Hnd. csimpl in Hnd.
  apply NoDup_app in Hnd as (_ & Hdis & (H2 & _)%NoDup_cons).
  assert (e_key e ∉ e_key <$> l1) as H1 by (intros H; apply (Hdis _ H); by left).
  destruct (without_notin _ _ H1) as [Hl1 Hw1]. destruct (without_notin _ _ H2) as [_ Hw2].
  split.
  - unfold lookup_entry in *. destruct (list_find _ l1) eqn:E; [done|].
    rewrite list_find_app_r by done. simpl. by rewrite decide_True.
  - unfold without in *. rewrite filter_app, filter_cons, decide_False by naive_solver.
    by rewrite Hw1, Hw2.
Qed.

Lemma lru_Get_store c k v now : l_store c !! k = Some v → lru_Get k now c = Ok (v, false, c).
Proof. intros H. unfold lru_Get. by rewrite H. Qed.

Lemma lru_Get_rep c ns k now :
  rep c ns →
  ∃ v b c' ns', lru_Get k now c = Ok (v, b, c') ∧ rep c' ns' ∧
    aGet k now (abs c ns) = (v, b, abs c' ns').
Proof.
  intros Hr. unfold lru_Get, aGet, abs. simpl.
  destruct (l_store c !! k) as [v|] eqn:Est; [by eauto 10|].
  rewrite (rp_cache _ _ Hr). destruct (index ns !! k) as [p|] eqn:Ei.
  - apply index_Some in Ei as (n1 & e & n2 & -> & Hk); [|apply Hr].
    pose proof (rp_data _ _ Hr (p, e) ltac:(set_solver)) as Hd. unfold data in Hd. simpl in Hd.
    unfold deref. destruct (l_heap c !! p) as [it|]; [|done]. simpl in Hd. injection Hd as <-.
    destruct (moveToHead_rep _ _ _ _ _ Hr) as (c' & -> & Hr' & Hsz & Hst). simpl.
    pose proof (rp_keys _ _ Hr) as Hnd. unfold keys in Hnd. rewrite fmap_app in Hnd. csimpl in Hnd.
    destruct (without_split k _ _ _ Hnd Hk) as [Hl Hw].
    eexists _, _, c', _. split; [done|]. split; [exact Hr'|].
    rewrite !fmap_app. csimpl. rewrite Hl, Hw. rewrite Hsz, Hst, fmap_app. done.
  - apply index_None in Ei. destruct (without_notin k ns.*2 Ei) as [-> _]. by eauto 10.
Qed.

Lemma removelast_fmap {A B} (f : A → B) l x : removelast (f <$> l ++ [x]) = f <$> l.
Proof. rewrite fmap_app. csimpl. by rewrite removelast_last. Qed.

Lemma lru_Set_rep c ns k v ttl now :
  rep c ns →
  ∃ c' ns', lru_Set k v ttl now c = Ok c' ∧ rep c' ns' ∧
    aSet k v ttl now (abs c ns) = abs c' ns'.
Proof.
  intros Hr. unfold lru_Set, aSet, abs. cbn [a_size a_list a_store].
  destruct (ttl =? 0).
  { eexists _, ns. split; [done|]. split; [|done]. by destruct Hr. }
  rewrite (rp_cache _ _ Hr). destruct (index ns !! k) as [p|] eqn:Ei.
  - apply index_Some in Ei as (n1 & e & n2 & -> & <-); [|apply Hr].
    pose proof (rp_data _ _ Hr (p, e) ltac:(set_solver)) as Hd. unfold data in Hd. simpl in Hd.
    rewrite assign_Ok, bind_ret by (destruct (l_heap c !! p); [by eexists|done]).
    destruct (moveToHead_rep _ _ _ _ _ (set_val_rep _ _ _ _ _ v (expiry now ttl) Hr))
      as (c' & -> & Hr' & Hsz & Hst).
    pose proof (rp_keys _ _ Hr) as Hnd. unfold keys in Hnd. rewrite fmap_app in Hnd. csimpl in Hnd.
    destruct (without_split (e_key e) _ _ _ Hnd eq_refl) as [Hl Hw].
    eexists c', _. split; [done|]. split; [exact Hr'|].
    rewrite !fmap_app. csimpl. rewrite Hl, Hw, Hsz, Hst, fmap_app. done.
  - apply index_None in Ei. destruct (without_notin k ns.*2 Ei) as [-> ->].
    destruct (putToHead_rep c ns k v (expiry now ttl) Hr Ei) as (c1 & -> & Hr1 & Hsz & Hst).
    rewrite bind_ret, (rp_cache _ _ Hr1), index_size by apply Hr1. rewrite Hsz.
    change ((k, v, expiry now ttl) :: ns.*2) with (((l_fresh c, (k, v, expiry now ttl)) :: ns).*2).
    rewrite length_fmap. destruct (l_size c <? _).
    + destruct (exists_last (l := (l_fresh c, (k, v, expiry now ttl)) :: ns)) as (ns0 & (p & e) & E);
        [done|]. rewrite E in Hr1 |- *.
      destruct (removeTail_rep _ _ _ _ Hr1) as (c2 & -> & Hr2 & Hsz2 & Hst2).
      { pose proof (rp_len _ _ Hr). apply (f_equal length) in E. rewrite length_app in E.
        simpl in E. unfold node, entry in *. lia. }
      eexists c2, ns0. split; [done|]. split; [done|].
      rewrite removelast_fmap, Hsz2, Hst2, Hsz, Hst. done.
    + eexists c1, _. split; [done|]. split; [done|]. by rewrite Hsz, Hst.
Qed.

Lemma NewLruCache_rep n : rep (NewLruCache n) [(0%nat, (lit "head", [], 0)); (1%nat, (lit "tail", [], 0))].
Proof.
  split; try done.
  - apply (bool_decide_unpack _). vm_compute. done.
  - apply (bool_decide_unpack _). vm_compute. done.
  - eexists. split; [done|]. split; [done|]. split; [done|]. eexists. by split.
  - intros n' [->|[->|?%not_elem_of_nil]%elem_of_cons]%elem_of_cons; done.
  - intros p [->|[->|?%not_elem_of_nil]%elem_of_cons]%elem_of_cons; simpl; lia || done.
Qed.

(** ** Runs *)

Inductive cache_op := CGet (k : key) (now : Z) | CSet (k : key) (v : list byte) (ttl now : Z).
Definition op_key (o : cache_op) : key := match o with CGet k _ | CSet k _ _ _ => k end.

(** A sequence of calls: the answers of the [Get]s, in order. *)
Fixpoint lru_run (ops : list cache_op) (c : LruCache) : outcome (list (list byte * bool) * LruCache) :=
  match ops with
  | [] => Ok ([], c)
  | CGet k now :: ops =>
      r ← lru_Get k now c;
      let '(v, b, c) := r in
      r ← lru_run ops c;
      let '(out, c) := r in Ok ((v, b) :: out, c)
  | CSet k v ttl now :: ops => c ← lru_Set k v ttl now c; lru_run ops c
  end.

Fixpoint a_run (ops : list cache_op) (a : ALru) : list (list byte * bool) * ALru :=
  match ops with
  | [] => ([], a)
  | CGet k now :: ops =>
      let '(v, b, a) := aGet k now a in
      let '(out, a) := a_run ops a in ((v, b) :: out, a)
  | CSet k v ttl now :: ops => a_run ops (aSet k v ttl now a)
  end.

Lemma a_run_size ops a : a_size (a_run ops a).2 = a_size a.
Proof.
  revert a. induction ops as [|[k now|k v ttl now] ops IH]; intros a; simpl; [done| |].
  - destruct (aGet k now a) as [[v b] a1] eqn:E. destruct (a_run ops a1) eqn:E1.
    simpl. specialize (IH a1). rewrite E1 in IH. simpl in IH. rewrite IH.
    unfold aGet in E. by repeat case_match; simplify_eq.
  - rewrite IH. unfold aSet. by case_match.
Qed.

Lemma lru_run_rep ops c ns :
  rep c ns →
  ∃ out c' ns', lru_run ops c = Ok (out, c') ∧ rep c' ns' ∧ a_run ops (abs c ns) = (out, abs c' ns').
Proof.
  revert c ns. induction ops as [|[k now|k v ttl now] ops IH]; intros c ns Hr; simpl.
  - by eauto 10.
  - destruct (lru_Get_rep c ns k now Hr) as (v & b & c1 & ns1 & -> & Hr1 & ->).
    destruct (IH c1 ns1 Hr1) as (out & c2 & ns2 & HR & Hr2 & HA). rewrite bind_ret.
    cbv beta iota. rewrite HR, HA. by eauto 10.
  - destruct (lru_Set_rep c ns k v ttl now Hr) as (c1 & ns1 & -> & Hr1 & ->).
    rewrite bind_ret. by apply IH.
Qed.

(** C3: the linked cache implements the recency list: any sequence of [Get] and
    [Set] calls on a new cache runs without a nil dereference and answers exactly
    as a list kept in order of last use does, and then holds the same entries. *)
Theorem lru_refines n ops :
  ∃ out c' ns, lru_run ops (NewLruCache n) = Ok (out, c') ∧ rep c' ns ∧
    a_run ops (aNew n) = (out, MkALru n ns.*2 (l_store c')).
Proof.
  destruct (lru_run_rep ops (NewLruCache n) _ (NewLruCache_rep n)) as (out & c' & ns' & HR & Hr & HA).
  exists out, c', ns'. split; [done|]. split; [done|].
  change (abs (NewLruCache n) _) with (aNew n) in HA. rewrite HA. unfold abs. do 2 f_equal.
  pose proof (a_run_size ops (aNew n)) as Hsz. by rewrite HA in Hsz.
Qed.

(** Keys are distinct in the list. *)
Definition a_ok (a : ALru) : Prop := NoDup (e_key <$> a_list a).

Lemma lookup_entry_Some k l e :
  lookup_entry k l = Some e → e_key e = k ∧ ∃ l1 l2, l = l1 ++ e :: l2.
Proof.
  unfold lookup_entry. destruct (list_find _ l) as [[i x]|] eqn:E; simpl; [|done].
  intros [= ->]. apply list_find_Some in E as (Hi & Hk & _). split; [done|].
  apply list_elem_of_split. by eapply list_elem_of_lookup_2.
Qed.

Lemma lookup_entry_None k l : lookup_entry k l = None → k ∉ e_key <$> l.
Proof.
  unfold lookup_entry. destruct (list_find _ l) as [[i x]|] eqn:E; simpl; [done|]. intros _.
  apply list_find_None in E. intros (e & -> & He)%list_elem_of_fmap.
  rewrite Forall_forall in E. by apply (E e).
Qed.

(** Every key is listed once, and there are at most [max size 2] entries. *)
Lemma a_step_bound k e l n :
  NoDup (e_key <$> l) → e_key e = k → (2 <= length l)%nat →
  let l1 := e :: without k l in
  let l2 := match lookup_entry k l with
            | Some _ => l1
            | None => if n <? Z.of_nat (length l1) then removelast l1 else l1
            end in
  NoDup (e_key <$> l2) ∧ (2 <= length l2)%nat ∧
  (Z.of_nat (length l) <= Z.max n 2 → Z.of_nat (length l2) <= Z.max n 2).
Proof.
  intros Hnd Hk Hl. cbv zeta. destruct (lookup_entry k l) as [x|] eqn:E.
  - apply lookup_entry_Some in E as (Hx & l1 & l2 & ->).
    destruct (without_split k _ _ _ Hnd Hx) as [_ ->]. csimpl.
    assert (e_key e :: (e_key <$> l1 ++ l2) ≡ₚ e_key <$> l1 ++ x :: l2) as HP.
    { rewrite !fmap_app. csimpl. rewrite Hk, Hx. by rewrite Permutation_middle. }
    rewrite HP, !length_app in *. simpl in *. split; [done|]. lia.
  - apply lookup_entry_None in E. destruct (without_notin k l E) as [_ ->].
    assert (NoDup (e_key <$> e :: l)) as Hnd' by (csimpl; constructor; [by rewrite Hk|done]).
    destruct (exists_last (l := e :: l)) as (l0 & y & El); [done|].
    assert (length l = length l0) as Hlen.
    { apply (f_equal length) in El. rewrite length_app in El. simpl in El. lia. }
    case_match eqn:En; bools.
    + rewrite El in *. rewrite removelast_last. rewrite fmap_app in Hnd'.
      apply NoDup_app in Hnd' as [? _]. split; [done|]. lia.
    + split; [done|]. simpl in *. lia.
Qed.

Lemma a_run_bound ops a :
  a_ok a → (2 <= length (a_list a))%nat → Z.of_nat (length (a_list a)) <= Z.max (a_size a) 2 →
  a_ok (a_run ops a).2 ∧ (2 <= length (a_list (a_run ops a).2))%nat ∧
  Z.of_nat (length (a_list (a_run ops a).2)) <= Z.max (a_size a) 2.
Proof.
  revert a. induction ops as [|[k now|k v ttl now] ops IH]; intros a Ha H2 Hb; simpl; [done| |].
  - destruct (aGet k now a) as [[v b] a1] eqn:E. destruct (a_run ops a1) as [out a2] eqn:E1. simpl.
    assert (a_ok a1 ∧ (2 <= length (a_list a1))%nat ∧
      Z.of_nat (length (a_list a1)) <= Z.max (a_size a) 2 ∧ a_size a1 = a_size a) as (? & ? & ? & Hsz).
    { unfold aGet in E. destruct (a_store a !! k); [by simplify_eq|].
      destruct (lookup_entry k (a_list a)) as [e|] eqn:El; simplify_eq; [|done].
      pose proof El as (He & _)%lookup_entry_Some.
      pose proof (a_step_bound k e (a_list a) (a_size a) Ha He H2) as (? & ? & ?).
      rewrite El in *. simpl in *. auto. }
    specialize (IH a1). rewrite E1, Hsz in IH. by apply IH.
  - unfold aSet in *. destruct (ttl =? 0); [by apply (IH (MkALru _ _ _))|]. cbv zeta.
    pose proof (a_step_bound k (k, v, expiry now ttl) (a_list a) (a_size a) Ha eq_refl H2)
      as (? & ? & ?).
    apply (IH (MkALru _ _ _)); simpl; auto.
Qed.

(** The cache never holds more than [max size 2] expiring entries, and each
    key at most once, whatever the calls. *)
Theorem lru_bounded n ops out c' :
  lru_run ops (NewLruCache n) = Ok (out, c') →
  Z.of_nat (size (l_cache c')) <= Z.max n 2.
Proof.
  intros HR. destruct (lru_run_rep ops (NewLruCache n) _ (NewLruCache_rep n))
    as (out' & c1 & ns & HR' & Hr & HA). rewrite HR in HR'. simplify_eq.
  rewrite (rp_cache _ _ Hr), index_size by apply Hr.
  destruct (a_run_bound ops (aNew n)) as (_ & _ & Hb).
  - apply (bool_decide_unpack _). vm_compute. done.
  - simpl. lia.
  - simpl. lia.
  - change (abs (NewLruCache n) _) with (aNew n) in HA. rewrite HA in Hb. simpl in Hb.
    by rewrite length_fmap in Hb.
Qed.

(** ** Recency *)

Lemma without_ne_split k e l1 l2 :
  e_key e ≠ k → without k (l1 ++ e :: l2) = without k l1 ++ e :: without k l2.
Proof. intros H. unfold without. by rewrite filter_app, filter_cons, decide_True. Qed.

Lemma without_keys k l x : x ∈ e_key <$> without k l → x ∈ e_key <$> l.
Proof.
  unfold without. intros (e & -> & [_ He]%list_elem_of_filter)%list_elem_of_fmap.
  apply list_elem_of_fmap. by exists e.
Qed.

Lemma removelast_keeps {A} (x : A) l1 e l2 :
  l2 ≠ [] → removelast (x :: l1 ++ e :: l2) = x :: l1 ++ e :: removelast l2.
Proof.
  intros H. destruct (exists_last H) as (l0 & y & ->). rewrite removelast_last.
  replace (x :: l1 ++ e :: l0 ++ [y]) with ((x :: l1 ++ e :: l0) ++ [y])
    by by rewrite <- app_comm_cons, <- app_assoc. by rewrite removelast_last.
Qed.

(** [e] is in the list and only keys of [K] were used since. *)
Definition recent (K : gset key) (e : entry) (a : ALru) : Prop :=
  a_ok a ∧ ∃ l1 l2, a_list a = l1 ++ e :: l2 ∧ (∀ x, x ∈ e_key <$> l1 → x ∈ K).

Lemma NoDup_keys_bound (K : gset key) (l : list key) :
  NoDup l → (∀ x, x ∈ l → x ∈ K) → (length l <= size K)%nat.
Proof.
  intros Hnd Hin. rewrite <- (size_list_to_set (C := gset key)) by done.
  apply subseteq_size. set_solver.
Qed.

Lemma recent_use (K : gset key) e k x l1 l2 :
  NoDup (e_key <$> l1 ++ e :: l2) → k ∈ K → e_key e ≠ k → e_key x = k →
  (∀ y, y ∈ e_key <$> l1 → y ∈ K) →
  ∃ l1' l2', x :: without k (l1 ++ e :: l2) = l1' ++ e :: l2' ∧ (∀ y, y ∈ e_key <$> l1' → y ∈ K).
Proof.
  intros Hnd Hk Hne Hx Hl1. exists (x :: without k l1), (without k l2).
  rewrite without_ne_split by done. split; [done|]. intros y. csimpl.
  intros [->|Hy%without_keys]%elem_of_cons; [by rewrite Hx|auto].
Qed.

Lemma recent_Get K e k now a :
  recent K e a → k ∈ K → e_key e ≠ k → recent K e (aGet k now a).2.
Proof.
  intros [Hok (l1 & l2 & Hl & Hl1)] Hk Hne. unfold aGet.
  destruct (a_store a !! k); [by split; eauto|].
  destruct (lookup_entry k (a_list a)) as [x|] eqn:E; [|by split; eauto]. simpl.
  pose proof E as (Hx & m1 & m2 & Hm)%lookup_entry_Some. unfold a_ok in Hok.
  assert (a_ok (MkALru (a_size a) (x :: without k (a_list a)) (a_store a))) as Hok'.
  { unfold a_ok. simpl. rewrite Hm in *. destruct (without_split k _ _ _ Hok Hx) as [_ ->].
    assert (e_key <$> x :: m1 ++ m2 ≡ₚ e_key <$> m1 ++ x :: m2) as HP by by rewrite Permutation_middle.
    csimpl in HP. rewrite HP. done. }
  split; [done|]. simpl. rewrite Hl in *. by apply (recent_use K).
Qed.

Lemma recent_Set K e k v ttl now a :
  recent K e a → k ∈ K → e_key e ≠ k → Z.of_nat (size K) < a_size a →
  recent K e (aSet k v ttl now a).
Proof.
  intros [Hok (l1 & l2 & Hl & Hl1)] Hk Hne Hsz. unfold aSet.
  destruct (ttl =? 0); [split; eauto|]. cbv zeta. unfold a_ok in Hok. rewrite Hl in *.
  set (x := (k, v, expiry now ttl)).
  destruct (lookup_entry k (l1 ++ e :: l2)) as [y|] eqn:E.
  - pose proof E as (Hy & m1 & m2 & Hm)%lookup_entry_Some.
    split; [|by apply (recent_use K)]. unfold a_ok. simpl. rewrite Hm in *.
    destruct (without_split k _ _ _ Hok Hy) as [_ ->].
    assert (e_key <$> x :: m1 ++ m2 ≡ₚ e_key <$> m1 ++ y :: m2) as HP.
    { csimpl. rewrite !fmap_app. csimpl. rewrite Hy. by rewrite Permutation_middle. }
    csimpl in HP. csimpl. rewrite HP. done.
  - apply lookup_entry_None in E. destruct (without_notin k _ E) as [_ ->].
    assert (NoDup (e_key <$> x :: l1 ++ e :: l2)) as Hnd by (csimpl; by constructor).
    assert (∀ y, y ∈ e_key <$> x :: l1 → y ∈ K) as HK.
    { intros y. csimpl. intros [->|?]%elem_of_cons; auto. }
    case_match eqn:En; bools; [|split; [done|]; by exists (x :: l1), l2].
    destruct (decide (l2 = [])) as [->|Hl2].
    + exfalso. pose proof (NoDup_keys_bound K (e_key <$> x :: l1)) as Hb.
      rewrite length_fmap in Hb. simpl in *. rewrite length_app in En. simpl in En.
      rewrite fmap_app, app_comm_cons in Hnd. apply NoDup_app in Hnd as [Hnd _].
      specialize (Hb Hnd HK). lia.
    + rewrite removelast_keeps by done. split; [|by exists (x :: l1), (removelast l2)].
      unfold a_ok. simpl. destruct (exists_last Hl2) as (l0 & z & ->). rewrite removelast_last.
      revert Hnd. csimpl. rewrite !fmap_app. csimpl. rewrite !fmap_app.
      rewrite !app_comm_cons, app_assoc. by intros [? _]%NoDup_app.
Qed.

Lemma recent_run K e ops a :
  recent K e a → (∀ o, o ∈ ops → op_key o ∈ K) → e_key e ∉ K → Z.of_nat (size K) < a_size a →
  recent K e (a_run ops a).2 ∧ a_store (a_run ops a).2 !! e_key e = a_store a !! e_key e.
Proof.
  intros Hr Hops He. revert a Hr. induction ops as [|o ops IH]; intros a Hr Hsz; simpl; [done|].
  assert (op_key o ∈ K) as Ho by (apply Hops; by left).
  assert (e_key e ≠ op_key o) as Hne by (intros Heq; by rewrite Heq in He).
  specialize (IH ltac:(intros; apply Hops; by right)).
  destruct o as [k now|k v ttl now]; simpl in *.
  - destruct (aGet k now a) as [[v b] a1] eqn:E. destruct (a_run ops a1) eqn:E1. simpl.
    pose proof (recent_Get K e k now a Hr Ho Hne) as Hr1. rewrite E in Hr1. simpl in Hr1.
    assert (a_size a1 = a_size a ∧ a_store a1 = a_store a) as [Hs1 Hs2]
      by (unfold aGet in E; by repeat case_match; simplify_eq).
    specialize (IH a1 Hr1). rewrite E1, Hs1, Hs2 in IH. by apply IH.
  - destruct (IH (aSet k v ttl now a)) as [? ->].
    + by apply recent_Set.
    + unfold aSet. by case_match.
    + split; [done|]. unfold aSet. case_match; [|done]. simpl. by rewrite lookup_insert_ne.
Qed.

Lemma a_run_app ops1 ops2 a :
  a_run (ops1 ++ ops2) a =
  ((a_run ops1 a).1 ++ (a_run ops2 (a_run ops1 a).2).1, (a_run ops2 (a_run ops1 a).2).2).
Proof.
  revert a. induction ops1 as [|[k now|k v ttl now] ops1 IH]; intros a; simpl.
  - by destruct (a_run ops2 a).
  - destruct (aGet k now a) as [[v b] a1]. rewrite IH. by destruct (a_run ops1 a1).
  - apply IH.
Qed.

Lemma a_run_store ops a k :
  (∀ v t, CSet k v 0 t ∉ ops) → a_store (a_run ops a).2 !! k = a_store a !! k.
Proof.
  revert a. induction ops as [|[k' now|k' v ttl now] ops IH]; intros a Hk; simpl; [done| |].
  - destruct (aGet k' now a) as [[v b] a1] eqn:E. destruct (a_run ops a1) eqn:E1.
    simpl. specialize (IH a1). rewrite E1 in IH. simpl in IH. rewrite IH by set_solver.
    unfold aGet in E. by repeat case_match; simplify_eq.
  - rewrite IH by set_solver. unfold aSet. case_match eqn:E; bools; [|done]. simpl.
    rewrite lookup_insert_ne; [done|]. intros ->. apply (Hk v now). subst. by left.
Qed.

(** Right after [Set] the new entry is in front. *)
Lemma aSet_front k v ttl now a :
  ttl ≠ 0 → a_ok a → (2 <= length (a_list a))%nat →
  recent ∅ (k, v, expiry now ttl) (aSet k v ttl now a) ∧
  a_store (aSet k v ttl now a) = a_store a.
Proof.
  intros Ht Hok Hl. unfold aSet. rewrite (proj2 (Z.eqb_neq _ _)) by done. cbv zeta.
  pose proof (a_step_bound k (k, v, expiry now ttl) (a_list a) (a_size a) Hok eq_refl Hl)
    as (Hnd & _ & _). split; [|done]. split; [done|]. simpl. exists []. simpl.
  assert (∀ x : key, x ∈ @nil key → x ∈ (∅ : gset key)) as Hnil
    by (intros x Hx; by apply not_elem_of_nil in Hx).
  destruct (lookup_entry k (a_list a)) as [x|] eqn:E; [by eexists|].
  apply lookup_entry_None in E. destruct (without_notin k _ E) as [_ ->].
  clear Hnd. destruct (a_list a); [simpl in Hl; lia|]. destruct (a_size a <? _); by eexists.
Qed.

Lemma recent_mono (K K' : gset key) e a : K ⊆ K' → recent K e a → recent K' e a.
Proof. intros HK [Hok (l1 & l2 & Hl & H)]. split; [done|]. exists l1, l2. set_solver. Qed.

Lemma recent_hit K e a now :
  recent K e a → a_store a !! e_key e = None →
  (aGet (e_key e) now a).1 = (e.1.2, e.2 <? unix now).
Proof.
  intros [Hok (l1 & l2 & Hl & _)] Hst. unfold aGet. rewrite Hst. unfold a_ok in Hok.
  rewrite Hl in *. by destruct (without_split (e_key e) e l1 l2 Hok eq_refl) as [-> _].
Qed.

(** An answer set with a lifetime is still returned, with the expiry the
    lifetime gives, as long as fewer distinct other keys than the cache has
    places were used since; unless the key also has a permanent record. *)
Theorem lru_recent n before k v ttl now others now' out c' :
  ttl ≠ 0 → 2 <= n →
  (∀ v' t, CSet k v' 0 t ∉ before) →
  (∀ o, o ∈ others → op_key o ≠ k) →
  Z.of_nat (size (list_to_set (C := gset key) (op_key <$> others))) < n →
  lru_run (before ++ CSet k v ttl now :: others ++ [CGet k now']) (NewLruCache n) = Ok (out, c') →
  last out = Some (v, expiry now ttl <? unix now').
Proof.
  intros Httl Hn Hb Ho Hsz HR.
  destruct (lru_run_rep (before ++ CSet k v ttl now :: others ++ [CGet k now']) (NewLruCache n) _
    (NewLruCache_rep n)) as (out' & c1 & ns & HR' & _ & HA). rewrite HR in HR'. simplify_eq.
  change (abs (NewLruCache n) _) with (aNew n) in HA.
  rewrite a_run_app in HA. simpl in HA. rewrite a_run_app in HA. simpl in HA.
  set (a0 := (a_run before (aNew n)).2) in *. set (a1 := aSet k v ttl now a0) in *.
  assert (a_size a0 = n ∧ a_store a0 !! k = None) as (Hs0 & Hst0).
  { unfold a0. rewrite a_run_size, a_run_store by done. done. }
  destruct (a_run_bound before (aNew n)) as (Hok0 & Hl0 & _);
    [apply (bool_decide_unpack _); vm_compute; done|simpl; lia..|].
  destruct (aSet_front k v ttl now a0 Httl Hok0 Hl0) as [Hr1 Hst1]. fold a1 in Hr1, Hst1.
  set (K := list_to_set (op_key <$> others) : gset key) in *.
  destruct (recent_run K (k, v, expiry now ttl) others a1) as [Hr2 Hst2].
  - by apply (recent_mono ∅).
  - intros o Hin. apply elem_of_list_to_set, list_elem_of_fmap. by exists o.
  - intros (o & Heq & Hin)%elem_of_list_to_set%list_elem_of_fmap. by apply (Ho o Hin).
  - unfold a1, aSet. rewrite (proj2 (Z.eqb_neq _ _)) by done. simpl. lia.
  - pose proof (recent_hit K _ _ now' Hr2) as Hh. rewrite Hst2, Hst1 in Hh.
    specialize (Hh Hst0). simpl in Hh. unfold e_key in Hh. simpl in Hh.
    destruct (aGet k now' (a_run others a1).2) as [[w b] a3]. simpl in *. simplify_eq.
    by rewrite app_assoc, last_snoc.
Qed.
