(* ===== verification/DnsClient.v ===== *)
(** dns/client.go, dns/upstream.go, dns/server.go: answering queries from records, the cache and
    the upstream servers.

    The proxy behind the client is an interface (class [ProxyDialer]); what the
    network does is an argument of the operations: [peer i net server] is what
    the [i]-th dial of a call reaches.  Buffers come from the pool, so a slice
    made there has stale bytes up to its capacity ([pool n] is the array
    [GetBuffer(n)] returns). *)
From S2P Require Import Prelude GoStd GoSlice Reader ProxyConn DomainWalk DnsMessage DnsCache.

(** ** Upstream servers *)

Record UPStream := MkUPStream { up_index : Z; up_servers : list (list byte) }.

(** The default port is 53. *)
Definition default_port (server : list byte) : list byte :=
  let '(_, port) := SplitHostPort_ server in
  if bool_decide (port = []) then JoinHostPort server (lit "53") else server.

Definition NewUPStream (servers : list (list byte)) : UPStream :=
  MkUPStream 0 (default_port <$> servers).

(** [servers[i % uint32(len(servers))]]: a division by zero without servers. *)
Definition server_at (u : UPStream) (i : Z) : outcome (list byte) :=
  let n := u32 (Z.of_nat (length (up_servers u))) in
  if n =? 0 then Panic
  else match up_servers u !! Z.to_nat (i mod n) with Some s => Ok s | None => Panic end.

Definition Server (u : UPStream) : outcome (list byte) := server_at u (up_index u).
Definition Switch (u : UPStream) : outcome (list byte * UPStream) :=
  let i := u32 (up_index u + 1) in
  s ← server_at u i;
  Ok (s, MkUPStream i (up_servers u)).
Definition SwitchIf (server : list byte) (u : UPStream) : outcome (list byte * UPStream) :=
  s ← Server u;
  if bool_decide (s = server) then Switch u else s ← Server u; Ok (s, u).
Definition up_Len (u : UPStream) : nat := length (up_servers u).

(** ** The client *)

Record DnsConfig := MkDnsConfig {
  Servers : list (list byte);
  Timeout : Z;
  MaxTTL : Z;
  MinTTL : Z;
  Records : list (list byte);
  AlwaysTCP : bool;
  CacheSize : Z;
  CacheLog : bool;
  NoAAAA : bool }.

(** A connection: what the server sends back for the bytes written to it, and
    whether the write fails. *)
Record Peer := MkPeer { peer_write : option error; peer_reply : list byte → list byte }.

Section Client.
Context {W D : Type} `{!ProxyDialer W D}.

Record Client := MkClient {
  c_cache : LruCache;
  c_config : DnsConfig;
  c_upStream : UPStream;
  c_upStreamMap : gmap (list byte) UPStream;
  c_handlers : list (list byte → Addr → W → W) }.

Definition set_cache (ca : LruCache) (c : Client) : Client :=
  MkClient ca (c_config c) (c_upStream c) (c_upStreamMap c) (c_handlers c).

Definition qKey (q : Question) : list byte :=
  QNAME q ++ c_slash :: format_uint (QTYPE q).

Definition SetServers (domain : list byte) (servers : list (list byte)) (c : Client) : Client :=
  MkClient (c_cache c) (c_config c) (c_upStream c)
    (<[to_lower domain := NewUPStream servers]> (c_upStreamMap c)) (c_handlers c).

Definition AddHandler_ (h : list byte → Addr → W → W) (c : Client) : Client :=
  MkClient (c_cache c) (c_config c) (c_upStream c) (c_upStreamMap c) (c_handlers c ++ [h]).

(** [UpStream]: the key of the upstream in the map, [None] for the default one. *)
Definition UpStream (domain : list byte) (c : Client) : option (list byte) :=
  let domain := to_lower domain in
  domain_lookup (λ k, match c_upStreamMap c !! k with Some _ => Some k | None => None end)
    (walk_fuel domain) domain (length domain).

Definition get_up (u : option (list byte)) (c : Client) : UPStream :=
  match u with
  | None => c_upStream c
  | Some k => default (c_upStream c) (c_upStreamMap c !! k)
  end.
Definition set_up (u : option (list byte)) (v : UPStream) (c : Client) : Client :=
  match u with
  | None => MkClient (c_cache c) (c_config c) v (c_upStreamMap c) (c_handlers c)
  | Some k => MkClient (c_cache c) (c_config c) (c_upStream c) (<[k := v]> (c_upStreamMap c))
                (c_handlers c)
  end.

(** ** Records *)

Definition MakeResponse (rnd : Z) (domain ip : list byte) (ttl : Z) : outcome Message :=
  addr ← ParseAddr ip;
  let '(qtype, rdlen) := if Is6 addr then (QTypeAAAA, 16) else (QTypeA, 4) in
  let m := NewMessage rnd 0 ResponseMsg in
  let m := SetQuestion (NewQuestion qtype domain) m in
  Ok (AddAnswer (MkRR domain qtype ClassINET ttl rdlen (AsSlice addr) None) m).

Definition ErrRecordFormat : error := "wrong record format, must contain '/'".

Definition AddRecord (rnd now : Z) (record : list byte) (c : Client) : outcome Client :=
  match cut_byte record c_slash with
  | None => Err ErrRecordFormat
  | Some (domain, ip) =>
      m ← MakeResponse rnd domain ip (u32 (MaxTTL (c_config c)));
      r ← Message_MarshalTo m;
      let '(wb, m) := r in
      match m_Question m with
      | None => Panic
      | Some q => ca ← lru_Set (qKey q) wb 0 now (c_cache c); Ok (set_cache ca c)
      end
  end.

(** [NewClient]: a record that is refused is logged and skipped. *)
Definition NewClient (rnd : nat → Z) (now : Z) (config : DnsConfig) : outcome Client :=
  let c := MkClient (NewLruCache (CacheSize config)) config (NewUPStream (Servers config)) ∅ [] in
  foldl (λ r rec, c ← r; match AddRecord (rnd (length rec)) now rec c with
                         | Err _ => Ok c
                         | r => r
                         end) (Ok c) (Records config).

(** ** Answers *)

(** The TTL the answers ask for, and the world after the handlers saw every valid
    address. *)
Definition extract_step (c : Client) (qname : list byte) (s : Z * W) (answer : RR) : Z * W :=
  if (TYPE answer =? QTypeA) || (TYPE answer =? QTypeAAAA) then
    let w := match IP answer with
             | Some ip => if IsUnspecified ip then s.2
                          else foldl (λ w h, h qname ip w) s.2 (c_handlers c)
             | None => s.2
             end in
    (if TTL answer =? 0 then s.1 else TTL answer, w)
  else s.

Definition extractAnswer (c : Client) (q : Question) (resp : Message) (w : W) : Z * W :=
  foldl (extract_step c (QNAME q)) (MinTTL (c_config c), w) (m_Answers resp).

Definition clamp_ttl (config : DnsConfig) (ttl : Z) : Z :=
  let ttl := if MaxTTL config <? ttl then MaxTTL config
             else if ttl <? MinTTL config then MinTTL config else ttl in
  if ttl <=? 0 then 1800 else ttl.

Definition dns_fuel (b : slice) : nat := S (s_len b).

Definition handleAnswer (respBytes : slice) (now : Z) (c : Client) (w : W)
    : outcome (Client * W) :=
  resp ← UnmarshalMessage (dns_fuel respBytes) respBytes;
  match m_Question resp with
  | None => Panic
  | Some q =>
      let '(ttl, w) := extractAnswer c q resp w in
      let ttl := clamp_ttl (c_config c) ttl in
      ca ← lru_Set (qKey q) (bytes_of respBytes) ttl now (c_cache c);
      Ok (set_cache ca c, w)
  end.

(** ** Talking to an upstream *)

(** A pool buffer of [n] bytes filled with [l]. *)
Definition fill (pool : nat → list byte) (n : nat) (l : list byte) : slice :=
  MkSlice (l ++ drop (length l) (pool n)) (length l).

Definition exchangeTCP (pool : nat → list byte) (p : Peer) (reqBytes : list byte) : outcome slice :=
  match peer_write p with
  | Some e => Err e
  | None =>
      let reply := peer_reply p (be_bytes 2 (u16 (Z.of_nat (length reqBytes))) ++ reqBytes) in
      r ← ReadFull 2 reply;
      let '(l, rest) := r in
      let respLen := Z.to_nat (be_val l) in
      r ← ReadFull respLen rest;
      let '(respBytes, _) := r in
      Ok (fill pool respLen respBytes)
  end.

(** A datagram longer than the buffer is cut. *)
Definition exchangeUDP (pool : nat → list byte) (p : Peer) (reqBytes : list byte) : outcome slice :=
  match peer_write p with
  | Some e => Err e
  | None => Ok (fill pool UDPMaxLen (take UDPMaxLen (peer_reply p reqBytes)))
  end.

Section Exchange.
Context (pool : nat → list byte) (peer : nat → network → list byte → Peer + error).

Definition attempt (i : nat) (net : network) (server reqBytes : list byte) : outcome slice :=
  match peer i net server with
  | inr e => Err e
  | inl p => match net with
             | Tcp => exchangeTCP pool p reqBytes
             | Udp => exchangeUDP pool p reqBytes
             end
  end.

(** The loop over the servers: [k] tries are left, [i] were made; the servers
    tried, in order, and the last outcome. *)
Fixpoint exchange_loop (k i : nat) (net : network) (server reqBytes : list byte)
    (last : outcome slice) (u : UPStream)
    : outcome (list byte * outcome slice * UPStream * list (list byte)) :=
  match k with
  | O => Ok (server, last, u, [])
  | S k =>
      match attempt i net server reqBytes with
      | Ok resp => Ok (server, Ok resp, u, [server])
      | Err e =>
          r ← SwitchIf server u;
          let '(newServer, u) := r in
          r ← exchange_loop k (S i) net newServer reqBytes (Err e) u;
          let '(s, o, u, tried) := r in Ok (s, o, u, server :: tried)
      | Panic => Panic
      | OutOfFuel => OutOfFuel
      end
  end.

Record Exchanged := MkExchanged {
  x_server : list byte; x_network : network; x_dialer : D; x_resp : outcome slice;
  x_tried : list (list byte) }.

Definition nil_resp : slice := MkSlice [] 0.

(** A domain routed to a "REJECT" forwarder is resolved directly. *)
Definition exchange_dialer (qname : list byte) (w : W) : D * W :=
  let '(dialer, w) := pd_NextDialer (qname ++ lit ":0") w in
  if bool_decide (pd_Addr dialer = lit "REJECT") then pd_NextDialer (lit "direct:0") w
  else (dialer, w).

Definition exchange (qname reqBytes : list byte) (preferTCP : bool) (c : Client) (w : W)
    : outcome (Exchanged * Client * W) :=
  let '(dialer, w) := exchange_dialer qname w in
  let net := if negb preferTCP && negb (AlwaysTCP (c_config c)) &&
                bool_decide (pd_Addr dialer = lit "DIRECT") then Udp else Tcp in
  let key := UpStream qname c in
  let ups := get_up key c in
  server ← Server ups;
  r ← exchange_loop (up_Len ups) 0 net server reqBytes (Ok nil_resp) ups;
  let '(server, resp, ups, tried) := r in
  let w := match resp with Err _ => pd_Record dialer false w | _ => w end in
  Ok (MkExchanged server net dialer resp tried, set_up key ups c, w).

(** ** Exchange *)

(** The background refresh an expired hit starts. *)
Record Refresh := MkRefresh { rf_qname : list byte; rf_req : list byte; rf_tcp : bool }.

Definition is_addr_type (t : Z) : bool := (t =? QTypeA) || (t =? QTypeAAAA).

(** The cached answer to an A or AAAA question, and whether it has expired. *)
Definition cached_answer (q : Question) (now : Z) (c : Client)
    : outcome (option (list byte * bool) * Client) :=
  if is_addr_type (QTYPE q) then
    r ← lru_Get (qKey q) now (c_cache c);
    let '(v, expired, ca) := r in
    Ok (if (2 <? length v)%nat then Some (v, expired) else None, set_cache ca c)
  else Ok (None, c).

(** What [Exchange] returns, and the refresh it leaves running. *)
Definition Exchange (reqBytes : slice) (preferTCP : bool) (now : Z) (c : Client) (w : W)
    : outcome (outcome (list byte) * option Refresh * Client * W) :=
  match UnmarshalMessage (dns_fuel reqBytes) reqBytes with
  | Panic => Panic
  | OutOfFuel => OutOfFuel
  | Err e => Ok (Err e, None, c, w)
  | Ok req =>
      match m_Question req with
      | None => Panic
      | Some q =>
          if NoAAAA (c_config c) && (QTYPE q =? QTypeAAAA) then
            Ok (Ok (alter (λ b, z2b (Z.lor (b2z b) (u8 (Z.shiftl ResponseMsg 7)))) 2%nat
                      (bytes_of reqBytes)), None, c, w)
          else
            cached_answer q now c ≫= λ h : option (list byte * bool) * Client,
            let '(hit, c) := h in
            match hit with
            | Some (v, expired) =>
                Ok (Ok (be_bytes 2 (ID (m_Header req)) ++ drop 2 v),
                    if expired then Some (MkRefresh (QNAME q) (bytes_of reqBytes) preferTCP) else None,
                    c, w)
            | None =>
                exchange (QNAME q) (bytes_of reqBytes) preferTCP c w ≫= λ r : Exchanged * Client * W,
                let '(x, c, w) := r in
                match x_resp x with
                | Err e => Ok (Err e, None, c, w)
                | Panic => Panic
                | OutOfFuel => OutOfFuel
                | Ok respBytes =>
                    if negb (is_addr_type (QTYPE q)) then
                      Ok (Ok (bytes_of respBytes), None, c, w)
                    else
                      match handleAnswer respBytes now c w with
                      | Ok (c, w) => Ok (Ok (bytes_of respBytes), None, c, w)
                      | Err e => Ok (Err e, None, c, w)
                      | Panic => Panic
                      | OutOfFuel => OutOfFuel
                      end
                end
            end
      end
  end.

(** The goroutine of an expired hit. *)
Definition refresh (r : Refresh) (now : Z) (c : Client) (w : W) : outcome (Client * W) :=
  exchange (rf_qname r) (rf_req r) (rf_tcp r) c w ≫= λ x : Exchanged * Client * W,
  let '(x, c, w) := x in
  match x_resp x with
  | Ok respBytes => match handleAnswer respBytes now c w with Err _ => Ok (c, w) | o => o end
  | Err _ => Ok (c, w)
  | Panic => Panic
  | OutOfFuel => OutOfFuel
  end.

(** ** dns/server.go *)

(** [ServePacket]: the datagram sent back, if any. *)
Definition ServePacket (reqBytes : slice) (now : Z) (c : Client) (w : W)
    : outcome (option (list byte) * option Refresh * Client * W) :=
  Exchange reqBytes false now c w ≫= λ r : outcome (list byte) * option Refresh * Client * W,
  let '(resp, bg, c, w) := r in
  Ok (match resp with Ok b => Some b | _ => None end, bg, c, w).

(** [ServeTCP] on the bytes a client sends: the bytes written back. *)
Definition ServeTCP (input : list byte) (now : Z) (c : Client) (w : W)
    : outcome (list byte * option Refresh * Client * W) :=
  match ReadFull 2 input with
  | Ok (l, rest) =>
      let reqLen := Z.to_nat (be_val l) in
      match ReadFull reqLen rest with
      | Ok (req, _) =>
          Exchange (fill pool reqLen req) true now c w
            ≫= λ r : outcome (list byte) * option Refresh * Client * W,
          let '(resp, bg, c, w) := r in
          Ok (match resp with
              | Ok b => be_bytes 2 (u16 (Z.of_nat (length b))) ++ b
              | _ => []
              end, bg, c, w)
      | _ => Ok ([], None, c, w)
      end
  | _ => Ok ([], None, c, w)
  end.
End Exchange.
End Client.
Arguments Client : clear implicits.
Arguments Exchanged : clear implicits.
