(* ===== verification/DnsClientProofs.v ===== *)
(** dns/client.go: what a query is answered with. *)
From S2P Require Import Prelude GoStd GoSlice Reader ProxyConn DomainWalk DnsMessage DnsSafety DnsCache DnsCacheRef DnsClient.

(** ** Upstream rotation *)

Definition servers_ok (u : UPStream) (k : nat) : Prop :=
  (0 < length (up_servers u))%nat ∧ Z.of_nat (length (up_servers u)) < 2 ^ 32 ∧
  0 <= up_index u ∧ up_index u + Z.of_nat k < 2 ^ 32.

(** The [j]-th server from the current one, around the list. *)
Definition nth_server (u : UPStream) (j : nat) : list byte :=
  up_servers u !!! Z.to_nat ((up_index u + Z.of_nat j) mod Z.of_nat (length (up_servers u))).

Lemma server_at_ok u j :
  servers_ok u j → server_at u (up_index u + Z.of_nat j) = Ok (nth_server u j).
Proof.
  intros (Hl & Hl2 & Hi & _). unfold server_at, nth_server.
  rewrite u32_small, (proj2 (Z.eqb_neq _ _)) by lia.
  destruct (lookup_lt_is_Some_2 (up_servers u)
    (Z.to_nat ((up_index u + Z.of_nat j) mod Z.of_nat (length (up_servers u))))) as [s Hs].
  { pose proof (Z.mod_pos_bound (up_index u + Z.of_nat j) (Z.of_nat (length (up_servers u)))). lia. }
  rewrite Hs. by rewrite (list_lookup_total_correct _ _ _ Hs).
Qed.

Lemma Server_ok u : servers_ok u 0 → Server u = Ok (nth_server u 0).
Proof.
  intros H. unfold Server. rewrite <- (server_at_ok u 0 H). f_equal. lia.
Qed.

Definition advance (u : UPStream) (j : nat) : UPStream :=
  MkUPStream (up_index u + Z.of_nat j) (up_servers u).

Lemma nth_server_advance u i j : nth_server (advance u i) j = nth_server u (i + j).
Proof. unfold nth_server, advance. simpl. do 2 f_equal. f_equal. lia. Qed.

(** Leaving the current server moves to the next one. *)
Lemma SwitchIf_current u :
  servers_ok u 1 → SwitchIf (nth_server u 0) u = Ok (nth_server u 1, advance u 1).
Proof.
  intros H. assert (servers_ok u 0) as H0 by (unfold servers_ok in *; lia).
  unfold SwitchIf. rewrite Server_ok, bind_ret, bool_decide_true by done. unfold Switch.
  rewrite u32_small by (unfold servers_ok in H; lia).
  change 1 with (Z.of_nat 1). rewrite server_at_ok by done. done.
Qed.

Section Proofs.
Context {W D : Type} `{HPD : !ProxyDialer W D}.
Context (pool : nat → list byte) (peer : nat → network → list byte → Peer + error).

(** The loop tries the servers around the list from the current one until one
    answers; [f] servers failed before. *)
Definition loop_result (k i : nat) (net : network) (req : list byte) (last : outcome slice)
    (u : UPStream) (r : list byte * outcome slice * UPStream * list (list byte)) : Prop :=
  ∃ f : nat, (f <= k)%nat ∧
    (∀ j, (j < f)%nat → ∃ e, attempt pool peer (i + j) net (nth_server u j) req = Err e) ∧
    ((f < k)%nat ∧
       (∃ resp, attempt pool peer (i + f) net (nth_server u f) req = Ok resp ∧
          r = (nth_server u f, Ok resp, advance u f, nth_server u <$> seq 0 (S f))) ∨
     f = k ∧
       r = (nth_server u f,
            match f with O => last | S g => attempt pool peer (i + g) net (nth_server u g) req end,
            advance u f, nth_server u <$> seq 0 f)).

Lemma attempt_cases i net s req :
  (∃ resp, attempt pool peer i net s req = Ok resp) ∨ (∃ e, attempt pool peer i net s req = Err e).
Proof.
  unfold attempt. destruct (peer i net s) as [p|e]; [|by eauto].
  destruct net; unfold exchangeTCP, exchangeUDP; destruct (peer_write p); eauto.
  unfold ReadFull. case_match; simpl; [|by eauto]. case_match; simpl; eauto.
Qed.

Lemma exchange_loop_spec k i net req last u :
  servers_ok u k →
  ∃ r, exchange_loop pool peer k i net (nth_server u 0) req last u = Ok r ∧
       loop_result k i net req last u r.
Proof.
  revert i last u. induction k as [|k IH]; intros i last u Hu; simpl.
  { eexists. split; [done|]. exists 0%nat. split; [done|]. split; [lia|]. right. split; [done|].
    unfold advance. simpl. rewrite Z.add_0_r. by destruct u. }
  destruct (attempt_cases i net (nth_server u 0) req) as [[resp Ha]|[e Ha]]; rewrite Ha.
  - eexists. split; [done|]. exists 0%nat. split; [lia|]. split; [lia|]. left. split; [lia|].
    exists resp. rewrite Nat.add_0_r. split; [done|].
    unfold advance. simpl. rewrite Z.add_0_r. by destruct u.
  - rewrite SwitchIf_current by (unfold servers_ok in *; lia). rewrite bind_ret. cbv beta iota.
    destruct (IH (S i) (Err e) (advance u 1)) as (r & Hr & f & Hf & Hfail & Hres).
    { unfold servers_ok in *. simpl. lia. }
    rewrite nth_server_advance in Hr. change (1 + 0)%nat with 1%nat in Hr. rewrite Hr, bind_ret.
    assert (∀ n, nth_server (advance u 1) <$> seq 0 n = nth_server u <$> seq 1 n) as Hseq.
    { intros n. rewrite <- fmap_S_seq, <- list_fmap_compose. apply list_fmap_ext.
      intros ? j _. simpl. by rewrite nth_server_advance. }
    assert (advance (advance u 1) f = advance u (S f)) as Hadv.
    { unfold advance. simpl. f_equal. lia. }
    assert (∀ j, (j < S f)%nat → ∃ e, attempt pool peer (i + j) net (nth_server u j) req = Err e)
      as Hfail'.
    { intros [|j] Hj; [rewrite Nat.add_0_r; by eauto|].
      destruct (Hfail j ltac:(lia)) as [e' He]. rewrite nth_server_advance in He.
      exists e'. by replace (i + S j)%nat with (S i + j)%nat by lia. }
    destruct Hres as [[Hlt (resp & Hok & ->)]|[-> ->]]; cbv beta iota; eexists; (split; [done|]);
      exists (S f) || exists (S k); (split; [lia|]); (split; [done|]).
    + left. split; [lia|]. exists resp. rewrite nth_server_advance in *.
      replace (i + S f)%nat with (S i + f)%nat by lia. split; [done|]. by rewrite Hseq, Hadv.
    + right. split; [done|]. rewrite nth_server_advance, Hadv, Hseq.
      destruct k as [|g]; simpl; rewrite ?Nat.add_0_r, ?Ha, ?nth_server_advance; [done|].
      by replace (i + S g)%nat with (S (i + g))%nat by lia.
Qed.

(** One [exchange] tries the upstream servers of the domain in ring order from
    the current one, each at most once, stopping at the first that answers, which
    becomes the current one; only when all of them failed is the failure charged
    to the dialer, once, and the last error returned. *)
Theorem exchange_rotation qname req tcp (c : Client W) (w : W) :
  let key := UpStream qname c in
  let u := get_up key c in
  let n := length (up_servers u) in
  servers_ok u n →
  ∃ (x : Exchanged D) (w' : W) (f : nat), exchange (D := D) pool peer qname req tcp c w = Ok (x, set_up key (advance u f) c, w') ∧
    (f <= n)%nat ∧
    (∀ j, (j < f)%nat → ∃ e, attempt pool peer j (x_network x) (nth_server u j) req = Err e) ∧
    ((f < n)%nat ∧ x_tried x = nth_server u <$> seq 0 (S f) ∧ x_server x = nth_server u f ∧
       (∃ resp, attempt pool peer f (x_network x) (nth_server u f) req = Ok resp ∧
          x_resp x = Ok resp) ∧
       w' = (exchange_dialer (D := D) qname w).2
     ∨ f = n ∧ x_tried x = nth_server u <$> seq 0 n ∧
       (∃ e, x_resp x = Err e) ∧
       w' = pd_Record (exchange_dialer (D := D) qname w).1 false (exchange_dialer (D := D) qname w).2).
Proof.
  intros key u n Hu. unfold exchange. fold key. fold u.
  destruct (exchange_dialer qname w) as [d w1]. cbv zeta.
  match goal with |- context [exchange_loop pool peer _ 0 ?N] => set (net := N) end.
  rewrite Server_ok by (unfold servers_ok in *; lia). rewrite bind_ret.
  destruct (exchange_loop_spec (up_Len u) 0 net req (Ok nil_resp) u Hu)
    as (r & Hr & f & Hf & Hfail & Hres).
  rewrite Hr, bind_ret. destruct Hres as [[Hlt (resp & Hok & ->)]|[-> ->]]; simpl.
  - eexists _, _, f. split; [done|]. simpl. split; [done|]. split; [done|]. left. by eauto 10.
  - change (up_Len u) with n in *. destruct n as [|g] eqn:En; [unfold servers_ok in Hu; lia|].
    destruct (Hfail g ltac:(lia)) as [e He]. simpl in He. rewrite He.
    eexists _, _, (S g). split; [done|]. simpl. split; [done|]. split; [done|]. right. by eauto 10.
Qed.

(** ** Lifetimes *)

Lemma clamp_ttl_pos cfg ttl : 1 <= clamp_ttl cfg ttl.
Proof. unfold clamp_ttl. cbv zeta. repeat case_match; bools; lia. Qed.

Lemma clamp_ttl_range cfg ttl :
  0 < MinTTL cfg <= MaxTTL cfg → MinTTL cfg <= clamp_ttl cfg ttl <= MaxTTL cfg.
Proof. unfold clamp_ttl. cbv zeta. intros. repeat case_match; bools; lia. Qed.

Lemma lru_Set_Get c ns k v ttl now now' :
  rep c ns → ttl ≠ 0 → l_store c !! k = None →
  ∃ c' c'', lru_Set k v ttl now c = Ok c' ∧ l_store c' = l_store c ∧ (∃ ns', rep c' ns') ∧
    lru_Get k now' c' = Ok (v, expiry now ttl <? unix now', c'').
Proof.
  intros Hr Ht Hst. destruct (lru_Set_rep c ns k v ttl now Hr) as (c1 & ns1 & HS & Hr1 & Ha).
  destruct (lru_Get_rep c1 ns1 k now' Hr1) as (v1 & b1 & c2 & ns2 & HG & _ & Hg).
  exists c1, c2. split; [done|].
  destruct (aSet_front k v ttl now (abs c ns)) as [Hrec Hsto].
  { done. } { apply Hr. } { unfold abs. simpl. rewrite length_fmap. apply Hr. }
  rewrite Ha in Hrec, Hsto. simpl in Hsto. split; [done|]. split; [by eauto|].
  pose proof (recent_hit ∅ _ _ now' Hrec) as Hh. simpl in Hh. unfold e_key in Hh. simpl in Hh.
  rewrite Hsto, Hg in Hh. specialize (Hh Hst). simpl in Hh. by simplify_eq.
Qed.

(** An answer from an upstream is cached under its question for a lifetime of
    at least a second, inside the configured bounds when those are positive and
    ordered, and never as a permanent record; until it is displaced a [Get]
    returns exactly its bytes, expired once the lifetime is over. *)
Theorem handleAnswer_lifetime resp now (c c' : Client W) w w' ns :
  rep (c_cache c) ns → handleAnswer resp now c w = Ok (c', w') →
  ∃ m q ttl, UnmarshalMessage (dns_fuel resp) resp = Ok m ∧ m_Question m = Some q ∧
    1 <= ttl ∧
    (0 < MinTTL (c_config c) <= MaxTTL (c_config c) →
     MinTTL (c_config c) <= ttl <= MaxTTL (c_config c)) ∧
    (l_store (c_cache c) !! qKey q = None →
     l_store (c_cache c') = l_store (c_cache c) ∧
     ∀ now', ∃ ca, lru_Get (qKey q) now' (c_cache c') =
       Ok (bytes_of resp, expiry now ttl <? unix now', ca)).
Proof.
  intros Hr HA. unfold handleAnswer in HA. apply bind_Ok in HA as (m & Hm & HA).
  destruct (m_Question m) as [q|] eqn:Hq; [|done].
  destruct (extractAnswer c q m w) as [ttl0 w1]. cbv zeta in HA.
  apply bind_Ok in HA as (ca & Hs & HA). simplify_eq.
  exists m, q, (clamp_ttl (c_config c) ttl0). pose proof (clamp_ttl_pos (c_config c) ttl0).
  split; [done|]. split; [done|]. split; [done|]. split; [apply clamp_ttl_range|].
  intros Hst. split.
  - destruct (lru_Set_Get _ _ _ (bytes_of resp) (clamp_ttl (c_config c) ttl0) now now Hr ltac:(lia) Hst)
      as (c1 & _ & HS & Hsto & _). rewrite Hs in HS. by simplify_eq.
  - intros now'. destruct (lru_Set_Get _ _ _ (bytes_of resp) (clamp_ttl (c_config c) ttl0) now now'
      Hr ltac:(lia) Hst) as (c1 & c2 & HS & _ & _ & HG). rewrite Hs in HS. simplify_eq. simpl. eauto.
Qed.

(** ** Static records *)

Definition addr_type (a : Addr) : Z := if Is6 a then QTypeAAAA else QTypeA.

Lemma MakeResponse_ok rnd domain ip a ttl :
  ParseAddr ip = Ok a → domain_ok domain → 0 <= ttl < 2 ^ 32 →
  ∃ m, MakeResponse rnd domain ip ttl = Ok m ∧
    message_ok m (NewQuestion (addr_type a) domain) ∧
    m_Answers m = [MkRR domain (addr_type a) ClassINET ttl (Z.of_nat (length (AsSlice a))) (AsSlice a) None].
Proof.
  intros Hp Hd Ht. pose proof (ParseAddr_wf _ _ Hp) as Hwf. unfold MakeResponse. rewrite Hp, bind_ret.
  set (rr := MkRR domain (addr_type a) ClassINET ttl (Z.of_nat (length (AsSlice a))) (AsSlice a) None).
  exists (AddAnswer rr (SetQuestion (NewQuestion (addr_type a) domain) (NewMessage rnd 0 ResponseMsg))).
  assert (rr_ok rr) as Hrr.
  { unfold rr, addr_type. destruct a; unfold addr_wf in Hwf; split; simpl; rewrite ?Hwf;
      unfold QTypeA, QTypeAAAA, ClassINET; done || lia. }
  split; [|split; [|done]].
  - unfold rr, addr_type. destruct a; unfold addr_wf in Hwf; simpl; by rewrite Hwf.
  - split; simpl; [|done| |by apply Forall_singleton|lia].
    + split; simpl; [apply u16_range|done|lia..].
    + split; simpl; [done| |done]. unfold addr_type, QTypeA, QTypeAAAA. case_match; lia.
Qed.

Lemma AddRecord_ok rnd now domain ip a (c : Client W) :
  ParseAddr ip = Ok a → domain_ok domain → c_slash ∉ domain →
  ∃ m wb m' c1, message_ok m (NewQuestion (addr_type a) domain) ∧
    m_Answers m = [MkRR domain (addr_type a) ClassINET (u32 (MaxTTL (c_config c)))
                     (Z.of_nat (length (AsSlice a))) (AsSlice a) None] ∧
    Message_MarshalTo m = Ok (wb, m') ∧ AddRecord rnd now (domain ++ c_slash :: ip) c = Ok c1 ∧
    l_store (c_cache c1) !! qKey (NewQuestion (addr_type a) domain) = Some wb ∧
    c_config c1 = c_config c.
Proof.
  intros Hp Hd Hs. unfold AddRecord. rewrite cut_byte_app by done.
  destruct (MakeResponse_ok rnd domain ip a (u32 (MaxTTL (c_config c))) Hp Hd (u32_range _))
    as (m & HM & Hok & Han).
  destruct (Message_MarshalTo m) as [[wb m']| | |] eqn:Hw;
    try (unfold Message_MarshalTo in Hw; cbn [set_header m_Question] in Hw;
         rewrite (mo_question _ _ Hok) in Hw; done).
  rewrite HM, bind_ret, Hw, bind_ret.
  assert (m_Question m' = Some (NewQuestion (addr_type a) domain)) as ->.
  { unfold Message_MarshalTo in Hw. cbn [set_header m_Question] in Hw.
    pose proof (mo_question _ _ Hok) as Hmq. rewrite Hmq in Hw.
    injection Hw as _ <-. exact Hmq. }
  eexists m, wb, m', _. split; [done|]. split; [done|]. split; [done|]. split; [done|].
  split; [|done]. simpl. apply lookup_insert_eq.
Qed.

(** Replacing the first two bytes of a message replaces its ID. *)
Definition set_id (id : Z) (m : Message) : Message :=
  set_header (MkHeader id (Bits (m_Header m)) (QDCOUNT (m_Header m)) (ANCOUNT (m_Header m))
                (NSCOUNT (m_Header m)) (ARCOUNT (m_Header m))) m.

Lemma Message_MarshalTo_set_id id m wb m' :
  Message_MarshalTo m = Ok (wb, m') →
  Message_MarshalTo (set_id id m) = Ok (be_bytes 2 id ++ drop 2 wb, set_id id m').
Proof.
  unfold Message_MarshalTo. cbn [set_id set_header m_Question m_Answers m_Header].
  destruct (m_Question m) as [q|]; [|done]. intros [= <- <-]. f_equal.
Qed.

Lemma UnmarshalHeader_id s h : UnmarshalHeader s = Ok h → 0 <= ID h < 2 ^ 16.
Proof.
  unfold UnmarshalHeader. destruct (negb _); [done|]. intros (id & Hid & H)%bind_Ok.
  do 5 apply bind_Ok in H as (? & _ & H). simplify_eq. simpl.
  apply bind_Ok in Hid as (t & _ & Ht). unfold Uint16 in Ht. case_match; [done|]. simplify_eq.
  pose proof (be_val_range (take 2 (s_mem t))) as Hr. rewrite length_take in Hr.
  assert (256 ^ Z.of_nat (Nat.min 2 (length (s_mem t))) <= 256 ^ 2).
  { apply Z.pow_le_mono_r; lia. } lia.
Qed.

Lemma unmarshal_answers_header fuel k i m m' :
  unmarshal_answers fuel k i m = Ok m' → m_Header m' = m_Header m.
Proof.
  revert i m. induction k as [|k IH]; intros i m H; simpl in H; [by simplify_eq|].
  apply bind_Ok in H as ([rr n] & _ & H). by apply IH in H.
Qed.

Lemma UnmarshalMessage_id fuel b m : UnmarshalMessage fuel b = Ok m → 0 <= ID (m_Header m) < 2 ^ 16.
Proof.
  unfold UnmarshalMessage. destruct (_ <? _)%nat; [done|]. intros (h & Hh & H)%bind_Ok.
  apply bind_Ok in Hh as (s & _ & Hid%UnmarshalHeader_id).
  apply bind_Ok in H as ([q n] & _ & H). cbv zeta in H.
  apply bind_Ok in H as (m1 & Hm%unmarshal_answers_header & H). simplify_eq.
  simpl. rewrite Hm. done.
Qed.

(** After [AddRecord] of a static record, a query for its name and address
    family is answered from it, without contacting an upstream and without
    changing the client: the response parses back as the query's ID, the record's
    question, and one answer holding the record's address and the maximal TTL. *)
Theorem record_answered rnd now now' domain ip a (c : Client W) (w : W) req tcp m q :
  ParseAddr ip = Ok a → domain_ok domain → c_slash ∉ domain →
  UnmarshalMessage (dns_fuel req) req = Ok m → m_Question m = Some q →
  QNAME q = domain → QTYPE q = addr_type a → NoAAAA (c_config c) && Is6 a = false →
  ∃ c1 resp m', AddRecord rnd now (domain ++ c_slash :: ip) c = Ok c1 ∧
    Exchange (D := D) pool peer req tcp now' c1 w = Ok (Ok resp, None, c1, w) ∧
    UnmarshalMessage (length resp) (slice_of resp) = Ok m' ∧
    ID (m_Header m') = ID (m_Header m) ∧
    m_Question m' = Some (NewQuestion (addr_type a) domain) ∧
    (TTL <$> m_Answers m') = [u32 (MaxTTL (c_config c))] ∧
    ∃ a', (IP <$> m_Answers m') = [Some a'] ∧ AsSlice a' = AsSlice a.
Proof.
  intros Hp Hd Hs Hm Hq Hqn Hqt Hno.
  destruct (AddRecord_ok rnd now domain ip a c Hp Hd Hs)
    as (mr & wb & mr' & c1 & Hok & Han & HM & HA & Hst & Hcfg).
  exists c1, (be_bytes 2 (ID (m_Header m)) ++ drop 2 wb).
  pose proof (UnmarshalMessage_id _ _ _ Hm) as Hid.
  pose proof (Message_MarshalTo_set_id (ID (m_Header m)) _ _ _ HM) as HM'.
  assert (message_ok (set_id (ID (m_Header m)) mr) (NewQuestion (addr_type a) domain)) as Hok'
    by (destruct Hok as [[]]; split; [by split|done..]).
  pose proof (UnmarshalMessage_roundtrip _ _ _ _ []
    (length ((be_bytes 2 (ID (m_Header m)) ++ drop 2 wb) ++ [])) Hok' HM' ltac:(done)) as Hrt.
  rewrite !app_nil_r in Hrt. eexists. split; [done|]. split.
  - unfold Exchange. rewrite Hm, Hq, Hcfg, Hqt.
    assert ((addr_type a =? QTypeAAAA) = Is6 a) as -> by by destruct a.
    rewrite Hno. unfold cached_answer, is_addr_type. rewrite Hqt.
    assert ((addr_type a =? QTypeA) || (addr_type a =? QTypeAAAA) = true) as -> by by destruct a.
    replace (qKey q) with (qKey (NewQuestion (addr_type a) domain))
      by (unfold qKey; simpl; by rewrite Hqn, Hqt).
    rewrite (lru_Get_store _ _ _ _ Hst), bind_ret.
    assert (2 < length wb)%nat as Hlen.
    { pose proof (Message_MarshalTo_length _ _ _ HM) as Hl. unfold HeaderLen in Hl. lia. }
    rewrite (proj2 (Nat.ltb_lt _ _)), bind_ret by done. cbv iota. do 2 f_equal. 
    unfold set_cache. by destruct c1.
  - split; [exact Hrt|]. simpl. split; [done|]. split; [done|]. rewrite Han. split; [done|].
    pose proof (ParseAddr_wf _ _ Hp) as Hwf. unfold addr_wf in Hwf. simpl.
    destruct a as [l|l z]; simpl in *; eexists; (split; [done|]); simpl; apply take_ge; lia.
Qed.
End Proofs.
