(* ===== verification/DnsWitness.v ===== *)
(** Concrete messages, caches and clients on which the hypotheses of the theorems
    about package dns hold. *)
From S2P Require Import Prelude GoStd GoSlice Reader ProxyConn DomainWalk DnsMessage DnsSafety DnsCache DnsCacheRef DnsClient DnsClientProofs.

(** A response for www.example.com with an A and a TXT record. *)
Definition ex_q : Question := MkQuestion (lit "www.example.com") QTypeA ClassINET.
Definition ex_msg : Message :=
  MkMessage (MkHeader 4660 33152 0 0 0 0) (Some ex_q)
    [MkRR (lit "www.example.com") QTypeA ClassINET 300 4 [xc0; x00; x02; x07] None;
     MkRR (lit "www.example.com") 16 ClassINET 60 2 [x01; x61] None] [] [] nil_slice.

Lemma ex_domain_ok : domain_ok (lit "www.example.com").
Proof. apply (bool_decide_unpack _). vm_compute. done. Qed.

Lemma ex_msg_ok : message_ok ex_msg ex_q.
Proof.
  split.
  - split; split; vm_compute; done.
  - done.
  - split; [exact ex_domain_ok|split; vm_compute; done..].
  - constructor; [|constructor; [|constructor]];
      (split; [exact ex_domain_ok|split; vm_compute; done|split; vm_compute; done
        |split; vm_compute; done|done|split; [simpl; lia|done]|..]);
      intros H; vm_compute in H; try discriminate H; simpl; lia.
  - vm_compute. done.
Qed.

Lemma dns_message_roundtrip_witness :
  ∃ w m', Message_MarshalTo ex_msg = Ok (w, m') ∧
    ∀ rest fuel, (length (w ++ rest) <= fuel)%nat →
      UnmarshalMessage fuel (slice_of (w ++ rest)) =
      Ok (MkMessage (m_Header m') (Some ex_q) (parsed_rr <$> m_Answers ex_msg) [] []
            (slice_of (w ++ rest))).
Proof. apply (dns_message_roundtrip ex_msg ex_q). exact ex_msg_ok. Defined.

(** A query for a.b: header, question. *)
Definition ex_header (an : byte) : list byte :=
  [x12; x34; x01; x00; x00; x01; x00; an; x00; x00; x00; x00].
Definition ex_query : list byte :=
  ex_header x00 ++ [x01; x61; x01; x62; x00; x00; x01; x00; x01].

Lemma domain_fuel_enough_witness :
  let um := slice_of ex_query in
  let read fuel := UnmarshalDomainTo fuel um [] (MkSlice (drop 12 (s_mem um)) (s_len um - 12)) 0 in
  read 3%nat = Ok (lit "a.b", 5%nat) ∧
  ((∀ fuel, read fuel = OutOfFuel) ∨
   ∃ r, r ≠ OutOfFuel ∧ r ≠ Panic ∧ ∀ fuel, (S (s_len um) <= fuel)%nat → read fuel = r).
Proof.
  cbv zeta. split; [vm_compute; reflexivity|].
  apply (domain_fuel_enough (slice_of ex_query) [] 12); [apply slice_wf_of|vm_compute; lia].
Defined.

Lemma dns_pointer_loop_witness :
  UnmarshalMessage 1000 (slice_of (ex_header x00 ++ xc0 :: x0c :: [x00; x01; x00; x01])) = OutOfFuel.
Proof.
  apply (dns_pointer_loop (ex_header x00) [x00; x01; x00; x01] 1000); [reflexivity|simpl; lia].
Defined.

(** 18 bytes received in a pool buffer of 1232 (capacity 2048): the class of the
    question is cut off. *)
Definition ex_truncated : slice :=
  MkSlice (ex_header x01 ++ [x03; x61; x62; x63; x00; x00] ++ replicate 2030 x00) 18.

Lemma dns_truncated_question_panics_witness : UnmarshalMessage 19 ex_truncated = Panic.
Proof.
  apply (dns_truncated_question_panics 19 ex_truncated (lit "abc") 5).
  - unfold slice_wf. vm_compute. lia.
  - vm_compute. lia.
  - vm_compute. reflexivity.
  - vm_compute. lia.
  - vm_compute. done.
Defined.


(** ** The cache *)

Definition ex_ops : list cache_op :=
  [CSet (lit "a/1") [x01] 60 0; CSet (lit "b/1") [x02] 60 0; CGet (lit "a/1") (5 * second);
   CSet (lit "c/1") [x03] 60 0].

Lemma lru_bounded_witness :
  match lru_run ex_ops (NewLruCache 2) with
  | Ok (_, c) => Z.of_nat (size (l_cache c)) <= Z.max 2 2
  | _ => False
  end.
Proof.
  assert (is_ok (lru_run ex_ops (NewLruCache 2)) = true) as Hok by (vm_compute; reflexivity).
  destruct (lru_run ex_ops (NewLruCache 2)) as [[out c]| | |] eqn:E; try discriminate Hok.
  apply (lru_bounded 2 ex_ops out c). exact E.
Defined.

Lemma lru_recent_witness :
  match lru_run ([CSet (lit "z/1") [x09] 60 0] ++ CSet (lit "a/1") [x01] 60 0 ::
      [CSet (lit "b/1") [x02] 60 0; CGet (lit "b/1") 0] ++ [CGet (lit "a/1") (61 * second)])
      (NewLruCache 2) with
  | Ok (out, _) => last out = Some ([x01], true)
  | _ => False
  end.
Proof.
  match goal with |- context [lru_run ?ops ?c] =>
    assert (is_ok (lru_run ops c) = true) as Hok by (vm_compute; reflexivity) end.
  destruct (lru_run _ _) as [[out c]| | |] eqn:E; try discriminate Hok.
  apply (lru_recent 2 [CSet (lit "z/1") [x09] 60 0] (lit "a/1") [x01] 60 0
    [CSet (lit "b/1") [x02] 60 0; CGet (lit "b/1") 0] (61 * second) out c); [lia|lia| | | |exact E].
  - intros v t [H|H]%elem_of_cons; [|by apply not_elem_of_nil in H]. discriminate H.
  - apply Forall_forall, (bool_decide_unpack _). vm_compute. reflexivity.
  - vm_compute. reflexivity.
Defined.

(** ** The client *)

(** A proxy whose dialer is always direct, and which counts recorded failures. *)
#[local] Instance ex_proxy : ProxyDialer nat (list byte) := {
  pd_NextDialer _ w := (lit "DIRECT", w);
  pd_Addr d := d;
  pd_Record _ ok w := if ok then w else S w }.

Definition ex_pool (n : nat) : list byte := replicate (2 * n) x00.
(** The first server refuses, the second answers with the bytes of [ex_resp]. *)
Definition ex_resp : list byte :=
  ex_header x00 ++ [x01; x61; x01; x62; x00; x00; x01; x00; x01].
Definition ex_peer (i : nat) (net : network) (server : list byte) : Peer + error :=
  if bool_decide (server = lit "1.1.1.1:53") then inr "refused"%string
  else inl (MkPeer None (λ _, ex_resp)).

Definition ex_config : DnsConfig :=
  MkDnsConfig [lit "1.1.1.1"; lit "8.8.8.8:53"] 0 1800 60 [] false 4 false false.
Definition ex_client : Client nat :=
  MkClient (NewLruCache 4) ex_config (NewUPStream (Servers ex_config)) ∅ [].

Lemma exchange_rotation_witness :
  let u := c_upStream ex_client in
  servers_ok u 2 ∧
  ∃ (x : Exchanged (list byte)) (w' : nat) (f : nat),
    exchange (D := list byte) ex_pool ex_peer (lit "a.b") ex_query false ex_client 0%nat =
      Ok (x, set_up None (advance u f) ex_client, w') ∧
    (f <= 2)%nat ∧
    (∀ j, (j < f)%nat → ∃ e, attempt ex_pool ex_peer j (x_network x) (nth_server u j) ex_query = Err e) ∧
    ((f < 2)%nat ∧ x_tried x = nth_server u <$> seq 0 (S f) ∧ x_server x = nth_server u f ∧
       (∃ resp, attempt ex_pool ex_peer f (x_network x) (nth_server u f) ex_query = Ok resp ∧
          x_resp x = Ok resp) ∧
       w' = (exchange_dialer (D := list byte) (lit "a.b") 0%nat).2
     ∨ f = 2%nat ∧ x_tried x = nth_server u <$> seq 0 2 ∧
       (∃ e, x_resp x = Err e) ∧
       w' = pd_Record (exchange_dialer (D := list byte) (lit "a.b") 0%nat).1 false
              (exchange_dialer (D := list byte) (lit "a.b") 0%nat).2).
Proof.
  cbv zeta. assert (servers_ok (c_upStream ex_client) 2) as Hok.
  { split; [vm_compute; lia|]. split; [vm_compute; reflexivity|]. split; vm_compute; done. }
  split; [exact Hok|].
  exact (exchange_rotation (D := list byte) ex_pool ex_peer (lit "a.b") ex_query false ex_client 0%nat Hok).
Defined.

Lemma ex_client_rep :
  rep (c_cache ex_client) [(0%nat, (lit "head", [], 0)); (1%nat, (lit "tail", [], 0))].
Proof. apply NewLruCache_rep. Qed.

Lemma handleAnswer_lifetime_witness :
  match handleAnswer (slice_of ex_resp) 0 ex_client 0%nat with
  | Ok (c', _) =>
      ∃ m q ttl, UnmarshalMessage (dns_fuel (slice_of ex_resp)) (slice_of ex_resp) = Ok m ∧
        m_Question m = Some q ∧ 1 <= ttl ∧
        (0 < MinTTL ex_config <= MaxTTL ex_config → MinTTL ex_config <= ttl <= MaxTTL ex_config) ∧
        (l_store (c_cache ex_client) !! qKey q = None →
         l_store (c_cache c') = l_store (c_cache ex_client) ∧
         ∀ now', ∃ ca, lru_Get (qKey q) now' (c_cache c') =
           Ok (bytes_of (slice_of ex_resp), expiry 0 ttl <? unix now', ca))
  | _ => False
  end.
Proof.
  assert (is_ok (handleAnswer (slice_of ex_resp) 0 ex_client 0%nat) = true) as Hok by (vm_compute; reflexivity).
  destruct (handleAnswer (slice_of ex_resp) 0 ex_client 0%nat) as [[c' w']| | |] eqn:E; try discriminate Hok.
  exact (handleAnswer_lifetime (slice_of ex_resp) 0 ex_client c' 0%nat w' _ ex_client_rep E).
Defined.

Lemma record_answered_witness :
  ∃ m c1 resp m', UnmarshalMessage (dns_fuel (slice_of ex_query)) (slice_of ex_query) = Ok m ∧
    AddRecord 7 0 (lit "a.b" ++ c_slash :: lit "192.0.2.7") ex_client = Ok c1 ∧
    Exchange (D := list byte) ex_pool ex_peer (slice_of ex_query) false 5 c1 0%nat =
      Ok (Ok resp, None, c1, 0%nat) ∧
    UnmarshalMessage (length resp) (slice_of resp) = Ok m' ∧
    ID (m_Header m') = ID (m_Header m) ∧
    m_Question m' = Some (NewQuestion QTypeA (lit "a.b")) ∧
    (TTL <$> m_Answers m') = [u32 1800] ∧
    ∃ a', (IP <$> m_Answers m') = [Some a'] ∧ AsSlice a' = [xc0; x00; x02; x07].
Proof.
  destruct (UnmarshalMessage (dns_fuel (slice_of ex_query)) (slice_of ex_query)) as [m| | |] eqn:E;
    [|vm_compute in E; discriminate E..].
  exists m. pose proof E as E'. vm_compute in E'. injection E' as E'.
  destruct (record_answered (D := list byte) ex_pool ex_peer 7 0 5 (lit "a.b") (lit "192.0.2.7")
    (Addr4 [xc0; x00; x02; x07]) ex_client 0%nat (slice_of ex_query) false m
    (MkQuestion (lit "a.b") 1 1)) as (c1 & resp & m' & H).
  - vm_compute. reflexivity.
  - apply (bool_decide_unpack _). vm_compute. reflexivity.
  - apply (bool_decide_unpack _). vm_compute. reflexivity.
  - exact E.
  - rewrite <- E'. reflexivity.
  - reflexivity.
  - reflexivity.
  - reflexivity.
  - exists c1, resp, m'. split; [reflexivity|]. exact H.
Defined.
