(* ===== verification/SmuxFrame.v ===== *)
(** pkg/smux/frame.go, pkg/smux/mux.go: frames of the multiplexer and its
    configuration. *)
From S2P Require Import Prelude.

Module Smux.

Definition cmdSYN : Z := 0.
Definition cmdFIN : Z := 1.
Definition cmdPSH : Z := 2.
Definition cmdNOP : Z := 3.
Definition cmdUPD : Z := 4.
Definition szCmdUPD : nat := 8.
Definition initialPeerWindow : Z := 262144.
Definition headerSize : nat := 8.

Record Frame := MkFrame { f_ver : Z; f_cmd : Z; f_sid : Z; f_data : list byte }.

Definition newFrame (version cmd sid : Z) : Frame := MkFrame version cmd sid [].

(** The accessors of a raw header. *)
Definition Version (h : list byte) : Z := b2z (nth 0 h x00).
Definition Cmd (h : list byte) : Z := b2z (nth 1 h x00).
Definition Length (h : list byte) : Z := le_val (take 2 (drop 2 h)).
Definition StreamID (h : list byte) : Z := le_val (take 4 (drop 4 h)).

Definition Consumed (h : list byte) : Z := le_val (take 4 h).
Definition Window (h : list byte) : Z := le_val (take 4 (drop 4 h)).

(** The bytes [sendLoop] writes for a frame. *)
Definition frame_bytes (f : Frame) : list byte :=
  [z2b (f_ver f); z2b (f_cmd f)] ++ le_bytes 2 (u16 (Z.of_nat (length (f_data f)))) ++
  le_bytes 4 (f_sid f) ++ f_data f.

(** The payload [sendWindowUpdate] sends. *)
Definition upd_bytes (consumed window : Z) : list byte := le_bytes 4 consumed ++ le_bytes 4 window.

(** ** Configuration *)

Record Config := MkConfig {
  c_Version : Z;
  KeepAliveDisabled : bool;
  KeepAliveInterval : Z;
  KeepAliveTimeout : Z;
  MaxFrameSize : Z;
  MaxReceiveBuffer : Z;
  MaxStreamBuffer : Z }.

Definition DefaultConfig : Config :=
  MkConfig 1 false (10 * second) (30 * second) 32768 4194304 65536.

Definition MaxInt32 : Z := 2147483647.

Definition VerifyConfig (c : Config) : option error :=
  if negb ((c_Version c =? 1) || (c_Version c =? 2)) then
    Some "unsupported protocol version"%string
  else if negb (KeepAliveDisabled c) && (KeepAliveInterval c =? 0) then
    Some "keep-alive interval must be positive"%string
  else if negb (KeepAliveDisabled c) && (KeepAliveTimeout c <? KeepAliveInterval c) then
    Some "keep-alive timeout must be larger than keep-alive interval"%string
  else if MaxFrameSize c <=? 0 then Some "max frame size must be positive"%string
  else if 65535 <? MaxFrameSize c then Some "max frame size must not be larger than 65535"%string
  else if MaxReceiveBuffer c <=? 0 then Some "max receive buffer must be positive"%string
  else if MaxStreamBuffer c <=? 0 then Some "max stream buffer must be positive"%string
  else if MaxReceiveBuffer c <? MaxStreamBuffer c then
    Some "max stream buffer must not be larger than max receive buffer"%string
  else if MaxInt32 <? MaxStreamBuffer c then
    Some "max stream buffer cannot be larger than 2147483647"%string
  else None.

(** ** Reading frames *)

(** One frame off the connection, the way [recvLoop] reads it: the header, then
    [Length] bytes for a data frame, eight for a window update, none otherwise.
    [None]: the connection ended inside the frame. *)
Definition read_frame (s : list byte) : option (Frame * list byte) :=
  if (length s <? headerSize)%nat then None
  else
    let h := take headerSize s in
    let rest := drop headerSize s in
    let body := if Cmd h =? cmdPSH then Z.to_nat (Length h)
                else if Cmd h =? cmdUPD then szCmdUPD else 0%nat in
    if (length rest <? body)%nat then None
    else Some (MkFrame (Version h) (Cmd h) (StreamID h) (take body rest), drop body rest).

Fixpoint read_frames (fuel : nat) (s : list byte) : list Frame :=
  match fuel with
  | O => []
  | S fuel =>
      match read_frame s with
      | Some (f, rest) => f :: read_frames fuel rest
      | None => []
      end
  end.

(** A frame the sender builds: a known command, a payload only where the receiver
    expects one. *)
Record frame_ok (f : Frame) : Prop := {
  fo_ver : 0 <= f_ver f < 256;
  fo_cmd : 0 <= f_cmd f < 256;
  fo_sid : 0 <= f_sid f < 2 ^ 32;
  fo_len : Z.of_nat (length (f_data f)) < 2 ^ 16;
  fo_body : if f_cmd f =? cmdPSH then True
            else if f_cmd f =? cmdUPD then length (f_data f) = szCmdUPD
            else f_data f = [] }.

Lemma frame_bytes_split f rest :
  frame_bytes f ++ rest =
  [z2b (f_ver f); z2b (f_cmd f)] ++ le_bytes 2 (u16 (Z.of_nat (length (f_data f)))) ++
  le_bytes 4 (f_sid f) ++ (f_data f ++ rest).
Proof. unfold frame_bytes. by rewrite <- !app_assoc. Qed.

Lemma read_frame_bytes f rest : frame_ok f → read_frame (frame_bytes f ++ rest) = Some (f, rest).
Proof.
  intros [Hv Hc Hs Hl Hb]. unfold read_frame. rewrite frame_bytes_split.
  set (h := [z2b (f_ver f); z2b (f_cmd f)] ++ le_bytes 2 (u16 (Z.of_nat (length (f_data f)))) ++
            le_bytes 4 (f_sid f)).
  assert (length h = headerSize) as Hh by done.
  replace ([z2b (f_ver f); z2b (f_cmd f)] ++ _) with (h ++ f_data f ++ rest)
    by (unfold h; by rewrite <- !app_assoc).
  rewrite length_app, (proj2 (Nat.ltb_ge _ _)) by lia. rewrite <- Hh, take_app_length, drop_app_length.
  assert (Version h = f_ver f) as -> by (unfold Version; apply b2z_z2b_small; lia).
  assert (Cmd h = f_cmd f) as -> by (unfold Cmd; apply b2z_z2b_small; lia).
  assert (Length h = Z.of_nat (length (f_data f))) as ->.
  { change (Length h) with (le_val (le_bytes 2 (u16 (Z.of_nat (length (f_data f)))))).
    rewrite u16_small, le16_id by lia. done. }
  assert (StreamID h = f_sid f) as ->.
  { change (StreamID h) with (le_val (le_bytes 4 (f_sid f))). by apply le32_id. }
  assert ((if f_cmd f =? cmdPSH then Z.to_nat (Z.of_nat (length (f_data f)))
           else if f_cmd f =? cmdUPD then szCmdUPD else 0%nat) = length (f_data f)) as ->.
  { destruct (f_cmd f =? cmdPSH); [lia|]. destruct (f_cmd f =? cmdUPD); [done|]. by rewrite Hb. }
  cbv zeta. rewrite length_app, (proj2 (Nat.ltb_ge _ _)) by lia.
  rewrite take_app_length, drop_app_length. by destruct f.
Qed.

Lemma read_frames_bytes fs :
  Forall frame_ok fs → read_frames (S (length fs)) (concat (frame_bytes <$> fs)) = fs.
Proof.
  induction fs as [|f fs IH]; intros Hok; [done|]. apply Forall_cons_1 in Hok as [Hf Hok].
  change (concat (frame_bytes <$> f :: fs)) with (frame_bytes f ++ concat (frame_bytes <$> fs)).
  cbn [length]. cbn [read_frames]. rewrite read_frame_bytes by done. f_equal. by apply IH.
Qed.

End Smux.
