(* ===== verification/SmuxStream.v ===== *)
(** pkg/smux/stream.go: one stream of a session: reading, writing with the
    per-stream window of protocol version 2, closing.

    What a call does to the session (tokens returned, frames handed to the
    writer) is part of its result; [answers i] is what [writeFrameInternal]
    returned for the [i]-th frame of the call. *)
From S2P Require Import Prelude SmuxFrame.
Import Smux.

Module Stream.

Definition ErrWouldBlock : error := "operation would block on IO".
Definition ErrTimeout : error := "timeout".
Definition ErrConsumed : error := "peer consumed more than sent".

(** [st_die] and [st_fin]: the channels [die] and [chFinEvent] are closed;
    [st_readEvent] and [st_update]: a signal is in the buffered channel. *)
Record stream := MkStream {
  st_id : Z;
  st_buffers : list (list byte);
  st_heads : list (list byte);
  st_frameSize : Z;
  st_readEvent : bool;
  st_die : bool;
  st_fin : bool;
  numRead : Z;
  numWritten : Z;
  incr : Z;
  peerConsumed : Z;
  peerWindow : Z;
  st_update : bool }.

Definition newStream (id frameSize : Z) : stream :=
  MkStream id [] [] frameSize false false false 0 0 0 0 initialPeerWindow false.

Definition set_buffers (b h : list (list byte)) (s : stream) : stream :=
  MkStream (st_id s) b h (st_frameSize s) (st_readEvent s) (st_die s) (st_fin s) (numRead s)
    (numWritten s) (incr s) (peerConsumed s) (peerWindow s) (st_update s).
Definition set_events (r d f u : bool) (s : stream) : stream :=
  MkStream (st_id s) (st_buffers s) (st_heads s) (st_frameSize s) r d f (numRead s)
    (numWritten s) (incr s) (peerConsumed s) (peerWindow s) u.
Definition set_counts (nr nw i : Z) (s : stream) : stream :=
  MkStream (st_id s) (st_buffers s) (st_heads s) (st_frameSize s) (st_readEvent s) (st_die s)
    (st_fin s) nr nw i (peerConsumed s) (peerWindow s) (st_update s).
Definition set_peer (c w : Z) (s : stream) : stream :=
  MkStream (st_id s) (st_buffers s) (st_heads s) (st_frameSize s) (st_readEvent s) (st_die s)
    (st_fin s) (numRead s) (numWritten s) (incr s) c w (st_update s).

(** ** Called by the session *)

Definition pushBytes (buf : list byte) (s : stream) : stream :=
  set_buffers (st_buffers s ++ [buf]) (st_heads s ++ [buf]) s.
Definition notifyReadEvent (s : stream) : stream :=
  set_events true (st_die s) (st_fin s) (st_update s) s.
Definition update (consumed window : Z) (s : stream) : stream :=
  let s := set_peer consumed window s in
  set_events (st_readEvent s) (st_die s) (st_fin s) true s.
Definition fin (s : stream) : stream :=
  set_events (st_readEvent s) (st_die s) true (st_update s) s.
Definition sessionClose (s : stream) : stream :=
  set_events (st_readEvent s) true (st_fin s) (st_update s) s.
(** The bytes given up, and the stream without its buffers. *)
Definition recycleTokens (s : stream) : Z * stream :=
  (Z.of_nat (length (concat (st_buffers s))), set_buffers [] [] s).

(** ** Reading *)

(** [copy(b, s.buffers[0])] for a [b] of length [len], dropping a buffer that is
    used up; the panic is [heads[0]] on an empty slice. *)
Definition take_buffer (len : nat) (s : stream) : outcome (list byte * stream) :=
  match st_buffers s with
  | [] => Ok ([], s)
  | b0 :: bs =>
      let got := take len b0 in
      let rest := drop len b0 in
      if (length rest =? 0)%nat then
        match st_heads s with
        | [] => Panic
        | _ :: hs => Ok (got, set_buffers bs hs s)
        end
      else Ok (got, set_buffers (rest :: bs) (st_heads s) s)
  end.

(** What a read call returns: the bytes or the error, the tokens it gives back
    and the window update it sends ([consumed]), if any. *)
Record ReadResult := MkRead {
  r_bytes : list byte; r_err : option error; r_tokens : Z; r_notify : option Z }.

Definition tryReadv1 (len : nat) (s : stream) : outcome (ReadResult * stream) :=
  if (len =? 0)%nat then Ok (MkRead [] None 0 None, s)
  else
    r ← take_buffer len s;
    let '(got, s) := r in
    if (0 <? length got)%nat then Ok (MkRead got None (Z.of_nat (length got)) None, s)
    else Ok (MkRead [] (Some (if st_die s then EOF else ErrWouldBlock)) 0 None, s).

(** The window-update rule of a version 2 read of [n] bytes. *)
Definition window_rule (maxStreamBuffer n : Z) (s : stream) : Z * stream :=
  let nr := u32 (numRead s + u32 n) in
  let i := u32 (incr s + u32 n) in
  if (u32 (Z.quot maxStreamBuffer 2) <=? i) || (nr =? u32 n) then
    (nr, set_counts nr (numWritten s) 0 s)
  else (0, set_counts nr (numWritten s) i s).

Definition tryReadv2 (maxStreamBuffer : Z) (len : nat) (s : stream)
    : outcome (ReadResult * stream) :=
  if (len =? 0)%nat then Ok (MkRead [] None 0 None, s)
  else
    r ← take_buffer len s;
    let '(got, s) := r in
    let n := Z.of_nat (length got) in
    let '(notifyConsumed, s) := window_rule maxStreamBuffer n s in
    if 0 <? n then
      Ok (MkRead got None n (if 0 <? notifyConsumed then Some notifyConsumed else None), s)
    else Ok (MkRead [] (Some (if st_die s then EOF else ErrWouldBlock)) 0 None, s).

Definition tryRead (c : Config) (len : nat) (s : stream) : outcome (ReadResult * stream) :=
  if c_Version c =? 2 then tryReadv2 (MaxStreamBuffer c) len s else tryReadv1 len s.

(** One turn of the loop of [WriteTo]: a whole buffer is handed to the writer and
    its tokens are returned. *)
Definition writeTo_step (c : Config) (s : stream) : outcome (ReadResult * stream) :=
  let buf := default [] (head (st_buffers s)) in
  let s' := match st_buffers s, st_heads s with
            | _ :: bs, _ :: hs => Ok (set_buffers bs hs s)
            | _ :: _, [] => Panic
            | [], _ => Ok s
            end in
  s' ← s';
  let n := Z.of_nat (length buf) in
  let '(notify, s') := if c_Version c =? 2 then window_rule (MaxStreamBuffer c) n s' else (0, s') in
  match st_buffers s with
  | [] => Ok (MkRead [] (Some ErrWouldBlock) 0 None, s')
  | _ => Ok (MkRead buf None n (if 0 <? notify then Some notify else None), s')
  end.

(** The frame of [sendWindowUpdate]. *)
Definition sendWindowUpdate (c : Config) (consumed : Z) (s : stream) : Frame :=
  MkFrame (u8 (c_Version c)) cmdUPD (st_id s) (upd_bytes consumed (u32 (MaxStreamBuffer c))).

(** What wakes up [waitRead]. *)
Inductive wakeup := WReadEvent | WFinEvent | WReadError (e : error) | WProtoError (e : error)
  | WDeadline | WDie.

Definition waitRead (w : wakeup) (s : stream) : option error * stream :=
  match w with
  | WReadEvent => (None, set_events false (st_die s) (st_fin s) (st_update s) s)
  | WFinEvent => (match st_buffers s with [] => Some EOF | _ => None end, s)
  | WReadError e | WProtoError e => (Some e, s)
  | WDeadline => (Some ErrTimeout, s)
  | WDie => (Some ErrClosedPipe, s)
  end.

(** ** Writing *)

(** Cutting [bts] into frames of at most [frameSize] bytes, until a write fails;
    [n] frames were written before.  [fuel] bounds the number of frames. *)
Fixpoint send_frames (fuel : nat) (ver sid : Z) (frameSize : nat) (answers : nat → Z * option error)
    (n : nat) (bts : list byte) : Z * option error * list Frame :=
  match fuel with
  | O => (0, None, [])
  | S fuel =>
      match bts with
      | [] => (0, None, [])
      | _ =>
          let sz := Nat.min (length bts) frameSize in
          let frame := MkFrame ver cmdPSH sid (take sz bts) in
          let '(k, e) := answers n in
          match e with
          | Some e => (k, Some e, [frame])
          | None =>
              let '(sent, e, fs) :=
                send_frames fuel ver sid frameSize answers (S n) (drop sz bts) in
              (k + sent, e, frame :: fs)
          end
      end
  end.

Record WriteResult := MkWrite { w_sent : Z; w_err : option error; w_frames : list Frame }.

Definition version (c : Config) : Z := u8 (c_Version c).

(** [Write] of protocol version 1. *)
Definition writeV1 (c : Config) (answers : nat → Z * option error) (b : list byte) (s : stream)
    : WriteResult * stream :=
  if st_fin s then (MkWrite 0 (Some EOF) [], s)
  else if st_die s then (MkWrite 0 (Some ErrClosedPipe) [], s)
  else
    let '(sent, e, fs) :=
      send_frames (length b) (version c) (st_id s) (Z.to_nat (st_frameSize s)) answers 0 b in
    (MkWrite sent e fs,
     set_counts (numRead s) (u32 (numWritten s + Z.of_nat (length fs))) (incr s) s).

(** What a blocked version 2 writer sees: the stream's or the session's end, the
    deadline, or a window update that arrived meanwhile. *)
Inductive wevent := EFin | EDie | EDeadline | ESockError (e : error) | EUpdate (consumed window : Z).

Definition inflight (s : stream) : Z := i32 (u32 (numWritten s - peerConsumed s)).
Definition window (s : stream) : Z := i32 (i32 (peerWindow s) - inflight s).

(** The bytes one round may send. *)
Definition round_size (b : list byte) (s : stream) : nat :=
  if window s <=? 0 then 0
  else if i32 (Z.of_nat (length b)) <? window s then length b
  else Z.to_nat (window s).

Definition data_len (fs : list Frame) : Z := Z.of_nat (length (concat (f_data <$> fs))).

(** One round of the loop of [writeV2]: what the window allows of [b] is cut into
    frames and handed over; the bytes accepted, the error, the frames, the rest of
    [b] and the stream after it. *)
Definition writeV2_round (c : Config) (answers : nat → Z * option error) (n : nat)
    (b : list byte) (s : stream) : Z * option error * list Frame * list byte * stream :=
  let k := round_size b s in
  let '(sent, e, fs) :=
    send_frames k (version c) (st_id s) (Z.to_nat (st_frameSize s)) answers n (take k b) in
  (sent, e, fs, drop k b,
   set_counts (numRead s) (u32 (numWritten s + data_len fs)) (incr s) s).

(** The loop of [writeV2]: [n] frames were written and [sent] bytes accepted so
    far; [None]: still blocked when the events run out. *)
Fixpoint writeV2_loop (c : Config) (answers : nat → Z * option error) (events : list wevent)
    (n : nat) (sent : Z) (b : list byte) (s : stream) : option WriteResult * list Frame * stream :=
  if inflight s <? 0 then (Some (MkWrite 0 (Some ErrConsumed) []), [], s)
  else
    let '(sent1, e, fs, b, s) := writeV2_round c answers n b s in
    let sent := sent + sent1 in
    match e with
    | Some e => (Some (MkWrite sent (Some e) []), fs, s)
    | None =>
        if (length b =? 0)%nat then (Some (MkWrite sent None []), fs, s)
        else
          match events with
          | [] => (None, fs, s)
          | EFin :: _ => (Some (MkWrite 0 (Some EOF) []), fs, s)
          | EDie :: _ => (Some (MkWrite sent (Some ErrClosedPipe) []), fs, s)
          | EDeadline :: _ => (Some (MkWrite sent (Some ErrTimeout) []), fs, s)
          | ESockError e :: _ => (Some (MkWrite sent (Some e) []), fs, s)
          | EUpdate consumed w :: events =>
              let s := update consumed w s in
              let s := set_events (st_readEvent s) (st_die s) (st_fin s) false s in
              let '(r, fs', s) := writeV2_loop c answers events (n + length fs) sent b s in
              (r, fs ++ fs', s)
          end
    end.

Definition writeV2 (c : Config) (answers : nat → Z * option error) (events : list wevent)
    (b : list byte) (s : stream) : option WriteResult * list Frame * stream :=
  if (length b =? 0)%nat then (Some (MkWrite 0 None []), [], s)
  else if st_fin s then (Some (MkWrite 0 (Some EOF) []), [], s)
  else if st_die s then (Some (MkWrite 0 (Some ErrClosedPipe) []), [], s)
  else writeV2_loop c answers events 0 0 b s.

(** ** Closing *)

(** [Close]: the FIN frame of the first call; a later call only reports that the
    stream was closed. *)
Definition close_stream (c : Config) (s : stream) : option Frame * option error * stream :=
  if st_die s then (None, Some ErrClosedPipe, s)
  else (Some (newFrame (version c) cmdFIN (st_id s)), None, sessionClose s).
End Stream.
