(* ===== verification/SmuxStreamProofs.v ===== *)
(** pkg/smux: a stream delivers the bytes written to it, and its writer respects
    the peer's window. *)
From S2P Require Import Prelude SmuxFrame SmuxStream.
Import Smux Stream.

(** ** Cutting into frames *)

Definition all_ok (answers : nat → Z * option error) (bts : nat → Z) : Prop :=
  ∀ n, answers n = (bts n, None).

Lemma send_frames_data fuel ver sid fsz answers n bts sent e fs :
  (1 <= fsz)%nat → (length bts <= fuel)%nat →
  send_frames fuel ver sid fsz answers n bts = (sent, e, fs) →
  concat (f_data <$> fs) = take (length (concat (f_data <$> fs))) bts ∧
  (e = None → concat (f_data <$> fs) = bts) ∧
  Forall (λ f, f_ver f = ver ∧ f_cmd f = cmdPSH ∧ f_sid f = sid ∧
               (1 <= length (f_data f) <= fsz)%nat) fs.
Proof.
  intros Hf. revert n bts sent e fs. induction fuel as [|fuel IH]; intros n bts sent e fs Hl H.
  { simpl in H. simplify_eq. destruct bts; [done|simpl in Hl; lia]. }
  destruct bts as [|c bts']; [simpl in H; by simplify_eq|].
  cbn [send_frames] in H. set (bts := c :: bts') in *. set (sz := Nat.min (length bts) fsz) in *.
  assert (1 <= sz <= length bts)%nat as Hsz by (unfold sz, bts; simpl; lia).
  destruct (answers n) as [k [e0|]] eqn:Ea.
  - simplify_eq. change (concat (f_data <$> [MkFrame ver cmdPSH sid (take sz bts)])) with (take sz bts ++ []).
    rewrite app_nil_r, length_take.
    split; [f_equal; lia|]. split; [done|]. constructor; [|done]. simpl.
    rewrite length_take. repeat split; lia.
  - destruct (send_frames fuel ver sid fsz answers (S n) (drop sz bts)) as [[sent1 e1] fs1] eqn:Es.
    simplify_eq. apply IH in Es as (Hp & He & Hall); [|rewrite length_drop; unfold bts in *; simpl in *; lia].
    change (concat (f_data <$> MkFrame ver cmdPSH sid (take sz bts) :: fs1))
      with (take sz bts ++ concat (f_data <$> fs1)). split; [|split].
    + rewrite length_app, length_take. replace (Nat.min sz (length bts)) with sz by lia.
      set (m := length (concat (f_data <$> fs1))) in *.
      rewrite Hp. clear -Hsz. rewrite <- (take_drop sz bts) at 3.
      rewrite take_app, length_take, take_take. f_equal; f_equal; lia.
    + intros ->. rewrite He by done. apply take_drop.
    + constructor; [|done]. simpl. rewrite length_take. repeat split; lia.
Qed.

(** ** Reading *)

Definition stream_ok (s : stream) : Prop := length (st_heads s) = length (st_buffers s).

Lemma stream_ok_push buf s : stream_ok s → stream_ok (pushBytes buf s).
Proof. unfold stream_ok, pushBytes. simpl. rewrite !length_app. simpl. lia. Qed.

Definition unread (s : stream) : list byte := concat (st_buffers s).

Lemma unread_push buf s : unread (pushBytes buf s) = unread s ++ buf.
Proof. unfold unread, pushBytes. simpl. rewrite concat_app. simpl. by rewrite app_nil_r. Qed.

(** Buffers are never empty: only frames with a payload are pushed. *)
Definition no_empty (s : stream) : Prop := Forall (λ b, b ≠ []) (st_buffers s).

Lemma take_buffer_spec len s :
  stream_ok s → no_empty s → (1 <= len)%nat →
  ∃ got s', take_buffer len s = Ok (got, s') ∧ stream_ok s' ∧ no_empty s' ∧
    unread s = got ++ unread s' ∧ (got = [] → st_buffers s = []) ∧
    (length got <= len)%nat ∧ st_die s' = st_die s.
Proof.
  intros Hok Hne Hl. unfold take_buffer.
  destruct (st_buffers s) as [|b0 bs] eqn:Eb; [exists [], s; simpl; repeat split; done || lia|].
  unfold no_empty in Hne. rewrite Eb in Hne. apply Forall_cons_1 in Hne as [Hb0 Hbs].
  assert (take len b0 ≠ []) as Hgot.
  { destruct b0; [done|]. destruct len; [lia|]. done. }
  unfold stream_ok in Hok. rewrite Eb in Hok. simpl in Hok.
  destruct (length (drop len b0) =? 0)%nat eqn:El; bools.
  - destruct (st_heads s) as [|h hs] eqn:Eh; [done|]. simpl in Hok.
    exists (take len b0), (set_buffers bs hs s). split; [done|]. split; [unfold stream_ok; simpl; lia|].
    split; [done|]. split; [|split; [done|split; [rewrite length_take; lia|done]]].
    unfold unread. rewrite Eb. simpl. f_equal. rewrite length_drop in El.
    symmetry. apply take_ge. lia.
  - exists (take len b0), (set_buffers (drop len b0 :: bs) (st_heads s) s).
    split; [done|]. split; [unfold stream_ok; simpl; lia|].
    split; [constructor; [by intros E; rewrite E in El|done]|].
    split; [|split; [done|split; [rewrite length_take; lia|done]]].
    unfold unread. rewrite Eb. simpl. by rewrite app_assoc, take_drop.
Qed.

Lemma window_rule_buffers m n s k s' :
  window_rule m n s = (k, s') → st_buffers s' = st_buffers s ∧ st_heads s' = st_heads s ∧
  st_die s' = st_die s.
Proof. unfold window_rule. intros. case_match; simplify_eq; done. Qed.

Lemma tryRead_spec c len s :
  stream_ok s → no_empty s → (1 <= len)%nat →
  ∃ r s', tryRead c len s = Ok (r, s') ∧ stream_ok s' ∧ no_empty s' ∧
    unread s = r_bytes r ++ unread s' ∧ (length (r_bytes r) <= len)%nat ∧
    r_tokens r = Z.of_nat (length (r_bytes r)) ∧
    (r_err r = None ↔ unread s ≠ []) ∧ (r_err r = None → r_bytes r ≠ []).
Proof.
  intros Hok Hne Hl. unfold tryRead, tryReadv1, tryReadv2.
  rewrite (proj2 (Nat.eqb_neq _ _)) by lia.
  destruct (take_buffer_spec len s Hok Hne Hl) as (got & s1 & Ht & Hok1 & Hne1 & Hu & Hgot & Hlen & Hdie).
  rewrite Ht, !bind_ret.
  assert (got = [] → unread s = []) as Hempty.
  { intros Hg. unfold unread. by rewrite (Hgot Hg). }
  assert (got ≠ [] → unread s ≠ []) as Hfull.
  { intros Hg. rewrite Hu. by destruct got. }
  destruct (c_Version c =? 2).
  - destruct (window_rule (MaxStreamBuffer c) (Z.of_nat (length got)) s1) as [nc s2] eqn:Ew.
    apply window_rule_buffers in Ew as (Hb & Hh & Hd).
    assert (stream_ok s2 ∧ no_empty s2 ∧ unread s2 = unread s1) as (? & ? & Hu2)
      by (unfold stream_ok, no_empty, unread in *; by rewrite Hb, ?Hh).
    destruct (0 <? Z.of_nat (length got)) eqn:E; bools; eexists _, s2; (split; [done|]); simpl;
      rewrite Hu2.
    + assert (got ≠ []) as Hg by (intros ->; simpl in E; lia).
      split_and!; try done. split; [by intros _; apply Hfull|done].
    + assert (got = []) as -> by (destruct got; [done|simpl in E; lia]).
      split_and!; try done. split; [done|]. intros Hn. by rewrite Hempty in Hn.
  - destruct (0 <? length got)%nat eqn:E; bools; eexists _, s1; (split; [done|]); simpl.
    + assert (got ≠ []) as Hg by (intros ->; simpl in E; lia).
      split_and!; try done. split; [by intros _; apply Hfull|done].
    + assert (got = []) as -> by (destruct got; [done|simpl in E; lia]).
      split_and!; try done. split; [done|]. intros Hn. by rewrite Hempty in Hn.
Qed.

(** A sequence of reads with the given buffer lengths, up to the first error. *)
Fixpoint reads (c : Config) (lens : list nat) (s : stream) : outcome (list byte * stream) :=
  match lens with
  | [] => Ok ([], s)
  | len :: lens =>
      r ← tryRead c len s;
      let '(r, s) := r in
      match r_err r with
      | Some _ => Ok ([], s)
      | None => q ← reads c lens s; let '(bs, s) := q in Ok (r_bytes r ++ bs, s)
      end
  end.

Lemma reads_spec c lens s :
  stream_ok s → no_empty s → Forall (λ n, 1 <= n)%nat lens →
  ∃ bs s', reads c lens s = Ok (bs, s') ∧ unread s = bs ++ unread s' ∧
    (length (unread s) <= length lens → unread s' = [])%nat.
Proof.
  revert s. induction lens as [|len lens IH]; intros s Hok Hne Hl; simpl.
  { exists [], s. split; [done|]. split; [done|]. destruct (unread s); simpl; [done|lia]. }
  apply Forall_cons_1 in Hl as [Hl Hls].
  destruct (tryRead_spec c len s Hok Hne Hl) as (r & s1 & Hr & Hok1 & Hne1 & Hu & _ & _ & He & Hb).
  rewrite Hr, bind_ret. cbv beta iota. destruct (r_err r) as [e|] eqn:Ee.
  - assert (unread s = []) as Hnil.
    { destruct (unread s) as [|x l]; [done|]. exfalso. assert (Some e = None) by by apply He. done. }
    exists [], s1. split; [done|]. rewrite Hnil in *. symmetry in Hu. apply app_nil in Hu as [_ ->]. done.
  - destruct (IH s1 Hok1 Hne1 Hls) as (bs & s2 & -> & Hu2 & Hend). rewrite bind_ret.
    exists (r_bytes r ++ bs), s2. split; [done|]. split; [by rewrite Hu, Hu2, app_assoc|].
    intros Hlen. apply Hend. specialize (Hb eq_refl). rewrite Hu, length_app in Hlen.
    destruct (r_bytes r); [done|simpl in *; lia].
Qed.

(** ** From one end to the other *)

(** The frames of a connection that carry data for stream [sid], pushed in order. *)
Definition receive (sid : Z) (fs : list Frame) (s : stream) : stream :=
  foldl (λ s f, if (f_cmd f =? cmdPSH) && (f_sid f =? sid) && (0 <? length (f_data f))%nat
                then notifyReadEvent (pushBytes (f_data f) s) else s) s fs.

Lemma receive_spec sid fs s :
  stream_ok s → no_empty s →
  Forall (λ f, f_cmd f = cmdPSH ∧ f_sid f = sid ∧ (1 <= length (f_data f))%nat) fs →
  stream_ok (receive sid fs s) ∧ no_empty (receive sid fs s) ∧
  unread (receive sid fs s) = unread s ++ concat (f_data <$> fs).
Proof.
  revert s. induction fs as [|f fs IH]; intros s Hok Hne Hall; csimpl.
  { by rewrite app_nil_r. }
  apply Forall_cons_1 in Hall as [(Hc & Hs & Hl) Hall]. unfold receive. simpl.
  rewrite Hc, Hs, !Z.eqb_refl, (proj2 (Nat.ltb_lt _ _)) by lia. simpl.
  destruct (IH (notifyReadEvent (pushBytes (f_data f) s))) as (? & ? & Hu).
  - by apply stream_ok_push.
  - unfold no_empty, pushBytes, notifyReadEvent in *. simpl. apply Forall_app. split; [done|].
    apply Forall_singleton. intros E. rewrite E in Hl. simpl in Hl. lia.
  - done.
  - split; [done|]. split; [done|]. unfold receive in Hu. rewrite Hu.
    change (unread (notifyReadEvent ?x)) with (unread x). rewrite unread_push. by rewrite app_assoc.
Qed.

(** C6: Under a configuration [VerifyConfig] accepts, the bytes of a [Write] of
    protocol version 1 that reports no error arrive: the bytes [sendLoop] puts on
    the connection parse back into its frames, and whatever buffer sizes the
    other end reads with, it gets the written bytes in order and, after enough
    reads, all of them. *)
Theorem smux_transfer c answers b s w s1 r lens :
  VerifyConfig c = None → st_frameSize s = MaxFrameSize c → 0 <= st_id s < 2 ^ 32 →
  writeV1 c answers b s = (w, s1) → w_err w = None →
  st_buffers r = [] → st_heads r = [] → Forall (λ n, 1 <= n)%nat lens →
  read_frames (S (length (w_frames w))) (concat (frame_bytes <$> w_frames w)) = w_frames w ∧
  ∃ got r', reads c lens (receive (st_id s) (w_frames w) r) = Ok (got, r') ∧
    b = got ++ unread r' ∧ (length b <= length lens → got = b)%nat.
Proof.
  intros Hv Hfs Hid Hw He Hrb Hrh Hlens. unfold writeV1 in Hw.
  assert (1 <= MaxFrameSize c <= 65535 ∧ 0 <= version c < 256) as [Hmf Hver].
  { unfold VerifyConfig in Hv. repeat case_match; bools; try done.
    all: split; [lia|]; apply Z.mod_pos_bound; lia. }
  destruct (st_fin s); [simplify_eq; done|]. destruct (st_die s); [simplify_eq; done|].
  destruct (send_frames _ _ _ _ _ _ _) as [[sent e] fs] eqn:Es. simplify_eq. simpl in *. subst e.
  apply send_frames_data in Es as (_ & Hd & Hall); [|lia|done]. specialize (Hd eq_refl).
  split.
  - apply read_frames_bytes. eapply Forall_impl; [exact Hall|]. intros f (Hvf & Hcf & Hsf & Hlf).
    split; rewrite ?Hvf, ?Hcf, ?Hsf; unfold cmdPSH; try lia; done.
  - destruct (receive_spec (st_id s) fs r) as (Hok & Hne & Hu).
    + unfold stream_ok. by rewrite Hrb, Hrh.
    + unfold no_empty. by rewrite Hrb.
    + eapply Forall_impl; [exact Hall|]. simpl. intros f (? & ? & ? & ?). split_and!; try done. lia.
    + unfold unread at 2 in Hu. rewrite Hrb, Hd in Hu. simpl in Hu.
      destruct (reads_spec c lens _ Hok Hne Hlens) as (got & r' & Hr & Hur & Hend).
      exists got, r'. split; [done|]. rewrite Hu in Hur, Hend. split; [done|].
      intros Hlen. rewrite Hend in Hur by done. by rewrite app_nil_r in Hur.
Qed.

(** ** The window of protocol version 2 *)

(** The bytes sent and not yet reported as consumed, as the writer counts them. *)
Definition outstanding (s : stream) : Z := u32 (numWritten s - peerConsumed s).

Definition counters_ok (s : stream) : Prop :=
  0 <= numWritten s < 2 ^ 32 ∧ 0 <= peerConsumed s < 2 ^ 32 ∧ 0 <= peerWindow s < 2 ^ 31.

Lemma inflight_outstanding s : 0 <= inflight s → inflight s = outstanding s.
Proof.
  unfold inflight, outstanding. pose proof (u32_range (numWritten s - peerConsumed s)) as H.
  intros Hi. destruct (decide (u32 (numWritten s - peerConsumed s) < 2 ^ 31)) as [Hl|Hl].
  - apply i32_small. lia.
  - exfalso. unfold i32 in Hi.
    rewrite <- (Z_mod_plus_full _ (-1)) in Hi. rewrite Z.mod_small in Hi; lia.
Qed.

Lemma round_size_window b s :
  counters_ok s → 0 <= inflight s → Z.of_nat (length b) < 2 ^ 31 →
  Z.of_nat (round_size b s) = Z.min (Z.of_nat (length b)) (Z.max 0 (peerWindow s - outstanding s)).
Proof.
  intros (_ & _ & Hw) Hi Hb. pose proof (inflight_outstanding s Hi) as Ho.
  assert (window s = peerWindow s - inflight s) as Hwin.
  { unfold window. rewrite (i32_small (peerWindow s)) by lia. apply i32_small.
    unfold inflight in *. pose proof (i32_range (u32 (numWritten s - peerConsumed s))). lia. }
  unfold round_size. rewrite (i32_small (Z.of_nat _)) by lia.
  destruct (window s <=? 0) eqn:E1; bools; [lia|].
  destruct (_ <? window s) eqn:E2; bools; lia.
Qed.

Lemma u32_sub_add a b n : u32 (u32 (a + n) - b) = u32 (u32 (a - b) + n).
Proof.
  unfold u32. rewrite Zminus_mod_idemp_l, Zplus_mod_idemp_l. f_equal. lia.
Qed.

(** C29: One round of a version 2 write keeps within the peer's window (of less than 2 GiB),
    however the counters wrap: a round that sends anything ends with at most the advertised
    window outstanding, and one that finds the window full or overdrawn (the peer may have
    lowered it) sends nothing and leaves what is outstanding as it was.  What it sends is a
    prefix of the data, cut into non-empty frames of at most the frame size; without a write
    error it is all of the data or all the window has room for, and exactly what the round
    keeps no longer. *)
Theorem smux_window c answers n b s sent e fs b' s' :
  counters_ok s → 1 <= st_frameSize s → 0 <= inflight s → Z.of_nat (length b) < 2 ^ 31 →
  writeV2_round c answers n b s = (sent, e, fs, b', s') →
  outstanding s' = outstanding s + data_len fs ∧
  (fs ≠ [] → outstanding s' <= peerWindow s) ∧
  concat (f_data <$> fs) `prefix_of` b ∧
  (e = None → b = concat (f_data <$> fs) ++ b' ∧
              data_len fs = Z.min (Z.of_nat (length b)) (Z.max 0 (peerWindow s - outstanding s))) ∧
  Forall (λ f, f_cmd f = cmdPSH ∧ f_sid f = st_id s ∧
               1 <= Z.of_nat (length (f_data f)) <= st_frameSize s) fs.
Proof.
  intros Hc Hf Hi Hb H. unfold writeV2_round in H. cbv zeta in H.
  destruct (send_frames _ _ _ _ _ _ _) as [[sent1 e1] fs1] eqn:Es. simplify_eq.
  pose proof (round_size_window b s Hc Hi Hb) as Hk.
  set (k := round_size b s) in *.
  apply send_frames_data in Es as (Hp & Hd & Hall); [|lia|rewrite length_take; lia].
  assert (data_len fs <= Z.of_nat k) as Hdl.
  { unfold data_len. rewrite Hp, !length_take. lia. }
  assert (outstanding (set_counts (numRead s) (u32 (numWritten s + data_len fs)) (incr s) s) =
    outstanding s + data_len fs) as Ho.
  { unfold outstanding in *. simpl. rewrite u32_sub_add. apply u32_small.
    pose proof (u32_range (numWritten s - peerConsumed s)). destruct Hc as (_ & _ & ?).
    pose proof (inflight_outstanding s Hi) as Hio. unfold outstanding in Hio.
    unfold inflight in Hio. pose proof (i32_range (u32 (numWritten s - peerConsumed s))).
    assert (0 <= data_len fs) by (unfold data_len; lia). lia. }
  rewrite Ho. split; [done|]. split; [|split; [|split]].
  - intros Hne. assert (0 < data_len fs); [|lia]. destruct fs as [|f fs]; [done|].
    apply Forall_cons in Hall as [(_ & _ & _ & Hl) _]. unfold data_len. rewrite fmap_cons. cbn [concat]. rewrite length_app. lia.
  - rewrite Hp, take_take. apply prefix_take.
  - intros ->. split; [by rewrite Hd, take_drop|]. unfold data_len. rewrite Hd by done. rewrite length_take. lia.
  - eapply Forall_impl; [exact Hall|]. simpl. intros f (? & ? & ? & ?). split_and!; try done; lia.
Qed.
