(* ===== verification/SmuxSession.v ===== *)
(** pkg/smux/session.go: a session: stream identifiers, the receive loop, the
    token bucket that bounds buffered data.

    Streams are heap objects ([objs]) the session refers to by identifier through
    its map; an accepted or opened stream lives on after it left the map. *)
From S2P Require Import Prelude SmuxFrame SmuxStream.
Import Smux Stream.

Module Sess.

Definition oid := nat.
Definition defaultAcceptBacklog : nat := 1024.

Definition ErrInvalidProtocol : error := "invalid protocol".
Definition ErrGoAway : error := "stream id overflows, should start a new connection".

(** Who holds [streamLock] in the middle of its critical section: [recvLoop] after it pushed
    [n] bytes to a stream and before it debits the bucket; [streamClosed] after it took [n]
    unread bytes off a stream and before it returns them. *)
Inductive holding := HPushed (o : oid) (n : Z) | HRecycled (sid n : Z).

Record Session := MkSession {
  ss_config : Config;
  nextStreamID : Z;
  bucket : Z;
  bucketNotify : bool;
  streams : gmap Z oid;
  ss_die : bool;
  socketReadError : option error;
  socketWriteError : option error;
  protoError : option error;
  chAccepts : list oid;
  dataReady : bool;
  goAway : bool;
  requestID : Z;
  objs : gmap oid stream;
  fresh : oid;
  ss_lock : option holding }.

Definition newSession (c : Config) (client : bool) : Session :=
  MkSession c (if client then 1 else 0) (i32 (MaxReceiveBuffer c)) false ∅ false None None None []
    false false 0 ∅ 0%nat None.

Definition set_bucket b n s := MkSession (ss_config s) (nextStreamID s) b n (streams s) (ss_die s)
  (socketReadError s) (socketWriteError s) (protoError s) (chAccepts s) (dataReady s) (goAway s)
  (requestID s) (objs s) (fresh s) (ss_lock s).
Definition set_streams m s := MkSession (ss_config s) (nextStreamID s) (bucket s) (bucketNotify s) m
  (ss_die s) (socketReadError s) (socketWriteError s) (protoError s) (chAccepts s) (dataReady s)
  (goAway s) (requestID s) (objs s) (fresh s) (ss_lock s).
Definition set_objs o s := MkSession (ss_config s) (nextStreamID s) (bucket s) (bucketNotify s)
  (streams s) (ss_die s) (socketReadError s) (socketWriteError s) (protoError s) (chAccepts s)
  (dataReady s) (goAway s) (requestID s) o (fresh s) (ss_lock s).
Definition set_ids n g s := MkSession (ss_config s) n (bucket s) (bucketNotify s) (streams s)
  (ss_die s) (socketReadError s) (socketWriteError s) (protoError s) (chAccepts s) (dataReady s) g
  (requestID s) (objs s) (fresh s) (ss_lock s).
Definition set_sdie s := MkSession (ss_config s) (nextStreamID s) (bucket s) (bucketNotify s)
  (streams s) true (socketReadError s) (socketWriteError s) (protoError s) (chAccepts s)
  (dataReady s) (goAway s) (requestID s) (objs s) (fresh s) (ss_lock s).
Definition set_errors r w p s := MkSession (ss_config s) (nextStreamID s) (bucket s) (bucketNotify s)
  (streams s) (ss_die s) r w p (chAccepts s) (dataReady s) (goAway s) (requestID s) (objs s) (fresh s) (ss_lock s).
Definition set_accepts a s := MkSession (ss_config s) (nextStreamID s) (bucket s) (bucketNotify s)
  (streams s) (ss_die s) (socketReadError s) (socketWriteError s) (protoError s) a (dataReady s)
  (goAway s) (requestID s) (objs s) (fresh s) (ss_lock s).
Definition set_dataReady d s := MkSession (ss_config s) (nextStreamID s) (bucket s) (bucketNotify s)
  (streams s) (ss_die s) (socketReadError s) (socketWriteError s) (protoError s) (chAccepts s) d
  (goAway s) (requestID s) (objs s) (fresh s) (ss_lock s).
Definition set_lock l s := MkSession (ss_config s) (nextStreamID s) (bucket s) (bucketNotify s)
  (streams s) (ss_die s) (socketReadError s) (socketWriteError s) (protoError s) (chAccepts s)
  (dataReady s) (goAway s) (requestID s) (objs s) (fresh s) l.
(** A new stream object. *)
Definition alloc (st : stream) s : oid * Session :=
  (fresh s, MkSession (ss_config s) (nextStreamID s) (bucket s) (bucketNotify s) (streams s)
    (ss_die s) (socketReadError s) (socketWriteError s) (protoError s) (chAccepts s) (dataReady s)
    (goAway s) (requestID s) (<[fresh s := st]> (objs s)) (S (fresh s)) (ss_lock s)).

Definition upd_obj (o : oid) (f : stream → stream) (s : Session) : Session :=
  set_objs (alter f o (objs s)) s.

(** The [Once]-guarded notifications: only the first error is kept. *)
Definition notifyReadError (e : error) (s : Session) : Session :=
  match socketReadError s with
  | Some _ => s
  | None => set_errors (Some e) (socketWriteError s) (protoError s) s
  end.
Definition notifyWriteError (e : error) (s : Session) : Session :=
  match socketWriteError s with
  | Some _ => s
  | None => set_errors (socketReadError s) (Some e) (protoError s) s
  end.
Definition notifyProtoError (e : error) (s : Session) : Session :=
  match protoError s with
  | Some _ => s
  | None => set_errors (socketReadError s) (socketWriteError s) (Some e) s
  end.

(** ** Tokens *)

Definition returnTokens (n : Z) (s : Session) : Session :=
  let b := i32 (bucket s + i32 n) in
  set_bucket b (if 0 <? b then true else bucketNotify s) s.

(** [streamClosed]: the unread bytes of the stream are taken off it, go back to the bucket,
    and the stream leaves the map. *)
Definition streamClosed_begin (sid : Z) (s : Session) : Session :=
  match streams s !! sid with
  | None => s
  | Some o =>
      match objs s !! o with
      | None => s
      | Some st =>
          let '(n, st) := recycleTokens st in
          set_lock (Some (HRecycled sid n)) (set_objs (<[o := st]> (objs s)) s)
      end
  end.
Definition streamClosed_end (s : Session) : Session :=
  match ss_lock s with
  | Some (HRecycled sid n) =>
      let s := if 0 <? n then returnTokens n s else s in
      set_lock None (set_streams (delete sid (streams s)) s)
  | _ => s
  end.
Definition streamClosed (sid : Z) (s : Session) : Session := streamClosed_end (streamClosed_begin sid s).

(** ** Opening *)

(** The first half of [OpenStream]: checks, a new identifier, a new object. *)
Definition open_begin (s : Session) : (Z * oid + error) * Session :=
  if ss_die s then (inr ErrClosedPipe, s)
  else if goAway s then (inr ErrGoAway, s)
  else
    let sid := u32 (nextStreamID s + 2) in
    if sid =? sid mod 2 then (inr ErrGoAway, set_ids sid true s)
    else
      let '(o, s) := alloc (newStream sid (MaxFrameSize (ss_config s))) (set_ids sid (goAway s) s) in
      (inl (sid, o), s).

(** A [select] takes any of its ready cases; the environment names the one it
    took.  [None]: that case was not ready. *)
Inductive sel := SelReadError | SelWriteError | SelProtoError | SelDie | SelDeadline | SelMain.

Definition sel_error (c : sel) (deadline : bool) (s : Session) : option error :=
  match c with
  | SelReadError => socketReadError s
  | SelWriteError => socketWriteError s
  | SelProtoError => protoError s
  | SelDie => if ss_die s then Some ErrClosedPipe else None
  | SelDeadline => if deadline then Some ErrTimeout else None
  | SelMain => None
  end.

(** The second half, after the SYN frame was written ([wrote] is its result); the
    [default] case needs every other one not ready. *)
Definition open_end (sid : Z) (o : oid) (wrote : option error) (c : sel) (s : Session)
    : option ((oid + error) * Session) :=
  match wrote with
  | Some e => Some (inr e, s)
  | None =>
      match c with
      | SelReadError | SelWriteError | SelDie => e ← sel_error c false s; Some (inr e, s)
      | SelMain =>
          match socketReadError s, socketWriteError s, ss_die s with
          | None, None, false => Some (inl o, set_streams (<[sid := o]> (streams s)) s)
          | _, _, _ => None
          end
      | _ => None
      end
  end.

(** The SYN frame [OpenStream] sends between the halves. *)
Definition syn_frame (c : Config) (sid : Z) : Frame := newFrame (u8 (c_Version c)) cmdSYN sid.

Definition AcceptStream (c : sel) (deadline : bool) (s : Session)
    : option ((oid + error) * Session) :=
  match c with
  | SelMain =>
      match chAccepts s with
      | [] => None
      | o :: r => Some (inl o, set_accepts r s)
      end
  | SelWriteError => None
  | _ => e ← sel_error c deadline s; Some (inr e, s)
  end.

(** [Close]: every stream of the map is marked closed, once. *)
Definition Close (s : Session) : option error * Session :=
  if ss_die s then (Some ErrClosedPipe, s)
  else
    let s := set_sdie s in
    (None, set_objs (map_fold (λ _ o m, alter sessionClose o m) (objs s) (streams s)) s).

(** ** Receiving *)

(** What [recvLoop] does with a frame: it goes on, it stops after an error, or it
    waits, holding the lock on the streams, for room in the accept queue. *)
Inductive recv := RecvNext | RecvStop | RecvBlocked (o : oid).

(** The [select] on [chAccepts <- stream] and [die]; [skip]: it takes [die] although
    the queue has room. *)
Definition accept_push (skip : bool) (o : oid) (s : Session) : recv * Session :=
  if skip && ss_die s then (RecvNext, s)
  else if (length (chAccepts s) <? defaultAcceptBacklog)%nat then
    (RecvNext, set_accepts (chAccepts s ++ [o]) s)
  else if ss_die s then (RecvNext, s) else (RecvBlocked o, s).

(** The handling of a frame whose header, and body where it has one, was read; the bytes of a
    data frame are debited after a reader can have had them ([recv_debit]). *)
Definition recv_frame (skip : bool) (f : Frame) (s : Session) : recv * Session :=
  let s := set_dataReady true s in
  if negb (f_ver f =? u8 (c_Version (ss_config s))) then
    (RecvStop, notifyProtoError ErrInvalidProtocol s)
  else if f_cmd f =? cmdNOP then (RecvNext, s)
  else if f_cmd f =? cmdSYN then
    match streams s !! f_sid f with
    | Some _ => (RecvNext, s)
    | None =>
        let '(o, s) := alloc (newStream (f_sid f) (MaxFrameSize (ss_config s))) s in
        let s := set_streams (<[f_sid f := o]> (streams s)) s in
        accept_push skip o s
    end
  else if f_cmd f =? cmdFIN then
    match streams s !! f_sid f with
    | Some o => (RecvNext, upd_obj o (λ st, notifyReadEvent (fin st)) s)
    | None => (RecvNext, s)
    end
  else if f_cmd f =? cmdPSH then
    if (0 <? length (f_data f))%nat then
      match streams s !! f_sid f with
      | Some o =>
          let s := upd_obj o (pushBytes (f_data f)) s in
          (RecvNext, set_lock (Some (HPushed o (Z.of_nat (length (f_data f))))) s)
      | None => (RecvNext, s)
      end
    else (RecvNext, s)
  else if f_cmd f =? cmdUPD then
    match streams s !! f_sid f with
    | Some o => (RecvNext, upd_obj o (update (Consumed (f_data f)) (Window (f_data f))) s)
    | None => (RecvNext, s)
    end
  else (RecvStop, notifyProtoError ErrInvalidProtocol s).

(** The rest of the data frame. *)
Definition recv_debit (s : Session) : Session :=
  match ss_lock s with
  | Some (HPushed o n) =>
      let s := set_bucket (i32 (bucket s - i32 n)) (bucketNotify s) s in
      set_lock None (upd_obj o notifyReadEvent s)
  | _ => s
  end.

(** One round of [recvLoop] on what the connection has to give: a short read is
    an error, and the body of a frame is read once its version was accepted. *)
Definition recv_step (skip : bool) (input : list byte) (s : Session) : recv * list byte * Session :=
  match ReadFull headerSize input with
  | Ok (h, rest) =>
      let body := if negb (Version h =? u8 (c_Version (ss_config s))) then 0%nat
                  else if Cmd h =? cmdPSH then Z.to_nat (Length h)
                  else if Cmd h =? cmdUPD then szCmdUPD else 0%nat in
      match ReadFull body rest with
      | Ok (data, rest) =>
          let '(r, s) := recv_frame skip (MkFrame (Version h) (Cmd h) (StreamID h) data) s in
          (r, rest, s)
      | Err e => (RecvStop, [], notifyReadError e (set_dataReady true s))
      | _ => (RecvStop, [], s)
      end
  | Err e => (RecvStop, [], notifyReadError e s)
  | _ => (RecvStop, [], s)
  end.

(** The timeout tick of [keepalive]. *)
Definition keepalive_timeout (s : Session) : Session :=
  if dataReady s then set_dataReady false s
  else if 0 <? bucket s then (Close s).2 else s.

(** The ping tick, after its NOP frame. *)
Definition keepalive_ping (s : Session) : Session := set_bucket (bucket s) true s.

(** A user's read: the critical section on the stream's buffers. *)
Definition read_obj (o : oid) (len : nat) (s : Session) : outcome (ReadResult * Session) :=
  match objs s !! o with
  | None => Panic
  | Some st =>
      r ← tryRead (ss_config s) len st;
      let '(r, st) := r in Ok (r, set_objs (<[o := st]> (objs s)) s)
  end.

Definition writeTo_obj (o : oid) (s : Session) : outcome (ReadResult * Session) :=
  match objs s !! o with
  | None => Panic
  | Some st =>
      r ← writeTo_step (ss_config s) st;
      let '(r, st) := r in Ok (r, set_objs (<[o := st]> (objs s)) s)
  end.

(** ** Interleavings *)

(** The session and the tokens readers took off buffers and have not returned
    yet.  Anything the goroutines of a session do, in any order; a frame is read
    off the connection only while the bucket is positive (or the session closed).
    What changes the streams needs [streamLock]: [free s s'], a step from [s] to [s'] has it,
    or leaves the streams as they are. *)
Definition sstate : Type := Session * list Z.
Definition free (s s' : Session) : Prop :=
  ss_lock s = None ∨ streams s' = streams s ∧ objs s' = objs s ∧ ss_lock s' = ss_lock s.
Definition pushing (s : Session) : bool := match ss_lock s with Some (HPushed _ _) => true | _ => false end.

Inductive sstep : sstate → sstate → Prop :=
| st_recv skip input s p r rest s' :
    0 < bucket s ∨ ss_die s = true → pushing s = false → recv_step skip input s = (r, rest, s') → free s s' →
    sstep (s, p) (s', p)
| st_debit s p : pushing s = true → sstep (s, p) (recv_debit s, p)
| st_unblock skip o s p r s' : accept_push skip o s = (r, s') → sstep (s, p) (s', p)
| st_read o len s p r s' :
    read_obj o len s = Ok (r, s') →
    sstep (s, p) (s', if 0 <? r_tokens r then r_tokens r :: p else p)
| st_writeTo o s p r s' :
    writeTo_obj o s = Ok (r, s') →
    sstep (s, p) (s', if 0 <? r_tokens r then r_tokens r :: p else p)
| st_return n s p1 p2 : sstep (s, p1 ++ n :: p2) (returnTokens n s, p1 ++ p2)
| st_open s p r s' : open_begin s = (r, s') → sstep (s, p) (s', p)
| st_opened sid o wrote c s p r s' :
    is_Some (objs s !! o) → open_end sid o wrote c s = Some (r, s') → free s s' → sstep (s, p) (s', p)
| st_accept c d s p r s' : AcceptStream c d s = Some (r, s') → sstep (s, p) (s', p)
| st_stream_close o s p :
    sstep (s, p) (upd_obj o (λ st, (close_stream (ss_config s) st).2) s, p)
| st_stream_closed sid s p : ss_lock s = None → sstep (s, p) (streamClosed_begin sid s, p)
| st_stream_gone s p : sstep (s, p) (streamClosed_end s, p)
| st_close s p r s' : Close s = (r, s') → sstep (s, p) (s', p)
| st_keepalive s p : sstep (s, p) (keepalive_timeout s, p)
| st_ping s p : sstep (s, p) (keepalive_ping s, p)
| st_write_error e s p : sstep (s, p) (notifyWriteError e s, p).
End Sess.
