(* ===== verification/SmuxSessionProofs.v ===== *)
(** pkg/smux/session.go: the token bucket bounds what a session buffers; stream
    identifiers. *)
From S2P Require Import Prelude SmuxFrame SmuxStream SmuxStreamProofs SmuxSession.
Import Smux Stream Sess.

(** ** Bytes held by the streams *)

Definition held_st (st : stream) : Z := Z.of_nat (length (unread st)).
Definition held (m : gmap oid stream) : Z := map_fold (λ _ st acc, held_st st + acc) 0 m.

Lemma held_st_nonneg st : 0 <= held_st st.
Proof. unfold held_st. lia. Qed.

Lemma held_empty : held ∅ = 0.
Proof. apply map_fold_empty. Qed.

Lemma held_insert m o st : m !! o = None → held (<[o := st]> m) = held_st st + held m.
Proof. intros H. unfold held. rewrite map_fold_insert_L; [done| |done]. intros; lia. Qed.

Lemma held_delete m o st : m !! o = Some st → held m = held_st st + held (delete o m).
Proof. intros H. rewrite <- (insert_delete_id m o st H) at 1. apply held_insert, lookup_delete_eq. Qed.

Lemma held_replace m o st st' :
  m !! o = Some st → held (<[o := st']> m) = held m - held_st st + held_st st'.
Proof.
  intros H. rewrite (held_delete m o st H), <- insert_delete_eq, held_insert by apply lookup_delete_eq.
  lia.
Qed.

(** Only the buffers matter. *)
Definition bufs (st : stream) : list (list byte) * list (list byte) := (st_buffers st, st_heads st).

Lemma held_ext m m' : (∀ o, bufs <$> m' !! o = bufs <$> m !! o) → held m' = held m.
Proof.
  intros H.
  assert (∀ m, held m =
    map_fold (λ _ b acc, Z.of_nat (length (concat b.1)) + acc) 0 (bufs <$> m)) as Hf.
  { intros m0. rewrite map_fold_fmap. done. }
  rewrite !Hf. f_equal. apply map_eq. intros o. by rewrite !lookup_fmap, H.
Qed.

Lemma held_nonneg m : 0 <= held m.
Proof.
  unfold held. apply (map_fold_weak_ind (λ r _, 0 <= r)); [lia|].
  intros o st m' r _ Hr. pose proof (held_st_nonneg st). lia.
Qed.

Definition pending (p : list Z) : Z := foldr Z.add 0 p.

Lemma pending_app p q : pending (p ++ q) = pending p + pending q.
Proof. unfold pending. induction p; simpl; lia. Qed.

(** Bytes pushed and not debited yet, and taken off a closed stream and not returned yet. *)
Definition pushed (s : Session) : Z := match ss_lock s with Some (HPushed _ n) => n | _ => 0 end.
Definition recycled (s : Session) : Z := match ss_lock s with Some (HRecycled _ n) => n | _ => 0 end.
(** The tokens that are left when everything held or on its way back is counted. *)
Definition left_ (max : Z) (x : sstate) : Z := max - recycled x.1 - held (objs x.1) - pending x.2.

(** The identity the session maintains, with every object well formed. *)
Record tokens_ok (max : Z) (x : sstate) : Prop := {
  tk_sum : bucket x.1 = i32 (left_ max x + pushed x.1);
  tk_low : -65535 < left_ max x;
  tk_lock : 0 <= pushed x.1 < 2 ^ 16 ∧ 0 <= recycled x.1;
  tk_pend : Forall (λ n, 0 < n) x.2;
  tk_objs : ∀ o st, objs x.1 !! o = Some st → stream_ok st ∧ no_empty st;
  tk_map : ∀ sid o, streams x.1 !! sid = Some o → is_Some (objs x.1 !! o);
  tk_acc : ∀ o : oid, objs x.1 !! o ≠ None → (o < fresh x.1)%nat }.

Lemma pending_nonneg p : Forall (λ n, 0 < n) p → 0 <= pending p.
Proof. unfold pending. induction 1; simpl; lia. Qed.

Lemma left_max max x : tokens_ok max x → left_ max x <= max.
Proof.
  intros [_ _ [_ Hr] Hp _ _ _]. pose proof (held_nonneg (objs x.1)). pose proof (pending_nonneg x.2 Hp). unfold left_. lia.
Qed.
(** Without a lock on its way the bucket is what is left. *)
Lemma tokens_exact max s p :
  0 <= max < 2 ^ 31 → tokens_ok max (s, p) → pushed s = 0 → bucket s = left_ max (s, p).
Proof.
  intros Hmax Hok Hp. pose proof (left_max _ _ Hok). destruct Hok as [Hs Hl _ _ _ _ _]. simpl in *.
  rewrite Hs, Hp, Z.add_0_r. apply i32_small. lia.
Qed.

(** Steps that touch neither the bucket nor the buffers. *)
Lemma tokens_ok_frame max s s' p :
  tokens_ok max (s, p) → bucket s' = bucket s → ss_lock s' = ss_lock s → (fresh s <= fresh s')%nat →
  (∀ o, bufs <$> objs s' !! o = bufs <$> objs s !! o) →
  (∀ sid o, streams s' !! sid = Some o → is_Some (objs s !! o)) →
  tokens_ok max (s', p).
Proof.
  intros [Hs Hl Hk Hp Ho Hm Ha] Hb Hlk Hf Hobj Hst. unfold left_, pushed, recycled in *. simpl in *.
  split; unfold left_, pushed, recycled; simpl; rewrite ?Hlk, ?(held_ext (objs s) (objs s')) by done.
  - by rewrite Hb.
  - done.
  - done.
  - done.
  - intros o st Hst'. specialize (Hobj o). rewrite Hst' in Hobj. simpl in Hobj.
    destruct (objs s !! o) as [st0|] eqn:E; [|done]. simpl in Hobj. injection Hobj as Hb1 Hb2.
    destruct (Ho o st0 E) as [H1 H2]. unfold stream_ok, no_empty in *. by rewrite Hb1, Hb2.
  - intros sid o H. specialize (Hst sid o H). specialize (Hobj o).
    destruct (objs s !! o) as [st0|]; [|by destruct Hst].
    revert Hobj. destruct (objs s' !! o); [by eexists|done].
  - intros o Hn. apply (Nat.lt_le_trans _ (fresh s)); [|done]. apply Ha. specialize (Hobj o).
    revert Hn Hobj. destruct (objs s !! o); [done|]. by destruct (objs s' !! o).
Qed.

Lemma bufs_alter f (m : gmap oid stream) o o' :
  (∀ st, bufs (f st) = bufs st) → bufs <$> alter f o m !! o' = bufs <$> m !! o'.
Proof.
  intros Hf. destruct (decide (o = o')) as [->|].
  - rewrite lookup_alter_eq. destruct (m !! o'); simpl; [by rewrite Hf|done].
  - by rewrite lookup_alter_ne.
Qed.

Lemma tokens_ok_upd max s p o f :
  (∀ st, bufs (f st) = bufs st) → tokens_ok max (s, p) → tokens_ok max (upd_obj o f s, p).
Proof.
  intros Hf Hok. apply (tokens_ok_frame max s); try done.
  - intros o'. simpl. by apply bufs_alter.
  - intros sid o' H. by apply (tk_map _ _ Hok sid).
Qed.

Lemma tokens_ok_alloc max s p st o s' :
  tokens_ok max (s, p) → st_buffers st = [] → st_heads st = [] → alloc st s = (o, s') →
  tokens_ok max (s', p) ∧ objs s' !! o = Some st.
Proof.
  intros [Hs Hl Hk Hp Ho Hm Ha] Hb Hh [= <- <-]. unfold left_, pushed, recycled in *. simpl in *.
  assert (objs s !! fresh s = None) as Hnone.
  { destruct (objs s !! fresh s) eqn:E; [|done]. specialize (Ha (fresh s)). rewrite E in Ha.
    specialize (Ha ltac:(done)). lia. }
  assert (held (<[fresh s := st]> (objs s)) = held (objs s)) as Hh'
    by (rewrite held_insert by done; unfold held_st, unread; rewrite Hb; simpl; lia).
  split; [|simpl; apply lookup_insert_eq]. split; unfold left_, pushed, recycled; simpl; rewrite ?Hh'; try done.
  - intros o st'. rewrite lookup_insert. case_decide; [intros [= <-]; subst|apply Ho].
    unfold stream_ok, no_empty. by rewrite Hb, Hh.
  - intros sid o H. rewrite lookup_insert. case_decide; [by eexists|]. by apply (Hm sid).
  - intros o. rewrite lookup_insert. case_decide; [intros _; lia|]. intros Hx. apply Ha in Hx. lia.
Qed.

Lemma tokens_ok_streams max s p m :
  tokens_ok max (s, p) → (∀ sid o, m !! sid = Some o → is_Some (objs s !! o)) →
  tokens_ok max (set_streams m s, p).
Proof. intros Hok Hm. by apply (tokens_ok_frame max s). Qed.

(** ** The operations that move tokens *)

Lemma tokens_ok_push max s p o data :
  0 <= max < 2 ^ 31 → tokens_ok max (s, p) → 0 < bucket s → ss_lock s = None →
  (0 < length data)%nat → Z.of_nat (length data) < 2 ^ 16 → is_Some (objs s !! o) →
  tokens_ok max (set_lock (Some (HPushed o (Z.of_nat (length data)))) (upd_obj o (pushBytes data) s), p).
Proof.
  intros Hmax Hok Hb Hlk Hd Hd2 [st Hst].
  assert (bucket s = left_ max (s, p)) as Hx by (apply tokens_exact; [done..|by unfold pushed; rewrite Hlk]).
  pose proof Hok as [Hs Hl Hk Hp Ho Hm Ha]. unfold left_, pushed, recycled in *. simpl in *. rewrite Hlk in *.
  assert (alter (pushBytes data) o (objs s) = <[o := pushBytes data st]> (objs s)) as Halt.
  { apply map_eq. intros o'. destruct (decide (o = o')) as [<-|].
    - by rewrite lookup_alter_eq, lookup_insert_eq, Hst.
    - by rewrite lookup_alter_ne, lookup_insert_ne. }
  assert (held (alter (pushBytes data) o (objs s)) = held (objs s) + Z.of_nat (length data)) as Hh.
  { rewrite Halt, (held_replace _ _ _ _ Hst). unfold held_st. rewrite unread_push, length_app. lia. }
  split; unfold left_, pushed, recycled; simpl; rewrite ?Hh.
  - rewrite Hs. f_equal. lia.
  - lia.
  - lia.
  - done.
  - intros o' st'. rewrite Halt, lookup_insert. case_decide; [|apply Ho]. intros [= <-]. subst.
    destruct (Ho o' st Hst) as [H1 H2]. split; [by apply stream_ok_push|].
    unfold no_empty, pushBytes. simpl. apply Forall_app. split; [done|].
    apply Forall_singleton. intros ->. simpl in Hd. lia.
  - intros sid o' H1. apply Hm in H1. rewrite Halt, lookup_insert. case_decide; [by eexists|done].
  - intros o'. rewrite Halt, lookup_insert. case_decide; [|apply Ha]. intros _. subst.
    apply Ha. by rewrite Hst.
Qed.

Lemma tokens_ok_debit max s p : tokens_ok max (s, p) → tokens_ok max (recv_debit s, p).
Proof.
  intros Hok. unfold recv_debit. destruct (ss_lock s) as [[o n|]|] eqn:El; [|done..].
  set (s1 := set_lock None (set_bucket (i32 (bucket s - i32 n)) (bucketNotify s) s)).
  assert (tokens_ok max (s1, p)) as Hok1.
  { destruct Hok as [Hs Hl Hk Hp Ho Hm Ha]. unfold left_, pushed, recycled in *. simpl in *. rewrite El in *.
    split; unfold left_, pushed, recycled; simpl; try done; try lia.
    rewrite Hs, (i32_small n) by lia. unfold Z.sub at 1. rewrite i32_add_l. f_equal. lia. }
  by apply (tokens_ok_upd max s1 p o notifyReadEvent).
Qed.

Lemma tokens_ok_return max s p1 n p2 :
  tokens_ok max (s, p1 ++ n :: p2) → tokens_ok max (returnTokens n s, p1 ++ p2).
Proof.
  intros [Hs Hl Hk Hp Ho Hm Ha]. unfold left_, pushed, recycled in *. simpl in *.
  apply Forall_app in Hp as [Hp1 Hp2]. apply Forall_cons_1 in Hp2 as [Hn Hp2].
  rewrite pending_app in Hs, Hl. simpl in Hs, Hl.
  unfold returnTokens. split; unfold left_, pushed, recycled; simpl; rewrite ?pending_app; try done; try lia.
  - rewrite Hs, i32_add_l, Z.add_comm, i32_add_l. f_equal. lia.
  - by apply Forall_app.
Qed.

(** A read takes what it returns off the buffers of its stream. *)
Lemma tokens_ok_taken max s p o st st' n :
  tokens_ok max (s, p) → objs s !! o = Some st → 0 <= n →
  held_st st = n + held_st st' → stream_ok st' → no_empty st' →
  tokens_ok max (set_objs (<[o := st']> (objs s)) s, if 0 <? n then n :: p else p).
Proof.
  intros [Hs Hl Hk Hp Ho Hm Ha] Hst Hn Hh Hok Hne. unfold left_, pushed, recycled in *. simpl in *.
  assert (held (<[o := st']> (objs s)) + pending (if 0 <? n then n :: p else p) = held (objs s) + pending p) as He.
  { rewrite (held_replace _ _ _ _ Hst). destruct (0 <? n) eqn:E; bools; simpl; lia. }
  split; unfold left_, pushed, recycled; simpl.
  - rewrite Hs. f_equal. lia.
  - lia.
  - done.
  - destruct (0 <? n) eqn:E; bools; [by constructor|done].
  - intros o' st''. rewrite lookup_insert. case_decide; [by intros [= <-]|apply Ho].
  - intros sid o' H1. apply Hm in H1. rewrite lookup_insert. case_decide; [by eexists|done].
  - intros o'. rewrite lookup_insert. case_decide; [|apply Ha]. intros _. subst.
    apply Ha. by rewrite Hst.
Qed.

Lemma tokens_ok_read max s p o len r s' :
  tokens_ok max (s, p) → read_obj o len s = Ok (r, s') →
  tokens_ok max (s', if 0 <? r_tokens r then r_tokens r :: p else p).
Proof.
  intros Hok H. unfold read_obj in H. destruct (objs s !! o) as [st|] eqn:Est; [|done].
  apply bind_Ok in H as ([r' st'] & Hr & H). simplify_eq.
  destruct (tk_objs _ _ Hok o st Est) as [Ho1 Ho2].
  destruct (decide (len = 0%nat)) as [->|Hlen].
  - assert (r = MkRead [] None 0 None ∧ st' = st) as [-> ->].
    { unfold tryRead, tryReadv1, tryReadv2 in Hr. simpl in Hr. case_match; by simplify_eq. }
    apply (tokens_ok_taken max s p o st st 0); done || lia.
  - destruct (tryRead_spec (ss_config s) len st Ho1 Ho2 ltac:(lia))
      as (r1 & st1 & Hr1 & ? & ? & Hu & _ & Ht & _). rewrite Hr in Hr1. simplify_eq.
    apply (tokens_ok_taken max s p o st st1 (r_tokens r1)); try done; rewrite Ht; [lia|].
    unfold held_st. rewrite Hu, length_app. lia.
Qed.

Lemma tokens_ok_writeTo max s p o r s' :
  tokens_ok max (s, p) → writeTo_obj o s = Ok (r, s') →
  tokens_ok max (s', if 0 <? r_tokens r then r_tokens r :: p else p).
Proof.
  intros Hok H. unfold writeTo_obj in H. destruct (objs s !! o) as [st|] eqn:Est; [|done].
  apply bind_Ok in H as ([r' st'] & Hr & H). simplify_eq.
  destruct (tk_objs _ _ Hok o st Est) as [Ho1 Ho2].
  unfold writeTo_step in Hr. unfold stream_ok, no_empty in Ho1, Ho2.
  assert (∀ v n s1, bufs (if c_Version (ss_config s) =? 2
    then window_rule (MaxStreamBuffer (ss_config s)) v s1 else (n, s1)).2 = bufs s1) as Hwr.
  { intros v n s1. case_match; [|done]. destruct (window_rule _ _ s1) as [k s2] eqn:E.
    apply window_rule_buffers in E as (? & ? & _). unfold bufs. simpl. congruence. }
  destruct (st_buffers st) as [|b bs] eqn:Eb.
  - cbn [head default mbind outcome_bind length] in Hr. cbv zeta in Hr.
    specialize (Hwr 0 0 st). destruct (if _ =? 2 then _ else _) as [k s2].
    injection Hwr as H1 H2. injection Hr as <- <-.
    apply (tokens_ok_taken max s p o st s2 0); try done; unfold held_st, unread, stream_ok, no_empty;
      rewrite ?H1, ?H2, ?Eb; done || lia.
  - destruct (st_heads st) as [|h hs] eqn:Eh; [done|]. apply Forall_cons_1 in Ho2 as [Hb Hbs].
    cbn [head default mbind outcome_bind] in Hr. cbv zeta in Hr.
    specialize (Hwr (Z.of_nat (length b)) 0 (set_buffers bs hs st)).
    destruct (if _ =? 2 then _ else _) as [k s2].
    injection Hwr as H1 H2. injection Hr as <- <-.
    apply (tokens_ok_taken max s p o st s2 (Z.of_nat (length b))); try done; [lia|..].
    + unfold held_st, unread. rewrite H1, Eb. simpl. rewrite length_app. lia.
    + unfold stream_ok. rewrite H1, H2. simpl in Ho1. lia.
    + unfold no_empty. by rewrite H1.
Qed.

Lemma tokens_ok_closing max s p sid :
  tokens_ok max (s, p) → ss_lock s = None → tokens_ok max (streamClosed_begin sid s, p).
Proof.
  intros Hok Hlk. unfold streamClosed_begin. destruct (streams s !! sid) as [o|] eqn:Eo; [|done].
  destruct (objs s !! o) as [st|] eqn:Est; [|done]. cbn [recycleTokens]. cbv iota beta zeta.
  set (n := Z.of_nat (length (concat (st_buffers st)))).
  assert (held (<[o := set_buffers [] [] st]> (objs s)) = held (objs s) - n) as Hh.
  { rewrite (held_replace _ _ _ _ Est). unfold held_st, unread. simpl. lia. }
  destruct Hok as [Hs Hl Hk Hp Ho Hm Ha]. unfold left_, pushed, recycled in *. simpl in *. rewrite Hlk in *.
  split; unfold left_, pushed, recycled; simpl; rewrite ?Hh; try done; try lia.
  - rewrite Hs. f_equal. lia.
  - intros o' st'. rewrite lookup_insert. case_decide; [intros [= <-]; split; [done|by constructor]|apply Ho].
  - intros sid' o' H1. apply Hm in H1. rewrite lookup_insert. case_decide; [by eexists|done].
  - intros o'. rewrite lookup_insert. case_decide; [|apply Ha]. intros _. subst. apply Ha. by rewrite Est.
Qed.

Lemma tokens_ok_closed max s p : tokens_ok max (s, p) → tokens_ok max (streamClosed_end s, p).
Proof.
  intros Hok. unfold streamClosed_end. destruct (ss_lock s) as [[|sid n]|] eqn:El; [done| |done].
  set (s1 := if 0 <? n then returnTokens n s else s).
  assert (streams s1 = streams s ∧ objs s1 = objs s ∧ fresh s1 = fresh s) as (E1 & E2 & E3) by (unfold s1; by destruct (0 <? n)).
  destruct Hok as [Hs Hl Hk Hp Ho Hm Ha]. unfold left_, pushed, recycled in *. simpl in *. rewrite El in *.
  assert (bucket s1 = i32 (max - held (objs s) - pending p)) as Hb.
  { unfold s1. destruct (0 <? n) eqn:E; bools; simpl.
    - rewrite Hs, i32_add_l, Z.add_comm, i32_add_l. f_equal. lia.
    - rewrite Hs. f_equal. lia. }
  split; unfold left_, pushed, recycled; simpl; rewrite ?E1, ?E2, ?E3; try done; try lia.
  - rewrite Hb. f_equal. lia.
  - intros sid' o'. rewrite lookup_delete_Some. intros [_ H]. by apply (Hm sid' o').
Qed.

(** ** Every step keeps the identity *)

Lemma bufs_close (m : gmap Z oid) (os : gmap oid stream) o :
  bufs <$> map_fold (λ _ o m, alter sessionClose o m) os m !! o = bufs <$> os !! o.
Proof.
  apply (map_fold_weak_ind (λ r _, bufs <$> r !! o = bufs <$> os !! o)); [done|].
  intros i x m' r _ IH. by rewrite bufs_alter.
Qed.

Lemma tokens_ok_close max s p r s' :
  tokens_ok max (s, p) → Close s = (r, s') → tokens_ok max (s', p).
Proof.
  unfold Close. intros Hok H. destruct (ss_die s); simplify_eq; [done|].
  apply (tokens_ok_frame max s); try done.
  - intros o. simpl. apply bufs_close.
  - intros sid o. apply (tk_map _ _ Hok).
Qed.

Lemma tokens_ok_same max s s' p :
  tokens_ok max (s, p) → bucket s' = bucket s → ss_lock s' = ss_lock s → (fresh s <= fresh s')%nat → objs s' = objs s →
  streams s' = streams s → tokens_ok max (s', p).
Proof.
  intros Hok Hb Hlk Hf Ho Hs. apply (tokens_ok_frame max s); try done; [by rewrite Ho|].
  intros sid o. rewrite Hs. apply (tk_map _ _ Hok).
Qed.

Lemma tokens_ok_notifyProto max s p e :
  tokens_ok max (s, p) → tokens_ok max (notifyProtoError e s, p).
Proof. intros. unfold notifyProtoError. case_match; [done|]. by apply (tokens_ok_same max s). Qed.

Lemma tokens_ok_syn max s p sid c s1 o :
  tokens_ok max (s, p) → alloc (newStream sid c) s = (o, s1) →
  tokens_ok max (set_streams (<[sid := o]> (streams s1)) s1, p).
Proof.
  intros Hok Ha. destruct (tokens_ok_alloc max s p (newStream sid c) o s1 Hok eq_refl eq_refl Ha) as [Hok1 Ho].
  apply tokens_ok_streams; [done|]. intros sid' o'. rewrite lookup_insert_Some.
  intros [[_ <-]|[_ H]]; [by eexists|]. by apply (tk_map _ _ Hok1 sid').
Qed.

Lemma tokens_ok_accept max s p skip o r s' :
  tokens_ok max (s, p) → accept_push skip o s = (r, s') → tokens_ok max (s', p).
Proof.
  unfold accept_push. intros Hok. destruct (skip && ss_die s); [by intros [= <- <-]|].
  destruct (_ <? _)%nat.
  - intros [= <- <-]. by apply (tokens_ok_same max s).
  - by destruct (ss_die s); intros [= <- <-].
Qed.

Lemma tokens_ok_recv max s p skip f r s' :
  0 <= max < 2 ^ 31 → tokens_ok max (s, p) → 0 < bucket s → ss_lock s = None → Z.of_nat (length (f_data f)) < 2 ^ 16 →
  recv_frame skip f s = (r, s') → tokens_ok max (s', p).
Proof.
  intros Hmax Hok0 Hb Hlk Hlen. unfold recv_frame. cbv zeta.
  assert (tokens_ok max (set_dataReady true s, p)) as Hok by by apply (tokens_ok_same max s).
  assert (0 < bucket (set_dataReady true s)) as Hb' by done.
  assert (ss_lock (set_dataReady true s) = None) as Hlk' by done.
  set (s0 := set_dataReady true s) in *. clearbody s0. clear Hok0 Hb Hlk.
  destruct (negb _).
  { intros [= <- <-]. by apply tokens_ok_notifyProto. }
  destruct (f_cmd f =? cmdNOP); [by intros [= <- <-]|].
  destruct (f_cmd f =? cmdSYN).
  { destruct (streams s0 !! f_sid f); [by intros [= <- <-]|].
    destruct (alloc _ s0) as [o s1] eqn:Ea. pose proof (tokens_ok_syn _ _ _ _ _ _ _ Hok Ea) as Hok1.
    by eapply tokens_ok_accept. }
  destruct (f_cmd f =? cmdFIN).
  { destruct (streams s0 !! f_sid f); intros [= <- <-]; [by apply tokens_ok_upd|done]. }
  destruct (f_cmd f =? cmdPSH).
  { destruct (0 <? length (f_data f))%nat eqn:El; [|by intros [= <- <-]]. apply Nat.ltb_lt in El.
    destruct (streams s0 !! f_sid f) as [o|] eqn:Eo; intros [= <- <-]; [|done].
    apply tokens_ok_push; try done. by apply (tk_map _ _ Hok (f_sid f)). }
  destruct (f_cmd f =? cmdUPD).
  { destruct (streams s0 !! f_sid f); intros [= <- <-]; [by apply tokens_ok_upd|done]. }
  intros [= <- <-]. by apply tokens_ok_notifyProto.
Qed.

Lemma tokens_ok_readError max s p e :
  tokens_ok max (s, p) → tokens_ok max (notifyReadError e s, p).
Proof. intros. unfold notifyReadError. case_match; [done|]. by apply (tokens_ok_same max s). Qed.

Lemma le_val_take2 l : Z.of_nat (Z.to_nat (le_val (take 2 l))) < 2 ^ 16.
Proof.
  pose proof (le_val_range (take 2 l)).
  assert (256 ^ Z.of_nat (length (take 2 l)) <= 256 ^ 2); [|lia].
  apply Z.pow_le_mono_r; rewrite ?length_take; lia.
Qed.

Lemma tokens_ok_recv_step max s p skip input r rest s' :
  0 <= max < 2 ^ 31 → tokens_ok max (s, p) → 0 < bucket s → ss_lock s = None →
  recv_step skip input s = (r, rest, s') → tokens_ok max (s', p).
Proof.
  intros Hmax Hok Hb Hlk. unfold recv_step.
  destruct (ReadFull_cases headerSize input) as [(h & r1 & ->)|(e & -> & _)]; cycle 1.
  { intros [= <- <- <-]. by apply tokens_ok_readError. }
  cbv zeta. set (body := if negb _ then _ else _).
  destruct (ReadFull body r1) as [[data r2]|e| |] eqn:E2; intros H; simplify_eq; try done; cycle 1.
  { apply tokens_ok_readError. by apply (tokens_ok_same max s). }
  destruct (recv_frame _ _ s) as [r3 s3] eqn:E3. simplify_eq.
  eapply tokens_ok_recv; [done..| |exact E3]. simpl.
  apply ReadFull_Ok in E2 as [_ ->]. unfold body, Length.
  repeat case_match; try (unfold szCmdUPD; lia). apply le_val_take2.
Qed.

(** No frame moves the bucket by itself. *)
Lemma bucket_recv_frame skip f s : bucket (recv_frame skip f s).2 = bucket s ∧ (fresh s <= fresh (recv_frame skip f s).2)%nat.
Proof.
  unfold recv_frame, notifyProtoError, accept_push, alloc. cbv zeta.
  repeat (case_match; simpl in *); split; done || lia.
Qed.
Lemma bucket_recv_step skip input s r rest s' :
  recv_step skip input s = (r, rest, s') → bucket s' = bucket s ∧ (fresh s <= fresh s')%nat.
Proof.
  unfold recv_step, notifyReadError. intros H.
  destruct (ReadFull _ input) as [[h r1]|e| |]; simplify_eq; try (by split); [|case_match; by split].
  cbv zeta in H. destruct (ReadFull _ r1) as [[data r2]|e| |]; simplify_eq; try (by split); [|case_match; by split].
  destruct (recv_frame _ _ s) as [r3 s3] eqn:E3. simplify_eq.
  change s' with ((r, s').2). rewrite <- E3. apply bucket_recv_frame.
Qed.

Lemma tokens_ok_open max s p r s' :
  tokens_ok max (s, p) → open_begin s = (r, s') → tokens_ok max (s', p).
Proof.
  intros Hok. unfold open_begin. cbv zeta. destruct (ss_die s); [by intros [= <- <-]|].
  destruct (goAway s); [by intros [= <- <-]|]. destruct (_ =? _).
  { intros [= <- <-]. by apply (tokens_ok_same max s). }
  destruct (alloc _ _) as [o s1] eqn:Ea. intros [= <- <-].
  eapply tokens_ok_alloc in Ea as [Ha _]; [exact Ha|by apply (tokens_ok_same max s)|done..].
Qed.

Lemma tokens_ok_opened max s p sid o w c r s' :
  tokens_ok max (s, p) → is_Some (objs s !! o) → open_end sid o w c s = Some (r, s') →
  tokens_ok max (s', p).
Proof.
  intros Hok Ho H. unfold open_end, sel_error in H. destruct w; [by simplify_eq|].
  destruct c, (socketReadError s), (socketWriteError s), (ss_die s); simpl in H; simplify_eq; try done.
  apply tokens_ok_streams; [done|]. intros sid' o'. rewrite lookup_insert_Some.
  intros [[_ <-]|[_ H]]; [done|]. by apply (tk_map _ _ Hok sid').
Qed.

Lemma AcceptStream_state c d s r s' :
  AcceptStream c d s = Some (r, s') → s' = s ∨ ∃ a, s' = set_accepts a s.
Proof.
  unfold AcceptStream, sel_error. intros H.
  destruct c, (socketReadError s), (protoError s), (ss_die s), d, (chAccepts s);
    simpl in H; simplify_eq; eauto.
Qed.

Lemma open_end_state sid o w c s r s' :
  open_end sid o w c s = Some (r, s') → s' = s ∨ ∃ m, s' = set_streams m s.
Proof.
  unfold open_end, sel_error. intros H.
  destruct w, c, (socketReadError s), (socketWriteError s), (ss_die s);
    simpl in H; simplify_eq; eauto.
Qed.

Lemma tokens_ok_step max x y :
  0 <= max < 2 ^ 31 → tokens_ok max x → ss_die x.1 = false → sstep x y → tokens_ok max y.
Proof.
  intros Hmax Hok Hdie Hstep. destruct Hstep; simpl in Hdie.
  - destruct H2 as [Hlk|(E1 & E2 & E3)].
    + eapply tokens_ok_recv_step; eauto. destruct H; congruence.
    + apply bucket_recv_step in H1 as [? ?]. by apply (tokens_ok_same max s).
  - by apply tokens_ok_debit.
  - by eapply tokens_ok_accept.
  - by eapply tokens_ok_read.
  - by eapply tokens_ok_writeTo.
  - by apply tokens_ok_return.
  - by eapply tokens_ok_open.
  - by eapply tokens_ok_opened.
  - apply AcceptStream_state in H as [->|[a ->]]; [done|]. by apply (tokens_ok_same max s).
  - apply tokens_ok_upd; [|done]. intros st. unfold close_stream. by destruct (st_die st).
  - by apply tokens_ok_closing.
  - by apply tokens_ok_closed.
  - by eapply tokens_ok_close.
  - unfold keepalive_timeout. destruct (dataReady s); [by apply (tokens_ok_same max s)|].
    destruct (0 <? bucket s); [|done]. destruct (Close s) as [r s'] eqn:E.
    by eapply tokens_ok_close.
  - by apply (tokens_ok_same max s).
  - unfold notifyWriteError. destruct (socketWriteError s); [done|]. by apply (tokens_ok_same max s).
Qed.

Lemma tokens_ok_init c client :
  0 <= i32 (MaxReceiveBuffer c) → tokens_ok (i32 (MaxReceiveBuffer c)) (newSession c client, []).
Proof.
  intros H. pose proof (i32_range (MaxReceiveBuffer c)).
  split; unfold left_, pushed, recycled; simpl; rewrite ?held_empty; try lia; [|by constructor|..].
  - rewrite (i32_small (_ + _)); lia.
  - intros o st. by rewrite lookup_empty.
  - intros sid o. by rewrite lookup_empty.
  - intros o. by rewrite lookup_empty.
Qed.

(** A session that died stays dead. *)
Lemma die_recv_frame skip f s : ss_die s = true → ss_die (recv_frame skip f s).2 = true.
Proof.
  intros Hd. unfold recv_frame, notifyProtoError, accept_push, alloc. cbv zeta.
  repeat (case_match; simpl in *); done.
Qed.

Lemma die_step x y : sstep x y → ss_die x.1 = true → ss_die y.1 = true.
Proof.
  intros Hstep Hd. destruct Hstep; simpl in *.
  - unfold recv_step in H1. destruct (ReadFull _ input) as [[h r1]|e| |]; simplify_eq; try done.
    + cbv zeta in H1. destruct (ReadFull _ r1) as [[data r2]|e| |]; simplify_eq; try done.
      * destruct (recv_frame _ _ s) as [r3 s3] eqn:E3. simplify_eq.
        change s' with ((r, s').2). rewrite <- E3. by apply die_recv_frame.
      * unfold notifyReadError. by case_match.
    + unfold notifyReadError. by case_match.
  - unfold recv_debit. by repeat case_match.
  - unfold accept_push in *. repeat case_match; by simplify_eq.
  - unfold read_obj in H. case_match; [|done]. apply bind_Ok in H as ([? ?] & _ & H). by simplify_eq.
  - unfold writeTo_obj in H. case_match; [|done]. apply bind_Ok in H as ([? ?] & _ & H). by simplify_eq.
  - done.
  - unfold open_begin in H. rewrite Hd in H. by simplify_eq.
  - by apply open_end_state in H0 as [->|[m ->]].
  - by apply AcceptStream_state in H as [->|[a ->]].
  - done.
  - unfold streamClosed_begin. repeat (case_match; simpl in *); done.
  - unfold streamClosed_end, returnTokens. repeat (case_match; simpl in *); done.
  - unfold Close in H. rewrite Hd in H. by simplify_eq.
  - unfold keepalive_timeout, Close. rewrite Hd. repeat case_match; done.
  - done.
  - unfold notifyWriteError. by case_match.
Qed.

(** Every state a live session reaches keeps the identity, for the limit the
    32-bit bucket starts with. *)
Lemma tokens_ok_reachable c client s p :
  0 <= i32 (MaxReceiveBuffer c) → rtc sstep (newSession c client, []) (s, p) → ss_die s = false →
  tokens_ok (i32 (MaxReceiveBuffer c)) (s, p).
Proof.
  intros Hmax Hr Hd. pose proof (i32_range (MaxReceiveBuffer c)) as Hi.
  set (P := λ y : sstate, ss_die y.1 = true ∨ tokens_ok (i32 (MaxReceiveBuffer c)) y).
  cut (P (s, p)); [intros [H|H]; [simpl in H; congruence|done]|].
  eapply (rtc_ind_r P (newSession c client, [])); [by right; apply tokens_ok_init| |exact Hr].
  intros y z _ Hstep Hy. destruct (ss_die y.1) eqn:Ey; [left; by eapply die_step|].
  destruct Hy as [Hy|Hy]; [congruence|]. right. eapply tokens_ok_step; [|done..]. lia.
Qed.

(** C21: Whatever a session's goroutines do and in whatever order, until the session is closed the
    bucket plus the bytes the streams hold plus the tokens on their way back (of readers, and
    of a stream being closed) is [MaxReceiveBuffer], but for the bytes of a frame the receive
    loop has pushed to a stream and not debited yet, which a reader may already have taken and
    returned; and even when that carries the 32-bit bucket over its end for a moment, the
    debit brings it back.  So, a positive bucket being the condition to read the next frame,
    a session never holds more than [MaxReceiveBuffer] plus one frame, and no token is lost. *)
Theorem smux_tokens c client s p :
  0 < MaxReceiveBuffer c < 2 ^ 31 →
  rtc sstep (newSession c client, []) (s, p) → ss_die s = false →
  bucket s = i32 (MaxReceiveBuffer c - held (objs s) - pending p - recycled s + pushed s) ∧
  (MaxReceiveBuffer c < 2 ^ 31 - 2 ^ 16 ∨ pushed s = 0 →
   bucket s + held (objs s) + pending p + recycled s = MaxReceiveBuffer c + pushed s) ∧
  (pushed s = 0 → -65535 < bucket s <= MaxReceiveBuffer c) ∧
  0 <= pushed s < 65536 ∧ 0 <= recycled s ∧
  held (objs s) + pending p + recycled s < MaxReceiveBuffer c + 65535.
Proof.
  intros Hmax Hr Hd.
  pose proof (tokens_ok_reachable c client s p ltac:(rewrite i32_small; lia) Hr Hd) as Hok.
  rewrite (i32_small (MaxReceiveBuffer c)) in Hok by lia. pose proof (left_max _ _ Hok) as Hm. destruct Hok as [Hs Hl [Hk1 Hk2] Hp _ _ _].
  unfold left_ in *. simpl in *. assert (bucket s = i32 (MaxReceiveBuffer c - held (objs s) - pending p - recycled s + pushed s)) as Hb
    by (rewrite Hs; f_equal; lia).
  split; [done|]. split; [intros Hx; rewrite Hb, i32_small; lia|].
  split; [intros Hx; rewrite Hb, i32_small; lia|]. lia.
Qed.

Lemma pushing_recv x y : sstep x y → pushing x.1 = false → pushing y.1 = true → 0 < bucket x.1 ∨ ss_die x.1 = true.
Proof.
  intros Hstep Hx. destruct Hstep; simpl in *; intros Hy; [done|congruence|..]; exfalso.
  - unfold accept_push in *. repeat case_match; simplify_eq; unfold pushing in *; simpl in *; congruence.
  - unfold read_obj in H. case_match; [|done]. apply bind_Ok in H as ([? ?] & _ & H). simplify_eq. unfold pushing in *. simpl in *. congruence.
  - unfold writeTo_obj in H. case_match; [|done]. apply bind_Ok in H as ([? ?] & _ & H). simplify_eq. unfold pushing in *. simpl in *. congruence.
  - unfold returnTokens, pushing in *. simpl in *. congruence.
  - unfold open_begin, alloc, pushing in *. repeat case_match; simplify_eq; simpl in *; congruence.
  - apply open_end_state in H0 as [->|[m ->]]; unfold pushing in *; simpl in *; congruence.
  - apply AcceptStream_state in H as [->|[a ->]]; unfold pushing in *; simpl in *; congruence.
  - unfold pushing in *. simpl in *. congruence.
  - unfold streamClosed_begin, pushing in *. repeat (case_match; simpl in *); simplify_eq; simpl in *; congruence.
  - unfold streamClosed_end, returnTokens, pushing in *. repeat (case_match; simpl in *); simplify_eq; simpl in *; congruence.
  - unfold Close, pushing in *. repeat (case_match; simpl in *); simplify_eq; simpl in *; congruence.
  - unfold keepalive_timeout, Close, pushing in *. repeat (case_match; simpl in *); simplify_eq; simpl in *; congruence.
  - unfold keepalive_ping, pushing in *. simpl in *. congruence.
  - unfold notifyWriteError, pushing in *. repeat (case_match; simpl in *); simplify_eq; simpl in *; congruence.
Qed.

(** A configuration [VerifyConfig] accepts and under which a session is deaf: the bucket is
    the limit cut to 32 bits and [VerifyConfig] bounds only the stream buffer, so with a limit of
    [2^32] the bucket is never positive and [recvLoop] never reads a frame. *)
Theorem smux_big_buffer_stuck :
  ∃ c, VerifyConfig c = None ∧ MaxReceiveBuffer c = 2 ^ 32 ∧
    ∀ client s p, rtc sstep (newSession c client, []) (s, p) → ss_die s = false → bucket s <= 0.
Proof.
  set (c := MkConfig 1 false (10 * second) (30 * second) 32768 (2 ^ 32) 65536). exists c.
  split; [done|]. split; [done|]. intros client s p Hr Hd.
  assert (∀ s p, tokens_ok 0 (s, p) → pushing s = false → bucket s <= 0) as Hle.
  { intros s' p' Hok Hp. rewrite (tokens_exact 0 s' p' ltac:(lia) Hok).
    - apply (left_max 0 _ Hok).
    - unfold pushed, pushing in *. by repeat case_match. }
  set (P := λ y : sstate, ss_die y.1 = true ∨ tokens_ok 0 y ∧ pushing y.1 = false).
  cut (P (s, p)); [intros [H|[H1 H2]]; [simpl in H; congruence|by apply (Hle s p)]|].
  eapply (rtc_ind_r P (newSession c client, [])); [right; split; [by apply (tokens_ok_init c client)|done]| |exact Hr].
  intros [y py] z _ Hstep [Hy|[Hy Hp]]; [left; by eapply die_step|]. destruct (ss_die y) eqn:Ey; [left; by eapply die_step|].
  right. split; [eapply tokens_ok_step; [lia|done..]|]. destruct (pushing z.1) eqn:Ez; [|done].
  destruct (pushing_recv _ _ Hstep Hp Ez) as [H|H]; simpl in H; [|congruence]. specialize (Hle y py Hy Hp). lia.
Qed.

(** ** Stream identifiers *)

Definition ids (s : Session) : Z * bool := (nextStreamID s, goAway s).

Lemma ids_recv_frame skip f s : ids (recv_frame skip f s).2 = ids s.
Proof.
  unfold recv_frame, notifyProtoError, accept_push, alloc. cbv zeta.
  repeat (case_match; simpl in *); done.
Qed.

Lemma ids_recv_step skip input s r rest s' : recv_step skip input s = (r, rest, s') → ids s' = ids s.
Proof.
  unfold recv_step, notifyReadError. intros H.
  destruct (ReadFull _ input) as [[h r1]|e| |]; simplify_eq; try done; [|by case_match].
  cbv zeta in H. destruct (ReadFull _ r1) as [[data r2]|e| |]; simplify_eq; try done; [|by case_match].
  destruct (recv_frame _ _ s) as [r3 s3] eqn:E3. simplify_eq.
  change s' with ((r, s').2). rewrite <- E3. apply ids_recv_frame.
Qed.

Lemma ids_Close s : ids (Close s).2 = ids s.
Proof. unfold Close. by case_match. Qed.

Lemma ids_step x y :
  sstep x y → ids y.1 = ids x.1 ∨ ∃ r, open_begin x.1 = (r, y.1).
Proof.
  intros Hstep. destruct Hstep; simpl; try (by right; eauto); left.
  - by eapply ids_recv_step.
  - unfold recv_debit. by repeat case_match.
  - unfold accept_push in *. repeat case_match; by simplify_eq.
  - unfold read_obj in H. case_match; [|done]. apply bind_Ok in H as ([? ?] & _ & H). by simplify_eq.
  - unfold writeTo_obj in H. case_match; [|done]. apply bind_Ok in H as ([? ?] & _ & H). by simplify_eq.
  - done.
  - by apply open_end_state in H0 as [->|[m ->]].
  - by apply AcceptStream_state in H as [->|[a ->]].
  - done.
  - unfold streamClosed_begin. repeat (case_match; simpl in *); done.
  - unfold streamClosed_end, returnTokens. repeat (case_match; simpl in *); done.
  - change s' with ((r, s').2). rewrite <- H. apply ids_Close.
  - unfold keepalive_timeout. repeat case_match; try done. apply ids_Close.
  - done.
  - unfold notifyWriteError. by case_match.
Qed.

(** Identifiers in range, of one parity; [low] is below every one still to come. *)
Definition ids_ok (b low : Z) (s : Session) : Prop :=
  0 <= nextStreamID s < 2 ^ 32 ∧ nextStreamID s mod 2 = b ∧ (goAway s = false → low <= nextStreamID s).

Lemma open_begin_ids b low s r s' :
  ids_ok b low s → open_begin s = (r, s') →
  ids_ok b low s' ∧
  match r with
  | inl (sid, _) => sid = nextStreamID s' ∧ sid = nextStreamID s + 2 ∧ goAway s = false ∧ sid < 2 ^ 32
  | inr _ => True
  end.
Proof.
  intros (Hr & Hp & Hl). unfold open_begin. cbv zeta. destruct (ss_die s); [by intros [= <- <-]|].
  destruct (goAway s) eqn:Eg; [intros [= <- <-]; by unfold ids_ok; rewrite Eg|]. specialize (Hl eq_refl).
  assert (u32 (nextStreamID s + 2) mod 2 = b) as Hb.
  { unfold u32. rewrite <- Hp. change (2 ^ 32) with (2 * 2 ^ 31). rewrite Z.rem_mul_r by lia.
    rewrite Z.mul_comm, Z_mod_plus_full, Z.mod_mod by lia. rewrite Zplus_mod, Z.mod_same by lia.
    rewrite Z.add_0_r. by apply Z.mod_mod. }
  pose proof (u32_range (nextStreamID s + 2)). rewrite Hb.
  destruct (u32 (nextStreamID s + 2) =? b) eqn:E; bools.
  - intros [= <- <-]. repeat split; simpl; lia || done.
  - intros [= <- <-]. simpl.
    assert (nextStreamID s + 2 < 2 ^ 32).
    { destruct (Z_lt_ge_dec (nextStreamID s + 2) (2 ^ 32)); [done|]. exfalso. apply E.
      unfold u32 in *. replace (nextStreamID s + 2) with (nextStreamID s + 2 - 2 ^ 32 + 1 * 2 ^ 32) in * by lia.
      rewrite Z_mod_plus_full in *. rewrite (Z.mod_small (_ - _)) in * by lia.
      rewrite Z.mod_small in Hb by lia. done. }
    rewrite u32_small in * by lia. repeat split; simpl; lia.
Qed.

Lemma ids_ok_step b low x y : ids_ok b low x.1 → sstep x y → ids_ok b low y.1.
Proof.
  intros Hok Hstep. apply ids_step in Hstep as [H|[r H]].
  - unfold ids in H. injection H as H1 H2. unfold ids_ok in *. by rewrite H1, H2.
  - by eapply open_begin_ids.
Qed.

Lemma ids_ok_steps b low x y : ids_ok b low x.1 → rtc sstep x y → ids_ok b low y.1.
Proof. intros Hok Hr. induction Hr; [done|]. apply IHHr. by eapply ids_ok_step. Qed.

(** The identifiers [OpenStream] hands out, at any two moments of a session's life, are
    strictly increasing, at least 2, below [2^32], odd on the client and even on the server: two
    streams of a connection never share one, whichever side opened them. *)
Theorem smux_stream_ids c client s1 p1 sid1 o1 s2 s3 p3 sid2 o2 s4 :
  rtc sstep (newSession c client, []) (s1, p1) → open_begin s1 = (inl (sid1, o1), s2) →
  rtc sstep (s2, p1) (s3, p3) → open_begin s3 = (inl (sid2, o2), s4) →
  2 <= sid1 < sid2 ∧ sid2 < 2 ^ 32 ∧
  sid1 mod 2 = (if client then 1 else 0) ∧ sid2 mod 2 = (if client then 1 else 0).
Proof.
  intros Hr1 Ho1 Hr2 Ho2. set (b := if client then 1 else 0).
  assert (ids_ok b 0 (newSession c client)) as H0 by by destruct client.
  pose proof (ids_ok_steps _ _ (newSession c client, []) _ H0 Hr1) as H1. simpl in H1.
  destruct (open_begin_ids b 0 s1 _ _ H1 Ho1) as [(Hn & Hm & _) (Hs1 & Hs1' & Hg & Hlt)].
  assert (ids_ok b sid1 s2) as H2 by (split; [done|]; split; [done|]; lia).
  pose proof (ids_ok_steps _ _ (s2, p1) _ H2 Hr2) as H3. simpl in H3.
  destruct (open_begin_ids b sid1 s3 _ _ H3 Ho2) as [(Hn4 & Hm4 & _) (Hs2 & Hs2' & Hg3 & Hlt3)].
  destruct H1 as (? & ? & _). destruct H3 as (? & ? & Hlow). specialize (Hlow Hg3).
  rewrite <- Hs1 in Hm. rewrite <- Hs2 in Hm4. lia.
Qed.
