(* ===== verification/SmuxShaper.v ===== *)
(** pkg/smux/shaper.go and the shaper loop of session.go: the priority queue of
    write requests.

    The queue is Go's [container/heap] on a slice, modelled here for any [less];
    [shaperLoop] is a function of what its [select] picks. *)
From Stdlib Require Import Permutation.
From S2P Require Import Prelude SmuxFrame.
Import Smux.

Module Shaper.

Definition CLSCTRL : Z := 0.
Definition CLSDATA : Z := 1.
Definition maxShaperSize : nat := 1024.

Record writeRequest := MkReq { rq_class : Z; rq_frame : Frame; rq_seq : Z }.

(** ** container/heap *)
Section Heap.
Context {A : Type} (less : A → A → bool).

Definition less_at (l : list A) (i j : nat) : bool :=
  match l !! i, l !! j with
  | Some a, Some b => less a b
  | _, _ => false
  end.

Definition swap (i j : nat) (l : list A) : list A :=
  match l !! i, l !! j with
  | Some a, Some b => <[i := b]> (<[j := a]> l)
  | _, _ => l
  end.

(** Each turn at least halves [j]; [S j] turns are enough. *)
Fixpoint up (fuel j : nat) (l : list A) : list A :=
  match fuel with
  | O => l
  | S fuel =>
      let i := ((j - 1) / 2)%nat in
      if (i =? j)%nat || negb (less_at l j i) then l
      else up fuel i (swap i j l)
  end.

(** Each turn at least doubles [i], which stays below [n]. *)
Fixpoint down (fuel i n : nat) (l : list A) : list A :=
  match fuel with
  | O => l
  | S fuel =>
      let j1 := (2 * i + 1)%nat in
      if (n <=? j1)%nat then l
      else
        let j2 := S j1 in
        let j := if (j2 <? n)%nat && less_at l j2 j1 then j2 else j1 in
        if negb (less_at l j i) then l else down fuel j n (swap i j l)
  end.

Definition heap_Push (x : A) (l : list A) : list A := up (S (length l)) (length l) (l ++ [x]).

(** [None]: the index panic on an empty slice. *)
Definition heap_Pop (l : list A) : option (A * list A) :=
  let n := (length l - 1)%nat in
  let l := down (S n) 0 n (swap 0 n l) in
  x ← last l; Some (x, take (length l - 1) l).

End Heap.

(** ** The order *)

Definition itimediff (later earlier : Z) : Z := i32 (u32 (later - earlier)).

Definition Less (a b : writeRequest) : bool :=
  if negb (rq_class a =? rq_class b) then rq_class a <? rq_class b
  else 0 <? itimediff (rq_seq b) (rq_seq a).

(** ** The loop *)

(** What the [select] of an iteration picked. *)
Inductive pick := PickShaper (r : writeRequest) | PickWrite.

Inductive shaped := Queued | Written (r : writeRequest).

(** One iteration.  [None]: the channel of that case is nil, so the [select] cannot
    pick it; an empty queue leaves [chWrite] nil, a full one [chShaper]. *)
Definition shaper_iter (p : pick) (reqs : list writeRequest) : option (shaped * list writeRequest) :=
  let popped := if (0 <? length reqs)%nat then heap_Pop Less reqs else None in
  let rest := match popped with Some (_, rest) => rest | None => reqs end in
  match p with
  | PickShaper r =>
      if (maxShaperSize <=? length rest)%nat then None
      else
        let rest := match popped with Some (next, _) => heap_Push Less next rest | None => rest end in
        Some (Queued, heap_Push Less r rest)
  | PickWrite =>
      match popped with
      | Some (next, rest) => Some (Written next, rest)
      | None => None
      end
  end.

End Shaper.
