(* ===== verification/SmuxShaperProofs.v ===== *)
(** pkg/smux/shaper.go: the heap keeps its order, so the shaper sends every request
    once and the most urgent first. *)
From Stdlib Require Import Permutation.
From S2P Require Import Prelude SmuxFrame SmuxShaper.
Import Smux Shaper.

(** ** container/heap, for a [less] that compares integer keys *)
Section HeapProofs.
Context {A : Type} (less : A → A → bool) (key : A → Z).

Definition agrees (l : list A) : Prop :=
  ∀ a b, a ∈ l → b ∈ l → less a b = (key a <? key b).

Definition get (l : list A) (i : nat) : Z := from_option key 0 (l !! i).

Definition child (p c : nat) : Prop := (c = 2 * p + 1 ∨ c = 2 * p + 2)%nat.

(** The heap order on the first [n] elements, everywhere or but for one node. *)
Definition heap_at (n : nat) (l : list A) : Prop :=
  ∀ p c, child p c → (c < n)%nat → get l p <= get l c.
Definition heap_below (n i : nat) (l : list A) : Prop :=
  (∀ p c, child p c → (c < n)%nat → p ≠ i → get l p <= get l c) ∧
  (∀ q c, child q i → child i c → (c < n)%nat → get l q <= get l c).
Definition heap_above (n j : nat) (l : list A) : Prop :=
  (∀ p c, child p c → (c < n)%nat → c ≠ j → get l p <= get l c) ∧
  (∀ q c, child q j → child j c → (c < n)%nat → get l q <= get l c).

Lemma agrees_perm l l' : Permutation l l' → agrees l → agrees l'.
Proof.
  intros Hp Ha a b Hin1 Hin2. apply Ha; apply list_elem_of_In; apply list_elem_of_In in Hin1, Hin2;
    by eapply Permutation_in; [symmetry|].
Qed.

Lemma less_at_get l i j :
  agrees l → (i < length l)%nat → (j < length l)%nat → less_at less l i j = (get l i <? get l j).
Proof.
  intros Ha Hi Hj. unfold less_at, get.
  destruct (lookup_lt_is_Some_2 l i Hi) as [a Hli]. destruct (lookup_lt_is_Some_2 l j Hj) as [b Hlj].
  rewrite Hli, Hlj. simpl. apply Ha; by eapply list_elem_of_lookup_2.
Qed.

Lemma length_swap i j (l : list A) : length (swap i j l) = length l.
Proof. unfold swap. repeat case_match; by rewrite ?length_insert. Qed.

Lemma lookup_swap i j (l : list A) k :
  (i < length l)%nat → (j < length l)%nat →
  swap i j l !! k = if decide (k = i) then l !! j else if decide (k = j) then l !! i else l !! k.
Proof.
  intros Hi Hj. unfold swap.
  destruct (lookup_lt_is_Some_2 l i Hi) as [a Hli]. destruct (lookup_lt_is_Some_2 l j Hj) as [b Hlj].
  rewrite Hli, Hlj. case_decide; [subst; rewrite list_lookup_insert_eq; [done|by rewrite length_insert]|].
  rewrite list_lookup_insert_ne by done. case_decide; [subst; by rewrite list_lookup_insert_eq|].
  by rewrite list_lookup_insert_ne.
Qed.

Lemma get_swap i j l k :
  (i < length l)%nat → (j < length l)%nat →
  get (swap i j l) k = if decide (k = i) then get l j else if decide (k = j) then get l i else get l k.
Proof. intros. unfold get. rewrite lookup_swap by done. by repeat case_decide. Qed.

Lemma nth_error_at (l : list A) k : nth_error l k = l !! k.
Proof. revert k. induction l; intros [|k]; simpl; done. Qed.

Lemma swap_perm i j (l : list A) : (i < length l)%nat → (j < length l)%nat → Permutation (swap i j l) l.
Proof.
  intros Hi Hj. symmetry. apply Permutation_nth_error. split; [by rewrite length_swap|].
  exists (λ k, if decide (k = i) then j else if decide (k = j) then i else k). split.
  - intros x y. repeat case_decide; congruence.
  - intros k. rewrite !nth_error_at, lookup_swap by done. by repeat case_decide.
Qed.

Ltac swap_cases := rewrite !get_swap by (rewrite ?length_swap; lia); repeat case_decide; subst.

Lemma heap_below_swap n i j l :
  heap_below n i l → child i j → (j < n)%nat → (n <= length l)%nat → get l j < get l i →
  (∀ c, child i c → (c < n)%nat → get l j <= get l c) → heap_below n j (swap i j l).
Proof.
  intros [H1 H2] Hc Hj Hn Hlt Hmin. assert (i < j)%nat by (unfold child in Hc; lia). split.
  - intros p c Hpc Hcn Hpj. assert (p < c)%nat by (unfold child in Hpc; lia).
    destruct (decide (p = i)) as [->|Hpi]; [|destruct (decide (c = i)) as [->|Hci]].
    + specialize (Hmin c Hpc Hcn). swap_cases; lia.
    + specialize (H2 p j Hpc Hc Hj). swap_cases; lia.
    + assert (c ≠ j) by (unfold child in *; lia). specialize (H1 p c Hpc Hcn Hpi). swap_cases; lia.
  - intros q c Hqj Hjc Hcn. assert (q = i) as -> by (unfold child in *; lia).
    assert (j < c)%nat by (unfold child in Hjc; lia).
    specialize (H1 j c Hjc Hcn ltac:(lia)). swap_cases; lia.
Qed.

Lemma heap_above_swap i j l :
  heap_above (length l) j l → child i j → (j < length l)%nat → get l j < get l i →
  heap_above (length l) i (swap i j l).
Proof.
  intros [H1 H2] Hc Hj Hlt. assert (i < j)%nat by (unfold child in Hc; lia). split.
  - intros p c Hpc Hcn Hci. assert (p < c)%nat by (unfold child in Hpc; lia).
    destruct (decide (p = i)) as [->|Hpi]; [|destruct (decide (p = j)) as [->|Hpj]].
    + destruct (decide (c = j)) as [->|Hcj]; [swap_cases; lia|].
      specialize (H1 i c Hpc Hcn Hcj). swap_cases; lia.
    + specialize (H2 i c Hc Hpc Hcn). swap_cases; lia.
    + assert (c ≠ j) as Hcj by (unfold child in *; lia).
      specialize (H1 p c Hpc Hcn Hcj). swap_cases; lia.
  - intros q c Hqi Hic Hcn. assert (q < i ∧ i < c)%nat as [? ?] by (unfold child in *; lia).
    assert (get l q <= get l i) by (apply (H1 q i Hqi); lia).
    destruct (decide (c = j)) as [->|Hcj]; [swap_cases; lia|].
    specialize (H1 i c Hic Hcn Hcj). swap_cases; lia.
Qed.

Lemma down_spec fuel i n l :
  agrees l → heap_below n i l → (n <= length l)%nat → (n <= fuel + i)%nat →
  (i < n ∨ n = 0)%nat →
  heap_at n (down less fuel i n l) ∧ Permutation (down less fuel i n l) l ∧
  ∀ k, (n <= k)%nat → down less fuel i n l !! k = l !! k.
Proof.
  revert i l. induction fuel as [|fuel IH]; intros i l Ha Hb Hn Hf Hi.
  - simpl. split; [|done]. intros p c Hpc Hc. lia.
  - cbn [down]. cbv zeta. destruct (n <=? 2 * i + 1)%nat eqn:E1; bools.
    { split; [|done]. intros p c Hpc Hc. destruct Hb as [H1 H2]. apply H1; try done.
      unfold child in Hpc. lia. }
    set (j := if (_ <? n)%nat && _ then _ else _).
    assert (child i j ∧ (j < n)%nat ∧ ∀ c, child i c → (c < n)%nat → get l j <= get l c)
      as (Hij & Hj & Hmin).
    { unfold j. destruct (S (2 * i + 1) <? n)%nat eqn:E2; bools; cbn [andb].
      - rewrite less_at_get by (done || lia).
        destruct (get l (S (2 * i + 1)) <? get l (2 * i + 1)%nat) eqn:E3; bools; unfold child;
          (split; [lia|]; split; [lia|]); intros c [->| ->] Hc;
          replace (2 * i + 2)%nat with (S (2 * i + 1)) by lia; lia.
      - unfold child. split; [lia|]. split; [lia|]. intros c [->| ->] Hc; lia. }
    clearbody j. rewrite less_at_get by (done || lia).
    destruct (get l j <? get l i) eqn:E3; bools; simpl.
    + destruct (IH j (swap i j l)) as (Hh & Hp & Hk).
      * eapply agrees_perm; [symmetry; apply swap_perm; lia|done].
      * apply heap_below_swap; done.
      * by rewrite length_swap.
      * unfold child in Hij. lia.
      * lia.
      * split; [done|]. split; [rewrite Hp; apply swap_perm; lia|].
        intros k Hkn. rewrite Hk, lookup_swap by lia. by repeat (case_decide; [lia|]).
    + split; [|done]. intros p c Hpc Hc. destruct (decide (p = i)) as [->|].
      * specialize (Hmin c Hpc Hc). lia.
      * by apply (proj1 Hb).
Qed.

Lemma up_spec fuel j l :
  agrees l → heap_above (length l) j l → (j < length l)%nat → (j < fuel)%nat →
  heap_at (length l) (up less fuel j l) ∧ Permutation (up less fuel j l) l.
Proof.
  revert j l. induction fuel as [|fuel IH]; intros j l Ha [H1 H2] Hj Hf; [lia|].
  cbn [up]. cbv zeta. set (i := ((j - 1) / 2)%nat).
  destruct (decide (j = 0%nat)) as [->|Hj0].
  { simpl. split; [|done]. intros p c Hpc Hc. apply H1; try done. unfold child in Hpc. lia. }
  assert (child i j) as Hij.
  { unfold child, i. pose proof (Nat.div_mod (j - 1) 2). pose proof (Nat.mod_upper_bound (j - 1) 2). lia. }
  clearbody i. rewrite (proj2 (Nat.eqb_neq i j)) by (unfold child in Hij; lia). cbn [orb].
  rewrite less_at_get by (done || unfold child in Hij; lia).
  destruct (get l j <? get l i) eqn:E; bools; simpl.
  - assert (i < j)%nat by (unfold child in Hij; lia).
    destruct (IH i (swap i j l)) as [Hh Hp].
    + eapply agrees_perm; [symmetry; apply swap_perm; lia|done].
    + rewrite length_swap. apply heap_above_swap; (done || lia).
    + rewrite length_swap. lia.
    + lia.
    + rewrite length_swap in Hh. split; [done|]. rewrite Hp. apply swap_perm; lia.
  - split; [|done]. intros p c Hpc Hc. destruct (decide (c = j)) as [->|]; [|by apply H1].
    assert (p = i) as -> by (unfold child in *; lia). lia.
Qed.

Definition is_heap (l : list A) : Prop := heap_at (length l) l.

Lemma heap_Push_spec x l :
  agrees (l ++ [x]) → is_heap l →
  is_heap (heap_Push less x l) ∧ Permutation (heap_Push less x l) (x :: l).
Proof.
  intros Ha Hh. unfold heap_Push.
  destruct (up_spec (S (length l)) (length l) (l ++ [x])) as [H1 H2].
  - done.
  - rewrite length_app. simpl. split.
    + intros p c Hpc Hc Hcl. unfold get. unfold child in Hpc. rewrite !lookup_app_l by lia.
      apply Hh; [done|lia].
    + unfold child. intros q c _ Hc. lia.
  - rewrite length_app. simpl. lia.
  - lia.
  - split.
    + unfold is_heap. by rewrite (Permutation_length H2).
    + rewrite H2. symmetry. apply Permutation_cons_append.
Qed.

(** The root of a heap is least. *)
Lemma heap_root l i : is_heap l → (i < length l)%nat → get l 0 <= get l i.
Proof.
  intros Hh. induction i as [i IH] using lt_wf_ind. intros Hi.
  destruct (decide (i = 0%nat)) as [->|]; [lia|].
  set (p := ((i - 1) / 2)%nat).
  assert (child p i) as Hpi.
  { unfold child, p. pose proof (Nat.div_mod (i - 1) 2). pose proof (Nat.mod_upper_bound (i - 1) 2). lia. }
  assert (p < i)%nat by (unfold child in Hpi; lia).
  pose proof (IH p ltac:(lia) ltac:(lia)). specialize (Hh p i Hpi Hi). lia.
Qed.

Lemma heap_Pop_spec l :
  agrees l → is_heap l → l ≠ [] →
  ∃ x rest, heap_Pop less l = Some (x, rest) ∧ Permutation (x :: rest) l ∧ is_heap rest ∧
    ∀ y, y ∈ rest → key x <= key y.
Proof.
  intros Ha Hh Hne. assert (0 < length l)%nat as Hlen by (destruct l; simpl; [done|lia]).
  set (n := (length l - 1)%nat). set (l1 := swap 0 n l).
  assert (length l1 = length l) as Hl1 by apply length_swap.
  destruct (down_spec (S n) 0 n l1) as (H1 & H2 & H3).
  - eapply agrees_perm; [symmetry; apply swap_perm; lia|done].
  - split.
    + intros p c Hpc Hc Hp. assert (p < c)%nat by (unfold child in Hpc; lia).
      specialize (Hh p c Hpc ltac:(lia)). unfold l1. swap_cases; lia.
    + unfold child. lia.
  - lia.
  - lia.
  - lia.
  - set (l2 := down less (S n) 0 n l1) in *.
    assert (heap_Pop less l = (x ← last l2; Some (x, take (length l2 - 1) l2))) as -> by done.
    clearbody l2.
    assert (length l2 = length l) as Hl2 by by rewrite (Permutation_length H2), Hl1.
    destruct (lookup_lt_is_Some_2 l 0 Hlen) as [x Hx].
    assert (l2 !! n = Some x) as Hln.
    { rewrite H3 by lia. unfold l1. rewrite lookup_swap by lia.
      destruct (decide (n = 0%nat)) as [->|]; [done|]. by rewrite decide_True. }
    assert (l2 = take n l2 ++ [x]) as Hsplit.
    { rewrite <- (take_drop n l2) at 1. f_equal. rewrite (drop_S _ x n Hln). f_equal.
      apply drop_ge. lia. }
    exists x, (take n l2). rewrite last_lookup, Hl2. replace (Nat.pred (length l)) with n by lia.
    rewrite Hln. cbn. fold n. split; [done|]. assert (Permutation (x :: take n l2) l) as Hperm.
    { rewrite Permutation_cons_append, <- Hsplit, H2. apply swap_perm; lia. }
    split; [done|]. split.
    + unfold is_heap. rewrite length_take, Hl2. replace (n `min` length l)%nat with n by lia.
      intros p c Hpc Hc. unfold get. assert (p < n)%nat by (unfold child in Hpc; lia).
      rewrite !lookup_take by lia. rewrite !decide_True by lia. by apply H1.
    + intros y Hy. assert (y ∈ l) as Hyl.
      { apply list_elem_of_In. eapply Permutation_in; [exact Hperm|]. right. by apply list_elem_of_In. }
      apply list_elem_of_lookup in Hyl as [i Hi].
      pose proof (heap_root l i Hh (lookup_lt_Some _ _ _ Hi)) as Hr. unfold get in Hr.
      by rewrite Hx, Hi in Hr.
Qed.

End HeapProofs.

(** ** The order of requests *)

(** Requests numbered within half of the 32-bit range after [base]: the order is
    then the one of an integer key. *)
Definition in_window (base : Z) (r : writeRequest) : Prop := u32 (rq_seq r - base) < 2 ^ 31.
Definition req_key (base : Z) (r : writeRequest) : Z :=
  rq_class r * 2 ^ 32 + u32 (rq_seq r - base).
Definition windowed (base : Z) (l : list writeRequest) : Prop := Forall (in_window base) l.

Lemma i32_u32 z : i32 (u32 z) = i32 z.
Proof. unfold i32, u32. f_equal. rewrite Zplus_mod_idemp_l. done. Qed.

Lemma itimediff_window base a b :
  u32 (a - base) < 2 ^ 31 → u32 (b - base) < 2 ^ 31 →
  itimediff b a = u32 (b - base) - u32 (a - base).
Proof.
  intros Ha Hb. unfold itimediff.
  pose proof (u32_range (a - base)). pose proof (u32_range (b - base)).
  rewrite <- (i32_small (u32 (b - base) - u32 (a - base))) by lia. rewrite i32_u32.
  unfold i32. f_equal. unfold u32.
  rewrite <- (Zplus_mod_idemp_l (_ - _ mod _)), Zminus_mod_idemp_l, Zminus_mod_idemp_r.
  rewrite Zplus_mod_idemp_l. f_equal. lia.
Qed.

Lemma Less_key base a b :
  in_window base a → in_window base b → Less a b = (req_key base a <? req_key base b).
Proof.
  unfold in_window, req_key, Less. intros Ha Hb. pose proof (itimediff_window base _ _ Ha Hb) as Hd.
  pose proof (u32_range (rq_seq a - base)). pose proof (u32_range (rq_seq b - base)).
  destruct (rq_class a =? rq_class b) eqn:E; bools; simpl.
  - rewrite Hd. apply eq_true_iff_eq. rewrite !Z.ltb_lt. nia.
  - apply eq_true_iff_eq. rewrite !Z.ltb_lt. nia.
Qed.

Lemma windowed_agrees base l : windowed base l → agrees Less (req_key base) l.
Proof.
  intros Hw a b Ha Hb. unfold windowed in Hw. rewrite Forall_forall in Hw. apply Less_key; by apply Hw.
Qed.

Lemma windowed_perm base l l' : Permutation l l' → windowed base l → windowed base l'.
Proof. intros Hp. unfold windowed. by rewrite Hp. Qed.

(** The heap order, whatever the window. *)
Definition ordered (l : list writeRequest) : Prop :=
  ∀ p c, child p c → (c < length l)%nat → less_at Less l c p = false.

Lemma ordered_heap base l : windowed base l → ordered l ↔ is_heap (req_key base) l.
Proof.
  intros Hw. apply windowed_agrees in Hw. unfold ordered, is_heap, heap_at.
  split; intros H p c Hpc Hc; specialize (H p c Hpc Hc);
    assert (p < c)%nat by (unfold child in Hpc; lia).
  - rewrite (less_at_get Less (req_key base)) in H by (done || lia). by bools.
  - rewrite (less_at_get Less (req_key base)) by (done || lia). by apply Z.ltb_ge.
Qed.

Lemma ordered_pop base l :
  windowed base l → ordered l → l ≠ [] →
  ∃ x rest, heap_Pop Less l = Some (x, rest) ∧ Permutation (x :: rest) l ∧ ordered rest ∧
    windowed base (x :: rest) ∧ ∀ y, y ∈ rest → req_key base x <= req_key base y.
Proof.
  intros Hw Ho Hne. rewrite (ordered_heap base) in Ho by done.
  destruct (heap_Pop_spec Less (req_key base) l) as (x & rest & Hpop & Hp & Hh & Hmin);
    [by apply windowed_agrees|done|done|].
  assert (windowed base (x :: rest)) as Hw' by by eapply windowed_perm; [symmetry|].
  exists x, rest. split; [done|]. split; [done|]. split; [|done].
  apply (ordered_heap base); [by inversion Hw'|done].
Qed.

Lemma ordered_push base x l :
  windowed base (x :: l) → ordered l →
  ordered (heap_Push Less x l) ∧ Permutation (heap_Push Less x l) (x :: l).
Proof.
  intros Hw Ho. rewrite (ordered_heap base) in Ho by by inversion Hw.
  destruct (heap_Push_spec Less (req_key base) x l) as [Hh Hp].
  - apply windowed_agrees. eapply windowed_perm; [apply Permutation_cons_append|done].
  - done.
  - split; [|done]. apply (ordered_heap base); [|done]. by eapply windowed_perm; [symmetry|].
Qed.

(** ** Runs of the shaper *)

(** The requests queued and the requests written so far, and the heap; at each
    turn the requests at hand are numbered within a window. *)
Inductive shaper_run : list writeRequest → list writeRequest → list writeRequest → Prop :=
| run_start : shaper_run [] [] []
| run_queue r queued written reqs reqs' base :
    shaper_run queued written reqs → windowed base (r :: reqs) →
    shaper_iter (PickShaper r) reqs = Some (Queued, reqs') →
    shaper_run (r :: queued) written reqs'
| run_write r queued written reqs reqs' base :
    shaper_run queued written reqs → windowed base reqs →
    shaper_iter PickWrite reqs = Some (Written r, reqs') →
    shaper_run queued (r :: written) reqs'.

Lemma shaper_queue_spec r reqs reqs' base :
  windowed base (r :: reqs) → ordered reqs →
  shaper_iter (PickShaper r) reqs = Some (Queued, reqs') →
  ordered reqs' ∧ Permutation reqs' (r :: reqs) ∧ (length reqs <= maxShaperSize)%nat.
Proof.
  intros Hw Ho. unfold shaper_iter. assert (windowed base reqs) as Hw' by by inversion Hw.
  destruct (0 <? length reqs)%nat eqn:El; cycle 1.
  { apply Nat.ltb_ge in El. destruct reqs; [|simpl in El; lia]. case_match; [done|].
    intros [= <-]. destruct (ordered_push base r [] Hw Ho) as [H1 H2]. split; [done|].
    split; [done|]. simpl. lia. }
  apply Nat.ltb_lt in El.
  destruct (ordered_pop base reqs Hw' Ho) as (x & rest & Hpop & Hp & Hor & Hwr & _).
  { intros ->. simpl in El. lia. }
  rewrite Hpop. destruct (maxShaperSize <=? length rest)%nat eqn:Em; [done|].
  apply Nat.leb_gt in Em. intros [= <-].
  destruct (ordered_push base x rest Hwr Hor) as [Ho1 Hp1].
  assert (windowed base (r :: heap_Push Less x rest)) as Hw2.
  { constructor; [by inversion Hw|]. by eapply windowed_perm; [symmetry; exact Hp1|]. }
  destruct (ordered_push base r _ Hw2 Ho1) as [Ho2 Hp2].
  split; [done|]. split.
  - rewrite Hp2. constructor. by rewrite Hp1.
  - rewrite <- (Permutation_length Hp). simpl. lia.
Qed.

Lemma shaper_write_spec r reqs reqs' base :
  windowed base reqs → ordered reqs → shaper_iter PickWrite reqs = Some (Written r, reqs') →
  ordered reqs' ∧ Permutation (r :: reqs') reqs ∧
  ∀ y, y ∈ reqs' → req_key base r <= req_key base y.
Proof.
  intros Hw Ho. unfold shaper_iter. destruct (0 <? length reqs)%nat eqn:El; [|done].
  apply Nat.ltb_lt in El.
  destruct (ordered_pop base reqs Hw Ho) as (x & rest & Hpop & Hp & Hor & Hwr & Hmin).
  { intros ->. simpl in El. lia. }
  rewrite Hpop. by intros [= <- <-].
Qed.

Lemma shaper_run_inv queued written reqs :
  shaper_run queued written reqs →
  ordered reqs ∧ Permutation queued (written ++ reqs) ∧ (length reqs <= S maxShaperSize)%nat.
Proof.
  induction 1 as [|r queued written reqs reqs' base Hr IH Hw Hi|r queued written reqs reqs' base Hr IH Hw Hi].
  - split; [intros p c _ Hc; simpl in Hc; lia|]. split; [done|simpl; lia].
  - destruct IH as (Ho & Hp & Hl). apply (shaper_queue_spec r reqs reqs' base) in Hi as (Ho' & Hp' & Hl'); try done.
    split; [done|]. split.
    + rewrite Hp, Hp'. apply Permutation_middle.
    + rewrite (Permutation_length Hp'). simpl. lia.
  - destruct IH as (Ho & Hp & Hl). apply (shaper_write_spec r reqs reqs' base) in Hi as (Ho' & Hp' & _); try done.
    split; [done|]. split.
    + rewrite Hp, <- Hp'. simpl. symmetry. apply Permutation_middle.
    + rewrite <- (Permutation_length Hp') in Hl. simpl in Hl. lia.
Qed.

(** C24: The shaper of a session queues without losing, doubling or bounding away a request: what
    was queued is what was written plus what is in the heap, which never holds more than
    [maxShaperSize + 1]; a non-empty heap always has a next request to write, and the one written
    is the most urgent: control before data, and within a class the one numbered first, across
    the wrap of the 32-bit counter. *)
Theorem shaper_priority queued written reqs base :
  shaper_run queued written reqs → windowed base reqs →
  Permutation queued (written ++ reqs) ∧ (length reqs <= S maxShaperSize)%nat ∧
  (reqs ≠ [] → ∃ r rest, shaper_iter PickWrite reqs = Some (Written r, rest) ∧
    Permutation (r :: rest) reqs ∧
    ∀ y, y ∈ rest → rq_class r < rq_class y ∨
      rq_class r = rq_class y ∧ u32 (rq_seq r - base) <= u32 (rq_seq y - base)).
Proof.
  intros Hr Hw. destruct (shaper_run_inv _ _ _ Hr) as (Ho & Hp & Hl). split; [done|]. split; [done|].
  intros Hne. destruct (ordered_pop base reqs Hw Ho Hne) as (x & rest & Hpop & Hp' & _ & _ & Hmin).
  exists x, rest. split.
  - unfold shaper_iter. rewrite Hpop. destruct reqs; [done|]. reflexivity.
  - split; [done|]. intros y Hy. specialize (Hmin y Hy). unfold req_key in Hmin.
    pose proof (u32_range (rq_seq x - base)). pose proof (u32_range (rq_seq y - base)). nia.
Qed.
