(* ===== verification/SmuxWitness.v ===== *)
(** Concrete runs of the smux theorems. *)
From S2P Require Import Prelude SmuxFrame SmuxStream SmuxStreamProofs SmuxSession SmuxSessionProofs SmuxShaper SmuxShaperProofs.
Import Smux Stream Sess Shaper.

Definition all_sent (n : nat) : Z * option error := (4, None).
Definition hello : list byte := lit "hello, world".

(** A frame size of five cuts the message in three. *)
Definition cfg5 : Config := MkConfig 1 false (10 * second) (30 * second) 5 4194304 65536.
Definition sent5 : WriteResult * stream := writeV1 cfg5 all_sent hello (newStream 3 5).

Lemma smux_transfer_witness :
  read_frames (S (length (w_frames sent5.1))) (concat (frame_bytes <$> w_frames sent5.1))
    = w_frames sent5.1 ∧
  ∃ got r', reads cfg5 (replicate 12 4%nat) (receive 3 (w_frames sent5.1) (newStream 3 5))
      = Ok (got, r') ∧
    hello = got ++ unread r' ∧ (length hello <= length (replicate 12 4%nat) → got = hello)%nat.
Proof.
  apply (smux_transfer cfg5 all_sent hello (newStream 3 5) sent5.1 sent5.2
           (newStream 3 5) (replicate 12 4%nat)); try (vm_compute; reflexivity).
  - vm_compute. split; [discriminate|reflexivity].
  - repeat constructor.
Defined.

(** A window of four bytes lets a third of the message through. *)
Definition narrow : stream := set_peer 0 4 (newStream 3 5).
Definition round4 := writeV2_round cfg5 all_sent 0 hello narrow.

Lemma smux_window_witness :
  match round4 with
  | (sent, e, fs, b', s') =>
      fs ≠ [] ∧
      outstanding s' = outstanding narrow + data_len fs ∧
      (fs ≠ [] → outstanding s' <= peerWindow narrow) ∧
      concat (f_data <$> fs) `prefix_of` hello ∧
      (e = None → hello = concat (f_data <$> fs) ++ b' ∧
                  data_len fs = Z.min (Z.of_nat (length hello)) (Z.max 0 (peerWindow narrow - outstanding narrow))) ∧
      Forall (λ f, f_cmd f = cmdPSH ∧ f_sid f = st_id narrow ∧
                   1 <= Z.of_nat (length (f_data f)) <= st_frameSize narrow) fs
  end.
Proof.
  assert (round4.1.1.2 ≠ []) as Hne by (vm_compute; discriminate).
  destruct round4 as [[[[sent e] fs] b'] s'] eqn:E. split; [exact Hne|].
  apply (smux_window cfg5 all_sent 0 hello narrow sent e fs b' s');
    [unfold counters_ok; simpl; lia|simpl; lia|vm_compute; discriminate|vm_compute; reflexivity|exact E].
Defined.

(** A session that got a SYN and a data frame of twelve bytes. *)
Definition syn_in : list byte := frame_bytes (newFrame 1 cmdSYN 3).
Definition psh_in : list byte := frame_bytes (MkFrame 1 cmdPSH 3 hello).
Definition srv0 : Session := newSession DefaultConfig false.
Definition srv1 : Session := (recv_step false syn_in srv0).2.
Definition srv2 : Session := (recv_step false psh_in srv1).2.

(** A reader takes the twelve bytes and returns their tokens before they are debited. *)
Definition srv3 : Session := match read_obj 0%nat 12 srv2 with Ok (_, s) => returnTokens 12 s | _ => srv2 end.

Lemma recv_once input s :
  0 < bucket s → ss_lock s = None → sstep (s, []) ((recv_step false input s).2, []).
Proof.
  intros H Hl. destruct (recv_step false input s) as [[r rest] s'] eqn:E.
  apply (st_recv false input s [] r rest s'); [by left|by unfold pushing; rewrite Hl|exact E|by left].
Qed.
Lemma read_return o len n s :
  match read_obj o len s with
  | Ok (r, s') => r_tokens r = n ∧ 0 < n → rtc sstep (s, []) (returnTokens n s', [])
  | _ => True
  end.
Proof.
  destruct (read_obj o len s) as [[r s']| | |] eqn:E; [|done..]. intros [<- Hn].
  apply st_read with (p := []) in E. rewrite (proj2 (Z.ltb_lt 0 _)) in E by done.
  eapply rtc_l; [exact E|]. apply rtc_once, (st_return (r_tokens r) s' [] []).
Qed.

Lemma smux_tokens_witness :
  (bucket srv3, held (objs srv3), pushed srv3) = (MaxReceiveBuffer DefaultConfig + 12, 0, 12) ∧
  (bucket (recv_debit srv3), pushed (recv_debit srv3)) = (MaxReceiveBuffer DefaultConfig, 0) ∧
  (MaxReceiveBuffer DefaultConfig < 2 ^ 31 - 2 ^ 16 ∨ pushed srv3 = 0 →
   bucket srv3 + held (objs srv3) + pending [] + recycled srv3 = MaxReceiveBuffer DefaultConfig + pushed srv3) ∧
  held (objs srv3) + pending [] + recycled srv3 < MaxReceiveBuffer DefaultConfig + 65535.
Proof.
  split; [vm_compute; reflexivity|]. split; [vm_compute; reflexivity|].
  destruct (smux_tokens DefaultConfig false srv3 []) as (_ & H1 & _ & _ & _ & H2).
  - vm_compute; split; reflexivity.
  - eapply rtc_l; [apply (recv_once syn_in); vm_compute; reflexivity|].
    eapply rtc_l; [apply (recv_once psh_in); vm_compute; reflexivity|].
    pose proof (read_return 0%nat 12 12 srv2) as H. unfold srv3. fold srv1 srv2.
    destruct (read_obj 0%nat 12 srv2) as [[r s']| | |] eqn:E; [|apply rtc_refl..]. apply H.
    assert (match read_obj 0%nat 12 srv2 with Ok (r, _) => r_tokens r | _ => 0 end = 12) as Hr by (vm_compute; reflexivity).
    rewrite E in Hr. rewrite Hr. split; [reflexivity|lia].
  - vm_compute; reflexivity.
  - split; [exact H1|exact H2].
Defined.

(** A client that opens two streams. *)
Definition cl0 : Session := newSession DefaultConfig true.
Definition cl1 : Session := (open_begin cl0).2.
Definition cl2 : Session := (open_begin cl1).2.

Lemma smux_stream_ids_witness :
  2 <= 3 < 5 ∧ 5 < 2 ^ 32 ∧ 3 mod 2 = 1 ∧ 5 mod 2 = 1.
Proof.
  apply (smux_stream_ids DefaultConfig true cl0 [] 3 0%nat cl1 cl1 [] 5 1%nat cl2);
    [apply rtc_refl|vm_compute; reflexivity|apply rtc_refl|vm_compute; reflexivity].
Defined.

(** A data request, then a control request numbered after the wrap: control goes
    first. *)
Definition rq_data : writeRequest := MkReq CLSDATA (newFrame 1 cmdPSH 3) (2 ^ 32 - 1).
Definition rq_ctrl : writeRequest := MkReq CLSCTRL (newFrame 1 cmdNOP 0) 0.

Lemma shaper_priority_witness :
  shaper_iter PickWrite [rq_ctrl; rq_data] = Some (Written rq_ctrl, [rq_data]) ∧
  Permutation.Permutation [rq_ctrl; rq_data] ([] ++ [rq_ctrl; rq_data]) ∧
  (length [rq_ctrl; rq_data] <= S maxShaperSize)%nat ∧
  ([rq_ctrl; rq_data] ≠ [] → ∃ r rest,
    shaper_iter PickWrite [rq_ctrl; rq_data] = Some (Written r, rest) ∧
    Permutation.Permutation (r :: rest) [rq_ctrl; rq_data] ∧
    ∀ y, y ∈ rest → rq_class r < rq_class y ∨
      rq_class r = rq_class y ∧ u32 (rq_seq r - (2 ^ 32 - 1)) <= u32 (rq_seq y - (2 ^ 32 - 1))).
Proof.
  split; [vm_compute; reflexivity|].
  apply (shaper_priority [rq_ctrl; rq_data] [] [rq_ctrl; rq_data] (2 ^ 32 - 1)).
  - apply (run_queue rq_ctrl [rq_data] [] [rq_data] _ (2 ^ 32 - 1)).
    + apply (run_queue rq_data [] [] [] _ (2 ^ 32 - 1)); [apply run_start| |vm_compute; reflexivity].
      repeat constructor.
    + repeat constructor.
    + vm_compute; reflexivity.
  - repeat constructor.
Defined.
