(* ===== verification/SocksAddr.v ===== *)
(** pkg/socks/socks.go: SOCKS addresses, the address format of the SOCKS5, trojan
    and shadowsocks protocols.

    An address is the byte string [Addr] of the source: type, host, port.  Slicing
    it past its length is a panic; the functions that make one never do. *)
From S2P Require Import Prelude GoStd Reader.

Definition AuthNone : Z := 0.
Definition AuthPassword : Z := 2.
Definition CmdError : byte := x00.
Definition CmdConnect : byte := x01.
Definition CmdBind : byte := x02.
Definition CmdUDPAssociate : byte := x03.
Definition ATypIP4 : byte := x01.
Definition ATypDomain : byte := x03.
Definition ATypIP6 : byte := x04.
Definition IPv4len : nat := 4.
Definition IPv6len : nat := 16.
Definition MaxAddrLen : nat := 1 + 1 + 255 + 2.

Definition Errors : list error :=
  [""; "general failure"; "connection forbidden"; "network unreachable"; "host unreachable";
   "connection refused"; "TTL expired"; "command not supported"; "address type not supported";
   "socks5UDPAssociate"]%string.
Definition ErrAddrType : error := "address type not supported".

(** ** net.IP.String *)

Definition dotted (ip : list byte) : list byte :=
  join_bytes [c_dot] ((λ b, format_uint (b2z b)) <$> ip).

(** The sixteen-bit groups of an IPv6 address. *)
Fixpoint groups (ip : list byte) : list Z :=
  match ip with
  | hi :: lo :: ip => (b2z hi * 256 + b2z lo) :: groups ip
  | _ => []
  end.

Definition hex_digit (z : Z) : byte := if z <? 10 then z2b (48 + z) else z2b (87 + z).

(** A group in hexadecimal, without leading zeros. *)
Definition hex16 (z : Z) : list byte :=
  (if 0x1000 <=? z then [hex_digit (z / 4096)] else []) ++
  (if 0x100 <=? z then [hex_digit (z / 256 mod 16)] else []) ++
  (if 0x10 <=? z then [hex_digit (z / 16 mod 16)] else []) ++ [hex_digit (z mod 16)].

(** The length of the run of zero groups at the head. *)
Fixpoint zero_run (g : list Z) : nat :=
  match g with
  | z :: g => if z =? 0 then S (zero_run g) else O
  | [] => O
  end.

(** The first longest run of at least two zero groups: start and length. *)
Fixpoint longest_run (i : nat) (g : list Z) (start len : nat) : nat * nat :=
  match g with
  | [] => (start, len)
  | _ :: g' =>
      let l := zero_run g in
      if ((2 <=? l) && (len <? l))%nat then longest_run (S i) g' i l
      else longest_run (S i) g' start len
  end.

Definition ipv6_string (ip : list byte) : list byte :=
  let g := groups ip in
  let '(start, len) := longest_run 0 g 0 0 in
  let colons l := join_bytes [c_colon] (hex16 <$> l) in
  if (len =? 0)%nat then colons g
  else colons (take start g) ++ [c_colon; c_colon] ++ colons (drop (start + len) g).

(** [net.IP.To4] of a sixteen-byte address. *)
Definition mapped4 (ip : list byte) : option (list byte) :=
  if bool_decide (take 12 ip = replicate 10 x00 ++ [xff; xff]) then Some (drop 12 ip) else None.

(** [net.IP.String] of an address of four or sixteen bytes. *)
Definition IP_String (ip : list byte) : list byte :=
  if (length ip =? IPv4len)%nat then dotted ip
  else match mapped4 ip with
       | Some ip4 => dotted ip4
       | None => ipv6_string ip
       end.

(** ** Addresses *)

Definition byte_at (a : list byte) (i : nat) : outcome byte :=
  match a !! i with Some b => Ok b | None => Panic end.
Definition sub_at (a : list byte) (i j : nat) : outcome (list byte) :=
  if (j <=? length a)%nat then Ok (take (j - i) (drop i a)) else Panic.

(** The decimal port in the two bytes at [i]. *)
Definition port_at (a : list byte) (i : nat) : outcome (list byte) :=
  hi ← byte_at a i; lo ← byte_at a (i + 1);
  Ok (format_uint (Z.lor (Z.shiftl (b2z hi) 8) (b2z lo))).

Definition Addr_String (a : list byte) : outcome (list byte) :=
  t ← byte_at a 0;
  if bool_decide (t = ATypDomain) then
    n ← byte_at a 1;
    let n := Z.to_nat (b2z n) in
    host ← sub_at a 2 (2 + n); port ← port_at a (2 + n); Ok (JoinHostPort host port)
  else if bool_decide (t = ATypIP4) then
    ip ← sub_at a 1 (1 + IPv4len); port ← port_at a (1 + IPv4len); Ok (JoinHostPort (IP_String ip) port)
  else if bool_decide (t = ATypIP6) then
    ip ← sub_at a 1 (1 + IPv6len); port ← port_at a (1 + IPv6len); Ok (JoinHostPort (IP_String ip) port)
  else Ok (JoinHostPort [] []).

(** [ReadAddr]: reads just enough for an address. *)
Definition ReadAddr : rd (list byte) :=
  (t <- rd_full 1;;
   if bool_decide (t = [ATypDomain]) then
     n <- rd_full 1;; b <- rd_full (Z.to_nat (be_val n) + 2);; rd_ret (t ++ n ++ b)
   else if bool_decide (t = [ATypIP4]) then
     b <- rd_full (IPv4len + 2);; rd_ret (t ++ b)
   else if bool_decide (t = [ATypIP6]) then
     b <- rd_full (IPv6len + 2);; rd_ret (t ++ b)
   else rd_fail ErrAddrType)%rd.

(** [SplitAddr]; [None]: nil. *)
Definition SplitAddr (b : list byte) : option (list byte) :=
  t ← head b;
  addrLen ← (if bool_decide (t = ATypDomain) then
               n ← b !! 1%nat; Some (1 + 1 + Z.to_nat (b2z n) + 2)%nat
             else if bool_decide (t = ATypIP4) then Some (1 + IPv4len + 2)%nat
             else if bool_decide (t = ATypIP6) then Some (1 + IPv6len + 2)%nat
             else None);
  if (length b <? addrLen)%nat then None else Some (take addrLen b).

(** [socks.ParseAddr]; [None]: nil. *)
Definition socks_ParseAddr (s : list byte) : option (list byte) :=
  match SplitHostPort s with
  | Ok (host, port) =>
      addr ← match ParseAddr host with
             | Ok ip => Some ((if Is4 ip then ATypIP4 else ATypIP6) :: AsSlice ip)
             | _ => if (255 <? length host)%nat then None
                    else Some (ATypDomain :: z2b (Z.of_nat (length host)) :: host)
             end;
      match parse_uint port 16 with
      | (portnum, None) => Some (addr ++ [z2b (Z.shiftr portnum 8); z2b portnum])
      | (_, Some _) => None
      end
  | _ => None
  end.

(** ** Well-formed addresses *)

(** An address as RFC 1928 section 5 lays it out. *)
Definition socks_wf (a : list byte) : Prop :=
  match a with
  | t :: r =>
      if bool_decide (t = ATypDomain) then
        match r with
        | n :: r => length r = (Z.to_nat (b2z n) + 2)%nat
        | [] => False
        end
      else if bool_decide (t = ATypIP4) then length r = (IPv4len + 2)%nat
      else if bool_decide (t = ATypIP6) then length r = (IPv6len + 2)%nat
      else False
  | [] => False
  end.

#[global] Instance socks_wf_dec a : Decision (socks_wf a).
Proof. unfold socks_wf. destruct a as [|t [|n r]]; repeat case_bool_decide; apply _. Defined.

Lemma be_val_single b : be_val [b] = b2z b.
Proof. unfold be_val. simpl. lia. Qed.

Lemma ReadAddr_wf a : socks_wf a → reads_exactly ReadAddr a a.
Proof.
  destruct a as [|t r]; [done|]. unfold socks_wf, ReadAddr. intros H.
  apply (exact_bind _ _ [t] r [t]); [by apply exact_full|].
  repeat case_bool_decide; simplify_eq; try done.
  - destruct r as [|n r]; [done|]. apply (exact_bind _ _ [n] r [n]); [by apply exact_full|].
    rewrite be_val_single. by apply (exact_last _ (λ b, [ATypDomain] ++ [n] ++ b)), exact_full.
  - by apply (exact_last _ (λ b, [ATypIP4] ++ b)), exact_full.
  - by apply (exact_last _ (λ b, [ATypIP6] ++ b)), exact_full.
Qed.

Lemma keeps_ReadAddr : keeps ReadAddr.
Proof. unfold ReadAddr. auto 20 with rd. Qed.
#[export] Hint Resolve ReadAddr_wf keeps_ReadAddr : rd.

Lemma SplitAddr_wf a rest : socks_wf a → SplitAddr (a ++ rest) = Some a.
Proof.
  destruct a as [|t r]; [done|]. unfold socks_wf, SplitAddr, IPv4len, IPv6len. intros H. cbn [app head mbind option_bind].
  repeat case_bool_decide; simplify_eq; try done.
  - destruct r as [|n r]; [done|]. cbn [app lookup list_lookup mbind option_bind length].
    rewrite length_app, (proj2 (Nat.ltb_ge _ _)) by lia.
    replace (1 + 1 + Z.to_nat (b2z n) + 2)%nat with (length (ATypDomain :: n :: r)) by (simpl; lia).
    by rewrite <- (take_app_length (ATypDomain :: n :: r) rest) at 2.
  - cbn [mbind option_bind length]. rewrite length_app, (proj2 (Nat.ltb_ge _ _)) by lia.
    replace (1 + 4 + 2)%nat with (length (ATypIP4 :: r)) by (simpl; lia).
    by rewrite <- (take_app_length (ATypIP4 :: r) rest) at 2.
  - cbn [mbind option_bind length]. rewrite length_app, (proj2 (Nat.ltb_ge _ _)) by lia.
    replace (1 + 16 + 2)%nat with (length (ATypIP6 :: r)) by (simpl; lia).
    by rewrite <- (take_app_length (ATypIP6 :: r) rest) at 2.
Qed.

Lemma ParseAddr_socks_wf s a : socks_ParseAddr s = Some a → socks_wf a ∧ (length a <= MaxAddrLen)%nat.
Proof.
  unfold socks_ParseAddr. intros H. destruct (SplitHostPort s) as [[host port]| | |]; try done.
  apply bind_Some in H as (addr & Haddr & H).
  destruct (parse_uint port 16) as [portnum [e|]]; simplify_eq.
  destruct (ParseAddr host) as [ip|e| |] eqn:Eip.
  1: { apply ParseAddr_wf in Eip. destruct ip as [x|x z]; simpl in Haddr, Eip; simplify_eq; simpl;
         unfold MaxAddrLen; rewrite length_app; simpl; lia. }
  all: destruct (255 <? length host)%nat eqn:El; [done|]; bools; simplify_eq; simpl;
    rewrite b2z_z2b_small, Nat2Z.id, length_app by lia; unfold MaxAddrLen; simpl; lia.
Qed.

(** ** Printing and parsing *)

Lemma digits_dec_digits fuel z acc :
  Forall (λ c, is_digit c = true) acc → Forall (λ c, is_digit c = true) (dec_digits fuel z acc).
Proof.
  revert z acc. induction fuel as [|fuel IH]; intros z acc H; simpl; [done|].
  assert (Forall (λ c, is_digit c = true) (z2b (48 + z mod 10) :: acc)).
  { constructor; [|done]. apply digit_of. by apply Z.mod_pos_bound. }
  destruct (z <? 10); [done|by apply IH].
Qed.

Lemma format_uint_digits z : Forall (λ c, is_digit c = true) (format_uint z).
Proof. by apply digits_dec_digits. Qed.

Lemma digits_not_in c l :
  is_digit c = false → Forall (λ c, is_digit c = true) l → c ∉ l.
Proof. intros Hc Hl Hin. rewrite Forall_forall in Hl. apply Hl in Hin. congruence. Qed.

Lemma format_uint_port_ok z : port_ok (format_uint z).
Proof. unfold port_ok. repeat split; by apply digits_not_in, format_uint_digits. Qed.

Lemma dotted_octet b c s fields pd :
  parseIPv4_loop (format_uint (b2z b) ++ c_dot :: c :: s) 0 0 fields pd =
  if (length fields =? 3)%nat then Err ErrParseAddr
  else parseIPv4_loop (c :: s) 0 0 (fields ++ [b]) true.
Proof. destruct b; reflexivity. Qed.

Lemma dotted_last b fields pd :
  parseIPv4_loop (format_uint (b2z b)) 0 0 fields pd =
  if (length fields <? 3)%nat then Err ErrParseAddr else Ok (fields ++ [b]).
Proof. destruct b; reflexivity. Qed.

Lemma format_byte_cons b : ∃ c s, format_uint (b2z b) = c :: s.
Proof. destruct b; by eexists _, _. Qed.

Lemma scan_digits l s w :
  Forall (λ c, is_digit c = true) l → ParseAddr_scan (l ++ s) w = ParseAddr_scan s w.
Proof.
  induction 1 as [|c l Hc Hl IH]; [done|]. simpl.
  repeat (rewrite bool_decide_eq_false_2 by (intros ->; done)). done.
Qed.

Lemma ParseAddr_dotted ip : length ip = 4%nat → ParseAddr (dotted ip) = Ok (Addr4 ip).
Proof.
  intros Hl. destruct ip as [|a [|b [|c [|d [|]]]]]; try done. unfold ParseAddr, dotted.
  cbn [fmap list_fmap join_bytes]. set (w := format_uint (b2z a) ++ _).
  assert (parseIPv4Fields w = Ok [a; b; c; d]) as Hw.
  { unfold parseIPv4Fields, w. destruct (format_byte_cons b) as (b0 & bs & Eb).
    destruct (format_byte_cons c) as (c0 & cs & Ec). destruct (format_byte_cons d) as (d0 & ds & Ed).
    rewrite Eb. cbn [app]. rewrite dotted_octet. cbn [length Nat.eqb app].
    change (b0 :: bs ++ ?t) with ((b0 :: bs) ++ t). rewrite <- Eb, Ec. cbn [app]. rewrite dotted_octet.
    cbn [length Nat.eqb app].
    change (c0 :: cs ++ ?t) with ((c0 :: cs) ++ t). rewrite <- Ec, Ed. rewrite dotted_octet.
    cbn [length Nat.eqb app]. rewrite <- Ed. by rewrite dotted_last. }
  unfold w at 1. rewrite scan_digits by apply format_uint_digits. cbn [app ParseAddr_scan].
  rewrite bool_decide_eq_true_2 by done. by rewrite Hw.
Qed.

Lemma port_value hi lo : Z.lor (Z.shiftl (b2z hi) 8) (b2z lo) = be_val [hi; lo].
Proof.
  change (be_val [hi; lo]) with (b2z hi * 256 + (b2z lo * 1 + 0)). rewrite Z.mul_1_r, Z.add_0_r.
  pose proof (b2z_range lo). assert (Z.land (Z.shiftl (b2z hi) 8) (b2z lo) = 0) as Hl.
  { replace (b2z lo) with (b2z lo mod 2 ^ 8) by (apply Z.mod_small; lia).
    rewrite <- Z.land_ones by lia. apply Z.bits_inj'. intros n Hn.
    rewrite !Z.land_spec, Z.testbit_0_l, Z.shiftl_spec by lia.
    destruct (decide (n < 8)); [by rewrite Z.testbit_neg_r by lia|].
    rewrite Z.ones_spec_high by lia. by rewrite !andb_false_r. }
  rewrite <- (Z.lxor_lor _ _ Hl), <- (Z.add_nocarry_lxor _ _ Hl), Z.shiftl_mul_pow2 by lia. done.
Qed.

Lemma port_at_app a hi lo r i :
  i = length a → port_at (a ++ hi :: lo :: r) i = Ok (format_uint (be_val [hi; lo])).
Proof.
  intros ->. unfold port_at, byte_at.
  assert ((a ++ hi :: lo :: r) !! length a = Some hi) as -> by by rewrite lookup_app_r, Nat.sub_diag by lia.
  assert ((a ++ hi :: lo :: r) !! (length a + 1)%nat = Some lo) as ->.
  { rewrite lookup_app_r by lia. by replace (length a + 1 - length a)%nat with 1%nat by lia. }
  cbn [mbind outcome_bind]. by rewrite port_value.
Qed.

Lemma port_bytes hi lo :
  [z2b (Z.shiftr (be_val [hi; lo]) 8); z2b (be_val [hi; lo])] = [hi; lo].
Proof.
  pose proof (be_bytes_val [hi; lo]) as H. rewrite Z.shiftr_div_pow2 by lia.
  change (be_bytes (length [hi; lo]) ?z) with [z2b (z / 256 ^ 1); z2b (z / 256 ^ 0)] in H.
  by rewrite Z.pow_0_r, Z.div_1_r in H.
Qed.

(** The addresses whose text determines them: an IPv4 address, or a domain name
    that does not read as an IP address and has no brackets. *)
Definition plain (a : list byte) : Prop :=
  match a with
  | t :: r =>
      if bool_decide (t = ATypDomain) then
        let h := take (length r - 3) (drop 1 r) in host_ok h ∧ ∀ ip, ParseAddr h ≠ Ok ip
      else t = ATypIP4
  | [] => False
  end.

Lemma sub_at_app (a b c : list byte) i j :
  i = length a → j = (length a + length b)%nat → sub_at (a ++ b ++ c) i j = Ok b.
Proof.
  intros -> ->. unfold sub_at. rewrite (proj2 (Nat.leb_le _ _)) by (rewrite !length_app; lia).
  rewrite drop_app_length. replace (length a + length b - length a)%nat with (length b) by lia.
  by rewrite take_app_length.
Qed.

Lemma split_last2 (r : list byte) n :
  length r = (n + 2)%nat → ∃ h hi lo, r = h ++ [hi; lo] ∧ length h = n.
Proof.
  intros H. rewrite <- (take_drop n r). assert (length (drop n r) = 2%nat) as Hd by (rewrite length_drop; lia).
  destruct (drop n r) as [|hi [|lo [|]]]; try done. exists (take n r), hi, lo. split; [done|].
  rewrite length_take. lia.
Qed.

Lemma host_ok_dotted ip : host_ok (dotted ip).
Proof.
  unfold host_ok, dotted.
  assert (∀ c, is_digit c = false → c ≠ c_dot → c ∉ join_bytes [c_dot] ((λ b, format_uint (b2z b)) <$> ip)) as H.
  { intros c Hc Hd. induction ip as [|b ip IH]; [by apply not_elem_of_nil|].
    destruct ip as [|b' ip]; [apply digits_not_in; [done|apply format_uint_digits]|].
    cbn [fmap list_fmap join_bytes] in *. rewrite !elem_of_app. intros [Hin|[Hin|Hin]].
    - revert Hin. apply digits_not_in; [done|apply format_uint_digits].
    - apply list_elem_of_singleton in Hin. done.
    - done. }
  split; by apply H.
Qed.

Lemma ParseAddr_of_parts host port a hi lo :
  host_ok host → port = format_uint (be_val [hi; lo]) →
  match ParseAddr host with
  | Ok ip => Some ((if Is4 ip then ATypIP4 else ATypIP6) :: AsSlice ip)
  | _ => if (255 <? length host)%nat then None
         else Some (ATypDomain :: z2b (Z.of_nat (length host)) :: host)
  end = Some a →
  socks_ParseAddr (JoinHostPort host port) = Some (a ++ [hi; lo]).
Proof.
  intros Hh -> Ha. unfold socks_ParseAddr.
  rewrite split_join_host_port by (done || apply format_uint_port_ok).
  rewrite Ha. cbn [mbind option_bind]. pose proof (be_val_range [hi; lo]) as Hr.
  rewrite parse_format_uint by (simpl length in Hr; lia). by rewrite port_bytes.
Qed.

(** A SOCKS address survives printing and parsing: for every well-formed IPv4 address and every
    domain address whose name is not an IP literal, [ParseAddr] of the text [String] gives is the
    address itself. *)
Theorem socks_string_roundtrip a :
  socks_wf a → plain a → ∃ s, Addr_String a = Ok s ∧ socks_ParseAddr s = Some a.
Proof.
  destruct a as [|t r]; [done|]. unfold socks_wf, plain, Addr_String.
  change (byte_at (t :: r) 0) with (Ok t). cbn [mbind outcome_bind].
  repeat case_bool_decide; simplify_eq; try done.
  - destruct r as [|n r]; [done|]. intros Hl. destruct (split_last2 r _ Hl) as (h & hi & lo & -> & Hh).
    replace (take _ (drop 1 (n :: h ++ [hi; lo]))) with h; cycle 1.
    { cbn [length drop]. rewrite length_app. cbn [length].
      replace (S (length h + 2) - 3)%nat with (length h) by lia.
      symmetry. apply take_app_length. }
    intros [Hok Hip]. change (byte_at _ 1) with (Ok n). cbn [mbind outcome_bind].
    change (ATypDomain :: n :: h ++ [hi; lo]) with ([ATypDomain; n] ++ h ++ [hi; lo]).
    rewrite sub_at_app by (simpl; lia). cbn [mbind outcome_bind].
    rewrite app_assoc, port_at_app by (rewrite length_app; simpl; lia). cbn [mbind outcome_bind].
    eexists. split; [done|]. apply ParseAddr_of_parts; [done|done|].
    assert (Z.of_nat (length h) = b2z n) as Hn by (pose proof (b2z_range n); lia).
    pose proof (b2z_range n). rewrite Hn, z2b_b2z, (proj2 (Nat.ltb_ge _ _)) by lia.
    destruct (ParseAddr h) as [ip| | |]; try done. by destruct (Hip ip).
  - intros Hl _. destruct (split_last2 r _ Hl) as (h & hi & lo & -> & Hh).
    change (ATypIP4 :: h ++ [hi; lo]) with ([ATypIP4] ++ h ++ [hi; lo]).
    rewrite sub_at_app by (rewrite ?Hh; done). cbn [mbind outcome_bind].
    rewrite app_assoc, port_at_app by (rewrite length_app, Hh; done). cbn [mbind outcome_bind].
    assert (IP_String h = dotted h) as -> by (unfold IP_String; by rewrite Hh).
    eexists. split; [done|].
    rewrite (ParseAddr_of_parts _ _ (ATypIP4 :: h) hi lo); [done|apply host_ok_dotted|done|].
    by rewrite ParseAddr_dotted.
Qed.

(** C39: what [ParseAddr] accepts is a well-formed address of at most [MaxAddrLen] bytes that
    delimits itself: whatever follows it on the wire, [ReadAddr] and [SplitAddr] take back exactly
    the address. *)
Theorem socks_parse_framed s a rest :
  socks_ParseAddr s = Some a →
  (length a <= MaxAddrLen)%nat ∧ ReadAddr ([], a ++ rest) = (Ok a, (a, rest)) ∧
  SplitAddr (a ++ rest) = Some a.
Proof.
  intros H. apply ParseAddr_socks_wf in H as [Hw Hl]. split; [done|].
  split; [by apply (ReadAddr_wf a Hw [] rest)|by apply SplitAddr_wf].
Qed.
