(* ===== verification/Trojan.v ===== *)
(** proxy/trojan: the trojan protocol, client and server.

    TLS and the hash of the password are outside: [sha224_hex] is
    [hex(sha256.Sum224(_))], the connection is what TLS delivers. *)
From S2P Require Import Prelude GoStd Reader ProxyConn SocksAddr.

Definition crlf : list byte := [x0d; x0a].

Record Trojan := MkTrojan {
  tj_addr : list byte;
  tj_pass : list byte;
  tj_serverName : list byte;
  tj_skipVerify : bool;
  tj_certFile : list byte;
  tj_keyFile : list byte;
  tj_fallback : list byte }.

(** [NewTrojan] of a URL's host, user name and query. *)
Definition NewTrojan (sha224_hex : list byte → list byte) (host username : list byte)
    (query : list (list byte * list byte)) : Trojan + error :=
  let get k := query_get query (lit k) in
  let addr := if bool_decide (host = []) then host
              else let '(_, port) := SplitHostPort_ host in
                   if bool_decide (port = []) then JoinHostPort host (lit "443") else host in
  let serverName := if bool_decide (addr = []) || negb (bool_decide (get "serverName"%string = []))
                    then get "serverName"%string
                    else match last_index_byte addr c_colon with Some i => take i addr | None => addr end in
  if bool_decide (username = []) then inr "[trojan] password must be specified"%string
  else inl (MkTrojan addr (sha224_hex username) serverName
              (bool_decide (get "skipVerify"%string = lit "true")) (get "cert"%string)
              (get "key"%string) (get "fallback"%string)).

(** ** Requests *)

(** What [dial] writes: a target [ParseAddr] refuses is left out. *)
Definition trojan_header (s : Trojan) (net : network) (addr : list byte) : list byte :=
  tj_pass s ++ crlf ++ [match net with Udp => CmdUDPAssociate | Tcp => CmdConnect end] ++
  default [] (socks_ParseAddr addr) ++ crlf.

Definition ErrPassword : error := "wrong password".
Definition trojan_addr_err (e : error) : error := String.append "read target address error: " e.

Definition trojan_readHeader (s : Trojan) : rd (byte * list byte) :=
  (buf <- rd_full 59;;
   if bool_decide (take 56 buf ≠ tj_pass s) then rd_fail ErrPassword
   else
     let cmd := nth 58 buf x00 in
     tgt <- rd_wrap trojan_addr_err ReadAddr;;
     rd_full 2;;; rd_ret (cmd, tgt))%rd.

(** The part of the header [Serve] acts on: packets or not, and the target. *)
Definition trojan_target (s : Trojan) : rd (bool * list byte) :=
  (h <- trojan_readHeader s;;
   match Addr_String h.2 with
   | Ok t => rd_ret (bool_decide (h.1 = CmdUDPAssociate), t)
   | _ => λ r, (Panic, r)
   end)%rd.

Section TrojanServe.
Context {W D : Type} `{!ProxyDialer W D}.
Context (dial : D → network → list byte → option error) (relay : option error).

Definition trojan_Serve (s : Trojan) (input : list byte) (w : W) : outcome (action D * W) :=
  serve_header dial relay (trojan_target s) (tj_addr s) (tj_fallback s) input w.
End TrojanServe.

(** ** Packets over the stream *)

Definition ErrBufSize : error := "buf size is not enough".

(** [PktConn.WriteTo]: the bytes written for a packet; [target]: the address of
    the packet, else the one of the connection ([None]: invalid). *)
Definition trojan_packet (target : option (list byte)) (b : list byte) : outcome (list byte) :=
  match target with
  | None => Err "invalid addr"
  | Some t => Ok (t ++ be_bytes 2 (u16 (Z.of_nat (length b))) ++ crlf ++ b)
  end.

(** Its result, for [n] bytes the connection took. *)
Definition trojan_WriteTo_result (target : list byte) (n : Z) (err : option error) : Z * option error :=
  let tgtLen := Z.of_nat (length target) in
  if tgtLen + 4 <? n then (n - tgtLen - 4, None) else (0, err).

(** [PktConn.ReadFrom] into a buffer of [blen] bytes; [resolve] is
    [net.ResolveUDPAddr]. *)
Definition trojan_ReadFrom {A} (resolve : list byte → outcome A) (blen : nat) : rd (list byte * A) :=
  (tgtAddr <- ReadAddr;;
   match Addr_String tgtAddr with
   | Ok t =>
       match resolve t with
       | Ok target =>
           if (blen <? 2)%nat then rd_fail ErrBufSize
           else
             l <- rd_full 2;;
             if (blen <? Z.to_nat (be_val l))%nat then rd_fail ErrBufSize
             else rd_full 2;;; b <- rd_full (Z.to_nat (be_val l));; rd_ret (b, target)
       | Err e => rd_fail e
       | _ => λ r, (Panic, r)
       end
   | _ => λ r, (Panic, r)
   end)%rd.

(** ** Addresses the server reads have a text *)

Lemma keeps_panic {A} : keeps (λ r, (@Panic A, r)).
Proof. by intros r. Qed.
#[export] Hint Resolve keeps_panic : rd.

Lemma byte_at_lt a i : (i < length a)%nat → ∃ b, byte_at a i = Ok b.
Proof. intros H. unfold byte_at. destruct (lookup_lt_is_Some_2 a i H) as [b ->]. by exists b. Qed.

Lemma sub_at_lt a i j : (j <= length a)%nat → ∃ b, sub_at a i j = Ok b.
Proof. intros H. unfold sub_at. rewrite (proj2 (Nat.leb_le _ _)) by done. by eexists. Qed.

Lemma port_at_lt a i : (i + 1 < length a)%nat → ∃ p, port_at a i = Ok p.
Proof.
  intros H. unfold port_at. destruct (byte_at_lt a i ltac:(lia)) as [hi ->].
  destruct (byte_at_lt a (i + 1) ltac:(lia)) as [lo ->]. by eexists.
Qed.

Lemma Addr_String_wf a : socks_wf a → ∃ s, Addr_String a = Ok s.
Proof.
  destruct a as [|t r]; [done|]. unfold socks_wf, Addr_String. intros H.
  change (byte_at (t :: r) 0) with (Ok t). cbn [mbind outcome_bind].
  repeat case_bool_decide; try done.
  - destruct r as [|n r]; [done|]. change (byte_at (t :: n :: r) 1) with (Ok n). cbn [mbind outcome_bind].
    destruct (sub_at_lt (t :: n :: r) 2 (2 + Z.to_nat (b2z n))) as [h ->]; [simpl; lia|].
    destruct (port_at_lt (t :: n :: r) (2 + Z.to_nat (b2z n))) as [p ->]; [simpl; lia|]. by eexists.
  - destruct (sub_at_lt (t :: r) 1 (1 + IPv4len)) as [h ->]; [simpl; unfold IPv4len in *; lia|].
    destruct (port_at_lt (t :: r) (1 + IPv4len)) as [p ->]; [simpl; unfold IPv4len in *; lia|]. by eexists.
  - destruct (sub_at_lt (t :: r) 1 (1 + IPv6len)) as [h ->]; [simpl; unfold IPv6len in *; lia|].
    destruct (port_at_lt (t :: r) (1 + IPv6len)) as [p ->]; [simpl; unfold IPv6len in *; lia|]. by eexists.
Qed.

(** ** The server understands the client *)

Definition cmd_of (net : network) : byte := match net with Udp => CmdUDPAssociate | Tcp => CmdConnect end.

Lemma trojan_header_read s net addr a :
  length (tj_pass s) = 56%nat → socks_ParseAddr addr = Some a →
  reads_exactly (trojan_readHeader s) (trojan_header s net addr) (cmd_of net, a).
Proof.
  intros Hp Ha. unfold trojan_header. rewrite Ha. change (default [] (Some a)) with a.
  apply ParseAddr_socks_wf in Ha as [Hw _].
  replace (tj_pass s ++ crlf ++ [match net with Udp => CmdUDPAssociate | Tcp => CmdConnect end] ++ a ++ crlf)
    with ((tj_pass s ++ crlf ++ [cmd_of net]) ++ a ++ crlf ++ []) by (rewrite app_nil_r, <- !app_assoc; done).
  unfold trojan_readHeader. eapply exact_bind.
  { apply exact_full. rewrite length_app, Hp. done. }
  cbv beta. rewrite take_app_le, take_ge, bool_decide_eq_false_2 by (lia || (intros H; by apply H)).
  replace (nth 58 (tj_pass s ++ crlf ++ [cmd_of net]) x00) with (cmd_of net); cycle 1.
  { rewrite app_nth2 by lia. by rewrite Hp. }
  cbv zeta. eapply exact_bind; [apply exact_wrap; by apply ReadAddr_wf|]. cbv beta.
  eapply exact_bind; [by apply exact_full|apply exact_ret].
Qed.

(** C20: a trojan server that shares the password does what the client asked: whatever the proxy
    behind it, it picks a dialer for the target the client named, relays everything the client
    sends after the header and nothing else, and serves packets itself exactly when there is no
    upstream proxy. *)
Theorem trojan_request {W D} `{!ProxyDialer W D} dial relay s net addr a target data (w : W) :
  length (tj_pass s) = 56%nat → socks_ParseAddr addr = Some a → Addr_String a = Ok target →
  trojan_Serve dial relay s (trojan_header s net addr ++ data) w =
  Ok (let '(d, w') := pd_NextDialer target w in
      if bool_decide (net = Udp ∧ pd_Addr d = lit "DIRECT") then (UoT target data, w')
      else match dial d net target with
           | Some _ => (Drop, w')
           | None =>
               (RelayTo d net target [] data,
                match relay with
                | Some e => if contains (String.list_byte_of_string e) (tj_addr s) then w'
                            else pd_Record d false w'
                | None => w'
                end)
           end).
Proof.
  intros Hp Ha Ht. unfold trojan_Serve.
  rewrite (serve_header_ok _ _ _ _ _ (trojan_header s net addr) (bool_decide (net = Udp)) target).
  - unfold serve_target. destruct (pd_NextDialer target w) as [d w'].
    destruct net; cbn [bool_decide andb]; repeat case_bool_decide; naive_solver.
  - rewrite <- (app_nil_r (trojan_header s net addr)). unfold trojan_target.
    eapply exact_bind; [by apply trojan_header_read|]. cbn [fst snd]. rewrite Ht.
    by destruct net; apply exact_ret.
Qed.

Lemma keeps_trojan_target s : keeps (trojan_target s).
Proof.
  unfold trojan_target. apply keeps_bind; [unfold trojan_readHeader; auto 20 with rd|].
  intros [cmd tgt]. destruct (Addr_String _); auto with rd.
Qed.

(** An intruder cannot tell a trojan server from its fallback: a connection whose header is
    rejected (wrong password, malformed, cut short anywhere) is relayed to the fallback with
    exactly the bytes the client sends. *)
Theorem trojan_fallback {W D} `{!ProxyDialer W D} dial relay s input e (w : W) :
  (trojan_target s ([], input)).1 = Err e → tj_fallback s ≠ [] →
  dial (pd_NextDialer (tj_fallback s) w).1 Tcp (tj_fallback s) = None →
  ∃ head rest w', head ++ rest = input ∧
    trojan_Serve dial relay s input w =
    Ok (RelayTo (pd_NextDialer (tj_fallback s) w).1 Tcp (tj_fallback s) head rest, w').
Proof.
  intros He Hf Hd.
  destruct (serve_header_fallback dial relay _ (tj_addr s) (tj_fallback s) input e w
    (keeps_trojan_target s) He Hf) as (a & w' & Hs & Hr).
  destruct (Hr Hd) as (Hin & head & rest & ->). by exists head, rest, w'.
Qed.

(** Packets survive the stream: what [WriteTo] writes for a packet of less than [2^16] bytes is
    read back by [ReadFrom] as that packet and its address, whatever follows, provided the buffer
    is large enough. *)
Theorem trojan_packet_roundtrip {A} (resolve : list byte → outcome A) a b text target blen rest bytes :
  socks_wf a → Addr_String a = Ok text → resolve text = Ok target →
  Z.of_nat (length b) < 2 ^ 16 → (2 <= blen)%nat → (length b <= blen)%nat →
  trojan_packet (Some a) b = Ok bytes →
  trojan_ReadFrom resolve blen ([], bytes ++ rest) = (Ok (b, target), (bytes, rest)).
Proof.
  intros Hw Ht Hr Hl H2 Hb [= <-].
  assert (reads_exactly (trojan_ReadFrom resolve blen)
    (a ++ be_bytes 2 (u16 (Z.of_nat (length b))) ++ crlf ++ b ++ []) (b, target)) as H.
  { unfold trojan_ReadFrom. eapply exact_bind; [by apply ReadAddr_wf|]. cbv beta. rewrite Ht, Hr.
    rewrite (proj2 (Nat.ltb_ge _ _)) by done. eapply exact_bind; [by apply exact_full|]. cbv beta.
    rewrite u16_small, be16_id, Nat2Z.id, (proj2 (Nat.ltb_ge _ _)) by lia.
    eapply exact_bind; [by apply exact_full|]. eapply exact_bind; [by apply exact_full|apply exact_ret]. }
  rewrite app_nil_r in H. apply (H [] rest).
Qed.
