(* ===== verification/Vless.v ===== *)
(** proxy/vless: the vless protocol, client and server. *)
From S2P Require Import Prelude GoStd Reader ProxyConn SocksAddr Trojan.

Definition vless_Version : byte := x00.
Definition CmdTCP : byte := x01.
Definition CmdUDP : byte := x02.
Definition AtypIP4 : byte := x01.
Definition AtypDomain : byte := x02.
Definition AtypIP6 : byte := x03.
Definition MaxHostLen : nat := 255.

Record VLess := MkVLess { vl_addr : list byte; vl_uuid : list byte; vl_fallback : list byte }.

(** ** Identifiers *)

Definition ErrUUID : error := "invalid UUID: ".

(** [hex.Decode]. *)
Fixpoint hex_decode (s : list byte) : outcome (list byte) :=
  match s with
  | a :: b :: s =>
      match hex_val a, hex_val b with
      | Some x, Some y => r ← hex_decode s; Ok (z2b (x * 16 + y) :: r)
      | _, _ => Err "encoding/hex: invalid byte"
      end
  | [_] => Err "encoding/hex: odd length hex string"
  | [] => Ok []
  end.

(** [StrToUUID]: a name of at most thirty bytes is hashed ([sha1] is the twenty
    byte digest) with the version and variant bits of a name-based UUID. *)
Definition StrToUUID (sha1 : list byte → list byte) (s : list byte) : outcome (list byte) :=
  if (1 <=? length s)%nat && (length s <=? 30)%nat then
    let u := take 16 (sha1 (replicate 16 x00 ++ s)) in
    match u !! 6%nat, u !! 8%nat with
    | Some b6, Some b8 =>
        Ok (<[6%nat := z2b (Z.lor (Z.land (b2z b6) 0x0f) (Z.shiftl 5 4))]>
              (<[8%nat := z2b (Z.lor (Z.land (b2z b8) (Z.shiftr 0xff 2)) (Z.shiftl 0x02 6))]> u))
    | _, _ => Panic
    end
  else
    let b := filter (λ c, c ≠ x2d) s in
    if negb (length b =? 32)%nat then Err ErrUUID else hex_decode b.

(** ** Addresses *)

(** [ParseAddr]: type, address field (a domain with its length) and port. *)
Definition vless_ParseAddr (s : list byte) : outcome (byte * list byte * Z) :=
  hp ← SplitHostPort s;
  let '(host, port) := hp in
  ta ← match ParseAddr host with
       | Ok ip => Ok (if Is6 ip then AtypIP6 else AtypIP4, AsSlice ip)
       | Err e => if (MaxHostLen <? length host)%nat then Err e
                  else Ok (AtypDomain, z2b (Z.of_nat (length host)) :: host)
       | Panic => Panic
       | OutOfFuel => OutOfFuel
       end;
  match parse_uint port 16 with
  | (n, None) => Ok (ta, n)
  | (_, Some e) => Err e
  end.

(** [ReadAddr]: an unknown type is no error, it gives an empty address. *)
Definition vless_ReadAddr : rd (byte * list byte * Z) :=
  (p <- rd_full 2;;
   t <- rd_full 1;;
   let port := be_val p in
   let atyp := nth 0 t x00 in
   if bool_decide (atyp = AtypIP4) then h <- rd_full IPv4len;; rd_ret (atyp, h, port)
   else if bool_decide (atyp = AtypIP6) then h <- rd_full IPv6len;; rd_ret (atyp, h, port)
   else if bool_decide (atyp = AtypDomain) then
     n <- rd_full 1;; h <- rd_full (Z.to_nat (be_val n));; rd_ret (atyp, h, port)
   else rd_ret (atyp, [], port))%rd.

Definition vless_AddrString (atyp : byte) (addr : list byte) (port : Z) : list byte :=
  let host := if bool_decide (atyp = AtypIP4) || bool_decide (atyp = AtypIP6) then IP_String addr
              else if bool_decide (atyp = AtypDomain) then addr else [] in
  JoinHostPort host (format_uint port).

Definition vless_ReadAddrString : rd (list byte) :=
  (x <- vless_ReadAddr;; let '(t, h, p) := x in rd_ret (vless_AddrString t h p))%rd.

(** ** Requests *)

(** What [NewClientConn] writes. *)
Definition vless_header (uuid : list byte) (net : network) (target : list byte) : outcome (list byte) :=
  x ← vless_ParseAddr target;
  let '(atyp, addr, port) := x in
  Ok ([vless_Version] ++ uuid ++ [x00] ++ [match net with Udp => CmdUDP | Tcp => CmdTCP end] ++
      be_bytes 2 port ++ [atyp] ++ addr).

Definition hex_byte (b : byte) : list byte := [hex_digit (b2z b / 16); hex_digit (b2z b mod 16)].
Definition ErrVlessVersion (v : list byte) : error :=
  String.append "version " (String.append (String.string_of_list_byte (format_uint (be_val v))) " not supported").
Definition ErrClientID (id : list byte) : error :=
  String.append "auth failed, client id: " (String.string_of_list_byte (concat (hex_byte <$> id))).

Definition vless_readHeader (s : VLess) : rd (byte * list byte) :=
  (buf <- rd_wrap (String.append "read header error: ") (rd_full 18);;
   if bool_decide (take 1 buf ≠ [vless_Version]) then rd_fail (ErrVlessVersion (take 1 buf))
   else if bool_decide (take 16 (drop 1 buf) ≠ vl_uuid s) then rd_fail (ErrClientID (take 16 buf))
   else
     rd_discard (Z.to_nat (be_val (drop 17 buf)));;;
     c <- rd_wrap (String.append "get cmd error: ") (rd_full 1);;
     t <- vless_ReadAddrString;; rd_ret (nth 0 c x00, t))%rd.

Definition vless_target (s : VLess) : rd (bool * list byte) :=
  (h <- vless_readHeader s;; rd_ret (bool_decide (h.1 = CmdUDP), h.2))%rd.

Section VlessServe.
Context {W D : Type} `{!ProxyDialer W D}.
Context (dial : D → network → list byte → option error) (relay : option error).

Definition vless_Serve (s : VLess) (input : list byte) (w : W) : outcome (action D * W) :=
  serve_header dial relay (vless_target s) (vl_addr s) (vl_fallback s) input w.
End VlessServe.

(** ** Responses *)

(** The bytes [ServerConn.Write] sends for the successive writes of a connection. *)
Fixpoint server_writes (sent : bool) (ws : list (list byte)) : list byte :=
  match ws with
  | [] => []
  | b :: ws => (if sent then [] else [vless_Version; x00]) ++ b ++ server_writes true ws
  end.

(** The header [ClientConn.Read] takes off before the first read. *)
Definition vless_response : rd unit :=
  (buf <- rd_full 2;;
   if bool_decide (take 1 buf ≠ [vless_Version]) then rd_fail "version not supported"
   else rd_discard (Z.to_nat (be_val (drop 1 buf))))%rd.

(** ** Packets over the stream *)

Definition vless_packet (b : list byte) : list byte := be_bytes 2 (u16 (Z.of_nat (length b))) ++ b.

Definition vless_WriteTo_result (n : Z) (err : option error) : Z * option error :=
  if 2 <? n then (n - 2, err) else (0, err).

Definition vless_ReadFrom (blen : nat) : rd (list byte) :=
  if (blen <? 2)%nat then rd_fail ErrBufSize
  else (l <- rd_full 2;;
        if (blen <? Z.to_nat (be_val l))%nat then rd_fail ErrBufSize
        else rd_full (Z.to_nat (be_val l)))%rd.

(** ** The server understands the client *)

(** The text the server makes of what the client put in the header. *)
Definition vless_canonical (x : byte * list byte * Z) : list byte :=
  let '(t, a, p) := x in
  vless_AddrString t (if bool_decide (t = AtypDomain) then drop 1 a else a) p.

Definition vless_addr_wf (x : byte * list byte * Z) : Prop :=
  let '(t, a, p) := x in
  0 <= p < 2 ^ 16 ∧
  ((t = AtypIP4 ∧ length a = IPv4len) ∨ (t = AtypIP6 ∧ length a = IPv6len) ∨
   (t = AtypDomain ∧ ∃ h, a = z2b (Z.of_nat (length h)) :: h ∧ (length h <= MaxHostLen)%nat)).

Lemma vless_ParseAddr_wf s x : vless_ParseAddr s = Ok x → vless_addr_wf x.
Proof.
  unfold vless_ParseAddr. intros H. apply bind_Ok in H as ([host port] & _ & H).
  apply bind_Ok in H as ([t a] & Hta & H).
  pose proof (parse_uint_range port 16 ltac:(lia)) as Hr.
  destruct (parse_uint port 16) as [n [e|]]; simplify_eq. simpl in Hr. split; [lia|].
  destruct (ParseAddr host) as [ip|e| |] eqn:E; try done.
  - apply ParseAddr_wf in E. destruct ip; simpl in *; simplify_eq; [by left|by right; left].
  - destruct (MaxHostLen <? length host)%nat eqn:El; [done|]. bools. simplify_eq. right; right.
    split; [done|]. by exists host.
Qed.

Lemma vless_ReadAddr_exact t a p :
  vless_addr_wf (t, a, p) →
  reads_exactly vless_ReadAddrString (be_bytes 2 p ++ [t] ++ a) (vless_canonical (t, a, p)).
Proof.
  intros [Hp H]. unfold vless_ReadAddrString. rewrite <- (app_nil_r (be_bytes 2 p ++ _)).
  assert (reads_exactly vless_ReadAddr (be_bytes 2 p ++ [t] ++ a)
    (t, if bool_decide (t = AtypDomain) then drop 1 a else a, p)) as Hra.
  { unfold vless_ReadAddr. eapply exact_bind; [by apply exact_full|].
    eapply exact_bind; [by apply exact_full|]. cbv beta zeta. cbn [nth]. rewrite be16_id by done.
    destruct H as [[-> Hl]|[[-> Hl]|(-> & h & -> & Hl)]].
    - repeat (rewrite bool_decide_eq_true_2 by done || rewrite bool_decide_eq_false_2 by done).
      by apply (exact_last _ (λ h, (_, h, p))), exact_full.
    - rewrite !(bool_decide_eq_false_2 (AtypIP6 = _)) by done.
      rewrite bool_decide_eq_true_2 by done.
      by apply (exact_last _ (λ h, (_, h, p))), exact_full.
    - rewrite !(bool_decide_eq_false_2 (AtypDomain = AtypIP4)), !(bool_decide_eq_false_2 (AtypDomain = AtypIP6)) by done.
      rewrite !bool_decide_eq_true_2 by done.
      change (z2b (Z.of_nat (length h)) :: h) with ([z2b (Z.of_nat (length h))] ++ h) at 1.
      eapply exact_bind; [by apply exact_full|].
      rewrite be_val_single, b2z_z2b_small, Nat2Z.id by (unfold MaxHostLen in Hl; lia).
      by apply (exact_last _ (λ h, (_, h, p))), exact_full. }
  eapply exact_bind; [exact Hra|]. cbv beta iota. apply exact_ret.
Qed.

(** The header, whatever the tail that says the target. *)
Lemma vless_header_tail s cmd tail t :
  length (vl_uuid s) = 16%nat → reads_exactly vless_ReadAddrString tail t →
  reads_exactly (vless_target s) ([vless_Version] ++ vl_uuid s ++ [x00] ++ [cmd] ++ tail)
    (bool_decide (cmd = CmdUDP), t).
Proof.
  intros Hu Ht.
  replace ([vless_Version] ++ vl_uuid s ++ [x00] ++ [cmd] ++ tail)
    with (([vless_Version] ++ vl_uuid s ++ [x00]) ++ [] ++ [cmd] ++ tail)
    by (cbn [app]; by rewrite <- !app_assoc).
  apply (exact_last _ (λ h, (bool_decide (h.1 = CmdUDP), h.2)) _ (cmd, t)).
  unfold vless_readHeader. eapply exact_bind.
  { apply exact_wrap, exact_full. rewrite !length_app, Hu. done. }
  cbv beta. rewrite bool_decide_eq_false_2 by (intros H; by apply H).
  rewrite bool_decide_eq_false_2.
  2: { intros H. apply H. rewrite <- Hu. apply (take_app_length (vl_uuid s)). }
  replace (drop 17 ([vless_Version] ++ vl_uuid s ++ [x00])) with [x00].
  2: { change 17%nat with (S 16). cbn [app drop]. rewrite <- Hu. symmetry. apply drop_app_length. }
  eapply exact_bind; [by apply exact_discard|].
  eapply exact_bind; [by apply exact_wrap, exact_full|].
  by apply (exact_last _ (λ t, (cmd, t))).
Qed.

Lemma vless_header_read s net target x hdr :
  length (vl_uuid s) = 16%nat → vless_ParseAddr target = Ok x →
  vless_header (vl_uuid s) net target = Ok hdr →
  reads_exactly (vless_target s) hdr (bool_decide (net = Udp), vless_canonical x).
Proof.
  intros Hu Hx Hh. unfold vless_header in Hh. rewrite Hx in Hh. destruct x as [[t a] p].
  cbn [mbind outcome_bind] in Hh. apply (f_equal (λ o, match o with Ok l => l | _ => [] end)) in Hh.
  subst hdr. set (cmd := match net with Udp => CmdUDP | Tcp => CmdTCP end).
  replace (bool_decide (net = Udp)) with (bool_decide (cmd = CmdUDP)) by by destruct net.
  apply vless_header_tail; [done|]. apply vless_ReadAddr_exact. by apply (vless_ParseAddr_wf target).
Qed.

(** A vless server that shares the identifier does what the client asked: it reads back the
    target the client named (in canonical text), picks a dialer for it and relays everything after
    the header; packets without an upstream proxy are served on the spot. *)
Theorem vless_request {W D} `{!ProxyDialer W D} dial relay s net target x hdr data (w : W) :
  length (vl_uuid s) = 16%nat → vless_ParseAddr target = Ok x →
  vless_header (vl_uuid s) net target = Ok hdr →
  vless_Serve dial relay s (hdr ++ data) w =
  Ok (serve_target dial relay (vl_addr s) (bool_decide (net = Udp)) (vless_canonical x) data w).
Proof. intros Hu Hx Hh. by apply serve_header_ok, (vless_header_read s net target). Qed.

Lemma keeps_vless_target s : keeps (vless_target s).
Proof.
  assert (keeps vless_ReadAddrString) by
    (apply keeps_bind; [unfold vless_ReadAddr; auto 30 with rd|]; intros [[t h] p]; auto with rd).
  unfold vless_target, vless_readHeader. auto 20 with rd.
Qed.

(** A connection a vless server rejects is relayed to the fallback with exactly the bytes the
    client sends, wherever the header went wrong. *)
Theorem vless_fallback_transparent {W D} `{!ProxyDialer W D} dial relay s input e (w : W) :
  (vless_target s ([], input)).1 = Err e → vl_fallback s ≠ [] →
  dial (pd_NextDialer (vl_fallback s) w).1 Tcp (vl_fallback s) = None →
  ∃ head rest w', head ++ rest = input ∧
    vless_Serve dial relay s input w =
    Ok (RelayTo (pd_NextDialer (vl_fallback s) w).1 Tcp (vl_fallback s) head rest, w').
Proof.
  intros He Hf Hd.
  destruct (serve_header_fallback dial relay _ (vl_addr s) (vl_fallback s) input e w
    (keeps_vless_target s) He Hf) as (a & w' & Hs & Hr).
  destruct (Hr Hd) as (Hin & head & rest & ->). by exists head, rest, w'.
Qed.

(** A request of an address type the protocol does not have is not refused: for every such type
    the server serves the target [":port"], an empty host, which a direct dialer takes for the
    server's own machine. *)
Theorem vless_unknown_type {W D} `{!ProxyDialer W D} dial relay s atyp port data (w : W) :
  length (vl_uuid s) = 16%nat → 0 <= port < 2 ^ 16 → atyp ∉ [AtypIP4; AtypDomain; AtypIP6] →
  vless_Serve dial relay s
    (([vless_Version] ++ vl_uuid s ++ [x00] ++ [CmdTCP] ++ be_bytes 2 port ++ [atyp]) ++ data) w =
  Ok (serve_target dial relay (vl_addr s) false (JoinHostPort [] (format_uint port)) data w).
Proof.
  intros Hu Hp Ht. rewrite !not_elem_of_cons in Ht. destruct Ht as (H4 & Hd & H6 & _).
  apply serve_header_ok, (vless_header_tail s CmdTCP); [done|].
  assert (vless_AddrString atyp [] port = JoinHostPort [] (format_uint port)) as <-.
  { unfold vless_AddrString. by rewrite !bool_decide_eq_false_2 by done. }
  rewrite <- (app_nil_r (be_bytes 2 port ++ [atyp])).
  apply (exact_bind vless_ReadAddr _ _ [] (atyp, [], port)); [|apply exact_ret].
  apply (exact_bind _ _ _ [atyp] (be_bytes 2 port)); [by apply exact_full|].
  apply (exact_bind _ _ [atyp] [] [atyp]); [by apply exact_full|]. cbv beta zeta. cbn [nth].
  rewrite be16_id, !bool_decide_eq_false_2 by done. apply exact_ret.
Qed.

(** Everything the server writes reaches the client's reader, without the
    response header. *)
Lemma vless_response_stream b ws :
  vless_response ([], server_writes false (b :: ws)) = (Ok tt, ([vless_Version; x00], concat (b :: ws))).
Proof.
  assert (∀ ws, server_writes true ws = concat ws) as Hw.
  { intros l. induction l as [|x l IH]; [done|]. simpl. by rewrite IH. }
  cbn [server_writes concat]. rewrite Hw.
  apply (exact_bind (rd_full 2) _ [vless_Version; x00] [] [vless_Version; x00] tt); [by apply exact_full|].
  by apply exact_discard.
Qed.

Lemma vless_packet_roundtrip b blen rest :
  Z.of_nat (length b) < 2 ^ 16 → (2 <= blen)%nat → (length b <= blen)%nat →
  vless_ReadFrom blen ([], vless_packet b ++ rest) = (Ok b, (vless_packet b, rest)).
Proof.
  intros Hl H2 Hb. unfold vless_ReadFrom, vless_packet. rewrite (proj2 (Nat.ltb_ge _ _)) by done.
  refine (exact_bind (rd_full 2) _ _ b _ b _ _ [] rest); [by apply exact_full|]. cbv beta.
  rewrite u16_small, be16_id, Nat2Z.id, (proj2 (Nat.ltb_ge _ _)) by lia. by apply exact_full.
Qed.
