(* ===== verification/Dialogue.v ===== *)
(** Two programs that talk over a connection: reads and writes as a tree, and the
    run of two of them against each other.

    Each side is sequential and the connection keeps order, so the run does not
    depend on how the two are interleaved; the client goes first as long as it can. *)
From S2P Require Import Prelude.

(** [Recv n wrap k]: [io.ReadFull] of [n] bytes; an error [e] ends the program
    with [wrap e]. *)
Inductive proc (A : Type) : Type :=
| Stop (a : outcome A)
| Send (b : list byte) (k : proc A)
| Recv (n : nat) (wrap : error → error) (k : list byte → proc A).
Arguments Stop {A}.
Arguments Send {A}.
Arguments Recv {A}.

(** Running a reader of the stream inside a program ([socks.ReadAddr] on the
    connection) is sequencing. *)
Fixpoint proc_bind {A B} (p : proc A) (k : A → proc B) : proc B :=
  match p with
  | Stop (Ok a) => k a
  | Stop (Err e) => Stop (Err e)
  | Stop Panic => Stop Panic
  | Stop OutOfFuel => Stop OutOfFuel
  | Send b p => Send b (proc_bind p k)
  | Recv n w f => Recv n w (λ l, proc_bind (f l) k)
  end.

(** How a run ends: both programs stopped, with the bytes nobody read; or both
    wait for the other. *)
Inductive ending (A B : Type) : Type :=
| Both (a : outcome A) (b : outcome B) (to_server to_client : list byte)
| Deadlock
| Unfinished.
Arguments Both {A B}.
Arguments Deadlock {A B}.
Arguments Unfinished {A B}.

(** The side that stopped with an error closes the connection: the other side
    reads what is in flight, then gets [EOF]. *)
Definition closed {A} (p : proc A) : bool :=
  match p with Stop (Ok _) => false | Stop _ => true | _ => false end.

Fixpoint run {A B} (fuel : nat) (c : proc A) (s : proc B) (to_server to_client : list byte)
    : ending A B :=
  match fuel with
  | O => Unfinished
  | S fuel =>
      let serve :=
        match s with
        | Send b s => run fuel c s to_server (to_client ++ b)
        | Recv n wrap k =>
            match ReadFull n to_server with
            | Ok (l, rest) => run fuel c (k l) rest to_client
            | Err e => if closed c then run fuel c (Stop (Err (wrap e))) [] to_client else Deadlock
            | _ => Deadlock
            end
        | Stop b =>
            match c with
            | Stop a => Both a b to_server to_client
            | _ => Deadlock
            end
        end in
      match c with
      | Send b c => run fuel c s (to_server ++ b) to_client
      | Recv n wrap k =>
          match ReadFull n to_client with
          | Ok (l, rest) => run fuel (k l) s to_server rest
          | Err e => if closed s then run fuel (Stop (Err (wrap e))) s to_server [] else serve
          | _ => Deadlock
          end
      | Stop _ => serve
      end
  end.

(** One program against a fixed input: its result, what it wrote and what it left. *)
Fixpoint feed {A} (p : proc A) (input : list byte) : outcome A * list byte * list byte :=
  match p with
  | Stop a => (a, [], input)
  | Send b p => let '(a, out, rest) := feed p input in (a, b ++ out, rest)
  | Recv n wrap k =>
      match ReadFull n input with
      | Ok (l, rest) => feed (k l) rest
      | Err e => (Err (wrap e), [], [])
      | _ => (Panic, [], input)
      end
  end.

(** ** Steps of a run *)
Section Run.
Context {A B : Type}.
Implicit Types (c : proc A) (s : proc B).

(** With at least [n] units of fuel the run ends so. *)
Definition ends_in (n : nat) c s (i o : list byte) (e : ending A B) : Prop :=
  ∀ fuel, (n <= fuel)%nat → run fuel c s i o = e.

Lemma ends_weaken n m c s i o e : (n <= m)%nat → ends_in n c s i o e → ends_in m c s i o e.
Proof. intros Hm H fuel Hf. apply H. lia. Qed.

Ltac one_step := intros H [|fuel] Hf; [lia|]; cbn [run]; rewrite ?ReadFull_app; try (apply H; lia).

Lemma ends_client_send n b c s i o e : ends_in n c s (i ++ b) o e → ends_in (S n) (Send b c) s i o e.
Proof. one_step. Qed.

Lemma ends_client_recv n m w (k : list byte → proc A) s i l o e :
  length l = m → ends_in n (k l) s i o e → ends_in (S n) (Recv m w k) s i (l ++ o) e.
Proof. intros <-. one_step. Qed.

(** The client waits for more than there is, or is done. *)
Definition waits c (o : list byte) : Prop :=
  match c with
  | Stop _ => True
  | Recv n _ _ => (length o < n)%nat
  | Send _ _ => False
  end.

Lemma ReadFull_short m (l : list byte) :
  (length l < m)%nat → ReadFull m l = Err (if bool_decide (l = []) then EOF else ErrUnexpectedEOF).
Proof. intros H. unfold ReadFull. by rewrite (proj2 (Nat.leb_gt _ _)) by lia. Qed.

Lemma ends_server_send n c b s i o e :
  waits c o → ends_in n c s i (o ++ b) e → ends_in (S n) c (Send b s) i o e.
Proof.
  intros Hw. destruct c as [a|b' c|m w k]; [by one_step|done|]. simpl in Hw. intros H [|fuel] Hf; [lia|].
  cbn [run]. rewrite (ReadFull_short m o) by done. cbn [closed]. apply H. lia.
Qed.

Lemma ends_server_recv n c m w (k : list byte → proc B) l i o e :
  waits c o → length l = m → ends_in n c (k l) i o e → ends_in (S n) c (Recv m w k) (l ++ i) o e.
Proof.
  intros Hw <-. destruct c as [a|b' c|m' w' k']; [by one_step|done|]. simpl in Hw.
  intros H [|fuel] Hf; [lia|]. cbn [run]. rewrite (ReadFull_short m' o) by done. cbn [closed].
  rewrite ReadFull_app. apply H. lia.
Qed.

Lemma ends_both a b i o : ends_in 1 (Stop a) (Stop b) i o (@Both A B a b i o).
Proof. intros [|fuel] Hf; [lia|done]. Qed.

(** Both wait. *)
Lemma ends_deadlock m w (k : list byte → proc A) m' w' (k' : list byte → proc B) i o :
  (length o < m)%nat → (length i < m')%nat → ends_in 1 (Recv m w k) (Recv m' w' k') i o Deadlock.
Proof.
  intros H H' [|fuel] Hf; [lia|]. cbn [run]. rewrite (ReadFull_short m o) by done. cbn [closed].
  by rewrite (ReadFull_short m' i) by done.
Qed.
End Run.

(** ** Reading as part of a program *)

(** [p] reads exactly [l] and gives [a], on either side, in at most [n] steps. *)
Definition proc_reads {A} (n : nat) (p : proc A) (l : list byte) (a : A) : Prop :=
  (∀ B C (k : A → proc C) (s : proc B) i o m e,
     ends_in m (k a) s i o e → ends_in (n + m) (proc_bind p k) s i (l ++ o) e) ∧
  (∀ B C (k : A → proc C) (c : proc B) i o m e,
     waits c o → ends_in m c (k a) i o e → ends_in (n + m) c (proc_bind p k) (l ++ i) o e).

Lemma proc_reads_stop {A} (a : A) : proc_reads 0 (Stop (Ok a)) [] a.
Proof. by split. Qed.

Lemma proc_reads_recv {A} n m w (k : list byte → proc A) l l' a :
  length l = m → proc_reads n (k l) l' a → proc_reads (S n) (Recv m w k) (l ++ l') a.
Proof.
  intros Hl [H1 H2]. split; intros; cbn [proc_bind]; rewrite <- app_assoc; cbn [Nat.add].
  - apply ends_client_recv; [done|]. by apply H1.
  - apply ends_server_recv; [done|done|]. by apply H2.
Qed.

Lemma proc_reads_weaken {A} n m (p : proc A) l a : (n <= m)%nat → proc_reads n p l a → proc_reads m p l a.
Proof.
  intros Hm [H1 H2]. split; intros; (eapply ends_weaken; [|by eauto]); lia.
Qed.

(** A program without continuation is the one that stops. *)
Fixpoint proc_eq {A} (p q : proc A) : Prop :=
  match p, q with
  | Stop a, Stop b => a = b
  | Send b p, Send b' q => b = b' ∧ proc_eq p q
  | Recv n w k, Recv n' w' k' => n = n' ∧ w = w' ∧ ∀ l, proc_eq (k l) (k' l)
  | _, _ => False
  end.

Lemma run_proc_eq {A B} fuel (c c' : proc A) (s s' : proc B) i o :
  proc_eq c c' → proc_eq s s' → run fuel c s i o = run fuel c' s' i o.
Proof.
  revert c c' s s' i o. induction fuel as [|fuel IH]; intros c c' s s' i o Hc Hs; [done|].
  assert (closed c = closed c') as Hcc by (destruct c, c'; simpl in *; by subst).
  assert (closed s = closed s') as Hss by (destruct s, s'; simpl in *; by subst).
  assert (∀ e, proc_eq (Stop e : proc A) (Stop e)) by done.
  assert (∀ e, proc_eq (Stop e : proc B) (Stop e)) by done.
  assert ((match s with
    | Send b s => run fuel c s i (o ++ b)
    | Recv n wrap k =>
        match ReadFull n i with
        | Ok (l, rest) => run fuel c (k l) rest o
        | Err e => if closed c then run fuel c (Stop (Err (wrap e))) [] o else Deadlock
        | _ => Deadlock
        end
    | Stop b => match c with Stop a => Both a b i o | _ => Deadlock end
    end : ending A B) = match s' with
    | Send b s => run fuel c' s i (o ++ b)
    | Recv n wrap k =>
        match ReadFull n i with
        | Ok (l, rest) => run fuel c' (k l) rest o
        | Err e => if closed c' then run fuel c' (Stop (Err (wrap e))) [] o else Deadlock
        | _ => Deadlock
        end
    | Stop b => match c' with Stop a => Both a b i o | _ => Deadlock end
    end) as Hserve.
  { rewrite Hcc. destruct s as [b|b s|n w k], s' as [b'|b' s'|n' w' k']; simpl in Hs; try done.
    - subst. destruct c, c'; simpl in *; by subst.
    - destruct Hs as [-> Hs]. by apply IH.
    - destruct Hs as (-> & -> & Hs). destruct (ReadFull n' i) as [[l rest]| | |]; try done; [by apply IH|].
      destruct (closed c'); [by apply IH|done]. }
  cbn [run]. rewrite Hss, Hserve. destruct c as [b|b c|n w k], c' as [b'|b' c'|n' w' k']; simpl in Hc; try done.
  - destruct Hc as [-> Hc]. by apply IH.
  - destruct Hc as (-> & -> & Hc). destruct (ReadFull n' o) as [[l rest]| | |]; try done; [by apply IH|].
    destruct (closed s'); [by apply IH|done].
Qed.

Lemma proc_eq_refl {A} (p : proc A) : proc_eq p p.
Proof. induction p; simpl; done. Qed.

Lemma proc_bind_stop {A} (p : proc A) : proc_eq p (proc_bind p (λ a, Stop (Ok a))).
Proof. induction p as [[]| |]; simpl; done. Qed.

(** A reader as the whole of what the client has left to do. *)
Lemma ends_client_reader {A B} n (p : proc A) l a (s : proc B) i m e :
  proc_reads n p l a → ends_in m (Stop (Ok a)) s i [] e → ends_in (n + m) p s i l e.
Proof.
  intros [H _] He fuel Hf. rewrite <- (app_nil_r l).
  rewrite <- (H B A (λ x, Stop (Ok x)) s i [] m e He fuel Hf).
  apply run_proc_eq; [apply proc_bind_stop|apply proc_eq_refl].
Qed.

(** A reader in the server, up to the last byte it was sent. *)
Lemma ends_server_reader {A B C} n (p : proc A) (k : A → proc C) l a (c : proc B) o m e :
  proc_reads n p l a → waits c o → ends_in m c (k a) [] o e → ends_in (n + m) c (proc_bind p k) l o e.
Proof. intros [_ H] Hw He. rewrite <- (app_nil_r l). by apply H. Qed.
