(* ===== verification/Socks5.v ===== *)
(** proxy/socks5: the SOCKS5 client and server, as programs that talk over a
    connection.

    Writes to the connection succeed; what a peer that breaks the connection
    causes shows as a read error. *)
From S2P Require Import Prelude GoStd Reader ProxyConn SocksAddr Dialogue.

Definition s5_Version : byte := x05.

Record Socks5 := MkSocks5 { s5_addr : list byte; s5_user : list byte; s5_password : list byte }.

(** [socks.ReadAddr] on the connection. *)
Definition read_addr : proc (list byte) :=
  Recv 1 id (λ t,
    if bool_decide (t = [ATypDomain]) then
      Recv 1 id (λ n, Recv (Z.to_nat (be_val n) + 2) id (λ b, Stop (Ok (t ++ n ++ b))))
    else if bool_decide (t = [ATypIP4]) then Recv (IPv4len + 2) id (λ b, Stop (Ok (t ++ b)))
    else if bool_decide (t = [ATypIP6]) then Recv (IPv6len + 2) id (λ b, Stop (Ok (t ++ b)))
    else Stop (Err ErrAddrType)).

(** ** The client *)

(** The text of the client's errors: what went wrong at which proxy. *)
Definition at_proxy (s : Socks5) (m : string) : string :=
  String.append "SOCKS5 proxy at " (String.append (String.string_of_list_byte (s5_addr s)) m).
Definition proxy_err (s : Socks5) (m : string) (e : error) : error :=
  String.append "proxy: failed to read " (String.append m (at_proxy s (String.append ": " e))).
Definition ErrVersion (s : Socks5) (v : byte) : error :=
  String.append "proxy: " (at_proxy s (String.append " has unexpected version "
    (String.string_of_list_byte (format_uint (b2z v))))).
Definition ErrNeedsAuth (s : Socks5) : error :=
  String.append "proxy: " (at_proxy s " requires authentication").
Definition ErrRejected (s : Socks5) : error :=
  String.append "proxy: " (at_proxy s " rejected username/password").
Definition failure_of (code : byte) : error := default "unknown error" (Errors !! Z.to_nat (b2z code)).
Definition ErrConnect (s : Socks5) (f : error) : error :=
  String.append "proxy: " (at_proxy s (String.append " failed to connect: " f)).

(** Whether the client has credentials it can offer. *)
Definition has_auth (s : Socks5) : bool :=
  (0 <? length (s5_user s))%nat && (length (s5_user s) <? 256)%nat && (length (s5_password s) <? 256)%nat.

Definition greeting (s : Socks5) : list byte :=
  s5_Version :: (if has_auth s then [x02; z2b AuthNone; z2b AuthPassword] else [x01; z2b AuthNone]).

Definition auth_request (s : Socks5) : list byte :=
  [x01; z2b (Z.of_nat (length (s5_user s)))] ++ s5_user s ++
  [z2b (Z.of_nat (length (s5_password s)))] ++ s5_password s.

(** The request and its reply; a target [ParseAddr] refuses is left out. *)
Definition connect_request (s : Socks5) (target : list byte) (cmd : byte) : proc (list byte) :=
  Send ([s5_Version; cmd; x00] ++ default [] (socks_ParseAddr target))
    (Recv 3 (proxy_err s "connect reply from ") (λ r,
       let failure := failure_of (nth 1 r x00) in
       if (0 <? String.length failure)%nat then Stop (Err (ErrConnect s failure)) else read_addr)).

Definition connect (s : Socks5) (target : list byte) (cmd : byte) : proc (list byte) :=
  Send (greeting s)
    (Recv 2 (proxy_err s "greeting from ") (λ r,
       if negb (bool_decide (nth 0 r x00 = s5_Version)) then Stop (Err (ErrVersion s (nth 0 r x00)))
       else if bool_decide (nth 1 r x00 = xff) then Stop (Err (ErrNeedsAuth s))
       else if bool_decide (nth 1 r x00 = z2b AuthPassword) then
         Send (auth_request s)
           (Recv 2 (proxy_err s "authentication reply from ") (λ r,
              if negb (bool_decide (nth 1 r x00 = x00)) then Stop (Err (ErrRejected s))
              else connect_request s target cmd))
       else connect_request s target cmd)).

(** [Dial] over a connection to the proxy: the request is [CmdConnect]. *)
Definition s5_Dial (s : Socks5) (addr : list byte) : proc (list byte) := connect s addr CmdConnect.

(** Where [DialUDP] sends packets: the bound address of the reply, with the
    proxy's own host when it is unspecified. *)
Definition udp_address (s : Socks5) (uAddress : list byte) : list byte :=
  let '(h, p) := SplitHostPort_ uAddress in
  match ParseAddr h with
  | Ok ip => if IsUnspecified ip then JoinHostPort (SplitHostPort_ (s5_addr s)).1 p else uAddress
  | _ => uAddress
  end.

(** ** The server *)

Definition ErrUserLen : error := "auth failed: wrong username length".
Definition ErrPassLen : error := "auth failed: wrong password length".
Definition ErrAuth (user pass : list byte) : error :=
  String.append "auth failed, authinfo: " (String.string_of_list_byte (user ++ [c_colon] ++ pass)).
Definition ErrCommand : error := "command not supported".

(** What the handshake is about: a stream to a target, or packets. *)
Inductive request := ReqConnect (addr : list byte) | ReqUDP (addr : list byte).

(** After the authentication; [local] is the address the connection came in at. *)
Definition serve_request (local : list byte) : proc request :=
  Recv 3 id (λ h,
    proc_bind read_addr (λ addr,
      if bool_decide (nth 1 h x00 = CmdConnect) then
        Send [x05; x00; x00; x01; x00; x00; x00; x00; x00; x00] (Stop (Ok (ReqConnect addr)))
      else if bool_decide (nth 1 h x00 = CmdUDPAssociate) then
        let listenAddr := match socks_ParseAddr local with
                          | Some a => a
                          | None => default [] (socks_ParseAddr (lit "127.0.0.1:0"))
                          end in
        Send ([x05; x00; x00] ++ listenAddr) (Stop (Ok (ReqUDP addr)))
      else Stop (Err ErrCommand))).

(** The server asks for credentials when it has both a user and a password. *)
Definition needs_auth (s : Socks5) : bool :=
  negb (bool_decide (s5_user s = [])) && negb (bool_decide (s5_password s = [])).

Definition check_auth (s : Socks5) (k : proc request) : proc request :=
  Recv 2 id (λ h,
    let userLen := Z.to_nat (b2z (nth 1 h x00)) in
    if (userLen =? 0)%nat then Send [x01; x01] (Stop (Err ErrUserLen))
    else Recv userLen (λ _, "auth failed: cannot get username"%string) (λ user,
      Recv 1 (λ _, "auth failed: cannot get password len"%string) (λ p,
        let passLen := Z.to_nat (be_val p) in
        if (passLen =? 0)%nat then Send [x01; x01] (Stop (Err ErrPassLen))
        else Recv passLen (λ _, "auth failed: cannot get password"%string) (λ pass,
          if negb (bool_decide (user = s5_user s)) || negb (bool_decide (pass = s5_password s)) then
            Send [x01; x01] (Stop (Err (ErrAuth user pass)))
          else Send [x01; x00] k)))).

Definition handshake (s : Socks5) (local : list byte) : proc request :=
  Recv 2 id (λ h, Recv (Z.to_nat (b2z (nth 1 h x00))) id (λ _,
    if needs_auth s then Send [s5_Version; z2b AuthPassword] (check_auth s (serve_request local))
    else Send [s5_Version; z2b AuthNone] (serve_request local))).

(** ** Packets *)

(** [PktConn.WriteTo]: the datagram; [None]: invalid address. *)
Definition s5_packet (target : option (list byte)) (b : list byte) : option (list byte) :=
  t ← target; Some ([x00; x00; x00] ++ t ++ b).

Definition s5_WriteTo_result (target : list byte) (n : Z) (err : option error) : Z * option error :=
  let tgtLen := Z.of_nat (length target) in
  if tgtLen + 3 <? n then (n - tgtLen - 3, err) else (0, err).

(** [readFrom] of a datagram into [blen] bytes: the payload and the target. *)
Definition s5_readFrom {A} (resolve : list byte → outcome A) (blen : nat) (dgram : list byte)
    : outcome (list byte * list byte * A) :=
  let buf := take blen dgram in
  if (length buf <? 3)%nat then Err "not enough size to get addr"
  else match SplitAddr (drop 3 buf) with
       | None => Err "can not get target addr"
       | Some tgt =>
           t ← Addr_String tgt;
           match resolve t with
           | Ok target => Ok (drop (3 + length tgt) buf, tgt, target)
           | _ => Err "wrong target addr"
           end
       end.
