(* ===== verification/Socks5Proofs.v ===== *)
(** proxy/socks5: client and server agree; who may use the server. *)
From S2P Require Import Prelude GoStd Reader ProxyConn SocksAddr Dialogue Socks5.

Lemma read_addr_reads a : socks_wf a → proc_reads 3 read_addr a a.
Proof.
  destruct a as [|t r]; [done|]. unfold socks_wf, read_addr. intros H.
  apply (proc_reads_recv 2 1 id _ [t] r); [done|].
  repeat case_bool_decide; simplify_eq; try done.
  - destruct r as [|n r]; [done|]. apply (proc_reads_recv 1 1 id _ [n] r); [done|].
    rewrite be_val_single, <- (app_nil_r r) at 1.
    by apply proc_reads_recv; [|apply proc_reads_stop].
  - apply (proc_reads_weaken 1); [lia|]. rewrite <- (app_nil_r r) at 1.
    by apply proc_reads_recv; [|apply proc_reads_stop].
  - apply (proc_reads_weaken 1); [lia|]. rewrite <- (app_nil_r r) at 1.
    by apply proc_reads_recv; [|apply proc_reads_stop].
Qed.

(** The two models of [socks.ReadAddr], as a reader of a stream and as a part of a
    dialogue, are the same function. *)
Lemma read_addr_feed input :
  feed read_addr input =
  (let '(a, (_, rest)) := ReadAddr ([], input) in (a, [], rest)).
Proof.
  unfold read_addr, ReadAddr, rd_bind, rd_full. cbn [feed].
  destruct (ReadFull_cases 1 input) as [(t & r & E)|(e & E & _)]; rewrite E; [|done].
  apply ReadFull_Ok in E as [-> Ht]. repeat case_bool_decide; cbn [feed]; try done.
  - destruct (ReadFull_cases 1 r) as [(n & r' & E')|(e & E' & _)]; rewrite E'; [|done].
    by destruct (ReadFull_cases (Z.to_nat (be_val n) + 2) r') as [(b & r'' & E'')|(e & E'' & _)]; rewrite E''.
  - by destruct (ReadFull_cases (IPv4len + 2) r) as [(b & r'' & E'')|(e & E'' & _)]; rewrite E''.
  - by destruct (ReadFull_cases (IPv6len + 2) r) as [(b & r'' & E'')|(e & E'' & _)]; rewrite E''.
Qed.

(** The credentials of the client, when the server asks for any. *)
Definition creds_ok (client server : Socks5) : Prop :=
  needs_auth server = true →
  s5_user client = s5_user server ∧ s5_password client = s5_password server ∧
  (length (s5_user client) < 256)%nat ∧ (length (s5_password client) < 256)%nat.

(** The bytes of a reply, up to the address, and the request the server makes of
    the command. *)
Definition bound (local : list byte) (cmd : byte) : list byte :=
  if bool_decide (cmd = CmdConnect) then [ATypIP4; x00; x00; x00; x00; x00; x00]
  else match socks_ParseAddr local with
       | Some a => a
       | None => default [] (socks_ParseAddr (lit "127.0.0.1:0"))
       end.
Definition asked (cmd : byte) (a : list byte) : request :=
  if bool_decide (cmd = CmdConnect) then ReqConnect a else ReqUDP a.

Lemma bound_wf local cmd : socks_wf (bound local cmd).
Proof.
  unfold bound. case_bool_decide; [done|]. destruct (socks_ParseAddr local) as [a|] eqn:E.
  - by apply ParseAddr_socks_wf in E as [? _].
  - by vm_compute.
Qed.

Lemma greeting_methods (s : Socks5) :
  ∃ n methods, greeting s = [s5_Version; n] ++ methods ∧ length methods = Z.to_nat (b2z n).
Proof.
  unfold greeting. destruct (has_auth s); [by exists x02, [z2b AuthNone; z2b AuthPassword]|].
  by exists x01, [z2b AuthNone].
Qed.

(** The request and the reply, once both sides are past the authentication. *)
Lemma request_agree client target local cmd a :
  cmd ∈ [CmdConnect; CmdUDPAssociate] → socks_ParseAddr target = Some a →
  ends_in 11 (connect_request client target cmd) (serve_request local) [] []
    (Both (Ok (bound local cmd)) (Ok (asked cmd a)) [] []).
Proof.
  intros Hcmd Ha. unfold connect_request, serve_request. rewrite Ha.
  change (default [] (Some a)) with a. apply ParseAddr_socks_wf in Ha as [Hw _].
  apply ends_client_send. cbn [app]. change (s5_Version :: cmd :: x00 :: a) with ([s5_Version; cmd; x00] ++ a).
  apply ends_server_recv; [simpl; lia|done|]. cbn [nth].
  apply (ends_server_reader 3 _ _ _ a); [by apply read_addr_reads|simpl; lia|].
  assert (∀ b, socks_wf b → ends_in 6
    (Recv 3 (proxy_err client "connect reply from ") (λ r,
       let failure := failure_of (nth 1 r x00) in
       if (0 <? String.length failure)%nat then Stop (Err (ErrConnect client failure)) else read_addr))
    (Send ([x05; x00; x00] ++ b) (Stop (Ok (asked cmd a)))) [] []
    (Both (Ok b) (Ok (asked cmd a)) [] [])) as Hreply.
  { intros b Hb. apply ends_server_send; [simpl; lia|]. cbn [app].
    change (x05 :: x00 :: x00 :: b) with ([x05; x00; x00] ++ b).
    apply ends_client_recv; [done|]. cbn [nth]. change (failure_of x00) with (""%string). cbn [String.length Nat.ltb Nat.leb].
    apply (ends_client_reader 3 _ _ b); [by apply read_addr_reads|]. apply (ends_weaken 1); [lia|].
    apply ends_both. }
  apply list_elem_of_In in Hcmd as [<-|[<-|[]]]; cbn [nth bool_decide].
  - apply (Hreply [ATypIP4; x00; x00; x00; x00; x00; x00]). done.
  - rewrite bool_decide_eq_false_2 by done. rewrite bool_decide_eq_true_2 by done.
    apply (Hreply (bound local CmdUDPAssociate)), bound_wf.
Qed.

(** The greeting and the authentication: with matching credentials both sides go on
    to the request with nothing in flight. *)
Lemma auth_phase client server target local cmd n e :
  creds_ok client server →
  ends_in n (connect_request client target cmd) (serve_request local) [] [] e →
  ends_in (12 + n) (connect client target cmd) (handshake server local) [] [] e.
Proof.
  intros Hc Hr. unfold connect, handshake.
  destruct (greeting_methods client) as (nm & methods & -> & Hm).
  apply ends_client_send. cbn [app]. change (s5_Version :: nm :: methods) with ([s5_Version; nm] ++ methods).
  apply ends_server_recv; [simpl; lia|done|]. cbn [nth]. rewrite <- (app_nil_r methods).
  apply ends_server_recv; [simpl; lia|done|].
  destruct (needs_auth server) eqn:En.
  - destruct (Hc En) as (Hu & Hp & Hul & Hpl).
    unfold needs_auth in En. apply andb_true_iff in En as [Eu Ep].
    apply negb_true_iff, bool_decide_eq_false in Eu, Ep.
    apply ends_server_send; [simpl; lia|]. cbn [app].
    rewrite <- (app_nil_r [s5_Version; z2b AuthPassword]). apply ends_client_recv; [done|]. cbn [nth].
    rewrite bool_decide_eq_true_2 by done. cbn [negb].
    rewrite (bool_decide_eq_false_2 (z2b AuthPassword = xff)) by done. rewrite bool_decide_eq_true_2 by done.
    apply ends_client_send. cbn [app]. unfold auth_request. rewrite Hu, Hp in *. set (ul := z2b (Z.of_nat (length (s5_user server)))).
    set (pl := z2b (Z.of_nat (length (s5_password server)))).
    assert (Z.to_nat (b2z ul) = length (s5_user server)) as Eul by (unfold ul; rewrite b2z_z2b_small; lia).
    assert (Z.to_nat (b2z pl) = length (s5_password server)) as Epl by (unfold pl; rewrite b2z_z2b_small; lia).
    assert (length (s5_user server) ≠ 0%nat) by (destruct (s5_user server); simpl; [done|lia]).
    assert (length (s5_password server) ≠ 0%nat) by (destruct (s5_password server); simpl; [done|lia]).
    unfold check_auth. apply ends_server_recv; [simpl; lia|done|]. cbn [nth]. cbv zeta. rewrite Eul.
    rewrite (proj2 (Nat.eqb_neq _ _)) by done.
    apply ends_server_recv; [simpl; lia|done|].
    apply ends_server_recv; [simpl; lia|done|]. cbv zeta. rewrite be_val_single, Epl, (proj2 (Nat.eqb_neq _ _)) by done.
    rewrite <- (app_nil_r (s5_password server)) at 2.
    apply ends_server_recv; [simpl; lia|done|]. rewrite !bool_decide_eq_true_2 by done. cbn [negb orb].
    apply ends_server_send; [simpl; lia|]. cbn [app]. rewrite <- (app_nil_r [x01; x00]).
    apply ends_client_recv; [done|]. cbn [nth]. rewrite bool_decide_eq_true_2 by done. cbn [negb]. by apply (ends_weaken n); [lia|].
  - apply ends_server_send; [simpl; lia|]. cbn [app].
    rewrite <- (app_nil_r [s5_Version; z2b AuthNone]). apply ends_client_recv; [done|]. cbn [nth].
    rewrite bool_decide_eq_true_2 by done. cbn [negb].
    rewrite !bool_decide_eq_false_2 by done. by apply (ends_weaken n); [lia|].
Qed.

(** C18: client and server agree: with matching credentials (or none asked), a target the client can
    encode and a command the server has, the dialogue ends with both sides successful, the server
    with the address the client named, the client with the reply's address, and no byte left
    unread in either direction, so what the relay carries next starts clean. *)
Theorem socks5_agree client server target local cmd a fuel :
  creds_ok client server → cmd ∈ [CmdConnect; CmdUDPAssociate] → socks_ParseAddr target = Some a →
  (30 <= fuel)%nat →
  run fuel (connect client target cmd) (handshake server local) [] [] =
  Both (Ok (bound local cmd)) (Ok (asked cmd a)) [] [].
Proof.
  intros Hc Hcmd Ha Hf. apply (auth_phase client server target local cmd 11); [done| |lia].
  by apply request_agree.
Qed.

(** A target the client cannot encode (a port above 65535, a name above 255 bytes) is not an
    error: the client sends a request without address and both sides wait for each other. *)
Theorem socks5_bad_target_deadlock client server target local cmd fuel :
  creds_ok client server → socks_ParseAddr target = None → (30 <= fuel)%nat →
  run fuel (connect client target cmd) (handshake server local) [] [] = Deadlock.
Proof.
  intros Hc Ha Hf. apply (auth_phase client server target local cmd 3); [done| |lia].
  unfold connect_request, serve_request. rewrite Ha. apply ends_client_send. cbn [app default].
  change [s5_Version; cmd; x00] with ([s5_Version; cmd; x00] ++ []).
  apply ends_server_recv; [simpl; lia|done|]. apply ends_deadlock; simpl; lia.
Qed.

Lemma feed_recv {A} n w (k : list byte → proc A) input (a : A) out rest :
  feed (Recv n w k) input = (Ok a, out, rest) →
  ∃ l input', input = l ++ input' ∧ length l = n ∧ feed (k l) input' = (Ok a, out, rest).
Proof.
  cbn [feed]. destruct (ReadFull n input) as [[l r]| | |] eqn:E; intros H; try done.
  apply ReadFull_Ok in E as [-> Hl]. by exists l, r.
Qed.

Lemma feed_send {A} b (k : proc A) input (a : A) out rest :
  feed (Send b k) input = (Ok a, out, rest) → ∃ out', feed k input = (Ok a, out', rest).
Proof.
  cbn [feed]. destruct (feed k input) as [[r out'] rest']. intros [= -> _ ->]. by exists out'.
Qed.

(** C37: a server with a user and a password serves nobody without them: whatever bytes a peer sends,
    if the handshake ends with a request, those bytes carry exactly the server's user name and
    password in their place. *)
Theorem socks5_auth_required s local input r out rest :
  needs_auth s = true → feed (handshake s local) input = (Ok r, out, rest) →
  ∃ h methods v ul pl tail,
    input = h ++ methods ++ [v; ul] ++ s5_user s ++ [pl] ++ s5_password s ++ tail ∧
    length h = 2%nat ∧ length methods = Z.to_nat (b2z (nth 1 h x00)) ∧
    Z.to_nat (b2z ul) = length (s5_user s) ∧ Z.to_nat (b2z pl) = length (s5_password s).
Proof.
  intros En H. unfold handshake in H. apply feed_recv in H as (h & i1 & -> & Hh & H).
  apply feed_recv in H as (methods & i2 & -> & Hm & H). rewrite En in H.
  apply feed_send in H as (out' & H). unfold check_auth in H.
  apply feed_recv in H as (vu & i3 & -> & Hvu & H). destruct vu as [|v [|ul [|]]]; try done.
  cbn [nth] in H. cbv zeta in H. destruct (Z.to_nat (b2z ul) =? 0)%nat; [by apply feed_send in H as (? & [=])|].
  apply feed_recv in H as (user & i4 & -> & Hu & H).
  apply feed_recv in H as (p & i5 & -> & Hp & H). destruct p as [|pl [|]]; try done.
  cbv zeta in H. rewrite be_val_single in H.
  destruct (Z.to_nat (b2z pl) =? 0)%nat; [by apply feed_send in H as (? & [=])|].
  apply feed_recv in H as (pass & i6 & -> & Hpa & H).
  destruct (bool_decide (user = s5_user s)) eqn:Eu; [|by apply feed_send in H as (? & [=])].
  destruct (bool_decide (pass = s5_password s)) eqn:Epw; [|by apply feed_send in H as (? & [=])].
  apply bool_decide_eq_true in Eu, Epw. subst. by exists h, methods, v, ul, pl, i6.
Qed.

(** What [WriteTo] sends is what [readFrom] reads, when it fits the buffer. *)
Lemma s5_packet_roundtrip {A} (resolve : list byte → outcome A) a b text target blen dgram :
  socks_wf a → Addr_String a = Ok text → resolve text = Ok target →
  s5_packet (Some a) b = Some dgram → (length dgram <= blen)%nat →
  s5_readFrom resolve blen dgram = Ok (b, a, target).
Proof.
  intros Hw Ht Hr [= <-] Hl. unfold s5_readFrom. cbv zeta. rewrite take_ge by done.
  rewrite (proj2 (Nat.ltb_ge _ _)) by (simpl; lia). cbn [drop].
  change (drop 0 (a ++ b)) with (a ++ b). rewrite SplitAddr_wf by done. rewrite Ht. cbn [mbind outcome_bind]. rewrite Hr.
  change (x00 :: x00 :: x00 :: a ++ b) with ([x00; x00; x00] ++ a ++ b).
  rewrite app_assoc. change (3 + length a)%nat with (length ([x00; x00; x00] ++ a)).
  by rewrite drop_app_length.
Qed.
