(* ===== verification/ProtoWitness.v ===== *)
(** Concrete runs of the theorems on connections and proxy protocols. *)
From S2P Require Import Prelude GoStd Reader ProxyConn SocksAddr Trojan Vless Dialogue Socks5 Socks5Proofs.

(** A proxy whose dialer is named after the target, and that counts failures. *)
#[local] Instance echo_proxy : ProxyDialer nat (list byte) := {
  pd_NextDialer t w := (t, S w);
  pd_Addr d := d;
  pd_Record d ok w := if ok then w else (w + 100)%nat }.
Definition dial_ok (d : list byte) (n : network) (t : list byte) : option error := None.

(** ** Addresses *)
Definition a_dom : list byte := ATypDomain :: x07 :: lit "foo.bar" ++ [x01; xbb].

Lemma a_dom_plain : plain a_dom.
Proof.
  split; [split; apply (bool_decide_unpack _); vm_compute; exact I|]. intros ip. vm_compute. discriminate.
Qed.

Lemma socks_string_roundtrip_witness :
  Addr_String a_dom = Ok (lit "foo.bar:443") ∧
  ∃ s, Addr_String a_dom = Ok s ∧ socks_ParseAddr s = Some a_dom.
Proof.
  split; [vm_compute; reflexivity|].
  apply (socks_string_roundtrip a_dom); [vm_compute; reflexivity|apply a_dom_plain].
Defined.

Definition a_v4 : list byte := [ATypIP4; x7f; x00; x00; x01; x00; x50].

Lemma socks_parse_framed_witness :
  (length a_v4 <= MaxAddrLen)%nat ∧ ReadAddr ([], a_v4 ++ [xff]) = (Ok a_v4, (a_v4, [xff])) ∧
  SplitAddr (a_v4 ++ [xff]) = Some a_v4.
Proof. apply (socks_parse_framed (lit "127.0.0.1:80") a_v4 [xff]). vm_compute; reflexivity. Defined.

(** ** Copying *)
Definition src_eof : list (list byte * option error) := [(lit "ab", None); (lit "cd", Some EOF)].
Definition write_all (i : nat) (b : list byte) : Z * option error := (Z.of_nat (length b), None).

Lemma copy_no_silent_loss_witness :
  ∃ out n e, CopyBuffer write_all 0 src_eof = Some (out, n, e) ∧ out `prefix_of` until_error src_eof ∧
    (e = None → out = until_error src_eof ∧ n = Z.of_nat (length out) ∧ first_error src_eof = Some EOF).
Proof. apply (copy_no_silent_loss write_all src_eof). vm_compute. eexists. reflexivity. Defined.

(** ** trojan *)
Definition tj : Trojan := MkTrojan (lit "srv:443") (replicate 56 x61) [] false [] [] (lit "127.0.0.1:80").
Definition tgt : list byte := lit "foo.bar:443".

Lemma trojan_request_witness :
  trojan_Serve dial_ok None tj (trojan_header tj Tcp tgt ++ lit "data") 0%nat =
  Ok (RelayTo tgt Tcp tgt [] (lit "data"), 1%nat).
Proof.
  rewrite (trojan_request dial_ok None tj Tcp tgt a_dom tgt (lit "data") 0%nat);
    vm_compute; reflexivity.
Defined.

Lemma trojan_fallback_witness :
  ∃ head rest w', head ++ rest = lit "GET / HTTP/1.1" ∧
    trojan_Serve dial_ok None tj (lit "GET / HTTP/1.1") 0%nat =
    Ok (RelayTo (pd_NextDialer (tj_fallback tj) 0%nat).1 Tcp (tj_fallback tj) head rest, w').
Proof.
  apply (trojan_fallback dial_ok None tj (lit "GET / HTTP/1.1") ErrUnexpectedEOF 0%nat);
    [vm_compute; reflexivity|discriminate|vm_compute; reflexivity].
Defined.

Definition resolve_any (t : list byte) : outcome (list byte) := Ok t.
Definition pkt : list byte := a_dom ++ [x00; x02] ++ crlf ++ lit "hi".

Lemma trojan_packet_roundtrip_witness :
  trojan_ReadFrom resolve_any 2048 ([], pkt ++ [xff]) = (Ok (lit "hi", tgt), (pkt, [xff])).
Proof.
  apply (trojan_packet_roundtrip resolve_any a_dom (lit "hi") tgt tgt 2048 [xff] pkt);
    try (vm_compute; reflexivity); simpl; lia.
Defined.

(** ** vless *)
Definition vl : VLess := MkVLess (lit "srv:443") (replicate 16 x11) (lit "127.0.0.1:80").
Definition vl_hdr : list byte := match vless_header (vl_uuid vl) Udp tgt with Ok h => h | _ => [] end.
Definition vl_tgt : byte * list byte * Z := match vless_ParseAddr tgt with Ok x => x | _ => (x00, [], 0) end.

Lemma vless_request_witness :
  vless_Serve dial_ok None vl (vl_hdr ++ lit "data") 0%nat =
  Ok (serve_target dial_ok None (vl_addr vl) (bool_decide (Udp = Udp)) (vless_canonical vl_tgt)
        (lit "data") 0%nat).
Proof.
  apply (vless_request dial_ok None vl Udp tgt vl_tgt vl_hdr (lit "data") 0%nat); vm_compute; reflexivity.
Defined.

Lemma vless_fallback_transparent_witness :
  ∃ head rest w', head ++ rest = replicate 30 xff ∧
    vless_Serve dial_ok None vl (replicate 30 xff) 0%nat =
    Ok (RelayTo (pd_NextDialer (vl_fallback vl) 0%nat).1 Tcp (vl_fallback vl) head rest, w').
Proof.
  apply (vless_fallback_transparent dial_ok None vl (replicate 30 xff) "version 255 not supported" 0%nat);
    [vm_compute; reflexivity|discriminate|vm_compute; reflexivity].
Defined.

Lemma vless_unknown_type_witness :
  vless_Serve dial_ok None vl
    (([vless_Version] ++ vl_uuid vl ++ [x00] ++ [CmdTCP] ++ be_bytes 2 22 ++ [x09]) ++ []) 0%nat =
  Ok (serve_target dial_ok None (vl_addr vl) false (JoinHostPort [] (format_uint 22)) [] 0%nat).
Proof.
  apply (vless_unknown_type dial_ok None vl x09 22 [] 0%nat); [reflexivity|lia|].
  apply (bool_decide_unpack _). vm_compute. exact I.
Defined.

(** ** SOCKS5 *)
Definition s5 : Socks5 := MkSocks5 (lit "127.0.0.1:1080") (lit "bob") (lit "secret").

Lemma s5_creds : creds_ok s5 s5.
Proof. intros _. repeat split; vm_compute; lia. Qed.

Lemma socks5_agree_witness :
  run 30 (connect s5 tgt CmdConnect) (handshake s5 []) [] [] =
  Both (Ok (bound [] CmdConnect)) (Ok (ReqConnect a_dom)) [] [].
Proof.
  apply (socks5_agree s5 s5 tgt [] CmdConnect a_dom 30);
    [apply s5_creds|constructor|vm_compute; reflexivity|lia].
Defined.

Lemma socks5_bad_target_deadlock_witness :
  run 30 (connect s5 (lit "foo:70000") CmdConnect) (handshake s5 []) [] [] = Deadlock.
Proof.
  apply (socks5_bad_target_deadlock s5 s5 (lit "foo:70000") [] CmdConnect 30);
    [apply s5_creds|vm_compute; reflexivity|lia].
Defined.

Definition s5_input : list byte :=
  [x05; x01; x02] ++ [x01; x03] ++ lit "bob" ++ [x06] ++ lit "secret" ++ [x05; x01; x00] ++ a_dom.

Lemma socks5_auth_required_witness :
  ∃ h methods v ul pl tail,
    s5_input = h ++ methods ++ [v; ul] ++ s5_user s5 ++ [pl] ++ s5_password s5 ++ tail ∧
    length h = 2%nat ∧ length methods = Z.to_nat (b2z (nth 1 h x00)) ∧
    Z.to_nat (b2z ul) = length (s5_user s5) ∧ Z.to_nat (b2z pl) = length (s5_password s5).
Proof.
  apply (socks5_auth_required s5 [] s5_input (ReqConnect a_dom)
    ([x05; x02] ++ [x01; x00] ++ [x05; x00; x00; x01; x00; x00; x00; x00; x00; x00]) []);
    vm_compute; reflexivity.
Defined.
