(* ===== verification/Dhcp.v ===== *)
(** service/dhcpd: the address pool, the DHCP handler and the reply frame.

    Times are nanoseconds; the zero [time.Time] is [None].  The zero [netip.Addr]
    is [None] of [option Addr].  The random start of a search is an argument. *)
From S2P Require Import Prelude GoStd.

Module Dhcp.

Record item := MkItem { it_ip : Addr; it_mac : option (list byte); it_expire : option Z }.
Record Pool := MkPool { items : list item; lease : Z }.

Definition ErrPoolRange : error :=
  "start ip or end ip is wrong/nil, please check your config, note only ipv4 is supported".
Definition ErrPoolOrder : error := "start ip larger than end ip".
Definition ErrNoIP : error := "no more ip can be leased".

(** ** The pool *)

(** [ipv4ToNum] of an IPv4 address: a 32-bit sum of its bytes. *)
Definition ipv4ToNum (a : Addr) : Z :=
  match AsSlice a with
  | b0 :: b1 :: b2 :: b3 :: _ =>
      u32 (u32 (u32 (Z.shiftl (b2z b0) 24 + Z.shiftl (b2z b1) 16) + Z.shiftl (b2z b2) 8) + b2z b3)
  | _ => 0
  end.
Definition numToIPv4 (n : Z) : Addr :=
  Addr4 [z2b (Z.shiftr n 24); z2b (Z.shiftr n 16); z2b (Z.shiftr n 8); z2b n].

(** The loop [for n := s; n <= e; n++] of [NewPool] on 32-bit numbers. *)
Fixpoint pool_loop (fuel : nat) (n e : Z) : outcome (list item) :=
  match fuel with
  | O => OutOfFuel
  | S fuel =>
      if n <=? e then
        r ← pool_loop fuel (u32 (n + 1)) e; Ok (MkItem (numToIPv4 n) None None :: r)
      else Ok []
  end.

Definition NewPool (fuel : nat) (l : Z) (start end_ : option Addr) : outcome Pool :=
  match start, end_ with
  | Some start, Some end_ =>
      if IsUnspecified start || IsUnspecified end_ || Is6 start || Is6 end_ then Err ErrPoolRange
      else
        let s := ipv4ToNum start in
        let e := ipv4ToNum end_ in
        if e <? s then Err ErrPoolOrder
        else r ← pool_loop fuel s e; Ok (MkPool r l)
  | _, _ => Panic
  end.

(** The tick of the expiry goroutine. *)
Definition tick_item (now : Z) (it : item) : item :=
  match it_expire it with
  | Some e => if e <? now then MkItem (it_ip it) None None else it
  | None => it
  end.
Definition Tick (now : Z) (p : Pool) : Pool := MkPool (tick_item now <$> items p) (lease p).

(** The first item [f] accepts, changed by [g]: its address and the items after it. *)
Fixpoint first_item (f : item → bool) (g : item → item) (l : list item) : option (Addr * list item) :=
  match l with
  | [] => None
  | it :: l =>
      if f it then Some (it_ip it, g it :: l)
      else '(ip, l) ← first_item f g l; Some (ip, it :: l)
  end.

(** [bytes.Equal]: nil is the empty slice. *)
Definition mac_equal (mac : list byte) (it : item) : bool := bool_decide (mac = default [] (it_mac it)).
Definition free (it : item) : bool := bool_decide (it_mac it = None).

Definition renew (exp : Z) (it : item) : item :=
  match it_expire it with
  | Some _ => MkItem (it_ip it) (it_mac it) (Some exp)
  | None => it
  end.
Definition assign (mac : list byte) (exp : Z) (it : item) : item := MkItem (it_ip it) (Some mac) (Some exp).

Definition LeaseIP (mac : list byte) (ip : option Addr) (now : Z) (idx : nat) (p : Pool)
    : outcome Addr * Pool :=
  let exp := now + lease p in
  match first_item (mac_equal mac) (renew exp) (items p) with
  | Some (a, l) => (Ok a, MkPool l (lease p))
  | None =>
      match first_item (λ it, bool_decide (Some (it_ip it) = ip) && free it) (assign mac exp) (items p) with
      | Some (a, l) => (Ok a, MkPool l (lease p))
      | None =>
          if (length (items p) =? 0)%nat then (Panic, p)
          else
            match first_item free (assign mac exp) (drop idx (items p)) with
            | Some (a, l) => (Ok a, MkPool (take idx (items p) ++ l) (lease p))
            | None =>
                match first_item free (assign mac exp) (items p) with
                | Some (a, l) => (Ok a, MkPool l (lease p))
                | None => (Err ErrNoIP, p)
                end
            end
      end
  end.

Definition LeaseStaticIP (mac : list byte) (ip : Addr) (p : Pool) : Pool :=
  MkPool ((λ it, if bool_decide (it_ip it = ip) then MkItem ip (Some mac) None else it) <$> items p) (lease p).

Definition ReleaseIP (mac : list byte) (p : Pool) : Pool :=
  MkPool ((λ it, match it_expire it with
                 | Some _ => if mac_equal mac it then MkItem (it_ip it) None None else it
                 | None => it
                 end) <$> items p) (lease p).

(** ** The handler *)

Inductive MessageType := Discover | Offer | Request | Decline | Ack | Nak | Release | Inform | Other (n : Z).

#[global] Instance MessageType_eq_dec : EqDecision MessageType.
Proof. solve_decision. Defined.

(** What the handler uses of a message. *)
Record message := MkMessage {
  m_type : MessageType;
  m_mac : list byte;
  m_requested : option (list byte);   (* OptionRequestedIPAddress *)
  m_client : list byte }.             (* ClientIPAddr.To4() *)

(** [netip.AddrFromSlice]. *)
Definition AddrFromSlice (b : list byte) : option Addr :=
  if (length b =? 4)%nat then Some (Addr4 b) else if (length b =? 16)%nat then Some (Addr6 b []) else None.

Definition reply_type (t : MessageType) : option MessageType :=
  match t with
  | Discover => Some Offer
  | Inform | Request => Some Ack
  | _ => None
  end.

Definition req_ip (m : message) : option Addr :=
  match m_type m with
  | Request =>
      match m_requested m with
      | Some b => AddrFromSlice b
      | None => Some (Addr4 (m_client m))
      end
  | _ => None
  end.

(** [handleDHCP]: the reply, if any, and the pool after it. *)
Definition handleDHCP (failover : bool) (own : list byte) (m : message) (now : Z) (idx : nat) (p : Pool)
    : outcome (option (MessageType * Addr)) * Pool :=
  if failover || bool_decide (own = m_mac m) then (Ok None, p)
  else match reply_type (m_type m) with
       | None =>
           match m_type m with
           | Release | Decline => (Ok None, ReleaseIP (m_mac m) p)
           | _ => (Ok None, p)
           end
       | Some rt =>
           match LeaseIP (m_mac m) (req_ip m) now idx p with
           | (Ok a, p) =>
               let unspecified := match req_ip m with Some r => IsUnspecified r | None => false end in
               let nak := bool_decide (m_type m = Request) && negb unspecified &&
                          negb (bool_decide (req_ip m = Some a)) in
               (Ok (Some (if nak then Nak else rt, a)), p)
           | (Err _, p) => (Ok None, p)
           | (Panic, p) => (Panic, p)
           | (OutOfFuel, p) => (OutOfFuel, p)
           end
       end.

(** ** The reply frame *)

(** The 32-bit sum of the sixteen-bit words; an odd length is an index panic. *)
Fixpoint word_sum (l : list byte) (acc : Z) : outcome Z :=
  match l with
  | [] => Ok acc
  | [_] => Panic
  | hi :: lo :: l => word_sum l (u32 (u32 (acc + Z.shiftl (b2z hi) 8) + b2z lo))
  end.

Fixpoint fold_carry (fuel : nat) (csum : Z) : outcome Z :=
  match fuel with
  | O => OutOfFuel
  | S fuel => if csum <=? 65535 then Ok csum else fold_carry fuel (u32 (Z.shiftr csum 16 + u16 csum))
  end.

(** [checksum]; three additions of carries are enough for 32 bits. *)
Definition checksum (l : list byte) : outcome Z :=
  s ← word_sum l 0; c ← fold_carry 4 s; Ok (65535 - c).

(** [copy(p[i:], b)]. *)
Definition copy_at (i : nat) (b p : list byte) : list byte :=
  take i p ++ take (length p - i) b ++ drop (i + length (take (length p - i) b)) p.

(** The frame [reply] sends: Ethernet, IP and UDP headers and the DHCP payload. *)
Definition reply_template : list byte :=
  replicate 12 x00 ++ [x08; x00] ++ [x45; x00; x02; x40; x00; x00; x00; x00; x40; x11] ++
  replicate 11 x00 ++ [x43; x00; x44; x02; x2c] ++ replicate 550 x00.

Definition reply_frame (client_mac iface_mac server_ip your_ip payload : list byte) : outcome (list byte) :=
  let p := copy_at 0 (take 6 client_mac) reply_template in
  let p := copy_at 6 (take 6 iface_mac) p in
  let p := copy_at 26 (take 4 server_ip) p in
  let p := copy_at 30 (take 4 your_ip) p in
  c ← checksum (take 20 (drop 14 p));
  let p := copy_at 24 (be_bytes 2 c) p in
  Ok (copy_at 42 payload p).

End Dhcp.
