(* ===== verification/DhcpProofs.v ===== *)
(** service/dhcpd: leases are exclusive and sticky, the pool is the configured
    range, the reply's header checksum verifies. *)
From S2P Require Import Prelude GoStd Dhcp.
Import Dhcp.

(** ** Searching and updating items *)

Lemma first_item_Some f g l a l' :
  first_item f g l = Some (a, l') →
  ∃ i it, l !! i = Some it ∧ f it = true ∧ a = it_ip it ∧ l' = <[i := g it]> l ∧
    ∀ j x, (j < i)%nat → l !! j = Some x → f x = false.
Proof.
  revert l'. induction l as [|it l IH]; intros l' H; [done|]. cbn [first_item] in H.
  destruct (f it) eqn:Ef; simplify_eq.
  - exists 0%nat, it. split_and!; try done. intros j x Hj. lia.
  - destruct (first_item f g l) as [[a' l'']|] eqn:E; [|done]. cbn in H. simplify_eq.
    destruct (IH _ eq_refl) as (i & it' & Hi & Hf & -> & -> & Hmin).
    exists (S i), it'. split_and!; try done. intros [|j] x Hj Hx; [by simplify_eq/=|].
    apply (Hmin j); [lia|done].
Qed.

Lemma first_item_None f g l i x : first_item f g l = None → l !! i = Some x → f x = false.
Proof.
  revert i. induction l as [|it l IH]; intros i H Hi; [done|]. cbn [first_item] in H.
  destruct (f it) eqn:Ef; [done|]. destruct (first_item f g l) as [[a' l'']|] eqn:E; [done|].
  destruct i; simpl in Hi; [by simplify_eq|]. by apply (IH i).
Qed.

Lemma first_item_drop f g l idx a l' :
  first_item f g (drop idx l) = Some (a, l') →
  ∃ i it, l !! i = Some it ∧ f it = true ∧ a = it_ip it ∧ take idx l ++ l' = <[i := g it]> l.
Proof.
  intros H. apply first_item_Some in H as (i & it & Hi & Hf & -> & -> & _).
  exists (idx + i)%nat, it. rewrite lookup_drop in Hi. split_and!; try done.
  pose proof (lookup_lt_Some _ _ _ Hi).
  rewrite <- (take_drop idx l) at 3. rewrite insert_app_r_alt; rewrite length_take; [|lia].
  do 2 f_equal. lia.
Qed.

(** What [LeaseIP] does: it renews the first item of the client, or gives it a free
    one when it has none, or fails when there is nothing free. *)
Lemma LeaseIP_cases mac ip now idx p r p' :
  LeaseIP mac ip now idx p = (r, p') →
  lease p' = lease p ∧
  ((∃ i it, items p !! i = Some it ∧ mac_equal mac it = true ∧ r = Ok (it_ip it) ∧
      items p' = <[i := renew (now + lease p) it]> (items p) ∧
      ∀ j x, (j < i)%nat → items p !! j = Some x → mac_equal mac x = false) ∨
   ((∀ i x, items p !! i = Some x → mac_equal mac x = false) ∧
    ((∃ i it, items p !! i = Some it ∧ free it = true ∧ r = Ok (it_ip it) ∧
        items p' = <[i := assign mac (now + lease p) it]> (items p)) ∨
     (p' = p ∧ (∀ i x, items p !! i = Some x → free x = false) ∧
      r = if (length (items p) =? 0)%nat then Panic else Err ErrNoIP)))).
Proof.
  unfold LeaseIP. cbv zeta. intros H.
  destruct (first_item (mac_equal mac) _ _) as [[a l]|] eqn:E1.
  { apply first_item_Some in E1 as (i & it & Hi & Hf & -> & -> & Hmin). simplify_eq. split; [done|].
    left. by exists i, it. }
  assert (∀ i x, items p !! i = Some x → mac_equal mac x = false) as Hno
    by (intros i x; by apply (first_item_None _ _ _ i x E1)).
  destruct (first_item (λ it, _ && free it) _ _) as [[a l]|] eqn:E2.
  { apply first_item_Some in E2 as (i & it & Hi & Hf & -> & -> & _). simplify_eq. split; [done|].
    right. split; [done|]. left. exists i, it. apply andb_true_iff in Hf as [_ Hf]. by split_and!. }
  destruct (length (items p) =? 0)%nat eqn:El.
  { simplify_eq. split; [done|]. right. split; [done|]. right. split; [done|]. split; [|done].
    intros i x Hx. apply Nat.eqb_eq in El. by destruct (items p'). }
  destruct (first_item free _ (drop idx _)) as [[a l]|] eqn:E3.
  { apply first_item_drop in E3 as (i & it & Hi & Hf & -> & Heq). simplify_eq. split; [done|].
    right. split; [done|]. left. by exists i, it. }
  destruct (first_item free _ (items p)) as [[a l]|] eqn:E4; simplify_eq; (split; [done|]); right; (split; [done|]).
  - apply first_item_Some in E4 as (i & it & Hi & Hf & -> & -> & _). left. by exists i, it.
  - right. split; [done|]. split; [|done]. intros i x. by apply (first_item_None _ _ _ i x E4).
Qed.

(** ** Ownership *)

(** The first item of the client [m] has the address [a] and keeps it until [t]. *)
Definition owned (m : list byte) (a : Addr) (t : Z) (l : list item) : Prop :=
  ∃ k it, l !! k = Some it ∧ it_mac it = Some m ∧ it_ip it = a ∧
    (∀ e, it_expire it = Some e → t <= e) ∧
    ∀ j x, (j < k)%nat → l !! j = Some x → mac_equal m x = false.

Lemma mac_equal_Some m it : m ≠ [] → mac_equal m it = true ↔ it_mac it = Some m.
Proof.
  intros Hm. unfold mac_equal. rewrite bool_decide_eq_true. destruct (it_mac it); simpl.
  - split; [by intros ->|by intros [= ->]].
  - split; [by intros ->|done].
Qed.

(** Changing an item that is not the client's into one that is not keeps what it owns. *)
Lemma owned_insert m a t l i y z :
  m ≠ [] → owned m a t l → l !! i = Some y → mac_equal m y = false → mac_equal m z = false →
  owned m a t (<[i := z]> l).
Proof.
  intros Hm (k & it & Hk & Hmac & Ha & He & Hmin) Hi Hy Hz. exists k, it.
  assert (i ≠ k) as Hne.
  { intros ->. rewrite Hk in Hi. simplify_eq. apply (mac_equal_Some m y Hm) in Hmac. congruence. }
  split_and!; try done; [by rewrite list_lookup_insert_ne|].
  intros j x Hj Hx. destruct (decide (i = j)) as [->|].
  - rewrite list_lookup_insert_eq in Hx by (by eapply lookup_lt_Some). by simplify_eq.
  - rewrite list_lookup_insert_ne in Hx by done. by apply (Hmin j).
Qed.

(** A change of every item that leaves the client's first one alone. *)
Lemma owned_map m a t l (f : item → item) :
  owned m a t l →
  (∀ it, it_mac it = Some m → (∀ e, it_expire it = Some e → t <= e) → f it = it) →
  (∀ it, mac_equal m it = false → mac_equal m (f it) = false) → owned m a t (f <$> l).
Proof.
  intros (k & it & Hk & Hmac & Ha & He & Hmin) Hf Hf'. exists k, it. rewrite list_lookup_fmap, Hk.
  split_and!; try done; [simpl; by rewrite Hf|].
  intros j x Hj Hx. apply list_lookup_fmap_Some in Hx as (y & -> & Hy). by apply Hf', (Hmin j).
Qed.

(** ** Events at the pool *)

Inductive event :=
| ELease (mac : list byte) (ip : option Addr) (now : Z) (idx : nat)
| ERelease (mac : list byte)
| ETick (now : Z).

Definition apply_event (p : Pool) (ev : event) : Pool :=
  match ev with
  | ELease mac ip now idx => (LeaseIP mac ip now idx p).2
  | ERelease mac => ReleaseIP mac p
  | ETick now => Tick now p
  end.

(** What may happen while the client [m] keeps a lease that runs until [t]: others lease and
    release, the client itself renews (never for less), time passes up to [t]. *)
Definition harmless (m : list byte) (t l : Z) (ev : event) : Prop :=
  match ev with
  | ELease mac _ now _ => mac ≠ [] ∧ (mac = m → t <= now + l)
  | ERelease mac => mac ≠ m
  | ETick now => now <= t
  end.

Lemma mac_equal_other m mac it : m ≠ mac → it_mac it = Some mac → mac_equal m it = false.
Proof. intros Hne Hm. unfold mac_equal. rewrite Hm. by apply bool_decide_eq_false. Qed.

Lemma free_not_equal m it : m ≠ [] → free it = true → mac_equal m it = false.
Proof.
  intros Hm Hf. unfold free in Hf. apply bool_decide_eq_true in Hf. unfold mac_equal. rewrite Hf.
  by apply bool_decide_eq_false.
Qed.

Lemma renew_mac e it : it_mac (renew e it) = it_mac it.
Proof. unfold renew. by destruct (it_expire it). Qed.
Lemma renew_ip e it : it_ip (renew e it) = it_ip it.
Proof. unfold renew. by destruct (it_expire it). Qed.

Lemma owned_renew m a t l k it e :
  m ≠ [] → owned m a t l → l !! k = Some it → mac_equal m it = true →
  (∀ j x, (j < k)%nat → l !! j = Some x → mac_equal m x = false) → t <= e →
  it_ip it = a ∧ owned m a t (<[k := renew e it]> l).
Proof.
  intros Hm (k' & it' & Hk' & Hmac & Ha & He & Hmin) Hk Heq Hmin' Ht.
  assert (k' = k) as ->.
  { destruct (lt_eq_lt_dec k' k) as [[?|?]|?]; [|done|].
    - apply (Hmin' k') in Hk'; [|done]. apply (mac_equal_Some m it' Hm) in Hmac. congruence.
    - apply (Hmin k) in Hk; [|done]. congruence. }
  rewrite Hk in Hk'. simplify_eq. split; [done|]. exists k, (renew e it').
  rewrite list_lookup_insert_eq by (by eapply lookup_lt_Some). rewrite renew_mac, renew_ip. split_and!; try done.
  - unfold renew. intros e'. destruct (it_expire it') eqn:E; simpl; [by intros [= <-]|]. rewrite E. done.
  - intros j x Hj Hx. rewrite list_lookup_insert_ne in Hx by lia. by apply (Hmin j).
Qed.

Lemma owned_event m a t p ev :
  m ≠ [] → owned m a t (items p) → harmless m t (lease p) ev → owned m a t (items (apply_event p ev)).
Proof.
  intros Hm Ho Hh. destruct ev as [mac ip now idx|mac|now]; cbn [apply_event].
  - destruct Hh as [Hmac Hself]. destruct (LeaseIP mac ip now idx p) as [r p'] eqn:E. cbn [snd].
    apply LeaseIP_cases in E as [_ [(i & it & Hi & Heq & _ & -> & Hmin)|[Hno [(i & it & Hi & Hf & _ & ->)|(-> & _)]]]].
    + destruct (decide (mac = m)) as [->|Hne]; [by eapply owned_renew; eauto|].
      apply (mac_equal_Some mac it Hmac) in Heq.
      apply (owned_insert m a t _ i it); try done.
      * by apply (mac_equal_other m mac).
      * apply (mac_equal_other m mac); [done|]. by rewrite renew_mac.
    + destruct (decide (mac = m)) as [->|Hne].
      { destruct Ho as (k & it' & Hk & Hm' & _). apply (mac_equal_Some m it' Hm) in Hm'.
        rewrite (Hno k it' Hk) in Hm'. done. }
      apply (owned_insert m a t _ i it); try done; [by apply free_not_equal|].
      by apply (mac_equal_other m mac).
    + done.
  - simpl in Hh. apply owned_map; [done|..].
    + intros it Hmac _. destruct (it_expire it); [|done].
      by rewrite (mac_equal_other mac m it) by done.
    + intros it Hit. destruct (it_expire it); [|done]. destruct (mac_equal mac it); [|done].
      unfold mac_equal. simpl. by apply bool_decide_eq_false.
  - simpl in Hh. apply owned_map; [done|..].
    + intros it _ He. unfold tick_item. destruct (it_expire it) as [e|]; [|done].
      specialize (He e eq_refl). by rewrite (proj2 (Z.ltb_ge _ _)) by lia.
    + intros it Hit. unfold tick_item. destruct (it_expire it) as [e|]; [|done]. destruct (e <? now); [|done].
      unfold mac_equal. simpl. by apply bool_decide_eq_false.
Qed.

Lemma lease_event p ev : lease (apply_event p ev) = lease p.
Proof.
  destruct ev as [mac ip now idx|mac|now]; cbn [apply_event]; try done.
  destruct (LeaseIP mac ip now idx p) as [r p'] eqn:E. cbn [snd]. by apply LeaseIP_cases in E as [? _].
Qed.

(** The addresses of a pool never change. *)
Lemma ips_event p ev : it_ip <$> items (apply_event p ev) = it_ip <$> items p.
Proof.
  destruct ev as [mac ip now idx|mac|now]; cbn [apply_event].
  - destruct (LeaseIP mac ip now idx p) as [r p'] eqn:E. cbn [snd].
    apply LeaseIP_cases in E as [_ [(i & it & Hi & _ & _ & -> & _)|[_ [(i & it & Hi & _ & _ & ->)|(-> & _)]]]]; [| |done].
    + rewrite list_fmap_insert, renew_ip. apply list_insert_id. by rewrite list_lookup_fmap, Hi.
    + rewrite list_fmap_insert. apply list_insert_id. by rewrite list_lookup_fmap, Hi.
  - simpl. rewrite <- list_fmap_compose. apply list_fmap_ext. intros i it _. simpl.
    destruct (it_expire it); [|done]. by destruct (mac_equal mac it).
  - simpl. rewrite <- list_fmap_compose. apply list_fmap_ext. intros i it _. simpl. unfold tick_item.
    destruct (it_expire it); [|done]. by destruct (_ <? now).
Qed.

Lemma owned_after_lease m ip now idx p a p' :
  m ≠ [] → LeaseIP m ip now idx p = (Ok a, p') → owned m a (now + lease p) (items p').
Proof.
  intros Hm H. apply LeaseIP_cases in H as [_ [(i & it & Hi & Heq & Hr & -> & Hmin)|[Hno [(i & it & Hi & Hf & Hr & ->)|(_ & _ & Hr)]]]].
  - simplify_eq. exists i, (renew (now + lease p) it).
    rewrite list_lookup_insert_eq by (by eapply lookup_lt_Some). rewrite renew_mac, renew_ip.
    apply (mac_equal_Some m it Hm) in Heq. split_and!; try done.
    + unfold renew. intros e. destruct (it_expire it) eqn:E; simpl; [intros [= <-]; lia|]. by rewrite E.
    + intros j x Hj Hx. rewrite list_lookup_insert_ne in Hx by lia. by apply (Hmin j).
  - simplify_eq. exists i, (assign m (now + lease p) it).
    rewrite list_lookup_insert_eq by (by eapply lookup_lt_Some). split_and!; try done.
    + simpl. intros e [= <-]. lia.
    + intros j x Hj Hx. rewrite list_lookup_insert_ne in Hx by lia. by apply (Hno j).
  - destruct (_ =? _)%nat; done.
Qed.

Lemma owned_lease_self m a t ip now idx p r p' :
  m ≠ [] → owned m a t (items p) → LeaseIP m ip now idx p = (r, p') → r = Ok a.
Proof.
  intros Hm Ho H. pose proof Ho as (k & it & Hk & Hmac & Ha & _ & Hmin).
  pose proof (proj2 (mac_equal_Some m it Hm) Hmac) as Heq.
  apply LeaseIP_cases in H as [_ [(i & it' & Hi & Heq' & -> & _ & Hmin')|[Hno _]]].
  - assert (i = k) as ->.
    { destruct (lt_eq_lt_dec i k) as [[?|?]|?]; [|done|].
      - apply (Hmin i) in Hi; [congruence|done].
      - apply (Hmin' k) in Hk; [congruence|done]. }
    rewrite Hk in Hi. by simplify_eq.
  - rewrite (Hno k it Hk) in Heq. done.
Qed.

Lemma owned_lease_other m m' a t ip now idx p b p' :
  m ≠ [] → m' ≠ [] → m ≠ m' → NoDup (it_ip <$> items p) → owned m a t (items p) →
  LeaseIP m' ip now idx p = (Ok b, p') → b ≠ a.
Proof.
  intros Hm Hm' Hne Hnd (k & it & Hk & Hmac & <- & _ & _) H.
  assert (∃ i it', items p !! i = Some it' ∧ b = it_ip it' ∧ it_mac it' ≠ Some m) as (i & it' & Hi & -> & Hd).
  { apply LeaseIP_cases in H as [_ [(i & it' & Hi & Heq & Hr & _)|[_ [(i & it' & Hi & Hf & Hr & _)|(_ & _ & Hr)]]]].
    - simplify_eq. exists i, it'. split_and!; try done. apply (mac_equal_Some m' it' Hm') in Heq. congruence.
    - simplify_eq. exists i, it'. split_and!; try done. unfold free in Hf.
      apply bool_decide_eq_true in Hf. congruence.
    - destruct (_ =? _)%nat; done. }
  intros Heq. assert (i = k) as ->.
  { eapply NoDup_lookup; [exact Hnd| |]; rewrite list_lookup_fmap.
    - rewrite Hi. simpl. by rewrite Heq.
    - by rewrite Hk. }
  rewrite Hk in Hi. by simplify_eq.
Qed.

(** C22: a lease is sticky and exclusive: whatever other clients lease, whatever they release,
    whichever searches the pool makes and as long as the lease has not run out, the client that
    got an address gets the same one when it asks again, and no other client gets it. *)
Theorem dhcp_exclusive m1 m2 req1 now1 idx1 p a p1 evs req2 now2 idx2 :
  NoDup (it_ip <$> items p) → m1 ≠ [] → m2 ≠ [] → m1 ≠ m2 →
  LeaseIP m1 req1 now1 idx1 p = (Ok a, p1) →
  Forall (harmless m1 (now1 + lease p) (lease p)) evs →
  let p2 := foldl apply_event p1 evs in
  (LeaseIP m1 req2 now2 idx2 p2).1 = Ok a ∧
  ∀ b, (LeaseIP m2 req2 now2 idx2 p2).1 = Ok b → b ≠ a.
Proof.
  intros Hnd Hm1 Hm2 Hne Hl Hev p2.
  assert (owned m1 a (now1 + lease p) (items p2) ∧ NoDup (it_ip <$> items p2)) as [Ho Hnd2].
  { pose proof (owned_after_lease _ _ _ _ _ _ _ Hm1 Hl) as Ho.
    assert (lease p1 = lease p ∧ it_ip <$> items p1 = it_ip <$> items p) as [Hlp Hips].
    { split; [by apply LeaseIP_cases in Hl as [? _]|].
      pose proof (ips_event p (ELease m1 req1 now1 idx1)) as H. simpl in H. by rewrite Hl in H. }
    rewrite <- Hips in Hnd. unfold p2. clear p2 Hl Hips. revert p1 Ho Hlp Hnd.
    induction Hev as [|ev evs He Hev IH]; intros p1 Ho Hlp Hnd; [done|]. simpl. apply IH.
    - apply owned_event; [done|done|by rewrite Hlp].
    - by rewrite lease_event.
    - by rewrite ips_event. }
  split.
  - destruct (LeaseIP m1 req2 now2 idx2 p2) as [r p3] eqn:E. simpl. by eapply (owned_lease_self m1 a (now1 + lease p)).
  - intros b Hb. destruct (LeaseIP m2 req2 now2 idx2 p2) as [r p3] eqn:E. simpl in Hb. subst r.
    by eapply (owned_lease_other m1 m2 a (now1 + lease p)).
Qed.

(** An address is refused only when there is none: [LeaseIP] on a non-empty pool fails exactly
    when the client has no address and every address belongs to somebody. *)
Theorem dhcp_refusal mac req now idx p :
  items p ≠ [] →
  (LeaseIP mac req now idx p).1 = Err ErrNoIP ↔
  (∀ it, it ∈ items p → mac_equal mac it = false ∧ free it = false).
Proof.
  intros Hne. destruct (LeaseIP mac req now idx p) as [r p'] eqn:E.
  assert ((length (items p) =? 0)%nat = false) as El.
  { apply Nat.eqb_neq. destruct (items p); simpl; [done|lia]. }
  apply LeaseIP_cases in E as [_ [(i & it & Hi & Heq & -> & _)|[Hno [(i & it & Hi & Hf & -> & _)|(-> & Hfree & ->)]]]];
    simpl; rewrite ?El.
  - split; [done|]. intros H. destruct (H it); [by eapply list_elem_of_lookup_2|]. congruence.
  - split; [done|]. intros H. destruct (H it); [by eapply list_elem_of_lookup_2|]. congruence.
  - split; [|done]. intros _ it Hin. apply list_elem_of_lookup in Hin as [i Hi].
    split; [by apply (Hno i)|by apply (Hfree i)].
Qed.

(** ** The range of a pool *)

Lemma numToIPv4_be n : numToIPv4 n = Addr4 (be_bytes 4 n).
Proof.
  unfold numToIPv4. rewrite !Z.shiftr_div_pow2 by lia. f_equal.
  change (be_bytes 4 n) with [z2b (n / 256 ^ 3); z2b (n / 256 ^ 2); z2b (n / 256 ^ 1); z2b (n / 256 ^ 0)].
  rewrite Z.pow_0_r, Z.div_1_r. done.
Qed.

Lemma ipv4ToNum_be l : length l = 4%nat → ipv4ToNum (Addr4 l) = be_val l.
Proof.
  intros Hl. destruct l as [|b0 [|b1 [|b2 [|b3 [|]]]]]; try done. unfold ipv4ToNum. cbn [AsSlice].
  change (be_val [b0; b1; b2; b3]) with
    (b2z b0 * 256 ^ 3 + (b2z b1 * 256 ^ 2 + (b2z b2 * 256 ^ 1 + (b2z b3 * 256 ^ 0 + 0)))).
  rewrite !Z.shiftl_mul_pow2 by lia.
  pose proof (b2z_range b0). pose proof (b2z_range b1). pose proof (b2z_range b2). pose proof (b2z_range b3).
  rewrite (u32_small (b2z b0 * 2 ^ 24 + b2z b1 * 2 ^ 16)) by lia.
  rewrite (u32_small (b2z b0 * 2 ^ 24 + b2z b1 * 2 ^ 16 + b2z b2 * 2 ^ 8)) by lia.
  rewrite u32_small by lia. lia.
Qed.

Lemma ipv4ToNum_numToIPv4 n : 0 <= n < 2 ^ 32 → ipv4ToNum (numToIPv4 n) = n.
Proof.
  intros H. rewrite numToIPv4_be, ipv4ToNum_be by apply length_be_bytes. by apply be32_id.
Qed.

Lemma numToIPv4_specified n : 0 < n < 2 ^ 32 → IsUnspecified (numToIPv4 n) = false.
Proof.
  intros Hn. unfold IsUnspecified. rewrite !bool_decide_eq_false_2; [done|by rewrite numToIPv4_be|].
  intros Heq. apply (f_equal ipv4ToNum) in Heq. rewrite ipv4ToNum_numToIPv4 in Heq by lia.
  change (ipv4ToNum (Addr4 (replicate 4 x00))) with 0 in Heq. lia.
Qed.

(** The items for the numbers from [s] on. *)
Definition range_items (s : Z) (n : nat) : list item :=
  (λ i, MkItem (numToIPv4 (s + Z.of_nat i)) None None) <$> seq 0 n.

Lemma range_items_S s n : range_items s (S n) = MkItem (numToIPv4 s) None None :: range_items (s + 1) n.
Proof.
  unfold range_items. cbn [seq fmap list_fmap]. rewrite Z.add_0_r. f_equal.
  rewrite <- fmap_S_seq, <- list_fmap_compose. apply list_fmap_ext. intros i x _. simpl. do 2 f_equal. lia.
Qed.

Lemma pool_loop_range fuel s e :
  0 <= s → s <= e + 1 → e < 2 ^ 32 - 1 → (Z.to_nat (e + 1 - s) < fuel)%nat →
  pool_loop fuel s e = Ok (range_items s (Z.to_nat (e + 1 - s))).
Proof.
  revert s. induction fuel as [|fuel IH]; intros s Hs He Hm Hf; [lia|]. cbn [pool_loop].
  destruct (s <=? e) eqn:E; bools.
  - rewrite u32_small by lia. rewrite IH by lia. cbn [mbind outcome_bind].
    replace (Z.to_nat (e + 1 - s)) with (S (Z.to_nat (e + 1 - (s + 1)))) by lia. by rewrite range_items_S.
  - replace (Z.to_nat (e + 1 - s)) with 0%nat by lia. done.
Qed.

Lemma pool_loop_wraps fuel s : 0 <= s < 2 ^ 32 → pool_loop fuel s (2 ^ 32 - 1) = OutOfFuel.
Proof.
  revert s. induction fuel as [|fuel IH]; intros s Hs; [done|]. cbn [pool_loop].
  rewrite (proj2 (Z.leb_le _ _)) by lia. by rewrite IH by apply u32_range.
Qed.

(** A pool holds exactly the configured range: for an IPv4 range from [s] to [e] that does not
    end at the last address, [NewPool] returns, with every address from start to end once, in
    order and free. *)
Theorem dhcp_pool_range l s e fuel :
  0 < s <= e → e < 2 ^ 32 - 1 → (Z.to_nat (e - s) + 1 < fuel)%nat →
  ∃ p, NewPool fuel l (Some (numToIPv4 s)) (Some (numToIPv4 e)) = Ok p ∧
    lease p = l ∧ length (items p) = S (Z.to_nat (e - s)) ∧ NoDup (it_ip <$> items p) ∧
    ∀ i, (i < length (items p))%nat →
      items p !! i = Some (MkItem (numToIPv4 (s + Z.of_nat i)) None None).
Proof.
  intros Hs He Hf.
  unfold NewPool. rewrite !numToIPv4_specified by lia. cbn [Is6 Is4 negb numToIPv4 orb].
  change (Addr4 [z2b (Z.shiftr ?n 24); _; _; _]) with (numToIPv4 n).
  rewrite !ipv4ToNum_numToIPv4 by lia. cbv zeta. rewrite (proj2 (Z.ltb_ge _ _)) by lia.
  rewrite pool_loop_range by lia. cbn [mbind outcome_bind]. eexists. split; [done|]. cbn [items lease].
  replace (Z.to_nat (e + 1 - s)) with (S (Z.to_nat (e - s))) by lia. set (n := S (Z.to_nat (e - s))).
  assert (length (range_items s n) = n) as Hlen by (unfold range_items; by rewrite length_fmap, length_seq).
  split; [done|]. split; [done|].
  assert (∀ i, (i < n)%nat → range_items s n !! i = Some (MkItem (numToIPv4 (s + Z.of_nat i)) None None)) as Hat.
  { intros i Hi. unfold range_items. rewrite list_lookup_fmap, lookup_seq_lt by done. done. }
  split; [|by rewrite Hlen].
  apply NoDup_alt. intros i j x Hi Hj. rewrite list_lookup_fmap in Hi, Hj.
  destruct (range_items s n !! i) as [a|] eqn:Ei; [|done]. destruct (range_items s n !! j) as [b|] eqn:Ej; [|done].
  pose proof (lookup_lt_Some _ _ _ Ei) as Hin. pose proof (lookup_lt_Some _ _ _ Ej) as Hjn. rewrite Hlen in Hin, Hjn.
  rewrite Hat in Ei, Ej by done. injection Ei as <-. injection Ej as <-. injection Hi as <-.
  apply (inj Some), (f_equal ipv4ToNum) in Hj. cbn [it_ip] in Hj.
  rewrite !ipv4ToNum_numToIPv4 in Hj by (unfold n in *; lia). lia.
Qed.

(** A range that ends at 255.255.255.255 hangs the server: the 32-bit counter of [NewPool] wraps
    to zero before it exceeds the end, so the loop that fills the pool never ends. *)
Theorem dhcp_pool_endless l s fuel :
  0 < s < 2 ^ 32 → NewPool fuel l (Some (numToIPv4 s)) (Some (Addr4 [xff; xff; xff; xff])) = OutOfFuel.
Proof.
  intros Hs. unfold NewPool.
  rewrite numToIPv4_specified by lia.
  change (IsUnspecified (Addr4 [xff; xff; xff; xff])) with false. cbn [Is6 Is4 negb numToIPv4 orb].
  change (Addr4 [z2b (Z.shiftr ?n 24); _; _; _]) with (numToIPv4 n).
  change (ipv4ToNum (Addr4 [xff; xff; xff; xff])) with (2 ^ 32 - 1).
  rewrite ipv4ToNum_numToIPv4 by lia. cbv zeta. rewrite (proj2 (Z.ltb_ge _ _)) by lia.
  by rewrite pool_loop_wraps by lia.
Qed.

(** ** The header checksum *)

(** The sum of the sixteen-bit words of a list of even length. *)
Fixpoint words (l : list byte) : Z :=
  match l with
  | hi :: lo :: l => b2z hi * 256 + b2z lo + words l
  | _ => 0
  end.

Lemma words_range l : 0 <= words l /\ words l <= 65535 * Z.of_nat (length l).
Proof.
  induction l as [l IH] using (induction_ltof1 _ (@length byte)). unfold ltof in IH.
  destruct l as [|hi [|lo l]]; cbn [words length]; [lia|lia|].
  pose proof (b2z_range hi). pose proof (b2z_range lo). specialize (IH l ltac:(simpl; lia)). lia.
Qed.

Lemma word_sum_words l acc :
  Nat.Even (length l) → 0 <= acc → acc + 65535 * Z.of_nat (length l) < 2 ^ 32 →
  word_sum l acc = Ok (acc + words l).
Proof.
  revert acc. induction l as [l IH] using (induction_ltof1 _ (@length byte)). unfold ltof in IH.
  intros acc He Ha Hb. destruct l as [|hi [|lo l]]; cbn [words word_sum].
  - f_equal. lia.
  - destruct He as [k Hk]. simpl in Hk. lia.
  - pose proof (b2z_range hi). pose proof (b2z_range lo). cbn [length] in Hb.
    rewrite Z.shiftl_mul_pow2 by lia. rewrite (u32_small (acc + _)), u32_small by lia.
    rewrite IH; [f_equal; lia|simpl; lia| |lia|lia]. destruct He as [k Hk]. exists (k - 1)%nat. simpl in Hk. lia.
Qed.

(** One addition of the carry keeps the sum modulo [65535], and a non-zero sum non-zero. *)
Lemma carry_step s :
  65535 < s < 2 ^ 32 →
  let s' := u32 (Z.shiftr s 16 + u16 s) in
  s' mod 65535 = s mod 65535 ∧ 0 < s' <= s / 65536 + 65535 ∧ s' = s / 65536 + s mod 65536.
Proof.
  intros Hs s'. unfold s'. rewrite Z.shiftr_div_pow2 by lia. unfold u16. change (2 ^ 16) with 65536.
  pose proof (Z.div_mod s 65536). pose proof (Z.mod_pos_bound s 65536).
  rewrite u32_small by lia. split; [|lia].
  rewrite <- (Z_mod_plus_full (s / 65536 + s mod 65536) (s / 65536) 65535). f_equal. lia.
Qed.

Lemma fold_carry_spec s :
  0 <= s < 2 ^ 32 →
  ∃ c, fold_carry 4 s = Ok c ∧ 0 <= c <= 65535 ∧ c mod 65535 = s mod 65535 ∧ (0 < s → 0 < c).
Proof.
  intros Hs. cbn [fold_carry]. destruct (s <=? 65535) eqn:E1; bools; [exists s; split_and!; done || lia|].
  destruct (carry_step s ltac:(lia)) as (Hm1 & Hr1 & _). set (s1 := u32 _) in *. clearbody s1.
  assert (s / 65536 < 65536) by (apply Z.div_lt_upper_bound; lia).
  destruct (s1 <=? 65535) eqn:E2; bools; [exists s1; split_and!; done || lia|].
  destruct (carry_step s1 ltac:(lia)) as (Hm2 & Hr2 & Hv2). set (s2 := u32 _) in *.
  assert (s2 <= 65535) as Hs2.
  { pose proof (Z.div_mod s1 65536). pose proof (Z.mod_pos_bound s1 65536). lia. }
  rewrite (proj2 (Z.leb_le _ _)) by done. exists s2. split_and!; [done|lia|lia|congruence|lia].
Qed.

(** A sum and its checksum fold to all ones. *)
Lemma fold_carry_complement s c :
  0 <= s < 2 ^ 31 → fold_carry 4 s = Ok c → fold_carry 4 (s + (65535 - c)) = Ok 65535.
Proof.
  intros Hs Hc. destruct (fold_carry_spec s) as (c1 & E1 & Hr1 & Hm1 & Hp1); [lia|].
  rewrite Hc in E1. simplify_eq.
  destruct (fold_carry_spec (s + (65535 - c1))) as (c2 & -> & Hr2 & Hm2 & Hp2); [lia|]. f_equal.
  assert (0 < s + (65535 - c1)) as Hpos by (destruct (decide (s = 0)) as [->|]; [injection Hc as <-; lia|lia]).
  specialize (Hp2 Hpos).
  assert (c2 mod 65535 = 0) as Hz.
  { rewrite Hm2, Zplus_mod, <- Hm1, <- Zplus_mod. by replace (c1 + (65535 - c1)) with 65535 by lia. }
  apply Z.mod_divide in Hz as [k Hk]; lia.
Qed.

Lemma length_copy_at i b p : (i <= length p)%nat → length (copy_at i b p) = length p.
Proof. intros H. unfold copy_at. rewrite !length_app, !length_take, length_drop. lia. Qed.

(** The frame of a DHCP reply is always built, has the fixed size, and its IP header verifies:
    the one's complement sum of the header with its checksum field is all ones. *)
Theorem dhcp_reply_checksum cm im sip yip payload :
  length cm = 6%nat → length im = 6%nat → length sip = 4%nat → length yip = 4%nat →
  ∃ f, reply_frame cm im sip yip payload = Ok f ∧ length f = 590%nat ∧
    (s ← word_sum (take 20 (drop 14 f)) 0; fold_carry 4 s) = Ok 65535.
Proof.
  intros Hc Hi Hs Hy.
  destruct cm as [|c0 [|c1 [|c2 [|c3 [|c4 [|c5 [|]]]]]]]; try done.
  destruct im as [|i0 [|i1 [|i2 [|i3 [|i4 [|i5 [|]]]]]]]; try done.
  destruct sip as [|s0 [|s1 [|s2 [|s3 [|]]]]]; try done.
  destruct yip as [|y0 [|y1 [|y2 [|y3 [|]]]]]; try done.
  set (h a b := [x45; x00; x02; x40; x00; x00; x00; x00; x40; x11; a; b; s0; s1; s2; s3; y0; y1; y2; y3]).
  unfold reply_frame. cbv zeta. set (p := copy_at 30 _ _).
  assert (take 20 (drop 14 p) = h x00 x00) as -> by reflexivity.
  assert (∀ a b, 0 <= words (h a b) <= 65535 * 20) as Hr by (intros a b; apply (words_range (h a b))).
  unfold checksum. rewrite word_sum_words; [|by exists 10%nat|lia|simpl; lia].
  cbn [mbind outcome_bind]. rewrite Z.add_0_l. specialize (Hr x00 x00) as Hr0.
  destruct (fold_carry_spec (words (h x00 x00))) as (c & Hfc & Hcr & _); [lia|]. rewrite Hfc.
  cbn [mbind outcome_bind]. eexists. split; [done|]. split.
  - rewrite !length_copy_at; [done|..]; rewrite ?length_copy_at; simpl; lia.
  - set (hi := z2b ((65535 - c) / 256)). set (lo := z2b (65535 - c)).
    assert (take 20 (drop 14 (copy_at 42 payload (copy_at 24 (be_bytes 2 (65535 - c)) p))) = h hi lo) as ->.
    { change (be_bytes 2 (65535 - c)) with [z2b ((65535 - c) / 256 ^ 1); z2b ((65535 - c) / 256 ^ 0)].
      rewrite Z.pow_0_r, Z.div_1_r. reflexivity. }
    rewrite word_sum_words; [|by exists 10%nat|lia|simpl; lia]. cbn [mbind outcome_bind]. rewrite Z.add_0_l.
    assert (words (h hi lo) = words (h x00 x00) + (65535 - c)) as ->.
    { unfold h, hi, lo. cbn [words]. rewrite !b2z_z2b. change (b2z x00) with 0.
      pose proof (Z.div_mod (65535 - c) 256).
      rewrite (Z.mod_small ((65535 - c) / 256)) by (split; [apply Z.div_pos|apply Z.div_lt_upper_bound]; lia).
      lia. }
    apply fold_carry_complement; [lia|done].
Qed.
