(* ===== verification/DhcpWitness.v ===== *)
(** Concrete runs of the DHCP theorems. *)
From S2P Require Import Prelude GoStd Dhcp DhcpProofs.
Import Dhcp.

Definition net0 : Z := 192 * 2 ^ 24 + 168 * 2 ^ 16.
Definition macA : list byte := [x02; x00; x00; x00; x00; x0a].
Definition macB : list byte := [x02; x00; x00; x00; x00; x0b].
Definition hour : Z := 3600 * second.

Definition pool3 : Pool := MkPool
  [MkItem (numToIPv4 (net0 + 10)) None None; MkItem (numToIPv4 (net0 + 11)) None None;
   MkItem (numToIPv4 (net0 + 12)) None None] hour.

Lemma dhcp_pool_range_witness :
  ∃ p, NewPool 10 hour (Some (numToIPv4 (net0 + 10))) (Some (numToIPv4 (net0 + 12))) = Ok p ∧
    lease p = hour ∧ length (items p) = S (Z.to_nat (net0 + 12 - (net0 + 10))) ∧
    NoDup (it_ip <$> items p) ∧
    ∀ i, (i < length (items p))%nat →
      items p !! i = Some (MkItem (numToIPv4 (net0 + 10 + Z.of_nat i)) None None).
Proof.
  apply (dhcp_pool_range hour (net0 + 10) (net0 + 12) 10); unfold net0; lia.
Defined.

Lemma dhcp_pool_endless_witness :
  NewPool 1000 hour (Some (numToIPv4 (2 ^ 32 - 3))) (Some (Addr4 [xff; xff; xff; xff])) = OutOfFuel.
Proof. apply (dhcp_pool_endless hour (2 ^ 32 - 3) 1000). lia. Defined.

(** A leases, B leases and releases, half an hour passes. *)
Definition p_A : Pool := (LeaseIP macA None 0 1 pool3).2.
Definition evs : list event := [ELease macB None 5 1; ETick (1800 * second); ERelease macB].

Lemma dhcp_exclusive_witness :
  let p2 := foldl apply_event p_A evs in
  (LeaseIP macA None (2000 * second) 0 p2).1 = Ok (numToIPv4 (net0 + 11)) ∧
  ∀ b, (LeaseIP macB None (2000 * second) 0 p2).1 = Ok b → b ≠ numToIPv4 (net0 + 11).
Proof.
  apply (dhcp_exclusive macA macB None 0 1 pool3 (numToIPv4 (net0 + 11)) p_A evs None (2000 * second) 0);
    try discriminate.
  - apply (bool_decide_unpack _). vm_compute. exact I.
  - vm_compute; reflexivity.
  - repeat constructor; simpl; try discriminate; unfold second; lia.
Defined.

Definition pool_full : Pool := MkPool [MkItem (numToIPv4 (net0 + 10)) (Some macA) (Some hour)] hour.

Lemma dhcp_refusal_witness :
  (LeaseIP macB None 0 0 pool_full).1 = Err ErrNoIP ↔
  (∀ it, it ∈ items pool_full → mac_equal macB it = false ∧ free it = false).
Proof. apply (dhcp_refusal macB None 0 0 pool_full). discriminate. Defined.

Lemma dhcp_reply_checksum_witness :
  ∃ f, reply_frame macA macB [xc0; xa8; x00; x01] [xc0; xa8; x00; x0a] (replicate 300 x63) = Ok f ∧
    length f = 590%nat ∧ (s ← word_sum (take 20 (drop 14 f)) 0; fold_carry 4 s) = Ok 65535.
Proof.
  apply (dhcp_reply_checksum macA macB [xc0; xa8; x00; x01] [xc0; xa8; x00; x0a] (replicate 300 x63));
    reflexivity.
Defined.
