(* ===== verification/WsFrame.v ===== *)
(** proxy/ws/frame.go: WebSocket frames.

    A connection is the list of bytes the peer has still to send.  The reader
    keeps the number of payload bytes left in the current frame and, on the server
    side, the key of that frame and how far the key was used. *)
From S2P Require Import Prelude GoStd Reader ProxyConn.

Definition finalBit : Z := Z.shiftl 1 7.
Definition opCodeBinary : Z := 2.
Definition maskBit : Z := Z.shiftl 1 7.

Definition xor_byte (a b : byte) : byte := z2b (Z.lxor (b2z a) (b2z b)).

(** The loops [b[i] ^ maskKey[(i+off)%4]]. *)
Definition mask (key : list byte) (off : nat) (b : list byte) : list byte :=
  imap (λ i c, xor_byte c (nth ((i + off) mod 4) key x00)) b.

(** ** Writer *)

Record frameWriter := MkFrameWriter {
  fw_server : bool;
  fw_maskKey : list byte }.

(** [n]: the [rand.Uint32] of the call. *)
Definition FrameWriter (server : bool) (n : Z) : frameWriter :=
  MkFrameWriter server [z2b n; z2b (Z.shiftr n 8); z2b (Z.shiftr n 16); z2b (Z.shiftr n 24)].

Definition frame_hdr (server : bool) (nPayload : Z) : list byte :=
  let hdr0 := z2b (Z.lor opCodeBinary finalBit) in
  let hdr1 := if server then 0 else maskBit in
  if nPayload <=? 125 then [hdr0; z2b (Z.lor hdr1 nPayload)]
  else if nPayload <? 65536 then hdr0 :: z2b (Z.lor hdr1 126) :: be_bytes 2 (u16 nPayload)
  else hdr0 :: z2b (Z.lor hdr1 127) :: be_bytes 8 (u64 nPayload).

(** The buffers a [Write] of [b] hands to the connection, in order. *)
Definition frame_out (w : frameWriter) (b : list byte) : list byte :=
  frame_hdr (fw_server w) (Z.of_nat (length b)) ++
  (if fw_server w then b else fw_maskKey w ++ mask (fw_maskKey w) 0 b).

(** [frameWriter.Write] over a connection that takes [n] bytes and then answers
    [err]: what it took, and the result. *)
Definition frameWriter_Write (w : frameWriter) (b : list byte) (n : nat) (err : option error)
    : list byte * Z * option error :=
  let head := (length (frame_hdr (fw_server w) (Z.of_nat (length b))) +
               (if fw_server w then 0 else 4))%nat in
  (take n (frame_out w b), if (head <? n)%nat then Z.of_nat n - Z.of_nat head else 0, err).

(** ** Reader *)

Record frameReader := MkFrameReader {
  fr_left : Z;
  fr_server : bool;
  fr_maskKey : list byte;
  fr_maskOffset : nat }.

Definition FrameReader (server : bool) : frameReader :=
  MkFrameReader 0 server (replicate 4 x00) 0.

(** [io.ReadFull] with what it read before an error: bytes, error, rest. *)
Definition ReadFull_part (n : nat) (s : list byte) : list byte * option error * list byte :=
  match ReadFull n s with
  | Ok (b, s') => (b, None, s')
  | Err e => (s, Some e, [])
  | _ => ([], None, s)
  end.

(** The extended length, of the 7-bit length [l]. *)
Definition read_length (l : Z) (s : list byte) : Z * option error * list byte :=
  if l =? 126 then
    let '(b, err, s) := ReadFull_part 2 s in
    match err with Some e => (l, Some e, s) | None => (be_val b, None, s) end
  else if l =? 127 then
    let '(b, err, s) := ReadFull_part 8 s in
    match err with Some e => (l, Some e, s) | None => (i64 (be_val b), None, s) end
  else (l, None, s).

(** The [r.left == 0] branch of [Read]. *)
Definition read_header (r : frameReader) (s : list byte) : frameReader * option error * list byte :=
  let '(b, err, s) := ReadFull_part 2 s in
  match err with
  | Some e => (r, Some e, s)
  | None =>
      let '(lft, err, s) := read_length (Z.land (b2z (nth 1 b x00)) 127) s in
      let r := MkFrameReader lft (fr_server r) (fr_maskKey r) (fr_maskOffset r) in
      match err with
      | Some e => (r, Some e, s)
      | None =>
          if fr_server r then
            let '(k, err, s) := ReadFull_part 4 s in
            let key := k ++ drop (length k) (fr_maskKey r) in
            match err with
            | Some e => (MkFrameReader lft true key (fr_maskOffset r), Some e, s)
            | None => (MkFrameReader lft true key 0, None, s)
            end
          else (r, None, s)
      end
  end.

(** [frameReader.Read] into a buffer of [n] bytes: the bytes it put there, the
    error, the reader and the rest of the stream.  A payload cut short is returned
    as it came. *)
Definition frameReader_Read (r : frameReader) (n : nat) (s : list byte)
    : outcome (list byte * option error * frameReader * list byte) :=
  let '(r, err, s) := if fr_left r =? 0 then read_header r s else (r, None, s) in
  match err with
  | Some e => Ok ([], Some e, r, s)
  | None =>
      let readLen := if fr_left r <? Z.of_nat n then fr_left r else Z.of_nat n in
      if readLen <? 0 then Panic
      else
        let '(b, err, s) := ReadFull_part (Z.to_nat readLen) s in
        match err with
        | Some e => Ok (b, Some e, r, s)
        | None =>
            let m := length b in
            let lft := i64 (fr_left r - Z.of_nat m) in
            if fr_server r then
              Ok (mask (fr_maskKey r) (fr_maskOffset r) b, None,
                  MkFrameReader lft true (fr_maskKey r) ((m + fr_maskOffset r) mod 4), s)
            else Ok (b, None, MkFrameReader lft false (fr_maskKey r) (fr_maskOffset r), s)
        end
  end.

(** A sequence of reads into buffers of the given sizes: what each returned. *)
Fixpoint frame_reads (r : frameReader) (sizes : list nat) (s : list byte)
    : outcome (list (list byte * option error)) :=
  match sizes with
  | [] => Ok []
  | n :: sizes =>
      match frameReader_Read r n s with
      | Ok (b, e, r, s) =>
          match frame_reads r sizes s with
          | Ok l => Ok ((b, e) :: l)
          | x => x
          end
      | Err e => Err e
      | Panic => Panic
      | OutOfFuel => OutOfFuel
      end
  end.

(** ** Masking *)

Lemma xor_byte_twice a k : xor_byte (xor_byte a k) k = a.
Proof.
  unfold xor_byte. pose proof (b2z_range a). pose proof (b2z_range k).
  assert (0 <= Z.lxor (b2z a) (b2z k) < 256) as Hx.
  { rewrite Z.lxor_nonneg. split; [tauto||lia|].
    destruct (decide (Z.lxor (b2z a) (b2z k) = 0)) as [->|Hn]; [lia|].
    apply (Z.log2_lt_pow2 _ 8); [pose proof (proj2 (Z.lxor_nonneg (b2z a) (b2z k))); lia|].
    eapply Z.le_lt_trans; [apply Z.log2_lxor; lia|].
    apply Z.max_lub_lt.
    - destruct (decide (b2z a = 0)) as [->|]; [done|]. apply Z.log2_lt_pow2; lia.
    - destruct (decide (b2z k = 0)) as [->|]; [done|]. apply Z.log2_lt_pow2; lia. }
  rewrite b2z_z2b_small by done. rewrite Z.lxor_assoc, Z.lxor_nilpotent, Z.lxor_0_r. apply z2b_b2z.
Qed.

Lemma length_mask key off b : length (mask key off b) = length b.
Proof. apply length_imap. Qed.

Lemma mask_twice key off b : mask key off (mask key off b) = b.
Proof.
  unfold mask. apply list_eq. intros i. rewrite !list_lookup_imap.
  destruct (b !! i); simpl; [|done]. by rewrite xor_byte_twice.
Qed.

Lemma mask_app key off b1 b2 :
  mask key off (b1 ++ b2) = mask key off b1 ++ mask key (off + length b1) b2.
Proof.
  unfold mask. rewrite imap_app. f_equal. apply imap_ext. intros i x Hx. unfold compose. do 2 f_equal.
  replace (length b1 + i + off)%nat with (i + (off + length b1))%nat by lia. done.
Qed.

Lemma mask_mod key off b : mask key (off mod 4) b = mask key off b.
Proof.
  unfold mask. apply imap_ext. intros i x Hx. do 2 f_equal. by rewrite Nat.Div0.add_mod_idemp_r.
Qed.
