(* ===== verification/WsProofs.v ===== *)
(** proxy/ws/frame.go: what a reader makes of the frames a writer wrote, and what
    it does with frames that are cut short or announce an impossible length. *)
From S2P Require Import Prelude GoStd Reader ProxyConn WsFrame.

#[local] Arguments Nat.modulo : simpl never.

Lemma ReadFull_part_app l s : ReadFull_part (length l) (l ++ s) = (l, None, s).
Proof. unfold ReadFull_part. by rewrite ReadFull_app. Qed.

Lemma ReadFull_part_app' n l s : length l = n → ReadFull_part n (l ++ s) = (l, None, s).
Proof. intros <-. apply ReadFull_part_app. Qed.

(** ** Lengths *)

(** A length of seven bits survives the mask bit. *)
Lemma len7_field (server : bool) l : 0 <= l < 128 →
  Z.land (b2z (z2b (Z.lor (if server then 0 else maskBit) l))) 127 = l.
Proof.
  intros Hl. assert (Z.lor (if server then 0 else maskBit) l = (if server then 0 else 128) + l) as ->.
  { destruct server; [done|]. change maskBit with (2 ^ 7). change 128 with (2 ^ 7).
    rewrite <- Z.lxor_lor; [symmetry; apply Z.add_nocarry_lxor|];
      apply Z.bits_inj'; intros i Hi; rewrite Z.land_spec, Z.pow2_bits_eqb, Z.bits_0 by lia;
      (destruct (Z.eqb_spec 7 i) as [<-|]; [|done]); rewrite andb_true_l;
      rewrite Z.testbit_eqb by lia; by rewrite Z.div_small by lia. }
  rewrite b2z_z2b_small by (destruct server; lia).
  change 127 with (Z.ones 7). rewrite Z.land_ones by lia.
  destruct server; [by rewrite Z.mod_small by lia|].
  rewrite Z.add_comm. rewrite <- (Z.mul_1_l 128), Z.mod_add by lia. apply Z.mod_small. lia.
Qed.

(** What [read_length] finds after a header is the payload length. *)
Lemma read_length_hdr server n s : 0 <= n < 2 ^ 63 →
  ∃ h0 h1 ext, frame_hdr server n = h0 :: h1 :: ext ∧
    read_length (Z.land (b2z h1) 127) (ext ++ s) = (n, None, s).
Proof.
  intros Hn. unfold frame_hdr.
  destruct (Z.leb_spec n 125); [|destruct (Z.ltb_spec n 65536)]; do 3 eexists; (split; [reflexivity|]);
    rewrite len7_field by lia; unfold read_length.
  - rewrite (proj2 (Z.eqb_neq n 126)), (proj2 (Z.eqb_neq n 127)) by lia. done.
  - rewrite Z.eqb_refl. rewrite ReadFull_part_app' by apply length_be_bytes.
    by rewrite u16_small, be16_id by lia.
  - change (127 =? 126) with false; rewrite Z.eqb_refl; cbv iota. rewrite ReadFull_part_app' by apply length_be_bytes.
    rewrite be_val_bytes. unfold u64. rewrite !(Z.mod_small n) by (simpl; lia). by rewrite i64_small by lia.
Qed.

(** The length of a read. *)
Lemma readLen_min a n :
  (if Z.of_nat a <? Z.of_nat n then Z.of_nat a else Z.of_nat n) = Z.of_nat (Nat.min n a).
Proof. destruct (Z.ltb_spec (Z.of_nat a) (Z.of_nat n)); lia. Qed.

(** ** The frames of a writer *)

Definition payload_ok (p : list byte) : Prop := Z.of_nat (length p) < 2 ^ 63.
Definition writer_ok (w : frameWriter) : Prop := length (fw_maskKey w) = 4%nat.

(** What is on the wire for a payload whose first [off] bytes were read. *)
Definition wire (w : frameWriter) (off : nat) (cur : list byte) : list byte :=
  if fw_server w then cur else mask (fw_maskKey w) off cur.

Definition frames (w : frameWriter) (ps : list (list byte)) : list byte := concat (map (frame_out w) ps).

(** The reader and its stream stand for the message queue [q]. *)
Definition fr_sim (w : frameWriter) (r : frameReader) (s : list byte) (q : list byte * list (list byte)) : Prop :=
  fr_server r = negb (fw_server w) ∧ fr_left r = Z.of_nat (length q.1) ∧ length (fr_maskKey r) = 4%nat ∧
  (fw_server w = false → q.1 ≠ [] → fr_maskKey r = fw_maskKey w) ∧
  s = wire w (fr_maskOffset r) q.1 ++ frames w q.2 ∧ payload_ok q.1 ∧ Forall payload_ok q.2.

Lemma read_header_frame w r p ps :
  writer_ok w → fr_server r = negb (fw_server w) → length (fr_maskKey r) = 4%nat → payload_ok p →
  ∃ r', read_header r (frames w (p :: ps)) = (r', None, wire w (fr_maskOffset r') p ++ frames w ps) ∧
    fr_left r' = Z.of_nat (length p) ∧ fr_server r' = negb (fw_server w) ∧ length (fr_maskKey r') = 4%nat ∧
    (fw_server w = false → fr_maskKey r' = fw_maskKey w).
Proof.
  intros Hw Hs Hk Hp. unfold frames. simpl. unfold frame_out at 1, read_header.
  set (body := if fw_server w then p else _).
  destruct (read_length_hdr (fw_server w) (Z.of_nat (length p))
              (body ++ concat (map (frame_out w) ps))) as (h0 & h1 & ext & -> & Hl);
    [unfold payload_ok in Hp; lia|].
  rewrite <- app_assoc. change ((h0 :: h1 :: ext) ++ ?x) with ([h0; h1] ++ ext ++ x).
  rewrite ReadFull_part_app' by done. simpl nth. rewrite Hl. simpl fr_server. rewrite Hs. subst body.
  unfold wire. destruct (fw_server w); simpl; [by eexists; repeat split|].
  rewrite <- app_assoc, ReadFull_part_app' by done.
  rewrite drop_ge, app_nil_r by (rewrite Hw, Hk; lia).
  by exists (MkFrameReader (Z.of_nat (length p)) true (fw_maskKey w) 0).
Qed.

Lemma wire_app w off b1 b2 : wire w off (b1 ++ b2) = wire w off b1 ++ wire w (off + length b1) b2.
Proof. unfold wire. destruct (fw_server w); [done|apply mask_app]. Qed.
Lemma length_wire w off b : length (wire w off b) = length b.
Proof. unfold wire. destruct (fw_server w); [done|apply length_mask]. Qed.

Lemma wire_nil w off : wire w off [] = [].
Proof. unfold wire. by destruct (fw_server w). Qed.
Lemma wire_split w off n b : wire w off b = wire w off (take n b) ++ wire w (off + length (take n b)) (drop n b).
Proof. by rewrite <- wire_app, take_drop. Qed.

(** Reading the payload of the current frame. *)
Lemma read_payload w r n s cur ps :
  fr_sim w r s (cur, ps) → cur ≠ [] →
  ∃ r' s', frameReader_Read r n s = Ok (take n cur, None, r', s') ∧ fr_sim w r' s' (drop n cur, ps).
Proof.
  intros (Hsv & Hl & Hk & Hkey & -> & Hp & Hps) Hne. simpl in *. unfold frameReader_Read.
  assert (0 < length cur)%nat by (destruct cur; simpl; [done|lia]).
  rewrite (proj2 (Z.eqb_neq _ _)) by lia.
  set (k := Nat.min n (length cur)).
  rewrite !Hl, readLen_min. fold k. rewrite (proj2 (Z.ltb_ge _ _)) by lia. rewrite Nat2Z.id.
  assert (length (take n cur) = k) as Hlen by (rewrite length_take; lia).
  rewrite (wire_split w _ n cur), <- app_assoc.
  rewrite ReadFull_part_app' by (by rewrite length_wire).
  rewrite length_wire, Hlen, i64_small by (unfold payload_ok in Hp; lia).
  assert (Z.of_nat (length cur) - Z.of_nat k = Z.of_nat (length (drop n cur))) as ->
    by (rewrite length_drop; lia).
  assert (payload_ok (drop n cur)) by (unfold payload_ok in *; rewrite length_drop; lia).
  rewrite Hsv. unfold wire. destruct (fw_server w) eqn:Ew; simpl.
  - do 2 eexists. split; [done|]. repeat split; simpl; unfold wire; rewrite ?Ew; done.
  - rewrite <- (Hkey eq_refl Hne), mask_twice. do 2 eexists. split; [done|].
    repeat split; simpl; unfold wire; rewrite ?Ew, ?mask_mod, ?(Nat.add_comm k), ?Hlen; auto.
    by rewrite (Hkey eq_refl Hne).
Qed.

(** One read, whatever the state. *)
Lemma read_sim w r n s q :
  writer_ok w → fr_sim w r s q →
  ∃ r' s', frameReader_Read r n s = Ok ((msg_Read n q).1, r', s') ∧ fr_sim w r' s' (msg_Read n q).2.
Proof.
  intros Hw Hsim. destruct q as [cur ps].
  destruct cur as [|c cur]; [|by apply (read_payload w r n s (c :: cur) ps)].
  destruct Hsim as (Hsv & Hl & Hk & Hkey & -> & Hp & Hps). simpl in Hl, Hps.
  destruct ps as [|p ps].
  - exists r, []. simpl fst. simpl snd. rewrite wire_nil. unfold frameReader_Read. rewrite Hl.
    split; [done|]. repeat split; auto. simpl. by rewrite wire_nil.
  - apply Forall_cons in Hps as [Hp1 Hps].
    destruct (read_header_frame w r p ps) as (r' & Hh & Hl' & Hsv' & Hk' & Hkey'); try done.
    assert (fr_sim w r' (wire w (fr_maskOffset r') p ++ frames w ps) (p, ps)) as Hsim'
      by (repeat split; auto).
    destruct (decide (p = [])) as [->|Hne].
    + unfold frameReader_Read. rewrite Hl. simpl fst. simpl snd. rewrite wire_nil. simpl app.
      change (Z.of_nat 0 =? 0) with true. cbv iota. rewrite Hh. cbv iota beta. rewrite Hl', wire_nil. simpl length.
      rewrite readLen_min, Nat.min_0_r. simpl. rewrite Hsv'. rewrite take_nil, drop_nil.
      destruct (fw_server w) eqn:Ew; simpl; do 2 eexists; (split; [done|]); unfold fr_sim; simpl;
        (repeat split; auto); rewrite ?wire_nil, ?Ew; done.
    + destruct (read_payload w r' n _ p ps Hsim' Hne) as (r2 & s2 & Hr & Hs2).
      exists r2, s2. split; [|done].
      unfold frameReader_Read in Hr |- *. simpl fst. simpl snd. rewrite Hl, wire_nil. simpl app.
      change (Z.of_nat 0 =? 0) with true. cbv iota. rewrite Hh.
      rewrite (proj2 (Z.eqb_neq (fr_left r') 0)) in Hr by (rewrite Hl'; destruct p; simpl; [done|lia]). exact Hr.
Qed.

Lemma reads_sim w sizes r s q :
  writer_ok w → fr_sim w r s q → frame_reads r sizes s = Ok (msg_reads q sizes).
Proof.
  intros Hw. revert r s q. induction sizes as [|n sizes IH]; intros r s q Hsim; [done|]. simpl.
  destruct (read_sim w r n s q Hw Hsim) as (r' & s' & -> & Hs').
  destruct (msg_Read n q) as [[b e] q']. simpl in *. by rewrite (IH _ _ _ Hs').
Qed.

(** C9: Reading the frames of any payloads in buffers of any sizes is reading those
    payloads as a queue of messages: in order, unmasked, none merged, an empty
    payload giving a read of no bytes, and [io.EOF] once all are read; from a client
    to a server as from a server to a client. *)
Theorem ws_stream_refines w ps sizes :
  writer_ok w → Forall payload_ok ps →
  frame_reads (FrameReader (negb (fw_server w))) sizes (concat (map (frame_out w) ps)) =
  Ok (msg_reads ([], ps) sizes).
Proof.
  intros Hw Hps. apply (reads_sim w); [done|].
  repeat split; try done. simpl. by rewrite wire_nil.
Qed.

(** A frame that announces a length with the top bit set makes [Read] panic,
    whatever the buffer: the length becomes a negative [int64] and a slice bound. *)
Theorem ws_negative_length_panics server b0 b1 len key rest n :
  Z.land (b2z b1) 127 = 127 → length len = 8%nat → 2 ^ 63 <= be_val len → length key = 4%nat →
  frameReader_Read (FrameReader server) n ([b0; b1] ++ len ++ key ++ rest) = Panic.
Proof.
  intros Hb Hlen Hv Hkey. unfold frameReader_Read, read_header.
  change (fr_left (FrameReader server) =? 0) with true. cbv iota.
  rewrite ReadFull_part_app' by done. simpl nth. rewrite Hb. unfold read_length. simpl Z.eqb. cbv iota.
  rewrite ReadFull_part_app' by done. simpl fr_server.
  assert (i64 (be_val len) < 0) as Hneg.
  { pose proof (be_val_range len) as Hr. rewrite Hlen in Hr. unfold i64.
    replace (be_val len + 2 ^ 63) with (be_val len - 2 ^ 63 + 1 * 2 ^ 64) by lia.
    rewrite Z.mod_add, Z.mod_small by lia. lia. }
  assert (∀ x, ((if i64 (be_val len) <? Z.of_nat x then i64 (be_val len) else Z.of_nat x) <? 0) = true) as Hp.
  { intros x. rewrite (proj2 (Z.ltb_lt _ (Z.of_nat x))) by lia. by apply Z.ltb_lt. }
  destruct server; [rewrite ReadFull_part_app' by done|]; simpl fr_left; by rewrite Hp.
Qed.

(** A client that breaks off inside a frame has the bytes of that frame relayed
    still masked: [Read] returns them with the error, and [CopyBuffer] writes what it
    was given before it looks at the error. *)
Theorem ws_truncated_masked w p k n write :
  fw_server w = false → writer_ok w → payload_ok p → (0 < k < length p)%nat → (length p <= n)%nat →
  let sent := frame_hdr false (Z.of_nat (length p)) ++ fw_maskKey w ++ take k (mask (fw_maskKey w) 0 p) in
  ∃ r', frameReader_Read (FrameReader true) n sent =
        Ok (mask (fw_maskKey w) 0 (take k p), Some ErrUnexpectedEOF, r', []) ∧
    ∃ m e, CopyBuffer write 0 [(mask (fw_maskKey w) 0 (take k p), Some ErrUnexpectedEOF)] =
           Some (mask (fw_maskKey w) 0 (take k p), m, e).
Proof.
  intros Hsv Hw Hp Hk Hn sent. subst sent.
  assert (take k (mask (fw_maskKey w) 0 p) = mask (fw_maskKey w) 0 (take k p)) as Ht.
  { rewrite <- (take_drop k p) at 1. rewrite mask_app, take_app_length'; [done|].
    rewrite length_mask, length_take. lia. }
  rewrite Ht. set (m := mask (fw_maskKey w) 0 (take k p)).
  assert (length m = k) as Hm by (subst m; rewrite length_mask, length_take; lia).
  eexists. split.
  - destruct (read_length_hdr false (Z.of_nat (length p)) (fw_maskKey w ++ m)) as (h0 & h1 & ext & -> & Hl);
      [unfold payload_ok in Hp; lia|].
    unfold frameReader_Read, read_header. change (fr_left (FrameReader true) =? 0) with true. cbv iota.
    change ((h0 :: h1 :: ext) ++ ?x) with ([h0; h1] ++ ext ++ x).
    rewrite ReadFull_part_app' by done. simpl nth. rewrite Hl. simpl fr_server. cbv iota.
    rewrite ReadFull_part_app' by done. simpl fr_left.
    rewrite readLen_min, Nat.min_r, (proj2 (Z.ltb_ge _ _)), Nat2Z.id by lia.
    unfold ReadFull_part, ReadFull. rewrite (proj2 (Nat.leb_gt _ _)) by lia.
    rewrite bool_decide_eq_false_2 by (intros ->; simpl in Hm; lia). done.
  - unfold CopyBuffer. rewrite (proj2 (Nat.ltb_lt 0 (length m))) by lia.
    destruct (write 0%nat m) as [nw [e|]]; [by do 2 eexists|].
    destruct (negb _); by do 2 eexists.
Qed.
