(* ===== verification/Shadowsocks.v ===== *)
(** proxy/ss and proxy/ss/cipher/shadowaead: the AEAD streams and packets of
    shadowsocks, and the client and server on top of them.

    The AEAD itself and the key derivation are libraries: [AEAD] is what
    crypto/cipher documents, [hkdfSHA1] and [makeAEAD] are arguments.  The randomness
    of a salt is an argument too. *)
From S2P Require Import Prelude GoStd Reader ProxyConn SocksAddr.

Module Ss.

(** [cipher.AEAD]; the additional data is always nil here. *)
Record AEAD := MkAEAD {
  NonceSize : nat;
  Overhead : nat;
  Seal : list byte → list byte → list byte;
  Open : list byte → list byte → list byte + error }.

(** What crypto/cipher documents of [Seal] and [Open]. *)
Class AeadLaws (a : AEAD) := {
  open_seal : ∀ n p, Open a n (Seal a n p) = inl p;
  length_seal : ∀ n p, length (Seal a n p) = (length p + Overhead a)%nat }.

(** [increment]: a little-endian counter. *)
Fixpoint increment (b : list byte) : list byte :=
  match b with
  | [] => []
  | c :: b =>
      let c := z2b (b2z c + 1) in
      if b2z c =? 0 then c :: increment b else c :: b
  end.

(** The capacity of [pool.GetBuffer(size)]. *)
Definition buffer_cap (size : Z) : Z :=
  if (1 <=? size) && (size <=? 65536)
  then Z.shiftl 1 (if size - 1 =? 0 then 0 else Z.log2 (size - 1) + 1)
  else size.

Definition lenSize : nat := 2.
Definition maxPayload : nat := Z.to_nat 16383.
Definition bufSize : Z := Z.shiftl 17 10.
Definition bufCap : nat := Z.to_nat (buffer_cap bufSize).

Definition new_nonce (a : AEAD) : list byte := replicate (NonceSize a) x00.

(** ** Writer *)

(** The [nw] of a round that has [p] left to write. *)
Definition next_chunk (p : list byte) : nat := if (length p <? maxPayload)%nat then length p else maxPayload.

(** The loop of [writer.Write]: [nonce] is [w.nonce[:NonceSize]], [werr i] the answer
    of the connection to its [i]-th write.  The buffers offered to the connection,
    the result, the nonce. *)
Fixpoint write_loop (a : AEAD) (werr : nat → option error) (fuel i : nat) (nonce p : list byte)
    : outcome (list (list byte) * Z * option error * list byte) :=
  match fuel, p with
  | _, [] => Ok ([], 0, None, nonce)
  | O, _ => OutOfFuel
  | S fuel, _ =>
      let nw := next_chunk p in
      if (bufCap <? lenSize + Overhead a + nw + Overhead a)%nat then Panic
      else
        let out := Seal a nonce (be_bytes 2 (u16 (Z.of_nat nw))) ++ Seal a (increment nonce) (take nw p) in
        let nonce := increment (increment nonce) in
        match werr i with
        | Some e => Ok ([out], 0, Some e, nonce)
        | None =>
            match write_loop a werr fuel (S i) nonce (drop nw p) with
            | Ok (outs, n, e, nonce) => Ok (out :: outs, Z.of_nat nw + n, e, nonce)
            | x => x
            end
        end
  end.

Definition writer_Write (a : AEAD) (werr : nat → option error) (i : nat) (nonce p : list byte) :=
  write_loop a werr (length p) i nonce p.

(** ** Reader *)

Record reader := MkReader {
  r_nonce : list byte;
  r_buf : option (list byte);
  r_offset : nat }.

Definition newReader (a : AEAD) : reader := MkReader (new_nonce a) None 0.

(** [reader.read] into a slice of capacity [capp]: the payload of the next chunk or
    an error, the nonce and the rest of the stream. *)
Definition reader_read (a : AEAD) (nonce : list byte) (capp : nat) (s : list byte)
    : outcome ((list byte + error) * list byte * list byte) :=
  if (capp <? lenSize + Overhead a)%nat then Panic
  else
    match ReadFull (lenSize + Overhead a) s with
    | Ok (c, s) =>
        let opened := Open a nonce c in
        let nonce := increment nonce in
        match opened with
        | inr e => Ok (inr e, nonce, s)
        | inl l =>
            let size := Z.to_nat (be_val (take lenSize l)) in
            if (capp <? size + Overhead a)%nat then Panic
            else
              match ReadFull (size + Overhead a) s with
              | Ok (c, s) => Ok (Open a nonce c, increment nonce, s)
              | Err e => Ok (inr e, nonce, [])
              | _ => Panic
              end
        end
    | Err e => Ok (inr e, nonce, [])
    | _ => Panic
    end.

(** [copy(p, r.buf[r.offset:])] and what follows it. *)
Definition reader_copy (r : reader) (buf : list byte) (n : nat) : list byte * reader :=
  let b := take n (drop (r_offset r) buf) in
  let offset := (r_offset r + length b)%nat in
  (b, MkReader (r_nonce r) (if bool_decide (offset = length buf) then None else Some buf) offset).

(** [reader.Read] into a slice of length [n] and capacity [capp]. *)
Definition reader_Read (a : AEAD) (r : reader) (n capp : nat) (s : list byte)
    : outcome (list byte * option error * reader * list byte) :=
  match r_buf r with
  | Some buf => let '(b, r) := reader_copy r buf n in Ok (b, None, r, s)
  | None =>
      let direct := (maxPayload + Overhead a <=? n)%nat in
      match reader_read a (r_nonce r) (if direct then capp else bufCap) s with
      | Ok (inr e, nonce, s) => Ok ([], Some e, MkReader nonce None (r_offset r), s)
      | Ok (inl d, nonce, s) =>
          if direct then Ok (d, None, MkReader nonce None (r_offset r), s)
          else let '(b, r) := reader_copy (MkReader nonce (Some d) 0) d n in Ok (b, None, r, s)
      | Err e => Err e
      | Panic => Panic
      | OutOfFuel => OutOfFuel
      end
  end.

(** ** Connections and packets *)

Section Cipher.
Context (hkdfSHA1 : list byte → list byte → list byte → nat → list byte).
Context (makeAEAD : list byte → AEAD + error).

Definition KeySize (psk : list byte) : nat := length psk.
Definition SaltSize (psk : list byte) : nat := if (16 <? KeySize psk)%nat then KeySize psk else 16.
Definition Encrypter (psk salt : list byte) : AEAD + error :=
  makeAEAD (hkdfSHA1 psk salt (lit "ss-subkey") (KeySize psk)).
Definition Decrypter (psk salt : list byte) : AEAD + error :=
  makeAEAD (hkdfSHA1 psk salt (lit "ss-subkey") (KeySize psk)).

Record streamConn := MkStreamConn {
  sc_r : option (AEAD * reader);
  sc_w : option (AEAD * list byte) }.
Definition NewConn : streamConn := MkStreamConn None None.

(** [initWriter] with the salt [rand] gives ([inr]: the error of the random
    source), its write of the salt answered by [werr 0]. *)
Definition initWriter (psk : list byte) (rand : list byte + error) (werr : nat → option error)
    : list (list byte) * (AEAD + error) :=
  match rand with
  | inr e => ([], inr e)
  | inl salt =>
      match Encrypter psk salt with
      | inr e => ([], inr e)
      | inl a => match werr 0%nat with Some e => ([salt], inr e) | None => ([salt], inl a) end
      end
  end.

(** [streamConn.Write]. *)
Definition conn_Write (psk : list byte) (rand : list byte + error) (werr : nat → option error)
    (c : streamConn) (p : list byte) : outcome (list (list byte) * Z * option error * streamConn) :=
  let '(outs, w) :=
    match sc_w c with
    | Some aw => ([], inl aw)
    | None =>
        match initWriter psk rand werr with
        | (outs, inl a) => (outs, inl (a, new_nonce a))
        | (outs, inr e) => (outs, inr e)
        end
    end in
  match w with
  | inr e => Ok (outs, 0, Some e, c)
  | inl (a, nonce) =>
      match writer_Write a werr (length outs) nonce p with
      | Ok (outs', n, e, nonce) => Ok (outs ++ outs', n, e, MkStreamConn (sc_r c) (Some (a, nonce)))
      | Err e => Err e
      | Panic => Panic
      | OutOfFuel => OutOfFuel
      end
  end.

(** [initReader]. *)
Definition initReader (psk : list byte) (s : list byte) : (AEAD + error) * list byte :=
  match ReadFull (SaltSize psk) s with
  | Ok (salt, s) => (Decrypter psk salt, s)
  | Err e => (inr e, [])
  | _ => (inr EOF, s)
  end.

(** [streamConn.Read]. *)
Definition conn_Read (psk : list byte) (c : streamConn) (n capp : nat) (s : list byte)
    : outcome (list byte * option error * streamConn * list byte) :=
  let '(r, s) :=
    match sc_r c with
    | Some ar => (inl ar, s)
    | None =>
        match initReader psk s with
        | (inl a, s) => (inl (a, newReader a), s)
        | (inr e, s) => (inr e, s)
        end
    end in
  match r with
  | inr e => Ok ([], Some e, c, s)
  | inl (a, r) =>
      match reader_Read a r n capp s with
      | Ok (b, e, r, s) => Ok (b, e, MkStreamConn (Some (a, r)) (sc_w c), s)
      | Err e => Err e
      | Panic => Panic
      | OutOfFuel => OutOfFuel
      end
  end.

(** A sequence of writes on a connection that takes them all: its bytes. *)
Fixpoint conn_writes (psk salt : list byte) (c : streamConn) (ps : list (list byte)) : outcome (list byte) :=
  match ps with
  | [] => Ok []
  | p :: ps =>
      match conn_Write psk (inl salt) (λ _, None) c p with
      | Ok (outs, _, None, c) =>
          match conn_writes psk salt c ps with
          | Ok out => Ok (concat outs ++ out)
          | x => x
          end
      | Ok (_, _, Some e, _) => Err e
      | Err e => Err e
      | Panic => Panic
      | OutOfFuel => OutOfFuel
      end
  end.

(** A sequence of reads into slices of the given lengths and capacities. *)
Fixpoint conn_reads (psk : list byte) (c : streamConn) (bufs : list (nat * nat)) (s : list byte)
    : outcome (list (list byte * option error)) :=
  match bufs with
  | [] => Ok []
  | (n, capp) :: bufs =>
      match conn_Read psk c n capp s with
      | Ok (b, e, c, s) =>
          match conn_reads psk c bufs s with
          | Ok l => Ok ((b, e) :: l)
          | x => x
          end
      | Err e => Err e
      | Panic => Panic
      | OutOfFuel => OutOfFuel
      end
  end.

Definition ErrShortPacket : error := "short packet".
Definition ErrShortBuffer : error := "short buffer".

(** [Pack] into a slice of length and capacity [dst]. *)
Definition Pack (psk : list byte) (dst : nat) (plaintext : list byte) (rand : list byte + error)
    : outcome (list byte) :=
  if (dst <? SaltSize psk)%nat then Panic
  else
    match rand with
    | inr e => Err e
    | inl salt =>
        match Encrypter psk salt with
        | inr e => Err e
        | inl a =>
            if (dst <? SaltSize psk + length plaintext + Overhead a)%nat then Err ErrShortBuffer
            else Ok (salt ++ Seal a (new_nonce a) plaintext)
        end
    end.

(** [Unpack] into a slice of length [dst]. *)
Definition Unpack (psk : list byte) (dst : nat) (pkt : list byte) : outcome (list byte) :=
  if (length pkt <? SaltSize psk)%nat then Err ErrShortPacket
  else
    match Decrypter psk (take (SaltSize psk) pkt) with
    | inr e => Err e
    | inl a =>
        if (length pkt <? SaltSize psk + Overhead a)%nat then Err ErrShortPacket
        else if (SaltSize psk + dst + Overhead a <? length pkt)%nat then Err ErrShortBuffer
        else match Open a (new_nonce a) (drop (SaltSize psk) pkt) with
             | inl p => Ok p
             | inr e => Err e
             end
    end.

Definition maxPacketSize : nat := Z.to_nat (64 * 1024).

(** [packetConn.WriteTo]: the packet it sends. *)
Definition packet_WriteTo (psk b : list byte) (rand : list byte + error) : outcome (list byte) :=
  Pack psk maxPacketSize b rand.

(** [packetConn.ReadFrom] into a slice of length [n], for a packet [pkt]; a packet
    that is longer than the slice is cut by the socket. *)
Definition packet_ReadFrom (psk : list byte) (n : nat) (pkt : list byte) : outcome (list byte) :=
  if (n <? SaltSize psk)%nat then Panic
  else match Unpack psk (n - SaltSize psk) (take n pkt) with
       | Ok bb => Ok (take n bb)
       | x => x
       end.
End Cipher.

(** ** Client and server *)

(** What [Dial] writes first. *)
Definition ss_header (addr : list byte) : option (list byte) := socks_ParseAddr addr.

Definition ss_target : rd (bool * list byte) :=
  (tgt <- ReadAddr;;
   match Addr_String tgt with
   | Ok t => rd_ret (false, t)
   | _ => λ r, (Panic, r)
   end)%rd.

Section Serve.
Context {W D : Type} `{!ProxyDialer W D}.
Context (dial : D → network → list byte → option error) (relay : option error).

(** [Serve]: what the connection decrypts to; a request that can not be read is
    swallowed. *)
Definition ss_Serve (saddr input : list byte) (w : W) : outcome (action D * W) :=
  serve_header dial relay ss_target saddr [] input w.
End Serve.
End Ss.
