(* ===== verification/ShadowsocksProofs.v ===== *)
(** proxy/ss: nonces never repeat, a stream is read back as it was written, a peer
    that announces too large a chunk, packets, and the request of a client. *)
From S2P Require Import Prelude GoStd Reader ProxyConn SocksAddr Shadowsocks.
Import Ss.

(** ** Nonces *)

Lemma length_increment b : length (increment b) = length b.
Proof. induction b as [|c b IH]; [done|]. simpl. case_match; simpl; by rewrite ?IH. Qed.

Lemma le_bytes_S n z : le_bytes (S n) z = z2b z :: le_bytes n (z / 256).
Proof. done. Qed.
Lemma le_val_cons c b : le_val (c :: b) = b2z c + 256 * le_val b.
Proof. done. Qed.

Lemma le_val_inj l l' : length l = length l' → le_val l = le_val l' → l = l'.
Proof. intros Hl Hv. by rewrite <- (le_bytes_val l), Hl, Hv, le_bytes_val. Qed.

Lemma le_val_zeros k : le_val (replicate k x00) = 0.
Proof. induction k as [|k IH]; [done|]. simpl replicate. rewrite le_val_cons, IH. done. Qed.

Lemma increment_one b : increment b = le_bytes (length b) (le_val b + 1).
Proof.
  induction b as [|c b IH]; [done|].
  simpl increment. simpl length. rewrite le_val_cons, le_bytes_S.
  pose proof (b2z_range c) as Hc. rewrite b2z_z2b.
  replace (b2z c + 256 * le_val b + 1) with (b2z c + 1 + le_val b * 256) by lia.
  rewrite Z.div_add by lia.
  assert (z2b (b2z c + 1 + le_val b * 256) = z2b (b2z c + 1)) as ->
    by (apply b2z_inj; rewrite !b2z_z2b, Z.mod_add by lia; done).
  destruct (decide (b2z c = 255)) as [H255|Hn].
  - rewrite H255, IH. change ((255 + 1) mod 256 =? 0) with true. cbv iota. do 2 f_equal.
    change ((255 + 1) / 256) with 1. lia.
  - rewrite Z.mod_small, (proj2 (Z.eqb_neq _ _)), Z.div_small, Z.add_0_l, le_bytes_val by lia. done.
Qed.

(** [k] calls of [increment] are the addition of [k] to the little-endian number,
    modulo its width. *)
Lemma increment_iter k b : Nat.iter k increment b = le_bytes (length b) (le_val b + Z.of_nat k).
Proof.
  induction k as [|k IH]; simpl Nat.iter; [by rewrite Z.add_0_r, le_bytes_val|].
  rewrite IH, increment_one, length_le_bytes, le_val_bytes.
  apply le_val_inj; [by rewrite !length_le_bytes|].
  rewrite !le_val_bytes, Zplus_mod_idemp_l. f_equal. lia.
Qed.

(** ** What is sealed *)

Lemma maxPayload_val : Z.of_nat maxPayload = 16383.
Proof. unfold maxPayload. lia. Qed.
Lemma bufCap_val : Z.of_nat bufCap = 32768.
Proof. unfold bufCap. change (buffer_cap bufSize) with 32768. lia. Qed.
#[local] Opaque maxPayload bufCap.

Lemma next_chunk_bounds p : p ≠ [] → (0 < next_chunk p <= maxPayload ∧ next_chunk p <= length p)%nat.
Proof.
  intros Hp. assert (0 < length p)%nat by (destruct p; [done|simpl; lia]).
  pose proof maxPayload_val. unfold next_chunk.
  destruct (Nat.ltb_spec (length p) maxPayload); lia.
Qed.

(** The overheads for which a chunk fits in the buffer of the code. *)
Definition overhead_ok (a : AEAD) : Prop := Z.of_nat (Overhead a) <= 8000.

(** The chunks of a write. *)
Fixpoint chunks_of (fuel : nat) (p : list byte) : list (list byte) :=
  match fuel, p with
  | _, [] => []
  | O, _ => []
  | S fuel, _ => take (next_chunk p) p :: chunks_of fuel (drop (next_chunk p) p)
  end.
Definition chunks (p : list byte) : list (list byte) := chunks_of (length p) p.

(** The calls of [Seal] for a list of chunks: nonces and plaintexts. *)
Fixpoint seal_log (nonce : list byte) (cs : list (list byte)) : list (list byte * list byte) :=
  match cs with
  | [] => []
  | c :: cs =>
      (nonce, be_bytes 2 (Z.of_nat (length c))) :: (increment nonce, c) ::
      seal_log (increment (increment nonce)) cs
  end.
Definition sealed (a : AEAD) (log : list (list byte * list byte)) : list byte :=
  concat (map (λ e, Seal a e.1 e.2) log).

Lemma sealed_app a l1 l2 : sealed a (l1 ++ l2) = sealed a l1 ++ sealed a l2.
Proof. unfold sealed. by rewrite map_app, concat_app. Qed.

Definition after (k : nat) (nonce : list byte) : list byte := Nat.iter (2 * k) increment nonce.
Lemma after_S k nonce : after (S k) nonce = after k (increment (increment nonce)).
Proof.
  unfold after. replace (2 * S k)%nat with (2 * k + 2)%nat by lia. by rewrite Nat.iter_add.
Qed.
Lemma after_add k j nonce : after (k + j) nonce = after j (after k nonce).
Proof. unfold after. replace (2 * (k + j))%nat with (2 * j + 2 * k)%nat by lia. by rewrite Nat.iter_add. Qed.

Lemma seal_log_app nonce c1 c2 :
  seal_log nonce (c1 ++ c2) = seal_log nonce c1 ++ seal_log (after (length c1) nonce) c2.
Proof.
  revert nonce. induction c1 as [|c c1 IH]; intros nonce; [done|]. simpl. by rewrite IH, after_S.
Qed.

Lemma seal_log_nonces nonce cs :
  map fst (seal_log nonce cs) = map (λ i, Nat.iter i increment nonce) (seq 0 (2 * length cs)).
Proof.
  revert nonce. induction cs as [|c cs IH]; intros nonce; [done|].
  replace (2 * length (c :: cs))%nat with (S (S (2 * length cs))) by (simpl; lia).
  simpl seal_log. simpl map. rewrite IH. simpl. do 2 f_equal.
  rewrite <- !seq_shift, !map_map.
  apply map_ext. intros i. rewrite !Nat.iter_succ_r. done.
Qed.

Definition chunk_ok (c : list byte) : Prop := (length c <= maxPayload)%nat.

Lemma chunks_of_ok fuel p : Forall chunk_ok (chunks_of fuel p).
Proof.
  revert p. induction fuel as [|fuel IH]; intros [|b p]; simpl; try constructor; [|apply IH].
  unfold chunk_ok. rewrite length_take. destruct (next_chunk_bounds (b :: p)); [done|lia].
Qed.

Lemma concat_chunks_of fuel p : (length p <= fuel)%nat → concat (chunks_of fuel p) = p.
Proof.
  revert p. induction fuel as [|fuel IH]; intros [|b p] Hl; simpl in *; try done; [lia|].
  rewrite IH; [apply take_drop|]. rewrite length_drop.
  destruct (next_chunk_bounds (b :: p)); [done|simpl in *; lia].
Qed.

Lemma write_loop_log a fuel i nonce p :
  overhead_ok a → (length p <= fuel)%nat →
  ∃ outs, write_loop a (λ _, None) fuel i nonce p =
    Ok (outs, Z.of_nat (length p), None, after (length (chunks_of fuel p)) nonce) ∧
    concat outs = sealed a (seal_log nonce (chunks_of fuel p)).
Proof.
  intros Ho. revert i nonce p. induction fuel as [|fuel IH]; intros i nonce p Hl.
  { destruct p; [|simpl in Hl; lia]. by exists []. }
  destruct p as [|b p]; [by exists []|].
  pose proof maxPayload_val. pose proof bufCap_val. unfold overhead_ok in Ho.
  destruct (next_chunk_bounds (b :: p)) as [Hnw Hnl]; [done|].
  simpl write_loop. simpl chunks_of. set (q := b :: p) in *. set (nw := next_chunk q) in *.
  rewrite (proj2 (Nat.ltb_ge _ _)) by (unfold lenSize; lia).
  destruct (IH (S i) (increment (increment nonce)) (drop nw q)) as (outs & -> & Ho');
    [rewrite length_drop; lia|].
  eexists. split.
  - simpl length. rewrite after_S, length_drop.
    replace (Z.of_nat nw + Z.of_nat (length q - nw)) with (Z.of_nat (length q)) by lia. reflexivity.
  - simpl concat. rewrite Ho'. unfold sealed. simpl. rewrite <- app_assoc.
    rewrite length_take, Nat.min_l, u16_small by lia. done.
Qed.

Definition all_chunks (ps : list (list byte)) : list (list byte) := concat (map chunks ps).

Lemma all_chunks_ok ps : Forall chunk_ok (all_chunks ps).
Proof. induction ps as [|p ps IH]; [constructor|]. apply Forall_app. split; [apply chunks_of_ok|done]. Qed.
Lemma concat_all_chunks ps : concat (all_chunks ps) = concat ps.
Proof.
  induction ps as [|p ps IH]; [done|]. change (all_chunks (p :: ps)) with (chunks p ++ all_chunks ps).
  rewrite concat_app, IH. unfold chunks. simpl. by rewrite concat_chunks_of.
Qed.

(** ** A stream and its reader *)

Section Stream.
Context (hkdfSHA1 : list byte → list byte → list byte → nat → list byte) (makeAEAD : list byte → AEAD + error).
#[local] Abbreviation Encrypter := (Encrypter hkdfSHA1 makeAEAD).
#[local] Abbreviation conn_writes := (conn_writes hkdfSHA1 makeAEAD).
#[local] Abbreviation conn_reads := (conn_reads hkdfSHA1 makeAEAD).

Lemma conn_writes_going psk salt a r nonce ps :
  overhead_ok a →
  conn_writes psk salt (MkStreamConn r (Some (a, nonce))) ps = Ok (sealed a (seal_log nonce (all_chunks ps))).
Proof.
  intros Ho. revert nonce. induction ps as [|p ps IH]; intros nonce; [done|].
  simpl. unfold conn_Write, writer_Write. simpl sc_w. cbv iota.
  destruct (write_loop_log a (length p) (length (@nil (list byte))) nonce p) as (outs & -> & Hout); [done..|].
  simpl. rewrite IH, Hout. change (all_chunks (p :: ps)) with (chunks p ++ all_chunks ps).
  by rewrite seal_log_app, sealed_app.
Qed.

Lemma conn_writes_new psk salt a ps :
  Encrypter psk salt = inl a → overhead_ok a → ps ≠ [] →
  conn_writes psk salt NewConn ps = Ok (salt ++ sealed a (seal_log (new_nonce a) (all_chunks ps))).
Proof.
  intros He Ho Hps. destruct ps as [|p ps]; [done|]. simpl. unfold conn_Write, initWriter. simpl sc_w. cbv iota.
  rewrite He. cbv iota beta. unfold writer_Write.
  destruct (write_loop_log a (length p) (length [salt]) (new_nonce a) p) as (outs & -> & Hout); [done..|].
  rewrite conn_writes_going by done. simpl. rewrite Hout.
  change (all_chunks (p :: ps)) with (chunks p ++ all_chunks ps).
  by rewrite seal_log_app, sealed_app, app_assoc.
Qed.

(** C35: No two calls of [Seal] on a connection use the same nonce: what a connection
    sends is its salt and sealed plaintexts whose nonces are the numbers from 0 up, as
    long as the counter has not gone round. *)
Theorem ss_nonces_unique psk salt a ps :
  Encrypter psk salt = inl a → overhead_ok a → ps ≠ [] →
  2 * Z.of_nat (length (all_chunks ps)) <= 256 ^ Z.of_nat (NonceSize a) →
  ∃ log, conn_writes psk salt NewConn ps = Ok (salt ++ concat (map (λ e, Seal a e.1 e.2) log)) ∧
    map fst log = map (λ i, le_bytes (NonceSize a) (Z.of_nat i)) (seq 0 (2 * length (all_chunks ps))) ∧
    NoDup (map fst log).
Proof.
  intros He Ho Hps Hb. exists (seal_log (new_nonce a) (all_chunks ps)).
  assert (map fst (seal_log (new_nonce a) (all_chunks ps)) =
          map (λ i, le_bytes (NonceSize a) (Z.of_nat i)) (seq 0 (2 * length (all_chunks ps)))) as Hn.
  { rewrite seal_log_nonces. apply map_ext. intros i. rewrite increment_iter.
    unfold new_nonce. by rewrite length_replicate, le_val_zeros. }
  split; [by apply conn_writes_new|]. split; [done|]. rewrite Hn.
  apply (NoDup_fmap_2_strong (λ i, le_bytes (NonceSize a) (Z.of_nat i)) (seq 0 _)); [|apply NoDup_seq].
  intros i j [_ Hi]%elem_of_seq [_ Hj]%elem_of_seq Heq%(f_equal le_val). rewrite !le_val_bytes, !Z.mod_small in Heq by lia. lia.
Qed.

(** The reader and its stream stand for the queue [q] of chunks. *)
Definition rd_sim (a : AEAD) (r : reader) (s : list byte) (q : list byte * list (list byte)) : Prop :=
  (match r_buf r with None => q.1 = [] | Some buf => q.1 = drop (r_offset r) buf ∧ (r_offset r < length buf)%nat end) ∧
  s = sealed a (seal_log (r_nonce r) q.2) ∧ Forall chunk_ok q.2.

(** [copy] out of the buffered chunk. *)
Lemma reader_copy_sim a nonce buf off n s ps b r' :
  (off <= length buf)%nat → s = sealed a (seal_log nonce ps) → Forall chunk_ok ps →
  reader_copy (MkReader nonce (Some buf) off) buf n = (b, r') →
  b = take n (drop off buf) ∧ rd_sim a r' s (drop n (drop off buf), ps).
Proof.
  unfold reader_copy. simpl. intros Hoff -> Hps [= <- <-]. split; [done|].
  unfold rd_sim. simpl. rewrite drop_drop, length_take, length_drop. case_bool_decide as Hc; simpl; (split; [|done]).
  - apply drop_ge. lia.
  - rewrite Nat.min_l by lia. split; [done|lia].
Qed.

(** The next chunk of the stream. *)
Lemma reader_read_chunk `{!AeadLaws a} nonce capp c cs :
  overhead_ok a → chunk_ok c → (maxPayload + Overhead a <= capp)%nat →
  reader_read a nonce capp (sealed a (seal_log nonce (c :: cs))) =
  Ok (inl c, increment (increment nonce), sealed a (seal_log (increment (increment nonce)) cs)).
Proof.
  intros Ho Hc Hcap. unfold reader_read, overhead_ok, chunk_ok in *. pose proof maxPayload_val.
  rewrite (proj2 (Nat.ltb_ge _ _)) by (unfold lenSize; lia).
  unfold sealed. simpl map. simpl concat.
  rewrite ReadFull_exact, open_seal by (by rewrite length_seal, length_be_bytes).
  rewrite take_ge by (rewrite length_be_bytes; unfold lenSize; lia). rewrite be16_id, Nat2Z.id by lia.
  rewrite (proj2 (Nat.ltb_ge _ _)) by lia.
  by rewrite ReadFull_exact, open_seal by apply length_seal.
Qed.

Lemma reader_read_end a nonce capp :
  overhead_ok a → (lenSize + Overhead a <= capp)%nat → reader_read a nonce capp [] = Ok (inr EOF, nonce, []).
Proof.
  intros Ho Hcap. unfold reader_read. rewrite (proj2 (Nat.ltb_ge _ _)) by lia. done.
Qed.

Lemma reader_read_step `{!AeadLaws a} r n capp s q :
  overhead_ok a → (n <= capp)%nat → rd_sim a r s q →
  ∃ r' s', reader_Read a r n capp s = Ok ((msg_Read n q).1, r', s') ∧ rd_sim a r' s' (msg_Read n q).2.
Proof.
  intros Ho Hn (Hbuf & -> & Hcs). pose proof maxPayload_val. pose proof bufCap_val. unfold overhead_ok in Ho.
  destruct r as [nonce buf off], q as [cur cs]. cbn [r_buf r_offset r_nonce fst snd] in *. unfold reader_Read. cbn [r_buf].
  destruct buf as [buf|].
  - destruct Hbuf as [-> Hoff].
    assert (msg_Read n (drop off buf, cs) = (take n (drop off buf), None, (drop n (drop off buf), cs))) as ->.
    { destruct (drop off buf) eqn:E; [|done]. apply (f_equal length) in E. rewrite length_drop in E. simpl in E. lia. }
    destruct (reader_copy _ buf n) as [b r'] eqn:Ec.
    eapply (reader_copy_sim a nonce buf off n) in Ec as [-> Hs]; [|lia|reflexivity|exact Hcs].
    do 2 eexists. split; [reflexivity|exact Hs].
  - subst cur. cbv iota beta. simpl r_nonce. simpl r_offset.
    assert (maxPayload + Overhead a <= if (maxPayload + Overhead a <=? n)%nat then capp else bufCap)%nat as Hcap
      by (destruct (Nat.leb_spec (maxPayload + Overhead a) n); lia).
    destruct cs as [|c cs].
    + rewrite reader_read_end by (unfold overhead_ok, lenSize; lia).
      exists (MkReader nonce None off), []. split; [reflexivity|]. split; [reflexivity|]. by split.
    + apply Forall_cons in Hcs as [Hc Hcs]. rewrite reader_read_chunk by done. cbv iota beta. simpl msg_Read.
      destruct (Nat.leb_spec (maxPayload + Overhead a) n) as [Hd|Hd].
      * unfold chunk_ok in Hc. rewrite take_ge, drop_ge by lia.
        eexists (MkReader _ None off), _. split; [reflexivity|]. split; [reflexivity|]. by split.
      * destruct (reader_copy _ c n) as [b r'] eqn:Ec.
        eapply (reader_copy_sim a (increment (increment nonce)) c 0 n) in Ec as [-> Hs]; [|lia|reflexivity|exact Hcs].
        rewrite drop_0 in *. do 2 eexists. split; [reflexivity|exact Hs].
Qed.

Definition bufs_ok (bufs : list (nat * nat)) : Prop := Forall (λ b, b.1 <= b.2)%nat bufs.

Lemma conn_reads_going `{!AeadLaws a} psk r w s q bufs :
  overhead_ok a → bufs_ok bufs → rd_sim a r s q →
  conn_reads psk (MkStreamConn (Some (a, r)) w) bufs s = Ok (msg_reads q (map fst bufs)).
Proof.
  intros Ho Hb. revert r s q. induction bufs as [|[n capp] bufs IH]; intros r s q Hs; [done|].
  apply Forall_cons in Hb as [Hn Hb]. simpl in *. unfold conn_Read. simpl.
  destruct (reader_read_step r n capp s q Ho Hn Hs) as (r' & s' & -> & Hs').
  destruct (msg_Read n q) as [[b e] q']. simpl in *. by rewrite (IH Hb _ _ _ Hs').
Qed.

(** Reading a connection with buffers of any sizes gives back the bytes that were
    written, in order, a chunk of at most 16383 bytes at a time, and then [io.EOF]:
    the reader is the queue of the chunks written. *)
Lemma ss_stream_refines psk salt a ps bufs :
  Encrypter psk salt = inl a → AeadLaws a → overhead_ok a → length salt = SaltSize psk → ps ≠ [] →
  bufs_ok bufs →
  ∃ out, conn_writes psk salt NewConn ps = Ok out ∧
    conn_reads psk NewConn bufs out = Ok (msg_reads ([], all_chunks ps) (map fst bufs)) ∧
    queue_bytes ([], all_chunks ps) = concat ps ∧ Forall (λ c, length c <= maxPayload)%nat (all_chunks ps).
Proof.
  intros He Hl Ho Hsalt Hps Hb. eexists. split; [by apply conn_writes_new|].
  split; [|split; [apply concat_all_chunks|apply all_chunks_ok]].
  destruct bufs as [|[n capp] bufs]; [done|].
  assert (rd_sim a (newReader a) (sealed a (seal_log (new_nonce a) (all_chunks ps))) ([], all_chunks ps)) as Hs
    by (split; [done|]; split; [done|apply all_chunks_ok]).
  pose proof (conn_reads_going psk (newReader a) None _ _ _ Ho Hb Hs) as Hr. rewrite <- Hr.
  simpl. unfold conn_Read, initReader. simpl sc_r. cbv iota.
  rewrite ReadFull_exact by done. change (Ss.Decrypter hkdfSHA1 makeAEAD psk salt) with (Encrypter psk salt).
  by rewrite He.
Qed.

(** A peer that holds the key and announces a chunk that does not fit in the
    buffer of the reader makes [Read] panic: the length is not cut to 16383. *)
Theorem ss_big_chunk_panics psk salt a l rest n capp :
  Encrypter psk salt = inl a → AeadLaws a → overhead_ok a → length salt = SaltSize psk →
  32768 < l + Z.of_nat (Overhead a) < 65536 → (n < maxPayload + Overhead a)%nat →
  conn_Read hkdfSHA1 makeAEAD psk NewConn n capp (salt ++ Seal a (new_nonce a) (be_bytes 2 l) ++ rest) = Panic.
Proof.
  intros He Hlaws Ho Hsalt Hl Hn. unfold conn_Read, initReader. simpl sc_r. cbv iota.
  rewrite ReadFull_exact by done. change (Ss.Decrypter hkdfSHA1 makeAEAD psk salt) with (Encrypter psk salt).
  rewrite He. unfold reader_Read. simpl r_buf. cbv iota.
  rewrite (proj2 (Nat.leb_gt _ _)) by done. unfold reader_read, overhead_ok in *.
  pose proof bufCap_val. rewrite (proj2 (Nat.ltb_ge bufCap _)) by (unfold lenSize; lia). simpl r_nonce.
  rewrite ReadFull_exact, open_seal by (by rewrite length_seal, length_be_bytes).
  rewrite take_ge by (rewrite length_be_bytes; unfold lenSize; lia). rewrite be16_id by lia.
  by rewrite (proj2 (Nat.ltb_lt bufCap _)) by lia.
Qed.

(** A packet that is not too long is read back by a buffer that can hold it. *)
Lemma ss_packet_roundtrip psk salt a b n :
  Encrypter psk salt = inl a → AeadLaws a → length salt = SaltSize psk →
  (length b + SaltSize psk + Overhead a <= n)%nat → Z.of_nat n <= 65536 →
  ∃ pkt, packet_WriteTo hkdfSHA1 makeAEAD psk b (inl salt) = Ok pkt ∧
    packet_ReadFrom hkdfSHA1 makeAEAD psk n pkt = Ok b.
Proof.
  intros He Hl Hsalt Hn Hn'. exists (salt ++ Seal a (new_nonce a) b).
  unfold packet_WriteTo, Pack, packet_ReadFrom, Unpack. rewrite He.
  assert (length (salt ++ Seal a (new_nonce a) b) = length b + SaltSize psk + Overhead a)%nat as Hlen
    by (rewrite length_app, length_seal; lia).
  rewrite (take_ge (salt ++ _)) by lia.
  assert (maxPacketSize = Z.to_nat 65536) as -> by done.
  rewrite !(proj2 (Nat.ltb_ge _ _)) by lia. split; [done|].
  rewrite take_app_length' by done. change (Ss.Decrypter hkdfSHA1 makeAEAD psk salt) with (Encrypter psk salt).
  rewrite He. rewrite !(proj2 (Nat.ltb_ge _ _)) by lia.
  rewrite drop_app_length', open_seal by done. by rewrite take_ge by lia.
Qed.
(** C10: From the client's [Dial] to the server's [Serve]: what the client writes, the target first,
    is read by the server as the queue of its chunks, whatever its buffers; and serving those
    bytes picks a dialer for the target the client named and relays exactly what the client
    wrote after it. *)
Theorem ss_request {W D} `{!ProxyDialer W D} dial relay psk salt a addr t target ps bufs saddr (w : W) :
  Encrypter psk salt = inl a → AeadLaws a → overhead_ok a → length salt = SaltSize psk → bufs_ok bufs →
  ss_header addr = Some t → Addr_String t = Ok target →
  ∃ out, conn_writes psk salt NewConn (t :: ps) = Ok out ∧
    conn_reads psk NewConn bufs out = Ok (msg_reads ([], all_chunks (t :: ps)) (map fst bufs)) ∧
    ss_Serve dial relay saddr (concat (all_chunks (t :: ps))) w =
    Ok (serve_target dial relay saddr false target (concat ps) w).
Proof.
  intros He Hl Ho Hsalt Hb Ht Hs.
  destruct (ss_stream_refines psk salt a (t :: ps) bufs) as (out & Hout & Hr & Hq & _); [done..|].
  exists out. split; [done|]. split; [done|]. rewrite concat_all_chunks. unfold ss_Serve.
  apply (serve_header_ok dial relay ss_target saddr [] t false target).
  unfold ss_target. rewrite <- (app_nil_r t).
  eapply exact_bind; [apply ReadAddr_wf; by apply (ParseAddr_socks_wf addr)|]. cbv beta. rewrite Hs. apply exact_ret.
Qed.
End Stream.
