(* ===== verification/TunnelWitness.v ===== *)
(** Concrete runs of the theorems on WebSocket frames and on shadowsocks. *)
From S2P Require Import Prelude GoStd Reader ProxyConn SocksAddr WsFrame WsProofs Shadowsocks ShadowsocksProofs.
Import Ss.

(** ** WebSocket *)

Definition client_w : frameWriter := FrameWriter false 305419896.

Lemma ws_stream_refines_witness :
  frame_reads (FrameReader true) [2%nat; 9%nat; 5%nat; 5%nat]
    (concat (map (frame_out client_w) [lit "hello"; []; lit "x"])) =
  Ok [(lit "he", None); (lit "llo", None); ([], None); (lit "x", None)].
Proof.
  apply (ws_stream_refines client_w [lit "hello"; []; lit "x"] [2; 9; 5; 5]%nat); [done|].
  repeat (apply Forall_cons; split; [by vm_compute|]). constructor.
Defined.

Definition neg_len : list byte := x80 :: replicate 7 x00.

Lemma ws_negative_length_panics_witness :
  frameReader_Read (FrameReader true) 100 ([x82; xff] ++ neg_len ++ replicate 4 x00 ++ []) = Panic.
Proof.
  apply (ws_negative_length_panics true x82 xff neg_len (replicate 4 x00) [] 100); vm_compute; done.
Defined.

Lemma ws_truncated_masked_witness :
  ∃ r', frameReader_Read (FrameReader true) 10
          (frame_hdr false 5 ++ fw_maskKey client_w ++ take 2 (mask (fw_maskKey client_w) 0 (lit "hello"))) =
        Ok ([x10; x33], Some ErrUnexpectedEOF, r', []) ∧
    ∃ m e, CopyBuffer (λ _ b, (Z.of_nat (length b), None)) 0 [([x10; x33], Some ErrUnexpectedEOF)] =
           Some ([x10; x33], m, e).
Proof.
  apply (ws_truncated_masked client_w (lit "hello") 2 10 (λ _ b, (Z.of_nat (length b), None)));
    (reflexivity || (vm_compute; done) || (simpl; lia)).
Defined.

(** ** Shadowsocks *)

(** An AEAD whose tag is the nonce. *)
Definition toy_aead : AEAD := MkAEAD 2 2 (λ n p, p ++ take 2 (n ++ [x00; x00]))
  (λ n c, inl (take (length c - 2) c)).

#[local] Instance toy_laws : AeadLaws toy_aead.
Proof.
  assert (∀ n : list byte, length (take 2 (n ++ [x00; x00])) = 2%nat) as Hl
    by (intros n; rewrite length_take, length_app; simpl; lia).
  split; intros n p; simpl.
  - rewrite length_app, Hl. replace (length p + 2 - 2)%nat with (length p) by lia. by rewrite take_app_length.
  - by rewrite length_app, Hl.
Defined.

Definition toy_hkdf (secret salt info : list byte) (n : nat) : list byte := take n (secret ++ salt).
Definition toy_make (key : list byte) : AEAD + error := inl toy_aead.
Definition psk : list byte := replicate 16 x2a.
Definition salt : list byte := replicate 16 x07.

#[local] Instance echo : ProxyDialer nat (list byte) := {
  pd_NextDialer t w := (t, S w);
  pd_Addr d := d;
  pd_Record d ok w := if ok then w else (w + 100)%nat }.

Definition t_v4 : list byte := [ATypIP4; x7f; x00; x00; x01; x00; x50].

Definition dials (d : list byte) (n : network) (t : list byte) : option error := None.

Definition sent : list (list byte) := [t_v4; lit "data"].

Lemma chunks_witness : all_chunks sent = [t_v4; lit "data"].
Proof. vm_compute. reflexivity. Qed.

Lemma ss_request_witness :
  ∃ out, conn_writes toy_hkdf toy_make psk salt NewConn sent = Ok out ∧
    conn_reads toy_hkdf toy_make psk NewConn [(7, 7); (2, 9); (10, 10); (1, 1)]%nat out =
    Ok (msg_reads ([], [t_v4; lit "data"]) [7; 2; 10; 1]%nat) ∧
    ss_Serve dials None (lit ":8388") (concat [t_v4; lit "data"]) 0%nat =
    Ok (RelayTo (lit "127.0.0.1:80") Tcp (lit "127.0.0.1:80") [] (lit "data"), 1%nat).
Proof.
  rewrite <- chunks_witness.
  change (RelayTo (lit "127.0.0.1:80") Tcp (lit "127.0.0.1:80") [] (lit "data"), 1%nat)
    with (serve_target dials None (lit ":8388") false (lit "127.0.0.1:80") (concat [lit "data"]) 0%nat).
  apply (ss_request toy_hkdf toy_make dials None psk salt toy_aead (lit "127.0.0.1:80") t_v4
           (lit "127.0.0.1:80") [lit "data"] [(7, 7); (2, 9); (10, 10); (1, 1)]%nat (lit ":8388") 0%nat);
    [reflexivity|apply toy_laws|by vm_compute|reflexivity|..].
  - repeat (apply Forall_cons; split; [simpl; lia|]). constructor.
  - vm_compute. reflexivity.
  - vm_compute. reflexivity.
Defined.

Lemma ss_nonces_unique_witness :
  ∃ log, conn_writes toy_hkdf toy_make psk salt NewConn [lit "ab"; lit "c"] =
      Ok (salt ++ concat (map (λ e, Seal toy_aead e.1 e.2) log)) ∧
    map fst log = [[x00; x00]; [x01; x00]; [x02; x00]; [x03; x00]] ∧ NoDup (map fst log).
Proof.
  apply (ss_nonces_unique toy_hkdf toy_make psk salt toy_aead [lit "ab"; lit "c"]);
    [reflexivity|by vm_compute|done|by vm_compute].
Defined.

Lemma ss_big_chunk_panics_witness :
  conn_Read toy_hkdf toy_make psk NewConn 100 100
    (salt ++ Seal toy_aead (new_nonce toy_aead) (be_bytes 2 32767) ++ []) = Panic.
Proof.
  apply (ss_big_chunk_panics toy_hkdf toy_make psk salt toy_aead 32767 [] 100 100);
    [reflexivity|apply toy_laws|by vm_compute|reflexivity|by vm_compute|apply Nat.ltb_lt; by vm_compute].
Defined.
