(* ===== verification/UdpSession.v ===== *)
(** The UDP servers: proxy/socks5/server.go, proxy/ss/server.go, proxy/udp/udp.go,
    proxy/unix/server.go and proxy/tproxy/server.go keep their sessions in the same
    way.

    One goroutine reads packets, finds the session of the source in the table [nm],
    or starts one, and sends the packet on the session's channel.  A session dials,
    starts a goroutine that copies the answers back, and writes the packets of its
    channel to the remote end.  The goroutines interleave: a step of the model is what
    one of them does to what they share. *)
From S2P Require Import Prelude GoStd Reader ProxyConn SocksAddr Socks5 Shadowsocks.

Module UdpSession.

(** Where [serveSession] is, and the goroutine it starts. *)
Inductive phase := Dialing | Running | Returned.
Inductive copier := NotStarted | Copying | Deleted | Closed.

#[global] Instance phase_eq_dec : EqDecision phase.
Proof. solve_decision. Defined.
#[global] Instance copier_eq_dec : EqDecision copier.
Proof. solve_decision. Defined.

(** [make(chan message, 32)]. *)
Definition chan_size : nat := 32.

Section Sessions.
Context {M : Type}.

(** [Session]; [finCh] is closed when the copier is [Closed]; [written] are the
    packets written to the remote end. *)
Record Session := MkSession {
  key : list byte;
  msgCh : list M;
  at_ : phase;
  copy : copier;
  written : list M }.

Definition newSession (key : list byte) : Session := MkSession key [] Dialing NotStarted [].

(** The goroutine of [ServePacket]: reading, or sending on a session's channel. *)
Inductive server := Reading | Sending (i : nat) (m : M).

(** [nm] maps a source to an index of [sessions], all sessions ever started.  In ss and socks5
    it is one variable of the package: two listeners of a protocol share it, and the table
    here is that of a program with one of them. *)
Record state := MkState {
  nm : gmap (list byte) nat;
  sessions : list Session;
  srv : server }.
Definition init : state := MkState ∅ [] Reading.

Inductive event :=
| Recv (src : list byte) (m : M)   (* ServePacket has read a packet *)
| Enqueue                          (* session.msgCh <- message *)
| DialOk (i : nat)
| DialErr (i : nat)                (* nm.Delete, return *)
| Deliver (i : nat)                (* msg := <-session.msgCh, WriteTo *)
| CopyEnd (i : nat)                (* CopyUDP has returned: nm.Delete *)
| CopyClose (i : nat)              (* close(session.finCh) *)
| Stop (i : nat).                  (* <-session.finCh, return *)

Definition set_session (st : state) (i : nat) (s : Session) : state :=
  MkState (nm st) (<[i := s]> (sessions st)) (srv st).

(** The body of the loop of [ServePacket] up to the send. *)
Definition ServePacket_recv (src : list byte) (m : M) (st : state) : state :=
  match nm st !! src with
  | Some i => MkState (nm st) (sessions st) (Sending i m)
  | None =>
      let i := length (sessions st) in
      MkState (<[src := i]> (nm st)) (sessions st ++ [newSession src]) (Sending i m)
  end.

(** The send: it blocks while the channel is full. *)
Definition ServePacket_send (st : state) : option state :=
  match srv st with
  | Reading => None
  | Sending i m =>
      s ← sessions st !! i;
      if (length (msgCh s) <? chan_size)%nat then
        Some (MkState (nm st) (<[i := MkSession (key s) (msgCh s ++ [m]) (at_ s) (copy s) (written s)]> (sessions st))
                Reading)
      else None
  end.

Definition serveSession_dial (ok : bool) (i : nat) (st : state) : option state :=
  s ← sessions st !! i;
  if bool_decide (at_ s = Dialing) then
    if ok then Some (set_session st i (MkSession (key s) (msgCh s) Running Copying (written s)))
    else Some (MkState (delete (key s) (nm st))
                 (<[i := MkSession (key s) (msgCh s) Returned (copy s) (written s)]> (sessions st)) (srv st))
  else None.

Definition serveSession_copied (i : nat) (st : state) : option state :=
  s ← sessions st !! i;
  match copy s with
  | Copying => Some (MkState (delete (key s) (nm st))
                       (<[i := MkSession (key s) (msgCh s) (at_ s) Deleted (written s)]> (sessions st)) (srv st))
  | _ => None
  end.

Definition serveSession_close (i : nat) (st : state) : option state :=
  s ← sessions st !! i;
  match copy s with
  | Deleted => Some (set_session st i (MkSession (key s) (msgCh s) (at_ s) Closed (written s)))
  | _ => None
  end.

(** The [select] of [serveSession]: either case when both are ready. *)
Definition serveSession_msg (i : nat) (st : state) : option state :=
  s ← sessions st !! i;
  match at_ s, msgCh s with
  | Running, m :: q => Some (set_session st i (MkSession (key s) q Running (copy s) (written s ++ [m])))
  | _, _ => None
  end.
Definition serveSession_fin (i : nat) (st : state) : option state :=
  s ← sessions st !! i;
  match at_ s, copy s with
  | Running, Closed => Some (set_session st i (MkSession (key s) (msgCh s) Returned Closed (written s)))
  | _, _ => None
  end.

(** One step ([None]: the goroutine can not take it). *)
Definition step (st : state) (e : event) : option state :=
  match e with
  | Recv src m => match srv st with Reading => Some (ServePacket_recv src m st) | Sending _ _ => None end
  | Enqueue => ServePacket_send st
  | DialOk i => serveSession_dial true i st
  | DialErr i => serveSession_dial false i st
  | Deliver i => serveSession_msg i st
  | CopyEnd i => serveSession_copied i st
  | CopyClose i => serveSession_close i st
  | Stop i => serveSession_fin i st
  end.

Fixpoint run (st : state) (es : list event) : option state :=
  match es with
  | [] => Some st
  | e :: es => st ← step st e; run st es
  end.

(** The packets read from [src], in order. *)
Definition arrivals (src : list byte) (es : list event) : list M :=
  omap (λ e, match e with Recv k m => if bool_decide (k = src) then Some m else None | _ => None end) es.
End Sessions.
Arguments Session : clear implicits.
Arguments server : clear implicits.
Arguments state : clear implicits.
Arguments event : clear implicits.

(** ** The servers *)

(** What a datagram from [src] is to a server: a packet, or an error it skips. *)

(** proxy/socks5: the SOCKS5 header of the datagram names the destination. *)
Definition socks5_recv {A} (resolve : list byte → outcome A) (blen : nat) (src dgram : list byte)
    : option (event (A * list byte)) :=
  match s5_readFrom resolve blen dgram with
  | Ok (b, _, dst) => Some (Recv src (dst, b))
  | _ => None
  end.

(** [PktConn.readFrom] of proxy/ss, of a datagram already decrypted. *)
Definition ss_readFrom {A} (resolve : list byte → outcome A) (blen : nat) (pkt : outcome (list byte))
    : outcome (list byte * list byte * A) :=
  buf ← pkt;
  match SplitAddr buf with
  | None => Err "can not get target addr"
  | Some tgt =>
      t ← Addr_String tgt;
      match resolve t with
      | Ok target => Ok (take blen (drop (length tgt) buf), tgt, target)
      | _ => Err "wrong target addr"
      end
  end.

(** proxy/ss: [decrypt] is the [ReadFrom] of the packet cipher. *)
Definition ss_recv {A} (resolve : list byte → outcome A) (decrypt : nat → list byte → outcome (list byte))
    (blen : nat) (src dgram : list byte) : option (event (A * list byte)) :=
  match ss_readFrom resolve blen (decrypt blen dgram) with
  | Ok (b, _, dst) => Some (Recv src (dst, b))
  | _ => None
  end.

(** proxy/udp and proxy/unix: a tunnel, the datagram as it is. *)
Definition udp_recv (blen : nat) (src dgram : list byte) : event (list byte) := Recv src (take blen dgram).
Definition unix_recv (blen : nat) (src dgram : list byte) : event (list byte) := Recv src (take blen dgram).

(** proxy/tproxy: the destination is the original one of the datagram. *)
Definition tproxy_recv {A} (blen : nat) (src : list byte) (dst : A) (dgram : list byte)
    : event (A * list byte) := Recv src (dst, take blen dgram).
End UdpSession.
