(* ===== verification/UdpSessionProofs.v ===== *)
(** The UDP servers: packets reach the session of their source, in order and once;
    when the goroutine that reads packets can stop for good. *)
From S2P Require Import Prelude GoStd Reader ProxyConn SocksAddr Socks5 Shadowsocks UdpSession.
Import UdpSession.

Section Proofs.
Context {M : Type}.
Implicit Types (st : state M) (s : Session M) (l : list (Session M)).

(** ** The packets of a source *)

Definition own (k : list byte) s : list M := if bool_decide (key s = k) then written s ++ msgCh s else [].
(** What the sessions of [k] have written or hold, oldest session first. *)
Definition content (k : list byte) l : list M := concat (map (own k) l).
(** The packet the server is about to queue. *)
Definition pending (k : list byte) st : list M :=
  match srv st with
  | Reading => []
  | Sending i m => match sessions st !! i with Some s => if bool_decide (key s = k) then [m] else [] | None => [] end
  end.

Lemma content_split k l i s :
  l !! i = Some s → content k l = content k (take i l) ++ own k s ++ content k (drop (S i) l).
Proof.
  intros Hi. rewrite <- (take_drop_middle l i s Hi) at 1. unfold content. by rewrite map_app, concat_app.
Qed.

Lemma content_insert k l i s s' :
  l !! i = Some s → content k (<[i := s']> l) = content k (take i l) ++ own k s' ++ content k (drop (S i) l).
Proof.
  intros Hi. apply lookup_lt_Some in Hi. rewrite (content_split k _ i s') by (by apply list_lookup_insert_eq).
  by rewrite take_insert_ge, drop_insert_lt by lia.
Qed.

Lemma content_app k l1 l2 : content k (l1 ++ l2) = content k l1 ++ content k l2.
Proof. unfold content. by rewrite map_app, concat_app. Qed.

Lemma content_nil k l : (∀ j s, l !! j = Some s → key s ≠ k) → content k l = [].
Proof.
  induction l as [|s l IH]; intros H; [done|]. unfold content in *. simpl. unfold own at 1.
  rewrite bool_decide_eq_false_2 by (by apply (H 0%nat)). apply IH. intros j. apply (H (S j)).
Qed.

(** No session of [key s] comes after [i]. *)
Definition last_of l (i : nat) : Prop :=
  ∀ j k, key <$> l !! i = Some k → key <$> l !! j = Some k → (j <= i)%nat.

Lemma content_after_last l i s : last_of l i → l !! i = Some s → content (key s) (drop (S i) l) = [].
Proof.
  intros Hl Hi. apply content_nil. intros j s' Hj Hk. rewrite lookup_drop in Hj.
  specialize (Hl (S i + j)%nat (key s)). rewrite Hi, Hj in Hl. simpl in Hl. rewrite Hk in Hl.
  specialize (Hl eq_refl eq_refl). lia.
Qed.

(** ** The invariant *)

Definition live s : Prop := at_ s ≠ Returned ∧ (copy s = NotStarted ∨ copy s = Copying).

Definition session_wf s : Prop :=
  (at_ s = Dialing → copy s = NotStarted) ∧ (at_ s = Returned → copy s = NotStarted ∨ copy s = Closed) ∧
  (at_ s = Running → copy s ≠ NotStarted) ∧ (length (msgCh s) <= chan_size)%nat.

Record inv (arr : list byte → list M) st : Prop := {
  i_tab : ∀ k i, nm st !! k = Some i ↔ ∃ s, sessions st !! i = Some s ∧ key s = k ∧ live s;
  i_last : ∀ i s, sessions st !! i = Some s → live s → last_of (sessions st) i;
  i_srv : ∀ i m, srv st = Sending i m → is_Some (sessions st !! i) ∧ last_of (sessions st) i;
  i_wf : ∀ i s, sessions st !! i = Some s → session_wf s;
  i_data : ∀ k, content k (sessions st) ++ pending k st = arr k }.

Lemma last_of_insert l i s s' j :
  l !! i = Some s → key s' = key s → last_of l j → last_of (<[i := s']> l) j.
Proof.
  intros Hi Hk Hl j' k.
  assert (∀ x, key <$> <[i := s']> l !! x = key <$> l !! x) as He.
  { intros x. destruct (decide (i = x)) as [<-|].
    - rewrite list_lookup_insert_eq by (by eapply lookup_lt_Some). rewrite Hi. simpl. by rewrite Hk.
    - by rewrite list_lookup_insert_ne by done. }
  rewrite !He. apply Hl.
Qed.

(** A session changes, the table with it when it stops being live. *)
Lemma inv_update arr st i s s' nm' :
  inv arr st → sessions st !! i = Some s → key s' = key s → session_wf s' →
  written s' ++ msgCh s' = written s ++ msgCh s →
  (nm' = nm st ∧ (live s' ↔ live s)) ∨ (nm' = delete (key s) (nm st) ∧ live s ∧ ¬ live s') →
  inv arr (MkState nm' (<[i := s']> (sessions st)) (srv st)).
Proof.
  intros [Htab Hlast Hsrv Hwf Hdata] Hi Hk Hwf' Hown Hnm.
  pose proof (lookup_lt_Some _ _ _ Hi) as Hlt. split; simpl.
  - intros k j. destruct Hnm as [[-> Hlive]|(-> & Hl & Hl')].
    + rewrite Htab. destruct (decide (i = j)) as [<-|Hji].
      * rewrite list_lookup_insert_eq, Hi by done. naive_solver.
      * by rewrite list_lookup_insert_ne by done.
    + destruct (decide (i = j)) as [<-|Hji].
      * rewrite list_lookup_insert_eq by done. rewrite lookup_delete_Some, Htab. naive_solver.
      * rewrite list_lookup_insert_ne, lookup_delete_Some, Htab by done. split; [naive_solver|].
        intros (x & Hx & <- & Hlx). split; [|by eauto]. intros He.
        assert (nm st !! key s = Some i) by (apply Htab; eauto).
        assert (nm st !! key x = Some j) by (apply Htab; eauto). congruence.
  - intros j x Hx Hlx. apply (last_of_insert _ i s); [done..|].
    destruct (decide (i = j)) as [<-|Hji].
    + rewrite list_lookup_insert_eq in Hx by done. simplify_eq. apply (Hlast i s); [done|]. naive_solver.
    + rewrite list_lookup_insert_ne in Hx by done. by apply (Hlast j x).
  - intros j m Hj. destruct (Hsrv j m Hj) as [Hs Hl].
    split; [|by apply (last_of_insert _ i s)]. by apply list_lookup_insert_is_Some.
  - intros j x Hx. apply list_lookup_insert_Some in Hx as [(-> & <- & _)|[_ Hx]]; [done|by apply (Hwf j)].
  - intros k. rewrite <- (Hdata k). f_equal.
    + rewrite (content_insert _ _ _ s), (content_split k (sessions st) i s) by done. unfold own. by rewrite Hk, Hown.
    + unfold pending. simpl. destruct (srv st) as [|j m]; [done|].
      destruct (decide (i = j)) as [<-|Hji].
      * rewrite list_lookup_insert_eq, Hi by done. by rewrite Hk.
      * by rewrite list_lookup_insert_ne by done.
Qed.
(** ** Steps preserve it *)

Lemma inv_init : inv (λ _, []) init.
Proof.
  split; simpl; try done.
  intros k i. split; [by rewrite lookup_empty|]. intros (s & H & _). by rewrite lookup_nil in H.
Qed.

Lemma last_of_snoc l src i :
  i = length l ∨ (is_Some (l !! i) ∧ last_of l i ∧ key <$> l !! i ≠ Some src) → last_of (l ++ [newSession src]) i.
Proof.
  intros Hi j k Hk Hj.
  assert (j < length (l ++ [newSession src]))%nat as Hlt
    by (apply lookup_lt_is_Some; destruct ((l ++ _) !! j); [by eexists|done]).
  rewrite length_app in Hlt. simpl in Hlt. destruct Hi as [->|(Hs & Hl & Hne)]; [lia|].
  assert (i < length l)%nat as Hil by (by apply lookup_lt_is_Some).
  rewrite lookup_app_l in Hk by done. destruct (decide (j < length l)%nat).
  - rewrite lookup_app_l in Hj by done. by apply (Hl j k).
  - replace j with (length l) in Hj by lia. rewrite lookup_app_r, Nat.sub_diag in Hj by lia. simpl in Hj.
    congruence.
Qed.

Lemma inv_recv_tab arr st src :
  inv arr st → nm st !! src = None → ∀ k i,
  <[src := length (sessions st)]> (nm st) !! k = Some i ↔
  ∃ s, (sessions st ++ [newSession src]) !! i = Some s ∧ key s = k ∧ live s.
Proof.
  intros Hinv Hno k i. rewrite lookup_insert_Some, (i_tab _ _ Hinv). split.
  - intros [[<- <-]|[Hne (s & Hi & Hk & Hl)]].
    + exists (newSession src). rewrite lookup_app_r, Nat.sub_diag by lia. repeat split; simpl; auto.
    + exists s. by rewrite (lookup_app_l_Some _ _ _ _ Hi).
  - intros (s & Hi & Hk & Hl). apply lookup_app_Some in Hi as [Hi|[Hge Hi]].
    + right. split; [|by eauto]. intros ->.
      assert (nm st !! k = Some i) by (apply (i_tab _ _ Hinv); eauto). congruence.
    + left. apply list_lookup_singleton_Some in Hi as [Hi <-]. simpl in Hk. split; [done|lia].
Qed.

Lemma inv_recv arr st src m :
  inv arr st → srv st = Reading →
  inv (λ k, arr k ++ if bool_decide (src = k) then [m] else []) (ServePacket_recv src m st).
Proof.
  intros Hinv Hsrv. pose proof Hinv as [Htab Hlast _ Hwf Hdata]. unfold ServePacket_recv.
  assert (∀ k, content k (sessions st) = arr k) as Hd
    by (intros k; rewrite <- (Hdata k); unfold pending; by rewrite Hsrv, app_nil_r).
  destruct (nm st !! src) as [i|] eqn:Ei.
  - apply Htab in Ei as (s & Hi & Hk & Hl). split; simpl; [done|done| |done|].
    + intros j m' [= <- <-]. split; [by eauto|by apply (Hlast i s)].
    + intros k. unfold pending. simpl. by rewrite Hi, Hk, Hd.
  - assert (∀ i s, sessions st !! i = Some s → live s → key s ≠ src) as Hno.
    { intros i s Hi Hl <-. assert (nm st !! key s = Some i) by (apply Htab; eauto). congruence. }
    split; simpl.
    + apply (inv_recv_tab arr st src Hinv Ei).
    + intros i s Hi Hl. apply last_of_snoc. apply lookup_app_Some in Hi as [Hi|[Hge Hi]].
      * right. split; [by eauto|]. split; [by eapply Hlast|]. rewrite Hi. intros [= He]. by apply (Hno i s).
      * left. apply list_lookup_singleton_Some in Hi as [Hi _]. lia.
    + intros i m' [= <- <-]. split; [|apply last_of_snoc; by left].
      rewrite lookup_app_r, Nat.sub_diag by lia. by eexists.
    + intros i s Hi. apply lookup_app_Some in Hi as [Hi|[_ Hi]]; [by eapply Hwf|].
      apply list_lookup_singleton_Some in Hi as [_ <-]. repeat split; simpl; try done; unfold chan_size; lia.
    + intros k. rewrite content_app, Hd. unfold pending. simpl.
      rewrite lookup_app_r, Nat.sub_diag by lia. simpl. unfold content, own. simpl.
      case_bool_decide; by rewrite app_nil_r.
Qed.

Lemma inv_send arr st st' : inv arr st → ServePacket_send st = Some st' → inv arr st'.
Proof.
  intros [Htab Hlast Hsrv Hwf Hdata]. unfold ServePacket_send. destruct (srv st) as [|i m] eqn:Es; [done|].
  destruct (Hsrv i m eq_refl) as [[s Hi] Hl]. rewrite Hi. simpl.
  destruct (Nat.ltb_spec (length (msgCh s)) chan_size) as [Hroom|]; [|done]. intros [= <-].
  set (s' := MkSession _ _ _ _ _). pose proof (lookup_lt_Some _ _ _ Hi) as Hlt.
  destruct (Hwf i s Hi) as (W1 & W2 & W3 & W4).
  assert (session_wf s') by (repeat split; simpl; try done; rewrite length_app; simpl; lia).
  split; simpl; try done.
  - intros k j. rewrite Htab. destruct (decide (i = j)) as [<-|Hji].
    + rewrite list_lookup_insert_eq, Hi by done. split; intros (x & [= <-] & Hx); by eexists.
    + by rewrite list_lookup_insert_ne by done.
  - intros j x Hx Hlx. apply (last_of_insert _ i s); [done..|].
    apply list_lookup_insert_Some in Hx as [(<- & <- & _)|[_ Hx]]; [done|by apply (Hlast j x)].
  - intros j x Hx. apply list_lookup_insert_Some in Hx as [(-> & <- & _)|[_ Hx]]; [done|by apply (Hwf j)].
  - intros k. rewrite <- (Hdata k). unfold pending. simpl. rewrite Es, Hi, app_nil_r.
    rewrite (content_insert k (sessions st) i s s' Hi), (content_split k (sessions st) i s Hi).
    unfold own. simpl. case_bool_decide as Hk; [|by rewrite app_nil_r]. subst k.
    rewrite (content_after_last _ i s Hl Hi), !app_nil_r. by rewrite !app_assoc.
Qed.
Lemma inv_ext arr arr' st : (∀ k, arr k = arr' k) → inv arr st → inv arr' st.
Proof. intros He [? ? ? ? Hd]. split; try done. intros k. by rewrite Hd, He. Qed.

(** A step of a session. *)
Lemma inv_session arr st st' e :
  inv arr st → match e with Recv _ _ | Enqueue => False | _ => True end → step st e = Some st' → inv arr st'.
Proof.
  intros Hinv He Hstep.
  assert (∀ i s, sessions st !! i = Some s → session_wf s) as Hwf by apply Hinv.
  destruct e as [| |i|i|i|i|i|i]; try done; simpl in Hstep;
    unfold serveSession_dial, serveSession_msg, serveSession_copied, serveSession_close, serveSession_fin in Hstep;
    (destruct (sessions st !! i) as [s|] eqn:Hi; [|done]); simpl in Hstep;
    pose proof (Hwf i s Hi) as (W1 & W2 & W3 & W4).
  - case_bool_decide as Hat; [|done]. simplify_eq.
    apply (inv_update arr st i s); [done..|by repeat split|done|]. left. split; [done|]. unfold live. simpl.
    rewrite Hat, W1 by done. naive_solver.
  - case_bool_decide as Hat; [|done]. simplify_eq.
    apply (inv_update arr st i s); [done..|repeat split; simpl; auto; done|done|]. right. split; [done|].
    unfold live. simpl. rewrite Hat. naive_solver.
  - destruct (at_ s) eqn:Hat; try done. destruct (msgCh s) as [|m q] eqn:Hq; [done|]. simplify_eq.
    apply (inv_update arr st i s); [done..| | |].
    + repeat split; simpl; auto; try done. simpl in W4. lia.
    + simpl. by rewrite Hq, <- app_assoc.
    + left. split; [done|]. unfold live. simpl. by rewrite Hat.
  - destruct (copy s) eqn:Hc; try done. simplify_eq.
    assert (at_ s ≠ Returned) as Hnr by (intros Hr; by destruct (W2 Hr)).
    apply (inv_update arr st i s); [done..| |done|].
    + unfold session_wf; simpl; naive_solver.
    + right. split; [done|]. unfold live. simpl. rewrite Hc. naive_solver.
  - destruct (copy s) eqn:Hc; try done. simplify_eq.
    apply (inv_update arr st i s); [done..| |done|].
    + unfold session_wf; simpl; naive_solver.
    + left. split; [done|]. unfold live. simpl. rewrite Hc. naive_solver.
  - destruct (at_ s) eqn:Hat; try done. destruct (copy s) eqn:Hc; try done. simplify_eq.
    apply (inv_update arr st i s); [done..| |done|].
    + repeat split; simpl; auto; done.
    + left. split; [done|]. unfold live. simpl. rewrite Hc. naive_solver.
Qed.

Lemma recv_or_not (e : event M) : (∃ src m, e = Recv src m) ∨ ¬ (∃ src m, e = Recv src m).
Proof. destruct e; [left; by eauto|right; naive_solver..]. Qed.

Lemma inv_step arr st e st' :
  inv arr st → step st e = Some st' → inv (λ k, arr k ++ arrivals k [e]) st'.
Proof.
  intros Hinv Hstep. destruct (recv_or_not e) as [(src & m & ->)|Hn].
  - simpl in Hstep. destruct (srv st) eqn:Es; [|done]. simplify_eq.
    eapply inv_ext; [|by apply inv_recv]. intros k. simpl. f_equal. unfold arrivals. simpl. by case_bool_decide.
  - apply (inv_ext arr); [intros k; destruct e; try (symmetry; apply app_nil_r); naive_solver|].
    destruct e; [naive_solver|by apply (inv_send arr st)|..]; by apply (inv_session arr st st' _ Hinv) in Hstep.
Qed.

Lemma arrivals_cons k e (es : list (event M)) : arrivals k (e :: es) = arrivals k [e] ++ arrivals k es.
Proof. apply (omap_app _ [e] es). Qed.

Lemma inv_run arr st es st' :
  inv arr st → run st es = Some st' → inv (λ k, arr k ++ arrivals k es) st'.
Proof.
  revert arr st. induction es as [|e es IH]; intros arr st Hinv Hr; simpl in Hr.
  - simplify_eq. apply (inv_ext arr); [|done]. intros k. by rewrite app_nil_r.
  - destruct (step st e) as [st1|] eqn:Es; [|done]. simpl in Hr.
    apply (inv_ext (λ k, (arr k ++ arrivals k [e]) ++ arrivals k es)).
    + intros k. by rewrite <- app_assoc, <- arrivals_cons.
    + apply (IH _ st1); [by apply (inv_step arr st)|done].
Qed.

(** C5: Whatever the interleaving, the packets read from a source are, in the order they
    came and each once, those its sessions have written to the remote end, those
    they hold in their channels, and the one about to be queued; no packet goes to
    another source's session.  A channel never holds more than 32, and the table is
    exactly the sessions that have neither given up nor ended their copying, at most
    one per source. *)
Theorem udp_sessions es st :
  run init es = Some st →
  (∀ k, content k (sessions st) ++ pending k st = arrivals k es) ∧
  (∀ i s, sessions st !! i = Some s → length (msgCh s) <= 32)%nat ∧
  (∀ k i, nm st !! k = Some i ↔ ∃ s, sessions st !! i = Some s ∧ key s = k ∧ live s).
Proof.
  intros Hr. destruct (inv_run _ _ _ _ inv_init Hr) as [Htab _ _ Hwf Hdata].
  split; [exact Hdata|]. split; [|exact Htab]. intros i s Hi. by apply (Hwf i s).
Qed.

(** ** When the server stops *)

(** The server sends to a session that has returned and whose channel is full. *)
Definition wedged (i : nat) (m : M) st : Prop :=
  srv st = Sending i m ∧ ∃ s, sessions st !! i = Some s ∧ at_ s = Returned ∧ (chan_size <= length (msgCh s))%nat.

Lemma wedged_insert i m st j s s' nm' :
  wedged i m st → sessions st !! j = Some s → (at_ s = Returned → at_ s' = Returned ∧ msgCh s' = msgCh s) →
  wedged i m (MkState nm' (<[j := s']> (sessions st)) (srv st)).
Proof.
  intros [Hs (x & Hi & Hx & Hfull)] Hj Hs'. split; [done|]. simpl. destruct (decide (j = i)) as [->|Hne].
  - exists s'. rewrite Hi in Hj. simplify_eq. destruct (Hs' Hx) as [? ->].
    rewrite list_lookup_insert_eq by (by eapply lookup_lt_Some). done.
  - exists x. by rewrite list_lookup_insert_ne.
Qed.

Lemma wedged_step i m st e st' : wedged i m st → step st e = Some st' → wedged i m st'.
Proof.
  intros Hw Hstep. pose proof Hw as [Hs (x & Hi & Hx & Hfull)].
  destruct e as [src m'| |j|j|j|j|j|j]; simpl in Hstep; [by rewrite Hs in Hstep| |..].
  { unfold ServePacket_send in Hstep. rewrite Hs, Hi in Hstep. simpl in Hstep.
    by rewrite (proj2 (Nat.ltb_ge _ _) Hfull) in Hstep. }
  all: unfold serveSession_dial, serveSession_msg, serveSession_copied, serveSession_close, serveSession_fin in Hstep;
    (destruct (sessions st !! j) as [s|] eqn:Hj; [|done]); simpl in Hstep; try case_bool_decide; go_cases; simplify_eq;
    (eapply wedged_insert; [done|done|]); (done || congruence).
Qed.

Lemma wedged_run i m st es st' : wedged i m st → run st es = Some st' → srv st' = Sending i m.
Proof.
  revert st. induction es as [|e es IH]; intros st Hw Hr; simpl in Hr; [simplify_eq; by destruct Hw|].
  destruct (step st e) as [st1|] eqn:Es; [|done]. eapply IH; [by eapply wedged_step|done].
Qed.

(** The packets [ms] of [src], each read and queued. *)
Definition flood (src : list byte) (ms : list M) : list (event M) := m ← ms; [Recv src m; Enqueue].

Lemma flood_run src ms st s :
  nm st !! src = Some 0%nat → sessions st = [s] → srv st = Reading →
  (length (msgCh s) + length ms <= chan_size)%nat →
  run st (flood src ms) = Some (MkState (nm st) [MkSession (key s) (msgCh s ++ ms) (at_ s) (copy s) (written s)] Reading).
Proof.
  revert st s. induction ms as [|m ms IH]; intros [t ss sv] s Ht Hs Hr Hl; simpl in *; subst.
  - rewrite app_nil_r. by destruct s.
  - unfold ServePacket_recv. simpl. rewrite Ht. simpl. unfold ServePacket_send. simpl.
    rewrite (proj2 (Nat.ltb_lt _ _)) by lia. simpl.
    erewrite IH; [|done|done|done|simpl; rewrite length_app; simpl; lia]. simpl. by rewrite <- app_assoc.
Qed.

Lemma run_app st es1 es2 : run st (es1 ++ es2) = (st ← run st es1; run st es2).
Proof.
  revert st. induction es1 as [|e es1 IH]; intros st; [done|]. simpl. destruct (step st e); simpl; [apply IH|done].
Qed.

(** Thirty-three packets of one client while its session dials, and a dial that
    fails: the session returns without emptying its channel, the server waits for
    room in it, and no step of any goroutine ever frees it, so no client is served
    again. *)
Theorem udp_server_wedged src m0 ms m :
  length (m0 :: ms) = 32%nat →
  ∃ st, run init (flood src (m0 :: ms) ++ [Recv src m; DialErr 0]) = Some st ∧
    ∀ es st', run st es = Some st' → srv st' = Sending 0 m.
Proof.
  intros Hl. simpl in Hl.
  assert (run init (flood src (m0 :: ms)) =
          Some (MkState {[src := 0%nat]} [MkSession src (m0 :: ms) Dialing NotStarted []] Reading)) as Hf.
  { simpl. unfold ServePacket_recv. simpl. rewrite lookup_empty. simpl.
    erewrite (flood_run src ms _ _); [|simpl; apply lookup_insert_eq|done|done|simpl; unfold chan_size; lia]. done. }
  rewrite run_app, Hf. simpl. unfold ServePacket_recv. simpl. rewrite lookup_singleton_eq. simpl.
  eexists. split; [reflexivity|]. intros es st'. apply wedged_run. split; [done|].
  eexists. split; [done|]. simpl. split; [done|]. unfold chan_size. lia.
Qed.

(** The steps of the server and its session by which the server goes on. *)
Definition goes_on (i : nat) st : Prop :=
  ∃ es st', run st es = Some st' ∧ srv st' = Reading ∧ Forall (λ e, e ∈ [DialOk i; Deliver i; Enqueue]) es.

Lemma goes_on_step i st e st' :
  e ∈ [DialOk i; Deliver i; Enqueue] → step st e = Some st' → goes_on i st' → goes_on i st.
Proof.
  intros He Hs (es & st2 & Hr & Hsrv & Hes). exists (e :: es), st2. simpl. rewrite Hs. simpl.
  split; [done|]. split; [done|]. by constructor.
Qed.

Lemma goes_on_room i m st s :
  srv st = Sending i m → sessions st !! i = Some s → (length (msgCh s) < chan_size)%nat → goes_on i st.
Proof.
  intros Hs Hi Hl. eapply (goes_on_step i st Enqueue); [set_solver| |].
  - simpl. unfold ServePacket_send. rewrite Hs, Hi. simpl. rewrite (proj2 (Nat.ltb_lt _ _)) by done. reflexivity.
  - eexists [], _. done.
Qed.

Lemma goes_on_running i m st s :
  srv st = Sending i m → sessions st !! i = Some s → at_ s = Running → (length (msgCh s) = chan_size)%nat →
  goes_on i st.
Proof.
  intros Hs Hi Hat Hl. pose proof (lookup_lt_Some _ _ _ Hi) as Hlt.
  destruct (msgCh s) as [|m1 q] eqn:Hq; [done|]. eapply (goes_on_step i st (Deliver i)); [set_solver| |].
  - simpl. unfold serveSession_msg. rewrite Hi. simpl. rewrite Hat, Hq. reflexivity.
  - eapply (goes_on_room i m); [done|by apply list_lookup_insert_eq|]. simpl in *. lia.
Qed.

Lemma goes_on_dialing i m st s :
  srv st = Sending i m → sessions st !! i = Some s → at_ s = Dialing → (length (msgCh s) = chan_size)%nat →
  goes_on i st.
Proof.
  intros Hs Hi Hat Hl. pose proof (lookup_lt_Some _ _ _ Hi) as Hlt.
  eapply (goes_on_step i st (DialOk i)); [set_solver| |].
  - simpl. unfold serveSession_dial. rewrite Hi. simpl. rewrite bool_decide_eq_true_2 by done. reflexivity.
  - eapply (goes_on_running i m); [done|by apply list_lookup_insert_eq|done|done].
Qed.

(** C34: While the server sends, either its session can make room, after dialing and
    writing a packet, and the server goes on; or the session has returned with its
    channel full, and the server has stopped for good. *)
Theorem udp_server_progress es st i m :
  run init es = Some st → srv st = Sending i m →
  goes_on i st ∨
  ((∃ s, sessions st !! i = Some s ∧ at_ s = Returned ∧ length (msgCh s) = 32%nat) ∧
   ∀ es' st', run st es' = Some st' → srv st' = Sending i m).
Proof.
  intros Hr Hs. destruct (inv_run _ _ _ _ inv_init Hr) as [_ _ Hsrv Hwf _].
  destruct (Hsrv i m Hs) as [[s Hi] _]. destruct (Hwf i s Hi) as (_ & _ & _ & Hlen).
  destruct (decide (length (msgCh s) = chan_size)) as [Hfull|Hroom]; [|left; apply (goes_on_room i m st s); [done..|lia]].
  destruct (at_ s) eqn:Hat; [left; by apply (goes_on_dialing i m st s)|left; by apply (goes_on_running i m st s)|].
  right. split; [by exists s|]. intros es' st'. apply wedged_run. split; [done|]. exists s. split; [done|]. split; [done|]. lia.
Qed.
End Proofs.

(** ** Runs *)

Definition client : list byte := lit "10.0.0.2:5000".
Definition es1 : list (event (list byte)) :=
  [udp_recv 9 client (lit "a"); Enqueue; DialOk 0; udp_recv 9 client (lit "b"); Enqueue; Deliver 0; CopyEnd 0;
   udp_recv 9 client (lit "c")].

Lemma udp_sessions_witness :
  match run init es1 with
  | Some st => content client (sessions st) ++ pending client st = [lit "a"; lit "b"; lit "c"]
  | None => False
  end.
Proof.
  assert (is_Some (run init es1)) as [st E] by (apply is_Some_alt; vm_compute; exact I).
  rewrite E. apply (udp_sessions es1 st E).
Defined.

Lemma udp_server_wedged_witness :
  ∃ st, run init (flood client (replicate 32 (lit "x")) ++ [Recv client (lit "y"); DialErr 0]) = Some st ∧
    ∀ es st', run st es = Some st' → srv st' = Sending 0 (lit "y").
Proof. apply (udp_server_wedged client (lit "x") (replicate 31 (lit "x")) (lit "y")). reflexivity. Defined.

Lemma udp_server_progress_witness :
  match run init [Recv client (lit "a")] with
  | Some st =>
      goes_on 0 st ∨
      ((∃ s, sessions st !! 0%nat = Some s ∧ at_ s = Returned ∧ length (msgCh s) = 32%nat) ∧
       ∀ es' st', run st es' = Some st' → srv st' = Sending 0 (lit "a"))
  | None => False
  end.
Proof.
  assert (srv <$> run init [Recv client (lit "a")] = Some (Sending 0 (lit "a"))) as Hs by (vm_compute; reflexivity).
  apply fmap_Some in Hs as (st & E & Hs). rewrite E. by apply (udp_server_progress _ st 0 (lit "a") E).
Defined.
