(* ===== verification/AnyTls.v ===== *)
(** proxy/anytls/session: the client side of the anytls multiplexer: frames, the
    streams of a session, and the pool of idle sessions.

    A stream's [dataCh] and the pipe behind it are part of its record; the steps of
    its [writeLoop], of the receive loop and of the closing methods interleave. *)
From S2P Require Import Prelude GoStd Reader SocksAddr.

Module AnyTls.

(** ** Frames (frame.go) *)

Definition cmdWaste : Z := 0.
Definition cmdSYN : Z := 1.
Definition cmdPSH : Z := 2.
Definition cmdFIN : Z := 3.
Definition cmdSettings : Z := 4.
Definition cmdAlert : Z := 5.
Definition cmdUpdatePaddingScheme : Z := 6.
Definition cmdSYNACK : Z := 7.
Definition cmdHeartRequest : Z := 8.
Definition cmdHeartResponse : Z := 9.
Definition cmdServerSettings : Z := 10.
Definition headerSize : nat := 7.

Record frame := MkFrame {
  f_cmd : Z;
  f_sid : Z;
  f_data : list byte }.
Definition newFrame (cmd sid : Z) : frame := MkFrame cmd sid [].

(** The buffer of [writeControlFrame], and with [cmdPSH] of [writeDataFrame]. *)
Definition frame_buf (f : frame) : list byte :=
  z2b (f_cmd f) :: be_bytes 4 (f_sid f) ++ be_bytes 2 (u16 (Z.of_nat (length (f_data f)))) ++ f_data f.

(** [rawHeader]: command, stream, length. *)
Definition raw_header (h : list byte) : Z * Z * nat :=
  (be_val (take 1 h), be_val (take 4 (drop 1 h)), Z.to_nat (be_val (take 2 (drop 5 h)))).

(** ** Writing (session.go) *)

Record wconn := MkWconn {
  buffering : bool;
  buffer : list byte }.

(** [writeConn]: what it writes to the connection. *)
Definition writeConn (w : wconn) (b : list byte) : list byte * wconn :=
  if buffering w then ([], MkWconn true (buffer w ++ b))
  else if (0 <? length (buffer w))%nat then (buffer w ++ b, MkWconn false [])
  else (b, w).
Definition flushBuffering (w : wconn) : wconn := MkWconn false (buffer w).

(** Writes on a session, and the moment the first stream opens ([None]). *)
Fixpoint session_writes (w : wconn) (ops : list (option (list byte))) : list byte * wconn :=
  match ops with
  | [] => ([], w)
  | None :: ops => session_writes (flushBuffering w) ops
  | Some b :: ops =>
      let '(out, w) := writeConn w b in
      let '(outs, w) := session_writes w ops in (out ++ outs, w)
  end.

(** ** Streams (stream.go) *)

Definition dataQueueCap : nat := 64.
Definition dataQueueMaxBytes : Z := Z.shiftl 4 20.

Definition ErrDeadline : error := "i/o timeout".

(** Where [writeLoop] is: at its [select], with a frame it has taken from [dataCh] and not
    yet counted off, in [pw.Write], or gone. *)
Inductive loop := Selecting | Received (data : list byte) | Writing (data : list byte) | Exited.
(** Where the receive loop is with the stream: between two frames; in [enqueue], past the
    byte limit ([Checked]) or past the send with [dataMu] held ([Sent]); with a frame that
    [enqueue] refused, the stream being closed for it; in a failed SYNACK, [closed] being
    set; or done with the stream after its FIN. *)
Inductive receiver := Between | Checked (data : list byte) | Sent (n : Z) | Refused (data : list byte)
  | Failing (e : error) | Left.

(** [chClosed]: [dataCh] is closed; [doneCh]: [done] is closed; [once]: [dieOnce] has
    begun, [dying]: and [closeDataCh] inside it is still to come; [pipeErr]: the error [pw]
    was closed with first; [prClosed]: [pr] is closed; [synDone]: the answer in the channel;
    [got]: what reads of [pr] have returned so far. *)
Record Stream := MkStream {
  dataCh : list (list byte);
  chClosed : bool;
  doneCh : bool;
  closed : bool;
  queuedBytes : Z;
  once : bool;
  dying : bool;
  rx : receiver;
  at_ : loop;
  pipeErr : option error;
  prClosed : bool;
  synDone : option (option error);
  got : list byte }.
Definition newStream : Stream := MkStream [] false false false 0 false false Between Selecting None false None [].

(** [pw.CloseWithError]: the first error stays. *)
Definition set_pipe (e : error) (s : Stream) : Stream :=
  MkStream (dataCh s) (chClosed s) (doneCh s) (closed s) (queuedBytes s) (once s) (dying s) (rx s) (at_ s)
    (match pipeErr s with Some e => Some e | None => Some e end) (prClosed s) (synDone s) (got s).
Definition close_pr (s : Stream) : Stream :=
  MkStream (dataCh s) (chClosed s) (doneCh s) (closed s) (queuedBytes s) (once s) (dying s) (rx s) (at_ s)
    (pipeErr s) true (synDone s) (got s).
Definition set_loop (l : loop) (s : Stream) : Stream :=
  MkStream (dataCh s) (chClosed s) (doneCh s) (closed s) (queuedBytes s) (once s) (dying s) (rx s) l
    (pipeErr s) (prClosed s) (synDone s) (got s).
Definition set_rx (r : receiver) (s : Stream) : Stream :=
  MkStream (dataCh s) (chClosed s) (doneCh s) (closed s) (queuedBytes s) (once s) (dying s) r (at_ s)
    (pipeErr s) (prClosed s) (synDone s) (got s).
Definition add_queued (n : Z) (s : Stream) : Stream :=
  MkStream (dataCh s) (chClosed s) (doneCh s) (closed s) (queuedBytes s + n) (once s) (dying s) (rx s) (at_ s)
    (pipeErr s) (prClosed s) (synDone s) (got s).
Definition set_chan (q : list (list byte)) (s : Stream) : Stream :=
  MkStream q (chClosed s) (doneCh s) (closed s) (queuedBytes s) (once s) (dying s) (rx s) (at_ s)
    (pipeErr s) (prClosed s) (synDone s) (got s).
Definition set_closed (s : Stream) : Stream :=
  MkStream (dataCh s) (chClosed s) (doneCh s) true (queuedBytes s) (once s) (dying s) (rx s) (at_ s)
    (pipeErr s) (prClosed s) (synDone s) (got s).
Definition set_synDone (a : option (option error)) (s : Stream) : Stream :=
  MkStream (dataCh s) (chClosed s) (doneCh s) (closed s) (queuedBytes s) (once s) (dying s) (rx s) (at_ s)
    (pipeErr s) (prClosed s) a (got s).
(** [defer s.pw.Close()]. *)
Definition exit_loop (s : Stream) : Stream := set_pipe EOF (set_loop Exited s).

(** [enqueue] in the steps other goroutines can run between: the load of [queuedBytes];
    the check of [closed] and the send, under [dataMu]; the add, [dataMu] still held. *)
Definition enqueue_load (data : list byte) (s : Stream) : Stream :=
  if dataQueueMaxBytes <? queuedBytes s + Z.of_nat (length data) then set_rx (Refused data) s else set_rx (Checked data) s.
Definition enqueue_send (s : Stream) : option Stream :=
  match rx s with
  | Checked data =>
      if closed s then Some (set_rx (Refused data) s)
      else if (length (dataCh s) <? dataQueueCap)%nat
      then Some (set_rx (Sent (Z.of_nat (length data))) (set_chan (dataCh s ++ [data]) s))
      else Some (set_rx (Refused data) s)
  | _ => None
  end.
Definition enqueue_add (s : Stream) : option Stream :=
  match rx s with Sent n => Some (set_rx Between (add_queued n s)) | _ => None end.
(** All of it: whether the frame was taken. *)
Definition enqueue (data : list byte) (s : Stream) : bool * Stream :=
  let s := enqueue_load data s in
  let s := default s (enqueue_send s) in
  let s := default s (enqueue_add s) in
  (match rx s with Refused _ => false | _ => true end, s).

(** The function of [dieOnce], with [close(done)] or not, up to [closeDataCh], which takes
    [dataMu]; and [closeDataCh]. *)
Definition die_begin (done : bool) (s : Stream) : Stream :=
  if once s then s
  else MkStream (dataCh s) (chClosed s) (done || doneCh s) (closed s) (queuedBytes s) true true (rx s) (at_ s)
         (pipeErr s) (prClosed s) (synDone s) (got s).
Definition closeDataCh (s : Stream) : Stream :=
  if dying s
  then MkStream (dataCh s) true (doneCh s) true (queuedBytes s) (once s) false (rx s) (at_ s)
         (pipeErr s) (prClosed s) (synDone s) (got s)
  else s.
Definition die (done : bool) (s : Stream) : Stream := closeDataCh (die_begin done s).

Definition closeLocally (s : Stream) : Stream := die false s.
Definition overflowClose (s : Stream) : Stream := set_pipe EOF (die true s).
Definition closePipe (s : Stream) : Stream := die true s.
Definition forceClose (s : Stream) : Stream := close_pr (die true s).
(** [CloseRemote] before it tells the session: whether it is the first close. *)
Definition CloseRemote (s : Stream) : bool * Stream := (negb (once s), set_pipe EOF (die false s)).
(** The read deadline fires. *)
Definition read_deadline (s : Stream) : Stream := set_pipe ErrDeadline s.

(** The SYNACK of a stream in [recvLoop]: [synDone] has room for one answer; a failure
    that finds none sets [closed] and then closes the pipe. *)
Definition synack_answer (data : list byte) : option error :=
  if (0 <? length data)%nat then Some (String.append "remote: " (String.string_of_list_byte data)) else None.
Definition synack_send (data : list byte) (s : Stream) : Stream :=
  match synDone s, synack_answer data with
  | None, ans => set_synDone (Some ans) s
  | Some _, Some e => set_rx (Failing e) (set_closed s)
  | Some _, None => s
  end.
Definition synack_fail (s : Stream) : option Stream :=
  match rx s with Failing e => Some (set_rx Between (set_pipe e s)) | _ => None end.
Definition synack (data : list byte) (s : Stream) : Stream :=
  let s := synack_send data s in default s (synack_fail s).

(** The steps of [writeLoop]; the [select] takes either ready case. *)
Definition loop_recv (s : Stream) : option Stream :=
  match at_ s, dataCh s with
  | Selecting, data :: q => Some (set_loop (Received data) (set_chan q s))
  | Selecting, [] => if chClosed s then Some (exit_loop s) else None
  | _, _ => None
  end.
Definition loop_sub (s : Stream) : option Stream :=
  match at_ s with
  | Received data => Some (set_loop (Writing data) (add_queued (- Z.of_nat (length data)) s))
  | _ => None
  end.
Definition loop_done (s : Stream) : option Stream :=
  match at_ s with
  | Selecting => if doneCh s then Some (exit_loop s) else None
  | _ => None
  end.
(** A read of [n] bytes meets the pending [pw.Write]. *)
Definition pipe_read (n : nat) (s : Stream) : option Stream :=
  match at_ s with
  | Writing data =>
      if prClosed s || bool_decide (is_Some (pipeErr s)) then None
      else
        Some (MkStream (dataCh s) (chClosed s) (doneCh s) (closed s) (queuedBytes s) (once s) (dying s) (rx s)
                (if (n <? length data)%nat then Writing (drop n data) else Selecting)
                (pipeErr s) (prClosed s) (synDone s) (got s ++ take n data))
  | _ => None
  end.
(** A pending [pw.Write] whose pipe is closed at either end. *)
Definition pipe_broken (s : Stream) : option Stream :=
  match at_ s with
  | Writing _ => if prClosed s || bool_decide (is_Some (pipeErr s)) then Some (exit_loop s) else None
  | _ => None
  end.
(** What [Read] returns when no write is pending ([None]: it waits). *)
Definition Read_end (s : Stream) : option error :=
  if prClosed s then Some ErrClosedPipe else pipeErr s.

(** The steps of a stream.  Of the receive loop: a PSH frame and the rest of [enqueue], a
    FIN, a SYNACK and the end of a failed one.  Of [writeLoop] and [Read].  [CallDie]: one of
    [CloseRemote], [overflowClose], [forceClose], [closePipe] enters [dieOnce]; [CloseCh]: its
    [closeDataCh] gets the lock; [ClosePw], [ClosePr]: what the methods do after it.
    [SynTaken]: [OpenStream] receives the answer.  [Deadline]: the read deadline fires. *)
Inductive event :=
| Psh (data : list byte) | Send | Add | Fin | Synack (data : list byte) | SynFail
| LoopRecv | LoopSub | LoopDone | PipeRead (n : nat) | PipeBroken
| CallDie (done : bool) | CloseCh | ClosePw | ClosePr | SynTaken | Deadline.

(** [f s], when the receive loop is between two frames. *)
Definition between (s : Stream) (f : Stream → Stream) : option Stream :=
  match rx s with Between => Some (f s) | _ => None end.
Definition has_lock (s : Stream) : bool := match rx s with Sent _ => true | _ => false end.

Definition step (s : Stream) (e : event) : option Stream :=
  match e with
  | Psh data => between s (enqueue_load data)
  | Send => enqueue_send s
  | Add => enqueue_add s
  | Fin => between s (λ s, set_rx Left (die_begin false s))
  | Synack data => between s (synack_send data)
  | SynFail => synack_fail s
  | LoopRecv => loop_recv s
  | LoopSub => loop_sub s
  | LoopDone => loop_done s
  | PipeRead n => pipe_read n s
  | PipeBroken => pipe_broken s
  | CallDie done => Some (die_begin done s)
  | CloseCh => if dying s && negb (has_lock s) then Some (closeDataCh s) else None
  | ClosePw => if once s && negb (dying s) then Some (set_pipe EOF s) else None
  | ClosePr => if once s && negb (dying s) then Some (close_pr s) else None
  | SynTaken => match synDone s with Some _ => Some (set_synDone None s) | None => None end
  | Deadline => Some (read_deadline s)
  end.

Fixpoint run (s : Stream) (es : list event) : option Stream :=
  match es with
  | [] => Some s
  | e :: es => s ← step s e; run s es
  end.

(** The data of the PSH frames that arrived. *)
Definition arrived (es : list event) : list byte :=
  concat (omap (λ e, match e with Psh d => Some d | _ => None end) es).

(** ** The receive loop (session.go) *)

Definition is_space (b : byte) : bool :=
  (b2z b =? 32) || ((9 <=? b2z b) && (b2z b <=? 13)).
Fixpoint trim_left (s : list byte) : list byte :=
  match s with
  | b :: s' => if is_space b then trim_left s' else s
  | [] => []
  end.
Definition TrimSpace (s : list byte) : list byte := reverse (trim_left (reverse (trim_left s))).

(** [parseStringMap]. *)
Definition parseStringMap (s : list byte) : gmap (list byte) (list byte) :=
  foldl (λ m line, match cut_byte line x3d with
                   | Some (k, v) => <[TrimSpace k := TrimSpace v]> m
                   | None => m
                   end) ∅ (split_byte x0a s).

(** [strconv.Atoi]. *)
Definition Atoi (s : list byte) : option Z :=
  let '(neg, digits) := match s with
                        | b :: s' => if bool_decide (b = x2d) then (true, s')
                                     else if bool_decide (b = x2b) then (false, s') else (false, s)
                        | [] => (false, s)
                        end in
  match parse_uint digits 64 with
  | (n, None) =>
      if neg then if n <=? 2 ^ 63 then Some (- n) else None
      else if n <? 2 ^ 63 then Some n else None
  | _ => None
  end.

(** [streams] are the stream objects by identifier, [open] those in the map of the
    session; an object lives on for its user after it left the map. *)
Record Session := MkSession {
  streams : gmap Z Stream;
  open : gset Z;
  dead : bool;
  streamID : Z;
  peerVersion : Z }.
(** What [Run] writes first. *)
Definition settings_frame : frame :=
  MkFrame cmdSettings 0 (lit "v=2" ++ [x0a] ++ lit "client=anytls/0.0.11" ++ [x0a]).
Definition NewClientSession : Session := MkSession ∅ ∅ false 0 0.

Definition set_stream (sid : Z) (st : Stream) (s : Session) : Session :=
  MkSession (<[sid := st]> (streams s)) (open s) (dead s) (streamID s) (peerVersion s).
Definition del_stream (sid : Z) (s : Session) : Session :=
  MkSession (streams s) (open s ∖ {[sid]}) (dead s) (streamID s) (peerVersion s).
Definition lookup_stream (sid : Z) (s : Session) : option Stream :=
  if bool_decide (sid ∈ open s) then streams s !! sid else None.

(** [Session.Close]. *)
Definition Session_Close (s : Session) : Session :=
  if dead s then s
  else MkSession (map_imap (λ sid st, Some (if bool_decide (sid ∈ open s) then forceClose st else st)) (streams s))
         ∅ true (streamID s) (peerVersion s).

(** What [OpenStream] waits for when it waits. *)
Inductive wait := Answered (e : option error) | TimedOut | Died.

(** [OpenStream] up to the wait; [werr]: the error of writing the SYN frame, after
    which the session is closed; [died]: another goroutine closes the session before the
    stream is registered.  The identifier, or an error. *)
Definition OpenStream (werr : option error) (died : bool) (s : Session) : (Z + error) * list frame * Session :=
  if dead s then (inr ErrClosedPipe, [], s)
  else
    let sid := u32 (streamID s + 1) in
    let s := MkSession (streams s) (open s) (dead s) sid (peerVersion s) in
    match werr with
    | Some e => (inr e, [newFrame cmdSYN sid], Session_Close s)
    | None =>
        if died then (inr ErrClosedPipe, [newFrame cmdSYN sid], Session_Close s)
        else (inl sid, [newFrame cmdSYN sid],
              MkSession (<[sid := newStream]> (streams s)) ({[sid]} ∪ open s) (dead s) sid (peerVersion s))
    end.
(** Whether it waits, and what comes of it; the answer it waited for has left [synDone]. *)
Definition must_wait (sid : Z) (s : Session) : bool := (2 <=? sid) && (2 <=? peerVersion s).
Definition upd_stream (sid : Z) (f : Stream → Stream) (s : Session) : Session :=
  match streams s !! sid with Some st => set_stream sid (f st) s | None => s end.
Definition open_wait (sid : Z) (w : wait) (s : Session) : option error * Session :=
  match w with
  | Answered None => (None, upd_stream sid (set_synDone None) s)
  | Answered (Some e) => (Some e, upd_stream sid (λ st, forceClose (set_synDone None st)) (del_stream sid s))
  | TimedOut => (Some "[anytls] stream open timeout: no SYNACK received"%string, upd_stream sid forceClose (del_stream sid s))
  | Died => (Some ErrClosedPipe, s)
  end.

(** [streamClosed]: the frame it writes. *)
Definition streamClosed (sid : Z) (s : Session) : list frame * Session :=
  if dead s then ([], s) else ([newFrame cmdFIN sid], del_stream sid s).

(** The commands whose body [recvLoop] leaves in the stream. *)
Definition no_body (cmd : Z) : bool := (cmd =? cmdFIN) || (cmd =? cmdHeartRequest) || (cmd =? cmdHeartResponse).

(** What [recvLoop] does with a frame it has read: the session and the frames it
    writes; [None]: it returns. *)
Definition handle_frame (f : frame) (s : Session) : option (Session * list frame) :=
  let sid := f_sid f in
  if f_cmd f =? cmdPSH then
    if (0 <? length (f_data f))%nat then
      match lookup_stream sid s with
      | None => Some (s, [])
      | Some st =>
          let '(ok, st') := enqueue (f_data f) st in
          if ok then Some (set_stream sid st' s, [])
          else Some (set_stream sid (overflowClose st') (del_stream sid s), [newFrame cmdFIN sid])
      end
    else Some (s, [])
  else if f_cmd f =? cmdFIN then
    Some (match lookup_stream sid s with
          | Some st => set_stream sid (set_rx Left (closeLocally st)) (del_stream sid s)
          | None => del_stream sid s
          end, [])
  else if f_cmd f =? cmdSYNACK then
    match lookup_stream sid s with
    | None => Some (s, [])
    | Some st => Some (set_stream sid (synack (f_data f) st) s, [])
    end
  else if f_cmd f =? cmdAlert then if (0 <? length (f_data f))%nat then None else Some (s, [])
  else if f_cmd f =? cmdServerSettings then
    Some (match (if (0 <? length (f_data f))%nat
                 then parseStringMap (f_data f) !! lit "v" ≫= Atoi else None) with
          | Some v => MkSession (streams s) (open s) (dead s) (streamID s) (u32 v)
          | None => s
          end, [])
  else if f_cmd f =? cmdHeartRequest then Some (s, [newFrame cmdHeartResponse sid])
  else Some (s, []).

(** The frame [recvLoop] reads: the body is read but for the commands above. *)
Definition read_frame (input : list byte) : outcome (frame * list byte) :=
  match ReadFull headerSize input with
  | Ok (h, input) =>
      let '(cmd, sid, len) := raw_header h in
      if no_body cmd then Ok (MkFrame cmd sid [], input)
      else match ReadFull len input with
           | Ok (data, input) => Ok (MkFrame cmd sid data, input)
           | Err e => Err e
           | _ => Panic
           end
  | Err e => Err e
  | _ => Panic
  end.

(** [recvLoop] over the bytes of the connection, at most [fuel] frames: the session
    and the frames written; [None]: it has returned. *)
Fixpoint recvLoop (fuel : nat) (input : list byte) (s : Session) : option (Session * list frame) :=
  match fuel with
  | O => Some (s, [])
  | S fuel =>
      if dead s then None
      else
        match read_frame input with
        | Ok (f, input) =>
            '(s, out) ← handle_frame f s;
            '(s, outs) ← recvLoop fuel input s; Some (s, out ++ outs)
        | _ => None
        end
  end.

(** ** The pool of sessions (client.go) *)

(** A session of the pool: [p_dead]: [die] is closed; [inIdle]; [since]; [users]: the
    streams handed out on it and not closed. *)
Record PSession := MkPSession {
  p_dead : bool;
  inIdle : bool;
  since : Z;
  users : nat }.

(** [idle] is [idleSessions]; [returning]: between the CAS of [returnToIdle] and its
    append; [closing]: about to be closed by [idleCleanup], by a failed [OpenStream] or
    after the client was closed. *)
Record Client := MkClient {
  all : list PSession;
  idle : list nat;
  returning : list nat;
  closing : list nat;
  ctxDone : bool;
  idleTimeout : Z }.
Definition NewClient (idleTimeout : Z) : Client :=
  MkClient [] [] [] [] false (if idleTimeout <? 5000000000 then 30000000000 else idleTimeout).

Definition upd_p (i : nat) (f : PSession → PSession) (c : Client) : Client :=
  MkClient (alter f i (all c)) (idle c) (returning c) (closing c) (ctxDone c) (idleTimeout c).
Definition set_idle (l : list nat) (c : Client) : Client :=
  MkClient (all c) l (returning c) (closing c) (ctxDone c) (idleTimeout c).
Definition use (p : PSession) : PSession := MkPSession (p_dead p) (inIdle p) (since p) (S (users p)).
Definition unuse (p : PSession) : PSession := MkPSession (p_dead p) (inIdle p) (since p) (pred (users p)).
Definition mark (b : bool) (p : PSession) : PSession := MkPSession (p_dead p) b (since p) (users p).
Definition is_dead (c : Client) (i : nat) : bool := match all c !! i with Some p => p_dead p | None => true end.

(** [getIdleSession]: the idle sessions newest first. *)
Fixpoint pop_idle (rev : list nat) (c : Client) : option nat * Client :=
  match rev with
  | [] => (None, set_idle [] c)
  | i :: rev =>
      let c := upd_p i (mark false) c in
      if is_dead c i then pop_idle rev c else (Some i, set_idle (reverse rev) c)
  end.
Definition getIdleSession (c : Client) : option nat * Client := pop_idle (reverse (idle c)) c.

(** [CreateStream] up to [OpenStream]: a session, reused or new ([dial_ok]: whether
    [dialOut] succeeds). *)
Definition CreateStream (dial_ok : bool) (c : Client) : option Client :=
  if ctxDone c then None
  else
    let '(i, c) := getIdleSession c in
    match i with
    | Some i => Some (upd_p i use c)
    | None =>
        if dial_ok then
          Some (MkClient (all c ++ [MkPSession false false 0 1]) (idle c) (returning c) (closing c)
                  (ctxDone c) (idleTimeout c))
        else Some c
    end.

Definition add_closing (i : nat) (c : Client) : Client :=
  MkClient (all c) (idle c) (returning c) (i :: closing c) (ctxDone c) (idleTimeout c).
(** [returnToIdle] up to its lock. *)
Definition returnToIdle (i : nat) (c : Client) : Client :=
  match all c !! i with
  | Some p =>
      if inIdle p then c
      else let c := upd_p i (mark true) c in
           MkClient (all c) (idle c) (i :: returning c) (closing c) (ctxDone c) (idleTimeout c)
  | None => c
  end.

Inductive pevent :=
| Create (dial_ok : bool)
| OpenFailed (i : nat)              (* OpenStream failed: sess.Close() *)
| StreamClose (i : nat)             (* the CloseFunc of a stream *)
| Append (i : nat) (now : Z)        (* the rest of returnToIdle *)
| Cleanup (now : Z)                 (* idleCleanup under its lock *)
| CloseNow (i : nat)                (* the sess.Close() of a session in closing *)
| Die (i : nat)                     (* recvLoop ends, a write fails, Client.Close *)
| Unmark (i : nat)                  (* DieHook: InIdle *)
| Unlist (i : nat)                  (* DieHook: idleSessions *)
| Cancel.                           (* Client.Close *)

Fixpoint remove_first (i : nat) (l : list nat) : list nat :=
  match l with
  | [] => []
  | j :: l => if (j =? i)%nat then l else j :: remove_first i l
  end.

(** [idleCleanup]: the sessions that stay, those to close, and the marks. *)
Fixpoint cleanup (exp : Z) (l : list nat) (c : Client) : list nat * list nat * Client :=
  match l with
  | [] => ([], [], c)
  | i :: l =>
      match all c !! i with
      | None => cleanup exp l c
      | Some p =>
          if p_dead p then cleanup exp l (upd_p i (mark false) c)
          else if since p <? exp then
            let '(keep, cl, c) := cleanup exp l (upd_p i (mark false) c) in (keep, i :: cl, c)
          else let '(keep, cl, c) := cleanup exp l c in (i :: keep, cl, c)
      end
  end.
Definition idleCleanup (now : Z) (c : Client) : Client :=
  let '(keep, cl, c) := cleanup (now - idleTimeout c) (idle c) c in
  MkClient (all c) keep (returning c) (cl ++ closing c) (ctxDone c) (idleTimeout c).

Definition kill (p : PSession) : PSession := MkPSession true (inIdle p) (since p) (users p).

Definition pstep (c : Client) (e : pevent) : option Client :=
  match e with
  | Create ok => CreateStream ok c
  | OpenFailed i =>
      p ← all c !! i;
      if (0 <? users p)%nat then Some (add_closing i (upd_p i unuse c)) else None
  | StreamClose i =>
      p ← all c !! i;
      if (0 <? users p)%nat then
        let c := upd_p i unuse c in
        if p_dead p then Some c
        else if ctxDone c then Some (add_closing i c)
        else Some (returnToIdle i c)
      else None
  | Append i now =>
      if bool_decide (i ∈ returning c) then
        let c := upd_p i (λ p, MkPSession (p_dead p) (inIdle p) now (users p)) c in
        Some (MkClient (all c) (idle c ++ [i]) (remove_first i (returning c)) (closing c) (ctxDone c) (idleTimeout c))
      else None
  | Cleanup now => Some (idleCleanup now c)
  | CloseNow i =>
      if bool_decide (i ∈ closing c) then
        let c := upd_p i kill c in
        Some (MkClient (all c) (idle c) (returning c) (remove_first i (closing c)) (ctxDone c) (idleTimeout c))
      else None
  | Die i => Some (upd_p i kill c)
  | Unmark i => if is_dead c i then Some (upd_p i (mark false) c) else None
  | Unlist i => if is_dead c i then Some (set_idle (remove_first i (idle c)) c) else None
  | Cancel => Some (MkClient (all c) (idle c) (returning c) (closing c) true (idleTimeout c))
  end.

Fixpoint prun (c : Client) (es : list pevent) : option Client :=
  match es with
  | [] => Some c
  | e :: es => c ← pstep c e; prun c es
  end.

(** ** The dialer (anytls.go) *)

Record AnyTLS := MkAnyTLS {
  a_addr : list byte;
  a_password : list byte;
  a_serverName : list byte;
  a_skipVerify : bool;
  a_certFile : list byte;
  a_idleCheckInterval : Z;
  a_idleTimeout : Z }.

Definition second : Z := 1000000000.

(** A number of seconds of the query, when it is a positive number. *)
Definition query_seconds (query : list (list byte * list byte)) (k : list byte) (dflt : Z) : Z :=
  match Atoi (query_get query k) with
  | Some n => if 0 <? n then i64 (n * second) else dflt
  | None => dflt
  end.

(** [NewAnyTLSDialer] of a URL's host, user name and query; [sha256] is
    [sha256.Sum256]; the certificate file is read by the caller of the model. *)
Definition NewAnyTLSDialer (sha256 : list byte → list byte) (host username : list byte)
    (query : list (list byte * list byte)) : AnyTLS + error :=
  let get k := query_get query (lit k) in
  if bool_decide (username = []) then inr "[anytls] password must be specified"%string
  else
    let addr := if bool_decide (host = []) then host
                else let '(_, port) := SplitHostPort_ host in
                     if bool_decide (port = []) then JoinHostPort host (lit "443") else host in
    let serverName := if bool_decide (host = []) || negb (bool_decide (get "serverName"%string = []))
                      then get "serverName"%string
                      else match last_index_byte addr c_colon with Some i => take i addr | None => addr end in
    inl (MkAnyTLS addr (sha256 username) serverName (bool_decide (get "skipVerify"%string = lit "true"))
           (get "cert"%string) (query_seconds query (lit "idleCheckInterval") (30 * second))
           (query_seconds query (lit "idleTimeout") (60 * second))).

(** What [createOutboundConn] writes after the TLS handshake: the hash and an empty
    padding. *)
Definition auth_buf (a : AnyTLS) : list byte :=
  take 32 (a_password a) ++ replicate (32 - length (a_password a)) x00 ++ be_bytes 2 0.

(** What [Dial] writes on its stream ([None]: the address does not parse). *)
Definition anytls_target (sid : Z) (addr : list byte) : option frame :=
  t ← socks_ParseAddr addr; Some (MkFrame cmdPSH sid t).
End AnyTls.
