(* ===== verification/AnyTlsProofs.v ===== *)
(** proxy/anytls/session: a stream delivers what was queued for it, frames survive
    the wire, and a pooled session serves one stream at a time. *)
From S2P Require Import Prelude GoStd Reader AnyTls.
Import AnyTls.

(** ** Streams *)

(** The data of the write loop that no read has taken, and of the receive loop that is not
    in the channel. *)
Definition in_flight (s : Stream) : list byte := match at_ s with Received d | Writing d => d | _ => [] end.
Definition not_sent (s : Stream) : list byte := match rx s with Checked d | Refused d => d | _ => [] end.
(** What [queuedBytes] still has to count: frames taken from the channel, and sent on it. *)
Definition to_sub (s : Stream) : Z := match at_ s with Received d => Z.of_nat (length d) | _ => 0 end.
Definition to_add (s : Stream) : Z := match rx s with Sent n => n | _ => 0 end.
(** The bytes that must fit under the limit before the next load. *)
Definition to_fit (s : Stream) : Z := match rx s with Checked d => Z.of_nat (length d) | Sent n => n | _ => 0 end.

(** A close, a deadline or a failed SYNACK breaks the stream off. *)
Definition ends (e : event) : Prop := match e with CallDie _ | ClosePw | ClosePr | SynFail | Deadline => True | _ => False end.

(** The bytes in the channel. *)
Definition chan_bytes (s : Stream) : Z := Z.of_nat (length (concat (dataCh s))).

(** What holds after frames with the data [enq]; [soft]: no event that breaks the stream
    off. *)
Record stream_inv (enq : list byte) (soft : Prop) (s : Stream) : Prop := {
  v_data : at_ s ≠ Exited → got s ++ in_flight s ++ concat (dataCh s) ++ not_sent s = enq;
  v_prefix : got s `prefix_of` enq;
  v_queue : (length (dataCh s) <= dataQueueCap)%nat;
  v_bytes : queuedBytes s + to_add s = chan_bytes s + to_sub s;
  v_max : queuedBytes s + to_fit s <= dataQueueMaxBytes;
  v_add : 0 <= to_add s;
  v_once : dying s = true ∨ chClosed s = true → once s = true;
  v_soft : soft → prClosed s = false ∧ doneCh s = false ∧ (once s = true → rx s = Left) ∧
           (at_ s ≠ Exited → pipeErr s = None) ∧
           (at_ s = Exited → pipeErr s = Some EOF ∧ chClosed s = true ∧ got s = enq) }.

Lemma stream_inv_new : stream_inv [] True newStream.
Proof. split; simpl; try done; unfold dataQueueCap, dataQueueMaxBytes; simpl; lia. Qed.

(** Unfolds a step and the parts of the state it looks at. *)
Ltac stream_simpl :=
  unfold in_flight, not_sent, to_sub, to_add, to_fit, chan_bytes, exit_loop, set_pipe, set_loop, set_rx, add_queued,
    set_chan, set_closed, set_synDone, close_pr, read_deadline in *; cbn in *.
(** What is left of the channel when it grew by a frame or lost one. *)
Ltac chan_simpl := rewrite ?concat_app, ?length_app in *; cbn [concat length] in *; rewrite ?app_nil_r, ?length_app in *.

Lemma inv_psh enq soft s data s' :
  stream_inv enq soft s → step s (Psh data) = Some s' → stream_inv (enq ++ data) soft s'.
Proof.
  intros [D P Q B X A O S]. unfold step, between. destruct (rx s) eqn:Er; try done. intros [= <-]. unfold enqueue_load.
  assert (soft → at_ s = Exited → False) as Hno.
  { intros Hs Hx. destruct (S Hs) as (_ & _ & S3 & _ & S5). destruct (S5 Hx) as (_ & Hc & _). specialize (S3 (O (or_intror Hc))). congruence. }
  destruct (Z.ltb_spec dataQueueMaxBytes (queuedBytes s + Z.of_nat (length data))); stream_simpl; rewrite Er in *;
    (split; stream_simpl; try done; try lia;
     [intros Hx; rewrite <- (D Hx), app_nil_r, <- !app_assoc; done
     |by apply prefix_app_r
     |intros Hs; destruct (S Hs) as (S1 & S2 & S3 & S4 & S5); split_and!; try done;
      [intros Ho; specialize (S3 Ho); congruence|intros Hx; by destruct (Hno Hs Hx)]]).
Qed.

Lemma inv_enqueue_send enq soft s s' : stream_inv enq soft s → step s Send = Some s' → stream_inv enq soft s'.
Proof.
  intros [D P Q B X A O S]. unfold step, enqueue_send. destruct (rx s) as [|data| | | |] eqn:Er; try done. stream_simpl. rewrite Er in *.
  pose proof (Zle_0_nat (length data)).
  destruct (closed s); [|destruct (Nat.ltb_spec (length (dataCh s)) dataQueueCap)]; intros [= <-];
    (split; stream_simpl; try done; try lia);
    try (intros Hs; destruct (S Hs) as (S1 & S2 & S3 & S4 & S5); split_and!; try done; intros Ho; specialize (S3 Ho); congruence).
  - intros Hx. rewrite <- (D Hx). chan_simpl. done.
  - chan_simpl. lia.
  - chan_simpl. lia.
Qed.

Lemma inv_add enq soft s s' : stream_inv enq soft s → step s Add = Some s' → stream_inv enq soft s'.
Proof.
  intros [D P Q B X A O S]. unfold step, enqueue_add. destruct (rx s) eqn:Er; try done. intros [= <-]. stream_simpl. rewrite Er in *.
  split; stream_simpl; try done; try lia.
  intros Hs. destruct (S Hs) as (S1 & S2 & S3 & S4 & S5). split_and!; try done. intros Ho. specialize (S3 Ho). congruence.
Qed.

Lemma inv_loop_recv enq soft s s' : stream_inv enq soft s → loop_recv s = Some s' → stream_inv enq soft s'.
Proof.
  intros [D P Q B X A O S]. unfold loop_recv. destruct (at_ s) as [|d|d|] eqn:Ea; try done. stream_simpl. rewrite Ea in *.
  specialize (D ltac:(done)). destruct (dataCh s) as [|data q] eqn:Eq.
  - destruct (chClosed s) eqn:Ec; [|done]. intros [= <-]. cbn in D. split; stream_simpl; try rewrite Eq; try rewrite Ec; try done.
    intros Hs. destruct (S Hs) as (S1 & S2 & S3 & S4 & _). rewrite (S4 ltac:(done)). split_and!; try done. intros _. split_and!; try done.
    rewrite (S3 (O (or_intror eq_refl))) in D. by rewrite app_nil_r in D.
  - intros [= <-]. chan_simpl. cbn in D, Q. split; stream_simpl; try done; try lia.
    + intros _. rewrite <- D, <- !app_assoc. done.
    + intros Hs. destruct (S Hs) as (S1 & S2 & S3 & S4 & S5). split_and!; try done. intros _. by apply S4.
Qed.

Lemma inv_loop_sub enq soft s s' : stream_inv enq soft s → loop_sub s = Some s' → stream_inv enq soft s'.
Proof.
  intros [D P Q B X A O S]. unfold loop_sub. destruct (at_ s) as [|d|d|] eqn:Ea; try done. intros [= <-]. stream_simpl. rewrite Ea in *.
  pose proof (Zle_0_nat (length d)).
  split; stream_simpl; try done; try lia; [intros _; by apply D|].
  intros Hs. destruct (S Hs) as (S1 & S2 & S3 & S4 & S5). split_and!; try done. intros _. by apply S4.
Qed.

Lemma inv_pipe_read enq soft s n s' : stream_inv enq soft s → pipe_read n s = Some s' → stream_inv enq soft s'.
Proof.
  intros [D P Q B X A O S]. unfold pipe_read. destruct (at_ s) as [|d|d|] eqn:Ea; try done.
  destruct (prClosed s || _) eqn:Ep; [done|]. intros [= <-]. stream_simpl. rewrite Ea in *. specialize (D ltac:(done)).
  assert ((if (n <? length d)%nat then Writing (drop n d) else Selecting) ≠ Exited) as Hne by (destruct (n <? length d)%nat; discriminate).
  split; stream_simpl; try done.
  - intros _. rewrite <- D, <- !app_assoc. f_equal.
    destruct (Nat.ltb_spec n (length d)); [by rewrite (assoc_L (++)), take_drop|by rewrite take_ge].
  - rewrite <- D. apply prefix_app. rewrite <- (take_drop n d) at 2. rewrite <- app_assoc. by apply prefix_app_r.
  - rewrite B. by case_match.
  - intros Hs. destruct (S Hs) as (S1 & S2 & S3 & S4 & S5). split_and!; try done. intros _. by apply S4.
Qed.

(** A change of the stream that leaves its data and its counters alone. *)
Lemma inv_ending enq soft s s' :
  stream_inv enq soft s → dataCh s' = dataCh s → queuedBytes s' = queuedBytes s → at_ s' = at_ s → got s' = got s →
  not_sent s' = not_sent s → to_add s' = to_add s → to_fit s' = to_fit s →
  (dying s' = true ∨ chClosed s' = true → once s' = true) → stream_inv enq False s'.
Proof.
  intros [D P Q B X A O S] Hd Hq Ha Hg Hn Hta Htf Ho. unfold in_flight, to_sub, chan_bytes in *.
  split; unfold in_flight, to_sub, chan_bytes; rewrite ?Hn, ?Hta, ?Htf, ?Hd, ?Hq, ?Ha, ?Hg; done.
Qed.

(** The loop leaves with data it could not deliver. *)
Lemma inv_exit enq (soft : Prop) s : at_ s ≠ Exited → to_sub s = 0 → stream_inv enq soft s → ¬ soft → stream_inv enq soft (exit_loop s).
Proof. intros Ha Hz [D P Q B X A O S] Hn. split; stream_simpl; try done. lia. Qed.

Lemma inv_fin enq soft s s' : stream_inv enq soft s → step s Fin = Some s' → stream_inv enq soft s'.
Proof.
  intros [D P Q B X A O S]. unfold step, between. destruct (rx s) eqn:Er; try done. intros [= <-]. unfold die_begin. stream_simpl. rewrite Er in *.
  destruct (once s) eqn:Eo; (split; stream_simpl; try done; try (by rewrite Eo));
    intros Hs; destruct (S Hs) as (S1 & S2 & S3 & S4 & S5); split_and!; try done; by rewrite S2.
Qed.

Lemma inv_close_ch enq soft s s' : stream_inv enq soft s → step s CloseCh = Some s' → stream_inv enq soft s'.
Proof.
  intros [D P Q B X A O S]. unfold step, closeDataCh. destruct (dying s) eqn:Ed; [|done]. destruct (has_lock s); [done|]. intros [= <-].
  split; stream_simpl; try done; [intros _; apply O; by left|].
  intros Hs. destruct (S Hs) as (S1 & S2 & S3 & S4 & S5). split_and!; try done. intros Hx. by destruct (S5 Hx) as (? & _ & ?).
Qed.

Lemma inv_synack enq soft s data s' : stream_inv enq soft s → step s (Synack data) = Some s' → stream_inv enq soft s'.
Proof.
  intros Hinv. pose proof Hinv as [D P Q B X A O S]. unfold step, between. destruct (rx s) eqn:Er; try done. intros [= <-]. unfold synack_send.
  destruct (synDone s), (synack_answer data); try done; stream_simpl; rewrite Er in *; (split; stream_simpl; rewrite ?Er; try done);
    intros Hs; destruct (S Hs) as (S1 & S2 & S3 & S4 & S5); split_and!; try done; intros Ho; specialize (S3 Ho); congruence.
Qed.

Lemma inv_stream_step enq soft s e s' :
  stream_inv enq soft s → step s e = Some s' → stream_inv (enq ++ arrived [e]) (soft ∧ ¬ ends e) s'.
Proof.
  intros Hinv Hstep. pose proof Hinv as [D P Q B X A O S].
  assert (∀ enq s, stream_inv enq soft s → stream_inv enq (soft ∧ ¬ False) s) as Hw.
  { intros e' x [? ? ? ? ? ? ? V]. split; try done. intros [Hs _]. by apply V. }
  assert (∀ s, stream_inv enq False s → stream_inv enq (soft ∧ ¬ True) s) as Hend.
  { intros x [? ? ? ? ? ? ? V]. split; try done. by intros [_ []]. }
  destruct e; unfold arrived; cbn [omap list_omap concat ends]; rewrite ?app_nil_r.
  - apply Hw. by apply (inv_psh _ _ s).
  - apply Hw. by apply (inv_enqueue_send enq soft s).
  - apply Hw. by apply (inv_add enq soft s).
  - apply Hw. by apply (inv_fin enq soft s).
  - apply Hw. by apply (inv_synack enq soft s data).
  - apply Hend. cbn in Hstep. unfold synack_fail in Hstep. destruct (rx s) eqn:Er; try done. simplify_eq.
    apply (inv_ending enq soft s); stream_simpl; rewrite ?Er; done.
  - apply Hw. by apply (inv_loop_recv enq soft s).
  - apply Hw. by apply (inv_loop_sub enq soft s).
  - apply Hw. cbn in Hstep. unfold loop_done in Hstep. destruct (at_ s) eqn:Ea; try done.
    destruct (doneCh s) eqn:Ed; [|done]. simplify_eq. apply inv_exit; [by rewrite Ea|unfold to_sub; by rewrite Ea|done|]. intros Hs. destruct (S Hs) as (_ & ? & _). congruence.
  - apply Hw. by apply (inv_pipe_read enq soft s n).
  - apply Hw. cbn in Hstep. unfold pipe_broken in Hstep. destruct (at_ s) eqn:Ea; try done.
    destruct (prClosed s || _) eqn:Ep; [|done]. simplify_eq. apply inv_exit; [by rewrite Ea|unfold to_sub; by rewrite Ea|done|].
    intros Hs. destruct (S Hs) as (S1 & _ & _ & S4 & _). rewrite S1, S4 in Ep by congruence. done.
  - apply Hend. cbn in Hstep. simplify_eq. unfold die_begin. destruct (once s) eqn:Eo;
      apply (inv_ending enq soft s); stream_simpl; try done; by rewrite Eo.
  - apply Hw. by apply (inv_close_ch enq soft s).
  - apply Hend. cbn in Hstep. case_match; [|done]. simplify_eq. by apply (inv_ending enq soft s).
  - apply Hend. cbn in Hstep. case_match; [|done]. simplify_eq. by apply (inv_ending enq soft s).
  - apply Hw. cbn in Hstep. case_match; [|done]. simplify_eq. by split.
  - apply Hend. cbn in Hstep. simplify_eq. by apply (inv_ending enq soft s).
Qed.

Lemma inv_stream_run enq soft s es s' :
  stream_inv enq soft s → run s es = Some s' →
  stream_inv (enq ++ arrived es) (soft ∧ Forall (λ e, ¬ ends e) es) s'.
Proof.
  revert enq soft s. induction es as [|e es IH]; intros enq soft s Hinv Hr; simpl in Hr.
  - simplify_eq. destruct Hinv as [? ? ? ? ? ? ? V]. unfold arrived. simpl. rewrite app_nil_r.
    split; try done. intros [Hs _]. by apply V.
  - destruct (step s e) as [s1|] eqn:E; [|done]. simpl in Hr.
    pose proof (IH _ _ _ (inv_stream_step _ _ _ _ _ Hinv E) Hr) as [? ? ? ? ? ? ? V].
    assert ((enq ++ arrived [e]) ++ arrived es = enq ++ arrived (e :: es)) as He.
    { unfold arrived. rewrite <- app_assoc, <- concat_app, <- omap_app. done. }
    rewrite He in *. split; try done. intros [Hs Hes]. apply Forall_cons in Hes as [? ?]. by apply V.
Qed.

(** C15: A stream under any interleaving of the receive loop, its write loop, reads, closes,
    SYNACKs and deadlines: what was read is a beginning of what arrived, in order.  The queue
    holds at most 64 frames and 4 MiB, and so much does [queuedBytes] say, which is its bytes
    but for the frame the write loop has taken and not counted off and the one the receive
    loop has sent and not counted.  If no close, no deadline and no failed SYNACK broke the
    stream off, it ends only after the peer's FIN, with everything that arrived delivered
    and [io.EOF]. *)
Theorem anytls_stream es s :
  run newStream es = Some s →
  got s `prefix_of` arrived es ∧
  (length (dataCh s) <= 64)%nat ∧ chan_bytes s <= 4 * 1024 * 1024 ∧ queuedBytes s <= 4 * 1024 * 1024 ∧
  queuedBytes s + to_add s = chan_bytes s + to_sub s ∧
  (Forall (λ e, ¬ ends e) es → at_ s = Exited → got s = arrived es ∧ Read_end s = Some EOF).
Proof.
  intros Hr. destruct (inv_stream_run [] True newStream es s stream_inv_new Hr) as [D P Q B X A O S].
  change dataQueueMaxBytes with (4 * 1024 * 1024) in X.
  assert (to_add s <= to_fit s ∧ 0 <= to_sub s) as [? ?] by (unfold to_add, to_fit, to_sub; split; repeat case_match; lia).
  split; [done|]. split; [done|]. split; [lia|]. split; [lia|]. split; [done|].
  intros He Hx. destruct S as (S1 & _ & _ & _ & S5); [done|]. destruct (S5 Hx) as (Hp & _ & Hg).
  split; [done|]. unfold Read_end. by rewrite S1.
Qed.

(** What [recvLoop] does to the stream of a frame is a run of these steps. *)
Lemma enqueue_run data s :
  rx s = Between → ∃ es, run s es = Some (enqueue data s).2 ∧ arrived es = data.
Proof.
  intros Hr. assert (∀ e, arrived (Psh data :: e) = data ++ arrived e) as Ha by done.
  unfold enqueue. destruct (enqueue_load data s) as [] eqn:El. rewrite <- El. unfold enqueue_load in *.
  destruct (dataQueueMaxBytes <? _) eqn:Em.
  - exists [Psh data]. split; [|by rewrite Ha, app_nil_r]. cbn [run step]. unfold between, enqueue_load. by rewrite Hr, Em.
  - destruct (closed s) eqn:Ec; [|destruct (length (dataCh s) <? dataQueueCap)%nat eqn:En].
    + exists [Psh data; Send]. split; [|by rewrite Ha, app_nil_r]. cbn [run step]. unfold between, enqueue_load. rewrite Hr, Em. cbn. by rewrite Ec.
    + exists [Psh data; Send; Add]. split; [|by rewrite Ha, app_nil_r]. cbn [run step]. unfold between, enqueue_load. rewrite Hr, Em. cbn. by rewrite Ec, En.
    + exists [Psh data; Send]. split; [|by rewrite Ha, app_nil_r]. cbn [run step]. unfold between, enqueue_load. rewrite Hr, Em. cbn. by rewrite Ec, En.
Qed.
Lemma synack_run data s : rx s = Between → ∃ es, run s es = Some (synack data s).
Proof.
  intros Hr. unfold synack. destruct (synack_fail (synack_send data s)) as [s'|] eqn:E.
  - exists [Synack data; SynFail]. cbn [run step]. unfold between. rewrite Hr. cbn. by rewrite E.
  - exists [Synack data]. cbn [run step]. unfold between. by rewrite Hr.
Qed.
Lemma fin_run s : rx s = Between → dying s = false → ∃ es, run s es = Some (set_rx Left (closeLocally s)).
Proof.
  intros Hr Hd. unfold closeLocally, die, die_begin. destruct (once s) eqn:Eo.
  - exists [Fin]. cbn [run step]. unfold between, die_begin, closeDataCh. by rewrite Hr, Eo, Hd.
  - exists [Fin; CloseCh]. cbn [run step]. unfold between, die_begin. rewrite Hr, Eo. done.
Qed.

(** The first stream of a session does not wait for its SYNACK, and nobody takes the answer
    from [synDone]: a failure stays in the channel, and the stream as open as before. *)
Lemma first_synack_lost sid data s st :
  lookup_stream sid s = Some st → synDone st = None → rx st = Between → must_wait 1 s = false ∧
  handle_frame (MkFrame cmdSYNACK sid data) s =
    Some (set_stream sid (set_synDone (Some (synack_answer data)) st) s, []).
Proof.
  intros Hl Hd Hr. split; [done|]. unfold handle_frame. cbn [f_cmd f_sid f_data]. rewrite Hl.
  unfold synack, synack_send, synack_fail. rewrite Hd. cbn. by rewrite Hr.
Qed.

(** ** Frames *)

(** The frames the peer's loop reads whole: a body only where it reads one. *)
Definition frame_ok (f : frame) : Prop :=
  0 <= f_cmd f < 256 ∧ 0 <= f_sid f < 2 ^ 32 ∧ Z.of_nat (length (f_data f)) < 2 ^ 16 ∧
  (no_body (f_cmd f) = true → f_data f = []).

(** The header of a frame with whatever data, as the reader sees it. *)
Lemma raw_header_frame cmd sid len :
  0 <= cmd < 256 → 0 <= sid < 2 ^ 32 →
  raw_header (z2b cmd :: be_bytes 4 sid ++ be_bytes 2 (u16 len)) = (cmd, sid, Z.to_nat (len mod 2 ^ 16)).
Proof.
  intros Hc Hs. unfold raw_header.
  assert (take 1 (z2b cmd :: be_bytes 4 sid ++ be_bytes 2 (u16 len)) = [z2b cmd]) as -> by done.
  change (drop 1 (z2b cmd :: ?l)) with l. change (drop 5 (z2b cmd :: ?l)) with (drop 4 l).
  rewrite take_app_length', drop_app_length' by (by rewrite length_be_bytes).
  rewrite take_ge by (rewrite length_be_bytes; lia). rewrite be32_id, be_val_bytes by lia.
  assert (be_val [z2b cmd] = cmd) as -> by (unfold be_val; simpl; rewrite b2z_z2b_small by lia; lia).
  unfold u16. change (256 ^ Z.of_nat 2) with (2 ^ 16). by rewrite Z.mod_mod by lia.
Qed.

Lemma frame_buf_split f rest :
  frame_buf f ++ rest =
  (z2b (f_cmd f) :: be_bytes 4 (f_sid f) ++ be_bytes 2 (u16 (Z.of_nat (length (f_data f))))) ++ f_data f ++ rest.
Proof.
  unfold frame_buf. rewrite <- !app_comm_cons, <- !app_assoc. done.
Qed.

Lemma length_header cmd sid len : length (z2b cmd :: be_bytes 4 sid ++ be_bytes 2 len) = headerSize.
Proof. by rewrite length_cons, length_app, !length_be_bytes. Qed.

Lemma read_frame_buf f rest : frame_ok f → read_frame (frame_buf f ++ rest) = Ok (f, rest).
Proof.
  intros (Hc & Hs & Hl & Hb). destruct f as [cmd sid data]. cbn [f_cmd f_sid f_data] in *.
  unfold read_frame. rewrite frame_buf_split. cbn [f_cmd f_sid f_data].
  rewrite ReadFull_exact, raw_header_frame by (done || apply length_header). rewrite Z.mod_small, Nat2Z.id by lia.
  destruct (no_body cmd); [by rewrite (Hb eq_refl)|]. by rewrite ReadFull_app.
Qed.

(** What a session does with frames it is given directly. *)
Fixpoint handle_all (fs : list frame) (s : Session) : option (Session * list frame) :=
  match fs with
  | [] => Some (s, [])
  | f :: fs =>
      if dead s then None
      else
        '(s, out) ← handle_frame f s;
        '(s, outs) ← handle_all fs s; Some (s, out ++ outs)
  end.

(** The receive loop over the bytes of any frames the peer wrote does what handling
    those frames one by one does: no frame is split, merged or lost on the wire. *)
Theorem anytls_recv fs s :
  Forall frame_ok fs → recvLoop (length fs) (concat (map frame_buf fs)) s = handle_all fs s.
Proof.
  intros Hfs. revert s. induction Hfs as [|f fs Hf _ IH]; intros s; [done|].
  cbn [length map concat recvLoop handle_all]. destruct (dead s); [done|].
  rewrite read_frame_buf by done. destruct (handle_frame f s) as [[s' out]|]; [|done]. cbn. by rewrite IH.
Qed.

(** A [Write] of 65536 bytes or more is put on the wire with its length cut to 16
    bits: the peer takes only the first bytes as data and reads the next frame header
    out of the middle of the data. *)
Theorem anytls_long_write sid data rest :
  0 <= sid < 2 ^ 32 → 2 ^ 16 <= Z.of_nat (length data) →
  let n := Z.to_nat (Z.of_nat (length data) mod 2 ^ 16) in
  read_frame (frame_buf (MkFrame cmdPSH sid data) ++ rest) =
  Ok (MkFrame cmdPSH sid (take n data), drop n data ++ rest) ∧ (n < length data)%nat.
Proof.
  intros Hs Hl n. pose proof (Z.mod_pos_bound (Z.of_nat (length data)) (2 ^ 16) ltac:(lia)) as Hm.
  assert (n < length data)%nat as Hn by lia. split; [|done].
  unfold read_frame. rewrite frame_buf_split. cbn [f_cmd f_sid f_data].
  rewrite ReadFull_exact, raw_header_frame by (done || apply length_header). fold n. change (no_body cmdPSH) with false. cbv iota.
  rewrite <- (take_drop n data) at 1. rewrite <- app_assoc, ReadFull_exact; [done|]. rewrite length_take. lia.
Qed.

(** Every byte written to a session goes to the connection, in order, buffered or
    not. *)
Lemma session_writes_all w ops :
  (session_writes w ops).1 ++ buffer (session_writes w ops).2 = buffer w ++ concat (omap id ops).
Proof.
  revert w. induction ops as [|[b|] ops IH]; intros w; simpl; [by rewrite app_nil_r| |exact (IH (flushBuffering w))].
  unfold writeConn. destruct (buffering w); [|destruct (Nat.ltb_spec 0 (length (buffer w)))].
  - specialize (IH (MkWconn true (buffer w ++ b))). destruct (session_writes _ _) as [o w']. simpl in *.
    by rewrite IH, <- app_assoc.
  - specialize (IH (MkWconn false [])). destruct (session_writes _ _) as [o w']. simpl in *.
    by rewrite <- !app_assoc, IH.
  - destruct (buffer w) eqn:E; simpl in *; [|lia].
    specialize (IH w). destruct (session_writes _ _) as [o w']. simpl in *. rewrite E in IH. by rewrite <- app_assoc, IH.
Qed.
