(* ===== verification/AnyTlsPool.v ===== *)
(** proxy/anytls/session/client.go: a pooled session is in one place at a time. *)
From S2P Require Import Prelude GoStd Reader AnyTls.
Import AnyTls.

(** ** Occurrences *)

Fixpoint cnt (i : nat) (l : list nat) : nat :=
  match l with
  | [] => 0
  | j :: l => if decide (i = j) then S (cnt i l) else cnt i l
  end.

Lemma cnt_app i l1 l2 : cnt i (l1 ++ l2) = (cnt i l1 + cnt i l2)%nat.
Proof. induction l1 as [|j l1 IH]; [done|]. simpl. rewrite IH. by case_decide. Qed.
Lemma cnt_reverse i l : cnt i (reverse l) = cnt i l.
Proof.
  induction l as [|j l IH]; [done|]. rewrite reverse_cons, cnt_app, IH. simpl. case_decide; lia.
Qed.
Lemma cnt_elem i l : i ∈ l → (0 < cnt i l)%nat.
Proof. induction 1; simpl; case_decide; done || lia. Qed.
Lemma cnt_remove i j l : cnt i (remove_first j l) = (cnt i l - (if decide (i = j) then 1 else 0))%nat.
Proof.
  induction l as [|k l IH]; simpl; [by case_decide|].
  destruct (Nat.eqb_spec k j); simpl; rewrite ?IH; repeat case_decide; subst; lia || done.
Qed.

(** ** The invariant *)

(** The places a session can be in: used by a stream, idle, on its way back, about
    to be closed. *)
Definition places (c : Client) (i : nat) (p : PSession) : nat :=
  users p + cnt i (idle c) + cnt i (returning c) + cnt i (closing c).

Record pool_inv (c : Client) : Prop := {
  q_dom : ∀ i, (length (all c) <= i)%nat →
          cnt i (idle c) = 0%nat ∧ cnt i (returning c) = 0%nat ∧ cnt i (closing c) = 0%nat;
  q_sum : ∀ i p, all c !! i = Some p → (places c i p <= 1)%nat ∧ (p_dead p = false → places c i p = 1%nat);
  q_mark : ∀ i p, all c !! i = Some p → p_dead p = false → inIdle p = true →
           (cnt i (idle c) + cnt i (returning c))%nat = 1%nat }.

(** A step that keeps the sessions: it suffices to look at each of them. *)
Lemma pool_inv_pw c c' :
  pool_inv c → length (all c') = length (all c) →
  (∀ i, (length (all c) <= i)%nat →
     cnt i (idle c') = 0%nat ∧ cnt i (returning c') = 0%nat ∧ cnt i (closing c') = 0%nat) →
  (∀ i p p', all c !! i = Some p → all c' !! i = Some p' →
     (places c' i p' <= places c i p)%nat ∧
     (p_dead p' = false → p_dead p = false ∧ places c' i p' = places c i p ∧
        (inIdle p' = true → (cnt i (idle c') + cnt i (returning c'))%nat = 1%nat))) →
  pool_inv c'.
Proof.
  intros [Hd Hs Hm] Hlen Hdom H. split.
  - intros i Hi. apply Hdom. lia.
  - intros i p' Hp'. destruct (lookup_lt_is_Some_2 (all c) i) as [p Hp].
    { rewrite <- Hlen. by eapply lookup_lt_Some. }
    destruct (H i p p' Hp Hp') as [Hle Hlive], (Hs i p Hp) as [Hs1 Hs2]. split; [lia|].
    intros Hdead. destruct (Hlive Hdead) as (Hdp & -> & _). by apply Hs2.
  - intros i p' Hp' Hdead Hi. destruct (lookup_lt_is_Some_2 (all c) i) as [p Hp].
    { rewrite <- Hlen. by eapply lookup_lt_Some. }
    by apply (H i p p' Hp Hp').
Qed.

Lemma lookup_upd i j f c : all (upd_p i f c) !! j = if decide (i = j) then f <$> all c !! j else all c !! j.
Proof.
  simpl. case_decide as E; [subst; apply list_lookup_alter_eq|by apply list_lookup_alter_ne].
Qed.

(** Marks may have been cleared, nothing else. *)
Definition cleared (c c' : Client) : Prop :=
  length (all c') = length (all c) ∧ returning c' = returning c ∧ closing c' = closing c ∧
  ctxDone c' = ctxDone c ∧ idleTimeout c' = idleTimeout c ∧
  ∀ i p p', all c !! i = Some p → all c' !! i = Some p' →
    p_dead p' = p_dead p ∧ users p' = users p ∧ since p' = since p ∧ (inIdle p' = true → inIdle p = true).

Lemma cleared_refl c : cleared c c.
Proof. repeat split; naive_solver. Qed.

Lemma cleared_trans c1 c2 c3 : cleared c1 c2 → cleared c2 c3 → cleared c1 c3.
Proof.
  intros (L1 & R1 & C1 & D1 & T1 & H1) (L2 & R2 & C2 & D2 & T2 & H2). do 5 (split; [congruence|]).
  intros i p p3 Hp Hp3. destruct (lookup_lt_is_Some_2 (all c2) i) as [p2 Hp2].
  { rewrite L1. by eapply lookup_lt_Some. }
  destruct (H1 i p p2) as (? & ? & ? & ?); [done..|]. destruct (H2 i p2 p3) as (? & ? & ? & ?); [done..|].
  do 3 (split; [congruence|]). auto.
Qed.

Lemma cleared_mark i c : cleared c (upd_p i (mark false) c).
Proof.
  split; [by apply length_alter|]. do 4 (split; [done|]). intros j p p' Hp. rewrite lookup_upd, Hp.
  case_decide; simpl; intros [= <-]; naive_solver.
Qed.

Lemma cleared_set_idle l c : cleared c (set_idle l c).
Proof. repeat split; naive_solver. Qed.

Lemma cleared_dead c c' i : cleared c c' → is_dead c' i = is_dead c i.
Proof.
  intros (L & _ & _ & _ & _ & H). unfold is_dead.
  destruct (all c !! i) as [p|] eqn:Hp, (all c' !! i) as [p'|] eqn:Hp'; try done.
  - by destruct (H i p p' Hp Hp').
  - apply lookup_ge_None in Hp'. apply lookup_lt_Some in Hp. lia.
  - apply lookup_ge_None in Hp. apply lookup_lt_Some in Hp'. lia.
Qed.

(** [getIdleSession] skips dead sessions and takes the newest live one. *)
Lemma pop_idle_spec rev c r c' :
  pop_idle rev c = (r, c') → cleared c c' ∧
  match r with
  | None => idle c' = [] ∧ Forall (λ i, is_dead c i = true) rev
  | Some k => ∃ pre post, rev = pre ++ k :: post ∧ idle c' = reverse post ∧
      Forall (λ i, is_dead c i = true) pre ∧ is_dead c k = false ∧
      ∀ p, all c' !! k = Some p → inIdle p = false
  end.
Proof.
  revert c. induction rev as [|i rev IH]; intros c H; simpl in H.
  - simplify_eq. split; [apply cleared_set_idle|done].
  - pose proof (cleared_mark i c) as Hm. rewrite (cleared_dead _ _ i Hm) in H.
    destruct (is_dead c i) eqn:Ed.
    + apply IH in H as [Hc Hr]. split; [by eapply cleared_trans|].
      assert (∀ l, Forall (λ j, is_dead (upd_p i (mark false) c) j = true) l → Forall (λ j, is_dead c j = true) l) as Hf
        by (intros l Hl; eapply Forall_impl; [exact Hl|]; intros j; simpl; by rewrite (cleared_dead _ _ j Hm)).
      destruct r as [k|].
      * destruct Hr as (pre & post & -> & Hi & Hpre & Hk & Hmk). exists (i :: pre), post.
        rewrite (cleared_dead _ _ k Hm) in Hk. repeat split; auto.
      * destruct Hr as [? ?]. split; auto.
    + simplify_eq. split; [eapply cleared_trans; [exact Hm|apply cleared_set_idle]|].
      exists [], rev. repeat split; auto. intros p Hp. simpl in Hp. rewrite list_lookup_alter_eq in Hp.
      destruct (all c !! i); simplify_eq/=. done.
Qed.

(** [idleCleanup]'s loop. *)
Lemma cleanup_spec exp l c keep cl c' :
  cleanup exp l c = (keep, cl, c') →
  cleared c c' ∧ idle c' = idle c ∧
  (∀ i, (cnt i keep + cnt i cl <= cnt i l)%nat) ∧
  (∀ i, is_dead c i = false → (cnt i keep + cnt i cl)%nat = cnt i l) ∧
  (∀ i p, all c' !! i = Some p → inIdle p = true → cnt i cl = 0%nat) ∧
  Forall (λ i, ∃ p, all c !! i = Some p ∧ p_dead p = false ∧ exp <= since p) keep.
Proof.
  revert c keep cl c'. induction l as [|i l IH]; intros c keep cl c' H; simpl in H.
  { simplify_eq. split; [apply cleared_refl|]. repeat split; auto. }
  destruct (all c !! i) as [p|] eqn:Hp.
  2: { apply IH in H as (Hc & Hi & Hle & Hlive & Hmk & Hk). do 2 (split; [done|]).
       split; [|split; [|done]]; intros j; simpl.
       - specialize (Hle j). case_decide; lia.
       - intros Hd. case_decide as E; [|by apply Hlive]. subst. unfold is_dead in Hd. by rewrite Hp in Hd. }
  pose proof (cleared_mark i c) as Hm.
  assert (∀ x y z, cleanup exp l (upd_p i (mark false) c) = (x, y, z) →
    Forall (λ j, ∃ p, all (upd_p i (mark false) c) !! j = Some p ∧ p_dead p = false ∧ exp <= since p) x →
    Forall (λ j, ∃ p, all c !! j = Some p ∧ p_dead p = false ∧ exp <= since p) x) as Hkeep.
  { intros x y z _ Hx. eapply Forall_impl; [exact Hx|]. intros j (q & Hq & Hd & He). rewrite lookup_upd in Hq.
    case_decide; [subst|by eauto]. rewrite Hp in Hq. simplify_eq/=. eauto. }
  destruct (p_dead p) eqn:Ed; [|destruct (Z.ltb_spec (since p) exp)].
  - pose proof H as H'. apply IH in H as (Hc & Hi & Hle & Hlive & Hmk & Hk).
    split; [by eapply cleared_trans|]. split; [done|]. split; [|split; [|split; [done|by eapply Hkeep]]]; intros j; simpl.
    + specialize (Hle j). case_decide; lia.
    + intros Hd. case_decide as E; [subst; unfold is_dead in Hd; rewrite Hp in Hd; congruence|].
      apply Hlive. by rewrite (cleared_dead _ _ j Hm).
  - destruct (cleanup exp l (upd_p i (mark false) c)) as [[k1 cl1] c1] eqn:E1. simplify_eq.
    pose proof E1 as H'. apply IH in E1 as (Hc & Hi & Hle & Hlive & Hmk & Hk).
    split; [by eapply cleared_trans|]. split; [done|]. split; [|split; [|split; [|by eapply Hkeep]]]; intros j; simpl.
    + specialize (Hle j). case_decide; lia.
    + intros Hd. rewrite <- (cleared_dead _ _ j Hm) in Hd. specialize (Hlive j Hd). case_decide; lia.
    + intros q Hq Hin. case_decide as E; [|by eapply Hmk]. subst j. exfalso.
      destruct Hc as (_ & _ & _ & _ & _ & Hpw). destruct (Hpw i (mark false p) q) as (_ & _ & _ & Hx); [|done|].
      { rewrite lookup_upd, Hp. by rewrite decide_True. }
      by specialize (Hx Hin).
  - destruct (cleanup exp l c) as [[k1 cl1] c1] eqn:E1. simplify_eq.
    apply IH in E1 as (Hc & Hi & Hle & Hlive & Hmk & Hk).
    split; [done|]. split; [done|]. split; [|split; [|split; [done|]]].
    + intros j. simpl. specialize (Hle j). case_decide; lia.
    + intros j Hd. simpl. specialize (Hlive j Hd). case_decide; lia.
    + constructor; [by exists p|done].
Qed.

(** ** Steps *)

Lemma pool_new t : pool_inv (NewClient t).
Proof. split; [done| |]; intros i p Hp; simpl in Hp; by rewrite lookup_nil in Hp. Qed.

(** A step that changes one session and moves it between places. *)
Lemma pool_inv_move i f c c' :
  pool_inv c → all c' = alter f i (all c) →
  (∀ j, j ≠ i → cnt j (idle c') = cnt j (idle c) ∧ cnt j (returning c') = cnt j (returning c) ∧
                cnt j (closing c') = cnt j (closing c)) →
  (∀ p, all c !! i = Some p →
     (places c' i (f p) <= places c i p)%nat ∧
     (p_dead (f p) = false → p_dead p = false ∧ places c' i (f p) = places c i p ∧
        (inIdle (f p) = true → (cnt i (idle c') + cnt i (returning c'))%nat = 1%nat))) →
  (all c !! i = None → cnt i (idle c') = 0%nat ∧ cnt i (returning c') = 0%nat ∧ cnt i (closing c') = 0%nat) →
  pool_inv c'.
Proof.
  intros Hinv Hall Hne Hi Hnone. apply (pool_inv_pw c); [done|by rewrite Hall, length_alter| |].
  - intros j Hj. destruct (decide (j = i)) as [->|Hji]; [by apply Hnone, lookup_ge_None|].
    destruct (Hne j Hji) as (-> & -> & ->). by apply Hinv.
  - intros j p p' Hp Hp'. rewrite Hall in Hp'. destruct (decide (j = i)) as [->|Hji].
    + rewrite list_lookup_alter_eq, Hp in Hp'. simplify_eq/=. by apply Hi.
    + rewrite list_lookup_alter_ne in Hp' by done. simplify_eq. destruct (Hne j Hji) as (E1 & E2 & E3).
      unfold places. rewrite E1, E2, E3. split; [lia|]. intros Hd. repeat split; auto.
      intros Hm. by eapply q_mark.
Qed.

Lemma pool_create ok c c' : pool_inv c → CreateStream ok c = Some c' → pool_inv c'.
Proof.
  intros Hinv. unfold CreateStream. destruct (ctxDone c); [done|]. unfold getIdleSession.
  destruct (pop_idle (reverse (idle c)) c) as [r c1] eqn:Hpop.
  apply pop_idle_spec in Hpop as [Hc Hr]. pose proof Hc as (Hl & Hret & Hcl & _ & _ & Hpw).
  assert (∀ j, cnt j (reverse (idle c)) = cnt j (idle c)) as Hrev by (intros; apply cnt_reverse).
  assert (∀ j p l, all c !! j = Some p → p_dead p = false → Forall (λ i, is_dead c i = true) l → cnt j l = 0%nat) as Hzero.
  { intros j p l Hp Hd Hf. induction Hf as [|k l Hk _ IH]; [done|]. simpl. case_decide; [|done]. subst.
    unfold is_dead in Hk. rewrite Hp in Hk. congruence. }
  destruct r as [k|].
  - destruct Hr as (pre & post & Hrv & Hi & Hpre & Hk & Hmk). intros [= <-].
    assert (∀ j, cnt j (idle c) = (cnt j pre + cnt j (k :: post))%nat) as Hcnt
      by (intros j; by rewrite <- Hrev, Hrv, cnt_app).
    apply (pool_inv_pw c); [done|simpl; by rewrite length_alter| |].
    + intros j Hj. destruct (q_dom _ Hinv j Hj) as (D1 & D2 & D3). rewrite Hcnt in D1. simpl in *.
      rewrite Hi, Hret, Hcl, cnt_reverse. case_decide; lia.
    + intros j p p' Hp Hp'. rewrite lookup_upd in Hp'. unfold places. simpl idle. simpl returning. simpl closing.
      rewrite Hi, Hret, Hcl, cnt_reverse, Hcnt. simpl cnt. destruct (q_sum _ Hinv j p Hp) as [Hs1 Hs2].
      unfold places in Hs1, Hs2. rewrite Hcnt in Hs1, Hs2. simpl in Hs1, Hs2.
      destruct (lookup_lt_is_Some_2 (all c1) j) as [p1 Hp1]; [rewrite Hl; by eapply lookup_lt_Some|].
      destruct (Hpw j p p1 Hp Hp1) as (Q1 & Q2 & Q3 & Q4). rewrite Hp1 in Hp'.
      destruct (decide (k = j)) as [->|Hkj]; simplify_eq/=.
      * rewrite decide_True in * by done. rewrite Q2. split; [lia|]. intros Hd. rewrite <- Q1. split; [done|].
        split; [rewrite (Hzero j p pre) by congruence; lia|]. intros Hm. by rewrite (Hmk p1 Hp1) in Hm.
      * rewrite decide_False in * by congruence. rewrite Q2. split; [lia|]. intros Hd. rewrite Q1 in Hd. split; [done|].
        rewrite (Hzero j p pre) by done. split; [lia|]. intros Hm.
        pose proof (q_mark _ Hinv j p Hp Hd (Q4 Hm)) as Hx. rewrite Hcnt in Hx. simpl in Hx.
        rewrite decide_False, (Hzero j p pre) in Hx by (done || congruence). done.
  - destruct Hr as [Hi Hf].
    assert (pool_inv c1) as Hinv1.
    { apply (pool_inv_pw c); [done|done| |].
      - intros j Hj. rewrite Hi, Hret, Hcl. destruct (q_dom _ Hinv j Hj) as (_ & ? & ?). done.
      - intros j p p' Hp Hp'. destruct (Hpw j p p' Hp Hp') as (Q1 & Q2 & Q3 & Q4). unfold places.
        rewrite Hi, Hret, Hcl, Q2. simpl. split; [lia|]. rewrite Q1. intros Hd. split; [done|].
        assert (cnt j (idle c) = 0%nat) as E by (rewrite <- Hrev; by eapply Hzero). split; [lia|].
        intros Hm. pose proof (q_mark _ Hinv j p Hp Hd (Q4 Hm)). lia. }
    destruct ok; intros [= <-]; [|done]. destruct Hinv1 as [Hd Hs Hm]. split; simpl.
    + intros i Hle. rewrite length_app in Hle. simpl in Hle. apply Hd. lia.
    + intros i p Hp. apply lookup_app_Some in Hp as [Hp|[Hge Hp]]; [by apply Hs|].
      apply list_lookup_singleton_Some in Hp as [_ <-]. destruct (Hd i Hge) as (E1 & E2 & E3).
      unfold places. simpl. rewrite E1, E2, E3. done.
    + intros i p Hp Hdead Hx. apply lookup_app_Some in Hp as [Hp|[Hge Hp]]; [by eapply Hm|].
      apply list_lookup_singleton_Some in Hp as [_ <-]. done.
Qed.

Lemma pool_cleanup now c : pool_inv c → pool_inv (idleCleanup now c).
Proof.
  intros Hinv. unfold idleCleanup. destruct (cleanup _ _ _) as [[keep cl] c1] eqn:E.
  apply cleanup_spec in E as (Hc & _ & Hle & Hlive & Hmk & _). pose proof Hc as (Hl & Hret & Hcl & _ & _ & Hpw).
  apply (pool_inv_pw c); [done|done| |].
  - intros j Hj. simpl. destruct (q_dom _ Hinv j Hj) as (D1 & D2 & D3). specialize (Hle j).
    rewrite Hret, cnt_app, Hcl. lia.
  - intros j p p' Hp Hp'. simpl in Hp'. destruct (Hpw j p p' Hp Hp') as (Q1 & Q2 & Q3 & Q4). unfold places. simpl.
    rewrite Hret, cnt_app, Hcl, Q2. specialize (Hle j). split; [lia|]. rewrite Q1. intros Hd. split; [done|].
    assert (is_dead c j = false) as Hdj by (unfold is_dead; by rewrite Hp).
    specialize (Hlive j Hdj). split; [lia|]. intros Hm. pose proof (q_mark _ Hinv j p Hp Hd (Q4 Hm)).
    rewrite (Hmk j p' Hp' Hm) in Hlive. lia.
Qed.

Lemma pool_inv_users c i p : pool_inv c → all c !! i = Some p → (0 < users p)%nat →
  users p = 1%nat ∧ cnt i (idle c) = 0%nat ∧ cnt i (returning c) = 0%nat ∧ cnt i (closing c) = 0%nat ∧
  (p_dead p = false → inIdle p = false).
Proof.
  intros Hinv Hp Hu. destruct (q_sum _ Hinv i p Hp) as [Hs _]. unfold places in Hs. repeat split; try lia.
  intros Hd. destruct (inIdle p) eqn:E; [|done]. pose proof (q_mark _ Hinv i p Hp Hd E). lia.
Qed.

(** The end of a stream whose session is live puts the session back, unless the
    client was closed. *)
Lemma pool_stream_close i c c' : pool_inv c → pstep c (StreamClose i) = Some c' → pool_inv c'.
Proof.
  intros Hinv H. simpl in H. destruct (all c !! i) as [p|] eqn:Hp; [|done]. simpl in H.
  destruct (Nat.ltb_spec 0 (users p)) as [Hu|]; [|done].
  destruct (pool_inv_users c i p Hinv Hp Hu) as (U1 & U2 & U3 & U4 & U5).
  destruct (p_dead p) eqn:Ed; [|destruct (ctxDone c)]; simplify_eq.
  - apply (pool_inv_move i unuse c); [done|done|done| |by rewrite Hp].
    rewrite Hp. intros ? [= <-]. unfold places. simpl. rewrite Ed, U2, U3, U4. split; [lia|done].
  - apply (pool_inv_move i unuse c); [done|done| | |by rewrite Hp]; simpl.
    + intros j Hj. rewrite decide_False by done. done.
    + rewrite Hp. intros ? [= <-]. unfold places. simpl. rewrite decide_True, U1, U2, U3, U4 by done.
      split; [lia|]. intros _. repeat split; [done|]. rewrite (U5 eq_refl). done.
  - unfold returnToIdle. simpl all. rewrite list_lookup_alter_eq, Hp. cbn [fmap option_fmap option_map].
    change (inIdle (unuse p)) with (inIdle p). rewrite (U5 eq_refl).
    apply (pool_inv_move i (mark true ∘ unuse) c); [done|simpl; by rewrite list_alter_alter_eq| | |by rewrite Hp]; simpl.
    + intros j Hj. rewrite decide_False by done. done.
    + rewrite Hp. intros ? [= <-]. unfold places. simpl. rewrite decide_True, U1, U2, U3, U4 by done.
      split; [lia|]. intros _. repeat split; done.
Qed.

Lemma pool_step c e c' : pool_inv c → pstep c e = Some c' → pool_inv c'.
Proof.
  intros Hinv H. destruct e as [ok|i|i|i now|now|i|i|i|i|]; simpl in H.
  - by apply (pool_create ok c).
  - destruct (all c !! i) as [p|] eqn:Hp; [|done]. simpl in H.
    destruct (Nat.ltb_spec 0 (users p)) as [Hu|]; [|done]. simplify_eq.
    destruct (pool_inv_users c i p Hinv Hp Hu) as (U1 & U2 & U3 & U4 & U5).
    apply (pool_inv_move i unuse c); [done|done| | |by rewrite Hp]; simpl.
    + intros j Hj. rewrite decide_False by done. done.
    + rewrite Hp. intros ? [= <-]. unfold places. simpl. rewrite decide_True, U1, U2, U3, U4 by done.
      split; [lia|]. intros Hd. rewrite (U5 Hd). done.
  - by apply (pool_stream_close i c).
  - case_bool_decide as Hin; [|done]. simplify_eq. apply cnt_elem in Hin.
    apply (pool_inv_move i (λ p, MkPSession (p_dead p) (inIdle p) now (users p)) c); [done|done| | |]; simpl.
    + intros j Hj. rewrite cnt_app, cnt_remove. simpl. rewrite !decide_False by done. lia.
    + intros p Hp. unfold places. simpl. rewrite cnt_app, cnt_remove. simpl. rewrite !decide_True by done.
      split; [lia|]. intros Hd. split; [done|]. split; [lia|]. intros Hm. pose proof (q_mark _ Hinv i p Hp Hd Hm). lia.
    + intros Hn%lookup_ge_None. destruct (q_dom _ Hinv i Hn) as (_ & ? & _). lia.
  - simplify_eq. by apply pool_cleanup.
  - case_bool_decide as Hin; [|done]. simplify_eq.
    apply (pool_inv_move i kill c); [done|done| | |]; simpl.
    + intros j Hj. rewrite cnt_remove, decide_False by done. lia.
    + intros p Hp. unfold places. simpl. rewrite cnt_remove. split; [lia|done].
    + intros Hn%lookup_ge_None. destruct (q_dom _ Hinv i Hn) as (? & ? & ?). rewrite cnt_remove. lia.
  - simplify_eq. apply (pool_inv_move i kill c); [done|done|done| |]; simpl.
    + intros p Hp. unfold places. simpl. split; [lia|done].
    + intros Hn%lookup_ge_None. by apply Hinv.
  - destruct (is_dead c i) eqn:Ed; [|done]. simplify_eq.
    apply (pool_inv_move i (mark false) c); [done|done|done| |]; simpl.
    + intros p Hp. unfold places. simpl. split; [lia|done].
    + intros Hn%lookup_ge_None. by apply Hinv.
  - destruct (is_dead c i) eqn:Ed; [|done]. simplify_eq.
    apply (pool_inv_move i id c); [done|symmetry; by apply list_alter_id| | |]; simpl.
    + intros j Hj. rewrite cnt_remove, decide_False by done. lia.
    + intros p Hp. unfold is_dead in Ed. rewrite Hp in Ed. unfold places. simpl. rewrite cnt_remove.
      split; [lia|]. intros Hd. unfold id in Hd. congruence.
    + intros Hn%lookup_ge_None. destruct (q_dom _ Hinv i Hn) as (? & ? & ?). rewrite cnt_remove. lia.
  - simplify_eq. destruct Hinv. by split.
Qed.

Lemma pool_run c es c' : pool_inv c → prun c es = Some c' → pool_inv c'.
Proof.
  revert c. induction es as [|e es IH]; intros c Hinv H; simpl in H; [by simplify_eq|].
  destruct (pstep c e) as [c1|] eqn:E; [|done]. eapply IH; [by eapply pool_step|done].
Qed.

(** C14: Through any interleaving of streams opened and closed, sessions dying, clean-ups
    and the closing of the client: no session ever carries two streams, and none that
    is in use is in the idle list; every live session is in exactly one place (in use,
    idle, on its way back, or about to be closed), so none is lost; and after a
    clean-up only live sessions used within the idle timeout are left in the list. *)
Theorem anytls_pool t es c :
  prun (NewClient t) es = Some c →
  (∀ i p, all c !! i = Some p → (places c i p <= 1)%nat ∧ (p_dead p = false → places c i p = 1%nat)) ∧
  ∀ now, Forall (λ i, ∃ p, all (idleCleanup now c) !! i = Some p ∧ p_dead p = false ∧ now - idleTimeout c <= since p)
           (idle (idleCleanup now c)).
Proof.
  intros H. pose proof (pool_run _ _ _ (pool_new t) H) as Hinv. split; [apply Hinv|]. intros now.
  unfold idleCleanup. destruct (cleanup _ _ _) as [[keep cl] c1] eqn:E.
  apply cleanup_spec in E as ((Hl & _ & _ & _ & _ & Hpw) & _ & _ & _ & _ & Hk). simpl.
  eapply Forall_impl; [exact Hk|]. intros i (p & Hp & Hd & He).
  destruct (lookup_lt_is_Some_2 (all c1) i) as [p1 Hp1]; [rewrite Hl; by eapply lookup_lt_Some|].
  destruct (Hpw i p p1 Hp Hp1) as (Q1 & _ & Q3 & _). exists p1. rewrite Q1, Q3. done.
Qed.
