(* ===== verification/AnyTlsWitness.v ===== *)
(** Concrete runs of the anytls theorems. *)
From S2P Require Import Prelude GoStd Reader SocksAddr AnyTls AnyTlsProofs AnyTlsPool.
Import AnyTls.

Definition stream_run : list event :=
  [Psh (lit "hello"); Send; LoopRecv; LoopSub; Add; PipeRead 2; Synack []; Psh (lit "!"); Send; PipeRead 9; Add;
   Fin; LoopRecv; CloseCh; LoopSub; PipeRead 9; LoopRecv].

Lemma anytls_stream_witness :
  match run newStream stream_run with
  | Some s => got s = lit "hello!" ∧ Read_end s = Some EOF
  | None => False
  end.
Proof.
  assert (is_Some (run newStream stream_run)) as [s E] by (apply is_Some_alt; vm_compute; exact I).
  assert (at_ <$> run newStream stream_run = Some Exited) as Hx by (vm_compute; reflexivity).
  rewrite E in Hx |- *. injection Hx as Hx.
  apply (anytls_stream stream_run s E); [|exact Hx].
  repeat (apply Forall_cons; split; [by intros []|]). apply Forall_nil. exact I.
Defined.

Definition two_frames : list frame := [MkFrame cmdPSH 1 (lit "hello"); newFrame cmdFIN 1].
Definition one_stream : Session := MkSession {[1 := newStream]} {[1]} false 1 2.

Lemma anytls_recv_witness :
  recvLoop 2 (concat (map frame_buf two_frames)) one_stream = handle_all two_frames one_stream.
Proof.
  apply (anytls_recv two_frames one_stream).
  repeat (apply Forall_cons; split; [repeat split; done|]). apply Forall_nil. exact I.
Defined.

Definition long : list byte := replicate (Z.to_nat 65539) x03.

Lemma anytls_long_write_witness :
  read_frame (frame_buf (MkFrame cmdPSH 1 long) ++ []) =
  Ok (MkFrame cmdPSH 1 (take (Z.to_nat (Z.of_nat (length long) mod 2 ^ 16)) long),
      drop (Z.to_nat (Z.of_nat (length long) mod 2 ^ 16)) long ++ []) ∧
  (Z.to_nat (Z.of_nat (length long) mod 2 ^ 16) < length long)%nat.
Proof.
  apply (anytls_long_write 1 long []); [lia|]. unfold long. rewrite length_replicate. lia.
Defined.

Definition pool_events : list pevent := [Create true; StreamClose 0; Append 0 7; Create true; Create true].

Lemma anytls_pool_witness :
  match prun (NewClient 30000000000) pool_events with
  | Some c => (∀ i p, all c !! i = Some p → (places c i p <= 1)%nat ∧ (p_dead p = false → places c i p = 1%nat)) ∧
              length (all c) = 2%nat
  | None => False
  end.
Proof.
  assert (length ∘ all <$> prun (NewClient 30000000000) pool_events = Some 2%nat) as Hl by (vm_compute; reflexivity).
  destruct (prun (NewClient 30000000000) pool_events) as [c|] eqn:E; [|discriminate Hl].
  injection Hl as Hl. split; [|exact Hl]. apply (anytls_pool 30000000000 pool_events c E).
Defined.
