(* ===== verification/HttpHead.v ===== *)
(** Heads of HTTP messages: [net/textproto] and [encoding/base64] as far as
    proxy/http and proxy/ws use them.

    A reader is the bytes still to come; a [MIMEHeader] is a finite map from canonical
    keys to their values. *)
From S2P Require Import Prelude GoStd.

(** ** Lines *)

Definition c_lf : byte := x0a.
Definition c_cr : byte := x0d.
Definition c_sp : byte := x20.
Definition c_tab : byte := x09.

(** [Reader.ReadLine]: up to and without the line end; the last line may lack one. *)
Definition ReadLine (s : list byte) : outcome (list byte * list byte) :=
  match s with
  | [] => Err EOF
  | _ =>
      match index_byte s c_lf with
      | None => Ok (s, [])
      | Some i =>
          let line := take i s in
          Ok (match last line with
              | Some b => if bool_decide (b = c_cr) then take (i - 1) s else line
              | None => line
              end, drop (S i) s)
      end
  end.

Definition is_blank (b : byte) : bool := bool_decide (b = c_sp) || bool_decide (b = c_tab).
Fixpoint skip_blank (s : list byte) : list byte :=
  match s with
  | b :: s' => if is_blank b then skip_blank s' else s
  | [] => []
  end.
(** [trim]. *)
Definition trim (s : list byte) : list byte := reverse (skip_blank (reverse (skip_blank s))).

(** ** Header keys and values *)

Definition is_alpha (b : byte) : bool :=
  ((65 <=? b2z b) && (b2z b <=? 90)) || ((97 <=? b2z b) && (b2z b <=? 122)).
(** [validHeaderFieldByte]: the characters of a token. *)
Definition is_token (b : byte) : bool :=
  is_digit b || is_alpha b ||
  bool_decide (b ∈ [x21; x23; x24; x25; x26; x27; x2a; x2b; x2d; x2e; x5e; x5f; x60; x7c; x7e]).
(** [validHeaderValueByte]. *)
Definition is_value (b : byte) : bool :=
  ((33 <=? b2z b) && (b2z b <=? 126)) || (128 <=? b2z b) || is_blank b.

Definition upper_byte (b : byte) : byte :=
  if (97 <=? b2z b) && (b2z b <=? 122) then z2b (b2z b - 32) else b.
Fixpoint canonical (upper : bool) (s : list byte) : list byte :=
  match s with
  | [] => []
  | b :: s => (if upper then upper_byte b else lower_byte b) :: canonical (bool_decide (b = x2d)) s
  end.
(** [canonicalMIMEHeaderKey]; [None]: not a key. *)
Definition canonical_key (s : list byte) : option (list byte) :=
  if bool_decide (s = []) then None
  else if forallb is_token s then Some (canonical true s)
  else if forallb (λ b, is_token b || bool_decide (b = c_sp)) s then Some s
  else None.
(** [CanonicalMIMEHeaderKey], which [Get], [Set] and [Del] apply to their key. *)
Definition CanonicalMIMEHeaderKey (s : list byte) : list byte := default s (canonical_key s).

Notation MIMEHeader := (gmap (list byte) (list (list byte))).
Definition header_Get (h : MIMEHeader) (k : list byte) : list byte :=
  match h !! CanonicalMIMEHeaderKey k with
  | Some (v :: _) => v
  | _ => []
  end.
Definition header_Set (k v : list byte) (h : MIMEHeader) : MIMEHeader := <[CanonicalMIMEHeaderKey k := [v]]> h.
Definition header_Del (k : list byte) (h : MIMEHeader) : MIMEHeader := delete (CanonicalMIMEHeaderKey k) h.
Definition header_Add (k v : list byte) (h : MIMEHeader) : MIMEHeader := <[k := default [] (h !! k) ++ [v]]> h.

(** ** [ReadMIMEHeader] *)

Definition ErrMalformed : error := "malformed MIME header".

(** The continuation lines of a header line: what is read so far and the rest. *)
Fixpoint continued (fuel : nat) (acc s : list byte) : list byte * list byte :=
  match fuel with
  | O => (acc, s)
  | S fuel =>
      match s with
      | b :: _ =>
          if is_blank b then
            match ReadLine (skip_blank s) with
            | Ok (line, s) => continued fuel (acc ++ [c_sp] ++ trim line) s
            | _ => (acc ++ [c_sp], [])
            end
          else (acc, s)
      | [] => (acc, s)
      end
  end.

(** [readContinuedLineSlice] with [mustHaveFieldNameColon]. *)
Definition readContinuedLine (s : list byte) : outcome (list byte * list byte) :=
  match ReadLine s with
  | Ok (line, s) =>
      if bool_decide (line = []) then Ok ([], s)
      else if bool_decide (c_colon ∈ line) then Ok (continued (length s) (trim line) s)
      else Err ErrMalformed
  | x => x
  end.

(** One header line: key and value. *)
Definition header_line (kv : list byte) : outcome (list byte * list byte) :=
  match cut_byte kv c_colon with
  | None => Err ErrMalformed
  | Some (k, v) =>
      match canonical_key k with
      | None => Err ErrMalformed
      | Some key => if forallb is_value v then Ok (key, skip_blank v) else Err ErrMalformed
      end
  end.

Fixpoint header_lines (fuel : nat) (m : MIMEHeader) (s : list byte) : outcome (MIMEHeader * list byte) :=
  match fuel with
  | O => OutOfFuel
  | S fuel =>
      match readContinuedLine s with
      | Ok (kv, s) =>
          if bool_decide (kv = []) then Ok (m, s)
          else
            match header_line kv with
            | Ok (key, v) => header_lines fuel (header_Add key v m) s
            | Err e => Err e
            | Panic => Panic
            | OutOfFuel => OutOfFuel
            end
      | Err e => Err e
      | Panic => Panic
      | OutOfFuel => OutOfFuel
      end
  end.

Definition ReadMIMEHeader (s : list byte) : outcome (MIMEHeader * list byte) :=
  match s with
  | b :: _ => if is_blank b then Err ErrMalformed else header_lines (S (length s)) ∅ s
  | [] => header_lines (S (length s)) ∅ s
  end.

(** [parseStartLine] of proxy/http and [parseFirstLine] of proxy/ws. *)
Definition parseStartLine (line : list byte) : option (list byte * list byte * list byte) :=
  '(r1, rest) ← cut_byte line c_sp;
  '(r2, r3) ← cut_byte rest c_sp;
  Some (r1, r2, r3).

(** ** Base 64 *)

Definition b64_alphabet : list byte :=
  lit "ABCDEFGHIJKLMNOPQRSTUVWXYZabcdefghijklmnopqrstuvwxyz0123456789+/".
Definition b64_pad : byte := x3d.
Definition b64_char (n : Z) : byte := nth (Z.to_nat n) b64_alphabet x00.
Definition b64_digit (b : byte) : option Z := Z.of_nat <$> index_byte b64_alphabet b.

(** [StdEncoding.EncodeToString]. *)
Fixpoint b64_encode (s : list byte) : list byte :=
  match s with
  | a :: b :: c :: s =>
      let v := b2z a * 65536 + b2z b * 256 + b2z c in
      b64_char (v / 262144) :: b64_char (v / 4096 mod 64) :: b64_char (v / 64 mod 64) :: b64_char (v mod 64) ::
      b64_encode s
  | [a; b] =>
      let v := b2z a * 256 + b2z b in
      [b64_char (v / 1024); b64_char (v / 16 mod 64); b64_char (v * 4 mod 64); b64_pad]
  | [a] => [b64_char (b2z a / 4); b64_char (b2z a * 16 mod 64); b64_pad; b64_pad]
  | [] => []
  end.

(** [StdEncoding.DecodeString] of a string without line ends ([None]: corrupt). *)
Fixpoint b64_decode4 (s : list byte) : option (list byte) :=
  match s with
  | [] => Some []
  | [a; b; c; d] =>
      va ← b64_digit a; vb ← b64_digit b;
      if bool_decide (d = b64_pad) then
        if bool_decide (c = b64_pad) then Some [z2b (va * 4 + vb / 16)]
        else vc ← b64_digit c; Some [z2b (va * 4 + vb / 16); z2b (vb * 16 + vc / 4)]
      else
        vc ← b64_digit c; vd ← b64_digit d;
        Some [z2b (va * 4 + vb / 16); z2b (vb * 16 + vc / 4); z2b (vc * 64 + vd)]
  | a :: b :: c :: d :: s =>
      va ← b64_digit a; vb ← b64_digit b; vc ← b64_digit c; vd ← b64_digit d;
      r ← b64_decode4 s;
      Some (z2b (va * 4 + vb / 16) :: z2b (vb * 16 + vc / 4) :: z2b (vc * 64 + vd) :: r)
  | _ => None
  end.
Definition b64_decode (s : list byte) : option (list byte) :=
  b64_decode4 (filter (λ b, b ≠ c_cr ∧ b ≠ c_lf) s).
