(* ===== verification/Http.v ===== *)
(** proxy/http: the HTTP proxy server and client.

    [net/url] is an argument: [ParseRequestURI] gives the host of a request URI, whether
    it is absolute, and how it prints with and without scheme and host.  The relative
    URI of a CONNECT request is never used. *)
From S2P Require Import Prelude GoStd HttpHead.

Module Http.

Record HTTP := MkHTTP {
  h_addr : list byte;
  h_user : list byte;
  h_password : list byte;
  h_pretend : bool }.

(** [NewHTTP] of a URL's host, user, password and query. *)
Definition NewHTTP (host user password : list byte) (query : list (list byte * list byte)) : HTTP :=
  MkHTTP host user password (bool_decide (query_get query (lit "pretend") = lit "true")).

Record URL := MkURL {
  u_Host : list byte;
  u_IsAbs : bool;
  u_abs : list byte;    (* u.String() *)
  u_rel : list byte }.  (* u.String() without scheme and host *)

(** [cleanHeaders]. *)
Definition hop_headers : list (list byte) :=
  [lit "Proxy-Connection"; lit "Connection"; lit "Keep-Alive"; lit "Proxy-Authenticate";
   lit "Proxy-Authorization"; lit "TE"; lit "Trailers"; lit "Transfer-Encoding"; lit "Upgrade"].
Definition cleanHeaders (h : MIMEHeader) : MIMEHeader := foldl (λ h k, header_Del k h) h hop_headers.

Definition crlf : list byte := [c_cr; c_lf].
Definition writeStartLine (s1 s2 s3 : list byte) : list byte := s1 ++ [c_sp] ++ s2 ++ [c_sp] ++ s3 ++ crlf.
(** [writeHeaders] in the order [range] visits the map. *)
Definition header_out (kv : list byte * list (list byte)) : list byte :=
  concat (map (λ v, kv.1 ++ [c_colon; c_sp] ++ v ++ crlf) kv.2).
Definition writeHeaders (order : list (list byte * list (list byte))) : list byte :=
  concat (map header_out order) ++ crlf.

(** [extractUserPass]. *)
Definition extractUserPass (auth : list byte) : option (list byte * list byte) :=
  if has_prefix auth (lit "Basic ") then
    b ← b64_decode (drop 6 auth);
    cut_byte b c_colon
  else None.

Record request := MkRequest {
  r_method : list byte;
  r_uri : list byte;
  r_proto : list byte;
  r_auth : list byte;
  r_header : MIMEHeader;
  r_target : list byte;
  r_ruri : list byte }.

Definition ErrStartLine : error := "error in parseStartLine".

(** What a served request comes to: an answer and the end; a tunnel to [target], the
    answer first; or the request sent on to [target] as [head], then the [rest], which is
    copied as long as the server's side stays open. *)
Inductive http_action :=
| Closed
| Answer (b : list byte)
| Tunnel (target answer rest : list byte)
| Forward (target head rest : list byte).

Section Server.
Context (ParseRequestURI : list byte → outcome URL).
(** Whether [url.Parse("http://" + host)] of the Host header fails. *)
Context (bad_host : list byte → option error).

(** [parseRequest]: the request and what follows its head. *)
Definition parseRequest (s : list byte) : outcome (request * list byte) :=
  '(line, s) ← ReadLine s;
  match parseStartLine line with
  | None => Err ErrStartLine
  | Some (method, uri, proto) =>
      '(header, s) ← ReadMIMEHeader s;
      let auth := header_Get header (lit "Proxy-Authorization") in
      let header := header_Set (lit "Connection") (lit "close") (cleanHeaders header) in
      let justAuthority := bool_decide (method = lit "CONNECT") && negb (has_prefix uri (lit "/")) in
      u ← ParseRequestURI (if justAuthority then lit "http://" ++ uri else uri);
      let tgt := if contains (u_Host u) (lit ":") then u_Host u else u_Host u ++ lit ":80" in
      let req := MkRequest method uri proto auth header tgt (u_rel u) in
      if justAuthority || negb (u_IsAbs u) then
        match bad_host (header_Get header (lit "Host")) with
        | Some e => Err e
        | None => Ok (req, s)
        end
      else Ok (req, s)
  end.

(** [servRequest], with what dialing the target gives and the order in which the
    headers are visited. *)
Definition auth_ok (h : HTTP) (auth : list byte) : bool :=
  if bool_decide (h_user h = []) || bool_decide (h_password h = []) then true
  else bool_decide (extractUserPass auth = Some (h_user h, h_password h)).

Definition required : list byte :=
  lit "HTTP/1.1 407 Proxy Authentication Required" ++ crlf ++ lit "Proxy-Authenticate: Basic" ++ crlf ++ crlf.
Definition established : list byte := lit "HTTP/1.1 200 Connection established" ++ crlf ++ crlf.
Definition bad_gateway (proto : list byte) : list byte := proto ++ lit " 502 ERROR" ++ crlf ++ crlf.
Definition not_found (proto : list byte) : list byte :=
  proto ++ lit " 404 Not Found" ++ crlf ++ lit "Server: nginx" ++ crlf ++ crlf ++ lit "404 Not Found" ++ crlf.

(** [request.WriteBuf]. *)
Definition WriteBuf (req : request) (order : list (list byte * list (list byte))) : list byte :=
  writeStartLine (r_method req) (r_ruri req) (r_proto req) ++ writeHeaders order.

Definition servRequest (h : HTTP) (dial : list byte → option error)
    (order : MIMEHeader → list (list byte * list (list byte))) (req : request) (rest : list byte) : http_action :=
  if negb (auth_ok h (r_auth req)) then Answer required
  else if bool_decide (r_method req = lit "CONNECT") then
    match dial (r_uri req) with
    | Some _ => Answer (bad_gateway (r_proto req))
    | None => Tunnel (r_uri req) established rest
    end
  else
    match dial (r_target req) with
    | Some _ => Answer (bad_gateway (r_proto req))
    | None => Forward (r_target req) (WriteBuf req (order (r_header req))) rest
    end.

Definition Serve (h : HTTP) (dial : list byte → option error)
    (order : MIMEHeader → list (list byte * list (list byte))) (input : list byte) : outcome http_action :=
  match parseRequest input with
  | Ok (req, rest) =>
      Ok (if h_pretend h then Answer (not_found (r_proto req)) else servRequest h dial order req rest)
  | Err _ => Ok Closed
  | Panic => Panic
  | OutOfFuel => OutOfFuel
  end.
End Server.

(** What [servHTTP] sends back of the remote server's answer: its head with the
    connection headers set, then the rest; [None]: nothing. *)
Definition servHTTP_answer (order : MIMEHeader → list (list byte * list (list byte))) (resp : list byte)
    : option (list byte) :=
  match ReadLine resp with
  | Ok (line, s) =>
      '(proto, code, status) ← parseStartLine line;
      match ReadMIMEHeader s with
      | Ok (header, s) =>
          let header := header_Set (lit "Connection") (lit "close")
                          (header_Set (lit "Proxy-Connection") (lit "close") header) in
          Some (writeStartLine proto code status ++ writeHeaders (order header) ++ s)
      | _ => None
      end
  | _ => None
  end.

(** ** Client *)

(** What [Dial] writes. *)
Definition connect_head (h : HTTP) (addr : list byte) : list byte :=
  lit "CONNECT " ++ addr ++ lit " HTTP/1.1" ++ crlf ++
  lit "Host: " ++ addr ++ crlf ++
  lit "Proxy-Connection: Keep-Alive" ++ crlf ++
  (if bool_decide (h_user h = []) || bool_decide (h_password h = []) then []
   else lit "Proxy-Authorization: Basic " ++ b64_encode (h_user h ++ [c_colon] ++ h_password h) ++ crlf) ++
  crlf.

(** What it makes of the answer: an error, or the connection, from where the head
    ends ([None]: somewhere in a malformed head, whose error is dropped). *)
Definition Dial_answer (resp : list byte) : outcome (option (list byte)) :=
  '(line, s) ← ReadLine resp;
  match parseStartLine line with
  | Some (_, code, _) =>
      if bool_decide (code = lit "200") then
        match ReadMIMEHeader s with
        | Ok (_, s) => Ok (Some s)
        | _ => Ok None
        end
      else Err "[http] can not connect remote address"
  | None => Err "[http] can not connect remote address"
  end.
End Http.
