(* ===== verification/HttpHeadProofs.v ===== *)
(** Reading back the heads the program writes, and base 64. *)
From S2P Require Import Prelude GoStd HttpHead Http.

(** ** Lines *)

Lemma ReadLine_crlf l rest : c_lf ∉ l → ReadLine (l ++ Http.crlf ++ rest) = Ok (l, rest).
Proof.
  intros Hl. unfold ReadLine, Http.crlf.
  replace (l ++ [c_cr; c_lf] ++ rest) with ((l ++ [c_cr]) ++ c_lf :: rest) by (by rewrite <- app_assoc).
  rewrite index_byte_app by (intros [?|Hx%list_elem_of_singleton]%elem_of_app; done).
  assert (∃ x y, (l ++ [c_cr]) ++ c_lf :: rest = x :: y) as (x & y & Hxy) by (destruct l; simpl; eauto).
  destruct ((l ++ [c_cr]) ++ c_lf :: rest) eqn:E; [done|]. rewrite <- E. clear E Hxy x y.
  rewrite take_app_length, last_snoc. rewrite bool_decide_eq_true_2 by done.
  rewrite length_app. replace (length l + length [c_cr] - 1)%nat with (length l) by (simpl; lia).
  rewrite <- app_assoc, take_app_length. f_equal. f_equal.
  rewrite app_assoc, drop_app_ge by (rewrite length_app; simpl; lia). rewrite length_app. simpl.
  by replace (S (length l + 1) - (length l + 1))%nat with 1%nat by lia.
Qed.

(** ** Blanks *)

Definition rtrim (s : list byte) : list byte := reverse (skip_blank (reverse s)).

Lemma trim_rtrim s : trim s = rtrim (skip_blank s).
Proof. done. Qed.

Lemma skip_blank_app p x t :
  Forall (λ b, is_blank b = true) p → is_blank x = false → skip_blank (p ++ x :: t) = x :: t.
Proof. induction 1 as [|b p Hb _ IH]; intros Hx; simpl; [by rewrite Hx|]. rewrite Hb. auto. Qed.

Lemma skip_blank_mid l x m : is_blank x = false → skip_blank (l ++ x :: m) = skip_blank l ++ x :: m.
Proof. intros Hx. induction l as [|b l IH]; simpl; [by rewrite Hx|]. by destruct (is_blank b). Qed.

Lemma rtrim_mid a x t : is_blank x = false → rtrim (a ++ x :: t) = a ++ x :: rtrim t.
Proof.
  intros Hx. unfold rtrim. rewrite reverse_app, reverse_cons, <- app_assoc. simpl.
  rewrite skip_blank_mid by done. rewrite reverse_app, reverse_cons, reverse_involutive, <- app_assoc. done.
Qed.

Lemma rtrim_cons x t : is_blank x = false → rtrim (x :: t) = x :: rtrim t.
Proof. apply (rtrim_mid []). Qed.

(** A string is blank, or starts after its first blanks. *)
Lemma blank_cases s :
  Forall (λ b, is_blank b = true) s ∨
  ∃ p x t, s = p ++ x :: t ∧ Forall (λ b, is_blank b = true) p ∧ is_blank x = false.
Proof.
  induction s as [|b s [IH|(p & x & t & -> & Hp & Hx)]]; [by left|..];
    (destruct (is_blank b) eqn:Hb; [|right; exists []; eauto]).
  - left. by constructor.
  - right. exists (b :: p), x, t. auto.
Qed.

Lemma skip_blank_all s : Forall (λ b, is_blank b = true) s → skip_blank s = [].
Proof. induction 1 as [|b s Hb _ IH]; simpl; [done|]. by rewrite Hb. Qed.

Lemma rtrim_all s : Forall (λ b, is_blank b = true) s → rtrim s = [].
Proof. intros H. unfold rtrim. by rewrite skip_blank_all by (by rewrite Forall_reverse). Qed.

Lemma skip_rtrim s : skip_blank (rtrim s) = trim s.
Proof.
  rewrite trim_rtrim. destruct (blank_cases s) as [H|(p & x & t & -> & Hp & Hx)].
  - by rewrite (rtrim_all s H), (skip_blank_all s H).
  - rewrite (skip_blank_app p x t Hp Hx), (rtrim_mid p x t Hx), (rtrim_cons x t Hx).
    apply (skip_blank_app p x _ Hp Hx).
Qed.

Lemma skip_blank_suffix s : skip_blank s `suffix_of` s.
Proof. induction s as [|b s IH]; simpl; [done|]. destruct (is_blank b); [by apply suffix_cons_r|done]. Qed.

Lemma rtrim_Forall (P : byte → Prop) s : Forall P s → Forall P (rtrim s).
Proof.
  intros H. unfold rtrim. apply Forall_reverse. destruct (skip_blank_suffix (reverse s)) as [p Hp].
  apply Forall_reverse in H. rewrite Hp in H. by apply Forall_app in H as [_ H].
Qed.

Lemma trim_Forall (P : byte → Prop) s : Forall P s → Forall P (trim s).
Proof.
  intros H. rewrite trim_rtrim. apply rtrim_Forall. destruct (skip_blank_suffix s) as [p Hp].
  rewrite Hp in H. by apply Forall_app in H as [_ H].
Qed.

(** No blank in it, or nothing to cut at its ends. *)
Lemma trim_id x s : is_blank x = false → Forall (λ b, is_blank b = false) s → trim (x :: s) = x :: s.
Proof.
  intros Hx Hs. rewrite trim_rtrim. simpl. rewrite Hx. rewrite (rtrim_cons x s Hx). simpl. f_equal.
  destruct (decide (s = [])) as [->|Hne]; [done|]. destruct (exists_last Hne) as (l & y & ->).
  apply Forall_app in Hs as [_ [Hy _]%Forall_cons]. by rewrite rtrim_mid.
Qed.

Lemma trim_head s b : head (trim s) = Some b → is_blank b = false.
Proof.
  rewrite trim_rtrim. destruct (blank_cases s) as [H|(p & x & t & -> & Hp & Hx)].
  - by rewrite skip_blank_all.
  - rewrite skip_blank_app by done. rewrite (rtrim_cons x t Hx). simpl. by intros [= <-].
Qed.

Lemma trim_mid c s : is_blank c = false → c ∈ s → c ∈ trim s.
Proof.
  intros Hc Hin. apply list_elem_of_split in Hin as (l1 & l2 & ->).
  rewrite trim_rtrim, skip_blank_mid, rtrim_mid by done. set_solver.
Qed.

(** ** Headers *)

Lemma is_token_value b :
  is_token b = true → is_value b = true ∧ is_blank b = false ∧ b ≠ c_colon ∧ b ≠ c_lf.
Proof. by destruct b. Qed.

Definition key_byte (b : byte) : bool := is_token b || bool_decide (b = c_sp).
Lemma key_byte_plain b : key_byte b = true → b ≠ c_colon ∧ b ≠ c_lf.
Proof.
  unfold key_byte. intros [Hb|Hb]%orb_prop; [by apply is_token_value in Hb as (_ & _ & ? & ?)|].
  by apply bool_decide_eq_true in Hb as ->.
Qed.

Lemma forallb_Forall {A} (p : A → bool) l : forallb p l = true ↔ Forall (λ x, p x = true) l.
Proof. rewrite forallb_forall, Forall_forall. by setoid_rewrite list_elem_of_In. Qed.

Lemma canonical_key_bytes k key : canonical_key k = Some key → Forall (λ b, key_byte b = true) k.
Proof.
  unfold canonical_key. case_bool_decide; [done|]. case_match eqn:E1; [|case_match eqn:E2; [|done]]; intros _.
  - apply forallb_Forall in E1. eapply Forall_impl; [done|]. intros b. unfold key_byte. by intros ->.
  - by apply forallb_Forall in E2.
Qed.

(** A header as a head can hold it: a key that does not start with a blank, and a
    value of one line. *)
Definition line_ok (kv : list byte * list byte) : Prop :=
  (∀ b, head kv.1 = Some b → is_blank b = false) ∧ is_Some (canonical_key kv.1) ∧
  Forall (λ b, is_value b = true) kv.2.
(** One that is read: its key is canonical. *)
Definition header_ok (kv : list byte * list byte) : Prop := line_ok kv ∧ canonical_key kv.1 = Some kv.1.

Definition head_line (kv : list byte * list byte) : list byte := kv.1 ++ [c_colon; c_sp] ++ kv.2 ++ Http.crlf.
(** The header it is read as. *)
Definition read_as (kv : list byte * list byte) : list byte * list byte := (CanonicalMIMEHeaderKey kv.1, trim kv.2).

Lemma header_ok_line kv : header_ok kv → line_ok kv.
Proof. by intros []. Qed.
Lemma read_as_ok kv : header_ok kv → read_as kv = (kv.1, trim kv.2).
Proof. intros [_ H]. unfold read_as, CanonicalMIMEHeaderKey. by rewrite H. Qed.

(** The next line does not continue this one. *)
Definition fresh_line (s : list byte) : Prop := ∃ b s', s = b :: s' ∧ is_blank b = false.

Lemma key_no k key c : canonical_key k = Some key → key_byte c = false → c ∉ k.
Proof. intros Hk Hc Hin. apply canonical_key_bytes in Hk. rewrite Forall_forall in Hk. apply Hk in Hin. congruence. Qed.

Lemma read_header_line kv rest :
  line_ok kv → fresh_line rest →
  ∃ l, readContinuedLine (head_line kv ++ rest) = Ok (l, rest) ∧ l ≠ [] ∧ header_line l = Ok (read_as kv).
Proof.
  destruct kv as [k v]. intros (Hh & [key Hk] & Hv) (b & rest' & -> & Hb).
  unfold read_as, CanonicalMIMEHeaderKey. simpl in *.
  exists (k ++ c_colon :: rtrim (c_sp :: v)).
  assert (trim (k ++ c_colon :: c_sp :: v) = k ++ c_colon :: rtrim (c_sp :: v)) as Et.
  { rewrite trim_rtrim. rewrite skip_blank_mid, rtrim_mid by done. f_equal.
    destruct k as [|x k]; [done|]. simpl. by rewrite (Hh x). }
  split_and!; [|by destruct k|].
  - unfold readContinuedLine, head_line. simpl.
    replace ((k ++ c_colon :: c_sp :: v ++ Http.crlf) ++ b :: rest') with
      ((k ++ c_colon :: c_sp :: v) ++ Http.crlf ++ (b :: rest'))
      by (rewrite <- !app_assoc; simpl; by rewrite <- app_assoc).
    rewrite ReadLine_crlf; cycle 1.
    { rewrite elem_of_app, !elem_of_cons. intros [Hin|[?|[?|Hin]]]; try done.
      - by eapply key_no in Hin.
      - rewrite Forall_forall in Hv. by apply Hv in Hin. }
    rewrite bool_decide_eq_false_2 by (by destruct k).
    rewrite bool_decide_eq_true_2 by (apply elem_of_app; right; left).
    rewrite Et. simpl. by rewrite Hb.
  - unfold header_line. rewrite cut_byte_app by (by eapply key_no). rewrite Hk.
    rewrite (proj2 (forallb_Forall _ _)), skip_rtrim; [done|]. apply rtrim_Forall. by constructor.
Qed.

(** The headers a head's lines come to. *)
Definition header_of (kvs : list (list byte * list byte)) : MIMEHeader :=
  foldl (λ m kv, header_Add kv.1 kv.2 m) ∅ kvs.

Lemma lines_fresh kvs rest : Forall line_ok kvs → fresh_line (concat (map head_line kvs) ++ Http.crlf ++ rest).
Proof.
  destruct 1 as [|[k v] kvs (Hh & [key Hk] & _) _]; [by exists c_cr, (c_lf :: rest)|].
  simpl in *. unfold head_line at 1. rewrite <- !app_assoc. simpl.
  destruct k as [|b k]; [done|]. exists b. eexists. split; [done|]. by apply Hh.
Qed.

Lemma header_lines_ok kvs : ∀ m rest fuel, Forall line_ok kvs → (length kvs < fuel)%nat →
  header_lines fuel m (concat (map head_line kvs) ++ Http.crlf ++ rest) =
  Ok (foldl (λ m kv, header_Add kv.1 kv.2 m) m (map read_as kvs), rest).
Proof.
  induction kvs as [|kv kvs IH]; intros m rest fuel Hok Hf; (destruct fuel as [|fuel]; [simpl in Hf; lia|]);
    cbn [map concat header_lines].
  - reflexivity.
  - apply Forall_cons in Hok as [Hkv Hok]. rewrite <- app_assoc.
    destruct (read_header_line kv _ Hkv (lines_fresh kvs rest Hok)) as (l & -> & Hl & ->).
    rewrite bool_decide_eq_false_2 by done. apply IH; [done|]. simpl in Hf. lia.
Qed.

Lemma ReadMIMEHeader_ok kvs rest :
  Forall line_ok kvs →
  ReadMIMEHeader (concat (map head_line kvs) ++ Http.crlf ++ rest) = Ok (header_of (map read_as kvs), rest).
Proof.
  intros Hok. destruct (lines_fresh kvs rest Hok) as (b & s & E & Hb). unfold ReadMIMEHeader. rewrite E, Hb, <- E.
  apply header_lines_ok; [done|]. rewrite length_app.
  enough (length kvs <= length (concat (map head_line kvs)))%nat by lia. clear.
  induction kvs as [|kv kvs IH]; [done|]. simpl. rewrite length_app. unfold head_line at 1. rewrite !length_app.
  simpl. lia.
Qed.

(** ** Every head is read to an end *)

Lemma ReadLine_shrinks s l r : ReadLine s = Ok (l, r) → (length r < length s)%nat.
Proof.
  unfold ReadLine. destruct s as [|b s]; [done|]. case_match.
  - intros [= _ <-]. rewrite length_drop. simpl. lia.
  - intros [= _ <-]. simpl. lia.
Qed.

Lemma skip_blank_le s : (length (skip_blank s) <= length s)%nat.
Proof. induction s as [|b s IH]; simpl; [lia|]. destruct (is_blank b); simpl; lia. Qed.

Lemma continued_le fuel : ∀ acc s, (length (continued fuel acc s).2 <= length s)%nat.
Proof.
  induction fuel as [|fuel IH]; intros acc s; simpl; [lia|]. destruct s as [|b s]; [simpl; lia|].
  destruct (is_blank b) eqn:Eb; cbn [skip_blank]; rewrite ?Eb; [|simpl; lia].
  destruct (ReadLine (skip_blank s)) as [[l r]| | |] eqn:E; simpl; try lia.
  etransitivity; [apply IH|]. apply ReadLine_shrinks in E. pose proof (skip_blank_le s). lia.
Qed.

(** The continuation lines end before the fuel does. *)
Lemma continued_fuel n : ∀ m acc s, (length s <= n)%nat → (length s <= m)%nat → continued n acc s = continued m acc s.
Proof.
  induction n as [|n IH]; intros [|m] acc [|b s] Hn Hm; simpl in *; try lia; try done.
  destruct (is_blank b) eqn:Eb; cbn [skip_blank]; rewrite ?Eb; [|done].
  destruct (ReadLine (skip_blank s)) as [[l r]| | |] eqn:E; [|done..].
  apply ReadLine_shrinks in E. pose proof (skip_blank_le s). apply IH; lia.
Qed.

Lemma readContinuedLine_shrinks s kv r : readContinuedLine s = Ok (kv, r) → (length r < length s)%nat.
Proof.
  unfold readContinuedLine. destruct (ReadLine s) as [[l r']| | |] eqn:E; [|done..].
  apply ReadLine_shrinks in E. repeat case_bool_decide; intros [= Hc]; [by subst|].
  pose proof (continued_le (length r') (trim l) r') as Hle. rewrite Hc in Hle. simpl in Hle. lia.
Qed.

(** A call that returns a value or an error. *)
Definition returns {A} (x : outcome A) : Prop := (∃ a, x = Ok a) ∨ (∃ e, x = Err e).

Lemma ReadLine_returns s : returns (ReadLine s).
Proof. unfold ReadLine, returns. go_cases; eauto. Qed.
Lemma readContinuedLine_returns s : returns (readContinuedLine s).
Proof.
  unfold readContinuedLine. destruct (ReadLine_returns s) as [[[l r] ->]|[e ->]]; unfold returns; [|eauto].
  go_cases; eauto.
Qed.
Lemma header_line_returns kv : returns (header_line kv).
Proof. unfold header_line, returns. go_cases; eauto. Qed.

Lemma header_lines_returns fuel : ∀ m s, (length s < fuel)%nat → returns (header_lines fuel m s).
Proof.
  induction fuel as [|fuel IH]; intros m s Hs; [lia|]. simpl.
  destruct (readContinuedLine_returns s) as [[[kv r] E]|[e E]]; rewrite E; [|right; eauto].
  apply readContinuedLine_shrinks in E. case_bool_decide; [left; eauto|].
  destruct (header_line_returns kv) as [[[k v] ->]|[e ->]]; [|right; eauto]. apply IH. lia.
Qed.

Lemma ReadMIMEHeader_returns s : returns (ReadMIMEHeader s).
Proof.
  unfold ReadMIMEHeader. destruct s as [|b s]; [|destruct (is_blank b); [right; eauto|]];
    apply header_lines_returns; simpl; lia.
Qed.

(** ** Base 64 *)

Lemma b64_table n :
  0 <= n < 64 →
  b64_digit (b64_char n) = Some n ∧ b64_char n ≠ b64_pad ∧ is_value (b64_char n) = true ∧
  is_blank (b64_char n) = false.
Proof.
  intros Hn.
  set (row := λ i : nat, bool_decide (b64_digit (b64_char (Z.of_nat i)) = Some (Z.of_nat i)) &&
    bool_decide (b64_char (Z.of_nat i) ≠ b64_pad) && is_value (b64_char (Z.of_nat i)) &&
    negb (is_blank (b64_char (Z.of_nat i)))).
  assert (forallb row (seq 0 64) = true) as Hall by (by vm_compute).
  rewrite forallb_forall in Hall. specialize (Hall (Z.to_nat n)). rewrite in_seq in Hall.
  specialize (Hall ltac:(lia)). unfold row in Hall. rewrite Z2Nat.id in Hall by lia. clear row.
  bools. by rewrite !bool_decide_eq_true in *.
Qed.

Lemma z2b_eq z b : z mod 256 = b2z b → z2b z = b.
Proof. intros H. apply b2z_inj. by rewrite b2z_z2b. Qed.

Lemma b64_decode4_more a b c d x t :
  b64_decode4 (a :: b :: c :: d :: x :: t) =
  (va ← b64_digit a; vb ← b64_digit b; vc ← b64_digit c; vd ← b64_digit d;
   r ← b64_decode4 (x :: t);
   Some (z2b (va * 4 + vb / 16) :: z2b (vb * 16 + vc / 4) :: z2b (vc * 64 + vd) :: r)).
Proof. reflexivity. Qed.

Lemma b64_quad va vb vc vd t r :
  0 <= va < 64 → 0 <= vb < 64 → 0 <= vc < 64 → 0 <= vd < 64 → b64_decode4 t = Some r →
  b64_decode4 (b64_char va :: b64_char vb :: b64_char vc :: b64_char vd :: t) =
  Some (z2b (va * 4 + vb / 16) :: z2b (vb * 16 + vc / 4) :: z2b (vc * 64 + vd) :: r).
Proof.
  intros Ha Hb Hc Hd Ht.
  apply b64_table in Ha as [Ha _], Hb as [Hb _], Hc as [Hc _], Hd as (Hd & Hp & _).
  destruct t as [|x t].
  - injection Ht as <-. simpl. rewrite Ha, Hb. simpl. rewrite bool_decide_eq_false_2 by done. by rewrite Hc, Hd.
  - by rewrite b64_decode4_more, Ha, Hb, Hc, Hd, Ht.
Qed.

Lemma b64_pair va vb vc :
  0 <= va < 64 → 0 <= vb < 64 → 0 <= vc < 64 →
  b64_decode4 [b64_char va; b64_char vb; b64_char vc; b64_pad] =
  Some [z2b (va * 4 + vb / 16); z2b (vb * 16 + vc / 4)].
Proof.
  intros Ha Hb Hc. apply b64_table in Ha as [Ha _], Hb as [Hb _], Hc as (Hc & Hp & _).
  simpl. rewrite Ha, Hb. simpl. by rewrite bool_decide_eq_false_2, Hc by done.
Qed.

Lemma b64_single va vb :
  0 <= va < 64 → 0 <= vb < 64 →
  b64_decode4 [b64_char va; b64_char vb; b64_pad; b64_pad] = Some [z2b (va * 4 + vb / 16)].
Proof.
  intros Ha Hb. apply b64_table in Ha as [Ha _], Hb as [Hb _]. simpl. by rewrite Ha, Hb.
Qed.

(** Facts of the encoder by blocks of three bytes. *)
Lemma blocks3_ind (P : list byte → Prop) :
  P [] → (∀ a, P [a]) → (∀ a b, P [a; b]) → (∀ a b c s, P s → P (a :: b :: c :: s)) → ∀ s, P s.
Proof.
  intros H0 H1 H2 H3. enough (∀ n s, (length s <= n)%nat → P s) as H by eauto.
  induction n as [|n IH]; intros [|a [|b [|c s]]] Hs; simpl in Hs; try lia; auto.
  apply H3, IH. lia.
Qed.

Ltac digits :=
  repeat match goal with b : byte |- _ => pose proof (b2z_range b); generalize dependent (b2z b); clear b end;
  intros; Z.to_euclidean_division_equations; lia.

Lemma b64_decode4_encode s : b64_decode4 (b64_encode s) = Some s.
Proof.
  induction s as [|a|a b|a b c s IH] using blocks3_ind; [done|..]; cbn [b64_encode].
  - rewrite b64_single by digits. f_equal. f_equal. apply z2b_eq. digits.
  - rewrite b64_pair by digits. f_equal. f_equal; [|f_equal]; apply z2b_eq; digits.
  - rewrite (b64_quad _ _ _ _ _ s) by (done || clear IH; digits). clear IH.
    f_equal. f_equal; [|f_equal; [|f_equal]]; apply z2b_eq; digits.
Qed.

Lemma b64_encode_value s : Forall (λ b, is_value b = true ∧ is_blank b = false) (b64_encode s).
Proof.
  induction s as [|a|a b|a b c s IH] using blocks3_ind; cbn [b64_encode];
    repeat (constructor; [by (apply b64_table; digits) || done|]); done.
Qed.

Lemma filter_id {A} (P : A → Prop) `{!∀ x, Decision (P x)} l : Forall P l → filter P l = l.
Proof. induction 1; [done|]. rewrite filter_cons_True by done. by f_equal. Qed.

Lemma b64_roundtrip s : b64_decode (b64_encode s) = Some s.
Proof.
  unfold b64_decode. rewrite filter_id; [apply b64_decode4_encode|].
  eapply Forall_impl; [apply b64_encode_value|]. intros b [Hv _]. by split; intros ->.
Qed.

(** ** What is read is well formed *)

Lemma case_token b :
  is_token b = true →
  (is_token (upper_byte b) = true ∧ upper_byte (upper_byte b) = upper_byte b ∧ (upper_byte b = x2d ↔ b = x2d)) ∧
  (is_token (lower_byte b) = true ∧ lower_byte (lower_byte b) = lower_byte b ∧ (lower_byte b = x2d ↔ b = x2d)).
Proof. by destruct b. Qed.

Lemma canonical_token up s :
  Forall (λ b, is_token b = true) s →
  Forall (λ b, is_token b = true) (canonical up s) ∧ canonical up (canonical up s) = canonical up s.
Proof.
  intros H. revert up. induction H as [|b s Hb _ IH]; intros up; [done|]. simpl.
  destruct (case_token b Hb) as [(Hu & Hu2 & Hu3) (Hl & Hl2 & Hl3)].
  destruct up; (split; [constructor; [done|apply IH]|f_equal; [done|]]);
    rewrite ?(bool_decide_ext _ _ Hu3), ?(bool_decide_ext _ _ Hl3); apply IH.
Qed.

Lemma canonical_nil up s : canonical up s = [] → s = [].
Proof. by destruct s. Qed.

Lemma canonical_key_idem k key : canonical_key k = Some key → canonical_key key = Some key.
Proof.
  unfold canonical_key at 1. case_bool_decide as Hk; [done|]. case_match eqn:E1.
  - intros [= <-]. apply forallb_Forall in E1. destruct (canonical_token true k E1) as [Ht Hc].
    unfold canonical_key. rewrite bool_decide_eq_false_2 by (by intros ?%canonical_nil).
    by rewrite (proj2 (forallb_Forall _ _) Ht), Hc.
  - case_match eqn:E2; [|done]. intros [= <-]. unfold canonical_key.
    by rewrite bool_decide_eq_false_2, E1, E2.
Qed.

Lemma canonical_key_head k key :
  canonical_key k = Some key → (∀ b, head k = Some b → is_blank b = false) →
  ∀ b, head key = Some b → is_blank b = false.
Proof.
  unfold canonical_key. case_bool_decide; [done|]. case_match eqn:E1; [|case_match; [by intros [= ->]|done]].
  intros [= <-] _ b Hb. apply forallb_Forall, (canonical_token true) in E1 as [Ht _].
  destruct (canonical true k) as [|x t]; [done|]. injection Hb as ->. apply Forall_cons in Ht as [Hx _].
  by apply is_token_value in Hx as (_ & ? & _).
Qed.

Lemma header_line_wf l kv :
  (∀ b, head l = Some b → is_blank b = false) → header_line l = Ok kv → header_ok kv.
Proof.
  intros Hl. unfold header_line. destruct (cut_byte l c_colon) as [[k v]|] eqn:E; [|done].
  destruct (canonical_key k) as [key|] eqn:Ek; [|done]. case_match eqn:Ev; [|done]. intros [= <-].
  apply cut_byte_Some in E as [-> _]. apply canonical_key_idem in Ek as Ei.
  split; [split_and!|]; simpl; [|by eexists| |done].
  - eapply canonical_key_head; [exact Ek|]. intros b Hb. apply Hl. destruct k; [done|]. exact Hb.
  - apply forallb_Forall in Ev. destruct (skip_blank_suffix v) as [p Hp]. rewrite Hp in Ev.
    by apply Forall_app in Ev as [_ Ev].
Qed.

Lemma continued_prefix fuel : ∀ acc s, acc `prefix_of` (continued fuel acc s).1.
Proof.
  induction fuel as [|fuel IH]; intros acc s; simpl; [done|]. destruct s as [|b s]; [done|].
  case_match; [|done]. case_match; [case_match; etransitivity; [|apply IH]; by eexists|by eexists..].
Qed.

Lemma readContinuedLine_head s l r :
  readContinuedLine s = Ok (l, r) → ∀ b, head l = Some b → is_blank b = false.
Proof.
  unfold readContinuedLine. destruct (ReadLine s) as [[line r']| | |] eqn:E; [|done..].
  case_bool_decide; [by intros [= <- <-]|]. case_bool_decide as Hc; [|done]. intros [= Hl] b Hb.
  destruct (continued_prefix (length r') (trim line) r') as [t Ht]. rewrite Hl in Ht. simpl in Ht. subst l.
  apply (trim_mid c_colon line eq_refl) in Hc. destruct (trim line) as [|x tl] eqn:Et; [by apply elem_of_nil in Hc|].
  injection Hb as ->. apply (trim_head line). by rewrite Et.
Qed.

Definition header_map_ok (m : MIMEHeader) : Prop :=
  map_Forall (λ k vs, vs ≠ [] ∧ Forall (λ v, header_ok (k, v)) vs) m.

Lemma header_Add_ok k v m : header_ok (k, v) → header_map_ok m → header_map_ok (header_Add k v m).
Proof.
  intros Hkv Hm. apply map_Forall_insert_2; [|done]. split; [by destruct (default [] (m !! k))|].
  apply Forall_app. split; [|by constructor]. destruct (m !! k) as [vs|] eqn:E; [by apply (Hm k vs)|done].
Qed.

Lemma header_lines_wf fuel : ∀ m s m' r,
  header_map_ok m → header_lines fuel m s = Ok (m', r) → header_map_ok m'.
Proof.
  induction fuel as [|fuel IH]; intros m s m' r Hm; [done|]. simpl.
  destruct (readContinuedLine s) as [[l s']| | |] eqn:E; [|done..].
  case_bool_decide; [by intros [= <- <-]|].
  destruct (header_line l) as [[k v]| | |] eqn:El; [|done..]. apply IH.
  apply header_Add_ok; [|done]. eapply header_line_wf; [|done]. by eapply readContinuedLine_head.
Qed.

Lemma ReadMIMEHeader_wf s m r : ReadMIMEHeader s = Ok (m, r) → header_map_ok m.
Proof.
  unfold ReadMIMEHeader. destruct s as [|b s]; [|destruct (is_blank b); [done|]]; apply header_lines_wf; done.
Qed.
