(* ===== verification/HttpProofs.v ===== *)
(** The HTTP proxy: what it forwards, whom it serves, and its own client. *)
From S2P Require Import Prelude GoStd HttpHead Http HttpHeadProofs.

Import Http.

(** Equal up to the nesting of [++]. *)
Ltac norm_app := simpl; repeat (rewrite <- app_assoc; simpl); done.

(** ** Written headers *)

(** The headers of a map in the order they are visited, one line each. *)
Definition flat (order : list (list byte * list (list byte))) : list (list byte * list byte) :=
  concat (map (λ kvs, map (pair kvs.1) kvs.2) order).

Lemma writeHeaders_lines order : writeHeaders order = concat (map head_line (flat order)) ++ crlf.
Proof.
  unfold writeHeaders. f_equal. induction order as [|[k vs] order IH]; [done|]. unfold flat in *. simpl.
  rewrite map_app, concat_app, <- IH. f_equal. unfold header_out. simpl. by rewrite map_map.
Qed.

Lemma header_Add_insert (k v : list byte) (vs : list (list byte)) (m : MIMEHeader) : header_Add k v (<[k := vs]> m) = <[k := vs ++ [v]]> m.
Proof. unfold header_Add. by rewrite lookup_insert_eq, insert_insert_eq. Qed.

Lemma header_Add_all (k : list byte) (vs vs0 : list (list byte)) (m : MIMEHeader) :
  foldl (λ m kv, header_Add kv.1 kv.2 m) (<[k := vs0]> m) (map (pair k) vs) = <[k := vs0 ++ vs]> m.
Proof.
  revert vs0. induction vs as [|v vs IH]; intros vs0; simpl; [by rewrite app_nil_r|].
  rewrite header_Add_insert, IH. by rewrite <- app_assoc.
Qed.

Lemma header_Add_key (k : list byte) (vs : list (list byte)) (m : MIMEHeader) :
  m !! k = None → vs ≠ [] →
  foldl (λ m kv, header_Add kv.1 kv.2 m) m (map (pair k) vs) = <[k := vs]> m.
Proof.
  destruct vs as [|v vs]; [done|]. intros Hk _. simpl.
  assert (header_Add k v m = <[k := [v]]> m) as -> by (unfold header_Add; by rewrite Hk).
  apply header_Add_all.
Qed.

Lemma header_of_flat (order : list (list byte * list (list byte))) : ∀ m : MIMEHeader,
  NoDup order.*1 → Forall (λ kvs, kvs.2 ≠ [] ∧ m !! kvs.1 = None) order →
  foldl (λ m kv, header_Add kv.1 kv.2 m) m (flat order) = list_to_map order ∪ m.
Proof.
  induction order as [|[k vs] order IH]; intros m Hnd Hok; simpl; [by rewrite map_empty_union|].
  apply NoDup_cons in Hnd as [Hk Hnd]. apply Forall_cons in Hok as [[Hvs Hm] Hok]. simpl in *.
  unfold flat in *. simpl. rewrite foldl_app, header_Add_key by done. rewrite IH; [|done|].
  - rewrite <- insert_union_r by (by apply not_elem_of_list_to_map). by rewrite insert_union_l.
  - rewrite Forall_forall in *. intros [k' vs'] Hin. specialize (Hok _ Hin) as [? ?]. split; [done|]. simpl in *.
    rewrite lookup_insert_ne; [done|]. intros ->. apply Hk. apply list_elem_of_fmap. by exists (k', vs').
Qed.

(** Blanks at the end of a value are lost when it is read again. *)
Definition trim_values (m : MIMEHeader) : MIMEHeader := map trim <$> m.

Lemma flat_trim order :
  Forall header_ok (flat order) → map read_as (flat order) = flat (prod_map id (map trim) <$> order).
Proof.
  induction order as [|[k vs] order IH]; [done|]. unfold flat in *. simpl. intros [Hk Ho]%Forall_app.
  rewrite map_app, IH by done. f_equal. clear -Hk. induction vs as [|v vs IHv]; [done|]. simpl in *.
  apply Forall_cons in Hk as [Hv Hk]. rewrite read_as_ok by done. simpl. f_equal. auto.
Qed.

Lemma flat_ok m order : header_map_ok m → order ≡ₚ map_to_list m → Forall header_ok (flat order).
Proof.
  intros Hm Ho. unfold flat. apply Forall_concat, Forall_fmap. rewrite Ho. apply Forall_forall.
  intros [k vs] Hin%elem_of_map_to_list. destruct (Hm k vs Hin) as [_ Hvs]. simpl. by apply Forall_fmap.
Qed.

Lemma writeHeaders_read m order rest :
  header_map_ok m → order ≡ₚ map_to_list m →
  ReadMIMEHeader (writeHeaders order ++ rest) = Ok (trim_values m, rest).
Proof.
  intros Hm Ho. pose proof (flat_ok m order Hm Ho) as Hf.
  rewrite writeHeaders_lines, <- app_assoc, ReadMIMEHeader_ok
    by (eapply Forall_impl; [exact Hf|apply header_ok_line]).
  f_equal. f_equal. unfold header_of. rewrite flat_trim by done.
  assert (NoDup order.*1) as Hnd by (rewrite Ho; apply NoDup_fst_map_to_list).
  rewrite header_of_flat, map_union_empty.
  - rewrite list_to_map_fmap, (list_to_map_proper _ _ Hnd Ho). unfold trim_values. by rewrite list_to_map_to_list.
  - rewrite <- list_fmap_compose. done.
  - apply Forall_fmap. rewrite Ho. apply Forall_forall. intros [k vs] Hin%elem_of_map_to_list.
    destruct (Hm k vs Hin) as [Hvs _]. split; [|done]. by destruct vs.
Qed.

(** ** Start lines *)

Lemma parseStartLine_ok a b c : c_sp ∉ a → c_sp ∉ b → parseStartLine (a ++ c_sp :: b ++ c_sp :: c) = Some (a, b, c).
Proof. intros Ha Hb. unfold parseStartLine. rewrite cut_byte_app by done. simpl. by rewrite cut_byte_app. Qed.

Lemma parseStartLine_Some l a b c :
  parseStartLine l = Some (a, b, c) → l = a ++ c_sp :: b ++ c_sp :: c ∧ (c_sp ∉ a) ∧ c_sp ∉ b.
Proof.
  unfold parseStartLine. destruct (cut_byte l c_sp) as [[x t]|] eqn:E; [|done]. simpl.
  destruct (cut_byte t c_sp) as [[y z]|] eqn:E2; [|done]. intros [= -> -> ->].
  apply cut_byte_Some in E as [-> ?], E2 as [-> ?]. done.
Qed.

Lemma ReadLine_no_lf s l r : ReadLine s = Ok (l, r) → c_lf ∉ l.
Proof.
  unfold ReadLine. destruct s as [|b s]; [done|]. destruct (index_byte _ _) as [i|] eqn:E.
  - apply index_byte_Some in E as [_ Hn]. intros [= <- _]. case_match; [|done]. case_bool_decide; [|done].
    intros Hin. apply Hn. eapply elem_of_take in Hin as (j & Hj & Hlt). apply elem_of_take. exists j. split; [done|lia].
  - intros [= <- _]. by apply index_byte_None.
Qed.

(** What any server with this parser reads of a head: the start line and the headers. *)
Definition read_head (s : list byte) : outcome (list byte * list byte * list byte * MIMEHeader * list byte) :=
  '(line, s) ← ReadLine s;
  match parseStartLine line with
  | None => Err ErrStartLine
  | Some l => '(header, s) ← ReadMIMEHeader s; Ok (l, header, s)
  end.

Lemma head_read a b c m order rest :
  c_sp ∉ a → c_sp ∉ b → c_lf ∉ a → c_lf ∉ b → c_lf ∉ c → header_map_ok m → order ≡ₚ map_to_list m →
  read_head ((writeStartLine a b c ++ writeHeaders order) ++ rest) = Ok (a, b, c, trim_values m, rest).
Proof.
  intros Ha Hb La Lb Lc Hm Ho. unfold read_head, writeStartLine.
  replace (((a ++ [c_sp] ++ b ++ [c_sp] ++ c ++ crlf) ++ writeHeaders order) ++ rest) with
    ((a ++ c_sp :: b ++ c_sp :: c) ++ crlf ++ (writeHeaders order ++ rest))
    by norm_app.
  rewrite ReadLine_crlf; cycle 1.
  { rewrite elem_of_app, elem_of_cons, elem_of_app, elem_of_cons. intuition discriminate. }
  rewrite bind_ret, parseStartLine_ok by done. by rewrite writeHeaders_read with (m := m).
Qed.

(** ** Headers of one hop *)

Definition hop_keys : list (list byte) := map CanonicalMIMEHeaderKey hop_headers.

Lemma cleanHeaders_lookup m k : cleanHeaders m !! k = if decide (k ∈ hop_keys) then None else m !! k.
Proof.
  unfold cleanHeaders, hop_keys. generalize hop_headers. intros ks. revert m.
  induction ks as [|x ks IH]; intros m; cbn [foldl map]; [done|]. rewrite IH. unfold header_Del.
  repeat case_decide; rewrite ?lookup_delete_ne by set_solver; try set_solver.
  assert (k = CanonicalMIMEHeaderKey x) as -> by set_solver. by rewrite lookup_delete_eq.
Qed.

Lemma cleanHeaders_ok m : header_map_ok m → header_map_ok (cleanHeaders m).
Proof. intros Hm k vs. rewrite cleanHeaders_lookup. case_decide; [done|]. apply Hm. Qed.

Lemma Connection_close_ok m : header_map_ok m → header_map_ok (header_Set (lit "Connection") (lit "close") m).
Proof.
  intros Hm. apply map_Forall_insert_2; [|done]. split; [done|]. constructor; [|done].
  split; [split_and!|]; [by intros b [= <-]|by eexists|by repeat constructor|by vm_compute].
Qed.

(** ** The client's head *)

(** An address as a Host header and a CONNECT line can carry it. *)
Definition addr_plain (addr : list byte) : Prop :=
  addr ≠ [] ∧ Forall (λ b, is_value b = true ∧ is_blank b = false) addr.

Definition has_creds (h : HTTP) : bool := negb (bool_decide (h_user h = []) || bool_decide (h_password h = [])).

Definition connect_headers (h : HTTP) (addr : list byte) : list (list byte * list byte) :=
  [(lit "Host", addr); (lit "Proxy-Connection", lit "Keep-Alive")] ++
  (if has_creds h
   then [(lit "Proxy-Authorization", lit "Basic " ++ b64_encode (h_user h ++ [c_colon] ++ h_password h))] else []).

Lemma connect_head_lines h addr :
  connect_head h addr =
  lit "CONNECT" ++ c_sp :: addr ++ c_sp :: lit "HTTP/1.1" ++ crlf ++
  concat (map head_line (connect_headers h addr)) ++ crlf.
Proof.
  unfold connect_head, connect_headers, has_creds, head_line.
  destruct (_ || _); cbn [negb app map concat fst snd]; cbn -[b64_encode]; rewrite <- ?app_assoc; simpl;
    by rewrite <- ?app_assoc.
Qed.

Lemma plain_trim l : Forall (λ b, is_value b = true ∧ is_blank b = false) l → trim l = l.
Proof.
  destruct 1 as [|x l [_ Hx] Hl]; [done|]. apply trim_id; [done|]. eapply Forall_impl; [exact Hl|]. by intros ? [].
Qed.

Lemma rtrim_plain p l :
  l ≠ [] → Forall (λ b, is_value b = true ∧ is_blank b = false) l → rtrim (p ++ l) = p ++ l.
Proof.
  intros Hne Hl. destruct (exists_last Hne) as (t & y & ->). apply Forall_app in Hl as [_ [[_ Hy] _]%Forall_cons].
  by rewrite app_assoc, rtrim_mid.
Qed.

Lemma b64_encode_ne s : s ≠ [] → b64_encode s ≠ [].
Proof. by destruct s as [|a [|b [|c s]]]. Qed.

Lemma Forall_plain l : Forall (λ b, is_value b = true ∧ is_blank b = false) l → Forall (λ b, is_value b = true) l.
Proof. intros H. eapply Forall_impl; [exact H|]. by intros ? []. Qed.

(** Header lines of the source: a literal key and a value whose first and last bytes are
    not blank. *)
Lemma lit_line k p l :
  forallb is_token k = true → k ≠ [] →
  Forall (λ b, is_value b = true) p → match p with [] => True | b :: _ => is_blank b = false end →
  l ≠ [] ∨ last p = None ∨ (∃ b, last p = Some b ∧ is_blank b = false) →
  Forall (λ b, is_value b = true ∧ is_blank b = false) l →
  line_ok (k, p ++ l) ∧ read_as (k, p ++ l) = (canonical true k, p ++ l).
Proof.
  intros Hk Hne Hp Hp0 Hl0 Hl. assert (canonical_key k = Some (canonical true k)) as Ek.
  { unfold canonical_key. by rewrite bool_decide_eq_false_2, Hk by done. }
  apply forallb_Forall in Hk. split; [split_and!; simpl|].
  - intros b Hb. destruct k as [|x k]; [done|]. injection Hb as ->. apply Forall_cons in Hk as [Hb _].
    by apply is_token_value in Hb as (_ & ? & _).
  - by eexists.
  - apply Forall_app. split; [done|by apply Forall_plain].
  - unfold read_as, CanonicalMIMEHeaderKey. simpl. rewrite Ek. simpl. f_equal. destruct p as [|b p].
    + by apply plain_trim.
    + rewrite trim_rtrim. simpl. rewrite Hp0. change (b :: p ++ l) with ((b :: p) ++ l).
      destruct Hl0 as [Hl0|[Hl0|(y & Hy & Hby)]]; [by apply rtrim_plain|by apply last_None in Hl0|].
      destruct (decide (l = [])) as [->|]; [|by apply rtrim_plain]. rewrite app_nil_r.
      apply last_Some in Hy as [t ->]. by rewrite rtrim_mid.
Qed.

Lemma connect_headers_ok h addr :
  addr_plain addr →
  Forall line_ok (connect_headers h addr) ∧ map read_as (connect_headers h addr) = connect_headers h addr.
Proof.
  intros [Hne Ha]. pose proof (b64_encode_value (h_user h ++ [c_colon] ++ h_password h)) as Hb.
  destruct (lit_line (lit "Host") [] addr) as [H1 E1]; try done; [by auto|].
  destruct (lit_line (lit "Proxy-Connection") [] (lit "Keep-Alive")) as [H2 E2]; try done; [by auto|by repeat constructor|].
  destruct (lit_line (lit "Proxy-Authorization") (lit "Basic ") (b64_encode (h_user h ++ [c_colon] ++ h_password h)))
    as [H3 E3]; try done; [by repeat constructor|left; apply b64_encode_ne; by destruct (h_user h)|].
  unfold connect_headers. destruct (has_creds h); (split; [repeat (apply Forall_cons_2; [done|]); apply Forall_nil_2|]); rewrite map_app; cbn [map].
  all: rewrite app_nil_l in E1, E2; by rewrite E1, E2, ?E3.
Qed.

Definition connect_map (h : HTTP) (addr : list byte) : MIMEHeader :=
  <[lit "Host" := [addr]]> (<[lit "Proxy-Connection" := [lit "Keep-Alive"]]>
    (if has_creds h
     then {[lit "Proxy-Authorization" := [lit "Basic " ++ b64_encode (h_user h ++ [c_colon] ++ h_password h)]]} else ∅)).

Lemma header_of_nodup kvs :
  NoDup kvs.*1 → header_of kvs = list_to_map (prod_map id (λ v, [v]) <$> kvs).
Proof.
  intros Hnd. unfold header_of.
  replace (foldl _ ∅ kvs)
    with (foldl (λ m kv, header_Add kv.1 kv.2 m) ∅ (flat (prod_map id (λ v, [v]) <$> kvs))).
  - rewrite header_of_flat, map_union_empty; [done|by rewrite <- list_fmap_compose|].
    apply Forall_fmap, Forall_true. by intros [].
  - f_equal. unfold flat. clear. induction kvs as [|[k v] l IH]; [done|]. cbn. f_equal. exact IH.
Qed.

Lemma connect_map_of h addr : header_of (connect_headers h addr) = connect_map h addr.
Proof.
  rewrite header_of_nodup.
  - unfold connect_headers, connect_map. by destruct (has_creds h).
  - unfold connect_headers. destruct (has_creds h); eapply bool_decide_eq_true_1; by vm_compute.
Qed.

Lemma connect_read h addr rest :
  addr_plain addr →
  read_head (connect_head h addr ++ rest) = Ok (lit "CONNECT", addr, lit "HTTP/1.1", connect_map h addr, rest).
Proof.
  intros Hp. destruct (connect_headers_ok h addr Hp) as [Hok Ht]. destruct Hp as [_ Hp].
  assert (∀ c, is_value c = false ∨ is_blank c = true → c ∉ addr) as Hno.
  { intros c Hc Hin. rewrite Forall_forall in Hp. apply Hp in Hin as [? ?]. destruct Hc; congruence. }
  unfold read_head. rewrite connect_head_lines.
  replace ((lit "CONNECT" ++ c_sp :: addr ++ c_sp :: lit "HTTP/1.1" ++ crlf ++
    concat (map head_line (connect_headers h addr)) ++ crlf) ++ rest) with
    ((lit "CONNECT" ++ c_sp :: addr ++ c_sp :: lit "HTTP/1.1") ++ crlf ++
     (concat (map head_line (connect_headers h addr)) ++ crlf ++ rest))
    by norm_app.
  rewrite ReadLine_crlf; cycle 1.
  { rewrite elem_of_app, elem_of_cons, elem_of_app, elem_of_cons. intros [H|[H|[H|[H|H]]]]; try done.
    - by vm_compute in H; repeat (apply elem_of_cons in H as [?|H]; [done|]); apply elem_of_nil in H.
    - revert H. by apply Hno; left.
    - by vm_compute in H; repeat (apply elem_of_cons in H as [?|H]; [done|]); apply elem_of_nil in H. }
  rewrite bind_ret, parseStartLine_ok; [|by eapply bool_decide_eq_true_1; vm_compute|by apply Hno; right].
  rewrite ReadMIMEHeader_ok by done. by rewrite Ht, connect_map_of.
Qed.

Section Serving.
Context (ParseRequestURI : list byte → outcome URL) (bad_host : list byte → option error).

Lemma parseRequest_Ok s req rest :
  parseRequest ParseRequestURI bad_host s = Ok (req, rest) →
  ∃ header u,
    read_head s = Ok (r_method req, r_uri req, r_proto req, header, rest) ∧
    r_auth req = header_Get header (lit "Proxy-Authorization") ∧
    r_header req = header_Set (lit "Connection") (lit "close") (cleanHeaders header) ∧
    ParseRequestURI (if bool_decide (r_method req = lit "CONNECT") && negb (has_prefix (r_uri req) (lit "/"))
                     then lit "http://" ++ r_uri req else r_uri req) = Ok u ∧
    r_target req = (if contains (u_Host u) (lit ":") then u_Host u else u_Host u ++ lit ":80") ∧
    r_ruri req = u_rel u.
Proof.
  unfold parseRequest, read_head. destruct (ReadLine s) as [[line s1]| | |]; [|done..]. rewrite !bind_ret.
  destruct (parseStartLine line) as [[[m uri] proto]|]; [|done].
  destruct (ReadMIMEHeader s1) as [[header s2]| | |]; [|done..]. rewrite !bind_ret. intros (u & Hu & H)%bind_Ok.
  exists header, u. revert H. destruct (_ || _); [destruct (bad_host _); [done|]|]; intros [= <- <-]; done.
Qed.

(** What [parseRequest] reads of a head its client wrote. *)
Lemma parseRequest_returns s : (∀ x, returns (ParseRequestURI x)) → returns (parseRequest ParseRequestURI bad_host s).
Proof.
  intros Hp. unfold parseRequest. destruct (ReadLine_returns s) as [[[l r] ->]|[e ->]]; [|right; eauto].
  rewrite bind_ret. destruct (parseStartLine l) as [[[m uri] proto]|]; [|right; eauto].
  destruct (ReadMIMEHeader_returns r) as [[[hd r'] ->]|[e ->]]; [|right; eauto]. rewrite bind_ret.
  match goal with |- context [ParseRequestURI ?x] => destruct (Hp x) as [[u ->]|[e ->]] end; [|right; eauto].
  rewrite bind_ret. destruct (_ || _); [destruct (bad_host _); [right|left]|left]; eauto.
Qed.

Lemma read_head_ok s a b c m rest :
  read_head s = Ok (a, b, c, m, rest) →
  (c_sp ∉ a) ∧ (c_sp ∉ b) ∧ (c_lf ∉ a) ∧ (c_lf ∉ b) ∧ (c_lf ∉ c) ∧ header_map_ok m.
Proof.
  unfold read_head. intros ([l r] & El & H)%bind_Ok. destruct (parseStartLine l) as [p|] eqn:Ep; [|done].
  apply bind_Ok in H as ([hd r'] & Eh & [= -> -> ->]). apply ReadLine_no_lf in El.
  apply parseStartLine_Some in Ep as (-> & Ha & Hb). apply ReadMIMEHeader_wf in Eh.
  rewrite elem_of_app, elem_of_cons, elem_of_app, elem_of_cons in El. tauto.
Qed.

(** C13: A request's head is forwarded as one head, and what follows it byte for byte: when
    a request that is not CONNECT reaches its server, the bytes sent on, read by the same
    parser, are the method and protocol the client sent, the relative form of its URI and
    its headers without those of one hop and with Connection: close (blanks at the end of a
    value apart), and after that head exactly what followed the client's; no value can
    start a header or a head of its own.  How the bytes after the head are framed is not
    preserved: the Transfer-Encoding header is among those dropped.  Of net/url it is used
    that a URI without blanks or line ends is printed without them. *)
Theorem http_forward_exact h dial order input target head rest :
  (∀ m, order m ≡ₚ map_to_list m) →
  (∀ s u, c_sp ∉ s → c_lf ∉ s → ParseRequestURI s = Ok u → c_sp ∉ u_rel u ∧ c_lf ∉ u_rel u) →
  Serve ParseRequestURI bad_host h dial order input = Ok (Forward target head rest) →
  ∃ method uri proto header u header',
    read_head input = Ok (method, uri, proto, header, rest) ∧ method ≠ lit "CONNECT" ∧
    ParseRequestURI uri = Ok u ∧
    target = (if contains (u_Host u) (lit ":") then u_Host u else u_Host u ++ lit ":80") ∧
    read_head (head ++ rest) = Ok (method, u_rel u, proto, header', rest) ∧
    ∀ k, header' !! k = if decide (k = lit "Connection") then Some [lit "close"]
                        else if decide (k ∈ hop_keys) then None
                        else map trim <$> header !! k.
Proof.
  intros Ho Hu. unfold Serve. destruct (parseRequest _ _ input) as [[req r]| | |] eqn:E; [|done..].
  apply parseRequest_Ok in E as (header & u & Er & _ & Eh & Ep & Et & Err).
  destruct (h_pretend h); [done|]. unfold servRequest. destruct (negb (auth_ok _ _)); [done|].
  destruct (bool_decide (r_method req = lit "CONNECT")) eqn:Em; [by destruct (dial _)|].
  destruct (dial _); [done|]. intros [= <- <- <-]. apply bool_decide_eq_false in Em. simpl in Ep.
  exists (r_method req), (r_uri req), (r_proto req), header, u, (trim_values (r_header req)).
  destruct (read_head_ok _ _ _ _ _ _ Er) as (? & Hsp & ? & Hlf & ? & Hm). destruct (Hu _ _ Hsp Hlf Ep) as [? ?].
  split_and!; try done.
  - unfold WriteBuf. rewrite Err. apply head_read; auto.
    rewrite Eh. by apply Connection_close_ok, cleanHeaders_ok.
  - intros k. unfold trim_values. rewrite lookup_fmap, Eh. unfold header_Set.
    replace (CanonicalMIMEHeaderKey (lit "Connection")) with (lit "Connection") by (by vm_compute).
    case_decide as Hk; [subst k; by rewrite lookup_insert_eq|]. rewrite lookup_insert_ne by done.
    rewrite cleanHeaders_lookup. by case_decide.
Qed.

Lemma bad_gateway_required proto : bad_gateway proto ≠ required.
Proof.
  intros H%(f_equal reverse). unfold bad_gateway in H. rewrite reverse_app in H.
  by vm_compute in H.
Qed.

(** C38: With a user and a password configured (and not pretending to be a web server), a
    request is dialed for, tunnelled or
    forwarded only when its Proxy-Authorization header carries exactly them; any other
    request is answered 407 whatever it asks, without the dialer being called. *)
Theorem http_auth_required h dial order input act :
  h_user h ≠ [] → h_password h ≠ [] → h_pretend h = false →
  Serve ParseRequestURI bad_host h dial order input = Ok act →
  act = Closed ∨
  ∃ method uri proto header rest,
    read_head input = Ok (method, uri, proto, header, rest) ∧
    ((extractUserPass (header_Get header (lit "Proxy-Authorization")) = Some (h_user h, h_password h) ∧
      act ≠ Answer required) ∨
     (extractUserPass (header_Get header (lit "Proxy-Authorization")) ≠ Some (h_user h, h_password h) ∧
      act = Answer required ∧
      ∀ dial', Serve ParseRequestURI bad_host h dial' order input = Ok act)).
Proof.
  intros Hu Hp Hpre. unfold Serve. destruct (parseRequest _ _ input) as [[req r]| | |] eqn:E; [|intros [= <-]; by left|done..].
  rewrite Hpre. intros [= <-]. right. apply parseRequest_Ok in E as (header & u & Er & Ea & _).
  do 5 eexists. split; [exact Er|]. rewrite <- Ea.
  assert (auth_ok h (r_auth req) = bool_decide (extractUserPass (r_auth req) = Some (h_user h, h_password h))) as Eok.
  { unfold auth_ok. by rewrite !bool_decide_eq_false_2 by done. }
  unfold servRequest. rewrite Eok. case_bool_decide as Hc; [left|right; done]. split; [done|]. simpl.
  repeat case_match; try done; intros [= H7]; by apply bad_gateway_required in H7.
Qed.
(** The credentials of the client's URL are those the server asks for, if it asks. *)
Definition accepts (srv cli : HTTP) : bool :=
  negb (has_creds srv) || (bool_decide (h_user cli = h_user srv) && bool_decide (h_password cli = h_password srv)).

Lemma connect_auth h addr :
  c_colon ∉ h_user h →
  extractUserPass (header_Get (connect_map h addr) (lit "Proxy-Authorization")) =
  if has_creds h then Some (h_user h, h_password h) else None.
Proof.
  intros Hu. unfold header_Get, connect_map.
  replace (CanonicalMIMEHeaderKey (lit "Proxy-Authorization")) with (lit "Proxy-Authorization") by (by vm_compute).
  rewrite !lookup_insert_ne by done. destruct (has_creds h); [|done]. rewrite lookup_singleton_eq.
  unfold extractUserPass. change (has_prefix (lit "Basic " ++ ?x) _) with true.
  change (drop 6 (lit "Basic " ++ ?x)) with x. rewrite b64_roundtrip. simpl. by apply cut_byte_app.
Qed.

Lemma connect_auth_ok srv cli addr :
  c_colon ∉ h_user cli →
  auth_ok srv (header_Get (connect_map cli addr) (lit "Proxy-Authorization")) = accepts srv cli.
Proof.
  intros Hu. unfold auth_ok, accepts. rewrite connect_auth by done. unfold has_creds.
  destruct (bool_decide (h_user srv = []) || bool_decide (h_password srv = [])) eqn:E; [done|]. simpl. bools.
  repeat case_bool_decide; simpl in *; try done; congruence.
Qed.

Lemma connect_host cli addr :
  header_Get (header_Set (lit "Connection") (lit "close") (cleanHeaders (connect_map cli addr))) (lit "Host") = addr.
Proof.
  unfold header_Get, header_Set.
  replace (CanonicalMIMEHeaderKey (lit "Host")) with (lit "Host") by (by vm_compute).
  replace (CanonicalMIMEHeaderKey (lit "Connection")) with (lit "Connection") by (by vm_compute).
  rewrite lookup_insert_ne, cleanHeaders_lookup by done.
  rewrite decide_False by (by eapply bool_decide_eq_true_1; vm_compute).
  unfold connect_map. by rewrite lookup_insert_eq.
Qed.

(** C19: The proxy's client and server agree: the CONNECT head the client writes for an
    address opens a tunnel to exactly that address on a server whose credentials are
    the client's (or that has none), passing on exactly the bytes that follow the head;
    the client takes the server's answer as success and hands on exactly the bytes that
    follow it.  With other credentials the server answers 407, on a failed dial 502, and
    both are errors to the client. *)
Theorem http_connect_agree cli srv dial order addr u rest remote :
  addr_plain addr → has_prefix addr (lit "/") = false → c_colon ∉ h_user cli → h_pretend srv = false →
  ParseRequestURI (lit "http://" ++ addr) = Ok u → bad_host addr = None →
  Serve ParseRequestURI bad_host srv dial order (connect_head cli addr ++ rest) =
    Ok (if accepts srv cli
        then match dial addr with
             | None => Tunnel addr established rest
             | Some _ => Answer (bad_gateway (lit "HTTP/1.1"))
             end
        else Answer required) ∧
  Dial_answer (established ++ remote) = Ok (Some remote) ∧
  (∃ e, Dial_answer required = Err e) ∧ ∃ e, Dial_answer (bad_gateway (lit "HTTP/1.1")) = Err e.
Proof.
  intros Ha Hs Hu Hpre Hp Hb. split; [|split_and!; [|by eexists; vm_compute..]].
  - pose proof (connect_read cli addr rest Ha) as Hr. revert Hr. unfold read_head, Serve, parseRequest.
    intros ([l r] & -> & H)%bind_Ok. rewrite bind_ret. destruct (parseStartLine l) as [p|]; [|done].
    apply bind_Ok in H as ([hd r'] & -> & [= -> -> ->]). rewrite bind_ret, Hs.
    change (bool_decide (lit "CONNECT" = lit "CONNECT")) with true. cbn [andb negb orb].
    rewrite Hp, bind_ret, connect_host, Hb, Hpre. unfold servRequest. cbn [r_auth r_method r_uri r_proto].
    rewrite connect_auth_ok by done. by destruct (accepts srv cli).
  - unfold Dial_answer, established. rewrite <- !app_assoc.
    rewrite ReadLine_crlf by (by eapply bool_decide_eq_true_1; vm_compute).
    rewrite bind_ret. change (parseStartLine _) with (Some (lit "HTTP/1.1", lit "200", lit "Connection established")).
    change (bool_decide (lit "200" = lit "200")) with true.
    change (crlf ++ remote) with (concat (map head_line []) ++ crlf ++ remote).
    by rewrite ReadMIMEHeader_ok by constructor.
Qed.
End Serving.
