(* ===== verification/WsHandshake.v ===== *)
(** proxy/ws: configuration and the opening handshake of client and server.

    SHA-1 is an argument.  A connection is the list of what its reads return; the
    handshake reads it through a buffered reader that is given back to the pool when it
    ends. *)
From S2P Require Import Prelude GoStd HttpHead Http HttpHeadProofs HttpProofs.

Module WsHandshake.

Record WS := MkWS {
  ws_addr : list byte;
  ws_host : list byte;
  ws_path : list byte;
  ws_origin : list byte;
  ws_withTLS : bool;
  ws_serverName : list byte;
  ws_skipVerify : bool;
  ws_certFile : list byte;
  ws_keyFile : list byte }.

(** [NewWS] of a URL's host, path and query, with the address of the dialer, if any. *)
Definition NewWS (uhost upath : list byte) (query : list (list byte * list byte)) (dialer : option (list byte))
    (withTLS : bool) : outcome WS :=
  let addr := match dialer with
              | Some a => if bool_decide (uhost = []) then a else uhost
              | None => uhost
              end in
  let addr := if bool_decide ((SplitHostPort_ addr).2 = [])
              then JoinHostPort addr (if withTLS then lit "443" else lit "80") else addr in
  let host := query_get query (lit "host") in
  let serverName := query_get query (lit "serverName") in
  let host := if bool_decide (host = []) then addr else host in
  let path := if bool_decide (upath = []) then lit "/" else upath in
  serverName ← (if bool_decide (serverName = []) then
                  match last_index_byte addr c_colon with
                  | Some i => Ok (take i addr)
                  | None => Panic
                  end
                else Ok serverName);
  Ok (MkWS addr host path (query_get query (lit "origin")) withTLS serverName
        (bool_decide (query_get query (lit "skipVerify") = lit "true"))
        (query_get query (lit "cert")) (query_get query (lit "key"))).

Definition keyGUID : list byte := lit "258EAFA5-E914-47DA-95CA-C5AB0DC85B11".

Section Handshake.
Context (sha1 : list byte → list byte).

(** [generateClientKey] from 16 random bytes. *)
Definition generateClientKey (p : list byte) : list byte := b64_encode p.
Definition computeServerKey (clientKey : list byte) : list byte := b64_encode (sha1 (clientKey ++ keyGUID)).

Definition parseFirstLine := parseStartLine.

(** What the connection still returns once a buffered reader has handed out [used]
    bytes: whole reads only. *)
Fixpoint conn_after (used : nat) (reads : list (list byte)) : list (list byte) :=
  match reads with
  | [] => []
  | s :: reads' => if (used =? 0)%nat then reads else conn_after (used - length s) reads'
  end.

(** [ClientConn.Handshake]: what it writes, and what it makes of the answer. *)
Definition client_head (host path origin clientKey : list byte) : list byte :=
  lit "GET " ++ path ++ lit " HTTP/1.1" ++ Http.crlf ++
  lit "Host: " ++ host ++ Http.crlf ++
  lit "Upgrade: websocket" ++ Http.crlf ++
  lit "Connection: Upgrade" ++ Http.crlf ++
  (if bool_decide (origin = []) then [] else lit "Origin: http://" ++ origin ++ Http.crlf) ++
  lit "Sec-WebSocket-Key: " ++ clientKey ++ Http.crlf ++
  lit "Sec-WebSocket-Version: 13" ++ Http.crlf ++
  Http.crlf.

Definition client_Handshake (clientKey : list byte) (reads : list (list byte)) : outcome (list (list byte)) :=
  let s := concat reads in
  '(line, s1) ← ReadLine s;
  if match parseFirstLine line with Some (_, code, _) => bool_decide (code = lit "101") | None => false end then
    '(respHeader, s2) ← ReadMIMEHeader s1;
    if bool_decide (header_Get respHeader (lit "Sec-WebSocket-Accept") = computeServerKey clientKey)
    then Ok (conn_after (length s - length s2) reads)
    else Err "[ws] error in ws handshake, got wrong Sec-Websocket-Key"
  else Err "[ws] error in ws handshake, got wrong response".

(** [ServerConn.Handshake]: the answer it writes, and the connection after it.  The
    [path] of the configuration is overwritten by the one of the request, which is compared
    with itself. *)
Definition server_head (serverKey : list byte) : list byte :=
  lit "HTTP/1.1 101 Switching Protocols" ++ Http.crlf ++
  lit "Upgrade: websocket" ++ Http.crlf ++
  lit "Connection: Upgrade" ++ Http.crlf ++
  lit "Sec-WebSocket-Accept: " ++ serverKey ++ Http.crlf ++
  Http.crlf.

Definition server_Handshake (path : list byte) (reads : list (list byte)) : outcome (list byte * list (list byte)) :=
  let s := concat reads in
  '(line, s1) ← ReadLine s;
  if match parseFirstLine line with Some (_, path, _) => bool_decide (path = path) | None => false end then
    '(reqHeader, s2) ← ReadMIMEHeader s1;
    Ok (server_head (computeServerKey (header_Get reqHeader (lit "Sec-WebSocket-Key"))),
        conn_after (length s - length s2) reads)
  else Err "[ws] error in ws handshake parseFirstLine".
End Handshake.
End WsHandshake.
