(* ===== verification/WsHandshakeProofs.v ===== *)
(** The WebSocket handshake: client and server agree, the path is not checked, and what
    follows the server's head in one read is lost. *)
From S2P Require Import Prelude GoStd HttpHead Http HttpHeadProofs HttpProofs WsHandshake.

Import WsHandshake.

(** ** Configuration *)

Lemma NewWS_returns uhost upath query dialer withTLS :
  ∃ w, NewWS uhost upath query dialer withTLS = Ok w ∧ c_colon ∈ ws_addr w ∧ ws_path w ≠ [] ∧ ws_host w ≠ [].
Proof.
  unfold NewWS. set (a0 := match dialer with Some a => _ | None => uhost end).
  set (addr := if bool_decide ((SplitHostPort_ a0).2 = []) then _ else a0).
  assert (c_colon ∈ addr) as Hc.
  { unfold addr. case_bool_decide; [apply JoinHostPort_colon|by apply SplitHostPort_colon]. }
  assert (addr ≠ []) by (by intros E; rewrite E in Hc; apply elem_of_nil in Hc).
  destruct (last_index_byte addr c_colon) as [i|] eqn:E.
  - destruct (bool_decide (query_get query (lit "serverName") = [])); eexists; (split; [reflexivity|]);
      simpl; (split; [done|]); repeat case_bool_decide; done.
  - by apply last_index_byte_None in E.
Qed.

(** ** The two heads *)

Section Handshake.
Context (sha1 : list byte → list byte).
Implicit Types key host path origin : list byte.

Definition request_headers host origin key : list (list byte * list byte) :=
  [(lit "Host", host); (lit "Upgrade", lit "websocket"); (lit "Connection", lit "Upgrade")] ++
  (if bool_decide (origin = []) then [] else [(lit "Origin", lit "http://" ++ origin)]) ++
  [(lit "Sec-WebSocket-Key", key); (lit "Sec-WebSocket-Version", lit "13")].

Definition answer_headers key : list (list byte * list byte) :=
  [(lit "Upgrade", lit "websocket"); (lit "Connection", lit "Upgrade");
   (lit "Sec-WebSocket-Accept", computeServerKey sha1 key)].

Definition plain (l : list byte) : Prop := Forall (λ b, is_value b = true ∧ is_blank b = false) l.

Lemma request_headers_ok host origin key :
  plain host → plain origin → plain key → Forall line_ok (request_headers host origin key).
Proof.
  intros Hh Ho Hk.
  destruct (lit_line (lit "Host") [] host) as [H1 _]; try done; [by auto|].
  destruct (lit_line (lit "Upgrade") [] (lit "websocket")) as [H2 _]; try done; [by auto|by repeat constructor|].
  destruct (lit_line (lit "Connection") [] (lit "Upgrade")) as [H3 _]; try done; [by auto|by repeat constructor|].
  destruct (lit_line (lit "Origin") (lit "http://") origin) as [H4 _]; try done;
    [by repeat constructor|right; right; by eexists|].
  destruct (lit_line (lit "Sec-WebSocket-Key") [] key) as [H5 _]; try done; [by auto|].
  destruct (lit_line (lit "Sec-WebSocket-Version") [] (lit "13")) as [H6 _]; try done; [by auto|by repeat constructor|].
  unfold request_headers. case_bool_decide; repeat (apply Forall_cons_2; [done|]); apply Forall_nil_2.
Qed.

Lemma request_key host origin key :
  plain key →
  header_Get (header_of (map read_as (request_headers host origin key))) (lit "Sec-WebSocket-Key") = key.
Proof.
  intros Hk. unfold header_Get. rewrite header_of_nodup; unfold request_headers.
  - replace (CanonicalMIMEHeaderKey (lit "Sec-WebSocket-Key")) with (lit "Sec-Websocket-Key") by (by vm_compute).
    case_bool_decide; cbn [map app fmap list_fmap list_to_map foldr]; unfold read_as.
    all: cbn [fst snd]. all: rewrite !lookup_insert_ne by (by vm_compute). all: rewrite lookup_insert_eq.
    all: by apply plain_trim.
  - case_bool_decide; eapply bool_decide_eq_true_1; by vm_compute.
Qed.

Lemma answer_headers_ok key :
  Forall line_ok (answer_headers key) ∧
  header_Get (header_of (map read_as (answer_headers key))) (lit "Sec-WebSocket-Accept") = computeServerKey sha1 key.
Proof.
  assert (plain (computeServerKey sha1 key)) as Hp by apply b64_encode_value. split.
  - destruct (lit_line (lit "Upgrade") [] (lit "websocket")) as [H2 _]; try done; [by auto|by repeat constructor|].
    destruct (lit_line (lit "Connection") [] (lit "Upgrade")) as [H3 _]; try done; [by auto|by repeat constructor|].
    destruct (lit_line (lit "Sec-WebSocket-Accept") [] (computeServerKey sha1 key)) as [H5 _]; try done; [by auto|].
    repeat (apply Forall_cons_2; [done|]); apply Forall_nil_2.
  - unfold header_Get. rewrite header_of_nodup.
    + replace (CanonicalMIMEHeaderKey (lit "Sec-WebSocket-Accept")) with (lit "Sec-Websocket-Accept") by (by vm_compute).
      unfold answer_headers. cbn [map fmap list_fmap list_to_map foldr]. unfold read_as. cbn [fst snd].
      rewrite !lookup_insert_ne by (by vm_compute). rewrite lookup_insert_eq. by apply plain_trim.
    + eapply bool_decide_eq_true_1; by vm_compute.
Qed.

Lemma client_head_lines host path origin key :
  client_head host path origin key =
  (lit "GET" ++ c_sp :: path ++ c_sp :: lit "HTTP/1.1") ++ Http.crlf ++
  concat (map head_line (request_headers host origin key)) ++ Http.crlf ++ [].
Proof.
  unfold client_head, request_headers, head_line. case_bool_decide; cbn [app map concat fst snd]; norm_app.
Qed.

Lemma server_head_lines key rest :
  server_head (computeServerKey sha1 key) ++ rest =
  lit "HTTP/1.1 101 Switching Protocols" ++ Http.crlf ++
  concat (map head_line (answer_headers key)) ++ Http.crlf ++ rest.
Proof. unfold server_head, answer_headers, head_line. cbn [app map concat fst snd]. norm_app. Qed.

(** ** Reads *)

Lemma conn_after_0 reads : conn_after 0 reads = reads.
Proof. by destruct reads. Qed.

Lemma conn_after_split a l early reads :
  l ≠ [] → conn_after (length (concat a ++ l)) (a ++ (l ++ early) :: reads) = reads.
Proof.
  intros Hl. assert (length l ≠ 0%nat) as Hl0 by (by destruct l).
  induction a as [|s a IH]; cbn [app concat conn_after].
  - rewrite (proj2 (Nat.eqb_neq _ _)) by done. rewrite length_app.
    replace (length l - (length l + length early))%nat with 0%nat by lia. apply conn_after_0.
  - rewrite (proj2 (Nat.eqb_neq _ _)) by (rewrite !length_app; lia).
    etransitivity; [|exact IH]. f_equal. rewrite !length_app. lia.
Qed.

Lemma conn_after_all used reads : (length (concat reads) <= used)%nat → concat (conn_after used reads) = [].
Proof.
  revert used. induction reads as [|s reads IH]; intros used H; [done|]. cbn [concat conn_after] in *.
  rewrite length_app in H. case_match eqn:E; bools; [|apply IH; lia].
  apply nil_length_inv. cbn [concat]. rewrite length_app. lia.
Qed.

(** C28: Client and server agree on the handshake, for any hash: the client's head,
    however it is cut into reads, makes a server of any configured path (its own or not)
    answer with the head that the client accepts.  Of what the server sends after its
    head, the client keeps only the reads after the one in which the head ends: data
    that arrive in the same read as the end of the head are lost. *)
Theorem ws_handshake_agree host path origin rand path' reads a l early later :
  plain host → plain path → plain origin →
  concat reads = client_head host path origin (generateClientKey rand) →
  concat a ++ l = server_head (computeServerKey sha1 (generateClientKey rand)) → l ≠ [] →
  (∃ reads', server_Handshake sha1 path' reads =
     Ok (server_head (computeServerKey sha1 (generateClientKey rand)), reads') ∧ concat reads' = []) ∧
  client_Handshake sha1 (generateClientKey rand) (a ++ (l ++ early) :: later) = Ok later.
Proof.
  intros Hh Hp Ho Hr Ha Hl. set (key := generateClientKey rand) in *.
  assert (plain key) as Hk by apply b64_encode_value.
  assert (∀ c, is_value c = false ∨ is_blank c = true → c ∉ path) as Hno.
  { intros c Hc Hin. unfold plain in Hp. rewrite Forall_forall in Hp. apply Hp in Hin as [? ?]. destruct Hc; congruence. }
  split.
  - exists (conn_after (length (concat reads)) reads). split; [|by apply conn_after_all].
    unfold server_Handshake. rewrite Hr, client_head_lines.
    rewrite ReadLine_crlf; cycle 1.
    { rewrite elem_of_app, elem_of_cons, elem_of_app, elem_of_cons. intros [H|[H|[H|[H|H]]]]; try done.
      - revert H. by eapply bool_decide_eq_true_1; vm_compute.
      - revert H. by apply Hno; left.
      - revert H. by eapply bool_decide_eq_true_1; vm_compute. }
    rewrite bind_ret. unfold parseFirstLine.
    rewrite parseStartLine_ok; [|by eapply bool_decide_eq_true_1; vm_compute|by apply Hno; right].
    rewrite bool_decide_eq_true_2 by done. rewrite ReadMIMEHeader_ok by (by apply request_headers_ok).
    rewrite bind_ret, request_key by done. cbn [length]. by rewrite Nat.sub_0_r.
  - unfold client_Handshake. rewrite concat_app. cbn [concat].
    replace (concat a ++ (l ++ early) ++ concat later) with ((concat a ++ l) ++ early ++ concat later)
      by (by rewrite <- !app_assoc).
    rewrite Ha at 1. rewrite server_head_lines.
    rewrite ReadLine_crlf by (by eapply bool_decide_eq_true_1; vm_compute). rewrite bind_ret.
    change (match parseFirstLine _ with Some _ => _ | None => _ end) with true. cbn match.
    destruct (answer_headers_ok key) as [Hok Hget]. rewrite ReadMIMEHeader_ok, bind_ret by done.
    rewrite bool_decide_eq_true_2 by done. f_equal.
    etransitivity; [|exact (conn_after_split a l early later Hl)]. f_equal. rewrite !length_app. lia.
Qed.
End Handshake.
