(* ===== verification/HttpWitness.v ===== *)
(** The theorems of the HTTP proxy and of the WebSocket handshake at concrete requests. *)
From S2P Require Import Prelude GoStd HttpHead Http HttpHeadProofs HttpProofs WsHandshake WsHandshakeProofs.

Import Http WsHandshake.

(** A URL parser that answers with one URL, and no bad hosts. *)
Definition one_url : URL := MkURL (lit "example.org") true (lit "http://example.org/x") (lit "/x").
Definition to_one_url (s : list byte) : outcome URL := Ok one_url.
(** One that takes the URI's text as it is, after the scheme and the host. *)
Definition text_url (s : list byte) : outcome URL := Ok (MkURL (lit "example.org") true s (drop 18 s)).
Definition all_hosts (h : list byte) : option error := None.
Definition dial_all (addr : list byte) : option error := None.

Definition guard : HTTP := MkHTTP (lit ":8443") (lit "u") (lit "p:1") false.
Definition anyone : HTTP := MkHTTP (lit ":8080") [] [] false.

Definition chunked_post : list byte :=
  lit "POST http://example.org/x HTTP/1.1" ++ crlf ++ lit "Host: example.org" ++ crlf ++
  lit "x-tag:  a b " ++ crlf ++ lit "Transfer-Encoding: chunked" ++ crlf ++ crlf ++
  lit "5" ++ crlf ++ lit "hello" ++ crlf ++ lit "0" ++ crlf ++ crlf.

Definition forwarded (x : outcome http_action) : option (list byte * list byte * list byte) :=
  match x with Ok (Forward t h r) => Some (t, h, r) | _ => None end.
Lemma forwarded_Some x t h r : forwarded x = Some (t, h, r) → x = Ok (Forward t h r).
Proof. destruct x as [[]| | |]; by intros [=]; subst. Qed.

Lemma http_forward_exact_witness :
  ∃ target head rest,
    Serve text_url all_hosts anyone dial_all map_to_list chunked_post = Ok (Forward target head rest) ∧
    rest = lit "5" ++ crlf ++ lit "hello" ++ crlf ++ lit "0" ++ crlf ++ crlf ∧
    ∃ method uri proto header u header',
      read_head chunked_post = Ok (method, uri, proto, header, rest) ∧ method ≠ lit "CONNECT" ∧
      text_url uri = Ok u ∧
      target = (if contains (u_Host u) (lit ":") then u_Host u else u_Host u ++ lit ":80") ∧
      read_head (head ++ rest) = Ok (method, u_rel u, proto, header', rest) ∧
      ∀ k, header' !! k = if decide (k = lit "Connection") then Some [lit "close"]
                          else if decide (k ∈ hop_keys) then None
                          else map trim <$> header !! k.
Proof.
  destruct (forwarded (Serve text_url all_hosts anyone dial_all map_to_list chunked_post))
    as [[[t h] r]|] eqn:E; [|by vm_compute in E].
  exists t, h, r. split; [by apply forwarded_Some|]. split.
  - apply (f_equal (fmap snd)) in E. vm_compute in E. by injection E as <-.
  - eapply (http_forward_exact text_url all_hosts anyone dial_all map_to_list chunked_post t h r).
    + done.
    + intros s u Hs Hl [= <-]. cbn [u_rel]. split; intros Hin; [apply Hs|apply Hl]; rewrite <- (take_drop 18 s), elem_of_app; by right.
    + by apply forwarded_Some.
Defined.

Definition guarded_connect : list byte := connect_head guard (lit "example.org:443").

Lemma http_auth_required_witness :
  ∃ act, Serve to_one_url all_hosts guard dial_all map_to_list guarded_connect = Ok act ∧
  (act = Closed ∨
   ∃ method uri proto header rest,
     read_head guarded_connect = Ok (method, uri, proto, header, rest) ∧
     ((extractUserPass (header_Get header (lit "Proxy-Authorization")) = Some (h_user guard, h_password guard) ∧
       act ≠ Answer required) ∨
      (extractUserPass (header_Get header (lit "Proxy-Authorization")) ≠ Some (h_user guard, h_password guard) ∧
       act = Answer required ∧
       ∀ dial', Serve to_one_url all_hosts guard dial' map_to_list guarded_connect = Ok act))).
Proof.
  exists (Tunnel (lit "example.org:443") established []).
  assert (Serve to_one_url all_hosts guard dial_all map_to_list guarded_connect =
          Ok (Tunnel (lit "example.org:443") established [])) as E by (by vm_compute).
  split; [exact E|].
  by apply (http_auth_required to_one_url all_hosts guard dial_all map_to_list guarded_connect).
Defined.

Lemma plain_check l : forallb (λ b, is_value b && negb (is_blank b)) l = true → plain l.
Proof.
  intros H%forallb_Forall. eapply Forall_impl; [exact H|]. intros b Hb. simpl in Hb. by bools.
Qed.

Lemma http_connect_agree_witness :
  Serve to_one_url all_hosts guard dial_all map_to_list (connect_head guard (lit "example.org:443") ++ lit "hello") =
    Ok (Tunnel (lit "example.org:443") established (lit "hello")) ∧
  Dial_answer (established ++ lit "world") = Ok (Some (lit "world")).
Proof.
  destruct (http_connect_agree to_one_url all_hosts guard guard dial_all map_to_list (lit "example.org:443") one_url
    (lit "hello") (lit "world")) as (H1 & H2 & _); try done.
  - split; [done|]. by apply plain_check.
  - by eapply bool_decide_eq_true_1; vm_compute.
Defined.

(** SHA-1 replaced by a prefix of the key. *)
Definition first20 (l : list byte) : list byte := take 20 l.
Definition demo_key : list byte := generateClientKey (lit "0123456789abcdef").

Lemma ws_handshake_agree_witness :
  (∃ reads', server_Handshake first20 (lit "/secret") [client_head (lit "h") (lit "/other") [] demo_key] =
     Ok (server_head (computeServerKey first20 demo_key), reads') ∧ concat reads' = []) ∧
  client_Handshake first20 demo_key [server_head (computeServerKey first20 demo_key) ++ lit "lost"; lit "kept"] =
    Ok [lit "kept"].
Proof.
  apply (ws_handshake_agree first20 (lit "h") (lit "/other") [] (lit "0123456789abcdef") (lit "/secret")
    [client_head (lit "h") (lit "/other") [] demo_key] [] (server_head (computeServerKey first20 demo_key))
    (lit "lost") [lit "kept"]); try done; by apply plain_check.
Defined.
