(* ===== verification/Vmess.v ===== *)
(** proxy/vmess: users, the request and response headers, and the chunked streams of
    the vmess client.

    Hashes, ciphers and SHAKE are libraries and arguments of the definitions; FNV-1a and
    CRC-32, which the code also takes from the standard library, are written out.  What
    the random sources and the clock give is the record [draws]. *)
From S2P Require Import Prelude GoStd Reader ProxyConn SocksAddr Trojan Vless Shadowsocks.

Module Vm.

(** ** Constants (client.go, addr.go, chunk.go) *)

Definition OptBasicFormat : Z := 0.
Definition OptChunkStream : Z := 1.
Definition OptChunkMasking : Z := 4.
Definition SecurityAES128GCM : Z := 3.
Definition SecurityChacha20Poly1305 : Z := 4.
Definition SecurityNone : Z := 5.
Definition CmdTCP : Z := 1.
Definition CmdUDP : Z := 2.
Definition chunkSize : nat := Z.to_nat (Z.shiftl 16 10).

(** [ParseAddr], the same function as in proxy/vless. *)
Definition vmess_ParseAddr (s : list byte) : outcome (byte * list byte * Z) := vless_ParseAddr s.

(** ** Checksums of the standard library *)

(** [fnv.New32a]. *)
Definition fnv1a (s : list byte) : Z :=
  foldl (λ h b, u32 (Z.lxor h (b2z b) * 16777619)) 2166136261 s.

(** [crc32.ChecksumIEEE]. *)
Definition crc_bit (c : Z) : Z :=
  if Z.testbit c 0 then Z.lxor (Z.shiftr c 1) 0xedb88320 else Z.shiftr c 1.
Definition crc32 (s : list byte) : Z :=
  Z.lxor (foldl (λ c b, Nat.iter 8 crc_bit (Z.lxor c (b2z b))) 0xffffffff s) 0xffffffff.

(** What a connection draws: the user, 32 random bytes, the response byte, the length of
    the padding and its bytes; the clock, read in seconds for the authentication ([Auth], or
    the auth ID of an AEAD header), and read again when [Request] encrypts a header of the
    legacy format; and for the AEAD header 4 and 8 bytes. *)
Record draws := MkDraws {
  d_user : nat;
  d_bytes : list byte;
  d_respV : byte;
  d_paddingLen : nat;
  d_padding : list byte;
  d_authNow : Z;
  d_requestNow : Z;
  d_authRand : list byte;
  d_nonce : list byte }.

Section Crypto.
Context (md5 sha1 sha256 : list byte → list byte).
(** [hmac.New] of a hash and a key, on a message. *)
Context (hmac : (list byte → list byte) → list byte → list byte → list byte).
Context (aes_encrypt : list byte → list byte → list byte).
(** AES-GCM and ChaCha20-Poly1305: key, nonce, data, additional data. *)
Context (gcm_seal : list byte → list byte → list byte → list byte → list byte).
Context (gcm_open : list byte → list byte → list byte → list byte → list byte + error).
Context (chacha : list byte → Ss.AEAD).
(** AES-CFB of a key and an IV. *)
Context (cfb_encrypt cfb_decrypt : list byte → list byte → list byte → list byte).
(** The i-th 16-bit word SHAKE128 gives after a nonce. *)
Context (shake : list byte → nat → Z).

(** ** Users (user.go) *)

(** [StrToUUID], the same function as in proxy/vless. *)
Definition vmess_StrToUUID (s : list byte) : outcome (list byte) := StrToUUID sha1 s.

Record User := MkUser { u_UUID : list byte; u_CmdKey : list byte }.

Definition GetKey (uuid : list byte) : list byte := md5 (uuid ++ lit "c48619fe-8f02-49e0-b9e9-edf763e17e21").
Definition NewUser (uuid : list byte) : User := MkUser uuid (GetKey uuid).

Fixpoint nextID_loop (fuel : nat) (oldID written : list byte) : outcome (list byte) :=
  match fuel with
  | O => OutOfFuel
  | S fuel =>
      let newID := md5 written in
      if bool_decide (oldID = newID)
      then nextID_loop fuel oldID (written ++ lit "533eff8a-4113-4b10-b5ce-0f5d76b98cd2") else Ok newID
  end.
(** [nextID], at most [fuel] rounds. *)
Definition nextID (fuel : nat) (oldID : list byte) : outcome (list byte) :=
  nextID_loop fuel oldID (oldID ++ lit "16167dc8-16b6-4e6d-b8bb-65dd68113a81").

Fixpoint GenAlterIDUsers (fuel alterID : nat) (preID key : list byte) : outcome (list User) :=
  match alterID with
  | O => Ok []
  | S alterID =>
      newID ← nextID fuel preID;
      users ← GenAlterIDUsers fuel alterID newID key;
      Ok (MkUser newID key :: users)
  end.

(** [TimestampHash]. *)
Definition TimestampHash (now : Z) : list byte :=
  let ts := be_bytes 8 (u64 now) in md5 (ts ++ ts ++ ts ++ ts).

(** ** Clients (client.go) *)

Record Client := MkClient {
  c_users : list User;
  c_opt : Z;
  c_aead : bool;
  c_security : Z }.

(** [NewClient]; [fast]: whether [runtime.GOARCH] is amd64, s390x or arm64. *)
Definition NewClient (fuel : nat) (fast : bool) (uuidStr security : list byte) (alterID : nat) (aead : bool)
    : outcome Client :=
  uuid ← vmess_StrToUUID uuidStr;
  let user := NewUser uuid in
  alter ← GenAlterIDUsers fuel alterID uuid (u_CmdKey user);
  let users := user :: alter in
  let security := to_lower security in
  let opt := Z.lor OptChunkStream OptChunkMasking in
  if bool_decide (security = lit "aes-128-gcm") then Ok (MkClient users opt aead SecurityAES128GCM)
  else if bool_decide (security = lit "chacha20-poly1305") then Ok (MkClient users opt aead SecurityChacha20Poly1305)
  else if bool_decide (security = lit "none") then Ok (MkClient users opt aead SecurityNone)
  else if bool_decide (security = lit "zero") then Ok (MkClient users OptBasicFormat aead SecurityNone)
  else if bool_decide (security = [])
    then Ok (MkClient users opt aead (if fast then SecurityAES128GCM else SecurityChacha20Poly1305))
  else Err "unknown security type".

(** [NewVMess] of a URL's user information and its alterID: uuid, security, alterID and
    whether the header is AEAD. *)
Definition NewVMess (username : list byte) (password : option (list byte)) (aid : list byte)
    : outcome (list byte * list byte * Z * bool) :=
  let '(uuid, security) := match password with
                           | Some p => (p, username)
                           | None => (username, [])
                           end in
  let aid := if bool_decide (aid = []) then lit "0" else aid in
  match parse_uint aid 32 with
  | (n, None) => Ok (uuid, security, n, n =? 0)
  | (_, Some e) => Err e
  end.

(** ** The AEAD header (auth.go) *)

(** [hMacCreator.Create] along a path, the innermost first. *)
Fixpoint hmac_path (parent : list byte → list byte) (path : list (list byte)) : list byte → list byte :=
  match path with
  | [] => parent
  | v :: path => hmac_path (hmac parent v) path
  end.
Definition kdf (key : list byte) (path : list (list byte)) : list byte :=
  hmac_path (hmac sha256 (lit "VMess AEAD KDF")) path key.

Definition createAuthID (cmdKey : list byte) (d : draws) : list byte :=
  let buf := be_bytes 8 (u64 (d_authNow d)) ++ d_authRand d in
  aes_encrypt (take 16 (kdf cmdKey [lit "AES Auth ID Encryption"])) (buf ++ be_bytes 4 (crc32 buf)).

(** The key and the nonce of a part of the header. *)
Definition header_key (key salt authID nonce : list byte) : list byte := take 16 (kdf key [salt; authID; nonce]).
Definition header_iv (key salt authID nonce : list byte) : list byte := take 12 (kdf key [salt; authID; nonce]).

Definition sealVMessAEADHeader (key data : list byte) (d : draws) : list byte :=
  let authID := createAuthID key d in
  let nonce := d_nonce d in
  authID ++
  gcm_seal (header_key key (lit "VMess Header AEAD Key_Length") authID nonce)
    (header_iv key (lit "VMess Header AEAD Nonce_Length") authID nonce)
    (be_bytes 2 (u16 (Z.of_nat (length data)))) authID ++
  nonce ++
  gcm_seal (header_key key (lit "VMess Header AEAD Key") authID nonce)
    (header_iv key (lit "VMess Header AEAD Nonce") authID nonce) data authID.

Definition rd_open {A} (x : A + error) : rd A := match x with inl a => rd_ret a | inr e => rd_fail e end.

(** [openVMessAEADHeader]; the length of the second part is computed in 16 bits. *)
Definition openVMessAEADHeader (key iv : list byte) : rd (list byte) :=
  (c <- rd_full 18;;
   l <- rd_open (gcm_open (take 16 (kdf key [lit "AEAD Resp Header Len Key"]))
                   (take 12 (kdf iv [lit "AEAD Resp Header Len IV"])) c []);;
   if (length l <? 2)%nat then λ r, (Panic, r)
   else
     c <- rd_full (Z.to_nat (u16 (be_val (take 2 l) + 16)));;
     rd_open (gcm_open (take 16 (kdf key [lit "AEAD Resp Header Key"]))
                (take 12 (kdf iv [lit "AEAD Resp Header IV"])) c []))%rd.

(** ** Connections (client.go) *)

Record Conn := MkConn {
  v_user : User;
  v_opt : Z;
  v_aead : bool;
  v_security : Z;
  v_target : byte * list byte * Z;
  v_reqBodyIV : list byte;
  v_reqBodyKey : list byte;
  v_reqRespV : byte;
  v_respBodyIV : list byte;
  v_respBodyKey : list byte }.

(** The header [Request] writes, before it is encrypted. *)
Definition request_body (c : Conn) (cmd : Z) (d : draws) : list byte :=
  let '(atyp, addr, port) := v_target c in
  [x01] ++ v_reqBodyIV c ++ v_reqBodyKey c ++ [v_reqRespV c] ++ [z2b (v_opt c)] ++
  [z2b (Z.lor (Z.shiftl (Z.of_nat (d_paddingLen d)) 4) (v_security c))] ++ [x00] ++ [z2b cmd] ++
  be_bytes 2 port ++ [atyp] ++ addr ++ take (d_paddingLen d) (d_padding d).
Definition request_plain (c : Conn) (cmd : Z) (d : draws) : list byte :=
  request_body c cmd d ++ be_bytes 4 (fnv1a (request_body c cmd d)).

Definition Request (c : Conn) (cmd : Z) (d : draws) : list byte :=
  if v_aead c then sealVMessAEADHeader (u_CmdKey (v_user c)) (request_plain c cmd d) d
  else cfb_encrypt (u_CmdKey (v_user c)) (TimestampHash (d_requestNow d)) (request_plain c cmd d).

Definition Auth (c : Conn) (d : draws) : list byte := hmac md5 (u_UUID (v_user c)) (be_bytes 8 (u64 (d_authNow d))).

(** [NewConn]: the connection and what it writes. *)
Definition NewConn (cl : Client) (target : list byte) (cmd : Z) (d : draws) : outcome (Conn * list byte) :=
  match c_users cl !! d_user d with
  | None => Panic
  | Some user =>
      t ← vmess_ParseAddr target;
      let iv := take 16 (d_bytes d) in
      let key := take 16 (drop 16 (d_bytes d)) in
      let c := if c_aead cl
               then MkConn user (c_opt cl) true (c_security cl) t iv key (d_respV d)
                      (take 16 (sha256 iv)) (take 16 (sha256 key))
               else MkConn user (c_opt cl) false (c_security cl) t iv key (d_respV d) (md5 iv) (md5 key) in
      Ok (c, (if c_aead cl then [] else Auth c d) ++ Request c cmd d)
  end.

Definition ErrRespHeader : error := "unexpected response header".
Definition ErrDynamicPort : error := "dynamic port is not supported now".

(** What [DecodeRespHeader] checks of the plain header. *)
Definition check_resp (respV : byte) (buf : list byte) : option error :=
  if negb (bool_decide (buf !! 0%nat = Some respV)) then Some ErrRespHeader
  else if negb (bool_decide (buf !! 2%nat = Some x00)) then Some ErrDynamicPort
  else None.

Definition DecodeRespHeader (c : Conn) : rd unit :=
  (buf <- (if v_aead c then
             buf <- openVMessAEADHeader (v_respBodyKey c) (v_respBodyIV c);;
             if (length buf <? 4)%nat then rd_fail "unexpected buffer length" else rd_ret buf
           else
             buf <- rd_full 4;; rd_ret (cfb_decrypt (v_respBodyKey c) (v_respBodyIV c) buf));;
   match check_resp (v_reqRespV c) buf with Some e => rd_fail e | None => rd_ret tt end)%rd.

(** ** Sizes (size.go) *)

(** [Encode] and [Decode] of a parser made with [nonce] that has been used [i] times. *)
Definition Encode (nonce : list byte) (i : nat) (size : Z) : list byte :=
  be_bytes 2 (Z.lxor (shake nonce i) size).
Definition Decode (nonce : list byte) (i : nat) (b : list byte) : Z := Z.lxor (shake nonce i) (be_val b).

(** ** AEAD streams (aead.go) *)

(** [w_count]: the 16-bit counter; [w_sizes]: the uses of the size parser. *)
Record aeadWriter := MkAeadWriter { w_count : Z; w_sizes : nat }.
Definition AEADWriter : aeadWriter := MkAeadWriter 0 0.

Definition chunk_nonce (a : Ss.AEAD) (iv : list byte) (count : Z) : list byte :=
  be_bytes 2 count ++ take (Ss.NonceSize a - 2) (drop 2 iv).

(** The loop of [aeadWriter.Write]: the buffers offered to the connection, whose
    answer to the [i]-th is [werr i], the result and the writer. *)
Fixpoint aead_write (a : Ss.AEAD) (iv : list byte) (werr : nat → option error) (fuel i : nat) (w : aeadWriter)
    (b : list byte) : outcome (list (list byte) * Z * option error * aeadWriter) :=
  match fuel, b with
  | _, [] => Ok ([], 0, None, w)
  | O, _ => OutOfFuel
  | S fuel, _ =>
      let writeLen := if (chunkSize <? length b + Ss.Overhead a)%nat then chunkSize
                      else (length b + Ss.Overhead a)%nat in
      let dataLen := (writeLen - Ss.Overhead a)%nat in
      let lenBuf := Encode iv (w_sizes w) (u16 (Z.of_nat writeLen)) in
      let out := lenBuf ++ take writeLen (Ss.Seal a (chunk_nonce a iv (w_count w)) (take dataLen b)) in
      let w := MkAeadWriter (u16 (w_count w + 1)) (S (w_sizes w)) in
      match werr i with
      | Some e => Ok ([out], 0, Some e, w)
      | None =>
          match aead_write a iv werr fuel (S i) w (drop dataLen b) with
          | Ok (outs, n, e, w) => Ok (out :: outs, Z.of_nat dataLen + n, e, w)
          | x => x
          end
      end
  end.
Definition aeadWriter_Write (a : Ss.AEAD) (iv : list byte) (werr : nat → option error) (w : aeadWriter)
    (b : list byte) := aead_write a iv werr (length b) 0 w b.

Record aeadReader := MkAeadReader { r_count : Z; r_sizes : nat; r_buf : option (list byte); r_offset : nat }.
Definition AEADReader : aeadReader := MkAeadReader 0 0 None 0.

(** [aeadReader.read] into a slice of length [n]. *)
Definition aead_read (a : Ss.AEAD) (iv : list byte) (r : aeadReader) (n : nat) (s : list byte)
    : (list byte + error) * aeadReader * list byte :=
  match ReadFull 2 s with
  | Ok (lenBuf, s) =>
      let size := Z.to_nat (Decode iv (r_sizes r) lenBuf) in
      let r := MkAeadReader (r_count r) (S (r_sizes r)) (r_buf r) (r_offset r) in
      if (size <=? Ss.Overhead a)%nat || (n <? size)%nat then (inr EOF, r, s)
      else
        match ReadFull size s with
        | Ok (c, s) =>
            (Ss.Open a (chunk_nonce a iv (r_count r)) c,
             MkAeadReader (u16 (r_count r + 1)) (r_sizes r) (r_buf r) (r_offset r), s)
        | Err e => (inr e, r, [])
        | _ => (inr EOF, r, s)
        end
  | Err e => (inr e, r, [])
  | _ => (inr EOF, r, s)
  end.

(** [copy(p, r.buf[r.offset:])] and what follows it. *)
Definition aead_copy (r : aeadReader) (buf : list byte) (n : nat) : list byte * aeadReader :=
  let b := take n (drop (r_offset r) buf) in
  let offset := (r_offset r + length b)%nat in
  (b, MkAeadReader (r_count r) (r_sizes r) (if bool_decide (offset = length buf) then None else Some buf) offset).

(** [aeadReader.Read] into a slice of length [n]. *)
Definition aeadReader_Read (a : Ss.AEAD) (iv : list byte) (r : aeadReader) (n : nat) (s : list byte)
    : list byte * option error * aeadReader * list byte :=
  match r_buf r with
  | Some buf => let '(b, r) := aead_copy r buf n in (b, None, r, s)
  | None =>
      let direct := (chunkSize <=? n)%nat in
      match aead_read a iv r (if direct then n else chunkSize) s with
      | (inr e, r, s) => ([], Some e, r, s)
      | (inl d, r, s) =>
          if direct then (d, None, r, s)
          else if (length d =? 0)%nat then ([], None, r, s)
          else let '(b, r) := aead_copy (MkAeadReader (r_count r) (r_sizes r) (Some d) 0) d n in (b, None, r, s)
      end
  end.

(** ** Plain chunks (chunk.go) *)

(** The loop of [chunkedWriter.Write] with [i] sizes used. *)
Fixpoint chunked_write (nonce : list byte) (werr : nat → option error) (fuel i k : nat) (p : list byte)
    : outcome (list (list byte) * Z * option error * nat) :=
  match fuel, p with
  | _, [] => Ok ([], 0, None, i)
  | O, _ => OutOfFuel
  | S fuel, _ =>
      let dataLen := if (chunkSize <? length p)%nat then chunkSize else length p in
      let out := Encode nonce i (u16 (Z.of_nat dataLen)) ++ take dataLen p in
      match werr k with
      | Some e => Ok ([out], 0, Some e, S i)
      | None =>
          match chunked_write nonce werr fuel (S i) (S k) (drop dataLen p) with
          | Ok (outs, n, e, i) => Ok (out :: outs, Z.of_nat dataLen + n, e, i)
          | x => x
          end
      end
  end.

Record chunkedReader := MkChunkedReader { cr_sizes : nat; cr_left : nat }.
Definition ChunkedReader : chunkedReader := MkChunkedReader 0 0.

(** [chunkedReader.Read] into a slice of length [n], when the connection has [avail]
    bytes ready. *)
Definition chunked_data (r : chunkedReader) (n avail : nat) (s : list byte)
    : list byte * option error * chunkedReader * list byte :=
  let readLen := if (cr_left r <? n)%nat then cr_left r else n in
  match s with
  | [] => ([], Some EOF, r, [])
  | _ =>
      let m := Nat.min readLen (Nat.max 1 avail) in
      (take m s, None, MkChunkedReader (cr_sizes r) (cr_left r - length (take m s)), drop m s)
  end.
Definition chunkedReader_Read (nonce : list byte) (r : chunkedReader) (n avail : nat) (s : list byte)
    : list byte * option error * chunkedReader * list byte :=
  if (cr_left r =? 0)%nat then
    match ReadFull 2 s with
    | Ok (b, s) =>
        let left := Z.to_nat (Decode nonce (cr_sizes r) b) in
        let r := MkChunkedReader (S (cr_sizes r)) left in
        if (left =? 0)%nat then ([], None, r, s) else chunked_data r n avail s
    | Err e => ([], Some e, r, [])
    | _ => ([], Some EOF, r, s)
    end
  else chunked_data r n avail s.

(** ** [Conn.Write] and [Conn.Read] (client.go) *)

Definition gcm (key : list byte) : Ss.AEAD :=
  Ss.MkAEAD 12 16 (λ n p, gcm_seal key n p []) (λ n c, gcm_open key n c []).
Definition chacha_key (key : list byte) : list byte := md5 key ++ md5 (md5 key).

Inductive dataWriter := RawWriter | ChunkedWriter (i : nat) | AeadWriter (a : Ss.AEAD) (w : aeadWriter).
Inductive dataReader := RawReader | ChunkReader (r : chunkedReader) | AeadReader (a : Ss.AEAD) (r : aeadReader).

Definition open_writer (c : Conn) : dataWriter :=
  if Z.land (v_opt c) OptChunkStream =? OptChunkStream then
    if v_security c =? SecurityNone then ChunkedWriter 0
    else if v_security c =? SecurityAES128GCM then AeadWriter (gcm (v_reqBodyKey c)) AEADWriter
    else if v_security c =? SecurityChacha20Poly1305 then AeadWriter (chacha (chacha_key (v_reqBodyKey c))) AEADWriter
    else RawWriter
  else RawWriter.
Definition open_reader (c : Conn) : dataReader :=
  if Z.land (v_opt c) OptChunkStream =? OptChunkStream then
    if v_security c =? SecurityNone then ChunkReader ChunkedReader
    else if v_security c =? SecurityAES128GCM then AeadReader (gcm (v_respBodyKey c)) AEADReader
    else if v_security c =? SecurityChacha20Poly1305 then AeadReader (chacha (chacha_key (v_respBodyKey c))) AEADReader
    else RawReader
  else RawReader.

Definition Conn_Write (c : Conn) (werr : nat → option error) (w : option dataWriter) (b : list byte)
    : outcome (list (list byte) * Z * option error * dataWriter) :=
  match match w with Some w => w | None => open_writer c end with
  | RawWriter =>
      Ok (match werr 0%nat with
          | Some e => ([b], 0, Some e, RawWriter)
          | None => ([b], Z.of_nat (length b), None, RawWriter)
          end)
  | ChunkedWriter i =>
      '(outs, n, e, i) ← chunked_write (v_reqBodyIV c) werr (length b) i 0 b; Ok (outs, n, e, ChunkedWriter i)
  | AeadWriter a w =>
      '(outs, n, e, w) ← aeadWriter_Write a (v_reqBodyIV c) werr w b; Ok (outs, n, e, AeadWriter a w)
  end.

(** The error of a header that can not be decoded, wrapped by [Read]. *)
Definition wrap_resp (e : error) : error := String.append "[vmess] error in DecodeRespHeader: " e.

Definition Conn_Read (c : Conn) (r : option dataReader) (n avail : nat) (s : list byte)
    : outcome (list byte * option error * option dataReader * list byte) :=
  '(r, s) ← match r with
            | Some r => Ok (inl r, s)
            | None =>
                match DecodeRespHeader c ([], s) with
                | (Ok _, (_, s)) => Ok (inl (open_reader c), s)
                | (Err e, (_, s)) => Ok (inr (wrap_resp e), s)
                | (Panic, _) => Panic
                | (OutOfFuel, _) => OutOfFuel
                end
            end;
  match r with
  | inr e => Ok ([], Some e, None, s)
  | inl RawReader =>
      Ok (match s with
          | [] => ([], Some EOF, Some RawReader, [])
          | _ => let m := Nat.min n (Nat.max 1 avail) in (take m s, None, Some RawReader, drop m s)
          end)
  | inl (ChunkReader r) =>
      let '(b, e, r, s) := chunkedReader_Read (v_respBodyIV c) r n avail s in Ok (b, e, Some (ChunkReader r), s)
  | inl (AeadReader a r) =>
      let '(b, e, r, s) := aeadReader_Read a (v_respBodyIV c) r n s in Ok (b, e, Some (AeadReader a r), s)
  end.

(** Sequences of writes and of reads (lengths of the slices, bytes ready) on a connection
    that takes them all. *)
Fixpoint aead_writes (a : Ss.AEAD) (iv : list byte) (w : aeadWriter) (ps : list (list byte))
    : outcome (list byte * aeadWriter) :=
  match ps with
  | [] => Ok ([], w)
  | p :: ps =>
      '(outs, _, _, w) ← aeadWriter_Write a iv (λ _, None) w p;
      '(out, w) ← aead_writes a iv w ps;
      Ok (concat outs ++ out, w)
  end.
Fixpoint conn_reads (c : Conn) (r : option dataReader) (bufs : list (nat * nat)) (s : list byte)
    : outcome (list (list byte * option error)) :=
  match bufs with
  | [] => Ok []
  | (n, avail) :: bufs =>
      '(b, e, r, s) ← Conn_Read c r n avail s;
      l ← conn_reads c r bufs s;
      Ok ((b, e) :: l)
  end.
End Crypto.
End Vm.

(** * proxy/vmess: what the client sends opens to what it meant, its streams are read
    back as they were written, and how far its nonces go. *)
Import Vm.

(** ** Exclusive or on 16 bits *)

Lemma lxor_range a b : 0 <= a < 2 ^ 16 → 0 <= b < 2 ^ 16 → 0 <= Z.lxor a b < 2 ^ 16.
Proof.
  intros Ha Hb. assert (0 <= Z.lxor a b) by (apply Z.lxor_nonneg; lia). split; [done|].
  destruct (decide (Z.lxor a b = 0)) as [->|Hn]; [lia|]. apply Z.log2_lt_pow2; [lia|].
  pose proof (Z.log2_lxor a b ltac:(lia) ltac:(lia)).
  assert (∀ x, 0 <= x < 2 ^ 16 → Z.log2 x < 16) as Hlog.
  { intros x Hx. destruct (decide (x = 0)) as [->|]; [done|]. apply Z.log2_lt_pow2; lia. }
  pose proof (Hlog a Ha). pose proof (Hlog b Hb). lia.
Qed.

Lemma u16_succ z : u16 (u16 z + 1) = u16 (z + 1).
Proof. unfold u16. by rewrite Zplus_mod_idemp_l. Qed.

Section Crypto.
Context (md5 sha1 sha256 : list byte → list byte)
  (hmac : (list byte → list byte) → list byte → list byte → list byte)
  (aes_encrypt : list byte → list byte → list byte)
  (gcm_seal : list byte → list byte → list byte → list byte → list byte)
  (gcm_open : list byte → list byte → list byte → list byte → list byte + error)
  (chacha : list byte → Ss.AEAD)
  (cfb_encrypt cfb_decrypt : list byte → list byte → list byte → list byte)
  (shake : list byte → nat → Z).

(** What the libraries document. *)
Class CryptoLaws := {
  gcm_open_seal : ∀ k n p ad, gcm_open k n (gcm_seal k n p ad) ad = inl p;
  length_gcm_seal : ∀ k n p ad, length (gcm_seal k n p ad) = (length p + 16)%nat;
  cfb_inverse : ∀ k iv p, cfb_decrypt k iv (cfb_encrypt k iv p) = p;
  length_aes : ∀ k b, length (aes_encrypt k b) = 16%nat;
  length_hmac_md5 : ∀ k m, length (hmac md5 k m) = 16%nat;
  chacha_laws : ∀ k, Ss.AeadLaws (chacha k) ∧ Ss.Overhead (chacha k) = 16%nat;
  shake_range : ∀ n i, 0 <= shake n i < 2 ^ 16 }.

(** ** Sizes *)

Lemma Decode_Encode `{!CryptoLaws} nonce i size :
  0 <= size < 2 ^ 16 → Decode shake nonce i (Encode shake nonce i size) = size.
Proof.
  intros Hs. unfold Decode, Encode. pose proof (shake_range nonce i).
  rewrite be16_id by (by apply lxor_range). by rewrite <- Z.lxor_assoc, Z.lxor_nilpotent, Z.lxor_0_l.
Qed.

(** ** AEAD streams *)

Lemma vm_chunkSize_val : Z.of_nat chunkSize = 16384.
Proof. unfold chunkSize. change (Z.shiftl 16 10) with 16384. lia. Qed.
#[local] Opaque chunkSize.

Definition overhead_ok (a : Ss.AEAD) : Prop := (Ss.Overhead a <= 1000)%nat.
Definition room (a : Ss.AEAD) : nat := chunkSize - Ss.Overhead a.
Definition chunk_ok (a : Ss.AEAD) (c : list byte) : Prop := (0 < length c <= room a)%nat.

(** The [i]-th chunk on the wire, and a stream from it on. *)
Definition chunk_out (a : Ss.AEAD) (iv : list byte) (i : nat) (c : list byte) : list byte :=
  Encode shake iv i (Z.of_nat (length c + Ss.Overhead a)) ++ Ss.Seal a (chunk_nonce a iv (u16 (Z.of_nat i))) c.
Fixpoint stream (a : Ss.AEAD) (iv : list byte) (i : nat) (cs : list (list byte)) : list byte :=
  match cs with
  | [] => []
  | c :: cs => chunk_out a iv i c ++ stream a iv (S i) cs
  end.

Lemma stream_app a iv cs cs' : ∀ i, stream a iv i (cs ++ cs') = stream a iv i cs ++ stream a iv (i + length cs) cs'.
Proof.
  induction cs as [|c cs IH]; intros i; simpl; [by rewrite Nat.add_0_r|].
  by rewrite IH, <- app_assoc, Nat.add_succ_comm.
Qed.

(** The chunks of a write. *)
Fixpoint vchunks (a : Ss.AEAD) (fuel : nat) (b : list byte) : list (list byte) :=
  match fuel, b with
  | _, [] => []
  | O, _ => []
  | S fuel, _ => take (room a) b :: vchunks a fuel (drop (room a) b)
  end.

Lemma room_pos a : overhead_ok a → (0 < room a)%nat ∧ (room a + Ss.Overhead a = chunkSize)%nat.
Proof. unfold overhead_ok, room. pose proof vm_chunkSize_val. lia. Qed.

Lemma vchunks_ok a fuel : ∀ b, overhead_ok a → (length b <= fuel)%nat →
  Forall (chunk_ok a) (vchunks a fuel b) ∧ concat (vchunks a fuel b) = b.
Proof.
  induction fuel as [|fuel IH]; intros [|x b] Ho Hl; try (split; [constructor|done]); [simpl in Hl; lia|].
  pose proof (room_pos a Ho). cbn [vchunks concat].
  destruct (IH (drop (room a) (x :: b))) as [H1 H2]; [done|rewrite length_drop; simpl in *; lia|].
  split; [constructor; [|done]|by rewrite H2, take_drop].
  unfold chunk_ok. rewrite length_take. simpl length. lia.
Qed.

Lemma aead_write_ok a iv fuel : ∀ k i b,
  Ss.AeadLaws a → overhead_ok a → (length b <= fuel)%nat →
  ∃ outs, aead_write shake a iv (λ _, None) fuel k (MkAeadWriter (u16 (Z.of_nat i)) i) b =
    Ok (outs, Z.of_nat (length b), None,
        MkAeadWriter (u16 (Z.of_nat (i + length (vchunks a fuel b)))) (i + length (vchunks a fuel b))) ∧
    concat outs = stream a iv i (vchunks a fuel b).
Proof.
  induction fuel as [|fuel IH]; intros k i [|x b] Hl Ho Hb.
  1, 3: exists []; simpl; by rewrite Nat.add_0_r. 1: simpl in Hb; lia.
  pose proof (room_pos a Ho) as [Hr Hrc]. pose proof vm_chunkSize_val as Hc. set (p := x :: b) in *.
  assert (0 < length p)%nat as Hp by (simpl; lia).
  set (wl := if (chunkSize <? length p + Ss.Overhead a)%nat then chunkSize else (length p + Ss.Overhead a)%nat).
  assert (take (wl - Ss.Overhead a) p = take (room a) p ∧ drop (wl - Ss.Overhead a) p = drop (room a) p ∧
    wl = length (take (room a) p) + Ss.Overhead a ∧ wl <= chunkSize)%nat as (Et & Ed & Ew & Hw).
  { subst wl. rewrite length_take. destruct (Nat.ltb_spec chunkSize (length p + Ss.Overhead a)).
    - fold (room a). split_and!; [reflexivity|reflexivity|lia|lia].
    - rewrite Nat.add_sub, !take_ge, !drop_ge by lia. split_and!; [reflexivity|reflexivity|lia|lia]. }
  destruct (IH (S k) (S i) (drop (room a) p)) as (outs & Hrun & Hout); [done..|rewrite length_drop; lia|].
  exists (chunk_out a iv i (take (room a) p) :: outs). cbn [aead_write]. fold p. fold wl.
  assert (p = x :: b) as Hpe by done. rewrite Hpe. cbv iota beta zeta. rewrite <- Hpe. fold wl.
  cbn [w_count w_sizes]. rewrite Et, Ed, u16_succ.
  replace (Z.of_nat i + 1) with (Z.of_nat (S i)) by lia. rewrite Hrun.
  rewrite (u16_small (Z.of_nat wl)) by lia. rewrite (take_ge (Ss.Seal _ _ _)) by (rewrite Ss.length_seal; lia).
  cbn [vchunks]. rewrite Hpe. cbv iota. rewrite <- Hpe. cbn [length concat stream]. rewrite Hout. split; [|done].
  assert (Z.of_nat (wl - Ss.Overhead a) + Z.of_nat (length (drop (room a) p)) = Z.of_nat (length p)) as ->
    by (rewrite length_drop, Ew, Nat.add_sub, length_take; lia).
  rewrite <- !Nat.add_succ_comm. unfold chunk_out. by rewrite <- Ew.
Qed.

(** A reader that stands for the queue [q], its stream from the [i]-th chunk on. *)
Definition vrd_sim (a : Ss.AEAD) (iv : list byte) (i : nat) (r : aeadReader) (s : list byte)
    (q : list byte * list (list byte)) : Prop :=
  (match r_buf r with None => q.1 = [] | Some buf => q.1 = drop (r_offset r) buf ∧ (r_offset r < length buf)%nat end) ∧
  r_count r = u16 (Z.of_nat i) ∧ r_sizes r = i ∧ s = stream a iv i q.2 ∧ Forall (chunk_ok a) q.2.

Lemma aead_copy_sim a iv i buf off n ps b r' :
  (off <= length buf)%nat → Forall (chunk_ok a) ps →
  aead_copy (MkAeadReader (u16 (Z.of_nat i)) i (Some buf) off) buf n = (b, r') →
  b = take n (drop off buf) ∧ vrd_sim a iv i r' (stream a iv i ps) (drop n (drop off buf), ps).
Proof.
  unfold aead_copy. simpl. intros Hoff Hps [= <- <-]. split; [done|].
  unfold vrd_sim. simpl. rewrite drop_drop, length_take, length_drop. case_bool_decide as Hc; simpl; (split; [|done]).
  - apply drop_ge. lia.
  - rewrite Nat.min_l by lia. split; [done|lia].
Qed.

Lemma aead_read_chunk `{!CryptoLaws} a iv i n buf off c cs :
  Ss.AeadLaws a → overhead_ok a → chunk_ok a c → (chunkSize <= n)%nat →
  aead_read shake a iv (MkAeadReader (u16 (Z.of_nat i)) i buf off) n (stream a iv i (c :: cs)) =
  (inl c, MkAeadReader (u16 (Z.of_nat (S i))) (S i) buf off, stream a iv (S i) cs).
Proof.
  intros Hl Ho Hc Hn. pose proof vm_chunkSize_val. pose proof (room_pos a Ho). unfold chunk_ok, overhead_ok in *.
  unfold aead_read. cbn [stream]. unfold chunk_out. rewrite <- !app_assoc.
  rewrite ReadFull_exact by (unfold Encode; by rewrite length_be_bytes). cbn [r_sizes r_count r_buf r_offset].
  rewrite Decode_Encode, Nat2Z.id by lia.
  rewrite (proj2 (Nat.leb_gt _ _)), (proj2 (Nat.ltb_ge _ _)) by lia. cbn [orb].
  rewrite ReadFull_exact, Ss.open_seal by (apply Ss.length_seal). rewrite u16_succ.
  by replace (Z.of_nat i + 1) with (Z.of_nat (S i)) by lia.
Qed.

Lemma aead_Read_step `{!CryptoLaws} a iv i r n s q :
  Ss.AeadLaws a → overhead_ok a → vrd_sim a iv i r s q →
  ∃ i' r' s', aeadReader_Read shake a iv r n s = ((msg_Read n q).1, r', s') ∧ vrd_sim a iv i' r' s' (msg_Read n q).2.
Proof.
  intros Hl Ho (Hbuf & Hcnt & Hsz & -> & Hcs). pose proof vm_chunkSize_val as Hck. pose proof (room_pos a Ho).
  destruct r as [cnt sz buf off], q as [cur cs]. cbn [r_buf r_offset r_count r_sizes fst snd] in *. subst cnt sz.
  unfold aeadReader_Read. cbn [r_buf]. destruct buf as [buf|].
  - destruct Hbuf as [-> Hoff].
    assert (msg_Read n (drop off buf, cs) = (take n (drop off buf), None, (drop n (drop off buf), cs))) as ->.
    { destruct (drop off buf) eqn:E; [|reflexivity]. apply (f_equal length) in E. rewrite length_drop in E. simpl in E. lia. }
    destruct (aead_copy _ buf n) as [b r'] eqn:Ec.
    eapply (aead_copy_sim a iv i buf off n cs) in Ec as [-> Hs]; [|lia|exact Hcs].
    exists i. do 2 eexists. split; [reflexivity|exact Hs].
  - subst cur. destruct cs as [|c cs].
    + exists i, (MkAeadReader (u16 (Z.of_nat i)) i None off), []. split; [reflexivity|].
      split; [reflexivity|]. split_and!; [reflexivity..|constructor].
    + apply Forall_cons in Hcs as [Hc Hcs].
      rewrite aead_read_chunk by (assumption || (destruct (Nat.leb_spec chunkSize n); lia)).
      destruct (Nat.leb_spec chunkSize n) as [Hd|Hd]; unfold chunk_ok in Hc.
      * simpl msg_Read. rewrite take_ge, drop_ge by lia. exists (S i). do 2 eexists. split; [reflexivity|].
        split; [reflexivity|]. split_and!; [reflexivity..|exact Hcs].
      * rewrite (proj2 (Nat.eqb_neq _ _)) by lia. cbn [r_count r_sizes].
        destruct (aead_copy _ c n) as [b r'] eqn:Ec.
        eapply (aead_copy_sim a iv (S i) c 0 n cs) in Ec as [-> Hs]; [|lia|exact Hcs].
        simpl msg_Read. rewrite drop_0 in Hs. exists (S i). do 2 eexists. split; [by rewrite drop_0|exact Hs].
Qed.

(** ** Requests *)

(** How a server of the protocol reads a request: the AEAD header under the user's key,
    and the fields of the plain header, with its checksum. *)
Definition server_open (key : list byte) : rd (list byte) :=
  (authID <- rd_full 16;;
   lc <- rd_full 18;;
   nonce <- rd_full 8;;
   l <- rd_open (gcm_open (header_key sha256 hmac key (lit "VMess Header AEAD Key_Length") authID nonce)
                   (header_iv sha256 hmac key (lit "VMess Header AEAD Nonce_Length") authID nonce) lc authID);;
   c <- rd_full (Z.to_nat (be_val l) + 16);;
   rd_open (gcm_open (header_key sha256 hmac key (lit "VMess Header AEAD Key") authID nonce)
              (header_iv sha256 hmac key (lit "VMess Header AEAD Nonce") authID nonce) c authID))%rd.

Record vm_request := MkVmRequest {
  q_IV : list byte;
  q_Key : list byte;
  q_V : list byte;
  q_opt : Z;
  q_security : Z;
  q_cmd : Z;
  q_target : list byte }.

Definition server_fields : rd vm_request :=
  (ver <- rd_full 1;;
   iv <- rd_full 16;;
   key <- rd_full 16;;
   v <- rd_full 1;;
   opt <- rd_full 1;;
   pSec <- rd_full 1;;
   rsv <- rd_full 1;;
   cmd <- rd_full 1;;
   target <- vless_ReadAddrString;;
   padding <- rd_full (Z.to_nat (be_val pSec / 16));;
   if bool_decide (ver = [x01])
   then rd_ret (MkVmRequest iv key v (be_val opt) (be_val pSec mod 16) (be_val cmd) target)
   else rd_fail "version")%rd.

Definition server_request (plain : list byte) : option vm_request :=
  let body := take (length plain - 4) plain in
  match server_fields ([], body) with
  | (Ok q, (_, [])) => if be_val (drop (length plain - 4) plain) =? fnv1a body then Some q else None
  | _ => None
  end.

(** The legacy format: of the seconds it accepts, the server finds the one the client
    authenticated with, and takes the IV of the header from it. *)
Definition auth_of (u : User) (t : Z) : list byte := hmac md5 (u_UUID u) (be_bytes 8 (u64 t)).
Definition server_legacy (u : User) (window : list Z) (out : list byte) : option (list byte) :=
  match list_find (λ t, auth_of u t = take 16 out) window with
  | Some (_, t) => Some (cfb_decrypt (u_CmdKey u) (TimestampHash md5 t) (drop 16 out))
  | None => None
  end.

Lemma server_legacy_finds u window t auth rest :
  t ∈ window → (∀ t', t' ∈ window → auth_of u t' = auth_of u t → t' = t) →
  length auth = 16%nat → auth = auth_of u t →
  server_legacy u window (auth ++ rest) = Some (cfb_decrypt (u_CmdKey u) (TimestampHash md5 t) rest).
Proof.
  intros Hin Huniq Hl Ha. unfold server_legacy. rewrite take_app_length', drop_app_length' by done.
  destruct (list_find_elem_of (λ t, auth_of u t = auth) window t Hin) as [[i t'] Hf]; [done|].
  rewrite Hf. apply list_find_Some in Hf as (Hi & Ht' & _). rewrite (Huniq t'); [done| |congruence].
  by apply list_elem_of_lookup_2 in Hi.
Qed.

(** Draws as the random sources give them. *)
Record draws_ok (d : draws) : Prop := {
  do_bytes : length (d_bytes d) = 32%nat;
  do_padding : length (d_padding d) = d_paddingLen d;
  do_paddingLen : (d_paddingLen d < 16)%nat;
  do_nonce : length (d_nonce d) = 8%nat }.

Lemma pSec_fields (n : nat) sec :
  (n < 16)%nat → 0 <= sec < 16 →
  b2z (z2b (Z.lor (Z.shiftl (Z.of_nat n) 4) sec)) = Z.of_nat n * 16 + sec.
Proof.
  intros Hn Hs.
  set (row := λ p : nat * nat, b2z (z2b (Z.lor (Z.shiftl (Z.of_nat p.1) 4) (Z.of_nat p.2))) =? Z.of_nat p.1 * 16 + Z.of_nat p.2).
  assert (forallb row (list_prod (seq 0 16) (seq 0 16)) = true) as H by (by vm_compute).
  rewrite forallb_forall in H.
  assert (In (n, Z.to_nat sec) (list_prod (seq 0 16) (seq 0 16))) as Hin by (apply in_prod; apply in_seq; lia).
  apply H, Z.eqb_eq in Hin. cbn [fst snd] in Hin. by rewrite Z2Nat.id in Hin by lia.
Qed.

Lemma fnv1a_range s : 0 <= fnv1a s < 2 ^ 32.
Proof.
  unfold fnv1a. destruct s as [|b s] using rev_ind; [done|]. rewrite foldl_app. simpl. apply u32_range.
Qed.

Lemma fields_read (c : Conn) cmd d t :
  length (v_reqBodyIV c) = 16%nat → length (v_reqBodyKey c) = 16%nat →
  draws_ok d → 0 <= v_opt c < 256 → 0 <= v_security c < 16 → 0 <= cmd < 256 →
  v_target c = t → vless_addr_wf t →
  reads_exactly server_fields (request_body c cmd d)
    (MkVmRequest (v_reqBodyIV c) (v_reqBodyKey c) [v_reqRespV c] (v_opt c) (v_security c) cmd (vless_canonical t)).
Proof.
  intros Hiv Hkey [Hb Hp Hpl Hn] Ho Hs Hc Ht Hwf. unfold request_body, server_fields. rewrite Ht.
  destruct t as [[atyp addr] port].
  repeat (eapply exact_bind; [by apply exact_full|]; cbv beta).
  rewrite (assoc_L (++) [atyp]), (assoc_L (++) (be_bytes 2 port)).
  eapply exact_bind; [by apply vless_ReadAddr_exact|]. cbv beta.
  rewrite <- (app_nil_r (take (d_paddingLen d) (d_padding d))).
  rewrite !be_val_single, pSec_fields, !b2z_z2b_small by lia.
  rewrite Z.div_add_l, (Z.div_small (v_security c)), Z.add_0_r, Nat2Z.id by lia.
  rewrite Z.add_comm, Z.mod_add, Z.mod_small by lia.
  eapply exact_bind; [apply exact_full; rewrite length_take; lia|].
  rewrite bool_decide_eq_true_2 by done. apply exact_ret.
Qed.

Lemma exact_open {A} (x : A) : reads_exactly (rd_open (inl x)) [] x.
Proof. apply exact_ret. Qed.

Lemma sealed_read `{!CryptoLaws} key data d :
  length (d_nonce d) = 8%nat → Z.of_nat (length data) < 2 ^ 16 →
  reads_exactly (server_open key) (sealVMessAEADHeader sha256 hmac aes_encrypt gcm_seal key data d) data.
Proof.
  intros Hn Hd. unfold server_open, sealVMessAEADHeader. set (authID := createAuthID _ _ _ _ _).
  eapply exact_bind; [apply exact_full, length_aes|]. cbv beta.
  eapply exact_bind; [apply exact_full; by rewrite length_gcm_seal, length_be_bytes|]. cbv beta.
  eapply exact_bind; [by apply exact_full|]. cbv beta. rewrite gcm_open_seal.
  match goal with |- reads_exactly _ ?l _ => change l with ([] ++ l) end.
  eapply exact_bind; [apply exact_open|]. cbv beta.
  match goal with |- reads_exactly _ ?l _ => rewrite <- (app_nil_r l) end.
  rewrite u16_small, be16_id, Nat2Z.id by lia.
  eapply exact_bind; [apply exact_full, length_gcm_seal|]. cbv beta. rewrite gcm_open_seal. apply exact_open.
Qed.

Lemma vless_addr_len t a p : vless_addr_wf (t, a, p) → (length a <= 256)%nat.
Proof.
  intros [_ [[_ ->]|[[_ ->]|(_ & h & -> & Hh)]]]; unfold IPv4len, IPv6len, MaxHostLen in *; simpl length; lia.
Qed.

Lemma request_plain_len (c : Conn) cmd d t :
  length (v_reqBodyIV c) = 16%nat → length (v_reqBodyKey c) = 16%nat → draws_ok d →
  v_target c = t → vless_addr_wf t → Z.of_nat (length (request_plain c cmd d)) < 2 ^ 16.
Proof.
  intros Hiv Hk [Hb Hp Hl Hn] Ht Hwf. unfold request_plain, request_body. rewrite Ht.
  destruct t as [[atyp addr] port]. apply vless_addr_len in Hwf.
  rewrite !length_app, !length_be_bytes, length_take. cbn [length]. lia.
Qed.

Lemma server_request_plain (c : Conn) cmd d q :
  reads_exactly server_fields (request_body c cmd d) q → server_request (request_plain c cmd d) = Some q.
Proof.
  intros Hr. unfold server_request, request_plain. rewrite length_app, length_be_bytes, Nat.add_sub.
  rewrite take_app_length, drop_app_length. specialize (Hr [] []). rewrite app_nil_r in Hr. rewrite Hr.
  rewrite be32_id by apply fnv1a_range. by rewrite Z.eqb_refl.
Qed.

(** A client whose options and security fit their fields. *)
Definition client_ok (cl : Client) : Prop := 0 <= c_opt cl < 256 ∧ 0 <= c_security cl < 16.

Lemma NewClient_ok fuel fast uuidStr security alterID aead cl :
  NewClient md5 sha1 fuel fast uuidStr security alterID aead = Ok cl →
  client_ok cl ∧ c_aead cl = aead ∧ (length (c_users cl) = S alterID)%nat.
Proof.
  unfold NewClient. intros (uuid & _ & H)%bind_Ok. apply bind_Ok in H as (users & Hu & H).
  assert (length users = alterID) as Hlen.
  { clear H. generalize dependent uuid. generalize (u_CmdKey (NewUser md5 uuidStr)). intros k uuid.
    generalize (u_CmdKey (NewUser md5 uuid)). intros key. clear k. revert uuid users.
    induction alterID as [|n IH]; intros uuid users Hu; [by injection Hu as <-|]. simpl in Hu.
    apply bind_Ok in Hu as (id & _ & Hu). apply bind_Ok in Hu as (us & Hus & [= <-]). simpl. f_equal. by eapply IH. }
  unfold client_ok, OptChunkStream, OptChunkMasking, OptBasicFormat, SecurityAES128GCM, SecurityChacha20Poly1305,
    SecurityNone in *.
  repeat (case_bool_decide; [injection H as <-; simpl; split_and!; try done; try (case_match; lia); by f_equal|]); done.
Qed.

(** C11: What a vmess client writes for a connection is read by a server of the protocol
    that knows the user's key as exactly what the client meant: its fields are the keys and
    the response byte the client drew, its options, security and command, and the target,
    and its checksum fits.  An AEAD header opens to it whatever the clock does, and ends
    where the data start.  A legacy header follows the 16 bytes of authentication and is
    encrypted for the second in which the request is made; the server, which knows only the
    second of the authentication, opens it when the two are the same. *)
Theorem vmess_request `{!CryptoLaws} cl target t cmd d c out :
  client_ok cl → draws_ok d → 0 <= cmd < 256 → vmess_ParseAddr target = Ok t →
  NewConn md5 sha256 hmac aes_encrypt gcm_seal cfb_encrypt cl target cmd d = Ok (c, out) →
  (if c_aead cl
   then reads_exactly (server_open (u_CmdKey (v_user c))) out (request_plain c cmd d)
   else take 16 out = Auth md5 hmac c d ∧
        cfb_decrypt (u_CmdKey (v_user c)) (TimestampHash md5 (d_requestNow d)) (drop 16 out) = request_plain c cmd d ∧
        ∀ window, d_authNow d ∈ window →
          (∀ t, t ∈ window → auth_of (v_user c) t = auth_of (v_user c) (d_authNow d) → t = d_authNow d) →
          d_requestNow d = d_authNow d →
          server_legacy (v_user c) window out = Some (request_plain c cmd d)) ∧
  server_request (request_plain c cmd d) =
    Some (MkVmRequest (take 16 (d_bytes d)) (take 16 (drop 16 (d_bytes d))) [d_respV d]
            (c_opt cl) (c_security cl) cmd (vless_canonical t)).
Proof.
  intros [Ho Hs] Hd Hc Ht. unfold NewConn. destruct (c_users cl !! d_user d) as [user|]; [|done].
  rewrite Ht, bind_ret. intros [= <- <-].
  assert (vless_addr_wf t) as Hwf by (by apply (vless_ParseAddr_wf target)).
  assert (length (take 16 (d_bytes d)) = 16%nat ∧ length (take 16 (drop 16 (d_bytes d))) = 16%nat) as [H1 H2].
  { rewrite !length_take, length_drop, (do_bytes d Hd). done. }
  destruct (c_aead cl); (split; [|apply server_request_plain, fields_read; done]).
  - apply sealed_read; [apply Hd|]. by apply (request_plain_len _ _ _ t).
  - assert (∀ k m, 16%nat = length (hmac md5 k m)) as Hl by (intros; symmetry; apply length_hmac_md5).
    split; [unfold Auth; by rewrite take_app_length' by apply Hl|].
    split; [unfold Auth; rewrite drop_app_length' by apply Hl; apply cfb_inverse|].
    intros window Hin Huniq Hnow. rewrite (server_legacy_finds _ _ (d_authNow d)); [|done|done|symmetry; apply Hl|done].
    f_equal. unfold Request. cbn [v_aead v_user]. rewrite Hnow. apply cfb_inverse.
Qed.

(** ** Streams *)

Definition all_vchunks (a : Ss.AEAD) (ps : list (list byte)) : list (list byte) :=
  concat (map (λ p, vchunks a (length p) p) ps).

Lemma all_vchunks_ok a ps :
  overhead_ok a → Forall (chunk_ok a) (all_vchunks a ps) ∧ concat (all_vchunks a ps) = concat ps.
Proof.
  intros Ho. induction ps as [|p ps [IH1 IH2]]; [split; [constructor|reflexivity]|]. unfold all_vchunks in *.
  cbn [map concat]. destruct (vchunks_ok a (length p) p Ho) as [H1 H2]; [lia|].
  rewrite concat_app, H2, IH2. split; [by apply Forall_app|done].
Qed.

Lemma aead_writes_ok a iv ps : ∀ i,
  Ss.AeadLaws a → overhead_ok a →
  aead_writes shake a iv (MkAeadWriter (u16 (Z.of_nat i)) i) ps =
  Ok (stream a iv i (all_vchunks a ps),
      MkAeadWriter (u16 (Z.of_nat (i + length (all_vchunks a ps)))) (i + length (all_vchunks a ps))).
Proof.
  induction ps as [|p ps IH]; intros i Hl Ho; [simpl; by rewrite Nat.add_0_r|]. cbn [aead_writes].
  unfold aeadWriter_Write. destruct (aead_write_ok a iv (length p) 0 i p Hl Ho) as (outs & -> & Hout); [lia|].
  rewrite bind_ret. rewrite IH by done. rewrite bind_ret, Hout. unfold all_vchunks. cbn [map concat].
  by rewrite stream_app, length_app, Nat.add_assoc.
Qed.

(** The nonce of a stream's [i]-th chunk. *)
Definition nth_nonce (a : Ss.AEAD) (iv : list byte) (i : nat) : list byte := chunk_nonce a iv (u16 (Z.of_nat i)).

Lemma nth_nonce_eq a iv i j :
  nth_nonce a iv i = nth_nonce a iv j ↔ Z.of_nat i mod 2 ^ 16 = Z.of_nat j mod 2 ^ 16.
Proof.
  unfold nth_nonce, chunk_nonce, u16. split; [|by intros ->].
  intros [H _]%app_inj_1; [|by rewrite !length_be_bytes].
  apply (f_equal be_val) in H. rewrite !be_val_bytes in H. change (256 ^ Z.of_nat 2) with (2 ^ 16) in H.
  by rewrite !Z.mod_mod in H by lia.
Qed.

Lemma stream_imap a iv cs : ∀ i,
  stream a iv i cs =
  concat (imap (λ k c, Encode shake iv (i + k) (Z.of_nat (length c + Ss.Overhead a)) ++
                       Ss.Seal a (nth_nonce a iv (i + k)) c) cs).
Proof.
  induction cs as [|c cs IH]; intros i; [done|]. rewrite imap_cons. cbn [stream concat]. unfold chunk_out, nth_nonce at 1.
  rewrite Nat.add_0_r. f_equal. rewrite IH. f_equal. apply imap_ext. intros k x _. simpl.
  by rewrite <- !Nat.add_succ_comm.
Qed.

(** Every chunk a vmess writer seals has the nonce of its 16-bit counter: the
    nonces of a connection are all different if and only if it has sealed at most 65536
    chunks; from the next one on (at the latest after one gigabyte) every nonce has been
    used before under the same key. *)
Theorem vmess_nonces a iv ps :
  Ss.AeadLaws a → overhead_ok a →
  ∃ cs w, concat cs = concat ps ∧
    aead_writes shake a iv AEADWriter ps =
      Ok (concat (imap (λ i c, Encode shake iv i (Z.of_nat (length c + Ss.Overhead a)) ++
                               Ss.Seal a (nth_nonce a iv i) c) cs), w) ∧
    (NoDup (map (nth_nonce a iv) (seq 0 (length cs))) ↔ Z.of_nat (length cs) <= 65536).
Proof.
  intros Hl Ho. exists (all_vchunks a ps). eexists. split; [by apply all_vchunks_ok|]. split.
  - etransitivity; [by apply (aead_writes_ok a iv ps 0)|]. by rewrite stream_imap.
  - split.
    + intros Hnd. destruct (Z.le_gt_cases (Z.of_nat (length (all_vchunks a ps))) 65536) as [|Hgt]; [done|].
      exfalso. set (n := length (all_vchunks a ps)) in *.
      assert (∃ k, Z.of_nat k = 65536) as [k Hk] by (exists (Z.to_nat 65536); lia).
      assert (map (nth_nonce a iv) (seq 0 n) !! 0%nat = Some (nth_nonce a iv 0)) as L0
        by (rewrite list_lookup_fmap, lookup_seq_lt by lia; reflexivity).
      assert (map (nth_nonce a iv) (seq 0 n) !! k = Some (nth_nonce a iv k)) as Lk
        by (rewrite list_lookup_fmap, lookup_seq_lt by lia; reflexivity).
      assert (nth_nonce a iv k = nth_nonce a iv 0) as Heq by (apply nth_nonce_eq; rewrite Hk; reflexivity).
      rewrite Heq in Lk. pose proof (NoDup_lookup _ _ _ _ Hnd L0 Lk). lia.
    + intros Hn. apply (NoDup_fmap_2_strong (nth_nonce a iv)); [|apply NoDup_seq].
      intros i j [_ Hi]%elem_of_seq [_ Hj]%elem_of_seq Heq%nth_nonce_eq. rewrite !Z.mod_small in Heq by lia. lia.
Qed.

(** ** Plain chunks *)

(** The chunks of a [chunkedWriter], from its [i]-th size on. *)
Fixpoint plain_stream (nonce : list byte) (i : nat) (cs : list (list byte)) : list byte :=
  match cs with
  | [] => []
  | c :: cs => Encode shake nonce i (Z.of_nat (length c)) ++ c ++ plain_stream nonce (S i) cs
  end.
Definition plain_sim (nonce : list byte) (r : chunkedReader) (s : list byte) (q : list byte * list (list byte)) : Prop :=
  cr_left r = length q.1 ∧ s = q.1 ++ plain_stream nonce (cr_sizes r) q.2 ∧
  Forall (λ c, c ≠ [] ∧ Z.of_nat (length c) < 2 ^ 16) q.2.

Lemma chunked_data_step nonce r n avail s q :
  plain_sim nonce r s q → q.1 ≠ [] →
  ∃ b r' s' q', chunked_data r n avail s = (b, None, r', s') ∧ plain_sim nonce r' s' q' ∧
    queue_bytes q = b ++ queue_bytes q' ∧ (n ≠ 0%nat → b ≠ []).
Proof.
  destruct q as [cur cs]. intros (Hl & -> & Hc) Hne. cbn [fst snd] in *. unfold chunked_data.
  set (m := Nat.min (if (cr_left r <? n)%nat then cr_left r else n) (Nat.max 1 avail)).
  assert (m <= length cur)%nat as Hm by (subst m; destruct (Nat.ltb_spec (cr_left r) n); lia).
  assert (0 < length cur)%nat as Hpos by (destruct cur; [done|simpl; lia]).
  destruct (cur ++ plain_stream nonce (cr_sizes r) cs) eqn:E; [by destruct cur|]. rewrite <- E. clear E.
  rewrite take_app_le, drop_app_le by done.
  exists (take m cur), (MkChunkedReader (cr_sizes r) (cr_left r - length (take m cur))),
    (drop m cur ++ plain_stream nonce (cr_sizes r) cs), (drop m cur, cs).
  split_and!; [done| |unfold queue_bytes; cbn [fst snd]; by rewrite app_assoc, take_drop|].
  - unfold plain_sim. cbn [fst snd cr_left cr_sizes]. rewrite length_take, length_drop. split_and!; [lia|done|done].
  - intros Hn Ht. apply (f_equal length) in Ht. rewrite length_take in Ht. subst m. simpl length in Ht.
    destruct (Nat.ltb_spec (cr_left r) n); lia.
Qed.

(** A plain stream is delivered in order, a read never past the end of its chunk, and
    its end only when everything was delivered. *)
Lemma chunked_Read_step `{!CryptoLaws} nonce r n avail s q :
  plain_sim nonce r s q →
  ∃ b e r' s' q', chunkedReader_Read shake nonce r n avail s = (b, e, r', s') ∧ plain_sim nonce r' s' q' ∧
    queue_bytes q = b ++ queue_bytes q' ∧ (is_Some e ↔ queue_bytes q = []) ∧
    (n ≠ 0%nat → queue_bytes q ≠ [] → b ≠ []).
Proof.
  intros Hs. unfold chunkedReader_Read. destruct (Nat.eqb_spec (cr_left r) 0) as [H0|H0].
  - destruct q as [cur cs], Hs as (Hl & -> & Hc). cbn [fst snd] in *. destruct cur; [|simpl in Hl; lia].
    destruct cs as [|c cs].
    + exists [], (Some EOF), r, [], ([], []). split_and!; try done.
    + apply Forall_cons in Hc as [[Hne Hlen] Hc]. cbn [plain_stream app].
      rewrite ReadFull_exact by (unfold Encode; by rewrite length_be_bytes). rewrite Decode_Encode, Nat2Z.id by lia.
      assert (0 < length c)%nat by (destruct c; [done|simpl; lia]). rewrite (proj2 (Nat.eqb_neq _ _)) by lia.
      destruct (chunked_data_step nonce (MkChunkedReader (S (cr_sizes r)) (length c)) n avail
        (c ++ plain_stream nonce (S (cr_sizes r)) cs) (c, cs)) as (b & r' & s' & q' & -> & ? & Hq & ?); [by split|done|].
      exists b, None, r', s', q'. split_and!; try done; [|by auto].
      split; [by intros []|]. unfold queue_bytes. cbn [fst snd concat app]. by destruct c.
  - assert (q.1 ≠ []) as Hne by (destruct Hs as [Hl _]; intros E; rewrite E in Hl; done).
    destruct (chunked_data_step nonce r n avail s q Hs Hne) as (b & r' & s' & q' & -> & ? & Hq & ?).
    exists b, None, r', s', q'. split_and!; try done; [|by auto].
    split; [by intros []|]. destruct q as [[|] ?]; done.
Qed.

(** ** A connection *)

(** The response header a server of the protocol seals. *)
Definition resp_seal (c : Conn) (hdr : list byte) : list byte :=
  gcm_seal (take 16 (kdf sha256 hmac (v_respBodyKey c) [lit "AEAD Resp Header Len Key"]))
    (take 12 (kdf sha256 hmac (v_respBodyIV c) [lit "AEAD Resp Header Len IV"])) (be_bytes 2 (Z.of_nat (length hdr))) [] ++
  gcm_seal (take 16 (kdf sha256 hmac (v_respBodyKey c) [lit "AEAD Resp Header Key"]))
    (take 12 (kdf sha256 hmac (v_respBodyIV c) [lit "AEAD Resp Header IV"])) hdr [].

Lemma resp_read `{!CryptoLaws} c hdr :
  v_aead c = true → (4 <= length hdr)%nat → Z.of_nat (length hdr) < 65520 →
  hdr !! 0%nat = Some (v_reqRespV c) → hdr !! 2%nat = Some x00 →
  reads_exactly (DecodeRespHeader sha256 hmac gcm_open cfb_decrypt c) (resp_seal c hdr) tt.
Proof.
  intros Ha H4 Hl H0 H2. unfold DecodeRespHeader. rewrite Ha, <- (app_nil_r (resp_seal c hdr)).
  eapply (exact_bind _ _ _ [] hdr).
  - rewrite <- (app_nil_r (resp_seal c hdr)). eapply (exact_bind _ _ _ [] hdr).
    + unfold openVMessAEADHeader, resp_seal.
      eapply exact_bind; [apply exact_full; by rewrite length_gcm_seal, length_be_bytes|]. cbv beta.
      rewrite gcm_open_seal.
      match goal with |- reads_exactly _ ?l _ => change l with ([] ++ l) end.
      eapply exact_bind; [apply exact_open|]. cbv beta.
      rewrite length_be_bytes. change (2 <? 2)%nat with false. cbv iota.
      match goal with |- reads_exactly _ ?l _ => rewrite <- (app_nil_r l) end.
      rewrite take_ge by (by rewrite length_be_bytes). rewrite be16_id, u16_small by lia.
      eapply exact_bind; [apply exact_full; rewrite length_gcm_seal; lia|]. cbv beta.
      rewrite gcm_open_seal. apply exact_open.
    + rewrite (proj2 (Nat.ltb_ge _ _)) by done. apply exact_ret.
  - unfold check_resp. rewrite H0, H2, !bool_decide_eq_true_2 by done. apply exact_ret.
Qed.

Lemma gcm_laws `{!CryptoLaws} key : Ss.AeadLaws (gcm gcm_seal gcm_open key).
Proof. split; intros; simpl; [apply gcm_open_seal|apply length_gcm_seal]. Qed.

Lemma open_reader_aead `{!CryptoLaws} c a r :
  open_reader md5 gcm_seal gcm_open chacha c = AeadReader a r → r = AEADReader ∧ Ss.AeadLaws a ∧ overhead_ok a.
Proof.
  unfold open_reader. repeat (case_match; try done).
  - intros [= <- <-]. split_and!; [done|apply gcm_laws|unfold overhead_ok; simpl; lia].
  - intros [= <- <-]. destruct (chacha_laws (chacha_key md5 (v_respBodyKey c))) as [? E].
    split_and!; [done..|]. unfold overhead_ok. rewrite E. lia.
Qed.

Lemma vm_reads_going `{!CryptoLaws} c a bufs : ∀ i r s q,
  Ss.AeadLaws a → overhead_ok a → vrd_sim a (v_respBodyIV c) i r s q →
  conn_reads md5 sha256 hmac gcm_seal gcm_open chacha cfb_decrypt shake c (Some (AeadReader a r)) bufs s =
  Ok (msg_reads q (map fst bufs)).
Proof.
  induction bufs as [|[n avail] bufs IH]; intros i r s q Hl Ho Hs; [done|]. cbn [conn_reads map fst msg_reads].
  unfold Conn_Read. rewrite bind_ret.
  destruct (aead_Read_step a (v_respBodyIV c) i r n s q Hl Ho Hs) as (i' & r' & s' & -> & Hs').
  destruct (msg_Read n q) as [[b e] q']. cbn [fst snd] in *. rewrite bind_ret, (IH i' r' s' q') by done. done.
Qed.

(** C12: A connection in an AEAD mode reads back what its server writes: after the
    response header with the byte the client drew, the reads of the client, into slices of
    any lengths, are the reads of a queue of the server's chunks, in order and up to EOF;
    the chunks are what the server wrote. *)
Theorem vmess_session `{!CryptoLaws} c a r hdr ps bufs :
  v_aead c = true → open_reader md5 gcm_seal gcm_open chacha c = AeadReader a r →
  (4 <= length hdr)%nat → Z.of_nat (length hdr) < 65520 →
  hdr !! 0%nat = Some (v_reqRespV c) → hdr !! 2%nat = Some x00 → bufs ≠ [] →
  ∃ cs out w, concat cs = concat ps ∧ aead_writes shake a (v_respBodyIV c) AEADWriter ps = Ok (out, w) ∧
    conn_reads md5 sha256 hmac gcm_seal gcm_open chacha cfb_decrypt shake c None bufs (resp_seal c hdr ++ out) =
    Ok (msg_reads ([], cs) (map fst bufs)).
Proof.
  intros Ha Hop H4 Hl H0 H2 Hb. destruct (open_reader_aead c a r Hop) as (-> & Hlaws & Ho).
  destruct (all_vchunks_ok a ps Ho) as [Hcs Hcat].
  exists (all_vchunks a ps), (stream a (v_respBodyIV c) 0 (all_vchunks a ps)). eexists. split; [done|].
  split; [by apply (aead_writes_ok a _ ps 0)|].
  rewrite <- (vm_reads_going c a bufs 0 AEADReader (stream a (v_respBodyIV c) 0 (all_vchunks a ps))); try done.
  destruct bufs as [|[n avail] bufs]; [done|]. cbn [conn_reads]. unfold Conn_Read.
  pose proof (resp_read c hdr Ha H4 Hl H0 H2 [] (stream a (v_respBodyIV c) 0 (all_vchunks a ps))) as Hr.
  rewrite Hr, Hop, !bind_ret. done.
Qed.
End Crypto.
