(* ===== verification/VmessWitness.v ===== *)
(** The vmess theorems with a toy cipher: a seal appends sixteen zero bytes. *)
From S2P Require Import Prelude GoStd Reader ProxyConn SocksAddr Trojan Vless Shadowsocks Vmess.
Import Vm.

Definition zeros (n : nat) : list byte := replicate n x00.
Definition toy_md5 (l : list byte) : list byte := take 16 (l ++ zeros 16).
Definition toy_sha (l : list byte) : list byte := take 32 (l ++ zeros 32).
Definition toy_hmac (h : list byte → list byte) (k m : list byte) : list byte := take 16 (m ++ zeros 16).
Definition toy_aes (k b : list byte) : list byte := zeros 16.
Definition toy_seal (k n p ad : list byte) : list byte := p ++ zeros 16.
Definition toy_open (k n c ad : list byte) : list byte + error := inl (take (length c - 16) c).
Definition toy_chacha (k : list byte) : Ss.AEAD :=
  Ss.MkAEAD 12 16 (λ n p, toy_seal k n p []) (λ n c, toy_open k n c []).
(** The text, or for an odd eighth byte of the IV the text backwards. *)
Definition toy_cfb (k iv p : list byte) : list byte :=
  match iv !! 7%nat with Some b => if Z.even (b2z b) then p else reverse p | None => p end.
Definition toy_shake (n : list byte) (i : nat) : Z := 4660.

#[global] Instance toy_chacha_laws k : Ss.AeadLaws (toy_chacha k).
Proof.
  split; intros; simpl; unfold toy_seal, toy_open, zeros.
  - by rewrite length_app, length_replicate, Nat.add_sub, take_app_length.
  - by rewrite length_app, length_replicate.
Qed.

Lemma toy_laws : CryptoLaws toy_md5 toy_hmac toy_aes toy_seal toy_open toy_chacha toy_cfb toy_cfb toy_shake.
Proof.
  split; intros; simpl; unfold toy_seal, toy_open, toy_shake, zeros; rewrite ?length_app, ?length_replicate; try done.
  - by rewrite Nat.add_sub, take_app_length.
  - unfold toy_cfb. destruct (iv !! 7%nat); [|done]. case_match; [done|apply reverse_involutive].
  - unfold toy_hmac. rewrite length_take, length_app. cbn. lia.
  - split; [apply toy_chacha_laws|done].
Qed.

Definition toy_client : Client := MkClient [NewUser toy_md5 (zeros 16)] 5 true SecurityAES128GCM.
Definition toy_draws : draws := MkDraws 0 (lit "0123456789abcdefFEDCBA9876543210") x2a 3 (lit "pad") 1700000000 1700000000 (lit "rand") (lit "nonce678").

(** The same client without the AEAD header, and a server that accepts five seconds. *)
Definition toy_legacy : Client := MkClient [NewUser toy_md5 (zeros 16)] 5 false SecurityAES128GCM.
Definition toy_window : list Z := [1699999998; 1699999999; 1700000000; 1700000001; 1700000002].

Lemma vmess_request_witness :
  match NewConn toy_md5 toy_sha toy_hmac toy_aes toy_seal toy_cfb toy_client (lit "example.org:443") CmdTCP toy_draws,
        NewConn toy_md5 toy_sha toy_hmac toy_aes toy_seal toy_cfb toy_legacy (lit "example.org:443") CmdTCP toy_draws,
        vmess_ParseAddr (lit "example.org:443") with
  | Ok (c, out), Ok (c', out'), Ok t =>
      reads_exactly (server_open toy_sha toy_hmac toy_open (u_CmdKey (v_user c))) out (request_plain c CmdTCP toy_draws) ∧
      server_request (request_plain c CmdTCP toy_draws) =
        Some (MkVmRequest (lit "0123456789abcdef") (lit "FEDCBA9876543210") [x2a] 5 3 1 (vless_canonical t)) ∧
      server_legacy toy_md5 toy_hmac toy_cfb (v_user c') toy_window out' = Some (request_plain c' CmdTCP toy_draws)
  | _, _, _ => False
  end.
Proof.
  destruct (NewConn _ _ _ _ _ _ toy_client _ _ _) as [[c out]| | |] eqn:E; [|by vm_compute in E..].
  destruct (NewConn _ _ _ _ _ _ toy_legacy _ _ _) as [[c' out']| | |] eqn:E'; [|by vm_compute in E'..].
  destruct (vmess_ParseAddr _) as [t| | |] eqn:Et; [|by vm_compute in Et..].
  pose proof toy_laws.
  destruct (vmess_request toy_md5 toy_sha toy_hmac toy_aes toy_seal toy_open toy_chacha toy_cfb toy_cfb toy_shake
    toy_client (lit "example.org:443") t CmdTCP toy_draws c out) as [H1 H2]; [by split|by split; try done; simpl; lia|done|done|done|].
  destruct (vmess_request toy_md5 toy_sha toy_hmac toy_aes toy_seal toy_open toy_chacha toy_cfb toy_cfb toy_shake
    toy_legacy (lit "example.org:443") t CmdTCP toy_draws c' out') as [(_ & _ & H3) _]; [by split|by split; try done; simpl; lia|done|done|done|].
  split; [exact H1|]. split; [exact H2|]. apply H3; [apply (bool_decide_unpack _); vm_compute; done| |reflexivity].
  intros t' Ht' Ha. vm_compute in E'. injection E' as <- _. unfold toy_window in Ht'. rewrite !elem_of_cons, elem_of_nil in Ht'.
  destruct Ht' as [->|[->|[->|[->|[->|[]]]]]]; first [reflexivity | by vm_compute in Ha].
Defined.

(** The two readings of the clock in different seconds: the header is encrypted for a second
    the authentication does not name, and the server finds no request in it. *)
Definition late_draws : draws :=
  MkDraws 0 (lit "0123456789abcdefFEDCBA9876543210") x2a 3 (lit "pad") 1700000000 1700000001 (lit "rand") (lit "nonce678").
Lemma vmess_legacy_second :
  match NewConn toy_md5 toy_sha toy_hmac toy_aes toy_seal toy_cfb toy_legacy (lit "example.org:443") CmdTCP late_draws with
  | Ok (c, out) => server_request <$> server_legacy toy_md5 toy_hmac toy_cfb (v_user c) toy_window out = Some None
  | _ => False
  end.
Proof. vm_compute. reflexivity. Qed.

Definition toy_conn : Conn :=
  MkConn (NewUser toy_md5 (zeros 16)) 5 true SecurityAES128GCM (x01, zeros 4, 80) (zeros 16) (zeros 16) x2a (zeros 16) (zeros 16).

Lemma vmess_session_witness :
  ∃ cs out w, concat cs = lit "hello world" ∧
    aead_writes toy_shake (gcm toy_seal toy_open (zeros 16)) (zeros 16) AEADWriter [lit "hello "; lit "world"] = Ok (out, w) ∧
    conn_reads toy_md5 toy_sha toy_hmac toy_seal toy_open toy_chacha toy_cfb toy_shake toy_conn None
      [(4%nat, 1%nat); (9%nat, 1%nat); (9%nat, 1%nat)] (resp_seal toy_sha toy_hmac toy_seal toy_conn [x2a; x00; x00; x00] ++ out) =
    Ok (msg_reads ([], cs) [4%nat; 9%nat; 9%nat]).
Proof.
  pose proof toy_laws.
  by apply (vmess_session toy_md5 toy_sha toy_hmac toy_aes toy_seal toy_open toy_chacha toy_cfb toy_cfb toy_shake
    toy_conn (gcm toy_seal toy_open (zeros 16)) AEADReader [x2a; x00; x00; x00] [lit "hello "; lit "world"]
    [(4%nat, 1%nat); (9%nat, 1%nat); (9%nat, 1%nat)]).
Defined.

Lemma vmess_nonces_witness :
  ∃ cs w, concat cs = lit "hello world" ∧
    aead_writes toy_shake (toy_chacha []) (zeros 16) AEADWriter [lit "hello "; lit "world"] =
      Ok (concat (imap (λ i c, Encode toy_shake (zeros 16) i (Z.of_nat (length c + 16)) ++
                               Ss.Seal (toy_chacha []) (nth_nonce (toy_chacha []) (zeros 16) i) c) cs), w) ∧
    (NoDup (map (nth_nonce (toy_chacha []) (zeros 16)) (seq 0 (length cs))) ↔ Z.of_nat (length cs) <= 65536).
Proof.
  apply (vmess_nonces toy_shake (toy_chacha []) (zeros 16) [lit "hello "; lit "world"]);
    [apply toy_chacha_laws|unfold overhead_ok; simpl; lia].
Defined.
