(* ===== verification/SsStream.v ===== *)
(** proxy/ss/cipher: the choice of a cipher by its name, the key derivation, and the
    stream ciphers of shadowstream.

    A [cipher.Stream] is what it makes of everything it was given so far: crypto/cipher
    documents that successive calls behave as one call on the concatenation.  MD5 and the
    ciphers are arguments.  Names are ASCII. *)
From S2P Require Import Prelude GoStd Reader ProxyConn SocksAddr Shadowsocks HttpHead.

Module SsStream.

(** ** The table (cipher.go) *)

Inductive aead_kind := AESGCM | Chacha20Poly1305 | XChacha20Poly1305.
Inductive stream_kind := AESCTR | AESCFB | Chacha20IETF | Xchacha20 | ChaCha20 | RC4MD5.

#[global] Instance aead_kind_dec : EqDecision aead_kind.
Proof. solve_decision. Defined.
#[global] Instance stream_kind_dec : EqDecision stream_kind.
Proof. solve_decision. Defined.

Definition aeadList : list (list byte * (nat * aead_kind)) :=
  [(lit "AEAD_AES_128_GCM", (16%nat, AESGCM)); (lit "AEAD_AES_192_GCM", (24%nat, AESGCM));
   (lit "AEAD_AES_256_GCM", (32%nat, AESGCM)); (lit "AEAD_CHACHA20_POLY1305", (32%nat, Chacha20Poly1305));
   (lit "AEAD_XCHACHA20_POLY1305", (32%nat, XChacha20Poly1305))].
Definition streamList : list (list byte * (nat * stream_kind)) :=
  [(lit "AES-128-CTR", (16%nat, AESCTR)); (lit "AES-192-CTR", (24%nat, AESCTR)); (lit "AES-256-CTR", (32%nat, AESCTR));
   (lit "AES-128-CFB", (16%nat, AESCFB)); (lit "AES-192-CFB", (24%nat, AESCFB)); (lit "AES-256-CFB", (32%nat, AESCFB));
   (lit "CHACHA20-IETF", (32%nat, Chacha20IETF)); (lit "XCHACHA20", (32%nat, Xchacha20));
   (lit "CHACHA20", (32%nat, ChaCha20)); (lit "RC4-MD5", (16%nat, RC4MD5))].

Fixpoint assoc {A} (name : list byte) (l : list (list byte * A)) : option A :=
  match l with
  | [] => None
  | (k, a) :: l => if bool_decide (k = name) then Some a else assoc name l
  end.

Definition KeySizeError (n : nat) : error :=
  String.append "key size error: need " (String.append (String.string_of_list_byte (format_uint (Z.of_nat n))) " bytes").
Definition ErrCipherNotSupported : error := "cipher not supported".

(** The constructors of shadowaead and shadowstream, as far as they check the key;
    [aes.NewCipher] takes keys of 16, 24 and 32 bytes. *)
Definition aes_key_ok (n : nat) : bool := (n =? 16)%nat || (n =? 24)%nat || (n =? 32)%nat.
Definition new_aead (k : aead_kind) (key : list byte) : option error :=
  match k with
  | AESGCM => if aes_key_ok (length key) then None else Some "crypto/aes: invalid key size"%string
  | _ => if (length key =? 32)%nat then None else Some (KeySizeError 32)
  end.
Definition new_stream (k : stream_kind) (key : list byte) : option error :=
  match k with
  | AESCTR | AESCFB => if aes_key_ok (length key) then None else Some "crypto/aes: invalid key size"%string
  | RC4MD5 => None
  | _ => if (length key =? 32)%nat then None else Some (KeySizeError 32)
  end.
(** [IVSize]. *)
Definition IVSize (k : stream_kind) : nat :=
  match k with
  | AESCTR | AESCFB | RC4MD5 => 16
  | Chacha20IETF => 12
  | Xchacha20 => 24
  | ChaCha20 => 8
  end.

Inductive choice := Dummy | Aead (k : aead_kind) (key : list byte) | StreamOf (k : stream_kind) (key : list byte).

Section Kdf.
Context (md5 : list byte → list byte).

Fixpoint kdf_loop (fuel keyLen : nat) (password b prev : list byte) : outcome (list byte) :=
  if (length b <? keyLen)%nat then
    match fuel with
    | O => OutOfFuel
    | S fuel =>
        let b := b ++ md5 (prev ++ password) in
        if (length b <? 16)%nat then Panic
        else kdf_loop fuel keyLen password b (drop (length b - 16) b)
    end
  else Ok b.
Definition kdf (password : list byte) (keyLen : nat) : outcome (list byte) :=
  b ← kdf_loop keyLen keyLen password [] []; Ok (take keyLen b).

Definition to_upper (s : list byte) : list byte := map upper_byte s.
(** The aliases. *)
Definition canonical_name (name : list byte) : list byte :=
  if bool_decide (name = lit "CHACHA20-IETF-POLY1305") then lit "AEAD_CHACHA20_POLY1305"
  else if bool_decide (name = lit "XCHACHA20-IETF-POLY1305") then lit "AEAD_XCHACHA20_POLY1305"
  else if bool_decide (name = lit "AES-128-GCM") then lit "AEAD_AES_128_GCM"
  else if bool_decide (name = lit "AES-192-GCM") then lit "AEAD_AES_192_GCM"
  else if bool_decide (name = lit "AES-256-GCM") then lit "AEAD_AES_256_GCM"
  else name.

Definition PickCipher (name key password : list byte) : outcome choice :=
  let name := to_upper name in
  if bool_decide (name = lit "DUMMY") || bool_decide (name = lit "NONE") then Ok Dummy
  else
    let name := canonical_name name in
    match assoc name aeadList with
    | Some (KeySize, New) =>
        key ← (if (length key =? 0)%nat then kdf password KeySize else Ok key);
        if negb (length key =? KeySize)%nat then Err (KeySizeError KeySize)
        else match new_aead New key with Some e => Err e | None => Ok (Aead New key) end
    | None =>
        match assoc name streamList with
        | Some (KeySize, New) =>
            key ← (if (length key =? 0)%nat then kdf password KeySize else Ok key);
            if negb (length key =? KeySize)%nat then Err (KeySizeError KeySize)
            else match new_stream New key with Some e => Err e | None => Ok (StreamOf New key) end
        | None => Err ErrCipherNotSupported
        end
    end.
End Kdf.

(** ** Streams (shadowstream) *)

(** What a stream of a cipher, keyed and with an IV, makes of all it was given. *)
Record Cipher := MkCipher {
  iv_size : nat;
  Encrypter : list byte → list byte → list byte;
  Decrypter : list byte → list byte → list byte }.

Class StreamLaws (c : Cipher) := {
  enc_prefix : ∀ iv a b, take (length a) (Encrypter c iv (a ++ b)) = Encrypter c iv a;
  dec_prefix : ∀ iv a b, take (length a) (Decrypter c iv (a ++ b)) = Decrypter c iv a;
  enc_length : ∀ iv a, length (Encrypter c iv a) = length a;
  dec_length : ∀ iv a, length (Decrypter c iv a) = length a;
  dec_enc : ∀ iv a, Decrypter c iv (Encrypter c iv a) = a }.

(** [XORKeyStream] of [p] after [past]. *)
Definition XORKeyStream (f : list byte → list byte) (past p : list byte) : list byte := drop (length past) (f (past ++ p)).

Definition bufSize : nat := Z.to_nat (32 * 1024).

(** [writer.Write]: [write i b] is the answer of the connection to its [i]-th write. *)
Fixpoint writer_Write (f : list byte → list byte) (write : nat → list byte → nat * option error)
    (fuel i : nat) (past p : list byte) : outcome (list (list byte) * nat * option error * list byte) :=
  match fuel, p with
  | _, [] => Ok ([], 0%nat, None, past)
  | O, _ => OutOfFuel
  | S fuel, _ =>
      let blk := take bufSize p in
      let out := XORKeyStream f past blk in
      let past := past ++ blk in
      match write i out with
      | (nw, Some e) => Ok ([out], nw, Some e, past)
      | (nw, None) =>
          '(outs, n, e, past) ← writer_Write f write fuel (S i) past (drop nw p);
          Ok (out :: outs, (nw + n)%nat, e, past)
      end
  end.

(** [reader.Read] into a slice of length [n] when [avail] bytes are ready. *)
Definition reader_Read (f : list byte → list byte) (past : list byte) (n avail : nat) (s : list byte)
    : list byte * option error * list byte * list byte :=
  let '(c, e, s) := plain_Read n avail s in
  match e with
  | Some e => ([], Some e, past, s)
  | None => (XORKeyStream f past c, None, past ++ c, s)
  end.

(** [conn]: the IV and the past of its reader and of its writer. *)
Record conn := MkConn { c_r : option (list byte * list byte); c_w : option (list byte * list byte) }.
Definition NewConn : conn := MkConn None None.

Definition initReader (c : Cipher) (s : list byte) : (list byte + error) * list byte :=
  match ReadFull (iv_size c) s with
  | Ok (iv, s) => (inl iv, s)
  | Err e => (inr e, [])
  | _ => (inr EOF, s)
  end.
Definition conn_Read (c : Cipher) (cc : conn) (n avail : nat) (s : list byte)
    : list byte * option error * conn * list byte :=
  let '(r, s) := match c_r cc with
                 | Some r => (inl r, s)
                 | None => match initReader c s with
                           | (inl iv, s) => (inl (iv, []), s)
                           | (inr e, s) => (inr e, s)
                           end
                 end in
  match r with
  | inr e => ([], Some e, cc, s)
  | inl (iv, past) =>
      let '(b, e, past, s) := reader_Read (Decrypter c iv) past n avail s in
      (b, e, MkConn (Some (iv, past)) (c_w cc), s)
  end.

(** [initWriter] with the IV the random source gives. *)
Definition conn_Write (c : Cipher) (iv : list byte) (write : nat → list byte → nat * option error) (cc : conn)
    (b : list byte) : outcome (list (list byte) * nat * option error * conn) :=
  match c_w cc with
  | Some (iv, past) =>
      '(outs, n, e, past) ← writer_Write (Encrypter c iv) write (length b) 0 past b;
      Ok (outs, n, e, MkConn (c_r cc) (Some (iv, past)))
  | None =>
      match write 0%nat iv with
      | (_, Some e) => Ok ([iv], 0%nat, Some e, cc)
      | (_, None) =>
          '(outs, n, e, past) ← writer_Write (Encrypter c iv) write (length b) 1 [] b;
          Ok (iv :: outs, n, e, MkConn (c_r cc) (Some (iv, past)))
      end
  end.

(** ** Packets *)

Definition ErrShortPacket : error := "short packet".
Definition ErrShortBuffer : error := "short buffer".

(** [Pack] into a slice of length [dst], [Unpack] into one. *)
Definition Pack (c : Cipher) (dst : nat) (plaintext iv : list byte) : outcome (list byte) :=
  if (dst <? iv_size c + length plaintext)%nat then Err ErrShortBuffer
  else Ok (iv ++ Encrypter c iv plaintext).
Definition Unpack (c : Cipher) (dst : nat) (pkt : list byte) : outcome (list byte) :=
  if (length pkt <? iv_size c)%nat then Err ErrShortPacket
  else if (dst <? length pkt - iv_size c)%nat then Err ErrShortBuffer
  else Ok (Decrypter c (take (iv_size c) pkt) (drop (iv_size c) pkt)).
Definition packet_WriteTo (c : Cipher) (b iv : list byte) : outcome (list byte) := Pack c (Z.to_nat (64 * 1024)) b iv.
(** [ReadFrom] into a slice of length [n] of a packet, which the socket cuts. *)
Definition packet_ReadFrom (c : Cipher) (n : nat) (pkt : list byte) : outcome (list byte) :=
  if (n <? iv_size c)%nat then Panic else Unpack c (n - iv_size c) (take n pkt).

(** Writes on a connection that takes everything, and reads (length, bytes ready). *)
Fixpoint conn_writes (c : Cipher) (iv : list byte) (cc : conn) (ps : list (list byte)) : outcome (list byte) :=
  match ps with
  | [] => Ok []
  | p :: ps =>
      '(outs, _, _, cc) ← conn_Write c iv (λ _ b, (length b, None)) cc p;
      out ← conn_writes c iv cc ps;
      Ok (concat outs ++ out)
  end.
Fixpoint conn_reads (c : Cipher) (cc : conn) (bufs : list (nat * nat)) (s : list byte) : list (list byte * option error) :=
  match bufs with
  | [] => []
  | (n, avail) :: bufs =>
      let '(b, e, cc, s) := conn_Read c cc n avail s in (b, e) :: conn_reads c cc bufs s
  end.
End SsStream.

(** * proxy/ss/cipher: which names and passwords give a cipher, and stream ciphers are
    transparent. *)
Import SsStream.

(** ** Keys *)

Section Kdf.
Context (md5 : list byte → list byte).
Hypothesis md5_length : ∀ l, length (md5 l) = 16%nat.

Lemma kdf_loop_ok keyLen pw fuel : ∀ b prev,
  (keyLen <= fuel + length b)%nat →
  ∃ b', kdf_loop md5 fuel keyLen pw b prev = Ok b' ∧ (keyLen <= length b')%nat.
Proof.
  induction fuel as [|fuel IH]; intros b prev H; cbn [kdf_loop];
    (destruct (Nat.ltb_spec (length b) keyLen); [|by exists b]); [lia|].
  rewrite (proj2 (Nat.ltb_ge _ _)) by (rewrite length_app, md5_length; lia).
  apply IH. rewrite length_app, md5_length. lia.
Qed.

Lemma kdf_ok pw keyLen : ∃ key, kdf md5 pw keyLen = Ok key ∧ length key = keyLen.
Proof.
  unfold kdf. destruct (kdf_loop_ok keyLen pw keyLen [] []) as (b & -> & Hb); [simpl; lia|].
  exists (take keyLen b). split; [done|]. rewrite length_take. lia.
Qed.

(** The ciphers of the table. *)
Definition known (name : list byte) : bool :=
  let u := to_upper name in
  bool_decide (u = lit "DUMMY") || bool_decide (u = lit "NONE") ||
  bool_decide (is_Some (assoc (canonical_name u) aeadList)) || bool_decide (is_Some (assoc (canonical_name u) streamList)).

Lemma assoc_In {A} name (l : list (list byte * A)) a : assoc name l = Some a → (name, a) ∈ l.
Proof.
  induction l as [|[k x] l IH]; simpl; [done|]. case_bool_decide; [intros [= ->]; subst; by left|].
  intros. right. auto.
Qed.

Lemma aeadList_keys n k key : (n, k) ∈ aeadList.*2 → length key = n → new_aead k key = None.
Proof. simpl. rewrite !elem_of_cons, elem_of_nil. intros H E. by repeat (destruct H as [H|H]; [injection H as -> ->; simpl; rewrite ?E|]). Qed.
Lemma streamList_keys n k key : (n, k) ∈ streamList.*2 → length key = n → new_stream k key = None.
Proof. simpl. rewrite !elem_of_cons, elem_of_nil. intros H E. by repeat (destruct H as [H|H]; [injection H as -> ->; simpl; rewrite ?E|]). Qed.

(** With a password, the choice of a cipher depends on its name only: a name of the
    table, in any case or by its alias, gives its cipher with a key of exactly the size it
    needs, the key being a function of the password, and any other name the one error;
    no password makes it fail. *)
Theorem ss_pick name password :
  (known name = true →
   ∃ c, PickCipher md5 name [] password = Ok c ∧
     match c with
     | Dummy => to_upper name = lit "DUMMY" ∨ to_upper name = lit "NONE"
     | Aead k key => ∃ n, assoc (canonical_name (to_upper name)) aeadList = Some (n, k) ∧
                          length key = n ∧ kdf md5 password n = Ok key
     | StreamOf k key => ∃ n, assoc (canonical_name (to_upper name)) streamList = Some (n, k) ∧
                              length key = n ∧ kdf md5 password n = Ok key
     end) ∧
  (known name = false → PickCipher md5 name [] password = Err ErrCipherNotSupported).
Proof.
  unfold known, PickCipher. set (u := to_upper name).
  destruct (bool_decide (u = lit "DUMMY") || bool_decide (u = lit "NONE")) eqn:E0; cbn [orb].
  { split; [|done]. intros _. exists Dummy. split; [done|]. by apply orb_prop in E0 as [?%bool_decide_eq_true|?%bool_decide_eq_true]; auto. }
  destruct (assoc (canonical_name u) aeadList) as [[n k]|] eqn:Ea.
  - split; [|done]. intros _. simpl length. cbn [Nat.eqb]. change (0 =? 0)%nat with true. cbv iota.
    destruct (kdf_ok password n) as (key & Hk & Hl). rewrite Hk, bind_ret, Hl, Nat.eqb_refl. cbn [negb].
    rewrite (aeadList_keys n k key); [|by apply assoc_In, (list_elem_of_fmap_2 snd) in Ea|done].
    exists (Aead k key). split; [done|]. by exists n.
  - destruct (assoc (canonical_name u) streamList) as [[n k]|] eqn:Es.
    + split; [|done]. intros _. change (length [] =? 0)%nat with true. cbv iota.
      destruct (kdf_ok password n) as (key & Hk & Hl). rewrite Hk, bind_ret, Hl, Nat.eqb_refl. cbn [negb].
      rewrite (streamList_keys n k key); [|by apply assoc_In, (list_elem_of_fmap_2 snd) in Es|done].
      exists (StreamOf k key). split; [done|]. by exists n.
    + split; [|done]. rewrite !bool_decide_eq_false_2 by (by intros []). done.
Qed.
End Kdf.

(** ** Streams *)

Lemma bufSize_val : Z.of_nat bufSize = 32768.
Proof. unfold bufSize. lia. Qed.
#[local] Opaque bufSize.

(** A function of streams: prefixes go to prefixes of the same length. *)
Definition streaming (f : list byte → list byte) : Prop :=
  (∀ a b, take (length a) (f (a ++ b)) = f a) ∧ ∀ a, length (f a) = length a.

Lemma xor_app f past a b :
  streaming f → XORKeyStream f past (a ++ b) = XORKeyStream f past a ++ XORKeyStream f (past ++ a) b.
Proof.
  intros [Hp Hl]. unfold XORKeyStream. rewrite <- app_assoc, <- (Hp (past ++ a) b), <- app_assoc.
  rewrite <- (take_drop (length (past ++ a)) (f (past ++ a ++ b))) at 1. rewrite drop_app_le; [done|].
  rewrite length_take, Hl, !length_app. lia.
Qed.

Lemma xor_length f past p : streaming f → length (XORKeyStream f past p) = length p.
Proof. intros [_ Hl]. unfold XORKeyStream. rewrite length_drop, Hl, length_app. lia. Qed.

Lemma take_drop_len {A} n (q : list A) : take n q ++ drop (length (take n q)) q = q.
Proof.
  rewrite length_take. destruct (Nat.min_spec n (length q)) as [[_ ->]|[Hge ->]]; [apply take_drop|].
  rewrite take_ge, drop_ge by lia. apply app_nil_r.
Qed.

Lemma writer_ok f fuel : ∀ i past p,
  streaming f → (length p <= fuel)%nat →
  ∃ outs, writer_Write f (λ _ b, (length b, None)) fuel i past p = Ok (outs, length p, None, past ++ p) ∧
    concat outs = XORKeyStream f past p.
Proof.
  assert (∀ past, streaming f → XORKeyStream f past [] = []) as Hnil.
  { intros past Hf. apply nil_length_inv. by rewrite xor_length. }
  induction fuel as [|fuel IH]; intros i past [|x p] Hf Hl; try (exists []; rewrite app_nil_r; by rewrite Hnil);
    [simpl in Hl; lia|].
  cbn [writer_Write]. set (q := x :: p) in *. pose proof bufSize_val. rewrite xor_length by done.
  set (blk := take bufSize q). assert (0 < length blk <= length q)%nat as Hb
    by (unfold blk; rewrite length_take; simpl length; lia).
  destruct (IH (S i) (past ++ blk) (drop (length blk) q)) as (outs & -> & Ho); [done|rewrite length_drop; lia|].
  pose proof (take_drop_len bufSize q) as Hq. fold blk in Hq.
  exists (XORKeyStream f past blk :: outs). rewrite bind_ret. cbn [concat]. rewrite Ho, <- xor_app, Hq by done.
  split; [|done]. rewrite <- app_assoc, Hq. by replace (length blk + length (drop (length blk) q))%nat with (length q) by (rewrite length_drop; lia).
Qed.

Section Stream.
Context (c : Cipher) `{!StreamLaws c}.

Lemma enc_streaming iv : streaming (Encrypter c iv).
Proof. split; intros; [apply enc_prefix|apply enc_length]. Qed.
Lemma dec_streaming iv : streaming (Decrypter c iv).
Proof. split; intros; [apply dec_prefix|apply dec_length]. Qed.

Lemma stream_writes_going iv iv' r past ps :
  conn_writes c iv' (MkConn r (Some (iv, past))) ps = Ok (XORKeyStream (Encrypter c iv) past (concat ps)).
Proof.
  revert past. induction ps as [|p ps IH]; intros past; cbn [conn_writes concat].
  - f_equal. symmetry. apply nil_length_inv. by rewrite xor_length by apply enc_streaming.
  - unfold conn_Write. cbn [c_w c_r].
    destruct (writer_ok (Encrypter c iv) (length p) 0 past p (enc_streaming iv)) as (outs & -> & Ho); [lia|].
    rewrite !bind_ret, IH, bind_ret, Ho. by rewrite xor_app by apply enc_streaming.
Qed.

Lemma conn_writes_ok iv ps :
  ps ≠ [] → conn_writes c iv NewConn ps = Ok (iv ++ Encrypter c iv (concat ps)).
Proof.
  destruct ps as [|p ps]; [done|]. intros _. cbn [conn_writes concat]. unfold conn_Write. cbn [c_w c_r NewConn].
  destruct (writer_ok (Encrypter c iv) (length p) 1 [] p (enc_streaming iv)) as (outs & -> & Ho); [lia|].
  rewrite !bind_ret, stream_writes_going, bind_ret. cbn [concat]. rewrite Ho, <- app_assoc, app_nil_l.
  by rewrite <- xor_app by apply enc_streaming.
Qed.

Lemma stream_reads_going iv w bufs : ∀ p q,
  conn_reads c (MkConn (Some (iv, Encrypter c iv p)) w) bufs (XORKeyStream (Encrypter c iv) p q) = plain_reads bufs q.
Proof.
  induction bufs as [|[n avail] bufs IH]; intros p q; [done|]. cbn [conn_reads plain_reads]. unfold conn_Read. cbn [c_r c_w].
  unfold reader_Read. pose proof (xor_length (Encrypter c iv) p q (enc_streaming iv)) as Hlen.
  assert (XORKeyStream (Decrypter c iv) (Encrypter c iv p) [] = []) as Hd
    by (apply nil_length_inv; by rewrite xor_length by apply dec_streaming).
  destruct n as [|n']; [cbn [plain_Read]; rewrite Hd, app_nil_r; f_equal; apply IH|]. cbn [plain_Read].
  remember (S n') as n eqn:En. destruct q as [|x q].
  - destruct (XORKeyStream (Encrypter c iv) p []) as [|] eqn:E; [|simpl in Hlen; lia]. f_equal.
    pose proof (IH p []) as H. by rewrite E in H.
  - set (m := ready n avail). set (t := x :: q) in *.
    assert (XORKeyStream (Encrypter c iv) p t = XORKeyStream (Encrypter c iv) p (take m t) ++
      XORKeyStream (Encrypter c iv) (p ++ take m t) (drop m t)) as Es
      by (rewrite <- xor_app, take_drop by apply enc_streaming; done).
    assert (take m (XORKeyStream (Encrypter c iv) p t) = XORKeyStream (Encrypter c iv) p (take m t)) as Et.
    { rewrite Es. destruct (Nat.le_ge_cases m (length t)) as [Hm|Hm].
      - rewrite take_app_le, take_ge; rewrite ?xor_length, ?length_take by apply enc_streaming; try lia. done.
      - rewrite !take_ge; rewrite ?length_app, ?xor_length, ?length_take, ?length_drop by apply enc_streaming; try lia.
        rewrite drop_ge by lia. rewrite (nil_length_inv (XORKeyStream _ (p ++ t) [])); [by rewrite app_nil_r|].
        by rewrite xor_length by apply enc_streaming. }
    destruct (XORKeyStream (Encrypter c iv) p t) as [|y s] eqn:Exy; [simpl in Hlen; lia|]. rewrite <- Exy in *. clear Exy y s.
    rewrite Et.
    assert (Encrypter c iv p ++ XORKeyStream (Encrypter c iv) p (take m t) = Encrypter c iv (p ++ take m t)) as Ep.
    { unfold XORKeyStream. destruct (enc_streaming iv) as [Hp Hl]. rewrite <- (Hp p (take m t)) at 1. apply take_drop. }
    rewrite Ep. f_equal.
    + f_equal. unfold XORKeyStream at 1. rewrite Ep, dec_enc, enc_length. apply drop_app_length.
    + rewrite <- (IH (p ++ take m t) (drop m t)). f_equal. rewrite Es.
      destruct (Nat.le_ge_cases m (length t)) as [Hm|Hm].
      * rewrite drop_app_length'; [done|]. rewrite xor_length, length_take by apply enc_streaming. lia.
      * rewrite (drop_ge t) by lia. rewrite (nil_length_inv (XORKeyStream _ (p ++ _) []))
          by (by rewrite xor_length by apply enc_streaming).
        rewrite app_nil_r, drop_ge; [done|]. rewrite xor_length, length_take by apply enc_streaming. lia.
Qed.

(** C26: A stream-cipher connection is transparent: whatever is written to it, in any
    pieces, is read by the peer exactly as it would be from a plain connection that
    carries those bytes, for any buffers and any timing of their arrival. *)
Theorem ss_stream_transparent iv ps bufs :
  length iv = iv_size c → ps ≠ [] →
  ∃ out, conn_writes c iv NewConn ps = Ok out ∧ conn_reads c NewConn bufs out = plain_reads bufs (concat ps).
Proof.
  intros Hiv Hps. eexists. split; [by apply conn_writes_ok|]. destruct bufs as [|[n avail] bufs]; [done|].
  rewrite <- (stream_reads_going iv None ((n, avail) :: bufs) [] (concat ps)).
  cbn [conn_reads]. unfold conn_Read. cbn [c_r c_w NewConn]. unfold initReader.
  rewrite ReadFull_exact by done.
  assert (Encrypter c iv [] = []) as -> by (apply nil_length_inv; by rewrite enc_length). done.
Qed.
End Stream.

Lemma ss_stream_packet (c : Cipher) `{!StreamLaws c} iv b n :
  length iv = iv_size c → (iv_size c + length b <= n)%nat → Z.of_nat n <= 65536 →
  ∃ pkt, packet_WriteTo c b iv = Ok pkt ∧ packet_ReadFrom c n pkt = Ok b.
Proof.
  intros Hiv Hb Hn. unfold packet_WriteTo, Pack. rewrite (proj2 (Nat.ltb_ge _ _)) by lia. eexists. split; [done|].
  assert (length (iv ++ Encrypter c iv b) = iv_size c + length b)%nat as Hl by (by rewrite length_app, enc_length, Hiv).
  unfold packet_ReadFrom, Unpack. rewrite (proj2 (Nat.ltb_ge n _)) by lia. rewrite take_ge by lia. rewrite Hl.
  rewrite !(proj2 (Nat.ltb_ge _ _)) by lia. rewrite take_app_length', drop_app_length' by done. by rewrite dec_enc.
Qed.

(** ** Concrete ciphers and keys *)

Definition xor_cipher : Cipher := MkCipher 16 (λ _ p, map (λ b, z2b (255 - b2z b)) p) (λ _ p, map (λ b, z2b (255 - b2z b)) p).
#[global] Instance xor_cipher_laws : StreamLaws xor_cipher.
Proof.
  split; intros; simpl; rewrite ?length_map; try done.
  - rewrite map_app, take_app_length'; [done|]. by rewrite length_map.
  - rewrite map_app, take_app_length'; [done|]. by rewrite length_map.
  - rewrite map_map. etransitivity; [|apply map_id]. apply map_ext. intros b. pose proof (b2z_range b).
    rewrite b2z_z2b_small by lia. replace (255 - (255 - b2z b)) with (b2z b) by lia. apply z2b_b2z.
Qed.

Lemma ss_stream_transparent_witness :
  ∃ out, conn_writes xor_cipher (lit "0123456789abcdef") NewConn [lit "hello "; lit "world"] = Ok out ∧
    conn_reads xor_cipher NewConn [(4%nat, 9%nat); (99%nat, 3%nat); (99%nat, 99%nat); (1%nat, 1%nat)] out =
    [(lit "hell", None); (lit "o w", None); (lit "orld", None); ([], Some EOF)].
Proof.
  destruct (ss_stream_transparent xor_cipher (lit "0123456789abcdef") [lit "hello "; lit "world"]
    [(4%nat, 9%nat); (99%nat, 3%nat); (99%nat, 99%nat); (1%nat, 1%nat)]) as (out & H1 & H2); [done..|].
  exists out. split; [exact H1|]. rewrite H2. by vm_compute.
Defined.

Lemma ss_pick_witness :
  ∃ c, PickCipher (λ _, replicate 16 x00) (lit "aes-256-gcm") [] (lit "secret") = Ok c ∧
    match c with Aead AESGCM key => length key = 32%nat | _ => False end.
Proof.
  destruct (ss_pick (λ _, replicate 16 x00) (λ _, eq_refl) (lit "aes-256-gcm") (lit "secret")) as [H _].
  destruct H as (c & Hc & Hm); [by vm_compute|]. exists c. split; [exact Hc|].
  vm_compute in Hc. injection Hc as <-. by vm_compute.
Defined.
