(* ===== verification/Obfs.v ===== *)
(** proxy/obfs: the HTTP and TLS disguises of simple-obfs.

    What the random source and the clock give are arguments. *)
From S2P Require Import Prelude GoStd Reader HttpHead Http.

Module Obfs.

(** ** Configuration (obfs.go) *)

Record Obfs := MkObfs {
  o_addr : list byte;
  o_type : list byte;
  o_host : list byte;
  o_uri : list byte;
  o_ua : list byte }.

Definition defaultUA : list byte :=
  lit "Mozilla/5.0 (Windows NT 10.0; Win64; x64) AppleWebKit/537.36 (KHTML, like Gecko) Chrome/71.0.3578.80 Safari/537.36".

(** [NewObfs] of a URL's host and query. *)
Definition NewObfs (addr : list byte) (query : list (list byte * list byte)) : outcome Obfs :=
  let dflt k d := let v := query_get query k in if bool_decide (v = []) then d else v in
  let obfsType := dflt (lit "type") (lit "http") in
  let obfsHost := query_get query (lit "host") in
  if bool_decide (obfsHost = []) then Err "[obfs] host cannot be null"
  else if bool_decide (obfsType = lit "http") || bool_decide (obfsType = lit "tls") then
    Ok (MkObfs addr obfsType obfsHost (dflt (lit "uri") (lit "/")) (dflt (lit "ua") defaultUA))
  else Err "[obfs] unknown obfs type".

(** ** HTTP (http.go) *)

Definition writeHeader (p : Obfs) (rand : list byte) : list byte :=
  lit "GET " ++ o_uri p ++ lit " HTTP/1.1" ++ Http.crlf ++
  lit "Host: " ++ o_host p ++ Http.crlf ++
  lit "User-Agent: " ++ o_ua p ++ Http.crlf ++
  lit "Upgrade: websocket" ++ Http.crlf ++
  lit "Connection: Upgrade" ++ Http.crlf ++
  lit "Sec-WebSocket-Key: " ++ b64_encode rand ++ Http.crlf ++
  Http.crlf.

(** [bufio.Reader.ReadLine] with the default buffer: a line that does not fit comes in
    parts. *)
Definition bufioSize : nat := Z.to_nat 4096.
Definition bufio_ReadLine (s : list byte) : outcome (list byte * list byte) :=
  match index_byte (take bufioSize s) c_lf with
  | Some i =>
      let line := take i s in
      Ok (match last line with
          | Some b => if bool_decide (b = c_cr) then take (i - 1) s else line
          | None => line
          end, drop (S i) s)
  | None =>
      if (bufioSize <=? length s)%nat then
        let line := take bufioSize s in
        match last line with
        | Some b => if bool_decide (b = c_cr) then Ok (take (bufioSize - 1) s, drop (bufioSize - 1) s)
                    else Ok (line, drop bufioSize s)
        | None => Ok (line, drop bufioSize s)
        end
      else match s with [] => Err EOF | _ => Ok (s, []) end
  end.

(** The loop of the first [Read]. *)
Fixpoint skip_header (fuel : nat) (s : list byte) : outcome (list byte) :=
  match fuel with
  | O => OutOfFuel
  | S fuel =>
      '(l, s) ← bufio_ReadLine s;
      if (length l =? 0)%nat then Ok s else skip_header fuel s
  end.

(** [HTTPObfsConn.Read]: [started]: whether the reader was made. *)
Definition http_Read (started : bool) (n avail : nat) (s : list byte) : outcome (list byte * option error * list byte) :=
  match (if started then Ok s else skip_header (S (length s)) s) with
  | Ok s => Ok (plain_Read n avail s)
  | Err e => Ok ([], Some e, [])
  | Panic => Panic
  | OutOfFuel => OutOfFuel
  end.
Fixpoint http_reads (started : bool) (bufs : list (nat * nat)) (s : list byte) : outcome (list (list byte * option error)) :=
  match bufs with
  | [] => Ok []
  | (n, avail) :: bufs =>
      '(b, e, s) ← http_Read started n avail s;
      l ← http_reads true bufs s;
      Ok ((b, e) :: l)
  end.

(** ** TLS (tls.go) *)

Definition chunkSize : nat := Z.to_nat (Z.shiftl 1 13).

Definition bytes (l : list Z) : list byte := map z2b l.

Definition clientHello (now : Z) (random sessionID : list byte) : list byte :=
  bytes [0x03; 0x03] ++ be_bytes 4 (u32 now) ++ random ++ bytes [32] ++ sessionID ++ be_bytes 2 56 ++
  bytes [0xc0; 0x2c; 0xc0; 0x30; 0x00; 0x9f; 0xcc; 0xa9; 0xcc; 0xa8; 0xcc; 0xaa; 0xc0; 0x2b; 0xc0; 0x2f;
         0x00; 0x9e; 0xc0; 0x24; 0xc0; 0x28; 0x00; 0x6b; 0xc0; 0x23; 0xc0; 0x27; 0x00; 0x67; 0xc0; 0x0a;
         0xc0; 0x14; 0x00; 0x39; 0xc0; 0x09; 0xc0; 0x13; 0x00; 0x33; 0x00; 0x9d; 0x00; 0x9c; 0x00; 0x3d;
         0x00; 0x3c; 0x00; 0x35; 0x00; 0x2f; 0x00; 0xff] ++
  bytes [0x01] ++ bytes [0x00].

Definition len16 (l : list byte) (k : Z) : list byte := be_bytes 2 (u16 (Z.of_nat (length l) + k)).

Definition extension (b server : list byte) : list byte :=
  bytes [0x00; 0x23] ++ len16 b 0 ++ b ++
  bytes [0x00; 0x00] ++ len16 server 5 ++ len16 server 3 ++ bytes [0x00] ++ len16 server 0 ++ server ++
  bytes [0x00; 0x0b] ++ be_bytes 2 4 ++ bytes [0x03] ++ bytes [0x01; 0x00; 0x02] ++
  bytes [0x00; 0x0a] ++ be_bytes 2 10 ++ be_bytes 2 8 ++ bytes [0x00; 0x1d; 0x00; 0x17; 0x00; 0x19; 0x00; 0x18] ++
  bytes [0x00; 0x0d] ++ be_bytes 2 32 ++ be_bytes 2 30 ++
  bytes [0x06; 0x01; 0x06; 0x02; 0x06; 0x03; 0x05; 0x01; 0x05; 0x02; 0x05; 0x03; 0x04; 0x01; 0x04; 0x02;
         0x04; 0x03; 0x03; 0x01; 0x03; 0x02; 0x03; 0x03; 0x02; 0x01; 0x02; 0x02; 0x02; 0x03] ++
  bytes [0x00; 0x16] ++ be_bytes 2 0 ++
  bytes [0x00; 0x17] ++ be_bytes 2 0.

(** [handshake]: what the first [Write] sends. *)
Definition tls_handshake (p : Obfs) (now : Z) (random sessionID b : list byte) : list byte :=
  let ext := extension b (o_host p) in
  let hello := clientHello now random sessionID in
  let helloLen := Z.of_nat (length hello) + 2 + Z.of_nat (length ext) in
  let handshakeLen := 4 + helloLen in
  bytes [0x16] ++ bytes [0x03; 0x01] ++ be_bytes 2 (u16 handshakeLen) ++ bytes [0x01] ++
  be_bytes 3 helloLen ++ hello ++ be_bytes 2 (u16 (Z.of_nat (length ext))) ++ ext.

Definition tls_record (b : list byte) : list byte := bytes [0x17; 0x03; 0x03] ++ be_bytes 2 (u16 (Z.of_nat (length b))) ++ b.

(** The later writes: [werr i] is the answer of the connection to the [i]-th record. *)
Fixpoint tls_write (werr : nat → option error) (fuel i : nat) (b : list byte) : outcome (list (list byte) * option error) :=
  match fuel, b with
  | _, [] => Ok ([], None)
  | O, _ => OutOfFuel
  | S fuel, _ =>
      let out := tls_record (take chunkSize b) in
      match werr i with
      | Some e => Ok ([out], Some e)
      | None => '(outs, e) ← tls_write werr fuel (S i) (drop chunkSize b); Ok (out :: outs, e)
      end
  end.
(** [TLSObfsConn.Write]: the buffers offered to the connection and the result. *)
Definition tls_Write (p : Obfs) (now : Z) (random sessionID : list byte) (werr : nat → option error) (reqSent : bool)
    (b : list byte) : outcome (list (list byte) * Z * option error) :=
  if reqSent then
    '(outs, e) ← tls_write werr (length b) 0 b;
    Ok (outs, match e with Some _ => 0 | None => Z.of_nat (length b) end, e)
  else
    let e := werr 0%nat in
    Ok ([tls_handshake p now random sessionID b], match e with Some _ => 0 | None => Z.of_nat (length b) end, e).

(** [TLSObfsConn.Read]: [leftB] is [leftBytes]. *)
Definition tls_data (leftB n avail : nat) (s : list byte) : list byte * option error * nat * list byte :=
  let readLen := if (leftB <? n)%nat then leftB else n in
  let '(b, e, s) := plain_Read readLen avail s in
  match e with
  | Some e => ([], Some e, leftB, s)
  | None => (b, None, (leftB - length b)%nat, s)
  end.
Definition tls_Read (started : bool) (leftB n avail : nat) (s : list byte) : list byte * option error * nat * list byte :=
  let s := if started then s else drop 102 s in
  if (leftB =? 0)%nat then
    match ReadFull 2 (drop 3 s) with
    | Ok (l, s) => tls_data (Z.to_nat (be_val l)) n avail s
    | Err e => ([], Some e, leftB, [])
    | _ => ([], Some EOF, leftB, [])
    end
  else tls_data leftB n avail s.
Fixpoint tls_reads (started : bool) (leftB : nat) (bufs : list (nat * nat)) (s : list byte) : list (list byte * option error) :=
  match bufs with
  | [] => []
  | (n, avail) :: bufs =>
      let '(b, e, leftB, s) := tls_Read started leftB n avail s in (b, e) :: tls_reads true leftB bufs s
  end.
End Obfs.

(** * proxy/obfs: behind its disguise a connection is the plain connection. *)
Import Obfs.

(** ** HTTP *)

Definition head_line (l : list byte) : Prop := l ≠ [] ∧ c_lf ∉ l ∧ Z.of_nat (length l) + 1 < 4096.

Lemma bufioSize_val : Z.of_nat bufioSize = 4096.
Proof. unfold bufioSize. lia. Qed.
#[local] Opaque bufioSize.

Lemma readline_crlf l s : c_lf ∉ l → Z.of_nat (length l) + 1 < 4096 → bufio_ReadLine (l ++ Http.crlf ++ s) = Ok (l, s).
Proof.
  intros Hl Hn. pose proof bufioSize_val as Hb. unfold bufio_ReadLine.
  assert (l ++ Http.crlf ++ s = (l ++ [c_cr]) ++ c_lf :: s) as -> by (by rewrite <- app_assoc).
  rewrite take_app_ge by (rewrite length_app; simpl; lia).
  destruct (bufioSize - length (l ++ [c_cr]))%nat as [|k] eqn:E; [rewrite length_app in E; simpl in E; lia|].
  cbn [take]. rewrite index_byte_app by (rewrite not_elem_of_app; split; [done|by rewrite list_elem_of_singleton]).
  rewrite take_app_length, last_snoc, bool_decide_eq_true_2 by done. f_equal. f_equal.
  - rewrite length_app, <- app_assoc. apply take_app_length'. simpl. lia.
  - change (c_lf :: s) with ([c_lf] ++ s). rewrite app_assoc. apply drop_app_length'. rewrite !length_app. simpl. lia.
Qed.

Lemma skip_header_ok lines s fuel :
  Forall head_line lines → (length lines < fuel)%nat →
  skip_header fuel (concat (map (λ l, l ++ Http.crlf) lines) ++ Http.crlf ++ s) = Ok s.
Proof.
  intros Hl. revert fuel. induction Hl as [|l lines (Hne & Hlf & Hlen) Hls IH]; intros [|fuel] Hf; simpl in Hf; try lia.
  - cbn [map concat skip_header]. rewrite app_nil_l. pose proof (readline_crlf [] s) as H. rewrite app_nil_l in H.
    rewrite H; [done|set_solver|done].
  - cbn [map concat skip_header]. rewrite <- !app_assoc, readline_crlf by done. rewrite bind_ret.
    rewrite (proj2 (Nat.eqb_neq _ _)) by (by destruct l). apply IH. lia.
Qed.

Lemma http_reads_started bufs s : http_reads true bufs s = Ok (plain_reads bufs s).
Proof.
  revert s. induction bufs as [|[n avail] bufs IH]; intros s; [done|]. cbn [http_reads plain_reads]. unfold http_Read.
  rewrite bind_ret. destruct (plain_Read n avail s) as [[b e] s']. by rewrite IH, bind_ret.
Qed.

Definition http_head (lines : list (list byte)) : list byte := concat (map (λ l, l ++ Http.crlf) lines) ++ Http.crlf.

(** After any response head whose lines are each shorter than the reader's buffer, the
    reads of an HTTP-disguised connection are those of the plain connection that carries
    the data after it. *)
Theorem obfs_http_transparent lines data bufs :
  Forall head_line lines → http_reads false bufs (http_head lines ++ data) = Ok (plain_reads bufs data).
Proof.
  intros Hl. destruct bufs as [|[n avail] bufs]; [done|]. rewrite <- http_reads_started. cbn [http_reads].
  unfold http_Read at 1. unfold http_head. rewrite <- app_assoc, skip_header_ok; [done|done|].
  rewrite !length_app. assert (length lines <= length (concat (map (λ l, l ++ Http.crlf) lines)))%nat; [|lia].
  clear. induction lines as [|l lines IH]; simpl; [lia|]. rewrite !length_app. simpl. lia.
Qed.

(** ** TLS records *)

Lemma obfs_chunkSize_val : Z.of_nat chunkSize = 8192.
Proof. unfold chunkSize. change (Z.shiftl 1 13) with 8192. lia. Qed.
#[local] Opaque chunkSize.

Definition record_ok (p : list byte) : Prop := p ≠ [] ∧ Z.of_nat (length p) < 2 ^ 16.
Definition records (ps : list (list byte)) : list byte := concat (map tls_record ps).

Lemma tls_data_ok cur n avail s :
  tls_data (length cur) n avail (cur ++ s) =
    (take (ready n avail) cur, None, length (drop (ready n avail) cur), drop (ready n avail) cur ++ s).
Proof.
  unfold tls_data, ready.
  assert ((if (length cur <? n)%nat then length cur else n) = Nat.min (length cur) n) as ->
    by (destruct (Nat.ltb_spec (length cur) n); lia).
  destruct cur as [|x cur]; [cbn [length Nat.min plain_Read]; by rewrite take_nil, drop_nil|].
  destruct n as [|n]; [cbn [Nat.min length plain_Read take drop]; f_equal; f_equal; lia|].
  set (m := Nat.min (length (x :: cur)) (S n)).
  assert (plain_Read m avail ((x :: cur) ++ s) =
    (take (ready m avail) ((x :: cur) ++ s), None, drop (ready m avail) ((x :: cur) ++ s))) as ->.
  { assert (0 < m)%nat by (unfold m; simpl; lia). by destruct m; [lia|]. }
  assert (ready m avail <= length (x :: cur))%nat by (unfold ready, m; lia).
  rewrite take_app_le, drop_app_le by done.
  assert (take (ready m avail) (x :: cur) = take (Nat.min (S n) (Nat.max 1 avail)) (x :: cur) ∧
          drop (ready m avail) (x :: cur) = drop (Nat.min (S n) (Nat.max 1 avail)) (x :: cur)) as [-> ->].
  { unfold ready, m. destruct (Nat.le_ge_cases (Nat.min (S n) (Nat.max 1 avail)) (length (x :: cur))).
    - by replace (Nat.min (Nat.min (length (x :: cur)) (S n)) (Nat.max 1 avail)) with (Nat.min (S n) (Nat.max 1 avail)) by lia.
    - rewrite !(take_ge _ _), !(drop_ge _ _) by lia. done. }
  f_equal. f_equal. rewrite length_take, length_drop. lia.
Qed.

Lemma tls_reads_going bufs : ∀ cur ps,
  Forall record_ok ps →
  tls_reads true (length cur) bufs (cur ++ records ps) = msg_reads (cur, ps) (map (λ '(n, avail), ready n avail) bufs).
Proof.
  induction bufs as [|[n avail] bufs IH]; intros cur ps Hps; [done|]. cbn [tls_reads map msg_reads]. unfold tls_Read.
  destruct cur as [|x cur].
  - destruct Hps as [|p ps [Hne Hp] Hps]; [f_equal; apply (IH [] []); constructor|].
    cbn [length Nat.eqb msg_Read]. unfold records. cbn [map concat]. fold (records ps). unfold tls_record.
    rewrite <- !app_assoc, app_nil_l. change (drop 3 (bytes [0x17; 0x03; 0x03] ++ ?l)) with l.
    change (0 =? 0)%nat with true. cbv iota. rewrite ReadFull_exact by apply length_be_bytes.
    rewrite be16_id by (unfold u16; pose proof (Z.mod_pos_bound (Z.of_nat (length p)) (2 ^ 16)); lia).
    unfold u16. rewrite Z.mod_small, Nat2Z.id by lia. rewrite tls_data_ok. f_equal. by apply IH.
  - change (length (x :: cur) =? 0)%nat with false. cbv iota. rewrite tls_data_ok. cbn [msg_Read]. f_equal. by apply IH.
Qed.

(** The records of a [Write]. *)
Lemma tls_write_ok fuel : ∀ i b, (length b <= fuel)%nat →
  ∃ ps, tls_write (λ _, None) fuel i b = Ok (map tls_record ps, None) ∧ concat ps = b ∧
        Forall (λ p, p ≠ [] ∧ Z.of_nat (length p) <= 8192) ps.
Proof.
  induction fuel as [|fuel IH]; intros i [|x b] Hf; try (by exists []); [simpl in Hf; lia|]. pose proof obfs_chunkSize_val.
  cbn [tls_write]. destruct (IH (S i) (drop chunkSize (x :: b))) as (ps & -> & Hc & Hp); [rewrite length_drop; simpl in *; lia|].
  exists (take chunkSize (x :: b) :: ps). rewrite bind_ret. split; [done|]. cbn [concat]. rewrite Hc, take_drop. split; [done|].
  constructor; [|done]. split; [|rewrite length_take; lia]. intros E%(f_equal length). rewrite length_take in E. simpl in E. lia.
Qed.

(** The records of a write on a TLS-disguised connection are application data of at most
    8192 bytes each and carry exactly what was written; a connection that carries such
    records after the 102 bytes of the server's hello is read as the queue of their
    contents, for any buffers and any timing. *)
Theorem obfs_tls_transparent p now random sid hello b bufs :
  length hello = 102%nat →
  ∃ ps, tls_Write p now random sid (λ _, None) true b = Ok (map tls_record ps, Z.of_nat (length b), None) ∧
    concat ps = b ∧ Forall (λ p, p ≠ [] ∧ Z.of_nat (length p) <= 8192) ps ∧
    tls_reads false 0 bufs (hello ++ records ps) = msg_reads ([], ps) (map (λ '(n, avail), ready n avail) bufs).
Proof.
  intros Hh. unfold tls_Write. destruct (tls_write_ok (length b) 0 b) as (ps & -> & Hc & Hp); [done|].
  exists ps. rewrite bind_ret. repeat split; [done|done|].
  destruct bufs as [|[n avail] bufs]; [done|]. rewrite <- tls_reads_going.
  - cbn [tls_reads]. unfold tls_Read at 1. by rewrite drop_app_length'.
  - eapply Forall_impl; [done|]. intros q [Hne Hq]. split; [done|lia].
Qed.

(** ** The client hello *)

(** A reader of TLS client hellos (RFC 5246) that checks every length it meets. *)
Definition rd_guard (c : bool) : rd unit := if c then rd_ret tt else rd_fail "malformed".
Definition rd_inside {A} (m : rd A) (l : list byte) : rd A :=
  match m ([], l) with (Ok a, (_, [])) => rd_ret a | _ => rd_fail "malformed" end.
Definition vec (k : nat) : rd (list byte) := rd_bind (rd_full k) (λ l, rd_full (Z.to_nat (be_val l))).
Fixpoint read_exts (fuel : nat) (s : list byte) : option (list (Z * list byte)) :=
  match fuel, s with
  | _, [] => Some []
  | S fuel, a :: b :: c :: d :: s =>
      let n := Z.to_nat (be_val [c; d]) in
      if (n <=? length s)%nat then cons (be_val [a; b], take n s) <$> read_exts fuel (drop n s) else None
  | _, _ => None
  end.
Definition read_body : rd (list (Z * list byte)) :=
  (v <- rd_full 2 ;; rd_full 32 ;;; vec 1 ;;; vec 2 ;;; vec 1 ;;;
   ex <- vec 2 ;; match read_exts (length ex) ex with Some l => rd_ret l | None => rd_fail "malformed" end)%rd.
Definition read_handshake : rd (list (Z * list byte)) :=
  (t <- rd_full 1 ;; rd_guard (bool_decide (t = bytes [0x01])) ;;; body <- vec 3 ;; rd_inside read_body body)%rd.
Definition read_hello : rd (list (Z * list byte)) :=
  (h <- rd_full 3 ;; rd_guard (bool_decide (h = bytes [0x16; 0x03; 0x01])) ;;;
   record <- vec 2 ;; rd_inside read_handshake record)%rd.

Lemma exact_guard c : c = true → reads_exactly (rd_guard c) [] tt.
Proof. intros ->. apply exact_ret. Qed.
Lemma exact_inside {A} (m : rd A) l a : reads_exactly m l a → rd_inside m l = rd_ret a.
Proof. intros H. unfold rd_inside. specialize (H [] []). rewrite app_nil_r in H. by rewrite H. Qed.
Lemma exact_vec k z l :
  z mod 256 ^ Z.of_nat k = Z.of_nat (length l) → reads_exactly (vec k) (be_bytes k z ++ l) l.
Proof.
  intros Hz. unfold vec. eapply exact_bind; [apply exact_full, length_be_bytes|]. apply exact_full.
  by rewrite be_val_bytes, Hz, Nat2Z.id.
Qed.

Definition ext (t : Z) (d : list byte) : list byte := be_bytes 2 t ++ be_bytes 2 (Z.of_nat (length d)) ++ d.

Lemma read_exts_ok l fuel :
  Forall (λ '(t, d), 0 <= t < 2 ^ 16 ∧ Z.of_nat (length d) < 2 ^ 16) l → (length l <= fuel)%nat →
  read_exts fuel (concat (map (λ '(t, d), ext t d) l)) = Some l.
Proof.
  intros Hl. revert fuel. induction Hl as [|[t d] l [Ht Hd] Hls IH]; intros [|fuel] Hf; simpl in Hf; try lia; [done..|].
  cbn [map concat]. unfold ext. rewrite <- !app_assoc.
  pose proof (be16_id t Ht) as Et. pose proof (be16_id (Z.of_nat (length d)) ltac:(lia)) as Ed.
  pose proof (length_be_bytes 2 t) as Lt. pose proof (length_be_bytes 2 (Z.of_nat (length d))) as Ld.
  destruct (be_bytes 2 t) as [|x [|y [|]]]; try done. destruct (be_bytes 2 (Z.of_nat (length d))) as [|z [|w [|]]]; try done.
  cbn [app read_exts]. rewrite Et, Ed, Nat2Z.id, length_app, (proj2 (Nat.leb_le _ _)) by lia.
  rewrite take_app_length, drop_app_length. by rewrite IH by lia.
Qed.

(** What the hello carries: the data as a session ticket, and the host as the server name. *)
Definition server_name (host : list byte) : list byte :=
  be_bytes 2 (Z.of_nat (length host) + 3) ++ bytes [0x00] ++ be_bytes 2 (Z.of_nat (length host)) ++ host.
Definition hello_exts (b host : list byte) : list (Z * list byte) :=
  [(0x23, b); (0, server_name host); (0x0b, bytes [0x03; 0x01; 0x00; 0x02]);
   (0x0a, bytes [0x00; 0x08; 0x00; 0x1d; 0x00; 0x17; 0x00; 0x19; 0x00; 0x18]);
   (0x0d, bytes [0x00; 30; 0x06; 0x01; 0x06; 0x02; 0x06; 0x03; 0x05; 0x01; 0x05; 0x02; 0x05; 0x03; 0x04; 0x01; 0x04; 0x02;
                 0x04; 0x03; 0x03; 0x01; 0x03; 0x02; 0x03; 0x03; 0x02; 0x01; 0x02; 0x02; 0x02; 0x03]);
   (0x16, []); (0x17, [])].

Lemma length_server_name host : length (server_name host) = (length host + 5)%nat.
Proof. unfold server_name. rewrite !length_app, !length_be_bytes. simpl. lia. Qed.

Lemma extension_exts b host :
  Z.of_nat (length b) + Z.of_nat (length host) + 212 < 2 ^ 16 →
  extension b host = concat (map (λ '(t, d), ext t d) (hello_exts b host)).
Proof.
  intros H. unfold extension, len16, u16, hello_exts. cbn [map concat]. unfold ext.
  rewrite !Z.mod_small, Z.add_0_r, length_server_name by lia. unfold server_name. rewrite <- !app_assoc.
  replace (Z.of_nat (length host + 5)) with (Z.of_nat (length host) + 5) by lia.
  replace (Z.of_nat (length host) + 0) with (Z.of_nat (length host)) by lia. by rewrite !app_nil_r.
Qed.

Lemma length_extension b host : length (extension b host) = (length b + length host + 79)%nat.
Proof. unfold extension, len16. rewrite !length_app, !length_be_bytes. unfold bytes. rewrite !length_map. simpl length. lia. Qed.

Lemma length_clientHello now random sid :
  length random = 28%nat → length sid = 32%nat → length (clientHello now random sid) = 127%nat.
Proof. intros Hr Hs. unfold clientHello, bytes. by rewrite !length_app, !length_be_bytes, Hr, Hs, !length_map. Qed.

Lemma hello_body_ok now random sid b host :
  length random = 28%nat → length sid = 32%nat → Z.of_nat (length b) + Z.of_nat (length host) + 212 < 2 ^ 16 →
  reads_exactly read_body
    (clientHello now random sid ++ be_bytes 2 (u16 (Z.of_nat (length (extension b host)))) ++ extension b host)
    (hello_exts b host).
Proof.
  intros Hr Hs Hfit. set (ex := extension b host).
  assert (length ex = length b + length host + 79)%nat as Hex by apply length_extension.
  unfold clientHello, read_body. rewrite <- !app_assoc.
  eapply exact_bind; [by apply exact_full|].
  rewrite (app_assoc (be_bytes 4 _)). eapply exact_bind; [apply exact_full; by rewrite length_app, length_be_bytes, Hr|].
  change (bytes [32]) with (be_bytes 1 32). rewrite (app_assoc (be_bytes 1 _)).
  eapply exact_bind; [apply exact_vec; by rewrite Hs|].
  rewrite (app_assoc (be_bytes 2 56)). eapply exact_bind; [by apply exact_vec|].
  change (bytes [0x01]) with (be_bytes 1 1). rewrite (app_assoc (be_bytes 1 _)).
  eapply exact_bind; [by apply exact_vec|].
  rewrite <- (app_nil_r (_ ++ ex)). eapply exact_bind.
  { apply exact_vec. unfold u16. change (256 ^ Z.of_nat 2) with (2 ^ 16). by rewrite !Z.mod_small by (rewrite ?Z.mod_small; lia). }
  unfold ex in *. rewrite extension_exts in * by done. rewrite read_exts_ok; [apply exact_ret| |rewrite Hex; simpl; lia].
  unfold hello_exts. repeat (constructor; [rewrite ?length_server_name; simpl; lia|]). constructor.
Qed.

(** The first write of a TLS-disguised connection is a well-formed TLS client hello,
    every length in it right, whose session ticket is exactly the data and whose server
    name is the configured host, as long as the whole fits in a record. *)
Theorem obfs_tls_hello p now random sid b :
  length random = 28%nat → length sid = 32%nat →
  Z.of_nat (length b) + Z.of_nat (length (o_host p)) + 212 < 2 ^ 16 →
  reads_exactly read_hello (tls_handshake p now random sid b) (hello_exts b (o_host p)).
Proof.
  intros Hr Hs Hfit. unfold tls_handshake.
  set (hello := clientHello now random sid). set (ex := extension b (o_host p)).
  assert (length ex = length b + length (o_host p) + 79)%nat as Hex by apply length_extension.
  assert (length hello = 127%nat) as Hh by (by apply length_clientHello).
  pose proof (hello_body_ok now random sid b (o_host p) Hr Hs Hfit) as Hbody. fold hello ex in Hbody.
  unfold read_hello. rewrite app_assoc. eapply exact_bind; [by apply exact_full|].
  rewrite <- (app_nil_l (be_bytes 2 _ ++ _)). eapply exact_bind; [by apply exact_guard|].
  rewrite <- (app_nil_r (be_bytes 2 _ ++ _)). eapply exact_bind.
  { apply exact_vec. unfold u16. change (256 ^ Z.of_nat 2) with (2 ^ 16).
    rewrite !length_app, !length_be_bytes, Hh, Hex. simpl length. rewrite !Z.mod_small by (rewrite ?Z.mod_small; lia). lia. }
  erewrite exact_inside; [apply exact_ret|]. unfold read_handshake. eapply exact_bind; [by apply exact_full|].
  rewrite <- (app_nil_l (be_bytes 3 _ ++ _)). eapply exact_bind; [by apply exact_guard|].
  rewrite <- (app_nil_r (be_bytes 3 _ ++ _)). eapply exact_bind.
  { apply exact_vec. rewrite !length_app, !length_be_bytes, Hh, Hex. rewrite Z.mod_small by (simpl; lia). lia. }
  erewrite exact_inside; [apply exact_ret|done].
Qed.

(** ** Concrete connections *)

Definition demo_obfs : Obfs := MkObfs (lit "1.2.3.4:80") (lit "tls") (lit "www.example.com") (lit "/") defaultUA.

Lemma obfs_http_transparent_witness :
  http_reads false [(4%nat, 100%nat); (100%nat, 100%nat); (8%nat, 8%nat)]
    (http_head [lit "HTTP/1.1 101 Switching Protocols"; lit "Upgrade: websocket"] ++ lit "hello world") =
  Ok [(lit "hell", None); (lit "o world", None); ([], Some EOF)].
Proof.
  rewrite obfs_http_transparent; [by vm_compute|]. repeat constructor; vm_compute; try done; set_solver.
Defined.

Lemma obfs_tls_transparent_witness :
  ∃ ps, tls_Write demo_obfs 0 [] [] (λ _, None) true (lit "hello world") = Ok (map tls_record ps, 11, None) ∧
    concat ps = lit "hello world" ∧
    tls_reads false 0 [(4%nat, 100%nat); (100%nat, 100%nat); (8%nat, 8%nat)] (replicate 102 x00 ++ records ps) =
      msg_reads ([], ps) [4; 100; 8]%nat.
Proof.
  destruct (obfs_tls_transparent demo_obfs 0 [] [] (replicate 102 x00) (lit "hello world")
    [(4%nat, 100%nat); (100%nat, 100%nat); (8%nat, 8%nat)] eq_refl) as (ps & H1 & H2 & _ & H3).
  exists ps. split; [exact H1|]. split; [exact H2|exact H3].
Defined.

Lemma obfs_tls_hello_witness :
  ∃ rest, reads_exactly read_hello (tls_handshake demo_obfs 1700000000 (replicate 28 x01) (replicate 32 x02) (lit "first data"))
    ((0x23, lit "first data") :: (0, server_name (lit "www.example.com")) :: rest).
Proof.
  eexists. apply (obfs_tls_hello demo_obfs 1700000000 (replicate 28 x01) (replicate 32 x02) (lit "first data")); [done|done|].
  simpl. lia.
Defined.
