(* ===== verification/Socks4.v ===== *)
(** proxy/socks4: the client, against a reading of the SOCKS 4 and 4a protocols. *)
From S2P Require Import Prelude GoStd SocksAddr Dialogue.

Module Socks4.

Record SOCKS4 := MkSOCKS4 { s_addr : list byte; socks4a : bool }.

Definition Version : byte := x04.
Definition ConnectCommand : byte := x01.

(** [NewSOCKS4] of a URL's host and scheme. *)
Definition NewSOCKS4 (host scheme : list byte) : SOCKS4 := MkSOCKS4 host (bool_decide (scheme = lit "socks4a")).

(** [net.IP.To4] and [net.ParseIP]. *)
Definition To4 (ip : list byte) : option (list byte) :=
  if (length ip =? 4)%nat then Some ip else if (length ip =? 16)%nat then mapped4 ip else None.
Definition As16 (a : Addr) : list byte :=
  match a with Addr4 x => replicate 10 x00 ++ [xff; xff] ++ x | Addr6 x _ => x end.
Definition ParseIP (s : list byte) : option (list byte) :=
  match ParseAddr s with
  | Ok a => if bool_decide (addr_zone a = []) then Some (As16 a) else None
  | _ => None
  end.

Definition ErrResolve (host : list byte) : error :=
  String.append "[socks4] Cannot resolve host: " (String.string_of_list_byte host).
Definition ErrIPv6 : error := "[socks4] IPv6 is not supported by socks4".
Definition ErrPort (port : list byte) : error :=
  String.append "[socks4] failed to parse port number: " (String.string_of_list_byte port).
Definition ErrReply (s : SOCKS4) (e : error) : error :=
  String.append "[socks4] failed to read greeting from socks4 proxy at "
    (String.append (String.string_of_list_byte (s_addr s)) (String.append ": " e)).
Definition reply_error (b : byte) : option error :=
  if bool_decide (b = x5a) then None
  else if bool_decide (b = x5b) then Some "[socks4] connection request rejected or failed"%string
  else if bool_decide (b = x5c) then
    Some "[socks4] connection request request failed because client is not running identd (or not reachable from the server)"%string
  else if bool_decide (b = x5d) then
    Some "[socks4] connection request request failed because client's identd could not confirm the user ID in the request"%string
  else Some "[socks4] connection request failed, unknown error"%string.

(** [lookup] is [net.LookupIP]. *)
Definition lookupIP (lookup : list byte → list (list byte) + error) (host : list byte) : list byte + error :=
  match lookup host with
  | inr e => inr e
  | inl [] => inr (ErrResolve host)
  | inl (ip :: _) => match To4 ip with Some ip => inl ip | None => inr ErrIPv6 end
  end.

(** [copy(buf[i:], src)]. *)
Definition copy_at (buf : list byte) (i : nat) (src : list byte) : list byte :=
  take i buf ++ take (length buf - i) src ++ drop (i + length src) buf.

(** The address to ask for, and the length of the request. *)
Definition destination (s : SOCKS4) (lookup : list byte → list (list byte) + error) (host : list byte)
    : (list byte * nat) + error :=
  match ParseIP host with
  | None =>
      if socks4a s then inl ([x00; x00; x00; x01], (9 + length host + 1)%nat)
      else match lookupIP lookup host with inl ip => inl (ip, 9%nat) | inr e => inr e end
  | Some ip => match To4 ip with Some ip => inl (ip, 9%nat) | None => inr ErrIPv6 end
  end.

(** [connect]; [stale n] is what the pool's buffer of length [n] holds. *)
Definition connect (s : SOCKS4) (lookup : list byte → list (list byte) + error) (stale : nat → list byte)
    (target : list byte) : proc unit :=
  match SplitHostPort target with
  | Ok (host, portStr) =>
      match parse_uint portStr 16 with
      | (_, Some _) => Stop (Err (ErrPort portStr))
      | (port, None) =>
          match destination s lookup host with
          | inl (ip, bufSize) =>
              let buf := copy_at (stale bufSize) 0
                           ([Version; ConnectCommand; z2b (Z.shiftr port 8); z2b port] ++ take 4 ip ++ [x00]) in
              let buf := if socks4a s then <[(bufSize - 1)%nat := x00]> (copy_at buf 9 host) else buf in
              Send buf (Recv 8 (ErrReply s) (λ resp,
                match reply_error (nth 1 resp x00) with None => Stop (Ok tt) | Some e => Stop (Err e) end))
          | inr e => Stop (Err e)
          end
      end
  | Err e => Stop (Err e)
  | Panic => Stop Panic
  | OutOfFuel => Stop OutOfFuel
  end.

(** [Dial]: [dial] is the error of the dialer below, if any; the connection is closed
    when [connect] fails. *)
Definition Dial (s : SOCKS4) (dial : option error) (lookup : list byte → list (list byte) + error)
    (stale : nat → list byte) (network addr : list byte) : proc unit :=
  if bool_decide (network = lit "tcp") || bool_decide (network = lit "tcp4") then
    match dial with
    | Some e => Stop (Err e)
    | None => connect s lookup stale addr
    end
  else Stop (Err (String.append "[socks4] no support for connection type " (String.string_of_list_byte network))).
End Socks4.
Import Socks4.

(** ** The protocol *)

(** What a SOCKS 4 request asks for; with 4a, an address 0.0.0.x, x not zero, says that
    a name follows the user id. *)
Inductive dest := ByAddr (ip : list byte) | ByName (host : list byte).
Definition name_follows (ip : list byte) : bool := bool_decide (take 3 ip = [x00; x00; x00]) && negb (bool_decide (drop 3 ip = [x00])).
Definition read_request (s : list byte) : option (Z * dest * list byte) :=
  match s with
  | v :: c :: p1 :: p2 :: i1 :: i2 :: i3 :: i4 :: s =>
      if bool_decide (v = x04) && bool_decide (c = x01) then
        '(_, s) ← cut_byte s x00;
        let ip := [i1; i2; i3; i4] in
        if name_follows ip then '(host, s) ← cut_byte s x00; Some (be_val [p1; p2], ByName host, s)
        else Some (be_val [p1; p2], ByAddr ip, s)
      else None
  | _ => None
  end.

(** Where a target means to go. *)
Definition meant (s : SOCKS4) (lookup : list byte → list (list byte) + error) (host : list byte) : dest + error :=
  match ParseIP host with
  | Some ip => match To4 ip with Some ip => inl (ByAddr ip) | None => inr ErrIPv6 end
  | None => if socks4a s then inl (ByName host)
            else match lookupIP lookup host with inl ip => inl (ByAddr ip) | inr e => inr e end
  end.

Lemma To4_length ip ip4 : To4 ip = Some ip4 → length ip4 = 4%nat.
Proof.
  unfold To4. destruct (Nat.eqb_spec (length ip) 4); [by intros [= <-]|].
  destruct (Nat.eqb_spec (length ip) 16); [|done]. unfold mapped4. case_bool_decide; [|done].
  intros [= <-]. rewrite length_drop. lia.
Qed.

Lemma copy_at_prefix buf src : (length src <= length buf)%nat → copy_at buf 0 src = src ++ drop (length src) buf.
Proof. intros H. unfold copy_at. rewrite Nat.sub_0_r. by rewrite (take_ge src) by lia. Qed.
Lemma copy_at_0 buf src : length src = length buf → copy_at buf 0 src = src.
Proof. intros H. rewrite copy_at_prefix, drop_ge by lia. apply app_nil_r. Qed.

Lemma copy_at_end n buf src : length buf = n → copy_at buf n src = buf.
Proof.
  intros <-. unfold copy_at. rewrite Nat.sub_diag, firstn_all, drop_ge by lia. cbn [take]. by rewrite !app_nil_r.
Qed.

(** The request on the wire: whatever the pool's buffer held. *)
Lemma request_bytes h host (buf : list byte) :
  length h = 9%nat → length buf = (9 + length host + 1)%nat →
  <[(9 + length host + 1 - 1)%nat := x00]> (copy_at (copy_at buf 0 h) 9 host) = h ++ host ++ [x00].
Proof.
  intros Hh Hb. rewrite copy_at_prefix by lia. unfold copy_at.
  rewrite take_app_length' by done. rewrite length_app, length_drop, Hh, Hb.
  rewrite take_ge by lia. rewrite drop_app_ge by lia. rewrite drop_drop, Hh.
  replace (9 + (9 + length host - 9))%nat with (9 + length host)%nat by lia.
  assert (length (drop (9 + length host) buf) = 1%nat) as Hl by (rewrite length_drop; lia).
  destruct (drop (9 + length host) buf) as [|y [|]]; try done.
  rewrite app_assoc, insert_app_r_alt by (rewrite length_app; lia).
  replace (_ - _)%nat with 0%nat by (rewrite length_app; lia). by rewrite <- app_assoc.
Qed.

Lemma header_length p1 p2 ip : length ip = 4%nat → length ([Version; ConnectCommand; p1; p2] ++ take 4 ip ++ [x00]) = 9%nat.
Proof. intros H. rewrite !length_app, length_take, H. done. Qed.

Lemma read_request_ok port ip t :
  0 <= port < 2 ^ 16 → length ip = 4%nat →
  read_request (([Version; ConnectCommand; z2b (Z.shiftr port 8); z2b port] ++ take 4 ip ++ [x00]) ++ t) =
    if name_follows ip then '(host, s) ← cut_byte t x00; Some (port, ByName host, s) else Some (port, ByAddr ip, t).
Proof.
  intros Hp Hip. destruct ip as [|a [|b [|c [|d [|]]]]]; try done. rewrite <- !app_assoc.
  cbn [take app read_request]. rewrite !bool_decide_eq_true_2 by done. cbn [andb].
  change (cut_byte (x00 :: t) x00) with (Some (@nil byte, t)). cbn [mbind option_bind].
  assert (be_val [z2b (Z.shiftr port 8); z2b port] = port) as ->; [|done].
  transitivity (be_val (be_bytes 2 port)); [|apply be16_id; lia]. f_equal.
  rewrite Z.shiftr_div_pow2 by lia. change (be_bytes 2 port) with [z2b (port / 2 ^ 8); z2b (port / 1)].
  by rewrite Z.div_1_r.
Qed.

Lemma destination_meant s lookup host :
  match meant s lookup host with
  | inl (ByName h) => h = host ∧ socks4a s = true ∧ destination s lookup host = inl ([x00; x00; x00; x01], (9 + length host + 1)%nat)
  | inl (ByAddr ip) => length ip = 4%nat ∧ destination s lookup host = inl (ip, 9%nat)
  | inr e => destination s lookup host = inr e
  end.
Proof.
  unfold meant, destination. destruct (ParseIP host) as [ip|].
  - destruct (To4 ip) eqn:E; [|done]. split; [by eapply To4_length|done].
  - destruct (socks4a s); [done|]. unfold lookupIP. destruct (lookup host) as [[|ip ips]|]; try done.
    destruct (To4 ip) eqn:E; [|done]. split; [by eapply To4_length|done].
Qed.

(** A SOCKS 4 request says what was meant: when the target resolves, the server reads
    from it exactly the port and the address (or, with 4a, the name) and nothing is left
    over, whatever the pool's buffer held before; the dial succeeds exactly when the second
    byte of the reply grants it, and the stream after the eight bytes of the reply is the
    remote's.  When the target does not resolve, the error comes before anything is sent. *)
Theorem socks4_connect s lookup stale host portStr port target reply rest :
  (∀ n, length (stale n) = n) →
  SplitHostPort target = Ok (host, portStr) → parse_uint portStr 16 = (port, None) → length reply = 8%nat →
  match meant s lookup host with
  | inl d =>
      match d with ByAddr ip => name_follows ip = false | ByName h => x00 ∉ h end →
      ∃ req, feed (connect s lookup stale target) (reply ++ rest) =
             (if bool_decide (nth 1 reply x00 = x5a) then Ok tt else Err (default EOF (reply_error (nth 1 reply x00))),
              req, rest) ∧
        read_request req = Some (port, d, [])
  | inr e => feed (connect s lookup stale target) (reply ++ rest) = (Err e, [], reply ++ rest)
  end.
Proof.
  intros Hst Hs Hp Hr. pose proof (destination_meant s lookup host) as Hd. unfold connect. rewrite Hs, Hp.
  assert (0 <= port < 2 ^ 16) as Hport by (pose proof (parse_uint_range portStr 16); rewrite Hp in *; simpl in *; lia).
  assert (∀ req, feed (Send req (Recv 8 (ErrReply s) (λ resp,
    match reply_error (nth 1 resp x00) with None => Stop (Ok tt) | Some e => Stop (Err e) end))) (reply ++ rest) =
    (if bool_decide (nth 1 reply x00 = x5a) then Ok tt else Err (default EOF (reply_error (nth 1 reply x00))), req, rest)) as Hfeed.
  { intros req. cbn [feed]. rewrite ReadFull_exact by done. unfold reply_error.
    case_bool_decide; cbn [feed]; [by rewrite app_nil_r|]. by repeat case_bool_decide; cbn [feed default]; rewrite app_nil_r. }
  destruct (meant s lookup host) as [[ip|h]|e].
  - destruct Hd as [Hip ->]. intros Hn. eexists. split; [apply Hfeed|]. rewrite (copy_at_0 (stale 9%nat)) by (by rewrite header_length, Hst).
    pose proof (read_request_ok port ip [] Hport Hip) as Hread. rewrite Hn, app_nil_r in Hread. destruct (socks4a s); [|done].
    rewrite copy_at_end by (by apply header_length).
    destruct ip as [|i1 [|i2 [|i3 [|i4 [|]]]]]; done.
  - destruct Hd as (-> & E4 & ->). intros Hn. eexists. split; [apply Hfeed|]. rewrite E4.
    rewrite request_bytes by (rewrite ?Hst; done). rewrite read_request_ok by done.
    change (name_follows [x00; x00; x00; x01]) with true. cbv iota.
    unfold cut_byte. rewrite index_byte_app by done. cbn [mbind option_bind].
    rewrite take_app_length. rewrite drop_ge; [done|]. rewrite length_app. simpl. lia.
  - by rewrite Hd.
Qed.

(** ** Concrete requests *)

Definition demo_granted : list byte := [x00; x5a; x00; x00; x00; x00; x00; x00].

Lemma socks4_connect_witness :
  ∃ req, feed (connect (MkSOCKS4 (lit "127.0.0.1:1080") true) (λ _, inr EOF) (λ n, replicate n xff) (lit "example.com:443"))
           (demo_granted ++ lit "hi") = (Ok tt, req, lit "hi") ∧
    read_request req = Some (443, ByName (lit "example.com"), []).
Proof.
  pose proof (socks4_connect (MkSOCKS4 (lit "127.0.0.1:1080") true) (λ _, inr EOF) (λ n, replicate n xff)
    (lit "example.com") (lit "443") 443 (lit "example.com:443") demo_granted (lit "hi")) as H.
  assert (meant (MkSOCKS4 (lit "127.0.0.1:1080") true) (λ _, inr EOF) (lit "example.com") = inl (ByName (lit "example.com")))
    as E by (vm_compute; reflexivity).
  assert ((if bool_decide (nth 1 demo_granted x00 = x5a) then Ok tt else Err (default EOF (reply_error (nth 1 demo_granted x00)))) = Ok tt)
    as Eg by (vm_compute; reflexivity).
  rewrite E, Eg in H. apply H.
  - intros n. apply length_replicate.
  - by vm_compute.
  - by vm_compute.
  - done.
  - apply (bool_decide_unpack _). vm_compute. done.
Defined.

(** A zero byte in the name ends it early for the server, which takes the rest for data. *)
Example socks4a_name_cut :
  let '(_, req, _) := feed (connect (MkSOCKS4 [] true) (λ _, inr EOF) (λ n, replicate n xff) (lit "a" ++ [x00] ++ lit "GET:80"))
                        demo_granted in
  read_request req = Some (80, ByName (lit "a"), lit "GET" ++ [x00]).
Proof. by vm_compute. Qed.
