(* ===== verification/PxyProto.v ===== *)
(** proxy/pxyproto and proxy/mixed: servers in front of other servers.

    [resolve] is [net.ResolveTCPAddr] of the text of an address. *)
From S2P Require Import Prelude GoStd SocksAddr Dialogue Socks5 HttpHead Http.

Module Pxy.
Section Pxy.
Context {A : Type} (resolve : list byte → A + error).

(** [bufio.Reader.ReadString('\n')]. *)
Definition ReadString (s : list byte) : (list byte * list byte) + error :=
  match index_byte s c_lf with
  | Some i => inl (take (S i) s, drop (S i) s)
  | None => inr EOF
  end.

(** [strings.ReplaceAll(line, "\r\n", "")]. *)
Fixpoint remove_crlf (s : list byte) : list byte :=
  match s with
  | a :: ((b :: s'') as s') =>
      if bool_decide (a = c_cr) && bool_decide (b = c_lf) then remove_crlf s'' else a :: remove_crlf s'
  | _ => s
  end.

Definition ErrHeader (line : list byte) : error := String.append "invalid header: " (String.string_of_list_byte line).
Definition ErrParse (line : list byte) (e : error) : error :=
  String.append "parse header: " (String.append (String.string_of_list_byte line) (String.append ", error: " e)).

(** [serverConn.parseHeader]: the source and the destination, and the stream after the header. *)
Definition parseHeader (s : list byte) : (A * A * list byte) + error :=
  match ReadString s with
  | inr e => inr e
  | inl (line, rest) =>
      let line := remove_crlf line in
      match split_byte c_sp line with
      | [magic; fam; h2; h3; h4; h5] =>
          if negb (bool_decide (magic = lit "PROXY")) then inr (ErrHeader line)
          else
            match resolve (JoinHostPort h2 h4) with
            | inr e => inr (ErrParse line e)
            | inl src =>
                match resolve (JoinHostPort h3 h5) with
                | inr e => inr (ErrParse line e)
                | inl dst => inl (src, dst, rest)
                end
            end
      | _ => inr (ErrHeader line)
      end
  end.

(** [PxyProtoServer.Serve]: [serve src dst] is the inner server on the connection whose
    addresses are these; without one, nothing is done with it. *)
Definition Serve {R} (server : option (A → A → list byte → R)) (closed idle : R) (input : list byte) : R :=
  match parseHeader input with
  | inr _ => closed
  | inl (src, dst, rest) => match server with Some serve => serve src dst rest | None => idle end
  end.
End Pxy.

(** [Mixed.Serve]: a peek at the first byte, which stays in the stream. *)
Definition mixed_Serve {R} (socks5 http : list byte → R) (input : list byte) : R :=
  match input with
  | b :: _ => if bool_decide (b = x05) then socks5 input else http input
  | [] => http input
  end.
End Pxy.
Import Pxy.

(** ** The header *)

Definition pxy_line (fam src dst sport dport : list byte) : list byte :=
  join_bytes [c_sp] [lit "PROXY"; fam; src; dst; sport; dport].
Definition field (f : list byte) : Prop := c_sp ∉ f ∧ c_lf ∉ f.

Lemma remove_crlf_end s : c_lf ∉ s → remove_crlf (s ++ [c_cr; c_lf]) = s.
Proof.
  induction s as [|a s IH]; intros H; [done|]. apply not_elem_of_cons in H as [Ha Hs].
  cbn [app]. destruct s as [|b s]; cbn [app remove_crlf].
  - rewrite (bool_decide_eq_false_2 (c_cr = c_lf)) by done. by rewrite andb_false_r.
  - rewrite (bool_decide_eq_false_2 (b = c_lf)) by (intros ->; apply Hs; by left). rewrite andb_false_r.
    f_equal. by apply IH.
Qed.

Lemma remove_crlf_lf s : c_lf ∉ s → last s ≠ Some c_cr → remove_crlf (s ++ [c_lf]) = s ++ [c_lf].
Proof.
  induction s as [|a s IH]; intros H Hl; [done|]. apply not_elem_of_cons in H as [Ha Hs].
  destruct s as [|b s]; cbn [app remove_crlf].
  - rewrite (bool_decide_eq_false_2 (a = c_cr)) by (intros ->; done). done.
  - rewrite (bool_decide_eq_false_2 (b = c_lf)) by (intros ->; apply Hs; by left). rewrite andb_false_r.
    f_equal. by apply IH.
Qed.

Lemma line_no_lf fam src dst sport dport :
  Forall field [fam; src; dst; sport; dport] → c_lf ∉ pxy_line fam src dst sport dport.
Proof.
  intros H. decompose_Forall_hyps. unfold pxy_line, field in *. simpl.
  rewrite ?not_elem_of_cons, ?not_elem_of_app, ?not_elem_of_cons, ?not_elem_of_app, ?not_elem_of_cons, ?not_elem_of_app,
    ?not_elem_of_cons, ?not_elem_of_app, ?not_elem_of_cons, ?not_elem_of_app, ?not_elem_of_cons. naive_solver.
Qed.

Lemma ReadString_app s rest : c_lf ∉ s → ReadString (s ++ c_lf :: rest) = inl (s ++ [c_lf], rest).
Proof.
  intros H. unfold ReadString. rewrite index_byte_app by done. f_equal. f_equal.
  - change (c_lf :: rest) with ([c_lf] ++ rest). rewrite app_assoc. apply take_app_length'. rewrite length_app. simpl. lia.
  - change (c_lf :: rest) with ([c_lf] ++ rest). rewrite app_assoc. apply drop_app_length'. rewrite length_app. simpl. lia.
Qed.

Lemma ReadString_inl s line rest :
  ReadString s = inl (line, rest) → ∃ l, line = l ++ [c_lf] ∧ s = l ++ c_lf :: rest ∧ c_lf ∉ l.
Proof.
  unfold ReadString. destruct (index_byte s c_lf) as [i|] eqn:E; [|done]. intros [= <- <-].
  apply index_byte_Some in E as [Hi Hn]. exists (take i s). split; [by apply take_S_r|]. split; [|done].
  symmetry. by apply take_drop_middle.
Qed.

(** Fields of a line, and the line. *)
Lemma split_byte_sep sep s : Forall (λ f, sep ∉ f) (split_byte sep s).
Proof.
  induction s as [|b s IH]; simpl; [by constructor; [set_solver|]|]. case_decide; [by constructor; [set_solver|]|].
  destruct (split_byte sep s) as [|f fs]; [by constructor; [set_solver|]|].
  apply Forall_cons in IH as [Hf Hfs]. constructor; [|done]. by apply not_elem_of_cons.
Qed.

Lemma remove_crlf_cases l :
  c_lf ∉ l → (∃ l', l = l' ++ [c_cr] ∧ remove_crlf (l ++ [c_lf]) = l') ∨ remove_crlf (l ++ [c_lf]) = l ++ [c_lf].
Proof.
  intros Hl. destruct (last l) as [x|] eqn:E.
  - destruct (decide (x = c_cr)) as [->|Hx].
    + left. apply last_Some in E as [l' ->]. exists l'. split; [done|]. rewrite <- app_assoc. apply remove_crlf_end.
      by apply not_elem_of_app in Hl as [].
    + right. apply remove_crlf_lf; [done|]. congruence.
  - right. apply remove_crlf_lf; [done|]. by rewrite E.
Qed.

Lemma line_fields fam sh dh sp dp f : f ∈ [fam; sh; dh; sp; dp] → c_lf ∈ f → c_lf ∈ pxy_line fam sh dh sp dp.
Proof.
  intros Hf Hlf. unfold pxy_line. cbn [join_bytes]. rewrite !elem_of_cons, elem_of_nil in Hf.
  rewrite !elem_of_app. intuition (subst; tauto).
Qed.

Lemma last_field fam sh dh sp dp l :
  pxy_line fam sh dh sp dp = l ++ [c_lf] → c_lf ∈ dp.
Proof.
  intros H. destruct dp as [|x dp] using rev_ind.
  - unfold pxy_line in H. cbn [join_bytes] in H. rewrite app_nil_r, !app_assoc in H. by apply app_inj_tail in H as [].
  - unfold pxy_line in H. cbn [join_bytes] in H. rewrite !app_assoc in H. apply app_inj_tail in H as [_ ->].
    apply elem_of_app. right. by left.
Qed.

Section Props.
Context {A : Type} (resolve : list byte → A + error).

Lemma parseHeader_line fam src dst sport dport rest :
  Forall field [fam; src; dst; sport; dport] →
  parseHeader resolve (pxy_line fam src dst sport dport ++ [c_cr; c_lf] ++ rest) =
    match resolve (JoinHostPort src sport) with
    | inr e => inr (ErrParse (pxy_line fam src dst sport dport) e)
    | inl a => match resolve (JoinHostPort dst dport) with
               | inr e => inr (ErrParse (pxy_line fam src dst sport dport) e)
               | inl b => inl (a, b, rest)
               end
    end.
Proof.
  intros H. pose proof (line_no_lf _ _ _ _ _ H) as Hn. unfold parseHeader.
  set (line := pxy_line fam src dst sport dport) in *.
  replace (line ++ [c_cr; c_lf] ++ rest) with ((line ++ [c_cr]) ++ c_lf :: rest) by (by rewrite <- app_assoc).
  rewrite ReadString_app by (rewrite not_elem_of_app; split; [done|by rewrite list_elem_of_singleton]).
  rewrite <- app_assoc. cbn [app]. rewrite remove_crlf_end by done. unfold line at 1, pxy_line.
  rewrite split_join; [by rewrite bool_decide_eq_true_2|done|].
  constructor; [by apply (bool_decide_unpack _)|]. eapply Forall_impl; [done|]. by intros ? [].
Qed.

(** A service name with a line feed in it is not a port. *)
Hypothesis resolve_lf : ∀ h p, c_lf ∈ p → ∃ e, resolve (JoinHostPort h p) = inr e.

(** The server takes exactly the connections that open with a header line of the PROXY
    protocol whose two addresses resolve: it hands the inner server these addresses as the
    source and the destination, and the stream from the byte after the header on; any other
    connection is closed. *)
Theorem pxy_header input src dst rest :
  parseHeader resolve input = inl (src, dst, rest) ↔
  ∃ fam sh dh sp dp, Forall field [fam; sh; dh; sp; dp] ∧
    input = pxy_line fam sh dh sp dp ++ [c_cr; c_lf] ++ rest ∧
    resolve (JoinHostPort sh sp) = inl src ∧ resolve (JoinHostPort dh dp) = inl dst.
Proof.
  split; [|intros (fam & sh & dh & sp & dp & Hf & -> & Hs & Hd); by rewrite parseHeader_line, Hs, Hd].
  unfold parseHeader. destruct (ReadString input) as [[line rest']|] eqn:Er; [|done].
  apply ReadString_inl in Er as (l & -> & -> & Hl).
  pose proof (join_split c_sp (remove_crlf (l ++ [c_lf]))) as Hj.
  pose proof (split_byte_sep c_sp (remove_crlf (l ++ [c_lf]))) as Hsep.
  destruct (split_byte c_sp _) as [|m [|fam [|sh [|dh [|sp [|dp [|]]]]]]]; try done.
  case_bool_decide as Hm; [|done]. cbn [negb]. subst m.
  destruct (resolve (JoinHostPort sh sp)) as [a|] eqn:Ea; [|done].
  destruct (resolve (JoinHostPort dh dp)) as [b|] eqn:Eb; [|done]. intros [= -> -> ->].
  exists fam, sh, dh, sp, dp. fold (pxy_line fam sh dh sp dp) in Hj.
  destruct (remove_crlf_cases l Hl) as [(l' & -> & Hr)|Hr].
  - rewrite Hr in Hj. subst l'. apply not_elem_of_app in Hl as [Hl _]. split; [|by rewrite <- app_assoc].
    apply Forall_cons in Hsep as [_ Hsep]. apply Forall_forall. intros f Hin.
    split; [by apply (proj1 (Forall_forall _ _) Hsep)|]. intros Hlf. apply Hl. by apply (line_fields _ _ _ _ _ f).
  - exfalso. rewrite Hr in Hj. destruct (resolve_lf dh dp) as [e He]; [|congruence].
    by apply (last_field fam sh dh sp dp l).
Qed.
End Props.

Lemma pxy_header_witness :
  parseHeader (λ a, if bool_decide (c_lf ∈ a) then inr "bad"%string else inl a)
    (lit "PROXY TCP4 10.0.0.1 10.0.0.2 5000 443" ++ [c_cr; c_lf] ++ lit "GET /") =
  inl (lit "10.0.0.1:5000", lit "10.0.0.2:443", lit "GET /").
Proof.
  apply (pxy_header (λ a, if bool_decide (c_lf ∈ a) then inr "bad"%string else inl a)).
  - intros h q Hq. exists "bad"%string. rewrite bool_decide_eq_true_2; [done|]. unfold JoinHostPort.
    destruct (index_byte h c_colon); rewrite !elem_of_app; tauto.
  - exists (lit "TCP4"), (lit "10.0.0.1"), (lit "10.0.0.2"), (lit "5000"), (lit "443").
    split; [|split; [done|by split; vm_compute]].
    repeat (constructor; [by split; apply (bool_decide_unpack _)|]). constructor.
Defined.

(** ** Mixed *)

(** Each kind of client reaches its server on a mixed port, with nothing taken off the stream. *)
Lemma mixed_dispatch {R} (socks5 http : list byte → R) s h addr rest :
  mixed_Serve socks5 http (greeting s ++ rest) = socks5 (greeting s ++ rest) ∧
  mixed_Serve socks5 http (Http.connect_head h addr ++ rest) = http (Http.connect_head h addr ++ rest).
Proof. by split. Qed.
