(* ===== verification/Pool.v ===== *)
(** pkg/pool/buffer.go: byte buffers in pools by powers of two, and who owns them.

    The memory is a list of allocations by their sizes; a pointer is an allocation and an
    offset into it.  [sync.Pool] keeps a set, gives back any of its members and may call
    [New] instead. *)
From S2P Require Import Prelude.

Module Pool.

Definition num : Z := 17.
Definition maxsize : Z := Z.shiftl 1 (num - 1).

Record ptr := MkPtr { p_obj : nat; p_off : Z }.
Record slice := MkSl { s_ptr : ptr; sl_len : Z; sl_cap : Z }.

(** The pools' members, each with the index of its pool, and the sizes of the allocations. *)
Record state := MkState { pools : list (Z * ptr); mem : list Z }.

(** [bits.Len32]. *)
Definition Len32 (x : Z) : Z := if x =? 0 then 0 else Z.log2 x + 1.

(** [make([]byte, size)]. *)
Definition make (size : Z) (st : state) : outcome (slice * state) :=
  if size <? 0 then Panic
  else Ok (MkSl (MkPtr (length (mem st)) 0) size size, MkState (pools st) (mem st ++ [size])).

(** [pools[i].Get()]: the member at [pick], if it is of this pool; else [New]. *)
Definition pool_Get (i : Z) (pick : option nat) (st : state) : outcome (ptr * state) :=
  if (0 <=? i) && (i <? num) then
    let fresh := '(s, st) ← make (Z.shiftl 1 i) st; Ok (s_ptr s, st) in
    match pick with
    | None => fresh
    | Some k =>
        match pools st !! k with
        | Some (j, p) => if j =? i then Ok (p, MkState (delete k (pools st)) (mem st)) else fresh
        | None => fresh
        end
    end
  else Panic.

(** [unsafe.Slice(p, n)[:size]]. *)
Definition unsafe_slice (p : ptr) (n size : Z) : outcome slice :=
  if (0 <=? size) && (size <=? n) then Ok (MkSl p size n) else Panic.

Definition GetBuffer (size : Z) (pick : option nat) (st : state) : outcome (slice * state) :=
  if (1 <=? size) && (size <=? maxsize) then
    let i := Len32 (u32 (size - 1)) in
    '(p, st) ← pool_Get i pick st;
    s ← unsafe_slice p (Z.shiftl 1 i) size;
    Ok (s, st)
  else make size st.

Definition PutBuffer (buf : slice) (st : state) : state :=
  let size := sl_cap buf in
  if (1 <=? size) && (size <=? maxsize) then
    let i := Len32 (u32 (size - 1)) in
    if Z.shiftl 1 i =? size then MkState ((i, s_ptr buf) :: pools st) (mem st) else st
  else st.

(** [buf[i:j]]. *)
Definition reslice (buf : slice) (i j : Z) : outcome slice :=
  if (0 <=? i) && (i <=? j) && (j <=? sl_cap buf) then
    Ok (MkSl (MkPtr (p_obj (s_ptr buf)) (p_off (s_ptr buf) + i)) (j - i) (sl_cap buf - i))
  else Panic.

(** A program that uses the pool: it holds the buffers it got, cuts them and puts back each
    at most once, after which it holds it no more. *)
Inductive step : list slice * state → list slice * state → Prop :=
| step_get size pick held st s st' : GetBuffer size pick st = Ok (s, st') → step (held, st) (s :: held, st')
| step_cut k i j held st s s' :
    held !! k = Some s → reslice s i j = Ok s' → step (held, st) (s' :: delete k held, st)
| step_put k held st s : held !! k = Some s → step (held, st) (delete k held, PutBuffer s st).

Definition init : list slice * state := ([], MkState [] []).
End Pool.
Import Pool.

(** ** Sizes *)

Lemma Len32_bounds n : 1 <= n <= 65536 → 0 <= Len32 (u32 (n - 1)) < 17 ∧ n <= 2 ^ Len32 (u32 (n - 1)) < 2 * n.
Proof.
  intros Hn. rewrite u32_small by lia. unfold Len32. destruct (Z.eqb_spec (n - 1) 0) as [E|E]; [simpl; lia|].
  destruct (Z.log2_spec (n - 1) ltac:(lia)) as [H1 H2]. pose proof (Z.log2_nonneg (n - 1)).
  assert (Z.log2 (n - 1) < 16) by (apply Z.log2_lt_pow2; lia).
  rewrite <- Z.add_1_r in H2. split; [lia|]. split; [lia|]. rewrite Z.pow_add_r by lia. lia.
Qed.

Lemma maxsize_val : maxsize = 65536.
Proof. done. Qed.

(** ** Regions *)

(** The memory a buffer stands for. *)
Definition region : Type := nat * Z * Z.
Definition of_slice (s : slice) : region := (p_obj (s_ptr s), p_off (s_ptr s), sl_cap s).
Definition of_member (m : Z * ptr) : region := (p_obj m.2, p_off m.2, 2 ^ m.1).

Definition in_mem (mem : list Z) (r : region) : Prop :=
  let '(o, off, n) := r in ∃ size, mem !! o = Some size ∧ 0 <= off ∧ 0 <= n ∧ off + n <= size.
Definition apart (r1 r2 : region) : Prop :=
  let '(o1, off1, n1) := r1 in let '(o2, off2, n2) := r2 in o1 = o2 → off1 + n1 <= off2 ∨ off2 + n2 <= off1.

#[global] Instance apart_sym : Symmetric apart.
Proof. intros [[o1 a1] n1] [[o2 a2] n2] H E. destruct (H (eq_sym E)); auto. Qed.

Lemma pairs_perm {A} (R : A → A → Prop) `{!Symmetric R} l k :
  l ≡ₚ k → ForallOrdPairs R l → ForallOrdPairs R k.
Proof.
  induction 1 as [|x l k Hp IH|x y l|l1 l2 l3 _ IH1 _ IH2]; [done| | |auto].
  - inversion 1; subst. constructor; [by rewrite <- Hp|auto].
  - inversion 1 as [|? ? Hy Hl]; subst. inversion Hl; subst. inversion Hy; subst. by repeat constructor.
Qed.

(** What is held and what is in the pools, all apart and each inside its allocation. *)
Definition all_regions (held : list slice) (st : state) : list region :=
  map of_slice held ++ map of_member (pools st).
Record pool_inv (hs : list slice * state) : Prop := {
  inv_in : Forall (in_mem (mem hs.2)) (all_regions hs.1 hs.2);
  inv_apart : ForallOrdPairs apart (all_regions hs.1 hs.2);
  inv_len : Forall (λ s, 0 <= sl_len s <= sl_cap s) hs.1 }.

Lemma in_mem_app mem l r : in_mem mem r → in_mem (mem ++ l) r.
Proof. destruct r as [[o a] n]. intros (size & Hl & ?). exists size. split; [by apply lookup_app_l_Some|done]. Qed.

(** A fresh allocation is apart from all there is. *)
Lemma fresh_ok rs m n :
  0 <= n → Forall (in_mem m) rs → ForallOrdPairs apart rs →
  Forall (in_mem (m ++ [n])) ((length m, 0, n) :: rs) ∧ ForallOrdPairs apart ((length m, 0, n) :: rs).
Proof.
  intros Hn Hin Hap. split.
  - constructor; [|eapply Forall_impl; [done|intros; by apply in_mem_app]].
    exists n. split; [apply list_lookup_middle|lia]. done.
  - constructor; [|done]. eapply Forall_impl; [done|]. intros [[o a] k] (size & Hl & _) E. subst o.
    apply lookup_lt_Some in Hl. lia.
Qed.

(** The regions after an operation are, up to order, those before with at most one shrunk. *)
Lemma inv_perm rs rs' m : rs ≡ₚ rs' → Forall (in_mem m) rs → ForallOrdPairs apart rs → Forall (in_mem m) rs' ∧ ForallOrdPairs apart rs'.
Proof. intros Hp Hin Hap. split; [by rewrite <- Hp|by eapply pairs_perm; [apply _|..]]. Qed.

Lemma GetBuffer_ok size pick held st s st' :
  pool_inv (held, st) → GetBuffer size pick st = Ok (s, st') →
  pool_inv (s :: held, st') ∧ sl_len s = size ∧ (1 <= size <= 65536 → sl_cap s < 2 * size).
Proof.
  intros [Hin Hap Hlen] H. cbn [fst snd] in *. unfold GetBuffer in H. rewrite maxsize_val in H.
  destruct ((1 <=? size) && (size <=? 65536)) eqn:Es.
  - apply andb_true_iff in Es as [H1 H2]. bools. destruct (Len32_bounds size) as [Hi Hc]; [lia|].
    set (i := Len32 (u32 (size - 1))) in *. rewrite Z.shiftl_1_l in H. assert (0 <= 2 ^ i) by lia.
    assert (∃ p st1, pool_Get i pick st = Ok (p, st1) ∧
      Forall (in_mem (mem st1)) ((p_obj p, p_off p, 2 ^ i) :: all_regions held st1) ∧
      ForallOrdPairs apart ((p_obj p, p_off p, 2 ^ i) :: all_regions held st1)) as (p & st1 & Eg & Hin1 & Hap1).
    { unfold pool_Get. rewrite (proj2 (Z.leb_le 0 i)), (proj2 (Z.ltb_lt i num)) by (unfold num; lia). cbn [andb].
      rewrite Z.shiftl_1_l.
      assert (∃ p st1, ('(s, st) ← make (2 ^ i) st; Ok (s_ptr s, st)) = Ok (p, st1) ∧
        Forall (in_mem (mem st1)) ((p_obj p, p_off p, 2 ^ i) :: all_regions held st1) ∧
        ForallOrdPairs apart ((p_obj p, p_off p, 2 ^ i) :: all_regions held st1)) as Hfresh.
      { unfold make. rewrite (proj2 (Z.ltb_ge _ _)) by lia. eexists _, _. split; [done|]. by apply fresh_ok. }
      destruct pick as [k|]; [|done]. destruct (pools st !! k) as [[j p]|] eqn:Ek; [|done].
      destruct (Z.eqb_spec j i) as [->|]; [|done]. exists p. eexists. split; [done|].
      eapply inv_perm; [|exact Hin|exact Hap]. unfold all_regions. cbn [pools].
      rewrite (delete_Permutation _ _ _ Ek) at 1. cbn [map]. by rewrite Permutation_middle. }
    rewrite Eg in H. cbn [mbind] in H. rewrite bind_ret in H. unfold unsafe_slice in H.
    rewrite (proj2 (Z.leb_le 0 size)), (proj2 (Z.leb_le size (2 ^ i))) in H by lia. cbn [andb] in H.
    rewrite bind_ret in H. injection H as <- <-. split; [|simpl; split; [done|lia]].
    split; cbn [fst snd]; [done|done|]. constructor; [simpl; lia|done].
  - unfold make in H. destruct (Z.ltb_spec size 0); [done|]. injection H as <- <-.
    destruct (fresh_ok (all_regions held st) (mem st) size) as [? ?]; [done..|].
    split; [|simpl; split; [done|]; intros; apply andb_false_iff in Es as []; bools; lia].
    split; cbn [fst snd]; [done|done|]. constructor; [simpl; lia|done].
Qed.

Lemma GetBuffer_total size pick st : 0 <= size → ∃ s st', GetBuffer size pick st = Ok (s, st').
Proof.
  intros Hs. unfold GetBuffer. rewrite maxsize_val. destruct ((1 <=? size) && (size <=? 65536)) eqn:Es.
  - apply andb_true_iff in Es as [H1 H2]. bools. destruct (Len32_bounds size) as [Hi Hc]; [lia|].
    set (i := Len32 (u32 (size - 1))) in *. rewrite Z.shiftl_1_l. unfold pool_Get, unsafe_slice, make.
    rewrite (proj2 (Z.leb_le 0 i)), (proj2 (Z.ltb_lt i num)) by (unfold num; lia). cbn [andb].
    rewrite Z.shiftl_1_l, (proj2 (Z.ltb_ge (2 ^ i) 0)), (proj2 (Z.leb_le 0 size)), (proj2 (Z.leb_le size (2 ^ i))) by lia.
    cbn [andb]. rewrite bind_ret.
    destruct pick as [k|]; [destruct (pools st !! k) as [[j p]|]; [destruct (j =? i)|]|]; rewrite bind_ret; eauto.
  - unfold make. rewrite (proj2 (Z.ltb_ge _ _)) by lia. eauto.
Qed.

(** A buffer cut down is inside what it was. *)
Lemma shrink_ok o off n off' n' rs m :
  off <= off' → 0 <= n' → off' + n' <= off + n →
  Forall (in_mem m) ((o, off, n) :: rs) → ForallOrdPairs apart ((o, off, n) :: rs) →
  Forall (in_mem m) ((o, off', n') :: rs) ∧ ForallOrdPairs apart ((o, off', n') :: rs).
Proof.
  intros H1 H2 H3 Hin Hap. apply Forall_cons in Hin as [(size & Hl & ?) Hin]. inversion Hap as [|? ? Hr Hap']; subst. split.
  - constructor; [|done]. exists size. split; [done|lia].
  - constructor; [|done]. eapply Forall_impl; [exact Hr|]. intros [[o2 a2] n2] Ha E. specialize (Ha E). lia.
Qed.

Lemma take_out k held st s :
  held !! k = Some s → all_regions held st ≡ₚ of_slice s :: all_regions (delete k held) st.
Proof. intros Hk. unfold all_regions. by rewrite (delete_Permutation _ _ _ Hk) at 1. Qed.

Lemma step_inv hs hs' : pool_inv hs → step hs hs' → pool_inv hs'.
Proof.
  intros Hinv Hs. destruct Hs as [size pick held st s st' Hg|k i j held st s s' Hk Hc|k held st s Hk].
  - by eapply GetBuffer_ok.
  - destruct Hinv as [Hin Hap Hlen]. cbn [fst snd] in *.
    destruct (inv_perm _ _ _ (take_out k held st s Hk) Hin Hap) as [Hin1 Hap1].
    unfold reslice in Hc. destruct ((0 <=? i) && (i <=? j) && (j <=? sl_cap s)) eqn:E; [|done]. injection Hc as <-.
    apply andb_true_iff in E as [E E3]. apply andb_true_iff in E as [E1 E2]. bools.
    destruct (shrink_ok (p_obj (s_ptr s)) (p_off (s_ptr s)) (sl_cap s) (p_off (s_ptr s) + i) (sl_cap s - i)
      (all_regions (delete k held) st) (mem st)) as [? ?]; [lia..|done|done|].
    split; cbn [fst snd]; [done|done|]. constructor; [simpl; lia|]. by apply Forall_delete.
  - destruct Hinv as [Hin Hap Hlen]. cbn [fst snd] in *.
    destruct (inv_perm _ _ _ (take_out k held st s Hk) Hin Hap) as [Hin1 Hap1].
    assert (pool_inv (delete k held, st)) as Hdrop.
    { split; cbn [fst snd]; [by apply Forall_cons in Hin1 as []|by inversion Hap1|by apply Forall_delete]. }
    unfold PutBuffer. rewrite maxsize_val. destruct ((1 <=? sl_cap s) && (sl_cap s <=? 65536)) eqn:E; [|done].
    rewrite Z.shiftl_1_l. destruct (Z.eqb_spec (2 ^ Len32 (u32 (sl_cap s - 1))) (sl_cap s)) as [Ec|]; [|done].
    assert (of_member (Len32 (u32 (sl_cap s - 1)), s_ptr s) = of_slice s) as Em
      by (unfold of_member, of_slice; cbn [fst snd]; by rewrite Ec).
    assert (of_slice s :: all_regions (delete k held) st ≡ₚ
      all_regions (delete k held) (MkState ((Len32 (u32 (sl_cap s - 1)), s_ptr s) :: pools st) (mem st))) as Hp
      by (unfold all_regions; cbn [pools map]; rewrite Em; by rewrite Permutation_middle).
    destruct (inv_perm _ _ _ Hp Hin1 Hap1). split; cbn [fst snd]; [done|done|by apply Forall_delete].
Qed.

Lemma reachable_inv hs : rtc step init hs → pool_inv hs.
Proof.
  intros H. assert (pool_inv init) as H0 by (split; constructor). revert H0. induction H; [done|]. eauto using step_inv.
Qed.

(** C17: A program that gives each buffer back at most once never has its memory shared: in
    every reachable state a request of any size succeeds with a buffer of exactly that
    length and of less than twice that capacity when it comes from a pool, which lies inside
    one allocation although the pool rebuilds it from a bare pointer, and which no other
    buffer in use overlaps. *)
Theorem pool_exclusive held st size pick :
  rtc step init (held, st) → 0 <= size →
  ∃ s st', GetBuffer size pick st = Ok (s, st') ∧
    sl_len s = size ∧ size <= sl_cap s ∧ (1 <= size <= maxsize → sl_cap s < 2 * size) ∧
    in_mem (mem st') (of_slice s) ∧ Forall (λ h, apart (of_slice s) (of_slice h)) held.
Proof.
  intros Hr Hs. destruct (GetBuffer_total size pick st Hs) as (s & st' & Hg). exists s, st'. split; [done|].
  destruct (GetBuffer_ok size pick held st s st' (reachable_inv _ Hr) Hg) as ([Hin Hap Hlen] & Hsl & Hc).
  cbn [fst snd] in *. apply Forall_cons in Hin as [Hin _]. apply Forall_cons in Hlen as [Hlen _].
  rewrite maxsize_val. repeat split; [done|lia|done|done|].
  inversion Hap as [|? ? Ha _]; subst. apply Forall_app in Ha as [Ha _]. by rewrite Forall_map in Ha.
Qed.

Lemma pool_exclusive_witness :
  ∃ s st', GetBuffer 1500 (Some 0%nat) (MkState [(11, MkPtr 0 0)] [2048]) = Ok (s, st') ∧ sl_len s = 1500.
Proof.
  destruct (pool_exclusive [] (MkState [(11, MkPtr 0 0)] [2048]) 1500 (Some 0%nat)) as (s & st' & H & Hl & _).
  - apply (rtc_l step _ ([MkSl (MkPtr 0 0) 2000 2048], MkState [] [2048])); [by apply (step_get 2000 None)|].
    apply (rtc_l step _ ([], MkState [(11, MkPtr 0 0)] [2048])); [|apply rtc_refl].
    by apply (step_put 0 [MkSl (MkPtr 0 0) 2000 2048] (MkState [] [2048]) (MkSl (MkPtr 0 0) 2000 2048)).
  - lia.
  - exists s, st'. split; [exact H|exact Hl].
Defined.
