(* ===== verification/SsrSum.v ===== *)
(** proxy/ssr/internal/ssr: the CRC-32 and Adler-32 checksums of shadowsocksR, against
    their definitions. *)
From S2P Require Import Prelude Reader ProxyConn SocksAddr Trojan Vless Shadowsocks Vmess.

Module SsrSum.

(** ** crc32.go *)

(** [createCRC32Table]: an entry. *)
Definition crc32_shift (crc : Z) : Z :=
  if Z.land crc 1 =? 1 then Z.lxor (Z.shiftr crc 1) 0xEDB88320 else Z.shiftr crc 1.
Definition crc32Table (i : Z) : Z := Nat.iter 8 crc32_shift i.

(** [DoCalcCRC32]: the loop runs over the bytes from [index] to [length]. *)
Definition crc32_byte (value : Z) (b : byte) : Z :=
  Z.lxor (Z.shiftr value 8) (crc32Table (Z.lxor (Z.land value 0xFF) (b2z b))).
Definition DoCalcCRC32 (input : list byte) (index len : nat) (value : Z) : outcome Z :=
  if (len <=? length input)%nat
  then Ok (Z.lxor (foldl crc32_byte value (take (len - index) (drop index input))) 0xFFFFFFFF)
  else Panic.
Definition CalcCRC32 (input : list byte) (len : nat) : outcome Z := DoCalcCRC32 input 0 len 0xFFFFFFFF.

(** [SetCRC32] and [CheckCRC32]. *)
Definition SetCRC32 (buffer : list byte) (len : nat) : outcome (list byte) :=
  if (4 <=? len)%nat && (len <=? length buffer)%nat then
    crc ← CalcCRC32 (take (len - 4) buffer) (len - 4);
    Ok (take (len - 4) buffer ++ le_bytes 4 (Z.lxor crc 0xFFFFFFFF) ++ drop len buffer)
  else Panic.
Definition CheckCRC32 (buffer : list byte) (len : nat) : outcome bool :=
  crc ← CalcCRC32 buffer len; Ok (crc =? 0xFFFFFFFF).

(** ** adler32.go *)

Definition adler_add (ab : Z * Z) (i : byte) : Z * Z :=
  let a := u32 (ab.1 + b2z i) in (a, u32 (ab.2 + a)).
Definition calcShortAdler32 (input : list byte) (ab : Z * Z) : Z * Z :=
  let '(a, b) := foldl adler_add ab input in (a mod 65521, b mod 65521).

Definition nMax : nat := Z.to_nat 5552.
Fixpoint adler_loop (fuel : nat) (input : list byte) (ab : Z * Z) : outcome (Z * Z) :=
  if (nMax <? length input)%nat then
    match fuel with
    | O => OutOfFuel
    | S fuel => adler_loop fuel (drop nMax input) (calcShortAdler32 (take nMax input) ab)
    end
  else Ok (calcShortAdler32 input ab).
Definition CalcAdler32 (input : list byte) : outcome Z :=
  '(a, b) ← adler_loop (length input) input (1, 0); Ok (u32 (u32 (Z.shiftl b 16) + a)).

Definition CheckAdler32 (input : list byte) (l : nat) : outcome bool :=
  if (4 <=? l)%nat && (l <=? length input)%nat then
    adler ← CalcAdler32 (take (l - 4) input); Ok (adler =? le_val (take 4 (drop (l - 4) input)))
  else Panic.
End SsrSum.
Import SsrSum.

(** ** CRC-32 *)

Lemma crc_shift_bit x : crc32_shift x = Vm.crc_bit x.
Proof.
  unfold crc32_shift, Vm.crc_bit. change 1 with (Z.ones 1) at 1. rewrite Z.land_ones by lia.
  change (2 ^ 1) with 2. rewrite <- Z.bit0_mod. by destruct (Z.testbit x 0).
Qed.

Lemma crc_iter_bit n x : Nat.iter n crc32_shift x = Nat.iter n Vm.crc_bit x.
Proof. induction n as [|n IH]; [done|]. simpl. by rewrite IH, crc_shift_bit. Qed.

Lemma crc_shift_xor x y : crc32_shift (Z.lxor x y) = Z.lxor (crc32_shift x) (crc32_shift y).
Proof.
  rewrite !crc_shift_bit. unfold Vm.crc_bit. rewrite Z.lxor_spec, Z.shiftr_lxor. set (c := 0xedb88320).
  destruct (Z.testbit x 0), (Z.testbit y 0); simpl; apply Z.bits_inj'; intros n Hn; rewrite !Z.lxor_spec;
    by destruct (Z.testbit (Z.shiftr x 1) n), (Z.testbit (Z.shiftr y 1) n), (Z.testbit c n).
Qed.

Lemma crc_iter_xor n x y :
  Nat.iter n crc32_shift (Z.lxor x y) = Z.lxor (Nat.iter n crc32_shift x) (Nat.iter n crc32_shift y).
Proof. induction n as [|n IH]; [done|]. simpl. by rewrite IH, crc_shift_xor. Qed.

Lemma crc_iter_high n x :
  0 <= x → Nat.iter n crc32_shift (Z.shiftl x (Z.of_nat n)) = x.
Proof.
  revert x. induction n as [|n IH]; intros x Hx; [apply Z.shiftl_0_r|].
  rewrite Nat.iter_succ_r. rewrite Nat2Z.inj_succ, <- Z.add_1_r, <- Z.shiftl_shiftl by lia.
  rewrite crc_shift_bit. unfold Vm.crc_bit. rewrite Z.shiftl_spec_low by lia.
  rewrite Z.shiftr_shiftl_l by lia. change (1 - 1) with 0. rewrite Z.shiftl_0_r. by apply IH.
Qed.

Lemma split_low n x : 0 <= n → 0 <= x → x = Z.lxor (Z.land x (Z.ones n)) (Z.shiftl (Z.shiftr x n) n).
Proof.
  intros Hn Hx. apply Z.bits_inj'. intros k Hk. rewrite Z.lxor_spec, Z.land_spec, Z.testbit_ones_nonneg by lia.
  destruct (Z.ltb_spec k n).
  - rewrite Z.shiftl_spec_low by lia. by destruct (Z.testbit x k).
  - rewrite Z.shiftl_spec, Z.shiftr_spec by lia. replace (k - n + n) with k by lia. by destruct (Z.testbit x k).
Qed.

(** Eight shifts at once through the table. *)
Lemma crc_table_step x : 0 <= x → Nat.iter 8 crc32_shift x = Z.lxor (Z.shiftr x 8) (crc32Table (Z.land x 0xFF)).
Proof.
  intros Hx. rewrite (split_low 8 x) at 1 by lia. rewrite crc_iter_xor. rewrite (crc_iter_high 8) by (by apply Z.shiftr_nonneg). rewrite Z.lxor_comm. f_equal.
Qed.

Lemma land_xor_l x y m : Z.land (Z.lxor x y) m = Z.lxor (Z.land x m) (Z.land y m).
Proof.
  apply Z.bits_inj'. intros k _. rewrite !Z.land_spec, !Z.lxor_spec, !Z.land_spec.
  by destruct (Z.testbit x k), (Z.testbit y k), (Z.testbit m k).
Qed.

Lemma byte_low b : Z.shiftr (b2z b) 8 = 0 ∧ Z.land (b2z b) 0xFF = b2z b.
Proof.
  pose proof (b2z_range b). change 0xFF with (Z.ones 8). rewrite Z.land_ones, Z.shiftr_div_pow2 by lia.
  split; [apply Z.div_small|apply Z.mod_small]; lia.
Qed.

Lemma crc_byte_bits v b : 0 <= v → crc32_byte v b = Nat.iter 8 Vm.crc_bit (Z.lxor v (b2z b)).
Proof.
  intros Hv. pose proof (b2z_range b). destruct (byte_low b) as [H1 H2].
  transitivity (Nat.iter 8 crc32_shift (Z.lxor v (b2z b))); [|apply crc_iter_bit].
  rewrite crc_table_step by (apply Z.lxor_nonneg; lia).
  by rewrite Z.shiftr_lxor, H1, Z.lxor_0_r, land_xor_l, H2.
Qed.

Lemma lxor_below n a b : 0 <= n → 0 <= a < 2 ^ n → 0 <= b < 2 ^ n → 0 <= Z.lxor a b < 2 ^ n.
Proof.
  intros Hn Ha Hb. assert (0 <= Z.lxor a b) by (apply Z.lxor_nonneg; lia). split; [done|].
  destruct (decide (Z.lxor a b = 0)) as [->|Hne]; [lia|]. apply Z.log2_lt_pow2; [lia|].
  pose proof (Z.log2_lxor a b ltac:(lia) ltac:(lia)).
  assert (∀ x, 0 <= x < 2 ^ n → x = 0 ∨ Z.log2 x < n) as Hlog.
  { intros x Hx. destruct (decide (x = 0)); [by left|right]. apply Z.log2_lt_pow2; lia. }
  destruct (Hlog a Ha) as [->|], (Hlog b Hb) as [->|]; rewrite ?Z.lxor_0_l, ?Z.lxor_0_r in *; try lia; done.
Qed.

Lemma crc_shift_range x : 0 <= x < 2 ^ 32 → 0 <= crc32_shift x < 2 ^ 32.
Proof.
  intros Hx. assert (0 <= Z.shiftr x 1 < 2 ^ 32) by (rewrite Z.shiftr_div_pow2 by lia; split; [apply Z.div_pos|apply Z.div_lt_upper_bound]; lia).
  unfold crc32_shift. destruct (_ =? 1); [|done]. apply lxor_below; lia.
Qed.

Lemma crc_byte_range v b : 0 <= v < 2 ^ 32 → 0 <= crc32_byte v b < 2 ^ 32.
Proof.
  intros Hv. rewrite crc_byte_bits by lia.
  assert (∀ n x, 0 <= x < 2 ^ 32 → 0 <= Nat.iter n Vm.crc_bit x < 2 ^ 32) as Hi.
  { intros n x Hx. induction n as [|n IH]; [done|]. simpl. rewrite <- crc_shift_bit. by apply crc_shift_range. }
  apply Hi, lxor_below; [lia|done|]. pose proof (b2z_range b). lia.
Qed.

Lemma crc_fold_range l v : 0 <= v < 2 ^ 32 → 0 <= foldl crc32_byte v l < 2 ^ 32.
Proof. revert v. induction l as [|b l IH]; intros v Hv; [done|]. simpl. by apply IH, crc_byte_range. Qed.

Lemma crc_fold_bits l v :
  0 <= v < 2 ^ 32 → foldl crc32_byte v l = foldl (λ c b, Nat.iter 8 Vm.crc_bit (Z.lxor c (b2z b))) v l.
Proof.
  revert v. induction l as [|b l IH]; intros v Hv; [done|]. cbn [foldl]. rewrite <- crc_byte_bits by lia.
  by apply IH, crc_byte_range.
Qed.

Lemma CalcCRC32_take l n : (n <= length l)%nat → CalcCRC32 l n = Ok (Vm.crc32 (take n l)).
Proof.
  intros Hn. unfold CalcCRC32, DoCalcCRC32, Vm.crc32. rewrite (proj2 (Nat.leb_le _ _)) by done.
  rewrite Nat.sub_0_r, drop_0. by rewrite crc_fold_bits by lia.
Qed.

(** The four bytes of the register, low byte first, clear it. *)
Lemma crc_clear v : 0 <= v < 2 ^ 32 → foldl crc32_byte v (le_bytes 4 v) = 0.
Proof.
  intros Hv. assert (∀ n v, 0 <= v < 256 ^ Z.of_nat n → foldl crc32_byte v (le_bytes n v) = 0) as H; [|by apply H].
  clear v Hv. induction n as [|n IH]; intros v Hv; [simpl in Hv; simpl; lia|].
  change (le_bytes (S n) v) with (z2b v :: le_bytes n (v / 256)). cbn [foldl].
  assert (crc32_byte v (z2b v) = v / 256) as ->.
  { unfold crc32_byte. rewrite b2z_z2b. change 0xFF with (Z.ones 8). rewrite Z.land_ones by lia.
    change (2 ^ 8) with 256. rewrite Z.lxor_nilpotent. change (crc32Table 0) with 0. rewrite Z.lxor_0_r.
    by rewrite Z.shiftr_div_pow2 by lia. }
  apply IH. rewrite Nat2Z.inj_succ, Z.pow_succ_r in Hv by lia. split; [apply Z.div_pos|apply Z.div_lt_upper_bound]; lia.
Qed.

(** The table-driven CRC-32 is the bitwise definition of the checksum on every input
    (the one of hash/crc32), and a buffer whose last four bytes were set by SetCRC32 keeps
    its other bytes and passes CheckCRC32. *)
Theorem ssr_crc32 buffer :
  CalcCRC32 buffer (length buffer) = Ok (Vm.crc32 buffer) ∧
  ((4 <= length buffer)%nat →
   ∃ sum, length sum = 4%nat ∧
     SetCRC32 buffer (length buffer) = Ok (take (length buffer - 4) buffer ++ sum) ∧
     CheckCRC32 (take (length buffer - 4) buffer ++ sum) (length buffer) = Ok true).
Proof.
  split; [rewrite CalcCRC32_take by done; by rewrite firstn_all|]. intros H4.
  set (n := (length buffer - 4)%nat). set (v := foldl crc32_byte 0xFFFFFFFF (take n buffer)).
  assert (0 <= v < 2 ^ 32) as Hv by (by apply crc_fold_range). exists (le_bytes 4 v). split; [done|].
  assert (length (take n buffer) = n) as Hn by (rewrite length_take; lia).
  assert (Z.lxor (Z.lxor v 0xFFFFFFFF) 0xFFFFFFFF = v) as Hx by (by rewrite Z.lxor_assoc, Z.lxor_nilpotent, Z.lxor_0_r).
  split.
  - unfold SetCRC32. rewrite !(proj2 (Nat.leb_le _ _)) by lia. fold n. cbn [andb].
    unfold CalcCRC32, DoCalcCRC32. rewrite Hn, (proj2 (Nat.leb_le n n)) by lia. rewrite bind_ret, Nat.sub_0_r, drop_0, (take_ge (take n buffer) n) by lia.
    fold v. rewrite Hx, drop_ge, app_nil_r by lia. done.
  - unfold CheckCRC32, CalcCRC32, DoCalcCRC32. rewrite length_app, Hn, length_le_bytes, (proj2 (Nat.leb_le _ _)) by lia.
    rewrite bind_ret, Nat.sub_0_r, drop_0, take_ge by (rewrite length_app, Hn, length_le_bytes; lia).
    rewrite foldl_app. fold v. by rewrite crc_clear.
Qed.

(** ** Adler-32 *)

Definition adler_ref (ab : Z * Z) (i : byte) : Z * Z :=
  let a := (ab.1 + b2z i) mod 65521 in (a, (ab.2 + a) mod 65521).

Lemma nMax_val : Z.of_nat nMax = 5552.
Proof. unfold nMax. lia. Qed.
#[local] Opaque nMax.

(** Within 5552 bytes the sums stay below 2^32. *)
Lemma adler_short l : ∀ a b a0 b0 n,
  0 <= a0 < 65521 → 0 <= b0 < 65521 → 0 <= n →
  0 <= a <= 65520 + 255 * n → 0 <= b <= 65520 * (n + 1) + 255 * (n * (n + 1) / 2) →
  n + Z.of_nat (length l) <= 5552 → a0 = a mod 65521 → b0 = b mod 65521 →
  let '(a', b') := foldl adler_add (a, b) l in
  foldl adler_ref (a0, b0) l = (a' mod 65521, b' mod 65521).
Proof.
  induction l as [|x l IH]; intros a b a0 b0 n Ha0 Hb0 Hn Ha Hb Hl Ea Eb; [by simpl; f_equal|].
  cbn [length] in Hl. pose proof (b2z_range x) as Hx. cbn [foldl]. unfold adler_add at 2, adler_ref at 2. cbn [fst snd].
  assert ((n + 1) * (n + 1 + 1) / 2 = n * (n + 1) / 2 + (n + 1)) as Hs.
  { replace ((n + 1) * (n + 1 + 1)) with (n * (n + 1) + (n + 1) * 2) by ring. by rewrite Z.div_add by lia. }
  assert ((n + 1) * (n + 1 + 1) / 2 <= 5552 * 5553 / 2) by (apply Z.div_le_mono; nia).
  change (5552 * 5553 / 2) with 15415128 in *.
  rewrite (u32_small (a + b2z x)) by lia. rewrite (u32_small (b + _)) by lia.
  apply (IH _ _ _ _ (n + 1)); try (apply Z.mod_pos_bound; lia); try lia.
  - rewrite Ea. by rewrite Zplus_mod_idemp_l.
  - rewrite Ea, Eb. rewrite Zplus_mod_idemp_l. rewrite Zplus_mod_idemp_l, Zplus_mod_idemp_r. done.
Qed.

Lemma short_ref l ab :
  0 <= ab.1 < 65521 → 0 <= ab.2 < 65521 → Z.of_nat (length l) <= 5552 →
  calcShortAdler32 l ab = foldl adler_ref ab l ∧
  0 <= (foldl adler_ref ab l).1 < 65521 ∧ 0 <= (foldl adler_ref ab l).2 < 65521.
Proof.
  destruct ab as [a b]. cbn [fst snd]. intros Ha Hb Hl. unfold calcShortAdler32.
  pose proof (adler_short l a b a b 0) as H. destruct (foldl adler_add (a, b) l) as [a' b'].
  change (0 * (0 + 1) / 2) with 0 in H. rewrite H by (rewrite ?Z.mod_small; lia).
  split; [done|]. split; apply Z.mod_pos_bound; lia.
Qed.

Lemma adler_loop_ref fuel : ∀ l ab,
  0 <= ab.1 < 65521 → 0 <= ab.2 < 65521 → (length l <= fuel)%nat →
  adler_loop fuel l ab = Ok (foldl adler_ref ab l) ∧
  0 <= (foldl adler_ref ab l).1 < 65521 ∧ 0 <= (foldl adler_ref ab l).2 < 65521.
Proof.
  pose proof nMax_val. induction fuel as [|fuel IH]; intros l ab Ha Hb Hl; cbn [adler_loop];
    (destruct (Nat.ltb_spec nMax (length l)); [|destruct (short_ref l ab) as [-> ?]; [lia..|done]]); [lia|].
  destruct (short_ref (take nMax l) ab) as (-> & Ha' & Hb'); [done|done|rewrite length_take; lia|].
  destruct (IH (drop nMax l) (foldl adler_ref ab (take nMax l))) as [-> ?]; [done|done|rewrite length_drop; lia|].
  rewrite <- foldl_app, take_drop in *. done.
Qed.

Lemma CalcAdler32_ref l :
  ∃ a b, foldl adler_ref (1, 0) l = (a, b) ∧ 0 <= a < 65521 ∧ 0 <= b < 65521 ∧ CalcAdler32 l = Ok (b * 2 ^ 16 + a).
Proof.
  destruct (adler_loop_ref (length l) l (1, 0)) as (E & Ha & Hb); [simpl; lia..|done|].
  unfold CalcAdler32. rewrite E, bind_ret. destruct (foldl adler_ref (1, 0) l) as [a b]. cbn [fst snd] in *.
  exists a, b. split; [done|]. split; [done|]. split; [done|]. rewrite Z.shiftl_mul_pow2 by lia.
  rewrite (u32_small (b * _)) by lia. by rewrite u32_small by lia.
Qed.

(** The Adler-32 of the code, which adds up 5552 bytes at a time in 32 bits before it
    reduces, is the definition that reduces after every byte: no sum overflows, for any
    input; and the sum appended to data passes the check. *)
Theorem ssr_adler32 l :
  ∃ a b sum, foldl adler_ref (1, 0) l = (a, b) ∧ CalcAdler32 l = Ok sum ∧ sum = b * 2 ^ 16 + a ∧ 0 <= sum < 2 ^ 32 ∧
    CheckAdler32 (l ++ le_bytes 4 sum) (length l + 4) = Ok true.
Proof.
  destruct (CalcAdler32_ref l) as (a & b & E & Ha & Hb & Hc). exists a, b, (b * 2 ^ 16 + a).
  repeat split; [done|done|lia|lia|]. unfold CheckAdler32. rewrite length_app, length_le_bytes.
  rewrite !(proj2 (Nat.leb_le _ _)) by lia. cbn [andb]. replace (length l + 4 - 4)%nat with (length l) by lia.
  rewrite take_app_length, drop_app_length, Hc, bind_ret, take_ge by done. rewrite le32_id by lia. by rewrite Z.eqb_refl.
Qed.

Lemma ssr_crc32_witness :
  ∃ sum, length sum = 4%nat ∧ SetCRC32 (lit "abcdefgh") 8 = Ok (lit "abcd" ++ sum) ∧
    CheckCRC32 (lit "abcd" ++ sum) 8 = Ok true.
Proof. destruct (ssr_crc32 (lit "abcdefgh")) as [_ H]. apply H. simpl. lia. Defined.
