(* ===== verification/SsrProto.v ===== *)
(** proxy/ssr/internal/protocol: the protocols of shadowsocksR under the stream cipher.

    What the random sources and the clock give is an argument; HMAC and MD5 are
    parameters.  The slice of a first write ends where its memory ends.  A receive buffer is drained packet by packet; the loop is common to the
    protocols. *)
From S2P Require Import Prelude GoStd Reader ProxyConn SocksAddr Trojan Vless Shadowsocks HttpHead Vmess SsrSum.
Import SsrSum.

Module SsrProto.

(** ** ssr/obfs.go *)

Definition ErrAuthSHA1v4CRC32Error : error := "auth_sha1_v4 post decrypt data crc32 error".
Definition ErrAuthSHA1v4DataLengthError : error := "auth_sha1_v4 post decrypt data length error".
Definition ErrAuthSHA1v4IncorrectChecksum : error := "auth_sha1_v4 post decrypt incorrect checksum".
Definition ErrAuthAES128IncorrectHMAC : error := "auth_aes128_* post decrypt incorrect hmac".
Definition ErrAuthAES128DataLengthError : error := "auth_aes128_* post decrypt length mismatch".

(** [ServerInfo]; the lengths of the IV and of the key are those of the slices. *)
Record ServerInfo := MkServerInfo {
  si_Host : list byte;
  si_Port : Z;
  si_Param : list byte;
  si_IV : list byte;
  si_Key : list byte;
  si_HeadLen : nat;
  si_TcpMss : Z;
  si_Overhead : Z }.

Definition GetHeadSize (data : list byte) (defaultValue : nat) : nat :=
  match data with
  | b0 :: b1 :: _ =>
      let headType := Z.land (b2z b0) 0x07 in
      if headType =? 1 then 7
      else if headType =? 4 then 19
      else if headType =? 3 then (4 + Z.to_nat (b2z b1))%nat
      else defaultValue
  | _ => defaultValue
  end.

(** ** The receive loops *)

(** What one packet at the head of the buffer gives; the state is kept on errors. *)
Inductive verdict (St : Type) :=
| Wait
| Fail (e : error) (s : St)
| Crash
| Packet (out : list byte) (len : nat) (s : St).
Arguments Wait {St}.
Arguments Fail {St}.
Arguments Crash {St}.
Arguments Packet {St}.

(** The loop of [PostDecrypt], which needs more than [lim] bytes to go on: the data and how
    much of the buffer they took. *)
Fixpoint drain {St} (lim : nat) (step : St → list byte → verdict St) (fuel : nat) (s : St) (data : list byte)
    : outcome (list byte * nat) * St :=
  if (lim <? length data)%nat then
    match fuel with
    | O => (OutOfFuel, s)
    | S fuel =>
        match step s data with
        | Wait => (Ok ([], 0%nat), s)
        | Fail e s => (Err e, s)
        | Crash => (Panic, s)
        | Packet out n s =>
            match drain lim step fuel s (drop n data) with
            | (Ok (o, m), s) => (Ok (out ++ o, (n + m)%nat), s)
            | x => x
            end
        end
    end
  else (Ok ([], 0%nat), s).

(** [for dataLength > blockSize]: the blocks of a write. *)
Fixpoint blocks (fuel size : nat) (data : list byte) : list (list byte) :=
  match fuel, data with
  | _, [] => []
  | O, _ => []
  | S fuel, _ => if (size <? length data)%nat then take size data :: blocks fuel size (drop size data) else [data]
  end.
Definition blockSize : nat := Z.to_nat 4096.

(** ** origin.go *)

Definition origin_PreEncrypt (data : list byte) : list byte := data.
Definition origin_PostDecrypt (data : list byte) : list byte * nat := (data, length data).

(** ** Shared authentication data (base.go) *)

Record AuthData := MkAuthData { ad_clientID : list byte; ad_connectionID : Z }.

(** What a packet draws: the length of its padding and the bytes of it; and for the first
    one the client and connection ids, the clock and some bytes more. *)
Record draw := MkDraw {
  d_rand : nat;
  d_pad : list byte;
  d_client : list byte;
  d_conn : list byte;
  d_time : Z;
  d_uid : list byte;
  d_head : list byte }.

(** The connection id of the next connection. *)
Definition next_connection (ad : AuthData) (d : draw) : AuthData :=
  let id := u32 (ad_connectionID ad + 1) in
  let client := if 0xFF000000 <? id then [] else ad_clientID ad in
  if (length client =? 0)%nat then MkAuthData (d_client d) (Z.land (le_val (d_conn d)) 0xFFFFFF)
  else MkAuthData client id.

(** The padding: random bytes under its own length, [enc] in two bytes when it is long. *)
Definition padding (enc : Z → list byte) (n : nat) (rnd : list byte) : list byte :=
  if (n <? 128)%nat then z2b (Z.of_nat n) :: take (n - 1) (drop 1 rnd)
  else xff :: enc (Z.of_nat n) ++ take (n - 3) (drop 3 rnd).

Section Crypto.
Context (hmac_sha1 hmac_md5 : list byte → list byte → list byte) (md5 sha1 : list byte → list byte).
(** AES-128-CBC with a zero IV, of a key and 16 bytes. *)
Context (aes_cbc : list byte → list byte → list byte).

(** ** verify_sha1.go *)

Record verifySHA1 := MkVerify { vs_hasSentHeader : bool; vs_chunkId : Z }.

Definition otaConnectAuth (si : ServerInfo) (data : list byte) : list byte :=
  data ++ hmac_sha1 (si_IV si ++ si_Key si) data.
Definition otaReqChunkAuth (si : ServerInfo) (chunkId : Z) (data : list byte) : list byte :=
  be_bytes 2 (u16 (Z.of_nat (length data))) ++ hmac_sha1 (si_IV si ++ be_bytes 4 chunkId) data ++ data.
Definition oneTimeAuthMask : Z := 0x10.

Fixpoint ota_chunks (si : ServerInfo) (id : Z) (bs : list (list byte)) : list byte * Z :=
  match bs with
  | [] => ([], id)
  | b :: bs => let '(out, id') := ota_chunks si (u32 (id + 1)) bs in (otaReqChunkAuth si id b ++ out, id')
  end.
Definition verify_PreEncrypt (si : ServerInfo) (v : verifySHA1) (data : list byte) : outcome (list byte * verifySHA1) :=
  if vs_hasSentHeader v then
    let '(out, id) := ota_chunks si (vs_chunkId v) (blocks (length data) blockSize data) in Ok (out, MkVerify true id)
  else
    match data with
    | [] => Panic
    | b :: data' =>
        if (si_HeadLen si <=? length data)%nat then
          let data := z2b (Z.lor (b2z b) oneTimeAuthMask) :: data' in
          let rest := drop (si_HeadLen si) data in
          let '(out, id) := ota_chunks si (vs_chunkId v) (blocks (length rest) blockSize rest) in
          Ok (otaConnectAuth si (take (si_HeadLen si) data) ++ out, MkVerify true id)
        else Panic
    end.
Definition verify_PostDecrypt (data : list byte) : list byte * nat := (data, length data).

(** ** auth_sha1_v4.go *)

Record authSHA1v4 := MkSha1v4 { s4_hasSentHeader : bool; s4_data : AuthData }.

Definition sha1v4_randLength (dataLength r : nat) : nat := if (Z.of_nat dataLength <=? 1300) then (1 + r)%nat else 1.

Definition sha1v4_packData (data : list byte) (d : draw) : outcome (list byte) :=
  let randLength := sha1v4_randLength (length data) (d_rand d) in
  let outLength := (randLength + length data + 8)%nat in
  let hdr := be_bytes 2 (Z.land (Z.of_nat outLength) 0xFFFF) in
  crc ← CalcCRC32 hdr 2;
  let body := hdr ++ le_bytes 2 (Z.land crc 0xFFFF) ++ padding (be_bytes 2) randLength (replicate randLength x00) ++ data in
  adler ← CalcAdler32 body;
  Ok (body ++ le_bytes 4 adler).

Definition sha1v4_packAuthData (si : ServerInfo) (ad : AuthData) (data : list byte) (d : draw) : outcome (list byte * AuthData) :=
  let randLength := sha1v4_randLength (length data) (d_rand d) in
  let dataOffset := (randLength + 4 + 2)%nat in
  let outLength := (dataOffset + length data + 12 + 10)%nat in
  let ad := next_connection ad d in
  let hdr := be_bytes 2 (Z.land (Z.of_nat outLength) 0xFFFF) in
  let crcData := hdr ++ lit "auth_sha1_v4" ++ si_Key si in
  crc ← CalcCRC32 crcData (length crcData);
  if (length (ad_clientID ad) <? 4)%nat then Panic
  else
    let body := hdr ++ le_bytes 4 crc ++ padding (be_bytes 2) randLength (d_pad d) ++
                le_bytes 4 (u32 (d_time d)) ++ take 4 (ad_clientID ad) ++ le_bytes 4 (ad_connectionID ad) ++ data in
    Ok (body ++ take 10 (hmac_sha1 (si_IV si ++ si_Key si) body), ad).

Fixpoint pack_all (pack : list byte → draw → outcome (list byte)) (ds : nat → draw) (i : nat) (bs : list (list byte))
    : outcome (list byte) :=
  match bs with
  | [] => Ok []
  | b :: bs => p ← pack b (ds i); out ← pack_all pack ds (S i) bs; Ok (p ++ out)
  end.

Definition sha1v4_PreEncrypt (si : ServerInfo) (a : authSHA1v4) (ds : nat → draw) (data : list byte)
    : outcome (list byte * authSHA1v4) :=
  '(head, rest, a) ← (if negb (s4_hasSentHeader a) && (0 <? length data)%nat then
                        let headSize := Nat.min (GetHeadSize data 30) (length data) in
                        '(p, ad) ← sha1v4_packAuthData si (s4_data a) (take headSize data) (ds 0%nat);
                        Ok (p, drop headSize data, MkSha1v4 true ad)
                      else Ok ([], data, a));
  out ← pack_all sha1v4_packData ds 1 (blocks (length rest) blockSize rest);
  Ok (head ++ out, a).

Definition sha1v4_step (_ : unit) (data : list byte) : verdict unit :=
  match CalcCRC32 data 2 with
  | Ok crc =>
      if negb (le_val (take 2 (drop 2 data)) =? Z.land crc 0xFFFF) then Fail ErrAuthSHA1v4CRC32Error tt
      else
        let len := be_val (take 2 data) in
        if (8192 <=? len) || (len <? 8) then Fail ErrAuthSHA1v4DataLengthError tt
        else if Z.of_nat (length data) <? len then Wait
        else
          match CheckAdler32 data (Z.to_nat len) with
          | Ok true =>
              let b := b2z (nth 4 data x00) in
              let pos := if negb (b =? 0xFF) then b + 4 else be_val (take 2 (drop 5 data)) + 4 in
              let outLength := len - pos - 4 in
              if outLength <? 0 then Crash
              else Packet (take (Z.to_nat outLength) (drop (Z.to_nat pos) data)) (Z.to_nat len) tt
          | Ok false => Fail ErrAuthSHA1v4IncorrectChecksum tt
          | _ => Crash
          end
  | _ => Crash
  end.
Definition sha1v4_PostDecrypt (data : list byte) : outcome (list byte * nat) * unit :=
  drain 4 sha1v4_step (length data) tt data.

(** ** auth_aes128_md5.go and auth_aes128_sha1.go *)

Record aes128_kind := MkKind { k_salt : list byte; k_hmac : list byte → list byte → list byte; k_hash : list byte → list byte }.
Definition NewAuthAES128MD5 : aes128_kind := MkKind (lit "auth_aes128_md5") hmac_md5 md5.
Definition NewAuthAES128SHA1 : aes128_kind := MkKind (lit "auth_aes128_sha1") hmac_sha1 sha1.

Record authAES128 := MkAes { a_hasSentHeader : bool; a_packID : Z; a_recvID : Z; a_userKey : option (list byte); a_data : AuthData }.
Definition aes128_init (ad : AuthData) : authAES128 := MkAes false 1 1 None ad.

(** The key of a packet. *)
Definition id_key (userKey : option (list byte)) (id : Z) : list byte := default [] userKey ++ le_bytes 4 id.

Definition aes128_randLength (dataLength r : nat) : nat :=
  if (Z.of_nat dataLength <=? 1200) then (1 + r)%nat else 1.

Definition aes128_packData (k : aes128_kind) (userKey : option (list byte)) (packID : Z) (data : list byte) (d : draw)
    : list byte :=
  let randLength := aes128_randLength (length data) (d_rand d) in
  let outLength := (randLength + length data + 8)%nat in
  let hdr := le_bytes 2 (Z.land (Z.of_nat outLength) 0xFFFF) in
  let key := id_key userKey packID in
  let body := hdr ++ take 2 (k_hmac k key hdr) ++ padding (le_bytes 2) randLength (d_pad d) ++ data in
  body ++ take 4 (k_hmac k key body).

Fixpoint aes128_packs (k : aes128_kind) (userKey : option (list byte)) (packID : Z) (ds : nat → draw) (i : nat)
    (bs : list (list byte)) : list byte * Z :=
  match bs with
  | [] => ([], packID)
  | b :: bs =>
      let '(out, id) := aes128_packs k userKey (u32 (packID + 1)) ds (S i) bs in
      (aes128_packData k userKey packID b (ds i) ++ out, id)
  end.

(** [tools.EVPBytesToKey] of a key length of at most 16. *)
Definition evp16 (password : list byte) : list byte := md5 password.

Definition aes128_user (k : aes128_kind) (si : ServerInfo) (a : authAES128) (d : draw) : list byte * list byte :=
  let key0 := default (si_Key si) (a_userKey a) in
  match split_byte c_colon (si_Param si) with
  | p0 :: p1 :: _ =>
      match parse_uint p0 32 with
      | (userID, None) => (le_bytes 4 userID, k_hash k p1)
      | (_, Some _) => (d_uid d, key0)
      end
  | _ => (d_uid d, key0)
  end.

Definition aes128_packAuthData (k : aes128_kind) (si : ServerInfo) (a : authAES128) (data : list byte) (d : draw)
    : list byte * authAES128 :=
  let randLength := d_rand d in
  let dataOffset := (randLength + 16 + 4 + 4 + 7)%nat in
  let outLength := (dataOffset + length data + 4)%nat in
  let key := si_IV si ++ si_Key si in
  let ad := next_connection (a_data a) d in
  let '(uid, userKey) := aes128_user k si a d in
  let plain := le_bytes 4 (u32 (d_time d)) ++ take 4 (ad_clientID ad) ++ le_bytes 4 (ad_connectionID ad) ++
               le_bytes 2 (Z.land (Z.of_nat outLength) 0xFFFF) ++ le_bytes 2 (Z.land (Z.of_nat randLength) 0xFFFF) in
  let encrypt := uid ++ aes_cbc (evp16 (b64_encode userKey ++ k_salt k)) plain in
  let encrypt := encrypt ++ take 4 (k_hmac k key encrypt) in
  let head := take 1 (d_head d) in
  let body := head ++ take 6 (k_hmac k key head) ++ encrypt ++ take randLength (d_pad d) ++ data in
  (body ++ take 4 (k_hmac k userKey body), MkAes true (a_packID a) (a_recvID a) (Some userKey) ad).

Definition authLength_max : nat := Z.to_nat 1200.
Definition aes128_PreEncrypt (k : aes128_kind) (si : ServerInfo) (a : authAES128) (ds : nat → draw) (data : list byte)
    : list byte * authAES128 :=
  let '(head, rest, a) :=
    if (0 <? length data)%nat && negb (a_hasSentHeader a) then
      let authLength := Nat.min authLength_max (length data) in
      let '(p, a) := aes128_packAuthData k si a (take authLength data) (ds 0%nat) in (p, drop authLength data, a)
    else ([], data, a) in
  let '(out, id) := aes128_packs k (a_userKey a) (a_packID a) ds 1 (blocks (length rest) blockSize rest) in
  (head ++ out, MkAes (a_hasSentHeader a) id (a_recvID a) (a_userKey a) (a_data a)).

Definition aes128_step (k : aes128_kind) (userKey : option (list byte)) (recvID : Z) (data : list byte) : verdict Z :=
  let h := k_hmac k (id_key userKey recvID) (take 2 data) in
  if negb (bool_decide (take 2 h = take 2 (drop 2 data))) then Fail ErrAuthAES128IncorrectHMAC recvID
  else
    let len := le_val (take 2 data) in
    if (8192 <=? len) || (len <? 8) then Fail ErrAuthAES128DataLengthError recvID
    else if Z.of_nat (length data) <? len then Wait
    else
      let b := b2z (nth 4 data x00) in
      let pos := if b <? 255 then b + 4 else le_val (take 2 (drop 5 data)) + 4 in
      if len - 4 <? pos then Crash
      else Packet (take (Z.to_nat (len - 4 - pos)) (drop (Z.to_nat pos) data)) (Z.to_nat len) (u32 (recvID + 1)).
Definition aes128_PostDecrypt (k : aes128_kind) (a : authAES128) (data : list byte) : outcome (list byte * nat) * authAES128 :=
  let '(r, id) := drain 4 (aes128_step k (a_userKey a)) (length data) (a_recvID a) data in
  (r, MkAes (a_hasSentHeader a) (a_packID a) id (a_userKey a) (a_data a)).
End Crypto.
End SsrProto.

(** * proxy/ssr/internal/protocol: what is packed is unpacked, however the stream is cut. *)
Import SsrSum SsrProto.

(** ** Streams of packets *)

Section Packets.
Context {St : Type} (lim : nat) (step : St → list byte → verdict St).

(** [p] is a packet that carries [d]: it is taken off the head of any buffer, and a part of
    it is waited for. *)
Record is_packet (s : St) (p d : list byte) (s' : St) : Prop := {
  packet_long : (lim < length p)%nat;
  packet_taken : ∀ rest, step s (p ++ rest) = Packet d (length p) s';
  packet_part : ∀ a b, p = a ++ b → b ≠ [] → (lim < length a)%nat → step s a = Wait }.

Inductive packets : St → list (list byte) → list (list byte) → St → Prop :=
| packets_nil s : packets s [] [] s
| packets_cons s p d s' ps ds s'' :
    is_packet s p d s' → packets s' ps ds s'' → packets s (p :: ps) (d :: ds) s''.

Lemma packets_app s ps1 ds1 s1 ps2 ds2 s2 :
  packets s ps1 ds1 s1 → packets s1 ps2 ds2 s2 → packets s (ps1 ++ ps2) (ds1 ++ ds2) s2.
Proof. induction 1; [done|]. intros. cbn [app]. econstructor; eauto. Qed.

Lemma packets_split s ps1 ps2 ds s2 :
  packets s (ps1 ++ ps2) ds s2 → ∃ ds1 ds2 s1, ds = ds1 ++ ds2 ∧ packets s ps1 ds1 s1 ∧ packets s1 ps2 ds2 s2.
Proof.
  revert s ds. induction ps1 as [|p ps1 IH]; intros s ds H; [exists [], ds, s; split_and!; [done|constructor|done]|].
  inversion H as [|? ? d s' ? ds' ? Hp Hps]; subst. destruct (IH _ _ Hps) as (ds1 & ds2 & s1 & -> & H1 & H2).
  exists (d :: ds1), ds2, s1. split_and!; [done|by econstructor|done].
Qed.

(** What is left of a stream: nothing, or a part of the next packet. *)
Definition part_of (a : list byte) (ps : list (list byte)) : Prop :=
  a = [] ∨ ∃ p b ps', ps = p :: ps' ∧ p = a ++ b ∧ b ≠ [].

Lemma split_prefix ps : ∀ l rest, concat ps = l ++ rest →
  ∃ ps1 ps2 a, ps = ps1 ++ ps2 ∧ l = concat ps1 ++ a ∧ part_of a ps2.
Proof.
  induction ps as [|p ps IH]; intros l rest H.
  - symmetry in H. apply app_eq_nil in H as [-> _]. exists [], [], []. split_and!; [done|done|by left].
  - cbn [concat] in H. destruct (decide (length l < length p)%nat) as [Hl|Hl].
    + exists [], (p :: ps), l. split_and!; [done|done|]. right.
      exists p, (drop (length l) p), ps. split; [done|].
      assert (take (length l) p = l) as Ht.
      { rewrite <- (take_app_le p (concat ps)) by lia. rewrite H. apply take_app_length. }
      split; [by rewrite <- Ht at 1; rewrite take_drop|]. intros E%(f_equal length). rewrite length_drop in E. simpl in E. lia.
    + assert (l = p ++ drop (length p) l) as Hp.
      { rewrite <- (take_drop (length p) l) at 1. f_equal. rewrite <- (take_app_le l rest) by lia. rewrite <- H. apply take_app_length. }
      destruct (IH (drop (length p) l) rest) as (ps1 & ps2 & a & -> & Hl' & Hpart).
      { apply (app_inv_head p). by rewrite H, app_assoc, <- Hp. }
      exists (p :: ps1), ps2, a. split_and!; [done| |done]. rewrite Hp, Hl'. cbn [concat]. by rewrite app_assoc.
Qed.

Lemma drain_packets s ps ds s' a ps2 ds2 s2 fuel :
  packets s ps ds s' → packets s' ps2 ds2 s2 → part_of a ps2 → (length (concat ps ++ a) <= fuel)%nat →
  drain lim step fuel s (concat ps ++ a) = (Ok (concat ds, length (concat ps)), s').
Proof.
  intros H. revert fuel. induction H as [s|s p d s' ps ds s'' [Hlong Htake Hpart] Hps IH]; intros fuel H2 Ha Hf.
  - cbn [concat app] in *. destruct fuel as [|fuel]; cbn [drain].
    + destruct a; [done|simpl in Hf; lia].
    + destruct (Nat.ltb_spec lim (length a)); [|done]. destruct Ha as [->|(p & b & ps' & -> & -> & Hb)]; [simpl in *; lia|].
      inversion H2 as [|? ? ? ? ? ? ? [_ _ Hwait]]; subst. by rewrite (Hwait a b).
  - cbn [concat] in *. rewrite <- app_assoc in *. rewrite length_app in Hf.
    destruct fuel as [|fuel]; [lia|]. cbn [drain]. rewrite length_app, (proj2 (Nat.ltb_lt _ _)) by lia.
    rewrite Htake, drop_app_length, IH; [|done|done|lia]. by rewrite length_app.
Qed.

(** The receive buffer of a connection over the reads [segs]: the data of each. *)
Fixpoint posts {T} (post : T → list byte → outcome (list byte * nat) * T) (s : T) (buf : list byte)
    (segs : list (list byte)) : outcome (list (list byte) * list byte * T) :=
  match segs with
  | [] => Ok ([], buf, s)
  | seg :: segs =>
      match post s (buf ++ seg) with
      | (Ok (out, n), s) =>
          '(outs, buf, s) ← posts post s (drop n (buf ++ seg)) segs;
          Ok ((if (n =? 0)%nat then [] else out) :: outs, buf, s)
      | (Err e, _) => Err e
      | (Panic, _) => Panic
      | (OutOfFuel, _) => OutOfFuel
      end
  end.

Lemma posts_packets {T} (inj : St → T) post s ps ds s' segs :
  (∀ s l, post (inj s) l = let '(r, s) := drain lim step (length l) s l in (r, inj s)) →
  packets s ps ds s' → concat segs = concat ps →
  ∃ outs, posts post (inj s) [] segs = Ok (outs, [], inj s') ∧ concat outs = concat ds.
Proof.
  intros Hpost. assert (∀ segs buf s ps ds, packets s ps ds s' → part_of buf ps → buf ++ concat segs = concat ps →
    ∃ outs, posts post (inj s) buf segs = Ok (outs, [], inj s') ∧ concat outs = concat ds) as H.
  2: { intros Hp Hc. apply (H segs [] s ps ds); [done|by left|done]. }
  clear segs s ps ds. induction segs as [|seg segs IH]; intros buf s ps ds Hp Hbuf Hc.
  - cbn [concat] in Hc. rewrite app_nil_r in Hc. cbn [posts]. destruct Hbuf as [->|(p & b & ps' & -> & -> & Hb)].
    + destruct Hp as [|? p ? ? ? ? ? [Hlong _ _]]; [by exists []|]. exfalso.
      apply (f_equal length) in Hc. cbn [concat] in Hc. rewrite length_app in Hc. simpl in Hc. lia.
    + exfalso. apply (f_equal length) in Hc. cbn [concat] in Hc. rewrite !length_app in Hc. destruct b; [done|simpl in Hc; lia].
  - cbn [concat] in Hc. rewrite app_assoc in Hc. destruct (split_prefix ps (buf ++ seg) (concat segs)) as (ps1 & ps2 & a & -> & Hl & Ha); [done|].
    destruct (packets_split _ _ _ _ _ Hp) as (ds1 & ds2 & s1 & -> & H1 & H2). cbn [posts]. rewrite Hpost, Hl.
    rewrite (drain_packets s ps1 ds1 s1 a ps2 ds2 s') by done. rewrite drop_app_length.
    destruct (IH a s1 ps2 ds2) as (outs & -> & Ho); [done|done| |].
    + apply (app_inv_head (concat ps1)). rewrite app_assoc, <- Hl, Hc. apply concat_app.
    + eexists. rewrite bind_ret. split; [done|]. cbn [concat]. rewrite Ho, concat_app. f_equal.
      destruct (Nat.eqb_spec (length (concat ps1)) 0) as [E|]; [|done]. destruct H1 as [|? p ? ? ? ? ? [Hlong _ _]]; [done|].
      cbn [concat] in E. rewrite length_app in E. lia.
Qed.
End Packets.

(** ** Blocks *)

Lemma blockSize_val : Z.of_nat blockSize = 4096.
Proof. unfold blockSize. lia. Qed.
#[local] Opaque blockSize.

Lemma blocks_ok fuel size data :
  (0 < size)%nat → (length data <= fuel)%nat →
  concat (blocks fuel size data) = data ∧ Forall (λ b, 0 < length b <= size)%nat (blocks fuel size data).
Proof.
  intros Hs. revert data. induction fuel as [|fuel IH]; intros [|x data] Hf; try (by split); [simpl in Hf; lia|].
  cbn [blocks]. destruct (Nat.ltb_spec size (length (x :: data))) as [Hl|Hl].
  - destruct (IH (drop size (x :: data))) as [Hc Hb]; [rewrite length_drop; simpl in *; lia|].
    split; [cbn [concat]; by rewrite Hc, take_drop|]. constructor; [rewrite length_take; lia|done].
  - split; [cbn [concat]; by rewrite app_nil_r|]. constructor; [simpl in *; lia|done].
Qed.

(** ** Headers and padding *)

Lemma head_fields (a h1 h2 t : list byte) :
  length h1 = 2%nat → length h2 = 2%nat → (4 <= length a)%nat → a `prefix_of` h1 ++ h2 ++ t →
  take 2 a = h1 ∧ take 2 (drop 2 a) = h2.
Proof.
  intros H1 H2 Ha [k Hk]. destruct h1 as [|a1 [|a2 [|]]], h2 as [|a3 [|a4 [|]]]; try done.
  destruct a as [|b1 [|b2 [|b3 [|b4 a]]]]; simpl in Ha; try lia. by injection Hk as -> -> -> -> _.
Qed.

Lemma land_16 z : 0 <= z < 2 ^ 16 → Z.land z 0xFFFF = z.
Proof. intros Hz. change 0xFFFF with (Z.ones 16). rewrite Z.land_ones by lia. by apply Z.mod_small. Qed.
Lemma land_16_range z : 0 <= Z.land z 0xFFFF < 2 ^ 16.
Proof. change 0xFFFF with (Z.ones 16). rewrite Z.land_ones by lia. apply Z.mod_pos_bound. lia. Qed.

(** Where the code looks for the data behind the padding. *)
Definition data_pos (dec : list byte → Z) (buf : list byte) : Z :=
  let b := b2z (nth 4 buf x00) in if negb (b =? 0xFF) then b + 4 else dec (take 2 (drop 5 buf)) + 4.

Definition codec (enc : Z → list byte) (dec : list byte → Z) : Prop :=
  ∀ z, 0 <= z < 2 ^ 16 → length (enc z) = 2%nat ∧ dec (enc z) = z.
Lemma be2_codec : codec (be_bytes 2) be_val.
Proof. intros z Hz. split; [apply length_be_bytes|by apply be16_id]. Qed.
Lemma le2_codec : codec (le_bytes 2) le_val.
Proof. intros z Hz. split; [apply length_le_bytes|by apply le16_id]. Qed.

Section Frame.
Context (enc : Z → list byte) (dec : list byte → Z) (Hcodec : codec enc dec).

(** A packet: its length, a check of that, padding, data and a checksum. *)
Definition frame (hdr chk : list byte) (n : nat) (rnd data tail : list byte) : list byte :=
  hdr ++ chk ++ padding enc n rnd ++ data ++ tail.

Lemma length_padding n rnd :
  (1 <= n)%nat → Z.of_nat n < 2 ^ 16 → (n <= length rnd)%nat → length (padding enc n rnd) = n.
Proof.
  intros H1 Hn Hr. unfold padding. destruct (Nat.ltb_spec n 128); cbn [length].
  - rewrite length_take, length_drop. lia.
  - destruct (Hcodec (Z.of_nat n)) as [Hl _]; [lia|]. rewrite length_app, Hl, length_take, length_drop. lia.
Qed.

Lemma data_pos_ok hdr n rnd rest :
  length hdr = 4%nat → (1 <= n)%nat → Z.of_nat n < 2 ^ 16 → data_pos dec (hdr ++ padding enc n rnd ++ rest) = Z.of_nat n + 4.
Proof.
  intros Hh H1 Hn. destruct hdr as [|h1 [|h2 [|h3 [|h4 [|]]]]]; try done. unfold data_pos, padding.
  destruct (Nat.ltb_spec n 128); cbn [app nth drop].
  - rewrite b2z_z2b_small by lia. by rewrite (proj2 (Z.eqb_neq _ _)) by lia.
  - change (b2z xff =? 0xFF) with true. cbn [negb]. change (drop 0 ?l) with l.
    destruct (Hcodec (Z.of_nat n)) as [Hl Hd]; [lia|]. rewrite <- app_assoc, take_app_length' by done. by rewrite Hd.
Qed.

Context {St : Type} (step : St → list byte → verdict St).

Lemma frame_packet s s' hdr chk n rnd data tail :
  length hdr = 2%nat → length chk = 2%nat → length tail = 4%nat →
  (1 <= n)%nat → Z.of_nat n < 2 ^ 16 → (n <= length rnd)%nat →
  (∀ l, take 2 l = hdr → take 2 (drop 2 l) = chk → (4 < length l < n + length data + 8)%nat → step s l = Wait) →
  (∀ buf, take 2 buf = hdr → take 2 (drop 2 buf) = chk → data_pos dec buf = Z.of_nat n + 4 →
    take (n + length data + 8) buf = frame hdr chk n rnd data tail →
    step s buf = Packet (take (length data) (drop (n + 4) buf)) (n + length data + 8) s') →
  is_packet 4 step s (frame hdr chk n rnd data tail) data s'.
Proof.
  intros H2 H2' H4 H1 Hn Hr Hpart Htake. pose proof (length_padding n rnd H1 Hn Hr) as Hpad.
  assert (length (frame hdr chk n rnd data tail) = n + length data + 8)%nat as Hlen
    by (unfold frame; rewrite !length_app, H2, H2', H4, Hpad; lia).
  assert (∀ l rest, l `prefix_of` frame hdr chk n rnd data tail ++ rest → (4 < length l)%nat →
    take 2 l = hdr ∧ take 2 (drop 2 l) = chk) as Hhead.
  { intros l rest Hl Hll. unfold frame in Hl. rewrite <- !app_assoc in Hl. eapply head_fields; [done|done|lia|exact Hl]. }
  split; [lia| |].
  - intros rest. destruct (Hhead (frame hdr chk n rnd data tail ++ rest) rest) as [E1 E2]; [done|rewrite length_app; lia|].
    rewrite Hlen, Htake; [|done|done| |by rewrite take_app_length'].
    + f_equal. unfold frame. rewrite <- !app_assoc, (app_assoc hdr), (app_assoc (hdr ++ chk)).
      rewrite drop_app_length' by (rewrite !length_app, H2, H2', Hpad; lia). apply take_app_length.
    + unfold frame. rewrite <- !app_assoc, (app_assoc hdr). apply data_pos_ok; [rewrite length_app; lia|done|done].
  - intros l k Hl Hk Hll. destruct (Hhead l []) as [E1 E2]; [exists k; by rewrite app_nil_r|done|].
    apply Hpart; [done|done|]. rewrite <- Hlen, Hl, length_app. destruct k; [done|simpl; lia].
Qed.
End Frame.

(** ** auth_sha1_v4 *)

Lemma sha1v4_step_at outLength :
  Z.of_nat outLength < 8192 → (8 <= outLength)%nat → ∀ l, (4 < length l)%nat → take 2 l = be_bytes 2 (Z.of_nat outLength) →
  take 2 (drop 2 l) = le_bytes 2 (Z.land (Vm.crc32 (be_bytes 2 (Z.of_nat outLength))) 0xFFFF) →
  sha1v4_step tt l =
    if Z.of_nat (length l) <? Z.of_nat outLength then Wait
    else match CheckAdler32 l outLength with
         | Ok true => let outLen := Z.of_nat outLength - data_pos be_val l - 4 in
             if outLen <? 0 then Crash
             else Packet (take (Z.to_nat outLen) (drop (Z.to_nat (data_pos be_val l)) l)) outLength tt
         | Ok false => Fail ErrAuthSHA1v4IncorrectChecksum tt
         | _ => Crash
         end.
Proof.
  intros Ho Ho8 l Hl E1 E2. unfold sha1v4_step. rewrite CalcCRC32_take, E1, E2 by lia.
  rewrite le16_id by apply land_16_range. rewrite Z.eqb_refl, be16_id by lia. cbn [negb].
  rewrite (proj2 (Z.leb_gt _ _)), (proj2 (Z.ltb_ge _ 8)) by lia. cbn [orb]. by rewrite Nat2Z.id.
Qed.

Lemma sha1v4_pack data d :
  Z.of_nat (length data) <= 4096 → Z.of_nat (d_rand d) < 1024 →
  ∃ p, sha1v4_packData data d = Ok p ∧ is_packet 4 sha1v4_step tt p data tt.
Proof.
  intros Hd Hr. unfold sha1v4_packData. set (n := sha1v4_randLength (length data) (d_rand d)).
  assert (1 <= n)%nat as Hn1 by (unfold n, sha1v4_randLength; case_match; lia).
  assert (Z.of_nat n <= 1024) as Hn by (unfold n, sha1v4_randLength; case_match; lia).
  set (outLength := (n + length data + 8)%nat). rewrite land_16 by lia. set (hdr := be_bytes 2 (Z.of_nat outLength)).
  assert (length hdr = 2%nat) as Hh by apply length_be_bytes. rewrite CalcCRC32_take, (take_ge hdr) by lia.
  rewrite bind_ret. set (crc := Z.land (Vm.crc32 hdr) 0xFFFF). set (body := hdr ++ _).
  destruct (CalcAdler32_ref body) as (a & b & _ & Ha & Hb & Hc). rewrite Hc, bind_ret. eexists. split; [done|].
  set (sum := b * 2 ^ 16 + a) in *.
  replace (body ++ le_bytes 4 sum) with (frame (be_bytes 2) hdr (le_bytes 2 crc) n (replicate n x00) data (le_bytes 4 sum))
    by (unfold body, frame; by rewrite <- !app_assoc).
  pose proof (sha1v4_step_at outLength ltac:(lia) ltac:(lia)) as Hstep. fold hdr in Hstep. fold crc in Hstep.
  apply (frame_packet (be_bytes 2) be_val be2_codec); [done|apply length_le_bytes|apply length_le_bytes|lia|lia|by rewrite length_replicate| |].
  - intros l E1 E2 Hl. rewrite Hstep by (done || lia). by rewrite (proj2 (Z.ltb_lt _ _)) by lia.
  - intros buf E1 E2 Epos Et. assert (outLength <= length buf)%nat as Hbuf.
    { apply (f_equal length) in Et. rewrite length_take in Et. unfold frame in Et. rewrite !length_app, !length_le_bytes, Hh in Et.
      rewrite (length_padding _ _ be2_codec) in Et by (rewrite ?length_replicate; lia). lia. }
    rewrite Hstep by (done || lia). rewrite (proj2 (Z.ltb_ge _ _)) by lia. unfold CheckAdler32.
    rewrite !(proj2 (Nat.leb_le _ _)) by lia. cbn [andb]. fold outLength in Et.
    assert (take (outLength - 4) buf = body ∧ take 4 (drop (outLength - 4) buf) = le_bytes 4 sum) as [-> ->].
    { assert (length body = outLength - 4)%nat as Hb'.
      { unfold body. rewrite !length_app, length_le_bytes, Hh, (length_padding _ _ be2_codec) by (rewrite ?length_replicate; lia). lia. }
      assert (take outLength buf = body ++ le_bytes 4 sum) as Et' by (rewrite Et; unfold frame, body; by rewrite <- !app_assoc).
      rewrite <- Hb'. rewrite <- (take_drop outLength buf), Et', <- app_assoc. rewrite take_app_length, drop_app_length.
      split; [done|]. by apply take_app_length'. }
    rewrite Hc, bind_ret, le32_id, Z.eqb_refl, Epos by lia. cbv zeta. rewrite (proj2 (Z.ltb_ge _ _)) by lia.
    f_equal. by replace (Z.to_nat (Z.of_nat outLength - (Z.of_nat n + 4) - 4)) with (length data) by lia;
      replace (Z.to_nat (Z.of_nat n + 4)) with (n + 4)%nat by lia.
Qed.

Lemma sha1v4_pack_all ds i bs :
  (∀ i, Z.of_nat (d_rand (ds i)) < 1024) → Forall (λ b, Z.of_nat (length b) <= 4096) bs →
  ∃ ps, pack_all sha1v4_packData ds i bs = Ok (concat ps) ∧ packets 4 sha1v4_step tt ps bs tt.
Proof.
  intros Hd Hbs. revert i. induction Hbs as [|b bs Hb Hbs IH]; intros i; [exists []; split; [done|constructor]|].
  destruct (sha1v4_pack b (ds i) Hb (Hd i)) as (p & Ep & Hp). destruct (IH (S i)) as (ps & Eps & Hps).
  exists (p :: ps). cbn [pack_all]. rewrite Ep, bind_ret, Eps, bind_ret. split; [done|]. by econstructor.
Qed.

(** ** auth_aes128 *)

Section Aes.
Context (k : aes128_kind) (userKey : option (list byte)).
Hypothesis hmac_long : ∀ key m, (4 <= length (k_hmac k key m))%nat.

Lemma aes128_step_at recvID outLength :
  Z.of_nat outLength < 8192 → (8 <= outLength)%nat → ∀ l, take 2 l = le_bytes 2 (Z.of_nat outLength) →
  take 2 (drop 2 l) = take 2 (k_hmac k (id_key userKey recvID) (le_bytes 2 (Z.of_nat outLength))) →
  aes128_step k userKey recvID l =
    if Z.of_nat (length l) <? Z.of_nat outLength then Wait
    else if Z.of_nat outLength - 4 <? data_pos le_val l then Crash
    else Packet (take (Z.to_nat (Z.of_nat outLength - 4 - data_pos le_val l)) (drop (Z.to_nat (data_pos le_val l)) l))
           outLength (u32 (recvID + 1)).
Proof.
  intros Ho Ho8 l E1 E2. unfold aes128_step. rewrite E1, E2, bool_decide_eq_true_2, le16_id by (done || lia). cbn [negb].
  rewrite (proj2 (Z.leb_gt _ _)), (proj2 (Z.ltb_ge _ 8)) by lia. cbn [orb]. rewrite Nat2Z.id. unfold data_pos.
  pose proof (b2z_range (nth 4 l x00)).
  assert ((b2z (nth 4 l x00) <? 255) = negb (b2z (nth 4 l x00) =? 255)) as -> by lia. done.
Qed.

(** The header of a packet makes it one, whatever its data and its last four bytes. *)
Lemma aes128_frame packID n rnd data tail :
  let hdr := le_bytes 2 (Z.of_nat (n + length data + 8)) in
  (1 <= n <= length rnd)%nat → Z.of_nat n + Z.of_nat (length data) + 8 < 8192 → length tail = 4%nat →
  is_packet 4 (aes128_step k userKey) packID
    (frame (le_bytes 2) hdr (take 2 (k_hmac k (id_key userKey packID) hdr)) n rnd data tail) data (u32 (packID + 1)).
Proof.
  intros hdr Hn1 Hn Ht. set (outLength := (n + length data + 8)%nat) in *.
  assert (length hdr = 2%nat) as Hh by apply length_le_bytes.
  set (chk := take 2 (k_hmac k (id_key userKey packID) hdr)).
  assert (length chk = 2%nat) as Hc.
  { unfold chk. rewrite length_take. pose proof (hmac_long (id_key userKey packID) hdr). lia. }
  pose proof (aes128_step_at packID outLength ltac:(lia) ltac:(lia)) as Hstep. fold hdr in Hstep. fold chk in Hstep.
  apply (frame_packet (le_bytes 2) le_val le2_codec); [done|done|done|lia|lia|lia| |].
  - intros l E1 E2 Hl. rewrite Hstep by done. by rewrite (proj2 (Z.ltb_lt _ _)) by lia.
  - intros buf E1 E2 Epos Et. assert (outLength <= length buf)%nat as Hbuf.
    { apply (f_equal length) in Et. rewrite length_take in Et. unfold frame in Et.
      rewrite !length_app, Ht, Hc, Hh, (length_padding _ _ le2_codec) in Et by lia. lia. }
    rewrite Hstep by done. rewrite (proj2 (Z.ltb_ge _ _)), Epos, (proj2 (Z.ltb_ge _ _)) by lia. f_equal.
    by replace (Z.to_nat (Z.of_nat outLength - 4 - (Z.of_nat n + 4))) with (length data) by lia;
      replace (Z.to_nat (Z.of_nat n + 4)) with (n + 4)%nat by lia.
Qed.

Lemma aes128_pack packID data d :
  Z.of_nat (length data) <= 4096 → Z.of_nat (d_rand d) < 512 → (d_rand d < length (d_pad d))%nat →
  is_packet 4 (aes128_step k userKey) packID (aes128_packData k userKey packID data d) data (u32 (packID + 1)).
Proof.
  intros Hd Hr Hpad. unfold aes128_packData. set (n := aes128_randLength (length data) (d_rand d)).
  assert (1 <= n <= length (d_pad d))%nat as Hn1 by (unfold n, aes128_randLength; case_match; lia).
  assert (Z.of_nat n <= 512) as Hn by (unfold n, aes128_randLength; case_match; lia).
  rewrite land_16 by lia. rewrite (app_assoc _ (padding _ _ _)), <- !app_assoc.
  apply aes128_frame; [lia|lia|]. rewrite length_take. pose proof (hmac_long (id_key userKey packID)
    (le_bytes 2 (Z.of_nat (n + length data + 8)) ++ take 2 (k_hmac k (id_key userKey packID) (le_bytes 2 (Z.of_nat (n + length data + 8)))) ++
     padding (le_bytes 2) n (d_pad d) ++ data)). lia.
Qed.

Lemma aes128_pack_all ds i bs packID :
  (∀ i, Z.of_nat (d_rand (ds i)) < 512 ∧ (d_rand (ds i) < length (d_pad (ds i)))%nat) →
  Forall (λ b, Z.of_nat (length b) <= 4096) bs →
  ∃ ps id, aes128_packs k userKey packID ds i bs = (concat ps, id) ∧ packets 4 (aes128_step k userKey) packID ps bs id.
Proof.
  intros Hd Hbs. revert i packID. induction Hbs as [|b bs Hb Hbs IH]; intros i packID;
    [exists [], packID; split; [done|constructor]|].
  destruct (IH (S i) (u32 (packID + 1))) as (ps & id & Eps & Hps). destruct (Hd i).
  exists (aes128_packData k userKey packID b (ds i) :: ps), id. cbn [aes128_packs]. rewrite Eps.
  split; [done|]. econstructor; [by apply aes128_pack|done].
Qed.
End Aes.

(** ** Round trips *)

(** What auth_sha1_v4 packs after its header is a stream of packets its receive side
    unpacks to exactly the data, for any lengths of the paddings and however the stream is
    cut into reads; nothing is left in the receive buffer. *)
Theorem sha1v4_stream hmac_sha1 si ad ds data wire a segs :
  (∀ i, Z.of_nat (d_rand (ds i)) < 1024) →
  sha1v4_PreEncrypt hmac_sha1 si (MkSha1v4 true ad) ds data = Ok (wire, a) → concat segs = wire →
  a = MkSha1v4 true ad ∧
  ∃ outs, posts (λ _, sha1v4_PostDecrypt) tt [] segs = Ok (outs, [], tt) ∧ concat outs = data.
Proof.
  intros Hd. unfold sha1v4_PreEncrypt. cbn [s4_hasSentHeader negb andb]. rewrite bind_ret.
  destruct (blocks_ok (length data) blockSize data) as [Hc Hb]; [pose proof blockSize_val; lia|lia|].
  destruct (sha1v4_pack_all ds 1 (blocks (length data) blockSize data) Hd) as (ps & -> & Hps).
  { eapply Forall_impl; [exact Hb|]. intros b. pose proof blockSize_val. simpl. lia. }
  rewrite bind_ret. intros [= <- <-] Hs. split; [done|]. rewrite <- Hc.
  apply (posts_packets 4 sha1v4_step (λ s : unit, s) (λ _, sha1v4_PostDecrypt) tt ps _ tt segs); [|done|done].
  intros [] l. unfold sha1v4_PostDecrypt. by destruct (drain 4 sha1v4_step (length l) tt l).
Qed.

(** What auth_aes128_md5 and auth_aes128_sha1 pack after their header is unpacked by a
    peer with the same user key whose receive counter is the sender's to exactly the data,
    however the stream is cut into reads, and leaves the two counters equal again, also
    when they wrap around. *)
Theorem aes128_stream md5 aes_cbc (k : aes128_kind) si a b ds data wire a' segs :
  (∀ key m, (4 <= length (k_hmac k key m))%nat) →
  (∀ i, Z.of_nat (d_rand (ds i)) < 512 ∧ (d_rand (ds i) < length (d_pad (ds i)))%nat) →
  a_hasSentHeader a = true → a_userKey b = a_userKey a → a_recvID b = a_packID a →
  aes128_PreEncrypt md5 aes_cbc k si a ds data = (wire, a') → concat segs = wire →
  ∃ outs b', posts (aes128_PostDecrypt k) b [] segs = Ok (outs, [], b') ∧ concat outs = data ∧ a_recvID b' = a_packID a'.
Proof.
  intros Hh Hd Ha Hk Hid. unfold aes128_PreEncrypt. rewrite Ha, andb_false_r.
  destruct (blocks_ok (length data) blockSize data) as [Hc Hb]; [pose proof blockSize_val; lia|lia|].
  destruct (aes128_pack_all k (a_userKey a) Hh ds 1 (blocks (length data) blockSize data) (a_packID a) Hd) as (ps & id & -> & Hps).
  { eapply Forall_impl; [exact Hb|]. intros x. pose proof blockSize_val. simpl. lia. }
  intros [= <- <-] Hs. cbn [app] in Hs.
  set (inj := λ id, MkAes (a_hasSentHeader b) (a_packID b) id (a_userKey b) (a_data b)).
  destruct (posts_packets 4 (aes128_step k (a_userKey a)) inj (aes128_PostDecrypt k) (a_packID a) ps (blocks (length data) blockSize data) id segs) as (outs & Ho & Hoc);
    [|done|done|].
  { intros s l. unfold aes128_PostDecrypt, inj. cbn [a_userKey a_recvID a_hasSentHeader a_packID a_data]. rewrite Hk. done. }
  exists outs, (inj id). split_and!; [|by rewrite Hoc|done]. rewrite <- Ho. f_equal. unfold inj. rewrite <- Hid. by destruct b.
Qed.
