(* ===== verification/SsrChain.v ===== *)
(** proxy/ssr/internal/protocol/auth_chain_a.go and auth_chain_b.go: packets whose paddings
    both ends compute from a chain of hashes.

    RC4 is what its stream makes of all it was given so far. *)
From stdpp Require Import sorting.
From S2P Require Import Prelude GoStd Reader ProxyConn SocksAddr Shadowsocks HttpHead SsStream SsrSum SsrProto.
Import SsStream SsrProto.

Module SsrChain.

Definition ErrAuthChainDataLengthError : error := "auth_chain_* post decrypt length mismatch".
Definition ErrAuthChainIncorrectHMAC : error := "auth_chain_* post decrypt incorrect hmac".

(** ** tools/obfsutil.go: the generator *)

Definition Shift128plus : Type := Z * Z.
Definition fill16 (bin : list byte) : list byte := take 16 (bin ++ replicate 16 x00).
Definition InitFromBin (bin : list byte) : Shift128plus :=
  let b := fill16 bin in (le_val (take 8 b), le_val (drop 8 b)).
Definition Next (v : Shift128plus) : Z * Shift128plus :=
  let '(x, y) := v in
  let x := Z.lxor x (u64 (Z.shiftl x 23)) in
  let x := Z.lxor x (Z.lxor (Z.lxor y (Z.shiftr x 17)) (Z.shiftr y 26)) in
  (u64 (x + y), (y, x)).
Definition InitFromBinDatalen (bin : list byte) (datalen : Z) : Shift128plus :=
  let b := le_bytes 2 (u16 datalen) ++ drop 2 (fill16 bin) in
  Nat.iter 4 (λ v, (Next v).2) (le_val (take 8 b), le_val (drop 8 b)).

(** ** The length of a padding *)

(** What depends on the length only: the last lines of both functions. *)
Definition rand_by_length (dataLength : Z) (v : Shift128plus) : Z * Shift128plus :=
  let '(r, v) := Next v in
  (if 1300 <? dataLength then r mod 31
   else if 900 <? dataLength then r mod 127
   else if 400 <? dataLength then r mod 521
   else r mod 1021, v).

Definition authChainAGetRandLen (dataLength : Z) (v : Shift128plus) (lastHash : list byte) (overhead : Z) : Z * Shift128plus :=
  if 1440 <? dataLength then (0, v)
  else rand_by_length dataLength (InitFromBinDatalen (take 16 lastHash) dataLength).

(** [sort.Search] for the first entry above a bound. *)
Fixpoint upper_bound (l : list Z) (x : Z) : nat :=
  match l with
  | [] => 0
  | y :: l => if x <? y then 0 else S (upper_bound l x)
  end.

Fixpoint draw_sizes (n : nat) (v : Shift128plus) : list Z * Shift128plus :=
  match n with
  | O => ([], v)
  | S n => let '(r, v) := Next v in let '(l, v) := draw_sizes n v in (r mod 2340 mod 2040 mod 1440 :: l, v)
  end.
(** [authChainBInitDataSize] of a key. *)
Definition authChainBInitDataSize (key : list byte) : list Z * list Z * Shift128plus :=
  let '(r, v) := Next (InitFromBin key) in
  let '(l1, v) := draw_sizes (Z.to_nat (r mod 8 + 4)) v in
  let '(r, v) := Next v in
  let '(l2, v) := draw_sizes (Z.to_nat (r mod 16 + 8)) v in
  (merge_sort Z.le l1, merge_sort Z.le l2, v).

Definition authChainBGetRandLen (sizes sizes2 : list Z) (dataLength : Z) (v : Shift128plus) (lastHash : list byte) (overhead : Z)
    : Z * Shift128plus :=
  if 1440 <? dataLength then (0, v)
  else
    let v := InitFromBinDatalen (take 16 lastHash) dataLength in
    let pos := upper_bound sizes (dataLength + overhead) in
    let '(r, v) := Next v in
    let finalPos := (pos + Z.to_nat (r mod Z.of_nat (length sizes)))%nat in
    match sizes !! finalPos with
    | Some x => (x - dataLength - overhead, v)
    | None =>
        let pos := upper_bound sizes2 (dataLength + overhead) in
        let '(r, v) := Next v in
        let finalPos := (pos + Z.to_nat (r mod Z.of_nat (length sizes2)))%nat in
        match sizes2 !! finalPos with
        | Some x => (x - dataLength - overhead, v)
        | None => if (finalPos <? pos + length sizes2 - 1)%nat then (0, v) else rand_by_length dataLength v
        end
    end.

Definition getRandStartPos (v : Shift128plus) (randLength : Z) : Z * Shift128plus :=
  if 0 <? randLength then let '(r, v) := Next v in ((r mod 8589934609) mod randLength, v) else (0, v).

(** ** Packets *)

Section Chain.
Context (hmac : list byte → list byte → list byte) (rc4 : list byte → list byte).
Context (rnd : Z → Shift128plus → list byte → Z → Z * Shift128plus).
Context (userKey : list byte) (overhead : Z).

(** The sending side: the last hash, the counter, the generator and the past of the cipher. *)
Record sender := MkSender { lastClientHash : list byte; chunkID : Z; randomClient : Shift128plus; enc_past : list byte }.

Definition chain_key (id : Z) : list byte := userKey ++ le_bytes 4 id.

(** [packedDataLen] and [packData]; [fill] gives the random bytes. *)
Definition chain_packData (s : sender) (data fill : list byte) : list byte * sender :=
  let dataLength := Z.of_nat (length data) in
  let '(randLength, v) := rnd dataLength (randomClient s) (lastClientHash s) overhead in
  let h14 := b2z (nth 14 (lastClientHash s) x00) in
  let h15 := b2z (nth 15 (lastClientHash s) x00) in
  let hdr := [z2b (Z.lxor (dataLength mod 256) h14); z2b (Z.lxor (dataLength / 256 mod 256) h15)] in
  let '(body, v, past) :=
    if (0 <? length data)%nat then
      let '(pos, v) := getRandStartPos v randLength in
      (take (Z.to_nat pos) fill ++ XORKeyStream rc4 (enc_past s) data ++
         take (Z.to_nat (randLength - pos)) (drop (Z.to_nat pos) fill), v, enc_past s ++ data)
    else (take (Z.to_nat randLength) fill, v, enc_past s) in
  let id := u32 (chunkID s + 1) in
  let hash := hmac (chain_key id) (hdr ++ body) in
  (hdr ++ body ++ take 2 hash, MkSender hash id v past).

Fixpoint chain_packs (s : sender) (fills : nat → list byte) (i : nat) (bs : list (list byte)) : list byte * sender :=
  match bs with
  | [] => ([], s)
  | b :: bs => let '(p, s) := chain_packData s b (fills i) in
               let '(out, s) := chain_packs s fills (S i) bs in (p ++ out, s)
  end.

(** The receiving side. *)
Record receiver := MkReceiver { lastServerHash : list byte; recvID : Z; randomServer : Shift128plus; dec_past : list byte; r_mss : Z }.

(** The body of the loop of [PostDecrypt].  When the code waits for more its generator has
    moved, but it is set anew before it is used again. *)
Definition chain_step (s : receiver) (data : list byte) : verdict receiver :=
  let h14 := b2z (nth 14 (lastServerHash s) x00) in
  let h15 := b2z (nth 15 (lastServerHash s) x00) in
  let dataLen := Z.shiftl (Z.lxor (b2z (nth 1 data x00)) h15) 8 + Z.lxor (b2z (nth 0 data x00)) h14 in
  let '(randLen, v) := rnd dataLen (randomServer s) (lastServerHash s) overhead in
  let len := randLen + dataLen in
  if 4096 <=? len then Fail ErrAuthChainDataLengthError s
  else
    let len := len + 4 in
    if Z.of_nat (length data) <? len then Wait
    else if len <? 2 then Crash
    else
      let n := Z.to_nat len in
      let hash := hmac (chain_key (recvID s)) (take (n - 2) data) in
      if negb (bool_decide (take 2 hash = take 2 (drop (n - 2) data))) then Fail ErrAuthChainIncorrectHMAC s
      else
        let '(dataPos, v) := if (0 <? dataLen) && (0 <? randLen) then let '(p, v) := getRandStartPos v randLen in (2 + p, v) else (2, v) in
        let c := take (Z.to_nat dataLen) (drop (Z.to_nat dataPos) data) in
        let b := XORKeyStream rc4 (dec_past s) c in
        let past := dec_past s ++ c in
        let s' mss := MkReceiver hash (u32 (recvID s + 1)) v past mss in
        if recvID s =? 1 then
          if (length b <? 2)%nat then Crash else Packet (drop 2 b) n (s' (le_val (take 2 b)))
        else Packet b n (s' (r_mss s)).
Definition chain_PostDecrypt (s : receiver) (data : list byte) : outcome (list byte * nat) * receiver :=
  drain 4 chain_step (length data) s data.

(** [PreEncrypt] after the header: packets of the size the server asked for.  A size below
    zero is a slice bound out of range; with size zero the loop never ends. *)
Definition chain_PreEncrypt (mss : Z) (s : sender) (fills : nat → list byte) (data : list byte) : outcome (list byte * sender) :=
  let unitSize := mss - overhead in
  if unitSize <? 0 then Panic
  else if (unitSize =? 0) && (0 <? length data)%nat then OutOfFuel
  else Ok (chain_packs s fills 0 (blocks (length data) (Z.to_nat unitSize) data)).
End Chain.
End SsrChain.

(** * proxy/ssr/internal/protocol: the two ends of auth_chain_a and auth_chain_b compute the
    same paddings and stay in step. *)
Import SsStream SsrProto SsrChain.

(** What the protocol needs of the length of a padding: both ends compute it, and where it
    goes, from the hash and the length of the data alone; and it is bounded. *)
Class RndLaws (rnd : Z → Shift128plus → list byte → Z → Z * Shift128plus) (overhead : Z) : Prop := {
  rnd_len : ∀ d v v' h, (rnd d v h overhead).1 = (rnd d v' h overhead).1;
  rnd_state : ∀ d v v' h, 0 < (rnd d v h overhead).1 → (rnd d v h overhead).2 = (rnd d v' h overhead).2;
  rnd_range : ∀ d v h, 0 <= d → 0 <= (rnd d v h overhead).1 <= 1440 }.

Lemma Next_range v : 0 <= (Next v).1 < 2 ^ 64.
Proof. destruct v as [x y]. apply Z.mod_pos_bound. lia. Qed.

Lemma rand_by_length_range d v : 0 <= (rand_by_length d v).1 <= 1020.
Proof.
  unfold rand_by_length. destruct (Next v) as [r v']. cbn [fst].
  repeat case_match; pose proof (Z.mod_pos_bound r 31); pose proof (Z.mod_pos_bound r 127);
    pose proof (Z.mod_pos_bound r 521); pose proof (Z.mod_pos_bound r 1021); lia.
Qed.

#[global] Instance chain_a_laws overhead : RndLaws authChainAGetRandLen overhead.
Proof.
  split; unfold authChainAGetRandLen.
  - intros. by destruct (1440 <? d).
  - intros d v v' h. destruct (1440 <? d); [simpl; lia|done].
  - intros d v h Hd. destruct (1440 <? d); [simpl; lia|]. pose proof (rand_by_length_range d (InitFromBinDatalen (take 16 h) d)). lia.
Qed.

(** The sizes of auth_chain_b. *)
Lemma upper_bound_above l x : Sorted Z.le l → ∀ i y, (upper_bound l x <= i)%nat → l !! i = Some y → x < y.
Proof.
  intros Hl. apply (StronglySorted_Sorted Z.le) in Hl || apply Sorted_StronglySorted in Hl; [|intros ? ? ?; lia].
  induction Hl as [|z l Hl IH Hz]; intros i y Hi Hy; [done|]. cbn [upper_bound] in Hi.
  destruct (Z.ltb_spec x z).
  - destruct i as [|i]; [by injection Hy as <-|]. apply (proj1 (Forall_lookup _ _) Hz i) in Hy. lia.
  - destruct i as [|i]; [lia|]. apply (IH i); [lia|done].
Qed.

Definition sizes_ok (l : list Z) : Prop := Sorted Z.le l ∧ Forall (λ x, 0 <= x < 1440) l.

Lemma chain_b_laws sizes sizes2 overhead :
  sizes_ok sizes → sizes_ok sizes2 → 0 <= overhead → RndLaws (authChainBGetRandLen sizes sizes2) overhead.
Proof.
  intros [Hs1 Hb1] [Hs2 Hb2] Ho. split; unfold authChainBGetRandLen.
  - intros. by destruct (1440 <? d).
  - intros d v v' h. destruct (1440 <? d); [simpl; lia|done].
  - intros d v h Hd. destruct (1440 <? d); [simpl; lia|]. set (u := InitFromBinDatalen (take 16 h) d).
    destruct (Next u) as [r u']. destruct (sizes !! _) as [x|] eqn:E.
    { assert (d + overhead < x) by (eapply (upper_bound_above sizes _ Hs1); [|exact E]; lia).
      apply (proj1 (Forall_lookup _ _) Hb1) in E. simpl in *. lia. }
    destruct (Next u') as [r' u'']. destruct (sizes2 !! _) as [x|] eqn:E2.
    { assert (d + overhead < x) by (eapply (upper_bound_above sizes2 _ Hs2); [|exact E2]; lia).
      apply (proj1 (Forall_lookup _ _) Hb2) in E2. simpl in *. lia. }
    destruct (_ <? _)%nat; [simpl; lia|]. pose proof (rand_by_length_range d u''). lia.
Qed.

Lemma draw_sizes_range n : ∀ v, Forall (λ x, 0 <= x < 1440) (draw_sizes n v).1.
Proof.
  induction n as [|n IH]; intros v; [constructor|]. cbn [draw_sizes]. destruct (Next v) as [r v'].
  specialize (IH v'). destruct (draw_sizes n v') as [l v'']. cbn [fst] in *. constructor; [|done].
  apply Z.mod_pos_bound. lia.
Qed.

Lemma sort_sizes l : Forall (λ x, 0 <= x < 1440) l → sizes_ok (merge_sort Z.le l).
Proof.
  intros H. split.
  - apply Sorted_merge_sort. intros x y. lia.
  - eapply Permutation_Forall; [symmetry; apply merge_sort_Permutation|done].
Qed.

Lemma chain_b_sizes key : let '(l1, l2, _) := authChainBInitDataSize key in sizes_ok l1 ∧ sizes_ok l2.
Proof.
  unfold authChainBInitDataSize. destruct (Next (InitFromBin key)) as [r v].
  pose proof (draw_sizes_range (Z.to_nat (r mod 8 + 4)) v) as H1. destruct (draw_sizes (Z.to_nat (r mod 8 + 4)) v) as [l1 v1].
  destruct (Next v1) as [r2 v2].
  pose proof (draw_sizes_range (Z.to_nat (r2 mod 16 + 8)) v2) as H2. destruct (draw_sizes (Z.to_nat (r2 mod 16 + 8)) v2) as [l2 v3].
  split; by apply sort_sizes.
Qed.

Section Chain.
Context (hmac : list byte → list byte → list byte) (rc4 : list byte → list byte).
Context (rnd : Z → Shift128plus → list byte → Z → Z * Shift128plus).
Context (userKey : list byte) (overhead : Z) `{!RndLaws rnd overhead}.
Hypothesis hmac_long : ∀ k m, (2 <= length (hmac k m))%nat.
Hypothesis rc4_streaming : streaming rc4.
Hypothesis rc4_inverse : ∀ p, rc4 (rc4 p) = p.

Notation step := (chain_step hmac rc4 rnd userKey overhead).
Notation pack := (chain_packData hmac rc4 rnd userKey overhead).

(** The receiver that is in step with a sender. *)
Definition chain_peer (s : sender) (v : Shift128plus) (mss : Z) : receiver :=
  MkReceiver (lastClientHash s) (u32 (chunkID s + 1)) v (rc4 (enc_past s)) mss.

Lemma masked_byte x h : 0 <= x < 256 → Z.lxor (b2z (z2b (Z.lxor x (b2z h)))) (b2z h) = x.
Proof.
  intros Hx. pose proof (b2z_range h). assert (0 <= Z.lxor x (b2z h) < 2 ^ 8) by (apply lxor_below; lia).
  rewrite b2z_z2b_small by lia. by rewrite Z.lxor_assoc, Z.lxor_nilpotent, Z.lxor_0_r.
Qed.

Lemma masked_length d h14 h15 :
  0 <= d < 2 ^ 16 →
  Z.shiftl (Z.lxor (b2z (z2b (Z.lxor (d / 256 mod 256) (b2z h15)))) (b2z h15)) 8 +
    Z.lxor (b2z (z2b (Z.lxor (d mod 256) (b2z h14)))) (b2z h14) = d.
Proof.
  intros Hd. assert (0 <= d / 256 < 256) by (split; [apply Z.div_pos|apply Z.div_lt_upper_bound]; lia).
  rewrite !masked_byte by (apply Z.mod_pos_bound; lia). rewrite Z.shiftl_mul_pow2 by lia.
  rewrite (Z.mod_small (d / 256)) by lia. change (2 ^ 8) with 256. pose proof (Z.div_mod d 256). lia.
Qed.

Lemma start_pos v r : 0 <= r → 0 <= (getRandStartPos v r).1 <= r.
Proof.
  intros Hr. unfold getRandStartPos. destruct (Z.ltb_spec 0 r); [|simpl; lia]. destruct (Next v) as [x v']. cbn [fst].
  pose proof (Z.mod_pos_bound (x mod 8589934609) r). lia.
Qed.

(** The receiver's decryption of a part of the stream. *)
Lemma rc4_part past data : XORKeyStream rc4 (rc4 past) (XORKeyStream rc4 past data) = data.
Proof.
  destruct rc4_streaming as [Hp Hl]. unfold XORKeyStream.
  assert (rc4 past ++ drop (length past) (rc4 (past ++ data)) = rc4 (past ++ data)) as ->
    by (rewrite <- (Hp past data) at 1; apply take_drop).
  rewrite rc4_inverse, Hl. apply drop_app_length.
Qed.
Lemma rc4_past past data : rc4 past ++ XORKeyStream rc4 past data = rc4 (past ++ data).
Proof. destruct rc4_streaming as [Hp Hl]. unfold XORKeyStream. rewrite <- (Hp past data) at 1. apply take_drop. Qed.

(** The header of a packet. *)
Definition masked (h : list byte) (d : Z) : list byte :=
  [z2b (Z.lxor (d mod 256) (b2z (nth 14 h x00))); z2b (Z.lxor (d / 256 mod 256) (b2z (nth 15 h x00)))].

(** What the receiver does with a buffer that starts with a header. *)
Lemma chain_step_at s v mss d R w :
  0 < d < 2 ^ 16 → 0 <= R → u32 (chunkID s + 1) ≠ 1 → rnd d v (lastClientHash s) overhead = (R, w) → R + d < 4096 →
  ∀ pos, pos = (if (0 <? d) && (0 <? R) then getRandStartPos w R else (0, w)) → ∀ a, (∃ t, a = masked (lastClientHash s) d ++ t) → step (chain_peer s v mss) a =
    if Z.of_nat (length a) <? R + d + 4 then Wait else
    let n := Z.to_nat (R + d + 4) in
    let hash := hmac (chain_key userKey (u32 (chunkID s + 1))) (take (n - 2) a) in
    if negb (bool_decide (take 2 hash = take 2 (drop (n - 2) a))) then Fail ErrAuthChainIncorrectHMAC (chain_peer s v mss)
    else let c := take (Z.to_nat d) (drop (Z.to_nat (2 + pos.1)) a) in
         Packet (XORKeyStream rc4 (rc4 (enc_past s)) c) n
           (MkReceiver hash (u32 (u32 (chunkID s + 1) + 1)) pos.2 (rc4 (enc_past s) ++ c) mss).
Proof.
  intros Hd HR Hid Er Hlen pos Epos a [t ->]. unfold chain_step. cbn [chain_peer lastServerHash recvID randomServer dec_past r_mss].
  unfold masked. cbn [app nth]. rewrite masked_length, Er by lia.
  rewrite (proj2 (Z.leb_gt _ _)) by lia. destruct (Z.of_nat (length (_ :: _ :: t)) <? R + d + 4); [done|].
  rewrite (proj2 (Z.ltb_ge (R + d + 4) 2)) by lia. cbv zeta. destruct (negb _); [done|].
  assert ((if (0 <? d) && (0 <? R) then let '(p0, v0) := getRandStartPos w R in (2 + p0, v0) else (2, w)) = (2 + pos.1, pos.2)) as ->.
  { rewrite Epos. destruct ((0 <? d) && (0 <? R)); [|done]. by destruct (getRandStartPos w R). }
  by rewrite (proj2 (Z.eqb_neq _ _)) by done.
Qed.

Lemma chain_pack s data fill v mss :
  (0 < length data)%nat → Z.of_nat (length data) < 2600 → u32 (chunkID s + 1) ≠ 1 → 1440 <= Z.of_nat (length fill) →
  ∃ v', is_packet 4 step (chain_peer s v mss) (pack s data fill).1 data (chain_peer (pack s data fill).2 v' mss).
Proof.
  intros Hne Hd Hid Hfill. set (d := Z.of_nat (length data)). set (h := lastClientHash s).
  assert (0 <= d < 2 ^ 16) as Hd16 by lia. unfold chain_packData. fold d h.
  destruct (rnd d (randomClient s) h overhead) as [R w] eqn:Er. destruct (rnd d v h overhead) as [R' w'] eqn:Er'.
  assert (R' = R) as -> by (pose proof (rnd_len d v (randomClient s) h) as Hx; rewrite Er, Er' in Hx; done).
  pose proof (rnd_range d v h ltac:(lia)) as HR. rewrite Er' in HR. cbn [fst] in HR.
  assert (0 < R → w' = w) as Hw by (intros HR0; pose proof (rnd_state d v (randomClient s) h) as Hx; rewrite Er, Er' in Hx; by apply Hx).
  rewrite (proj2 (Nat.ltb_lt _ _)) by done. destruct (getRandStartPos w R) as [pos u] eqn:Ep.
  pose proof (start_pos w R ltac:(lia)) as Hpos. rewrite Ep in Hpos. cbn [fst snd] in *.
  set (F1 := take (Z.to_nat pos) fill). set (C := XORKeyStream rc4 (enc_past s) data).
  set (F2 := take (Z.to_nat (R - pos)) (drop (Z.to_nat pos) fill)).
  assert (length F1 = Z.to_nat pos ∧ length F2 = Z.to_nat (R - pos)) as [L1 L2].
  { unfold F1, F2. rewrite !length_take, length_drop. lia. }
  assert (length C = length data) as LC by (by apply xor_length).
  fold (masked h d). set (hdr := masked h d). set (hash := hmac _ (hdr ++ F1 ++ C ++ F2)).
  set (pos' := if (0 <? d) && (0 <? R) then (getRandStartPos w' R) else (0, w')).
  assert (pos'.1 = pos) as Hpos'.
  { unfold pos'. rewrite (proj2 (Z.ltb_lt 0 d)) by lia. cbn [andb]. destruct (Z.ltb_spec 0 R) as [HR0|HR0].
    - by rewrite (Hw HR0), Ep.
    - unfold getRandStartPos in Ep. rewrite (proj2 (Z.ltb_ge 0 R)) in Ep by lia. by injection Ep as <- _. }
  exists pos'.2. set (p := hdr ++ (F1 ++ C ++ F2) ++ take 2 hash).
  assert (length p = Z.to_nat (R + d + 4)) as Lp.
  { unfold p. rewrite !length_app, L1, L2, LC, length_take. pose proof (hmac_long (chain_key userKey (u32 (chunkID s + 1))) (hdr ++ F1 ++ C ++ F2)).
    fold hash in H. simpl length. lia. }
  pose proof (chain_step_at s v mss d R w' ltac:(lia) ltac:(lia) Hid Er' ltac:(lia) pos' eq_refl) as Hstep. fold h hdr in Hstep.
  rewrite Hpos' in Hstep.
  split; [lia| |].
  - intros rest. rewrite Hstep by (exists ((F1 ++ C ++ F2) ++ take 2 hash ++ rest); unfold p; by rewrite <- !app_assoc).
    rewrite length_app, Lp. rewrite (proj2 (Z.ltb_ge _ _)) by lia. cbv zeta.
    assert (p ++ rest = (hdr ++ F1 ++ C ++ F2) ++ take 2 hash ++ rest) as Ep' by (unfold p; by rewrite <- !app_assoc).
    assert (length (hdr ++ F1 ++ C ++ F2) = Z.to_nat (R + d + 4) - 2)%nat as Lb
      by (rewrite !length_app, L1, L2, LC; simpl length; lia).
    rewrite Ep', <- Lb, take_app_length, drop_app_length. fold hash.
    assert (length (take 2 hash) = 2%nat) as Lh by (rewrite length_take; pose proof (hmac_long (chain_key userKey (u32 (chunkID s + 1))) (hdr ++ F1 ++ C ++ F2)); fold hash in H; lia).
    rewrite (take_app_length' (take 2 hash)), bool_decide_eq_true_2 by done. cbn [negb].
    assert (take (Z.to_nat d) (drop (Z.to_nat (2 + pos)) ((hdr ++ F1 ++ C ++ F2) ++ take 2 hash ++ rest)) = C) as ->.
    { rewrite <- !app_assoc, (app_assoc hdr), drop_app_length' by (rewrite length_app, L1; simpl length; lia).
      replace (Z.to_nat d) with (length C) by lia. apply take_app_length. }
    unfold C. by rewrite rc4_part, rc4_past.
  - intros a k Hk Hkn Ha. assert (take 2 a = hdr) as Hh.
    { unfold p in Hk. destruct a as [|a1 [|a2 a]]; simpl in Ha; try lia. unfold hdr, masked in *. by injection Hk as -> -> _. }
    rewrite Hstep by (exists (drop 2 a); by rewrite <- Hh, take_drop).
    rewrite (proj2 (Z.ltb_lt _ _)); [done|]. apply (f_equal length) in Hk. rewrite Lp, length_app in Hk. destruct k; [done|simpl in Hk; lia].
Qed.

Notation packs := (chain_packs hmac rc4 rnd userKey overhead).

Lemma chain_packs_ok fills mss bs : ∀ i s v,
  Forall (λ b, (0 < length b)%nat ∧ Z.of_nat (length b) < 2600) bs → (∀ i, 1440 <= Z.of_nat (length (fills i))) →
  1 <= chunkID s → chunkID s + Z.of_nat (length bs) < 2 ^ 32 →
  ∃ ps v', (packs s fills i bs).1 = concat ps ∧
    packets 4 step (chain_peer s v mss) ps bs (chain_peer (packs s fills i bs).2 v' mss).
Proof.
  induction bs as [|b bs IH]; intros i s v Hbs Hf Hc Hn; [exists [], v; split; [done|constructor]|].
  apply Forall_cons in Hbs as [[Hb1 Hb2] Hbs]. cbn [length] in Hn.
  destruct (chain_pack s b (fills i) v mss Hb1 Hb2) as [v1 Hp]; [rewrite u32_small; lia|done|].
  assert (chunkID (pack s b (fills i)).2 = chunkID s + 1) as Hid.
  { unfold chain_packData. destruct (rnd _ _ _ _) as [R w]. destruct (0 <? length b)%nat;
      [destruct (getRandStartPos w R)|]; cbn [snd chunkID]; apply u32_small; lia. }
  cbn [chain_packs]. destruct (pack s b (fills i)) as [p s'] eqn:Ep. cbn [fst snd] in *.
  destruct (IH (S i) s' v1) as (ps & v' & Eps & Hps); [done|done|lia|lia|].
  destruct (packs s' fills (S i) bs) as [out s'']. cbn [fst snd] in *. subst out.
  exists (p :: ps), v'. split; [done|]. by econstructor.
Qed.

(** C27: What auth_chain_a or auth_chain_b packs after its header is unpacked by a receiver in
    step with the sender to exactly the data, however the stream is cut into reads: both
    compute the same paddings and the same places of the data from the chain of hashes
    alone, and are in step again afterwards, up to 2^32 packets. *)
Theorem ssr_chain_stream mss s fills data wire s' v m segs :
  (∀ i, 1440 <= Z.of_nat (length (fills i))) → 0 < mss - overhead < 2600 →
  1 <= chunkID s → chunkID s + Z.of_nat (length data) < 2 ^ 32 →
  chain_PreEncrypt hmac rc4 rnd userKey overhead mss s fills data = Ok (wire, s') → concat segs = wire →
  ∃ outs v', posts (chain_PostDecrypt hmac rc4 rnd userKey overhead) (chain_peer s v m) [] segs =
      Ok (outs, [], chain_peer s' v' m) ∧ concat outs = data.
Proof.
  intros Hf Hm Hc Hn. unfold chain_PreEncrypt. rewrite (proj2 (Z.ltb_ge _ _)), (proj2 (Z.eqb_neq _ _)) by lia. cbn [andb].
  intros [= E] Hs. set (bs := blocks (length data) (Z.to_nat (mss - overhead)) data) in *.
  destruct (blocks_ok (length data) (Z.to_nat (mss - overhead)) data) as [Hcat Hb]; [lia|lia|]. fold bs in Hcat, Hb.
  assert (length bs <= length data)%nat as Hlen.
  { rewrite <- Hcat. clear -Hb. induction Hb as [|b bs Hb0 _ IH]; [done|]. cbn [concat length]. rewrite length_app. lia. }
  destruct (chain_packs_ok fills m bs 0 s v) as (ps & v' & Eps & Hps); [|done|done|lia|].
  { eapply Forall_impl; [exact Hb|]. intros b. simpl. lia. }
  rewrite E in Eps, Hps. cbn [fst snd] in *.
  destruct (posts_packets 4 step (λ r : receiver, r) (chain_PostDecrypt hmac rc4 rnd userKey overhead) (chain_peer s v m) ps bs
    (chain_peer s' v' m) segs) as (outs & Ho & Hoc); [|done|congruence|].
  { intros r l. unfold chain_PostDecrypt. by destruct (drain 4 step (length l) r l). }
  exists outs, v'. by rewrite Hoc.
Qed.
End Chain.
