(* ===== verification/SsrObfs.v ===== *)
(** proxy/ssr/internal/obfs: the disguises of shadowsocksR over the stream cipher: none, a
    random head, and TLS 1.2 with a session ticket. *)
From S2P Require Import Prelude GoStd Reader ProxyConn SocksAddr Shadowsocks HttpHead Obfs SsrSum SsrProto.
Import SsrSum SsrProto.

Module SsrObfs.

Definition ErrTLS12TicketAuthTooShortData : error := "tls1.2_ticket_auth too short data".
Definition ErrTLS12TicketAuthHMACError : error := "tls1.2_ticket_auth hmac verifying failed".
Definition ErrTLS12TicketAuthIncorrectMagicNumber : error := "tls1.2_ticket_auth incorrect magic number".

(** ** plain.go *)

Definition plain_Encode (data : list byte) : list byte := data.
Definition plain_Decode (data : list byte) : list byte * bool := (data, false).

(** ** random_head.go *)

Record randomHead := MkRandomHead { rawTransSent : bool; rawTransReceived : bool; hasSentHeader : bool; dataBuffer : list byte }.
Definition newRandomHead : randomHead := MkRandomHead false false false [].

(** [rnd]: the random bytes of the head, 8 to 103 of them. *)
Definition random_Encode (r : randomHead) (rnd data : list byte) : outcome (list byte * randomHead) :=
  if rawTransSent r then Ok (data, r)
  else if hasSentHeader r then
    if (0 <? length data)%nat
    then Ok ([], MkRandomHead false (rawTransReceived r) true (dataBuffer r ++ data))
    else Ok (dataBuffer r, MkRandomHead true (rawTransReceived r) true [])
  else
    head ← SetCRC32 rnd (length rnd);
    Ok (head, MkRandomHead false (rawTransReceived r) true data).
Definition random_Decode (r : randomHead) (data : list byte) : list byte * bool * randomHead :=
  if rawTransReceived r then (data, false, r)
  else (data, true, MkRandomHead (rawTransSent r) true (hasSentHeader r) (dataBuffer r)).

(** ** tls12_ticket_auth.go *)

Section Tls.
Context (hmac_sha1 : list byte → list byte → list byte).

Record tls12 := MkTls { handshakeStatus : Z; sendSaver : list byte; recvBuffer : list byte }.
Definition newTLS12TicketAuth : tls12 := MkTls 0 [] [].

Definition tls_packData (prefix suffix : list byte) : list byte :=
  prefix ++ Obfs.bytes [0x17; 0x3; 0x3] ++ be_bytes 2 (Z.land (Z.of_nat (length suffix)) 0xFFFF) ++ suffix.

(** The records of a long write; [ls i] is the i-th drawn length, less 100. *)
Fixpoint tls_split (fuel : nat) (ls : nat → nat) (i : nat) (data : list byte) : list byte :=
  if (2048 <? Z.of_nat (length data)) then
    match fuel with
    | O => []
    | S fuel =>
        let l := Nat.min (ls i + 100) (length data) in
        tls_packData [] (take l data) ++ tls_split fuel ls (S i) (drop l data)
    end
  else if (0 <? length data)%nat then tls_packData [] data else [].
Definition tls_records (ls : nat → nat) (data : list byte) : list byte :=
  if (Z.of_nat (length data) <? 1024) then tls_packData [] data else tls_split (length data) ls 0 data.

Definition tls_hmac (key clientID data : list byte) : list byte := take 10 (hmac_sha1 (key ++ clientID) data).

(** [strings.TrimSpace] of ASCII. *)
Definition is_space (b : byte) : bool := (b2z b =? 32) || ((9 <=? b2z b) && (b2z b <=? 13)).
Fixpoint skip_space (s : list byte) : list byte :=
  match s with
  | [] => []
  | b :: s' => if is_space b then skip_space s' else s
  end.
Definition trim_space (s : list byte) : list byte := reverse (skip_space (reverse (skip_space s))).

(** [getHost]; [pick] chooses among the hosts of the parameter. *)
Definition getHost (host param : list byte) (pick : nat) : list byte :=
  let h := match param with
           | [] => host
           | _ => match split_byte c_comma param !! pick with Some h => trim_space h | None => host end
           end in
  match last h, param with
  | Some c, [] => if (48 <=? b2z c) && (b2z c <=? 57) then [] else h
  | _, _ => h
  end.
Definition sni (u : list byte) : list byte :=
  Obfs.bytes [0; 0] ++ be_bytes 2 (u16 (Z.of_nat (length u) + 5)) ++ be_bytes 2 (u16 (Z.of_nat (length u) + 3)) ++
  Obfs.bytes [0] ++ be_bytes 2 (u16 (Z.of_nat (length u))) ++ u.

(** [packAuthData]: the random of the hello; [rnd] 18 bytes. *)
Definition tls_packAuthData (key clientID : list byte) (now : Z) (rnd : list byte) : list byte :=
  let b := be_bytes 4 (u32 now) ++ rnd in b ++ tls_hmac key clientID b.

Definition tlsData0 : list byte :=
  Obfs.bytes [0x00; 0x1c; 0xc0; 0x2b; 0xc0; 0x2f; 0xcc; 0xa9; 0xcc; 0xa8; 0xcc; 0x14; 0xcc; 0x13; 0xc0; 0x0a; 0xc0; 0x14;
              0xc0; 0x09; 0xc0; 0x13; 0x00; 0x9c; 0x00; 0x35; 0x00; 0x2f; 0x00; 0x0a; 0x01; 0x00].
Definition tlsData1 : list byte := Obfs.bytes [0xff; 0x01; 0x00; 0x01; 0x00].
Definition tlsData2 : list byte := Obfs.bytes [0x00; 0x17; 0x00; 0x00; 0x00; 0x23].
Definition tlsData3 : list byte :=
  Obfs.bytes [0x00; 0x0d; 0x00; 0x16; 0x00; 0x14; 0x06; 0x01; 0x06; 0x03; 0x05; 0x01; 0x05; 0x03; 0x04; 0x01; 0x04; 0x03;
              0x03; 0x01; 0x03; 0x03; 0x02; 0x01; 0x02; 0x03; 0x00; 0x05; 0x00; 0x05; 0x01; 0x00; 0x00; 0x00; 0x00; 0x00;
              0x12; 0x00; 0x00; 0x75; 0x50; 0x00; 0x00; 0x00; 0x0b; 0x00; 0x02; 0x01; 0x00; 0x00; 0x0a; 0x00; 0x06; 0x00;
              0x04; 0x00; 0x17; 0x00; 0x18; 0x00; 0x15; 0x00; 0x66] ++ replicate 102 x00.

(** The extensions; more than the 2048 bytes of the array is out of bounds. *)
Definition tls_extensions (host ticket : list byte) : outcome (list byte) :=
  let l := tlsData1 ++ sni host ++ tlsData2 ++ be_bytes 2 (Z.of_nat (length ticket)) ++ ticket ++ tlsData3 in
  if (Z.of_nat (length l) <=? 2048) then Ok l else Panic.

(** The client hello, which the code fills in from its end. *)
Definition tls_hello (auth clientID ext : list byte) : list byte :=
  let body := Obfs.bytes [0x03; 0x03] ++ auth ++ Obfs.bytes [0x20] ++ clientID ++ tlsData0 ++
              be_bytes 2 (Z.of_nat (length ext)) ++ ext in
  let l := Z.of_nat (length body) in
  Obfs.bytes [0x16; 0x03; 0x01] ++ be_bytes 2 (l + 4) ++ Obfs.bytes [0x01; 0x00] ++ be_bytes 2 l ++ body.

(** What a handshake draws and is configured with. *)
Record tls_conf := MkTlsConf { tc_key : list byte; tc_clientID : list byte; tc_host : list byte; tc_ticket : list byte;
                               tc_now : Z; tc_auth : list byte; tc_finish : list byte }.

Definition tls_Encode (c : tls_conf) (ls : nat → nat) (t : tls12) (data : list byte) : outcome (list byte * tls12) :=
  if handshakeStatus t =? 8 then Ok (tls_records ls data, t)
  else if handshakeStatus t =? 1 then
    if (0 <? length data)%nat then Ok ([], MkTls 1 (sendSaver t ++ tls_records ls data) (recvBuffer t))
    else
      let b := Obfs.bytes [0x14; 0x03; 0x03; 0x00; 0x01; 0x01; 0x16; 0x03; 0x03; 0x00; 0x20] ++ tc_finish c in
      Ok (b ++ tls_hmac (tc_key c) (tc_clientID c) b ++ sendSaver t, MkTls 8 [] (recvBuffer t))
  else if handshakeStatus t =? 0 then
    ext ← tls_extensions (tc_host c) (tc_ticket c);
    Ok (tls_hello (tls_packAuthData (tc_key c) (tc_clientID c) (tc_now c) (tc_auth c)) (tc_clientID c) ext,
        MkTls 1 (tls_packData (sendSaver t) data) (recvBuffer t))
  else Err "unexpected handshake status".

(** The loop of [Decode]: the data of the whole records, and the buffer. *)
Fixpoint tls_loop (fuel : nat) (buf : list byte) : outcome (list byte) * list byte :=
  if (5 <? length buf)%nat then
    match fuel with
    | O => (OutOfFuel, buf)
    | S fuel =>
        let h := take 5 buf in
        let rest := drop 5 buf in
        if negb (bool_decide (take 3 h = Obfs.bytes [0x17; 0x3; 0x3])) then (Err ErrTLS12TicketAuthIncorrectMagicNumber, rest)
        else
          let size := Z.to_nat (be_val (drop 3 h)) in
          if (length rest <? size)%nat then (Ok [], h ++ rest)
          else match tls_loop fuel (drop size rest) with
               | (Ok o, b) => (Ok (take size rest ++ o), b)
               | x => x
               end
    end
  else (Ok [], buf).

(** [Decode]: the data, whether to send back, the error. *)
Definition tls_Decode (c : tls_conf) (t : tls12) (data : list byte) : outcome (list byte * bool) * tls12 :=
  if handshakeStatus t =? -1 then (Ok (data, false), t)
  else if handshakeStatus t =? 8 then
    match tls_loop (length (recvBuffer t ++ data)) (recvBuffer t ++ data) with
    | (Ok o, b) => (Ok (o, false), MkTls 8 (sendSaver t) b)
    | (Err e, b) => (Err e, MkTls 8 (sendSaver t) b)
    | (Panic, b) => (Panic, t)
    | (OutOfFuel, b) => (OutOfFuel, t)
    end
  else if (length data <? 11 + 32 + 1 + 32)%nat then (Err ErrTLS12TicketAuthTooShortData, t)
  else if negb (bool_decide (take 10 (drop 33 data) = tls_hmac (tc_key c) (tc_clientID c) (take 22 (drop 11 data))))
    then (Err ErrTLS12TicketAuthHMACError, t)
  else (Ok ([], true), t).
End Tls.

(** ** The buffer behind [Decode] *)

(** [bytes.Buffer]: its memory, the offset it is read from and its length. *)
Record Buffer := MkBuffer { b_mem : list byte; b_off : nat; b_len : nat }.
Definition Bytes (b : Buffer) : list byte := take (b_len b - b_off b) (drop (b_off b) (b_mem b)).
(** [Write] when the capacity is enough: over the memory after the length. *)
Definition write_at (mem : list byte) (i : nat) (p : list byte) : list byte := take i mem ++ p ++ drop (i + length p) mem.
(** The lines of [Decode] that put a header back: [unread] is a view of the buffer's own
    memory, which the first write after [Reset] changes before it is copied. *)
Definition put_back (b : Buffer) (h : list byte) : Buffer :=
  let mem := write_at (b_mem b) 0 h in
  let unread := take (b_len b - b_off b) (drop (b_off b) mem) in
  MkBuffer (write_at mem (length h) unread) 0 (length h + length unread).
End SsrObfs.
