(* ===== verification/SsrConn.v ===== *)
(** proxy/ssr/internal/client.go: a shadowsocksR connection, over any disguise and protocol. *)
From S2P Require Import Prelude GoStd Reader ProxyConn SocksAddr Shadowsocks HttpHead SsStream SsrSum SsrProto SsrObfs.
Import SsStream SsrProto.

(** What the connection asks of a disguise and of a protocol ([obfs.IObfs] and
    [protocol.IProtocol]); [init_*] is [SetServerInfo] with the IV and the first data. *)
Class IObfs (Ob : Type) := {
  Encode : Ob → list byte → outcome (list byte * Ob);
  Decode : Ob → list byte → outcome (list byte * bool) * Ob;
  obfs_init : Ob → list byte → list byte → Ob }.
Class IProtocol (P : Type) := {
  PreEncrypt : P → list byte → outcome (list byte * P);
  PostDecrypt : P → list byte → outcome (list byte * nat) * P;
  protocol_init : P → list byte → list byte → P }.

Module SsrConn.
Section Conn.
Context {Ob P : Type} `{!IObfs Ob} `{!IProtocol P} (c : Cipher).

(** [SSTCPConn]: the streams are their IV and what went through them. *)
Record SSTCPConn := MkConn {
  s_obfs : Ob;
  s_proto : P;
  s_iv : option (list byte);
  s_enc : option (list byte * list byte);
  s_dec : option (list byte * list byte);
  underPostdecryptBuf : list byte;
  decryptedBuf : list byte }.

Definition NewSSTCPConn (o : Ob) (p : P) : SSTCPConn := MkConn o p None None None [] [].

(** [initEncryptor]: the IV to send, if this is the first write; [rnd] is a random IV. *)
Definition initEncryptor (s : SSTCPConn) (rnd b : list byte) : option (list byte) * SSTCPConn :=
  match s_enc s with
  | Some _ => (None, s)
  | None =>
      let iv := default rnd (s_iv s) in
      (Some iv, MkConn (obfs_init (s_obfs s) iv b) (protocol_init (s_proto s) iv b) (Some iv) (Some (iv, []))
                  (s_dec s) (underPostdecryptBuf s) (decryptedBuf s))
  end.

Definition preWrite (s : SSTCPConn) (rnd b : list byte) : outcome (list byte * SSTCPConn) :=
  let '(iv, s) := initEncryptor s rnd b in
  '(pre, p) ← PreEncrypt (s_proto s) b;
  match s_enc s with
  | None => Panic
  | Some (k, past) =>
      '(out, o) ← Encode (s_obfs s) (default [] iv ++ XORKeyStream (Encrypter c k) past pre);
      Ok (out, MkConn o p (s_iv s) (Some (k, past ++ pre)) (s_dec s) (underPostdecryptBuf s) (decryptedBuf s))
  end.

(** [Write]: what is offered to the connection below, whose answer is [werr]. *)
Definition Write (s : SSTCPConn) (rnd b : list byte) (werr : option error) : outcome (list byte * Z * option error * SSTCPConn) :=
  match preWrite s rnd b with
  | Ok (out, s) => Ok (out, match werr with Some _ => 0 | None => Z.of_nat (length b) end, werr, s)
  | Err e => Ok ([], 0, Some e, s)
  | Panic => Panic
  | OutOfFuel => OutOfFuel
  end.

Definition ErrIVLen (n actual : nat) : error :=
  String.append "invalid ivLen:" (String.append (String.string_of_list_byte (format_uint (Z.of_nat n)))
    (String.append ", actual length:" (String.string_of_list_byte (format_uint (Z.of_nat actual))))).

(** The IV is taken off the first data. *)
Definition take_iv (s : SSTCPConn) (data : list byte) : (list byte * list byte * list byte + error) :=
  match s_dec s with
  | Some (iv, past) => inl (iv, past, data)
  | None => if (length data <? iv_size c)%nat then inr (ErrIVLen (iv_size c) (length data))
            else inl (take (iv_size c) data, [], drop (iv_size c) data)
  end.

(** [doRead] from the read of [seg] on: the data of the protocol, and what is sent back. *)
Definition receive (s : SSTCPConn) (rnd seg : list byte) : outcome (list byte * list byte * option error * SSTCPConn) :=
  let set_obfs o := MkConn o (s_proto s) (s_iv s) (s_enc s) (s_dec s) (underPostdecryptBuf s) (decryptedBuf s) in
  match Decode (s_obfs s) seg with
  | (Err e, o) => Ok ([], [], Some e, set_obfs o)
  | (Panic, _) => Panic
  | (OutOfFuel, _) => OutOfFuel
  | (Ok (_, true), o) => '(back, _, _, s) ← Write (set_obfs o) rnd [] None; Ok ([], back, None, s)
  | (Ok ([], false), o) => Ok ([], [], None, set_obfs o)
  | (Ok (data, false), o) =>
      match take_iv s data with
      | inr e => Ok ([], [], Some e, set_obfs o)
      | inl (iv, past, data) =>
          let s_iv' := match s_iv s with Some (_ :: _ as i) => Some i | _ => Some iv end in
          let s_iv' := match s_dec s with Some _ => s_iv s | None => s_iv' end in
          match data with
          | [] => Ok ([], [], None, MkConn o (s_proto s) s_iv' (s_enc s) (Some (iv, past)) (underPostdecryptBuf s) (decryptedBuf s))
          | _ =>
              let buf := underPostdecryptBuf s ++ XORKeyStream (Decrypter c iv) past data in
              let next p under := MkConn o p s_iv' (s_enc s) (Some (iv, past ++ data)) under (decryptedBuf s) in
              match PostDecrypt (s_proto s) buf with
              | (Ok (out, n), p) => Ok (if (n =? 0)%nat then [] else out, [], None, next p (drop n buf))
              | (Err e, p) => Ok ([], [], Some e, next p [])
              | (Panic, _) => Panic
              | (OutOfFuel, _) => OutOfFuel
              end
          end
      end
  end.

Definition with_decrypted (s : SSTCPConn) (b : list byte) : SSTCPConn :=
  MkConn (s_obfs s) (s_proto s) (s_iv s) (s_enc s) (s_dec s) (underPostdecryptBuf s) b.

(** [doRead] into a slice of length [n]; [net] are the reads of the connection below. *)
Definition doRead (s : SSTCPConn) (rnd : list byte) (n : nat) (net : list (list byte))
    : outcome (list byte * option error * SSTCPConn * list (list byte)) :=
  match decryptedBuf s with
  | _ :: _ => Ok (take n (decryptedBuf s), None, with_decrypted s (drop n (decryptedBuf s)), net)
  | [] =>
      match net with
      | [] => Ok ([], Some EOF, s, [])
      | [] :: net => Ok ([], None, s, net)
      | seg :: net =>
          '(out, _, e, s) ← receive s rnd seg;
          match e with
          | Some e => Ok ([], Some e, s, net)
          | None => Ok (take n out, None, with_decrypted s (drop n out), net)
          end
      end
  end.

(** [Read]: again until there is something. *)
Fixpoint Read (fuel : nat) (s : SSTCPConn) (rnd : list byte) (n : nat) (net : list (list byte))
    : outcome (list byte * option error * SSTCPConn * list (list byte)) :=
  match fuel with
  | O => OutOfFuel
  | S fuel =>
      '(b, e, s, net) ← doRead s rnd n net;
      match b, e with
      | [], None => Read fuel s rnd n net
      | _, _ => Ok (b, e, s, net)
      end
  end.

Fixpoint reads (s : SSTCPConn) (rnd : list byte) (sizes : list nat) (net : list (list byte)) : outcome (list (list byte * option error)) :=
  match sizes with
  | [] => Ok []
  | n :: sizes =>
      '(b, e, s, net) ← Read (S (length net)) s rnd n net;
      l ← reads s rnd sizes net;
      Ok ((b, e) :: l)
  end.
End Conn.
Arguments SSTCPConn : clear implicits.
End SsrConn.

(** * proxy/ssr: behind its disguise, cipher and protocol a connection reads what its peer
    sent, whatever the reads below it return. *)
Import SsStream SsrProto SsrConn.

Section Conn.
Context {Ob P : Type} `{!IObfs Ob} `{!IProtocol P} (c : Cipher) `{!StreamLaws c} (rnd : list byte).
Implicit Types (s : SSTCPConn Ob P) (segs outs : list (list byte)).

(** The data of successive reads of a disguised connection. *)
Fixpoint decodes (o : Ob) segs : outcome (list (list byte) * Ob) :=
  match segs with
  | [] => Ok ([], o)
  | seg :: segs =>
      match Decode o seg with
      | (Ok (out, false), o) => '(outs, o) ← decodes o segs; Ok (out :: outs, o)
      | _ => Err "not a stream"
      end
  end.

(** What the layers above get of each read. *)
Fixpoint receives s segs : outcome (list (list byte) * SSTCPConn Ob P) :=
  match segs with
  | [] => Ok ([], s)
  | seg :: segs =>
      match Decode (s_obfs s) seg, receive c s rnd seg with
      | (Ok (_, false), _), Ok (out, [], None, s) => '(outs, s) ← receives s segs; Ok (out :: outs, s)
      | _, _ => Err "not a stream"
      end
  end.

Lemma receive_keep s seg data o out s' b :
  Decode (s_obfs s) seg = (Ok (data, false), o) → receive c s rnd seg = Ok (out, [], None, s') →
  receive c (with_decrypted s b) rnd seg = Ok (out, [], None, with_decrypted s' b).
Proof.
  intros E. unfold receive. cbn [with_decrypted s_obfs s_proto s_iv s_enc s_dec underPostdecryptBuf decryptedBuf].
  rewrite E. destruct data as [|x data]; [by intros [= <- <-]|]. unfold take_iv. cbn [s_dec].
  destruct (match s_dec s with Some _ => _ | None => _ end) as [[[iv past] [|y d]]|]; [by intros [= <- <-]| |done].
  destruct (PostDecrypt _ _) as [[[o' n]| | |] p]; try done. by intros [= <- <-].
Qed.

Lemma receives_keep segs : ∀ s outs s' b,
  receives s segs = Ok (outs, s') → receives (with_decrypted s b) segs = Ok (outs, with_decrypted s' b).
Proof.
  induction segs as [|seg segs IH]; intros s outs s' b; cbn [receives]; [by intros [= <- <-]|].
  cbn [with_decrypted s_obfs]. destruct (Decode (s_obfs s) seg) as [[[data []]| | |] o] eqn:Ed; try done.
  destruct (receive c s rnd seg) as [[[[out [|]] [|]] s1]| | |] eqn:Er; try done.
  fold (with_decrypted s b). rewrite (receive_keep s seg data o out s1 b Ed Er).
  destruct (receives s1 segs) as [[outs' s2]| | |] eqn:Ers; try done. rewrite bind_ret. intros [= <- <-].
  by rewrite (IH s1 outs' s2 b Ers), bind_ret.
Qed.

(** ** Reads are those of a queue *)

Lemma with_decrypted_same s : with_decrypted s (decryptedBuf s) = s.
Proof. by destruct s. Qed.

Notation nonempty := (filter (λ m : list byte, m ≠ [])).

(** The connection still has the messages [msgs] to give. *)
Definition holds s segs (msgs : list (list byte)) : Prop :=
  Forall (λ seg, seg ≠ []) segs ∧ ∃ s', receives s segs = Ok (msgs, s').

Lemma holds_keep s segs msgs b : holds s segs msgs → holds (with_decrypted s b) segs msgs.
Proof. intros [Hs [s' H]]. split; [done|]. eexists. by apply receives_keep. Qed.

Lemma Read_queue n segs : ∀ s fuel msgs,
  (0 < n)%nat → holds s segs msgs → decryptedBuf s = [] → (length segs < fuel)%nat →
  ∃ s1 segs1 msgs1, Read c fuel s rnd n segs =
      Ok ((msg_Read n ([], nonempty msgs)).1.1, (msg_Read n ([], nonempty msgs)).1.2, s1, segs1) ∧
    (msg_Read n ([], nonempty msgs)).2 = (decryptedBuf s1, nonempty msgs1) ∧ holds s1 segs1 msgs1.
Proof.
  induction segs as [|seg segs IH]; intros s [|fuel] msgs Hn [Hne [s' Hr]] Hd Hf; simpl in Hf; try lia; cbn [Read]; unfold doRead; rewrite Hd.
  - injection Hr as <- <-. rewrite bind_ret. exists s, [], []. split; [done|]. split; [by rewrite Hd|]. split; [done|]. by eexists.
  - apply Forall_cons in Hne as [Hseg Hne]. destruct seg as [|x seg]; [done|]. cbn [receives] in Hr.
    destruct (Decode (s_obfs s) (x :: seg)) as [[[data []]| | |] o]; try done.
    destruct (receive c s rnd (x :: seg)) as [[[[out [|]] [|]] s1]| | |] eqn:Er; try done.
    destruct (receives s1 segs) as [[msgs1 s2]| | |] eqn:Ers; try done. rewrite bind_ret in Hr. injection Hr as <- <-.
    rewrite !bind_ret. assert (holds s1 segs msgs1) as H1 by (split; [done|by eexists]).
    destruct out as [|y out].
    + rewrite take_nil, drop_nil. rewrite filter_cons_False by (intros H; by apply H).
      apply IH; [done|by apply holds_keep|done|lia].
    + rewrite filter_cons_True by done. destruct n as [|n]; [lia|]. cbn [take].
      exists (with_decrypted s1 (drop (S n) (y :: out))), segs, msgs1. split; [done|]. split; [done|]. by apply holds_keep.
Qed.

Lemma reads_queue sizes : ∀ s segs msgs,
  Forall (λ n, 0 < n)%nat sizes → holds s segs msgs →
  reads c s rnd sizes segs = Ok (msg_reads (decryptedBuf s, nonempty msgs) sizes).
Proof.
  induction sizes as [|n sizes IH]; intros s segs msgs Hn H; [done|]. apply Forall_cons in Hn as [Hn Hns].
  cbn [reads msg_reads]. destruct (decryptedBuf s) as [|x cur] eqn:Ed.
  - destruct (Read_queue n segs s (S (length segs)) msgs) as (s1 & segs1 & msgs1 & -> & Hq & H1); [done|done|done|lia|].
    rewrite bind_ret, (IH s1 segs1 msgs1) by done. rewrite bind_ret.
    destruct (msg_Read n ([], nonempty msgs)) as [[b e] q]. cbn [fst snd] in *. by rewrite Hq.
  - cbn [Read]. unfold doRead. rewrite Ed, bind_ret. destruct n as [|n]; [lia|]. cbn [take].
    rewrite bind_ret, (IH _ segs msgs) by (done || by apply holds_keep). done.
Qed.

(** ** What is received *)

(** The pieces of the protocol's stream in the data of successive reads. *)
Fixpoint pieces (iv past : list byte) outs : list (list byte) :=
  match outs with
  | [] => []
  | [] :: outs => pieces iv past outs
  | out :: outs => XORKeyStream (Decrypter c iv) past out :: pieces iv (past ++ out) outs
  end.

Lemma pieces_concat iv outs : ∀ past, concat (pieces iv past outs) = XORKeyStream (Decrypter c iv) past (concat outs).
Proof.
  assert (streaming (Decrypter c iv)) as Hs by apply (dec_streaming c).
  induction outs as [|[|x out] outs IH]; intros past; cbn [pieces concat].
  - symmetry. apply nil_length_inv. by rewrite xor_length.
  - by rewrite IH.
  - by rewrite IH, xor_app.
Qed.

Lemma receives_going segs : ∀ s iv past outs o' os buf p',
  s_dec s = Some (iv, past) → decodes (s_obfs s) segs = Ok (outs, o') →
  posts PostDecrypt (s_proto s) (underPostdecryptBuf s) (pieces iv past outs) = Ok (os, buf, p') →
  ∃ msgs s', receives s segs = Ok (msgs, s') ∧ concat msgs = concat os.
Proof.
  induction segs as [|seg segs IH]; intros s iv past outs o' os buf p' Hdec Hd Hp; cbn [decodes receives] in *.
  { injection Hd as <- <-. injection Hp as <- <- <-. by exists [], s. }
  destruct (Decode (s_obfs s) seg) as [[[out []]| | |] o] eqn:Ed; try done.
  destruct (decodes o segs) as [[outs' o1]| | |] eqn:Eds; try done. rewrite bind_ret in Hd. injection Hd as <- <-.
  unfold receive. rewrite Ed. destruct out as [|x out].
  - cbn [pieces] in Hp.
    destruct (IH (MkConn o (s_proto s) (s_iv s) (s_enc s) (s_dec s) (underPostdecryptBuf s) (decryptedBuf s)) iv past outs' o1 os buf p')
      as (msgs & s' & -> & Hc); [done|done|done|]. exists ([] :: msgs), s'. by rewrite bind_ret.
  - cbn [pieces posts] in Hp. unfold take_iv. rewrite Hdec.
    destruct (PostDecrypt (s_proto s) _) as [[[out' n]| | |] p]; try done.
    destruct (posts PostDecrypt p _ _) as [[[os' buf'] p'']| | |] eqn:Eps; try done. rewrite bind_ret in Hp. injection Hp as <- <- <-.
    destruct (IH (MkConn o p (s_iv s) (s_enc s) (Some (iv, past ++ x :: out))
      (drop n (underPostdecryptBuf s ++ XORKeyStream (Decrypter c iv) past (x :: out))) (decryptedBuf s))
      iv (past ++ x :: out) outs' o1 os' buf' p'') as (msgs & s' & -> & Hc); [done|done|done|].
    eexists _, s'. rewrite bind_ret. split; [done|]. cbn [concat]. by rewrite Hc.
Qed.

Lemma receives_start segs : ∀ s outs o' iv rest data,
  s_dec s = None → underPostdecryptBuf s = [] → decodes (s_obfs s) segs = Ok (outs, o') →
  concat outs = iv ++ rest → length iv = iv_size c →
  (∀ out, head (nonempty outs) = Some out → iv_size c <= length out)%nat →
  (∀ ps, concat ps = Decrypter c iv rest →
    ∃ os buf p', posts PostDecrypt (s_proto s) [] ps = Ok (os, buf, p') ∧ concat os = data) →
  ∃ msgs s', receives s segs = Ok (msgs, s') ∧ concat msgs = data.
Proof.
  induction segs as [|seg segs IH]; intros s outs o' iv rest data Hdec Hu Hd Hcat Hiv Hfirst Hp; cbn [decodes receives] in *.
  { injection Hd as <- <-. symmetry in Hcat. apply app_eq_nil in Hcat as [-> ->].
    destruct (Hp []) as (os & buf & p' & E & Ho); [symmetry; apply nil_length_inv; by rewrite dec_length|].
    injection E as <- <- <-. by exists [], s. }
  destruct (Decode (s_obfs s) seg) as [[[out []]| | |] o] eqn:Ed; try done.
  destruct (decodes o segs) as [[outs' o1]| | |] eqn:Eds; try done. rewrite bind_ret in Hd. injection Hd as <- <-.
  unfold receive. rewrite Ed. destruct out as [|x out].
  - rewrite filter_cons_False in Hfirst by (intros H; by apply H).
    destruct (IH (MkConn o (s_proto s) (s_iv s) (s_enc s) (s_dec s) (underPostdecryptBuf s) (decryptedBuf s)) outs' o1 iv rest data)
      as (msgs & s' & -> & Hc); try done. exists ([] :: msgs), s'. by rewrite bind_ret.
  - set (q := x :: out) in *. specialize (Hfirst q). rewrite filter_cons_True in Hfirst by done. specialize (Hfirst eq_refl).
    unfold take_iv. rewrite Hdec, (proj2 (Nat.ltb_ge _ _)) by done. cbn [concat] in Hcat.
    assert (take (iv_size c) q = iv) as ->.
    { rewrite <- (take_app_le q (concat outs')) by done. rewrite Hcat. by apply take_app_length'. }
    assert (rest = concat (drop (iv_size c) q :: outs')) as ->.
    { cbn [concat]. rewrite <- (drop_app_le q) by done. rewrite Hcat. by rewrite drop_app_length'. }
    destruct (Hp (pieces iv [] (drop (iv_size c) q :: outs'))) as (os & buf & p' & E & Ho); [apply pieces_concat|].
    destruct (drop (iv_size c) q) as [|y d]; cbn [pieces] in E.
    + set (siv := match s_iv s with Some (_ :: _ as i) => Some i | _ => Some iv end).
      destruct (receives_going segs (MkConn o (s_proto s) siv (s_enc s) (Some (iv, [])) (underPostdecryptBuf s) (decryptedBuf s))
        iv [] outs' o1 os buf p') as (msgs & s' & -> & Hc); [done|done|by rewrite <- E; cbn; rewrite Hu|].
      exists ([] :: msgs), s'. rewrite bind_ret. split; [done|]. by rewrite <- Ho.
    + cbn [posts] in E. rewrite Hu. rewrite !app_nil_l in *. destruct (PostDecrypt (s_proto s) _) as [[[out' n]| | |] p]; try done.
      destruct (posts PostDecrypt p _ _) as [[[os' buf'] p'']| | |] eqn:Eps; try done. rewrite bind_ret in E. injection E as <- <- <-.
      set (siv := match s_iv s with Some (_ :: _ as i) => Some i | _ => Some iv end).
      destruct (receives_going segs (MkConn o p siv (s_enc s) (Some (iv, y :: d))
        (drop n (XORKeyStream (Decrypter c iv) [] (y :: d))) (decryptedBuf s)) iv (y :: d) outs' o1 os' buf' p'')
        as (msgs & s' & -> & Hc); [done|done|done|].
      eexists _, s'. rewrite bind_ret. split; [done|]. cbn [concat]. by rewrite Hc, <- Ho.
Qed.

(** What a disguise and a protocol promise the connection: however a stream is cut into
    reads, the plain stream is what comes out. *)
Definition obfs_carries (o : Ob) (wire plain : list byte) : Prop :=
  ∀ segs, Forall (λ seg, seg ≠ []) segs → concat segs = wire →
    ∃ outs o', decodes o segs = Ok (outs, o') ∧ concat outs = plain.
Definition protocol_carries (p : P) (stream data : list byte) : Prop :=
  ∀ segs, concat segs = stream → ∃ outs buf p', posts PostDecrypt p [] segs = Ok (outs, buf, p') ∧ concat outs = data.

(** C16: A shadowsocksR connection reads exactly what its peer sent through protocol, cipher
    and disguise, as a queue of messages in order: for any cutting of the wire into reads
    that leaves the IV in one piece, any disguise and protocol that keep their promise, any
    stream cipher and any buffers, whatever the connection has written before. *)
Theorem ssr_reads s wire iv stream data segs sizes :
  s_dec s = None → underPostdecryptBuf s = [] → decryptedBuf s = [] →
  obfs_carries (s_obfs s) wire (iv ++ Encrypter c iv stream) → protocol_carries (s_proto s) stream data → length iv = iv_size c →
  Forall (λ seg, seg ≠ []) segs → concat segs = wire → Forall (λ n, 0 < n)%nat sizes →
  (∀ outs o' out, decodes (s_obfs s) segs = Ok (outs, o') → head (nonempty outs) = Some out → iv_size c <= length out)%nat →
  ∃ msgs, concat msgs = data ∧ Forall (λ m, m ≠ []) msgs ∧
    reads c s rnd sizes segs = Ok (msg_reads ([], msgs) sizes).
Proof.
  intros Hdec Hu Hb Ho Hp Hiv Hs Hw Hn Hfirst. destruct (Ho segs Hs Hw) as (outs & o' & Ed & Hc).
  destruct (receives_start segs s outs o' iv (Encrypter c iv stream) data) as (msgs & s' & Hr & Hm);
    [done|done|done|done|done|by intros out; apply (Hfirst outs o')| |].
  { intros ps Hps. rewrite dec_enc in Hps. by apply Hp. }
  exists (nonempty msgs). split_and!.
  - rewrite <- Hm. clear. induction msgs as [|m msgs IH]; [done|]. destruct m as [|x m].
    + by rewrite filter_cons_False by (intros H; by apply H).
    + rewrite filter_cons_True by done. cbn [concat]. by rewrite IH.
  - apply Forall_forall. intros m Hin. by apply list_elem_of_filter in Hin as [].
  - rewrite (reads_queue sizes s segs msgs), Hb; [done|done|]. split; [done|]. by exists s'.
Qed.
End Conn.
