(* ===== verification/SsrObfsProofs.v ===== *)
(** proxy/ssr/internal/obfs: the disguises carry the stream under them, and the TLS hello is
    one. *)
From S2P Require Import Prelude GoStd Reader ProxyConn SocksAddr Shadowsocks HttpHead Http Obfs SsStream SsrSum SsrProto SsrObfs SsrConn.
Import SsrProto SsrObfs.

(** ** Putting a header back *)

(** The view of the unread bytes survives the write of the header: the header fits in front
    of them, since at least as much was read before. *)
Lemma put_back_ok b h :
  (length h <= b_off b)%nat → (b_off b <= b_len b <= length (b_mem b))%nat →
  Bytes (put_back b h) = h ++ Bytes b ∧ length (b_mem (put_back b h)) = length (b_mem b).
Proof.
  intros Hh Hb. unfold put_back, Bytes, write_at. cbn [b_mem b_off b_len]. rewrite drop_0, Nat.sub_0_r, take_0, app_nil_l.
  change (0 + length h)%nat with (length h).
  assert (take (b_len b - b_off b) (drop (b_off b) (h ++ drop (length h) (b_mem b))) = Bytes b) as Hu.
  { unfold Bytes. rewrite drop_app_ge by lia. rewrite drop_drop. do 2 f_equal. lia. }
  rewrite Hu. assert (length (Bytes b) = b_len b - b_off b)%nat as Hl
    by (unfold Bytes; rewrite length_take, length_drop; lia).
  rewrite take_app_length, drop_app_ge by lia. split.
  - rewrite app_assoc. apply take_app_length'. by rewrite length_app.
  - rewrite !length_app, !length_drop. lia.
Qed.

(** ** Records *)

Definition tls_step (_ : unit) (buf : list byte) : verdict unit :=
  let h := take 5 buf in
  let rest := drop 5 buf in
  if negb (bool_decide (take 3 h = Obfs.bytes [0x17; 0x3; 0x3])) then Fail ErrTLS12TicketAuthIncorrectMagicNumber tt
  else let size := Z.to_nat (be_val (drop 3 h)) in
       if (length rest <? size)%nat then Wait else Packet (take size rest) (5 + size) tt.

Lemma tls_loop_drain fuel : ∀ buf o n,
  drain 5 tls_step fuel tt buf = (Ok (o, n), tt) → tls_loop fuel buf = (Ok o, drop n buf) ∧ (n = 0%nat → o = []).
Proof.
  induction fuel as [|fuel IH]; intros buf o n; cbn [drain tls_loop]; destruct (5 <? length buf)%nat eqn:E; try done;
    try (by intros [= <- <-]).
  unfold tls_step at 1. destruct (negb _); [done|]. set (size := Z.to_nat _).
  destruct (length (drop 5 buf) <? size)%nat; [intros [= <- <-]; by rewrite take_drop|].
  destruct (drain 5 tls_step fuel tt (drop (5 + size) buf)) as [[[o' m]| | |] []] eqn:Ed; try done.
  intros [= <- <-]. rewrite drop_drop. destruct (IH _ _ _ Ed) as [-> _]. rewrite drop_drop. split; [done|lia].
Qed.

Lemma tls_packet d :
  d ≠ [] → Z.of_nat (length d) < 2 ^ 16 → is_packet 5 tls_step tt (tls_packData [] d) d tt.
Proof.
  intros Hne Hd. unfold tls_packData. rewrite land_16 by lia. cbn [app]. set (hdr := Obfs.bytes [0x17; 0x3; 0x3] ++ be_bytes 2 (Z.of_nat (length d))).
  assert (length hdr = 5%nat) as Hh by done. rewrite app_assoc. fold hdr.
  assert (∀ l rest, l `prefix_of` hdr ++ rest → (5 < length l)%nat → take 5 l = hdr) as Htake.
  { intros l rest [k Hk] Hl. rewrite <- (take_app_le l k) by lia. rewrite <- Hk. by apply take_app_length'. }
  assert (∀ l, take 5 l = hdr → tls_step tt l =
    if (length (drop 5 l) <? length d)%nat then Wait else Packet (take (length d) (drop 5 l)) (5 + length d) tt) as Hstep.
  { intros l Hl. unfold tls_step. rewrite Hl. rewrite bool_decide_eq_true_2 by done. cbn [negb].
    change (drop 3 hdr) with (be_bytes 2 (Z.of_nat (length d))). rewrite be16_id, Nat2Z.id by lia. done. }
  assert (0 < length d)%nat as H0 by (by destruct d; [|simpl; lia]).
  split; [rewrite length_app; lia| |].
  - intros rest. rewrite <- app_assoc, Hstep by (by apply (Htake _ (d ++ rest)); [|rewrite !length_app; lia]).
    rewrite drop_app_length' by done. rewrite length_app, (proj2 (Nat.ltb_ge _ _)) by lia.
    rewrite take_app_length. by rewrite length_app, Hh.
  - intros a b Hab Hb Ha. rewrite Hstep by (apply (Htake a d); [by exists b|done]).
    rewrite (proj2 (Nat.ltb_lt _ _)); [done|]. apply (f_equal length) in Hab. rewrite !length_app, Hh in Hab.
    rewrite length_drop. destruct b; [done|simpl in Hab; lia].
Qed.

(** ** The disguises as the connection sees them *)

#[global] Instance plain_obfs : IObfs unit := {
  Encode o data := Ok (plain_Encode data, o);
  Decode o data := (Ok (plain_Decode data), o);
  obfs_init o _ _ := o }.

Lemma plain_carries wire : obfs_carries tt wire wire.
Proof.
  intros segs _ <-. exists segs, tt. split; [|done]. induction segs as [|seg segs IH]; [done|]. cbn [decodes Decode plain_obfs].
  unfold plain_Decode. by rewrite IH.
Qed.

Section Tls.
Context (hmac_sha1 : list byte → list byte → list byte) (ls : nat → nat).

#[global] Instance tls_obfs : IObfs (tls_conf * tls12) := {
  Encode o data := '(out, t) ← tls_Encode hmac_sha1 o.1 ls o.2 data; Ok (out, (o.1, t));
  Decode o data := let '(r, t) := tls_Decode hmac_sha1 o.1 o.2 data in (r, (o.1, t));
  obfs_init o _ _ := o }.

Lemma tls_decodes cf sv segs : ∀ buf outs b,
  posts (λ u l, drain 5 tls_step (length l) u l) tt buf segs = Ok (outs, b, tt) →
  decodes (cf, MkTls 8 sv buf) segs = Ok (outs, (cf, MkTls 8 sv b)).
Proof.
  induction segs as [|seg segs IH]; intros buf outs b; cbn [posts decodes]; [by intros [= <- <-]|].
  destruct (drain 5 tls_step (length (buf ++ seg)) tt (buf ++ seg)) as [[[o n]| | |] []] eqn:Ed; try done.
  destruct (posts _ _ _ _) as [[[outs' b'] []]| | |] eqn:Ep; try done. rewrite bind_ret. intros [= <- <-].
  destruct (tls_loop_drain _ _ _ _ Ed) as [El E0].
  assert ((if (n =? 0)%nat then [] else o) = o) as -> by (destruct (Nat.eqb_spec n 0); [by rewrite E0|done]).
  cbn [Decode tls_obfs fst snd]. unfold tls_Decode. cbn [handshakeStatus recvBuffer sendSaver].
  change (8 =? -1) with false. change (8 =? 8) with true. cbv iota. rewrite El. by rewrite (IH _ _ _ Ep).
Qed.

(** After the handshake, records of any sizes carry their contents. *)
Lemma tls_carries cf sv ds :
  Forall (λ d, d ≠ [] ∧ Z.of_nat (length d) < 2 ^ 16) ds →
  obfs_carries (cf, MkTls 8 sv []) (concat (map (tls_packData []) ds)) (concat ds).
Proof.
  intros Hds segs _ Hs.
  assert (packets 5 tls_step tt (map (tls_packData []) ds) ds tt) as Hp.
  { clear Hs. induction Hds as [|d ds [Hne Hd] _ IH]; [constructor|]. cbn [map]. econstructor; [by apply tls_packet|done]. }
  destruct (posts_packets 5 tls_step (λ u : unit, u) (λ u l, drain 5 tls_step (length l) u l) tt (map (tls_packData []) ds) ds tt segs)
    as (outs & Ho & Hc); [intros [] l; by destruct (drain 5 tls_step (length l) tt l)|exact Hp|done|].
  exists outs, (cf, MkTls 8 sv []). split; [|done]. by apply tls_decodes.
Qed.

(** What a write sends after the handshake. *)
Lemma tls_split_records fuel : ∀ i data,
  (length data <= fuel)%nat → Forall (λ l, Z.of_nat l < 4096) (map ls (seq i fuel)) →
  ∃ ds, tls_split fuel ls i data = concat (map (tls_packData []) ds) ∧ concat ds = data ∧
        Forall (λ d, d ≠ [] ∧ Z.of_nat (length d) < 2 ^ 16) ds.
Proof.
  induction fuel as [|fuel IH]; intros i data Hf Hls; cbn [tls_split].
  - destruct data; [|simpl in Hf; lia]. by exists [].
  - cbn [seq map] in Hls. apply Forall_cons in Hls as [Hl Hls]. destruct (Z.ltb_spec 2048 (Z.of_nat (length data))).
    + set (l := Nat.min (ls i + 100) (length data)).
      destruct (IH (S i) (drop l data)) as (ds & -> & Hc & Hd); [rewrite length_drop; lia|done|].
      exists (take l data :: ds). split; [done|]. cbn [concat]. rewrite Hc, take_drop. split; [done|]. constructor; [|done].
      split; [|rewrite length_take; lia]. intros E%(f_equal length). rewrite length_take in E. simpl in E. lia.
    + destruct (Nat.ltb_spec 0 (length data)).
      * exists [data]. cbn [map concat]. rewrite !app_nil_r. split_and!; [done|done|]. constructor; [|done].
        split; [by destruct data; simpl in *; [lia|]|lia].
      * destruct data; [|simpl in *; lia]. by exists [].
Qed.

(** After the handshake of the TLS disguise everything written goes out in records that
    carry exactly it, for any drawn lengths, and records are decoded to what they carry
    however they are cut into reads. *)
Theorem ssr_tls_stream cf sv data out o' :
  data ≠ [] → (∀ i, Z.of_nat (ls i) < 4096) →
  Encode (cf, MkTls 8 sv []) data = Ok (out, o') → o' = (cf, MkTls 8 sv []) ∧ obfs_carries o' out data.
Proof.
  intros Hne Hls. cbn [Encode tls_obfs fst snd]. unfold tls_Encode. cbn [handshakeStatus]. change (8 =? 8) with true. cbv iota.
  rewrite bind_ret. intros [= <- <-]. split; [done|]. unfold tls_records. destruct (Z.ltb_spec (Z.of_nat (length data)) 1024).
  - pose proof (tls_carries cf sv [data]) as Hc. cbn [map concat] in Hc. rewrite !app_nil_r in Hc. apply Hc.
    constructor; [|done]. split; [done|lia].
  - destruct (tls_split_records (length data) 0 data) as (ds & -> & Hc & Hd); [lia| |rewrite <- Hc; by apply tls_carries].
    apply Forall_forall. intros l Hl. apply list_elem_of_fmap in Hl as (i & -> & _). apply Hls.
Qed.
End Tls.

(** ** The hello *)

Definition ticket_exts (host ticket : list byte) : list (Z * list byte) :=
  [(0xff01, [x00]); (0, server_name host); (0x17, []); (0x23, ticket);
   (0x0d, Obfs.bytes [0x00; 0x14; 0x06; 0x01; 0x06; 0x03; 0x05; 0x01; 0x05; 0x03; 0x04; 0x01; 0x04; 0x03; 0x03; 0x01; 0x03; 0x03;
                      0x02; 0x01; 0x02; 0x03]);
   (0x05, Obfs.bytes [0x01; 0x00; 0x00; 0x00; 0x00]); (0x12, []); (0x7550, []); (0x0b, Obfs.bytes [0x01; 0x00]);
   (0x0a, Obfs.bytes [0x00; 0x04; 0x00; 0x17; 0x00; 0x18]); (0x15, replicate 102 x00)].

Lemma sni_ext host : Z.of_nat (length host) + 5 < 2 ^ 16 → sni host = ext 0 (server_name host).
Proof.
  intros H. unfold sni, ext, server_name, u16. rewrite !Z.mod_small by lia. rewrite !length_app, !length_be_bytes.
  change (length (Obfs.bytes [0])) with 1%nat. by replace (Z.of_nat (2 + (1 + (2 + length host)))) with (Z.of_nat (length host) + 5) by lia.
Qed.

Lemma ticket_extensions host ticket e :
  tls_extensions host ticket = Ok e →
  e = concat (map (λ '(t, d), ext t d) (ticket_exts host ticket)) ∧ Z.of_nat (length e) <= 2048 ∧
  Forall (λ '(t, d), 0 <= t < 2 ^ 16 ∧ Z.of_nat (length d) < 2 ^ 16) (ticket_exts host ticket).
Proof.
  unfold tls_extensions. set (l := tlsData1 ++ _). destruct (Z.leb_spec (Z.of_nat (length l)) 2048) as [Hl|]; [|done].
  intros [= <-]. assert (Z.of_nat (length host) <= 2048 ∧ Z.of_nat (length ticket) <= 2048) as [Hh Ht].
  { unfold l in Hl. unfold sni in Hl. rewrite !length_app in Hl. lia. }
  split; [|split; [done|]].
  - unfold l, ticket_exts. cbn [map concat]. rewrite sni_ext by lia.
    change tlsData3 with (concat (map (λ '(t, d), ext t d) (drop 4 (ticket_exts [] [])))).
    unfold ticket_exts. cbn [drop map concat]. change (ext 0x23 ticket) with (be_bytes 2 0x23 ++ be_bytes 2 (Z.of_nat (length ticket)) ++ ticket).
    rewrite <- !app_assoc. done.
  - unfold ticket_exts. repeat (constructor; [rewrite ?length_server_name; simpl length; lia|]). constructor.
Qed.

(** The first packet of the TLS disguise is a well-formed TLS client hello, every length
    right, whenever the code does not panic on it: its extensions are those of a browser
    with the configured server name and the drawn ticket, and nothing follows. *)
Theorem ssr_tls_hello auth clientID host ticket e :
  length auth = 32%nat → length clientID = 32%nat → tls_extensions host ticket = Ok e →
  reads_exactly read_hello (tls_hello auth clientID e) (ticket_exts host ticket).
Proof.
  intros Ha Hc He. destruct (ticket_extensions host ticket e He) as (Ee & Hl & Hall). unfold tls_hello.
  set (body := Obfs.bytes [0x03; 0x03] ++ _).
  assert (length body = 101 + length e)%nat as Hb
    by (unfold body; rewrite !length_app, !length_be_bytes, Ha, Hc; change (length tlsData0) with 32%nat; unfold Obfs.bytes; rewrite !length_map; simpl length; lia).
  assert (reads_exactly read_body body (ticket_exts host ticket)) as Hbody.
  { unfold body, read_body. eapply exact_bind; [by apply exact_full|]. eapply exact_bind; [by apply exact_full|].
    change (Obfs.bytes [0x20]) with (be_bytes 1 32). rewrite (app_assoc (be_bytes 1 _)).
    eapply exact_bind; [apply exact_vec; by rewrite Hc|].
    change tlsData0 with ((be_bytes 2 28 ++ take 28 (drop 2 tlsData0)) ++ (be_bytes 1 1 ++ [x00])). rewrite <- (app_assoc (be_bytes 2 28 ++ _)).
    eapply exact_bind; [by apply exact_vec|]. eapply exact_bind; [by apply exact_vec|].
    rewrite <- (app_nil_r (be_bytes 2 _ ++ e)). eapply exact_bind; [apply exact_vec; apply Z.mod_small; change (256 ^ Z.of_nat 2) with 65536; lia|].
    rewrite Ee at 2. rewrite read_exts_ok; [apply exact_ret|done|]. rewrite Ee. unfold ticket_exts. cbn [map concat length].
    rewrite !length_app. unfold ext. rewrite !length_app, !length_be_bytes. lia. }
  assert (be_bytes 3 (Z.of_nat (length body)) = [x00] ++ be_bytes 2 (Z.of_nat (length body))) as H3.
  { change (be_bytes 3 ?z) with (z2b (z / 256 ^ Z.of_nat 2) :: be_bytes 2 z). rewrite Z.div_small; [done|].
    change (256 ^ Z.of_nat 2) with 65536. lia. }
  unfold read_hello. eapply exact_bind; [by apply exact_full|].
  rewrite <- (app_nil_l (be_bytes 2 _ ++ _)). eapply exact_bind; [by apply exact_guard|].
  change (Obfs.bytes [0x01; 0x00]) with ([x01] ++ [x00]). rewrite <- (app_assoc [x01]), (app_assoc [x00]), <- H3.
  rewrite <- (app_nil_r (be_bytes 2 _ ++ _)). eapply exact_bind.
  { apply exact_vec. rewrite Z.mod_small by (change (256 ^ Z.of_nat 2) with 65536; lia). rewrite !length_app, length_be_bytes. simpl length. lia. }
  erewrite exact_inside; [apply exact_ret|]. unfold read_handshake. eapply exact_bind; [by apply exact_full|].
  rewrite <- (app_nil_l (be_bytes 3 _ ++ _)). eapply exact_bind; [by apply exact_guard|].
  rewrite <- (app_nil_r (be_bytes 3 _ ++ _)). eapply exact_bind.
  { apply exact_vec. by rewrite Z.mod_small by (change (256 ^ Z.of_nat 3) with 16777216; lia). }
  erewrite exact_inside; [apply exact_ret|done].
Qed.
