(* ===== verification/SsrCipher.v ===== *)
(** proxy/ssr/internal/cipher and tools/encrypt.go: the ciphers of shadowsocksR by their
    names, the derivation of their keys, and the Salsa20 stream.

    The block and stream ciphers of the libraries are parameters. *)
From S2P Require Import Prelude GoStd Reader ProxyConn SocksAddr Shadowsocks HttpHead SsStream SsrSum.
Import SsStream.

Module SsrCipher.

(** What the package takes of crypto/* and of third-party ciphers; a stream is what it makes
    of everything it was given so far. *)
Inductive block := AES | DES | Blowfish | Cast5 | Camellia | Idea | RC2.
Class Crypto := {
  md5 : list byte → list byte;
  NewBlock : block → list byte → option error;
  BlockSize : block → nat;
  NewCTR : block → list byte → list byte → list byte → list byte;
  NewCFBEncrypter : block → list byte → list byte → list byte → list byte;
  NewCFBDecrypter : block → list byte → list byte → list byte → list byte;
  rc4_NewCipher : list byte → outcome (list byte → list byte);
  chacha20_NewCipher : list byte → list byte → outcome (list byte → list byte);
  (** [salsa.XORKeyStream] of a nonce and block counter of 16 bytes *)
  salsa_crypt : list byte → list byte → list byte → list byte }.

Section Cipher.
Context `{Cr : !Crypto}.

(** ** tools.EVPBytesToKey *)

Fixpoint evp_loop (n : nat) (password prev : list byte) : list byte :=
  match n with
  | O => []
  | S n => let h := md5 (prev ++ password) in h ++ evp_loop n password h
  end.
Definition EVPBytesToKey (password : list byte) (keyLen : nat) : list byte :=
  let cnt := ((keyLen - 1) / 16 + 1)%nat in
  let m := md5 password in
  take keyLen (m ++ evp_loop (cnt - 1) password m).

(** ** The constructors of streams *)

Inductive DecOrEnc := Decrypt | Encrypt.
Definition stream : Type := list byte → list byte.

(** crypto/cipher panics on an IV that is not a block. *)
Definition newCTRStream (b : block) (key iv : list byte) : outcome stream :=
  match NewBlock b key with
  | Some e => Err e
  | None => if (length iv =? BlockSize b)%nat then Ok (NewCTR b key iv) else Panic
  end.
(** As in the source, which makes a CTR stream for OFB. *)
Definition newOFBStream (b : block) (key iv : list byte) : outcome stream :=
  match NewBlock b key with
  | Some e => Err e
  | None => if (length iv =? BlockSize b)%nat then Ok (NewCTR b key iv) else Panic
  end.
Definition newCFBStream (b : block) (key iv : list byte) (doe : DecOrEnc) : outcome stream :=
  match NewBlock b key with
  | Some e => Err e
  | None => if (length iv =? BlockSize b)%nat
            then Ok (match doe with Encrypt => NewCFBEncrypter b key iv | Decrypt => NewCFBDecrypter b key iv end)
            else Panic
  end.
Definition newRC4MD5Stream (key iv : list byte) : outcome stream := rc4_NewCipher (md5 (key ++ iv)).
Definition newRC4Stream (key iv : list byte) : outcome stream := rc4_NewCipher key.
Definition newChaCha20Stream (key iv : list byte) : outcome stream := chacha20_NewCipher iv key.
Definition newNoneStream : stream := λ p, p.

(** [salsaStreamCipher]; [junk] is what its buffer held before. *)
Record salsaStreamCipher := MkSalsa { nonce : list byte; salsa_key : list byte; counter : Z }.
Definition salsa_XORKeyStream (c : salsaStreamCipher) (junk src : list byte) : list byte * salsaStreamCipher :=
  let padLen := Z.to_nat (counter c mod 64) in
  let subNonce := nonce c ++ le_bytes 8 (counter c / 64) in
  let buf := salsa_crypt subNonce (salsa_key c) (take padLen junk ++ src) in
  (drop padLen buf, MkSalsa (nonce c) (salsa_key c) (counter c + Z.of_nat (length src))).
Definition newSalsa20Stream (key iv : list byte) : outcome salsaStreamCipher :=
  if (8 <=? length iv)%nat && (32 <=? length key)%nat then Ok (MkSalsa (take 8 iv) (take 32 key) 0) else Panic.

(** ** The table *)

Inductive newStream_fn :=
| newAESCFBStream | newAESCTRStream | newAESOFBStream | newDESStream | newBlowFishStream | newCast5Stream
| newRC4MD5 | newChaCha20 | newChacha20IETFStream | newSalsa20 | newCamelliaStream | newIdeaStream | newRC2Stream
| newSeedStream | newRC4 | newNone.

Definition newStream (f : newStream_fn) (key iv : list byte) (doe : DecOrEnc) : outcome stream :=
  match f with
  | newAESCFBStream => newCFBStream AES key iv doe
  | newAESCTRStream => newCTRStream AES key iv
  | newAESOFBStream => newOFBStream AES key iv
  | newDESStream => newCFBStream DES key iv doe
  | newBlowFishStream => newCFBStream Blowfish key iv doe
  | newCast5Stream => newCFBStream Cast5 key iv doe
  | newRC4MD5 => newRC4MD5Stream key iv
  | newChaCha20 | newChacha20IETFStream => newChaCha20Stream key iv
  | newSalsa20 => c ← newSalsa20Stream key iv; Ok (λ p, (salsa_XORKeyStream c [] p).1)
  | newCamelliaStream => newCFBStream Camellia key iv doe
  | newIdeaStream => newCFBStream Idea key iv doe
  | newRC2Stream | newSeedStream => newCFBStream RC2 key iv doe
  | newRC4 => newRC4Stream key iv
  | newNone => Ok newNoneStream
  end.

Record cipherInfo := MkInfo { keyLen : nat; ivLen : nat; new_stream : newStream_fn }.

Definition streamCipherMethod : list (list byte * cipherInfo) :=
  [(lit "aes-128-cfb", MkInfo 16 16 newAESCFBStream); (lit "aes-192-cfb", MkInfo 24 16 newAESCFBStream);
   (lit "aes-256-cfb", MkInfo 32 16 newAESCFBStream); (lit "aes-128-ctr", MkInfo 16 16 newAESCTRStream);
   (lit "aes-192-ctr", MkInfo 24 16 newAESCTRStream); (lit "aes-256-ctr", MkInfo 32 16 newAESCTRStream);
   (lit "aes-128-ofb", MkInfo 16 16 newAESOFBStream); (lit "aes-192-ofb", MkInfo 24 16 newAESOFBStream);
   (lit "aes-256-ofb", MkInfo 32 16 newAESOFBStream); (lit "des-cfb", MkInfo 8 8 newDESStream);
   (lit "bf-cfb", MkInfo 16 8 newBlowFishStream); (lit "cast5-cfb", MkInfo 16 8 newCast5Stream);
   (lit "rc4-md5", MkInfo 16 16 newRC4MD5); (lit "rc4-md5-6", MkInfo 16 6 newRC4MD5);
   (lit "chacha20", MkInfo 32 8 newChaCha20); (lit "chacha20-ietf", MkInfo 32 12 newChacha20IETFStream);
   (lit "salsa20", MkInfo 32 8 newSalsa20); (lit "camellia-128-cfb", MkInfo 16 16 newCamelliaStream);
   (lit "camellia-192-cfb", MkInfo 24 16 newCamelliaStream); (lit "camellia-256-cfb", MkInfo 32 16 newCamelliaStream);
   (lit "idea-cfb", MkInfo 16 8 newIdeaStream); (lit "rc2-cfb", MkInfo 16 8 newRC2Stream);
   (lit "seed-cfb", MkInfo 16 8 newSeedStream); (lit "rc4", MkInfo 16 0 newRC4); (lit "none", MkInfo 16 0 newNone)].

Definition errEmptyPassword : error := "empty key".
Definition ErrUnsupported (method : list byte) : error :=
  String.append "Unsupported encryption method: " (String.string_of_list_byte method).
Definition default_method (method : list byte) : list byte := match method with [] => lit "rc4-md5" | _ => method end.
Definition CheckCipherMethod (method : list byte) : option error :=
  match assoc (default_method method) streamCipherMethod with
  | Some _ => None
  | None => Some (ErrUnsupported (default_method method))
  end.

(** [StreamCipher]: with its streams made. *)
Record StreamCipher := MkStreamCipher { c_enc : option stream; c_dec : option stream; c_key : list byte; c_info : cipherInfo; c_iv : option (list byte) }.

Definition NewStreamCipher (method password : list byte) : outcome StreamCipher :=
  match password with
  | [] => Err errEmptyPassword
  | _ =>
      match assoc (default_method method) streamCipherMethod with
      | None => Err (ErrUnsupported (default_method method))
      | Some mi => Ok (MkStreamCipher None None (EVPBytesToKey password (keyLen mi)) mi None)
      end
  end.
(** [InitEncrypt]; [rnd] are the bytes of a new IV. *)
Definition InitEncrypt (c : StreamCipher) (rnd : list byte) : outcome (list byte * StreamCipher) :=
  let iv := default (take (ivLen (c_info c)) rnd) (c_iv c) in
  enc ← newStream (new_stream (c_info c)) (c_key c) iv Encrypt;
  Ok (iv, MkStreamCipher (Some enc) (c_dec c) (c_key c) (c_info c) (Some iv)).
Definition InitDecrypt (c : StreamCipher) (iv : list byte) : outcome StreamCipher :=
  dec ← newStream (new_stream (c_info c)) (c_key c) iv Decrypt;
  Ok (MkStreamCipher (c_enc c) (Some dec) (c_key c) (c_info c) (c_iv c)).
Definition Copy (c : StreamCipher) : StreamCipher := MkStreamCipher None None (c_key c) (c_info c) (c_iv c).

(** The streams a connection gets of a method and a key. *)
Definition method_cipher (mi : cipherInfo) (key : list byte) : Cipher :=
  let st iv doe := match newStream (new_stream mi) key iv doe with Ok s => s | _ => λ p, p end in
  MkCipher (ivLen mi) (λ iv, st iv Encrypt) (λ iv, st iv Decrypt).
End Cipher.
End SsrCipher.

(** * proxy/ssr/internal/cipher: every method of the table makes a stream cipher whose two
    ends agree, and its key derivation is that of shadowsocks. *)
Import SsStream SsrCipher.

(** The keystream [ks] from position [i] on. *)
Definition xor_at (ks : Z → byte) (i : Z) (buf : list byte) : list byte :=
  imap (λ j b, z2b (Z.lxor (b2z b) (b2z (ks (i + Z.of_nat j))))) buf.

(** A stream that undoes itself. *)
Definition involutive (s : stream) : Prop := streaming s ∧ ∀ p, s (s p) = p.

(** The keys the ciphers take. *)
Definition key_ok (b : block) (n : nat) : bool :=
  match b with
  | AES | Camellia => (n =? 16)%nat || (n =? 24)%nat || (n =? 32)%nat
  | DES => (n =? 8)%nat
  | Blowfish => (1 <=? n)%nat && (n <=? 56)%nat
  | Cast5 | Idea => (n =? 16)%nat
  | RC2 => (1 <=? n)%nat && (n <=? 128)%nat
  end.

(** What the libraries document. *)
Class CryptoLaws (C : Crypto) : Prop := {
  md5_length : ∀ x, length (md5 x) = 16%nat;
  block_key : ∀ b key, key_ok b (length key) = true → NewBlock b key = None;
  block_size : ∀ b, BlockSize b = match b with AES | Camellia => 16%nat | _ => 8%nat end;
  ctr_laws : ∀ b k iv, involutive (NewCTR b k iv);
  cfb_enc_laws : ∀ b k iv, streaming (NewCFBEncrypter b k iv);
  cfb_dec_laws : ∀ b k iv, streaming (NewCFBDecrypter b k iv);
  cfb_inverse : ∀ b k iv p, NewCFBDecrypter b k iv (NewCFBEncrypter b k iv p) = p;
  rc4_laws : ∀ key s, rc4_NewCipher key = Ok s → involutive s;
  rc4_key : ∀ key, (1 <= length key <= 256)%nat → ∃ s, rc4_NewCipher key = Ok s;
  chacha20_laws : ∀ iv key s, chacha20_NewCipher iv key = Ok s → involutive s;
  chacha20_key : ∀ iv key, length iv ∈ [8; 12; 24]%nat → length key = 32%nat → ∃ s, chacha20_NewCipher iv key = Ok s;
  salsa_laws : ∀ nonce key, length nonce = 8%nat → length key = 32%nat →
    ∃ ks, ∀ ctr buf, 0 <= ctr < 2 ^ 64 → salsa_crypt (nonce ++ le_bytes 8 ctr) key buf = xor_at ks (64 * ctr) buf }.

(** ** Key streams *)

Lemma length_xor_at ks i buf : length (xor_at ks i buf) = length buf.
Proof. apply length_imap. Qed.

Lemma xor_at_app ks i a b : xor_at ks i (a ++ b) = xor_at ks i a ++ xor_at ks (i + Z.of_nat (length a)) b.
Proof.
  unfold xor_at. rewrite imap_app. f_equal. apply imap_ext. intros j x _. simpl.
  by replace (i + Z.of_nat (length a + j)) with (i + Z.of_nat (length a) + Z.of_nat j) by lia.
Qed.

Lemma xor_twice a k : z2b (Z.lxor (b2z (z2b (Z.lxor (b2z a) (b2z k)))) (b2z k)) = a.
Proof.
  pose proof (b2z_range a). pose proof (b2z_range k).
  assert (0 <= Z.lxor (b2z a) (b2z k) < 2 ^ 8) by (apply lxor_below; lia).
  rewrite b2z_z2b_small by lia. rewrite Z.lxor_assoc, Z.lxor_nilpotent, Z.lxor_0_r. apply z2b_b2z.
Qed.

Lemma xor_at_involutive ks i : involutive (xor_at ks i).
Proof.
  split; [split|].
  - intros a b. rewrite xor_at_app. apply take_app_length'. by rewrite length_xor_at.
  - apply length_xor_at.
  - intros p. apply list_eq. intros j. unfold xor_at. rewrite !list_lookup_imap.
    destruct (p !! j) as [x|]; [|done]. cbn [fmap option_fmap option_map]. by rewrite xor_twice.
Qed.

Section Cipher.
Context `{C : Crypto} {L : CryptoLaws C}.

(** ** Salsa20 *)

(** A call in the middle of a block: the padding puts the data at its place of the
    keystream, whatever the buffer held. *)
Lemma salsa_call c junk src :
  length (nonce c) = 8%nat → length (salsa_key c) = 32%nat → 0 <= counter c < 2 ^ 63 →
  (Z.to_nat (counter c mod 64) <= length junk)%nat → ∃ ks, (∀ p, (salsa_XORKeyStream (MkSalsa (nonce c) (salsa_key c) 0) [] p).1 = xor_at ks 0 p) ∧
    (salsa_XORKeyStream c junk src).1 = xor_at ks (counter c) src.
Proof.
  intros Hn Hk Hc Hj. destruct (salsa_laws (nonce c) (salsa_key c) Hn Hk) as [ks Hks]. exists ks.
  unfold salsa_XORKeyStream. cbn [counter nonce salsa_key]. split.
  - intros p. change (Z.to_nat (0 mod 64)) with 0%nat. change (0 / 64) with 0. by rewrite Hks, take_0, drop_0 by lia.
  - pose proof (Z.div_mod (counter c) 64 ltac:(lia)) as Hd. pose proof (Z.mod_pos_bound (counter c) 64 ltac:(lia)).
    rewrite Hks, xor_at_app by lia. cbn [fst]. rewrite drop_app_length' by (rewrite length_xor_at, length_take; lia).
    f_equal. rewrite length_take. lia.
Qed.

(** Successive calls of the Salsa20 stream are one keystream: each enciphers its data as
    the part of a single call on everything, wherever in a block it starts and whatever its
    buffer held before. *)
Theorem ssr_salsa c junk src :
  length (nonce c) = 8%nat → length (salsa_key c) = 32%nat → 0 <= counter c < 2 ^ 63 →
  (Z.to_nat (counter c mod 64) <= length junk)%nat →
  ∀ past, Z.of_nat (length past) = counter c →
  (salsa_XORKeyStream c junk src).1 =
    XORKeyStream (λ p, (salsa_XORKeyStream (MkSalsa (nonce c) (salsa_key c) 0) [] p).1) past src.
Proof.
  intros Hn Hk Hc Hj past Hp. destruct (salsa_call c junk src Hn Hk Hc Hj) as (ks & H0 & ->).
  unfold XORKeyStream. rewrite H0, xor_at_app, drop_app_length' by (by rewrite length_xor_at). by rewrite Hp.
Qed.

(** ** Keys *)

Lemma length_evp n password : ∀ prev, length (evp_loop n password prev) = (16 * n)%nat.
Proof. induction n as [|n IH]; intros prev; [done|]. cbn [evp_loop]. rewrite length_app, IH, md5_length. lia. Qed.

Lemma kdf_evp n : ∀ fuel keyLen password b prev,
  (n <= fuel)%nat → (keyLen <= length b + 16 * n)%nat → (n = 0 ∨ length b + 16 * n < keyLen + 16)%nat →
  kdf_loop md5 fuel keyLen password b prev = Ok (b ++ evp_loop n password prev).
Proof.
  induction n as [|n IH]; intros fuel keyLen password b prev Hf Hk Hn; cbn [evp_loop].
  - destruct fuel; cbn [kdf_loop]; rewrite (proj2 (Nat.ltb_ge _ _)) by lia; by rewrite app_nil_r.
  - destruct fuel as [|fuel]; [lia|]. cbn [kdf_loop]. rewrite (proj2 (Nat.ltb_lt _ _)) by lia.
    set (h := md5 (prev ++ password)). assert (length h = 16%nat) as Hh by apply md5_length.
    rewrite (proj2 (Nat.ltb_ge _ _)) by (rewrite length_app; lia).
    rewrite drop_app_length' by (rewrite length_app; lia). rewrite IH by (rewrite ?length_app; lia). by rewrite app_assoc.
Qed.

Lemma evp_first password keyLen :
  EVPBytesToKey password keyLen = take keyLen (evp_loop ((keyLen - 1) / 16 + 1) password []).
Proof. unfold EVPBytesToKey. by replace ((keyLen - 1) / 16 + 1 - 1)%nat with ((keyLen - 1) / 16)%nat by lia; rewrite (Nat.add_comm _ 1). Qed.

(** The key derivation of shadowsocksR is that of shadowsocks: the two loops give the
    same key for every password and length. *)
Theorem ssr_key password keyLen :
  (0 < keyLen)%nat → kdf md5 password keyLen = Ok (EVPBytesToKey password keyLen).
Proof.
  intros Hk. rewrite evp_first. set (n := ((keyLen - 1) / 16 + 1)%nat).
  assert (keyLen <= 16 * n < keyLen + 16)%nat as Hn by (unfold n; pose proof (Nat.div_mod (keyLen - 1) 16); pose proof (Nat.mod_upper_bound (keyLen - 1) 16); lia).
  unfold kdf. rewrite (kdf_evp n) by (simpl; lia). by rewrite bind_ret.
Qed.

(** ** Methods *)

Lemma length_key password keyLen : (0 < keyLen)%nat → length (EVPBytesToKey password keyLen) = keyLen.
Proof.
  intros Hk. rewrite evp_first, length_take, length_evp.
  pose proof (Nat.div_mod (keyLen - 1) 16). pose proof (Nat.mod_upper_bound (keyLen - 1) 16). lia.
Qed.

(** Two streams of which one undoes the other. *)
Definition undoes (e d : stream) : Prop := streaming e ∧ streaming d ∧ ∀ p, d (e p) = p.
Lemma involutive_undoes s : involutive s → undoes s s.
Proof. intros [H1 H2]. by split_and!. Qed.

Lemma newCFB_undoes b key iv e :
  newCFBStream b key iv Encrypt = Ok e → ∃ d, newCFBStream b key iv Decrypt = Ok d ∧ undoes e d.
Proof.
  unfold newCFBStream. destruct (NewBlock b key); [done|]. destruct (_ =? _)%nat; [|done]. intros [= <-].
  eexists. split; [done|]. split_and!; [apply cfb_enc_laws|apply cfb_dec_laws|apply cfb_inverse].
Qed.
Lemma newCTR_undoes b key iv e : newCTRStream b key iv = Ok e → undoes e e.
Proof.
  unfold newCTRStream. destruct (NewBlock b key); [done|]. destruct (_ =? _)%nat; [|done]. intros [= <-].
  apply involutive_undoes, ctr_laws.
Qed.
Lemma salsa_undoes key iv c :
  newSalsa20Stream key iv = Ok c → undoes (λ p, (salsa_XORKeyStream c [] p).1) (λ p, (salsa_XORKeyStream c [] p).1).
Proof.
  unfold newSalsa20Stream. destruct (Nat.leb_spec 8 (length iv)); [|done]. destruct (Nat.leb_spec 32 (length key)); [|done].
  intros [= <-]. destruct (salsa_laws (take 8 iv) (take 32 key)) as [ks Hks]; [rewrite length_take; lia..|].
  apply involutive_undoes. unfold salsa_XORKeyStream. cbn [counter nonce salsa_key fst].
  change (Z.to_nat (0 mod 64)) with 0%nat. change (0 / 64) with 0. destruct (xor_at_involutive ks 0) as [[Hp Hl] Hi].
  split; [split|]; intros; rewrite ?take_0, ?drop_0, ?app_nil_l; rewrite !Hks by lia; [apply Hp|apply Hl|apply Hi].
Qed.

Lemma newStream_undoes f key iv e :
  newStream f key iv Encrypt = Ok e → ∃ d, newStream f key iv Decrypt = Ok d ∧ undoes e d.
Proof.
  destruct f; cbn [newStream]; try apply newCFB_undoes; intros E.
  - exists e. split; [done|]. by eapply newCTR_undoes.
  - exists e. split; [done|]. by eapply newCTR_undoes.
  - exists e. split; [done|]. by eapply involutive_undoes, rc4_laws.
  - exists e. split; [done|]. by eapply involutive_undoes, chacha20_laws.
  - exists e. split; [done|]. by eapply involutive_undoes, chacha20_laws.
  - destruct (newSalsa20Stream key iv) as [c| | |] eqn:Ec; try done. injection E as <-. eexists. split; [done|].
    by eapply salsa_undoes.
  - exists e. split; [done|]. by eapply involutive_undoes, rc4_laws.
  - injection E as <-. exists newNoneStream. split; [done|]. split_and!; [| |done]; (split; [|done]); intros a b; apply take_app_length.
Qed.

(** A method's key and IV are what its stream takes. *)
Definition info_fits (mi : cipherInfo) : Prop :=
  (0 < keyLen mi)%nat ∧ ∀ key iv, length key = keyLen mi → length iv = ivLen mi → ∃ e, newStream (new_stream mi) key iv Encrypt = Ok e.

Lemma methods_fit : Forall (λ '(_, mi), info_fits mi) streamCipherMethod.
Proof.
  assert (∀ b n m, key_ok b n = true → m = BlockSize b → ∀ key iv, length key = n → length iv = m →
    (∃ e, newCFBStream b key iv Encrypt = Ok e) ∧ ∃ e, newCTRStream b key iv = Ok e) as Hb.
  { intros b n m Hn -> key iv <- Hi. unfold newCFBStream, newCTRStream. rewrite block_key by done.
    rewrite Hi, Nat.eqb_refl. split; by eexists. }
  unfold streamCipherMethod, info_fits. repeat (apply Forall_cons; split); [..|constructor];
    (split; [simpl; lia|]); cbn [new_stream newStream keyLen ivLen]; intros key iv Hk Hi;
    try (eapply Hb; [| |exact Hk|exact Hi]; [done|by rewrite block_size]).
  - apply rc4_key. rewrite md5_length. lia.
  - apply rc4_key. rewrite md5_length. lia.
  - apply chacha20_key; [rewrite Hi; set_solver|done].
  - apply chacha20_key; [rewrite Hi; set_solver|done].
  - unfold newSalsa20Stream. rewrite Hk, Hi. eexists. done.
  - apply rc4_key. lia.
  - by eexists.
Qed.

(** Every method of the table, and the default for an empty name, gives a cipher for any
    password: a key of its length, a new IV of its length, and two streams that are made of
    that key and IV without error and of which the reader's undoes the writer's. *)
Theorem ssr_methods method password mi rnd :
  password ≠ [] → assoc (default_method method) streamCipherMethod = Some mi → (ivLen mi <= length rnd)%nat →
  ∃ c iv c1 c2 e d, NewStreamCipher method password = Ok c ∧ length (c_key c) = keyLen mi ∧
    InitEncrypt c rnd = Ok (iv, c1) ∧ length iv = ivLen mi ∧ c_enc c1 = Some e ∧
    InitDecrypt c1 iv = Ok c2 ∧ c_dec c2 = Some d ∧ undoes e d.
Proof.
  intros Hp Hm Hr. unfold NewStreamCipher. destruct password as [|x password]; [done|]. rewrite Hm.
  pose proof (assoc_In _ _ _ Hm) as Hin. destruct (proj1 (Forall_forall _ _) methods_fit _ Hin) as [Hk Hfit].
  pose proof (length_key (x :: password) (keyLen mi) Hk) as Hlen.
  destruct (Hfit _ (take (ivLen mi) rnd) Hlen) as [e He]; [rewrite length_take; lia|].
  destruct (newStream_undoes _ _ _ _ He) as (d & Hd & Hu).
  eexists _, (take (ivLen mi) rnd), _, _, e, d. split; [done|]. split; [done|].
  unfold InitEncrypt, InitDecrypt. cbn [c_info c_iv c_key default]. rewrite He, bind_ret. split; [done|].
  split; [rewrite length_take; lia|]. split; [done|]. cbn [c_info c_key]. rewrite Hd, bind_ret. done.
Qed.

(** The streams of a method keep the promise a connection relies on. *)
#[global] Instance method_cipher_laws mi key : StreamLaws (method_cipher mi key).
Proof.
  assert (∀ iv, undoes (Encrypter (method_cipher mi key) iv) (Decrypter (method_cipher mi key) iv)) as H.
  { intros iv. unfold method_cipher. cbn [Encrypter Decrypter].
    destruct (newStream (new_stream mi) key iv Encrypt) as [e|x| |] eqn:E.
    { destruct (newStream_undoes _ _ _ _ E) as (d & -> & Hu). done. }
    all: assert (undoes (λ p, p) (λ p, p)) as Hid by (split_and!; [| |done]; (split; [|done]); intros a b; apply take_app_length).
    all: replace (newStream (new_stream mi) key iv Decrypt) with (newStream (new_stream mi) key iv Encrypt); [by rewrite E|].
    all: clear Hid; destruct mi as [kl il []]; cbn [new_stream newStream] in *; try done; unfold newCFBStream in *;
      destruct (NewBlock _ _); try done; by destruct (_ =? _)%nat. }
  split; intros; by destruct (H iv) as ([He1 He2] & [Hd1 Hd2] & Hi).
Qed.
End Cipher.
