(* ===== verification/SsrChainHead.v ===== *)
(** proxy/ssr/internal/protocol/auth_chain_a.go: the header of the first packet, which opens
    the chains of hashes, and the protocol around the packets. *)
From stdpp Require Import sorting.
From S2P Require Import Prelude GoStd Reader ProxyConn SocksAddr Shadowsocks HttpHead SsStream SsrSum SsrProto SsrChain SsrCipher.
Import SsStream SsrProto SsrChain.

Module SsrChainHead.
Section Head.
Context `{Cr : !SsrCipher.Crypto} (hmac_md5 : list byte → list byte → list byte) (sha1 : list byte → list byte).
Context (aes_cbc : list byte → list byte → list byte) (rc4 : list byte → list byte → list byte).

(** [authChainA]: the salt tells the two protocols apart. *)
Record authChainA := MkChainA {
  ca_salt : list byte;
  ca_info : ServerInfo;
  ca_hasSentHeader : bool;
  ca_send : sender;
  ca_recv : receiver;
  ca_userKey : option (list byte);
  ca_uid : list byte;
  ca_data : AuthData;
  ca_cipher : list byte;
  dataSizeList : list Z;
  dataSizeList2 : list Z }.

Definition new_chain (salt : list byte) (si : ServerInfo) (ad : AuthData) : authChainA :=
  MkChainA salt si false (MkSender [] 0 (0, 0) []) (MkReceiver [] 1 (0, 0) [] (si_TcpMss si)) None [x00; x00; x00; x00] ad [] [] [].
Definition NewAuthChainA : ServerInfo → AuthData → authChainA := new_chain (lit "auth_chain_a").
Definition NewAuthChainB : ServerInfo → AuthData → authChainA := new_chain (lit "auth_chain_b").

Definition rnd_of (a : authChainA) : Z → Shift128plus → list byte → Z → Z * Shift128plus :=
  if bool_decide (ca_salt a = lit "auth_chain_b") then authChainBGetRandLen (dataSizeList a) (dataSizeList2 a)
  else authChainAGetRandLen.

(** [SetServerInfo]: the sizes of auth_chain_b are drawn once there is a key. *)
Definition SetServerInfo (a : authChainA) (si : ServerInfo) : authChainA :=
  let '(l1, l2, v) := if bool_decide (ca_salt a = lit "auth_chain_b") && (0 <? length (si_Key si))%nat
                      then authChainBInitDataSize (si_Key si) else (dataSizeList a, dataSizeList2 a, randomServer (ca_recv a)) in
  MkChainA (ca_salt a) si (ca_hasSentHeader a) (ca_send a)
    (MkReceiver (lastServerHash (ca_recv a)) (recvID (ca_recv a)) v (dec_past (ca_recv a)) (si_TcpMss si))
    (ca_userKey a) (ca_uid a) (ca_data a) (ca_cipher a) l1 l2.

(** The ids: the client id keeps its length, which is that of the data it was given. *)
Definition chain_connection (ad : AuthData) (d : draw) : AuthData :=
  let id := u32 (ad_connectionID ad + 1) in
  if 0xFF000000 <? id
  then MkAuthData (take (length (ad_clientID ad)) (d_client d)) (Z.land (le_val (d_conn d)) 0xFFFFFF)
  else MkAuthData (ad_clientID ad) id.

Definition chain_user (a : authChainA) (d : draw) : list byte * list byte :=
  match ca_userKey a with
  | Some k => (ca_uid a, k)
  | None =>
      match split_byte c_colon (si_Param (ca_info a)) with
      | p0 :: p1 :: _ =>
          match parse_uint p0 32 with
          | (userID, None) => (le_bytes 4 userID, sha1 p1)
          | (_, Some _) => (d_uid d, si_Key (ca_info a))
          end
      | _ => (d_uid d, si_Key (ca_info a))
      end
  end.

Definition xor_bytes (a b : list byte) : list byte := zip_with (λ x y, z2b (Z.lxor (b2z x) (b2z y))) a b.
Definition fit (n : nat) (s : list byte) : list byte := take n (s ++ replicate n x00).

(** The 36 bytes of the header, and the hashes of the two ends after it. *)
Definition chain_authhead (a : authChainA) (d : draw) : list byte * list byte * list byte * authChainA :=
  let si := ca_info a in
  let ad := chain_connection (ca_data a) d in
  let plain := le_bytes 4 (u32 (d_time d)) ++ fit 4 (ad_clientID ad) ++ le_bytes 4 (ad_connectionID ad) ++
               le_bytes 2 (u16 (si_Overhead si)) ++ [x00; x00] in
  let start := take 4 (d_head d) in
  let clientHash := hmac_md5 (si_IV si ++ si_Key si) start in
  let '(uid, userKey) := chain_user a d in
  let base64UserKey := b64_encode userKey in
  let encrypt := xor_bytes uid (take 4 (drop 8 clientHash)) ++
                 aes_cbc (SsrCipher.EVPBytesToKey (base64UserKey ++ ca_salt a) 16) plain in
  let serverHash := hmac_md5 userKey encrypt in
  let password := base64UserKey ++ b64_encode (take 16 clientHash) in
  (start ++ take 8 clientHash ++ encrypt ++ take 4 serverHash, clientHash, serverHash,
   MkChainA (ca_salt a) si (ca_hasSentHeader a) (MkSender clientHash (chunkID (ca_send a)) (randomClient (ca_send a)) [])
     (MkReceiver serverHash (recvID (ca_recv a)) (randomServer (ca_recv a)) [] (r_mss (ca_recv a)))
     (Some userKey) uid ad (SsrCipher.EVPBytesToKey password 16) (dataSizeList a) (dataSizeList2 a)).

Definition with_send (a : authChainA) (s : sender) (sent : bool) : authChainA :=
  MkChainA (ca_salt a) (ca_info a) sent s (ca_recv a) (ca_userKey a) (ca_uid a) (ca_data a) (ca_cipher a)
    (dataSizeList a) (dataSizeList2 a).
Definition with_recv (a : authChainA) (r : receiver) : authChainA :=
  MkChainA (ca_salt a) (ca_info a) (ca_hasSentHeader a) (ca_send a) r (ca_userKey a) (ca_uid a) (ca_data a) (ca_cipher a)
    (dataSizeList a) (dataSizeList2 a).

Definition chain_packAuthData (a : authChainA) (data : list byte) (d : draw) (fill : list byte) : list byte * authChainA :=
  let '(head, _, _, a) := chain_authhead a d in
  let '(p, s) := chain_packData hmac_md5 (rc4 (ca_cipher a)) (rnd_of a) (default [] (ca_userKey a)) (si_Overhead (ca_info a))
                   (ca_send a) data fill in
  (head ++ p, with_send a s (ca_hasSentHeader a)).

(** [PreEncrypt]; [fills 0] are the random bytes of the first packet. *)
Definition PreEncrypt (a : authChainA) (d : draw) (fills : nat → list byte) (data : list byte) : outcome (list byte * authChainA) :=
  let '(head, rest, a) :=
    if (0 <? length data)%nat && negb (ca_hasSentHeader a) then
      let n := Nat.min authLength_max (length data) in
      let '(p, a) := chain_packAuthData a (take n data) d (fills 0%nat) in (p, drop n data, with_send a (ca_send a) true)
    else ([], data, a) in
  '(out, s) ← chain_PreEncrypt hmac_md5 (rc4 (ca_cipher a)) (rnd_of a) (default [] (ca_userKey a)) (si_Overhead (ca_info a))
                (r_mss (ca_recv a)) (ca_send a) (λ i, fills (S i)) rest;
  Ok (head ++ out, with_send a s (ca_hasSentHeader a)).

Definition PostDecrypt (a : authChainA) (data : list byte) : outcome (list byte * nat) * authChainA :=
  let '(r, s) := chain_PostDecrypt hmac_md5 (rc4 (ca_cipher a)) (rnd_of a) (default [] (ca_userKey a)) (si_Overhead (ca_info a))
                   (ca_recv a) data in
  (r, with_recv a s).
End Head.
End SsrChainHead.

(** * proxy/ssr/internal/protocol/auth_chain_a.go: a server that knows the key and its users
    takes the header, and is then in step with the client. *)
Import SsStream SsrProto SsrChain SsrChainHead.

Section Head.
Context `{Cr : !SsrCipher.Crypto} (hmac_md5 : list byte → list byte → list byte) (sha1 : list byte → list byte).
Context (aes_cbc aes_dec : list byte → list byte → list byte) (users : list byte → list byte).
Hypothesis hmac_length : ∀ k m, length (hmac_md5 k m) = 16%nat.
Hypothesis aes_length : ∀ k p, length (aes_cbc k p) = length p.
Hypothesis aes_inverse : ∀ k p, aes_dec k (aes_cbc k p) = p.

(** What a server makes of a header: the checks of the two hashes, and the client's
    time and ids; it goes on with the hashes and with the key of the cipher. *)
Definition server_auth (salt key wire : list byte) : option (list byte * list byte * list byte * list byte) :=
  let clientHash := hmac_md5 key (take 4 wire) in
  let encrypt := take 20 (drop 12 wire) in
  let userKey := users (xor_bytes (take 4 encrypt) (take 4 (drop 8 clientHash))) in
  let serverHash := hmac_md5 userKey encrypt in
  if bool_decide (take 8 clientHash = take 8 (drop 4 wire)) && bool_decide (take 4 serverHash = take 4 (drop 32 wire)) then
    Some (aes_dec (SsrCipher.EVPBytesToKey (b64_encode userKey ++ salt) 16) (drop 4 encrypt), clientHash, serverHash,
          SsrCipher.EVPBytesToKey (b64_encode userKey ++ b64_encode (take 16 clientHash)) 16)
  else None.

Lemma xor_bytes_twice a b : length a = length b → xor_bytes (xor_bytes a b) b = a.
Proof.
  revert b. induction a as [|x a IH]; intros [|y b] Hl; try done. unfold xor_bytes in *. cbn [zip_with]. rewrite xor_twice. f_equal. apply IH. by injection Hl.
Qed.
Lemma length_xor_bytes a b : length (xor_bytes a b) = Nat.min (length a) (length b).
Proof. apply length_zip_with. Qed.
Lemma length_fit n s : length (fit n s) = n.
Proof. unfold fit. rewrite length_take, length_app, length_replicate. lia. Qed.

(** A server that knows the key and its users accepts the header of auth_chain_a and
    auth_chain_b, whatever follows it, and reads the client's time, ids and overhead out of
    it; both ends are then at the same two hashes, with the same key for RC4. *)
Theorem ssr_chain_auth a d rest :
  (4 <= length (d_head d))%nat → length (chain_user sha1 a d).1 = 4%nat → users (chain_user sha1 a d).1 = (chain_user sha1 a d).2 →
  let '(head, clientHash, serverHash, a') := chain_authhead hmac_md5 sha1 aes_cbc a d in
  server_auth (ca_salt a) (si_IV (ca_info a) ++ si_Key (ca_info a)) (head ++ rest) =
    Some (le_bytes 4 (u32 (d_time d)) ++ fit 4 (ad_clientID (ca_data a')) ++ le_bytes 4 (ad_connectionID (ca_data a')) ++
          le_bytes 2 (u16 (si_Overhead (ca_info a))) ++ [x00; x00], lastClientHash (ca_send a'), lastServerHash (ca_recv a'), ca_cipher a') ∧
  length head = 36%nat.
Proof.
  intros Hd Hu Hus. unfold chain_authhead. destruct (chain_user sha1 a d) as [uid userKey]. cbn [fst snd] in Hu, Hus.
  cbn [ca_data ca_send ca_recv ca_cipher lastClientHash lastServerHash].
  set (start := take 4 (d_head d)). set (h := hmac_md5 (si_IV (ca_info a) ++ si_Key (ca_info a)) start).
  set (plain := le_bytes 4 _ ++ _). set (k := SsrCipher.EVPBytesToKey (_ ++ ca_salt a) 16). set (x := xor_bytes uid (take 4 (drop 8 h))).
  assert (length start = 4%nat) as L1 by (unfold start; rewrite length_take; lia).
  assert (length h = 16%nat) as Lh by apply hmac_length.
  assert (length (take 8 h) = 8%nat) as L2 by (rewrite length_take; lia).
  assert (length x = 4%nat) as L3 by (unfold x; rewrite length_xor_bytes, length_take, length_drop; lia).
  assert (length (aes_cbc k plain) = 16%nat) as L4
    by (rewrite aes_length; unfold plain; rewrite !length_app, !length_le_bytes, length_fit; done).
  set (encrypt := x ++ aes_cbc k plain). assert (length encrypt = 20%nat) as L5 by (unfold encrypt; rewrite length_app; lia).
  assert (length (take 4 (hmac_md5 userKey encrypt)) = 4%nat) as L6 by (rewrite length_take, hmac_length; lia).
  split; [|rewrite !length_app; lia]. unfold server_auth. rewrite <- !app_assoc. rewrite take_app_length' by done. fold h.
  assert (∀ r, drop 4 (start ++ r) = r) as D1 by (intros r; by apply drop_app_length').
  assert (∀ r, drop 12 (start ++ take 8 h ++ r) = r) as D2
    by (intros r; rewrite app_assoc; apply drop_app_length'; rewrite length_app; lia).
  assert (∀ r, drop 32 (start ++ take 8 h ++ encrypt ++ r) = r) as D3
    by (intros r; rewrite !app_assoc; apply drop_app_length'; rewrite !length_app; lia).
  rewrite D1, D2, D3. rewrite !take_app_length' by done.
  assert (take 4 encrypt = x ∧ drop 4 encrypt = aes_cbc k plain) as [-> ->]
    by (unfold encrypt; by rewrite take_app_length', drop_app_length').
  assert (xor_bytes x (take 4 (drop 8 h)) = uid) as -> by (apply xor_bytes_twice; rewrite length_take, length_drop; lia). rewrite Hus.
  rewrite !bool_decide_eq_true_2 by done. cbn [andb]. fold k. by rewrite aes_inverse.
Qed.
End Head.
