(* ===== verification/SsrObfsHttp.v ===== *)
(** proxy/ssr/internal/obfs/http_simple.go and http_post.go: the disguise as an HTTP request.

    What the random source gives is an argument: [hd_extra] below 64, the indices of the
    path, of the host and of the user agent, and the 32 characters of a boundary. *)
From S2P Require Import Prelude GoStd Reader ProxyConn SocksAddr Trojan Vless Shadowsocks HttpHead Http Obfs SsrSum SsrProto SsrObfs.
Import SsrProto SsrObfs.

Module SsrHttp.

Definition requestPath : list (list byte * list byte) :=
  [([], []); (lit "login.php?redir=", []); (lit "register.php?code=", []); (lit "?keyword=", []);
   (lit "search?src=typd&q=", lit "&lang=en"); (lit "s?ie=utf-8&f=8&rsv_bp=1&rsv_idx=1&ch=&bar=&wd=", lit "&rn=");
   (lit "post.php?id=", lit "&goto=view.php")].
Definition requestUserAgent : list (list byte) :=
  [lit "Mozilla/5.0 (Windows NT 6.3; WOW64; rv:40.0) Gecko/20100101 Firefox/40.0";
   lit "Mozilla/5.0 (Windows NT 6.3; WOW64; rv:40.0) Gecko/20100101 Firefox/44.0";
   lit "Mozilla/5.0 (Windows NT 6.1) AppleWebKit/537.36 (KHTML, like Gecko) Chrome/41.0.2228.0 Safari/537.36";
   lit "Mozilla/5.0 (X11; Linux x86_64) AppleWebKit/535.11 (KHTML, like Gecko) Ubuntu/11.10 Chromium/27.0.1453.93 Chrome/27.0.1453.93 Safari/537.36";
   lit "Mozilla/5.0 (X11; Ubuntu; Linux x86_64; rv:35.0) Gecko/20100101 Firefox/35.0";
   lit "Mozilla/5.0 (compatible; WOW64; MSIE 10.0; Windows NT 6.2)";
   lit "Mozilla/5.0 (Windows; U; Windows NT 6.1; en-US) AppleWebKit/533.20.25 (KHTML, like Gecko) Version/5.0.4 Safari/533.20.27";
   lit "Mozilla/4.0 (compatible; MSIE 7.0; Windows NT 6.3; Trident/7.0; .NET4.0E; .NET4.0C)";
   lit "Mozilla/5.0 (Windows NT 6.3; Trident/7.0; rv:11.0) like Gecko";
   lit "Mozilla/5.0 (Linux; Android 4.4; Nexus 5 Build/BuildID) AppleWebKit/537.36 (KHTML, like Gecko) Version/4.0 Chrome/30.0.0.0 Mobile Safari/537.36";
   lit "Mozilla/5.0 (iPad; CPU OS 5_0 like Mac OS X) AppleWebKit/534.46 (KHTML, like Gecko) Version/5.1 Mobile/9A334 Safari/7534.48.3";
   lit "Mozilla/5.0 (iPhone; CPU iPhone OS 5_0 like Mac OS X) AppleWebKit/534.46 (KHTML, like Gecko) Version/5.1 Mobile/9A334 Safari/7534.48.3"].

Record httpSimplePost := MkHttp { hp_sent : bool; hp_received : bool; userAgentIndex : nat; methodGet : bool }.
Definition newHttpSimple (agent : nat) : httpSimplePost := MkHttp false false agent true.
Definition newHttpPost (agent : nat) : httpSimplePost := MkHttp false false agent false.

Record http_draw := MkHttpDraw { hd_extra : nat; hd_path : nat; hd_host : nat; hd_boundary : list byte }.

Definition c_percent : byte := x25.
Definition data2URLEncode (data : list byte) : list byte := concat (map (λ b, c_percent :: hex_byte b) data).

(** [strings.Replace] of a backslash and an n. *)
Fixpoint expand_nl (s : list byte) : list byte :=
  match s with
  | x5c :: x6e :: s => Http.crlf ++ expand_nl s
  | b :: s => b :: expand_nl s
  | [] => []
  end.

(** The host and the custom head of the parameter. *)
Definition http_param (si : ServerInfo) (pick : nat) : list byte * list byte :=
  match si_Param si with
  | [] => (si_Host si, [])
  | param =>
      let '(param, customHead) := match split_byte x23 param with p :: c :: _ => (p, c) | _ => (param, []) end in
      (match split_byte c_comma param !! pick with Some h => trim_space h | None => si_Host si end, customHead)
  end.

Definition headSize (si : ServerInfo) (extra : nat) (data : list byte) : nat :=
  let headSize := (length (si_IV si) + si_HeadLen si)%nat in
  if (64 <? Z.of_nat (length data) - Z.of_nat headSize) then (headSize + extra)%nat else length data.

Definition http_Encode (si : ServerInfo) (t : httpSimplePost) (d : http_draw) (data : list byte) : list byte * httpSimplePost :=
  if hp_sent t then (data, t)
  else
    let n := headSize si (hd_extra d) data in
    let '(host, customHead) := http_param si (hd_host d) in
    let '(p0, p1) := nth (hd_path d) requestPath ([], []) in
    let httpBuf := (if methodGet t then lit "GET /" else lit "POST /") ++ p0 ++ data2URLEncode (take n data) ++ p1 ++
                   lit " HTTP/1.1" ++ Http.crlf ++ lit "Host: " ++ host ++ lit ":" ++ format_uint (si_Port si) ++ Http.crlf in
    let httpBuf := httpBuf ++
      match customHead with
      | _ :: _ => expand_nl customHead ++ Http.crlf ++ Http.crlf
      | [] =>
          lit "User-Agent: " ++ nth (userAgentIndex t) requestUserAgent [] ++ Http.crlf ++
          lit "Accept: text/html,application/xhtml+xml,application/xml;q=0.9,*/*;q=0.8" ++ Http.crlf ++
          lit "Accept-Language: en-US,en;q=0.8" ++ Http.crlf ++
          lit "Accept-Encoding: gzip, deflate" ++ Http.crlf ++
          (if methodGet t then [] else lit "Content-Type: multipart/form-data; boundary=" ++ hd_boundary d ++ Http.crlf) ++
          lit "DNT: 1" ++ Http.crlf ++ lit "Connection: keep-alive" ++ Http.crlf ++ Http.crlf
      end in
    (httpBuf ++ drop n data, MkHttp true (hp_received t) (userAgentIndex t) (methodGet t)).

(** [bytes.Index] of an empty line. *)
Fixpoint index_blank (s : list byte) : option nat :=
  match s with
  | x0d :: x0a :: x0d :: x0a :: _ => Some 0%nat
  | _ :: s => S <$> index_blank s
  | [] => None
  end.
Definition http_Decode (t : httpSimplePost) (data : list byte) : list byte * bool * httpSimplePost :=
  if hp_received t then (data, false, t)
  else match index_blank data with
       | Some (S pos) => (drop (S pos + 4) data, false, MkHttp (hp_sent t) true (userAgentIndex t) (methodGet t))
       | _ => ([], false, t)
       end.
End SsrHttp.

(** * proxy/ssr/internal/obfs: the HTTP disguise carries the first data in the request and the
    rest as it is. *)
Import SsrProto SsrObfs SsrHttp.

(** ** The end of a head *)

Lemma index_skip b s : b ≠ c_cr → index_blank (b :: s) = S <$> index_blank s.
Proof. by destruct b. Qed.
Lemma index_skips l s : c_cr ∉ l → index_blank (l ++ s) = (λ n, (length l + n)%nat) <$> index_blank s.
Proof.
  induction l as [|b l IH]; intros Hl; [cbn [app]; by destruct (index_blank s)|]. apply not_elem_of_cons in Hl as [Hb Hl].
  cbn [app]. rewrite index_skip, IH by done. by destruct (index_blank s).
Qed.
Lemma index_cr b s : b ≠ c_cr → index_blank (c_cr :: c_lf :: b :: s) = S <$> index_blank (c_lf :: b :: s).
Proof. unfold c_cr, c_lf. by destruct b. Qed.
Lemma index_crlf b s : b ≠ c_cr → index_blank (Http.crlf ++ b :: s) = (λ n, (2 + n)%nat) <$> index_blank (b :: s).
Proof.
  intros Hb. change (Http.crlf ++ b :: s) with (c_cr :: c_lf :: b :: s). rewrite index_cr, index_skip by done. by destruct (index_blank (b :: s)).
Qed.

Definition plain_line (l : list byte) : Prop := l ≠ [] ∧ c_cr ∉ l.

Lemma index_head lines rest :
  lines ≠ [] → Forall plain_line lines →
  ∃ n, index_blank (http_head lines ++ rest) = Some (S n) ∧ (S n + 4 = length (http_head lines))%nat.
Proof.
  intros Hne Hl. induction Hl as [|l lines [Hl0 Hl] Hls IH]; [done|]. unfold http_head in *. cbn [map concat].
  rewrite <- !app_assoc. rewrite index_skips by done. destruct l as [|x l]; [done|]. destruct Hls as [|l' lines [Hl0' Hl'] Hls].
  - cbn [map concat app]. exists (length l). split; [cbn; f_equal; lia|]. cbn [length]. rewrite ?length_app. cbn. lia.
  - destruct IH as (n & IH & Hn); [done|]. destruct l' as [|y l']; [done|]. apply not_elem_of_cons in Hl' as [Hy _].
    cbn [map concat] in *. rewrite <- !app_assoc in *. cbn [app] in IH |- *. rewrite index_crlf, IH by done.
    exists (length l + 2 + S n)%nat. cbn [fmap option_fmap option_map length] in *. rewrite !length_app in *. simpl length in *.
    rewrite !length_app in *. split; [f_equal; lia|]. cbn [length]. rewrite !length_app. cbn. lia.
Qed.

(** ** The escaped data *)

Fixpoint unescape (s : list byte) : list byte :=
  match s with
  | x25 :: a :: b :: s =>
      match hex_val a, hex_val b with Some x, Some y => z2b (x * 16 + y) :: unescape s | _, _ => [] end
  | _ => []
  end.
Fixpoint first_percent (s : list byte) : list byte :=
  match s with
  | [] => []
  | b :: s' => if bool_decide (b = c_percent) then s else first_percent s'
  end.
(** What a server takes of a request: the escaped data of its head and what follows. *)
Definition server_data (wire : list byte) : option (list byte) :=
  (λ n, unescape (first_percent wire) ++ drop (n + 4) wire) <$> index_blank wire.

Lemma hex_val_digit d : 0 <= d < 16 → hex_val (hex_digit d) = Some d.
Proof.
  intros Hd. assert (d ∈ Z.of_nat <$> seq 0 16) as Hin
    by (apply list_elem_of_fmap; exists (Z.to_nat d); split; [lia|apply elem_of_seq; lia]).
  cbn in Hin. repeat (apply elem_of_cons in Hin as [->|Hin]; [vm_compute; reflexivity|]). by apply elem_of_nil in Hin.
Qed.
Lemma unescape_ok data b s : b ≠ c_percent → unescape (data2URLEncode data ++ b :: s) = data.
Proof.
  intros Hb. induction data as [|x data IH].
  - cbn [data2URLEncode map concat app]. by destruct b.
  - unfold data2URLEncode in *. cbn [map concat hex_byte app]. unfold c_percent at 1. cbn [unescape].
    pose proof (b2z_range x). pose proof (Z.mod_pos_bound (b2z x) 16). pose proof (Z.div_mod (b2z x) 16).
    rewrite !hex_val_digit by lia. replace (b2z x / 16 * 16 + b2z x mod 16) with (b2z x) by lia. by rewrite z2b_b2z, IH.
Qed.

Lemma first_percent_skip l s : c_percent ∉ l → first_percent (l ++ c_percent :: s) = c_percent :: s.
Proof.
  induction l as [|b l IH]; intros Hl; [done|]. apply not_elem_of_cons in Hl as [Hb Hl]. cbn [app first_percent].
  rewrite bool_decide_eq_false_2 by congruence. by apply IH.
Qed.

(** ** Requests *)

Ltac absent := apply (bool_decide_eq_true_1 _); vm_compute; reflexivity.

(** The lines of a request without a custom head. *)
Definition request_line (t : httpSimplePost) (d : http_draw) (head : list byte) : list byte :=
  let '(p0, p1) := nth (hd_path d) requestPath ([], []) in
  (if methodGet t then lit "GET /" else lit "POST /") ++ p0 ++ data2URLEncode head ++ p1 ++ lit " HTTP/1.1".
Definition request_lines (t : httpSimplePost) (d : http_draw) (host port head : list byte) : list (list byte) :=
  [request_line t d head; lit "Host: " ++ host ++ lit ":" ++ port; lit "User-Agent: " ++ nth (userAgentIndex t) requestUserAgent [];
   lit "Accept: text/html,application/xhtml+xml,application/xml;q=0.9,*/*;q=0.8"; lit "Accept-Language: en-US,en;q=0.8";
   lit "Accept-Encoding: gzip, deflate"] ++
  (if methodGet t then [] else [lit "Content-Type: multipart/form-data; boundary=" ++ hd_boundary d]) ++
  [lit "DNT: 1"; lit "Connection: keep-alive"].

Lemma Encode_lines si t d data host :
  hp_sent t = false → http_param si (hd_host d) = (host, []) →
  (http_Encode si t d data).1 =
    http_head (request_lines t d host (format_uint (si_Port si)) (take (headSize si (hd_extra d) data) data)) ++
    drop (headSize si (hd_extra d) data) data.
Proof.
  intros Ht Hp. unfold http_Encode. rewrite Ht, Hp. unfold request_lines, request_line.
  destruct (nth (hd_path d) requestPath ([], [])) as [p0 p1]. cbn [fst]. unfold http_head.
  destruct (methodGet t); cbn [app map concat]; rewrite <- !app_assoc; done.
Qed.

Lemma paths_plain i : let '(p0, p1) := nth i requestPath ([], []) in
  c_cr ∉ p0 ∧ c_percent ∉ p0 ∧ c_cr ∉ p1 ∧ ∃ b s, p1 ++ lit " HTTP/1.1" = b :: s ∧ b ≠ c_percent.
Proof.
  do 7 (destruct i as [|i]; [cbn [nth requestPath]; split_and!; [absent..|eexists _, _; split; [reflexivity|done]]|]).
  cbn [nth requestPath]. replace (match i with O | _ => ([], []) end) with (@nil byte, @nil byte) by (by destruct i).
  split_and!; [absent..|eexists _, _; split; [reflexivity|done]].
Qed.

Lemma escaped_plain data : c_cr ∉ data2URLEncode data.
Proof.
  unfold data2URLEncode. induction data as [|x data IH]; [absent|]. cbn [map concat]. intros H.
  apply elem_of_app in H as [H|H]; [|done]. destruct x; revert H; absent.
Qed.

Lemma agent_plain i : c_cr ∉ nth i requestUserAgent [].
Proof.
  destruct (nth_in_or_default i requestUserAgent []) as [H| ->]; [|absent].
  assert (Forall (λ l, c_cr ∉ l) requestUserAgent) as Hall by absent.
  rewrite Forall_forall in Hall. apply Hall. by apply list_elem_of_In.
Qed.

Lemma port_plain z : c_cr ∉ format_uint z.
Proof. intros H. by apply (proj1 (Forall_forall _ _) (format_uint_digits z)) in H. Qed.

Lemma request_plain t d host z head :
  c_cr ∉ host → c_cr ∉ hd_boundary d → Forall plain_line (request_lines t d host (format_uint z) head).
Proof.
  intros Hh Hb. unfold request_lines, request_line. pose proof (paths_plain (hd_path d)) as Hp.
  destruct (nth (hd_path d) requestPath ([], [])) as [p0 p1]. destruct Hp as (H0 & _ & H1 & _).
  assert (∀ a b : list byte, c_cr ∉ a → c_cr ∉ b → c_cr ∉ a ++ b) as Happ by (intros a b ? ?; rewrite elem_of_app; tauto).
  pose proof (escaped_plain head). pose proof (agent_plain (userAgentIndex t)). pose proof (port_plain z).
  destruct (methodGet t); cbn [app]; repeat (apply Forall_cons; split); try constructor; try done;
    repeat (apply Happ); try done; try absent.
Qed.

Lemma headSize_ok si extra data :
  (extra < 64)%nat → (0 < si_HeadLen si)%nat → data ≠ [] → (0 < headSize si extra data <= length data)%nat.
Proof.
  intros He Hs Hd. unfold headSize. destruct (Z.ltb_spec 64 (Z.of_nat (length data) - Z.of_nat (length (si_IV si) + si_HeadLen si))); [lia|].
  destruct data; [done|simpl; lia].
Qed.

(** A server takes exactly the data out of the request of the HTTP disguise, the escaped
    head data of its path and what follows its empty line, for both methods, every path and
    user agent, and any data; later writes are sent as they are. *)
Theorem ssr_http_request si t d data host :
  hp_sent t = false → data ≠ [] → (0 < si_HeadLen si)%nat → (hd_extra d < 64)%nat →
  http_param si (hd_host d) = (host, []) → c_cr ∉ host → c_cr ∉ hd_boundary d →
  let '(wire, t') := http_Encode si t d data in
  server_data wire = Some data ∧ ∀ d' more, http_Encode si t' d' more = (more, t').
Proof.
  intros Ht Hne Hl He Hp Hh Hb. pose proof (Encode_lines si t d data host Ht Hp) as E.
  destruct (http_Encode si t d data) as [wire t'] eqn:Ew. cbn [fst] in E. split.
  - destruct (headSize_ok si (hd_extra d) data He Hl Hne) as [Hn1 Hn2]. set (n := headSize si (hd_extra d) data) in *.
    destruct (index_head (request_lines t d host (format_uint (si_Port si)) (take n data)) (drop n data)) as (m & Hi & Hm);
      [done|by apply request_plain|].
    unfold server_data. subst wire. rewrite Hi. cbn [fmap option_fmap option_map]. rewrite Hm, drop_app_length. f_equal.
    transitivity (take n data ++ drop n data); [f_equal|apply take_drop]. unfold http_head, request_lines, request_line.
    pose proof (paths_plain (hd_path d)) as Hpp. destruct (nth (hd_path d) requestPath ([], [])) as [p0 p1].
    destruct Hpp as (_ & H0 & _ & b & s & Hs & Hbp). cbn [app map concat]. rewrite <- !app_assoc.
    rewrite (app_assoc p1), Hs. destruct (take n data) as [|x head] eqn:Et;
      [apply (f_equal length) in Et; rewrite length_take in Et; simpl in Et; lia|].
    change (data2URLEncode (x :: head)) with (c_percent :: hex_byte x ++ data2URLEncode head).
    rewrite (app_assoc (if methodGet t then _ else _)). cbn [app]. rewrite first_percent_skip.
    + change (c_percent :: (hex_byte x ++ data2URLEncode head) ++ ?r) with (data2URLEncode (x :: head) ++ r).
      by apply unescape_ok.
    + rewrite elem_of_app. intros [H|H]; [|done]. revert H. destruct (methodGet t); absent.
  - intros d' more. revert Ew. unfold http_Encode at 1. rewrite Ht, Hp. destruct (nth _ requestPath _). intros [= _ <-]. done.
Qed.

(** A response whose head is in the first read is stripped of it; the rest is passed on. *)
Lemma http_Decode_first t lines data :
  hp_received t = false → lines ≠ [] → Forall plain_line lines →
  ∃ t', http_Decode t (http_head lines ++ data) = (data, false, t') ∧ ∀ more, http_Decode t' more = (more, false, t').
Proof.
  intros Ht Hne Hl. destruct (index_head lines data Hne Hl) as (n & Hi & Hn). unfold http_Decode at 1. rewrite Ht, Hi.
  rewrite Hn, drop_app_length. eexists. split; [done|]. intros more. done.
Qed.

(** A head cut by a read is never seen: everything after it is dropped. *)
Lemma http_Decode_split t :
  hp_received t = false →
  http_Decode t (lit "HTTP/1.1 200 OK" ++ [x0d; x0a; x0d]) = ([], false, t) ∧ http_Decode t (x0a :: lit "data") = ([], false, t).
Proof. intros Ht. unfold http_Decode. by rewrite Ht. Qed.

Lemma ssr_http_request_witness :
  let si := MkServerInfo (lit "example.com") 443 [] (lit "0123456789abcdef") [] 7 1460 0 in
  let d := MkHttpDraw 3 4 0 [] in
  let data := lit "the first data of the connection, long enough for a body after the head of the request; and so on" in
  server_data (http_Encode si (newHttpSimple 2) d data).1 = Some data.
Proof.
  intros si d data. pose proof (ssr_http_request si (newHttpSimple 2) d data (lit "example.com")) as H.
  destruct (http_Encode si (newHttpSimple 2) d data) as [wire t']. cbn [fst].
  apply H; [done|done|simpl; lia|simpl; lia|done|absent|absent].
Defined.
