(* ===== verification/SsrStack.v ===== *)
(** proxy/ssr/ssr.go with the registries of obfs/base.go and protocol/base.go: the disguises
    and protocols by their names, and a dial through them.

    [draws] is what the random source and the clock give to the n-th call of [Encode] and of
    [PreEncrypt]. *)
From stdpp Require Import sorting.
From S2P Require Import Prelude GoStd Reader ProxyConn SocksAddr Shadowsocks AnyTls HttpHead SsStream Obfs SsrSum SsrProto SsrChain SsrObfs SsrConn SsrObfsProofs SsrCipher SsrChainHead SsrObfsHttp.
Import SsStream SsrProto SsrChain SsrObfs SsrHttp SsrConn.

Module Ssr.

Record draws := MkDraws {
  dr_packet : nat → nat → draw;
  dr_fill : nat → nat → list byte;
  dr_http : http_draw;
  dr_head : nat → list byte;
  dr_records : nat → nat → nat;
  dr_pick : nat → nat;
  dr_ticket : nat → list byte;
  dr_now : nat → Z;
  dr_auth : nat → list byte;
  dr_finish : nat → list byte;
  dr_agent : nat;
  dr_clientID : list byte;
  dr_iv : list byte }.

Section Stack.
Context `{Cr : !SsrCipher.Crypto} (hmac_sha1 hmac_md5 : list byte → list byte → list byte) (sha1 : list byte → list byte).
Context (aes_cbc : list byte → list byte → list byte) (rc4 : list byte → list byte → list byte) (dr : draws).

(** ** Disguises *)

Inductive disguise := OPlain | ORandom (r : randomHead) | OTls (clientID : list byte) (t : tls12) | OHttp (t : httpSimplePost).
Record Obfuscator := MkObfs { ob_info : ServerInfo; ob_calls : nat; ob_state : disguise }.

(** [obfs.NewObfs]; the client id of a TLS disguise is set by [SetData]. *)
Definition NewObfs (name : list byte) : option disguise :=
  let name := to_lower name in
  if bool_decide (name = lit "plain") then Some OPlain
  else if bool_decide (name = lit "random_head") then Some (ORandom newRandomHead)
  else if bool_decide (name = lit "tls1.2_ticket_auth") || bool_decide (name = lit "tls1.2_ticket_fastauth")
    then Some (OTls [] newTLS12TicketAuth)
  else if bool_decide (name = lit "http_simple") then Some (OHttp (newHttpSimple (dr_agent dr)))
  else if bool_decide (name = lit "http_post") then Some (OHttp (newHttpPost (dr_agent dr)))
  else None.

Definition conf_of (si : ServerInfo) (clientID : list byte) (n : nat) : tls_conf :=
  MkTlsConf (si_Key si) clientID (getHost (si_Host si) (si_Param si) (dr_pick dr n)) (dr_ticket dr n) (dr_now dr n)
    (dr_auth dr n) (dr_finish dr n).

Definition obfs_Encode (o : Obfuscator) (data : list byte) : outcome (list byte * Obfuscator) :=
  let n := ob_calls o in
  let next st := MkObfs (ob_info o) (S n) st in
  match ob_state o with
  | OPlain => Ok (plain_Encode data, next OPlain)
  | ORandom r => '(out, r) ← random_Encode r (dr_head dr n) data; Ok (out, next (ORandom r))
  | OTls id t => '(out, t) ← tls_Encode hmac_sha1 (conf_of (ob_info o) id n) (dr_records dr n) t data; Ok (out, next (OTls id t))
  | OHttp t => let '(out, t) := http_Encode (ob_info o) t (dr_http dr) data in Ok (out, next (OHttp t))
  end.
Definition obfs_Decode (o : Obfuscator) (data : list byte) : outcome (list byte * bool) * Obfuscator :=
  let next st := MkObfs (ob_info o) (ob_calls o) st in
  match ob_state o with
  | OPlain => (Ok (plain_Decode data), o)
  | ORandom r => let '(out, back, r) := random_Decode r data in (Ok (out, back), next (ORandom r))
  | OTls id t => let '(r, t) := tls_Decode hmac_sha1 (conf_of (ob_info o) id (ob_calls o)) t data in (r, next (OTls id t))
  | OHttp t => let '(out, back, t) := http_Decode t data in (Ok (out, back), next (OHttp t))
  end.

(** [GetOverhead]. *)
Definition obfs_overhead (d : disguise) : Z := match d with OTls _ _ => 5 | _ => 0 end.

(** ** Protocols *)

Inductive proto_state :=
| POrigin
| PVerify (v : verifySHA1)
| PSha1v4 (a : authSHA1v4)
| PAes128 (k : aes128_kind) (a : authAES128)
| PChain (a : SsrChainHead.authChainA).
Record Protocol := MkProtocol { pr_info : ServerInfo; pr_calls : nat; pr_state : proto_state }.

(** [protocol.NewProtocol] with its [SetServerInfo] and [SetData]. *)
Definition NewProtocol (name : list byte) (si : ServerInfo) (ad : AuthData) : option proto_state :=
  let name := to_lower name in
  if bool_decide (name = lit "origin") then Some POrigin
  else if bool_decide (name = lit "verify_sha1") || bool_decide (name = lit "ota") then Some (PVerify (MkVerify false 0))
  else if bool_decide (name = lit "auth_sha1_v4") then Some (PSha1v4 (MkSha1v4 false ad))
  else if bool_decide (name = lit "auth_aes128_md5") then Some (PAes128 (NewAuthAES128MD5 hmac_md5 SsrCipher.md5) (aes128_init ad))
  else if bool_decide (name = lit "auth_aes128_sha1") then Some (PAes128 (NewAuthAES128SHA1 hmac_sha1 sha1) (aes128_init ad))
  else if bool_decide (name = lit "auth_chain_a") then Some (PChain (SsrChainHead.NewAuthChainA si ad))
  else if bool_decide (name = lit "auth_chain_b") then Some (PChain (SsrChainHead.NewAuthChainB si ad))
  else None.

Definition proto_PreEncrypt (p : Protocol) (data : list byte) : outcome (list byte * Protocol) :=
  let n := pr_calls p in
  let next st := MkProtocol (pr_info p) (S n) st in
  match pr_state p with
  | POrigin => Ok (origin_PreEncrypt data, next POrigin)
  | PVerify v => '(out, v) ← verify_PreEncrypt hmac_sha1 (pr_info p) v data; Ok (out, next (PVerify v))
  | PSha1v4 a => '(out, a) ← sha1v4_PreEncrypt hmac_sha1 (pr_info p) a (dr_packet dr n) data; Ok (out, next (PSha1v4 a))
  | PAes128 k a => let '(out, a) := aes128_PreEncrypt SsrCipher.md5 aes_cbc k (pr_info p) a (dr_packet dr n) data in
                   Ok (out, next (PAes128 k a))
  | PChain a => '(out, a) ← SsrChainHead.PreEncrypt hmac_md5 sha1 aes_cbc rc4 a (dr_packet dr n 0) (dr_fill dr n) data;
                Ok (out, next (PChain a))
  end.
Definition proto_PostDecrypt (p : Protocol) (data : list byte) : outcome (list byte * nat) * Protocol :=
  let next st := MkProtocol (pr_info p) (pr_calls p) st in
  match pr_state p with
  | POrigin => (Ok (origin_PostDecrypt data), p)
  | PVerify v => (Ok (verify_PostDecrypt data), p)
  | PSha1v4 a => ((sha1v4_PostDecrypt data).1, p)
  | PAes128 k a => let '(r, a) := aes128_PostDecrypt k a data in (r, next (PAes128 k a))
  | PChain a => let '(r, a) := SsrChainHead.PostDecrypt hmac_md5 rc4 a data in (r, next (PChain a))
  end.

Definition proto_overhead (p : proto_state) : Z :=
  match p with
  | POrigin | PVerify _ => 0
  | PSha1v4 _ => 7
  | PAes128 _ _ => 9
  | PChain _ => 4
  end.
(** [GetData] after a write: what the next connection is given. *)
Definition proto_data (p : proto_state) (ad : AuthData) : AuthData :=
  match p with
  | POrigin | PVerify _ => ad
  | PSha1v4 a => s4_data a
  | PAes128 _ a => a_data a
  | PChain a => SsrChainHead.ca_data a
  end.

(** ** As the connection uses them *)

(** What [initEncryptor] puts into a [ServerInfo]. *)
Definition set_info (si : ServerInfo) (key iv b : list byte) (overhead : Z) : ServerInfo :=
  MkServerInfo (si_Host si) (si_Port si) (si_Param si) iv key (GetHeadSize b 30) (si_TcpMss si) overhead.

#[local] Instance obfs_class (key : list byte) (overhead : Z) : IObfs Obfuscator := {
  Encode := obfs_Encode;
  Decode := obfs_Decode;
  obfs_init o iv b := MkObfs (set_info (ob_info o) key iv b overhead) (ob_calls o) (ob_state o) }.
#[local] Instance proto_class (key : list byte) (overhead : Z) : IProtocol Protocol := {
  PreEncrypt := proto_PreEncrypt;
  PostDecrypt := proto_PostDecrypt;
  protocol_init p iv b :=
    let si := set_info (pr_info p) key iv b overhead in
    MkProtocol si (pr_calls p) (match pr_state p with PChain a => PChain (SsrChainHead.SetServerInfo a si) | st => st end) }.

(** ** The dialer *)

Record SSR := MkSSR {
  ssr_addr : list byte;
  EncryptMethod : list byte;
  EncryptPassword : list byte;
  ssr_Obfs : list byte;
  ObfsParam : list byte;
  ObfsData : option (list byte);
  ssr_Protocol : list byte;
  ProtocolParam : list byte;
  ProtocolData : AuthData }.

Definition Addr (s : SSR) (below : list byte) : list byte := match ssr_addr s with [] => below | a => a end.

Definition ErrTarget (addr : list byte) : error := String.append "[ssr] unable to parse address: " (String.string_of_list_byte addr).
Definition ErrNilConn : error := "[ssr] nil connection".
Definition ErrObfs (n : list byte) : error := String.append "[ssr] unsupported obfs type: " (String.string_of_list_byte n).
Definition ErrProtocol (n : list byte) : error := String.append "[ssr] unsupported protocol type: " (String.string_of_list_byte n).

(** What a dial leaves behind: the error or the connection, what was sent, whether a
    connection that was made is closed, and the dialer's own data. *)
Record dialed := MkDialed {
  di_result : error + SSTCPConn Obfuscator Protocol;
  di_cipher : option Cipher;
  di_sent : list byte;
  di_open : bool;
  di_ssr : SSR }.

(** [strings.Split] of the remote address at its colons; [Atoi] of the second part. *)
Definition remote_info (remote param : list byte) : outcome ServerInfo :=
  match split_byte c_colon remote with
  | host :: port :: _ => Ok (MkServerInfo host (u16 (default 0 (AnyTls.Atoi port))) param [] [] 0 1460 0)
  | _ => Panic
  end.

(** [Dial]; [dial] is the answer of the dialer below, a connection with its remote address or
    an error, and [werr] that of the connection to its first write. *)
Definition Dial (s : SSR) (addr : list byte) (dial : option (list byte) + error) (werr : option error) : outcome dialed :=
  match socks_ParseAddr addr with
  | None => Ok (MkDialed (inl (ErrTarget addr)) None [] false s)
  | Some target =>
      match SsrCipher.NewStreamCipher (EncryptMethod s) (EncryptPassword s) with
      | Ok c =>
          match dial with
          | inr e => Ok (MkDialed (inl e) None [] false s)
          | inl None => Ok (MkDialed (inl ErrNilConn) None [] true s)
          | inl (Some remote) =>
              si ← remote_info remote (ObfsParam s);
              match NewObfs (ssr_Obfs s) with
              | None => Ok (MkDialed (inl (ErrObfs (ssr_Obfs s))) None [] true s)
              | Some o =>
                  psi ← remote_info remote (ProtocolParam s);
                  match NewProtocol (ssr_Protocol s) psi (ProtocolData s) with
                  | None => Ok (MkDialed (inl (ErrProtocol (ssr_Protocol s))) None [] true s)
                  | Some p =>
                      let '(o, data) := match o with
                                        | OTls _ t => let id := default (dr_clientID dr) (ObfsData s) in (OTls id t, Some id)
                                        | o => (o, ObfsData s)
                                        end in
                      let key := SsrCipher.c_key c in
                      let overhead := obfs_overhead o + proto_overhead p in
                      let cipher := SsrCipher.method_cipher (SsrCipher.c_info c) key in
                      '(out, _, e, conn) ← Write (IObfs0 := obfs_class key overhead) (IProtocol0 := proto_class key overhead) cipher
                        (NewSSTCPConn (MkObfs si 0 o) (MkProtocol psi 0 p))
                        (take (iv_size cipher) (dr_iv dr)) target werr;
                      let s := MkSSR (ssr_addr s) (EncryptMethod s) (EncryptPassword s) (ssr_Obfs s) (ObfsParam s) data
                                 (ssr_Protocol s) (ProtocolParam s) (proto_data (pr_state (s_proto conn)) (ProtocolData s)) in
                      Ok (MkDialed (match e with Some e => inl e | None => inr conn end) (Some cipher) out
                            (match e with Some _ => false | None => true end) s)
                  end
              end
          end
      | Err e => Ok (MkDialed (inl e) None [] false s)
      | Panic => Panic
      | OutOfFuel => OutOfFuel
      end
  end.
End Stack.
End Ssr.

(** * proxy/ssr: the disguises and protocols keep what a connection relies on, and whole stacks
    at work on small data. *)
Import SsStream SsrProto SsrChain SsrObfs SsrConn Ssr.

(** The receive buffer of a protocol whose state is part of a larger one. *)
Lemma posts_inj {S T} (inj : S → T) (f : S → list byte → outcome (list byte * nat) * S)
    (g : T → list byte → outcome (list byte * nat) * T) :
  (∀ s l, g (inj s) l = ((f s l).1, inj (f s l).2)) →
  ∀ segs s buf outs b s', posts f s buf segs = Ok (outs, b, s') → posts g (inj s) buf segs = Ok (outs, b, inj s').
Proof.
  intros Hg. induction segs as [|seg segs IH]; intros s buf outs b s'; cbn [posts]; [by intros [= <- <- <-]|].
  rewrite Hg. destruct (f s (buf ++ seg)) as [[[o n]| | |] s1]; try done. cbn [fst snd].
  destruct (posts f s1 _ segs) as [[[outs' b'] s2]| | |] eqn:E; try done. rewrite bind_ret. intros [= <- <- <-].
  by rewrite (IH _ _ _ _ _ E), bind_ret.
Qed.

Section Stack.
Context `{Cr : !SsrCipher.Crypto} (hmac_sha1 hmac_md5 : list byte → list byte → list byte) (sha1 : list byte → list byte).
Context (aes_cbc : list byte → list byte → list byte) (rc4 : list byte → list byte → list byte) (dr : draws).
Context (key : list byte) (overhead : Z).
Notation obfs := (obfs_class hmac_sha1 dr key overhead).
Notation proto := (proto_class hmac_sha1 hmac_md5 sha1 aes_cbc rc4 dr key overhead).
Notation ocarries := (obfs_carries (IObfs0 := obfs)).
Notation carries := (protocol_carries (IProtocol0 := proto)).

Lemma plain_stack si n wire : ocarries (MkObfs si n OPlain) wire wire.
Proof.
  intros segs _ <-. exists segs, (MkObfs si n OPlain). split; [|done].
  induction segs as [|seg segs IH]; [done|]. cbn [decodes Decode obfs_class]. unfold obfs_Decode, plain_Decode. cbn [ob_state].
  by rewrite IH.
Qed.

(** The TLS disguise after its handshake. *)
Lemma tls_stack si n id sv ds :
  Forall (λ d, d ≠ [] ∧ Z.of_nat (length d) < 2 ^ 16) ds →
  ocarries (MkObfs si n (OTls id (MkTls 8 sv []))) (concat (map (tls_packData []) ds)) (concat ds).
Proof.
  intros Hds segs Hs Hw.
  destruct (tls_carries hmac_sha1 (λ _, 0%nat) (conf_of dr si id n) sv ds Hds segs Hs Hw) as (outs & o' & Ho & Hc).
  cut (∀ t, decodes (IObfs0 := tls_obfs hmac_sha1 (λ _, 0%nat)) (conf_of dr si id n, t) segs = Ok (outs, o') →
    ∃ t', decodes (IObfs0 := obfs) (MkObfs si n (OTls id t)) segs = Ok (outs, MkObfs si n (OTls id t'))).
  { intros Hdec. destruct (Hdec _ Ho) as [t' Ht]. by exists outs, (MkObfs si n (OTls id t')). }
  clear. revert outs. induction segs as [|seg segs IH]; intros outs t; cbn [decodes]; [intros [= <- _]; by exists t|].
  cbn [Decode tls_obfs obfs_class fst snd]. unfold obfs_Decode. cbn [ob_state ob_info ob_calls].
  destruct (tls_Decode _ _ t seg) as [[[out []]| | |] t1]; try done.
  destruct (decodes (conf_of dr si id n, t1) segs) as [[outs' o1]| | |] eqn:E; try done. rewrite bind_ret. intros [= <- <-].
  destruct (IH outs' t1 E) as [t' ->]. exists t'. by rewrite bind_ret.
Qed.

Lemma origin_stack si n stream : carries (MkProtocol si n POrigin) stream stream.
Proof.
  intros segs <-. exists segs, [], (MkProtocol si n POrigin). split; [|done].
  cbn [PostDecrypt proto_class]. induction segs as [|seg segs IH]; [done|]. cbn [posts].
  unfold proto_PostDecrypt at 1, origin_PostDecrypt. cbn [pr_state]. rewrite app_nil_l, drop_all, IH, bind_ret. by destruct seg.
Qed.

(** What an auth_sha1_v4 server sends. *)
Lemma sha1v4_stack si n a peer ad ds data wire b :
  (∀ i, Z.of_nat (d_rand (ds i)) < 1024) → sha1v4_PreEncrypt hmac_sha1 peer (MkSha1v4 true ad) ds data = Ok (wire, b) →
  carries (MkProtocol si n (PSha1v4 a)) wire data.
Proof.
  intros Hd E segs Hs. destruct (sha1v4_stream hmac_sha1 peer ad ds data wire b segs Hd E Hs) as (_ & outs & Ho & Hc).
  exists outs, [], (MkProtocol si n (PSha1v4 a)). split; [|done].
  by apply (posts_inj (λ _ : unit, MkProtocol si n (PSha1v4 a)) (λ _, sha1v4_PostDecrypt) (PostDecrypt (IProtocol := proto))) in Ho.
Qed.

(** What an auth_aes128 server in step with the connection sends. *)
Lemma aes128_stack si n k a peer b ds data wire b' :
  (∀ k' m, (4 <= length (k_hmac k k' m))%nat) →
  (∀ i, Z.of_nat (d_rand (ds i)) < 512 ∧ (d_rand (ds i) < length (d_pad (ds i)))%nat) →
  a_hasSentHeader b = true → a_userKey a = a_userKey b → a_recvID a = a_packID b →
  aes128_PreEncrypt SsrCipher.md5 aes_cbc k peer b ds data = (wire, b') → carries (MkProtocol si n (PAes128 k a)) wire data.
Proof.
  intros Hh Hd Hb Hk Hid E segs Hs.
  destruct (aes128_stream SsrCipher.md5 aes_cbc k peer b a ds data wire b' segs) as (outs & a' & Ho & Hc & _); try done.
  exists outs, [], (MkProtocol si n (PAes128 k a')). split; [|done].
  apply (posts_inj (λ a, MkProtocol si n (PAes128 k a)) (aes128_PostDecrypt k) (PostDecrypt (IProtocol := proto))) in Ho; [done|].
  intros s l. cbn [PostDecrypt proto_class]. unfold proto_PostDecrypt. cbn [pr_state pr_info pr_calls].
  by destruct (aes128_PostDecrypt k s l).
Qed.
End Stack.

(** ** Small ciphers *)

Definition flip_bytes (p : list byte) : list byte := map (λ b, z2b (255 - b2z b)) p.
Lemma flip_involutive : involutive flip_bytes.
Proof.
  split; [split|].
  - intros a b. unfold flip_bytes. rewrite map_app. apply take_app_length'. by rewrite length_map.
  - intros a. apply length_map.
  - intros p. unfold flip_bytes. rewrite map_map. etransitivity; [|apply map_id]. apply map_ext. intros b.
    pose proof (b2z_range b). rewrite b2z_z2b_small by lia. replace (255 - (255 - b2z b)) with (b2z b) by lia. apply z2b_b2z.
Qed.

Definition toy_hash (m : list byte) : list byte := take 16 (reverse m ++ replicate 16 x00).
Lemma length_toy_hash m : length (toy_hash m) = 16%nat.
Proof. unfold toy_hash. rewrite length_take, length_app, length_replicate. lia. Qed.

Definition toy : SsrCipher.Crypto := {|
  SsrCipher.md5 := toy_hash;
  SsrCipher.NewBlock b key := if key_ok b (length key) then None else Some "invalid key size"%string;
  SsrCipher.BlockSize b := match b with SsrCipher.AES | SsrCipher.Camellia => 16%nat | _ => 8%nat end;
  SsrCipher.NewCTR _ _ _ := flip_bytes;
  SsrCipher.NewCFBEncrypter _ _ _ := flip_bytes;
  SsrCipher.NewCFBDecrypter _ _ _ := flip_bytes;
  SsrCipher.rc4_NewCipher _ := Ok flip_bytes;
  SsrCipher.chacha20_NewCipher _ _ := Ok flip_bytes;
  SsrCipher.salsa_crypt _ _ buf := xor_at (λ _, xff) 0 buf |}.

Lemma toy_crypto_laws : CryptoLaws toy.
Proof.
  pose proof flip_involutive as Hf. split; intros; cbn; try done.
  - apply length_toy_hash.
  - by rewrite H.
  - apply Hf.
  - apply Hf.
  - apply Hf.
  - by injection H as <-.
  - by eexists.
  - by injection H as <-.
  - by eexists.
  - by exists (λ _, xff).
Qed.

Lemma ssr_methods_witness :
  ∃ c iv c1 c2 e d, SsrCipher.NewStreamCipher (Cr := toy) (lit "salsa20") (lit "secret") = Ok c ∧
    SsrCipher.InitEncrypt (Cr := toy) c (lit "0123456789abcdef") = Ok (iv, c1) ∧ iv = lit "01234567" ∧
    SsrCipher.InitDecrypt (Cr := toy) c1 iv = Ok c2 ∧ SsrCipher.c_enc c1 = Some e ∧ SsrCipher.c_dec c2 = Some d ∧
    d (e (lit "hello")) = lit "hello".
Proof.
  destruct (ssr_methods (L := toy_crypto_laws) (lit "salsa20") (lit "secret") (SsrCipher.MkInfo 32 8 SsrCipher.newSalsa20) (lit "0123456789abcdef"))
    as (c & iv & c1 & c2 & e & d & H1 & _ & H2 & _ & H3 & H4 & H5 & H6); [done|by vm_compute|by vm_compute; lia|].
  exists c, iv, c1, c2, e, d. split_and!; [done|done| |done|done|done|apply H6].
  vm_compute in H1. injection H1 as <-. vm_compute in H2. by injection H2 as <- _.
Defined.

Lemma ssr_salsa_witness :
  let c := SsrCipher.MkSalsa (lit "01234567") (lit "0123456789abcdef0123456789abcdef") 70 in
  (SsrCipher.salsa_XORKeyStream (Cr := toy) c (lit "junk in the buffer") (lit "data")).1 =
    XORKeyStream (λ p, (SsrCipher.salsa_XORKeyStream (Cr := toy)
      (SsrCipher.MkSalsa (lit "01234567") (lit "0123456789abcdef0123456789abcdef") 0) [] p).1) (replicate 70 x41) (lit "data").
Proof.
  intros c. apply (ssr_salsa (L := toy_crypto_laws) c (lit "junk in the buffer") (lit "data")); [done|done|simpl; lia|by vm_compute; lia|done].
Defined.

Lemma ssr_key_witness : kdf toy_hash (lit "secret") 32 = Ok (SsrCipher.EVPBytesToKey (Cr := toy) (lit "secret") 32).
Proof. apply (ssr_key (L := toy_crypto_laws) (lit "secret") 32). lia. Defined.

(** ** A dial and what it reads *)

Definition toy_mac (key m : list byte) : list byte := toy_hash (key ++ m) ++ lit "mac.".
Definition toy_draw : draw := MkDraw 2 (lit "padding of the packet") (lit "client01") (lit "conn") 1700000000 (lit "uid.") (lit "head").
Definition toy_draws : draws :=
  MkDraws (λ _ _, toy_draw) (λ _ _, replicate 1440 x2e) (SsrHttp.MkHttpDraw 3 4 0 []) (λ _, lit "a random head") (λ _ _, 0%nat) (λ _, 0%nat)
    (λ _, replicate 64 x74) (λ _, 1700000000) (λ _, replicate 18 x72) (λ _, replicate 22 x66) 2 (replicate 32 x63) (lit "0123456789abcdef").
Definition toy_ssr (obfs proto : list byte) : SSR :=
  MkSSR (lit "192.0.2.1:8388") (lit "aes-256-cfb") (lit "secret") obfs [] None proto [] (MkAuthData [] 0).

Notation toy_Dial := (Dial (Cr := toy) toy_mac toy_mac toy_hash (λ _ p, flip_bytes p) (λ _, flip_bytes) toy_draws).

Definition toy_conn : SSTCPConn Obfuscator Protocol * Cipher :=
  match toy_Dial (toy_ssr (lit "plain") (lit "auth_sha1_v4")) (lit "example.com:443") (inl (Some (lit "192.0.2.1:8388"))) None with
  | Ok (MkDialed (inr conn) (Some c) _ _ _) => (conn, c)
  | _ => (NewSSTCPConn (MkObfs (MkServerInfo [] 0 [] [] [] 0 0 0) 0 OPlain) (MkProtocol (MkServerInfo [] 0 [] [] [] 0 0 0) 0 POrigin),
          xor_cipher)
  end.

(** What the server of that connection sends. *)
Definition toy_info : ServerInfo := MkServerInfo (lit "192.0.2.1") 8388 [] [] [] 0 1460 0.
Definition toy_stream (data : list byte) : list byte :=
  match sha1v4_PreEncrypt toy_mac toy_info (MkSha1v4 true (MkAuthData [] 0)) (λ _, toy_draw) data with Ok (w, _) => w | _ => [] end.
Definition toy_wire (data : list byte) : list byte := lit "fedcba9876543210" ++ Encrypter toy_conn.2 (lit "fedcba9876543210") (toy_stream data).

Lemma ssr_reads_witness :
  ∃ msgs, concat msgs = lit "hello world" ∧
    reads (IObfs0 := obfs_class toy_mac toy_draws [] 0) (IProtocol0 := proto_class (Cr := toy) toy_mac toy_mac toy_hash (λ _ p, flip_bytes p) (λ _, flip_bytes) toy_draws [] 0)
      toy_conn.2 toy_conn.1 [] [4; 100; 100]%nat
      [take 20 (toy_wire (lit "hello world")); drop 20 (toy_wire (lit "hello world"))] =
    Ok (msg_reads ([], msgs) [4; 100; 100]%nat).
Proof.
  assert (StreamLaws toy_conn.2) as Hlaws by (apply (method_cipher_laws (L := toy_crypto_laws) (SsrCipher.MkInfo 32 16 SsrCipher.newAESCFBStream))).
  destruct (ssr_reads (IObfs0 := obfs_class toy_mac toy_draws [] 0)
    (IProtocol0 := proto_class (Cr := toy) toy_mac toy_mac toy_hash (λ _ p, flip_bytes p) (λ _, flip_bytes) toy_draws [] 0)
    toy_conn.2 [] toy_conn.1 (toy_wire (lit "hello world")) (lit "fedcba9876543210") (toy_stream (lit "hello world")) (lit "hello world")
    [take 20 (toy_wire (lit "hello world")); drop 20 (toy_wire (lit "hello world"))] [4; 100; 100]%nat) as (msgs & H1 & _ & H2);
    [done|done|done| | |done|by repeat constructor|by rewrite <- (take_drop 20 (toy_wire _)) at 3; cbn [concat]; rewrite app_nil_r|repeat constructor; lia| |].
  - apply plain_stack.
  - assert (∃ si n a, s_proto toy_conn.1 = MkProtocol si n (PSha1v4 a)) as (si & n & a & ->) by (vm_compute; by do 3 eexists).
    apply (sha1v4_stack toy_mac toy_mac toy_hash _ _ toy_draws [] 0 si n a toy_info (MkAuthData [] 0) (λ _, toy_draw)
      (lit "hello world") (toy_stream (lit "hello world")) (MkSha1v4 true (MkAuthData [] 0))); [intros i; simpl; lia|by vm_compute].
  - intros outs o' out E Hh. vm_compute in E. injection E as <- <-. vm_compute in Hh. injection Hh as <-. by vm_compute; lia.
  - exact (ex_intro _ msgs (conj H1 H2)).
Defined.

Definition toy_sender : sender := MkSender (replicate 16 x11) 1 (0, 0) [].
Definition toy_chain (data : list byte) : list byte * sender :=
  match chain_PreEncrypt toy_mac flip_bytes authChainAGetRandLen (lit "user key") 4 1460 toy_sender (λ _, replicate 1440 x2e) data with
  | Ok x => x
  | _ => ([], toy_sender)
  end.

Lemma ssr_chain_stream_witness :
  let wire := (toy_chain (lit "hello world")).1 in
  ∃ outs v, posts (chain_PostDecrypt toy_mac flip_bytes authChainAGetRandLen (lit "user key") 4)
      (chain_peer flip_bytes toy_sender (0, 0) 1460) [] [take 3 wire; drop 3 wire] =
    Ok (outs, [], chain_peer flip_bytes (toy_chain (lit "hello world")).2 v 1460) ∧ concat outs = lit "hello world".
Proof.
  intros wire. destruct flip_involutive as [Hs Hi].
  apply (ssr_chain_stream toy_mac flip_bytes authChainAGetRandLen (lit "user key") 4 (λ k m, ltac:(unfold toy_mac; rewrite length_app, length_toy_hash; lia))
    Hs Hi 1460 toy_sender (λ _, replicate 1440 x2e) (lit "hello world") wire);
    [intros i; rewrite length_replicate; lia|lia|by vm_compute|by vm_compute|by vm_compute|].
  cbn [concat]. by rewrite app_nil_r, take_drop.
Defined.

(** ** What a dial does on its way out *)

(** A connection that was made is left open when the disguise or the protocol is unknown. *)
Lemma ssr_Dial_left_open :
  match toy_Dial (toy_ssr (lit "no such disguise") (lit "origin")) (lit "example.com:443") (inl (Some (lit "192.0.2.1:8388"))) None with
  | Ok (MkDialed (inl e) _ sent opened _) => e = ErrObfs (lit "no such disguise") ∧ sent = [] ∧ opened = true
  | _ => False
  end.
Proof. by vm_compute. Qed.

(** Of an IPv6 remote address the host is a bracket and the port is lost. *)
Lemma ssr_remote_ipv6 :
  remote_info (lit "[2001:db8::1]:443") [] = Ok (MkServerInfo (lit "[2001") (u16 0) [] [] [] 0 1460 0).
Proof. by vm_compute. Qed.

(** A dial that fails sends nothing, and the data the connections of a dialer share are
    only touched by one that sends. *)
Lemma ssr_Dial_failed C hs hm sha aes rc4 dr s addr dial werr e c sent opened s' :
  Dial (Cr := C) hs hm sha aes rc4 dr s addr dial werr = Ok (MkDialed (inl e) c sent opened s') → werr = None → sent = [].
Proof.
  unfold Dial. intros E ->. destruct (socks_ParseAddr addr) as [target|]; [|by injection E].
  destruct (SsrCipher.NewStreamCipher _ _) as [ci| | |]; try done; [|by injection E].
  destruct dial as [[remote|]|]; [|by injection E..]. destruct (remote_info remote (ObfsParam s)) as [si| | |]; try done.
  rewrite bind_ret in E. destruct (NewObfs dr (ssr_Obfs s)) as [o|]; [|by injection E].
  destruct (remote_info remote (ProtocolParam s)) as [psi| | |]; try done. rewrite bind_ret in E.
  destruct (NewProtocol _ _ _ _ _ _) as [p|]; [|by injection E].
  destruct (match o with OTls _ _ => _ | _ => _ end) as [o' data]. unfold Write in E.
  destruct (preWrite _ _ _ _) as [[out conn]|err| |]; try done; rewrite bind_ret in E; by injection E.
Qed.
