(* ===== verification/Admin.v ===== *)
(** admin/admin.go: the read-only status endpoint; and of config.go what it is checked
    against, the listeners.

    The JSON encoding of the report is a parameter.  A path is one the mux has cleaned. *)
From S2P Require Import Prelude GoStd SocksAddr AnyTls Forward Group GroupRotation GroupInv RuleProxy Status.

Module Admin.

(** ** Label values *)

(** [uniquer]: the values handed out. *)
Definition uniquer : Type := gset (list byte).
Definition newUniquer : uniquer := ∅.

Definition c_hash : byte := x23.
Fixpoint take_loop (fuel : nat) (u : uniquer) (v : list byte) (n : Z) : outcome (list byte * uniquer) :=
  match fuel with
  | O => OutOfFuel
  | S fuel =>
      let cand := v ++ [c_hash] ++ format_uint n in
      if bool_decide (cand ∈ u) then take_loop fuel u v (n + 1) else Ok (cand, {[cand]} ∪ u)
  end.
(** [take]; the loop ends after at most one more round than there are values in use. *)
Definition uniq_take (u : uniquer) (v : list byte) : outcome (list byte * uniquer) :=
  if bool_decide (v ∈ u) then take_loop (S (size u)) u v 1 else Ok (v, {[v]} ∪ u).

(** [strings.ReplaceAll] of one byte. *)
Definition replace_byte (b : byte) (r s : list byte) : list byte :=
  concat (map (λ c, if bool_decide (c = b) then r else [c]) s).
Definition c_bslash : byte := x5c.
Definition c_quote : byte := x22.
Definition c_nl : byte := x0a.
Definition escapeLabel (v : list byte) : list byte :=
  let v := replace_byte c_bslash [c_bslash; c_bslash] v in
  let v := replace_byte c_quote [c_bslash; c_quote] v in
  replace_byte c_nl [c_bslash; x6e] v.
Definition label (k v : list byte) : list byte := k ++ [x3d; c_quote] ++ escapeLabel v ++ [c_quote].

(** ** The metrics *)

(** [strconv.FormatFloat(val, 'g', -1, 64)] of an integer below 2^53, whose shortest digits
    are its own: an exponent from a million on. *)
Fixpoint strip_zeros (rev : list byte) : list byte :=
  match rev with
  | b :: rev' => if bool_decide (b = x30) then strip_zeros rev' else rev
  | [] => []
  end.
Definition FormatFloat (z : Z) : list byte :=
  let ds := format_uint (Z.abs z) in
  (if z <? 0 then lit "-" else []) ++
  if (length ds <=? 6)%nat then ds
  else
    let e := Z.of_nat (length ds) - 1 in
    take 1 ds ++ match reverse (strip_zeros (reverse (drop 1 ds))) with [] => [] | f => lit "." ++ f end ++
    lit "e+" ++ (if e <? 10 then lit "0" else []) ++ format_uint e.

Definition help (name typ desc : list byte) : list byte :=
  lit "# HELP " ++ name ++ lit " " ++ desc ++ [c_nl] ++ lit "# TYPE " ++ name ++ lit " " ++ typ ++ [c_nl].
Definition gauge (name labels : list byte) (val : Z) : list byte := name ++ labels ++ lit " " ++ FormatFloat val ++ [c_nl].
Definition boolVal (b : bool) : Z := if b then 1 else 0.

Definition m_enabled : list byte := lit "glider_group_forwarders_enabled".
Definition m_total : list byte := lit "glider_group_forwarders_total".
Definition m_up : list byte := lit "glider_forwarder_enabled".
Definition m_failures : list byte := lit "glider_forwarder_failures".
Definition m_latency : list byte := lit "glider_forwarder_latency_ms".

Definition metrics_head : list byte :=
  help m_enabled (lit "gauge") (lit "forwarders currently in the group's dial rotation") ++
  help m_total (lit "gauge") (lit "forwarders configured in the group") ++
  help m_up (lit "gauge") (lit "1 if the forwarder's enabled flag is set") ++
  help m_failures (lit "gauge") (lit "failures recorded since the forwarder was last enabled (resets on a passing check)") ++
  help m_latency (lit "gauge") (lit "smoothed health-check latency in milliseconds").

Fixpoint render_forwarders (gl : list byte) (addrs : uniquer) (fs : list ForwarderStatus) : outcome (list byte) :=
  match fs with
  | [] => Ok []
  | f :: fs =>
      '(a, addrs) ← uniq_take addrs (fs_Addr f);
      let fl := lit "{" ++ gl ++ lit "," ++ label (lit "addr") a ++ lit "}" in
      rest ← render_forwarders gl addrs fs;
      Ok (gauge m_up fl (boolVal (fs_Enabled f)) ++ gauge m_failures fl (fs_Failures f) ++
          gauge m_latency fl (fs_LatencyMs f) ++ rest)
  end.
Fixpoint render_groups (names : uniquer) (gs : list GroupStatus) : outcome (list byte) :=
  match gs with
  | [] => Ok []
  | g :: gs =>
      '(n, names) ← uniq_take names (gst_Group g);
      let gl := label (lit "group") n in
      fs ← render_forwarders gl newUniquer (gst_Forwarders g);
      rest ← render_groups names gs;
      Ok (gauge m_enabled (lit "{" ++ gl ++ lit "}") (Z.of_nat (gst_Enabled g)) ++
          gauge m_total (lit "{" ++ gl ++ lit "}") (Z.of_nat (gst_Total g)) ++ fs ++ rest)
  end.
Definition renderPrometheus (groups : list GroupStatus) : outcome (list byte) :=
  b ← render_groups newUniquer groups; Ok (metrics_head ++ b).

(** ** The handlers *)

Record response := MkResponse { r_code : Z; r_type : option (list byte); r_allow : option (list byte); r_body : list byte }.

Definition readOnly (method : list byte) (h : outcome response) : outcome response :=
  if bool_decide (method = lit "GET") || bool_decide (method = lit "HEAD") then h
  else Ok (MkResponse 405 (Some (lit "text/plain; charset=utf-8")) (Some (lit "GET, HEAD")) (lit "method not allowed" ++ [c_nl])).

(** [Server.groups]: what the status function reports, [None] where it is nil or reports nil. *)
Definition groups (status : option (option (list GroupStatus))) : list GroupStatus := default [] (default None status).

Definition handler (json : list GroupStatus → list byte) (status : option (option (list GroupStatus)))
    (method path : list byte) : outcome response :=
  if bool_decide (path = lit "/healthz") then readOnly method (Ok (MkResponse 200 None None (lit "ok" ++ [c_nl])))
  else if bool_decide (path = lit "/state") then
    readOnly method (Ok (MkResponse 200 (Some (lit "application/json")) None (json (groups status))))
  else if bool_decide (path = lit "/metrics") then
    readOnly method (b ← renderPrometheus (groups status);
                     Ok (MkResponse 200 (Some (lit "text/plain; version=0.0.4; charset=utf-8")) None b))
  else Ok (MkResponse 404 (Some (lit "text/plain; charset=utf-8")) None (lit "404 page not found" ++ [c_nl])).

(** ** Addresses *)

Definition port_valid (port : list byte) : bool :=
  match AnyTls.Atoi port with Some n => (1 <=? n) && (n <=? 65535) | None => false end.

Definition NormalizeAddr (addr : list byte) : outcome (list byte) :=
  let addr := AnyTls.TrimSpace addr in
  match addr with
  | [] => Err "admin: empty address"
  | _ =>
      let '(host, port) := match SplitHostPort addr with Ok hp => hp | _ => ([], addr) end in
      match port with
      | [] => Err "admin: no port"
      | _ => if port_valid port then Ok (JoinHostPort (match host with [] => lit "127.0.0.1" | _ => host end) port)
             else Err "admin: not a valid port"
      end
  end.

(** ** config.go: listeners *)

Definition nonTCPListenSchemes : list (list byte) := [lit "udp"; lit "kcp"; lit "unix"; lit "vsock"; lit "tproxy"].

(** [strings.Cut], what is before the separator. *)
Definition before (sep : byte) (s : list byte) : list byte :=
  match index_byte s sep with Some i => take i s | None => s end.
(** [strings.Cut] at a scheme's end. *)
Fixpoint cut_scheme (s : list byte) : option (list byte * list byte) :=
  match s with
  | x3a :: x2f :: x2f :: rest => Some ([], rest)
  | b :: s' => (λ '(sch, rest), (b :: sch, rest)) <$> cut_scheme s'
  | [] => None
  end.

Definition listenHostPort (s : list byte) : option (list byte * list byte) :=
  let s := before x2c s in
  let s := before x3f s in
  let bind s :=
    let s := match last_index_byte s x40 with Some i => drop (S i) s | None => s end in
    let s := before x2f s in
    match SplitHostPort s with
    | Ok (host, port) => if port_valid port then Some (host, port) else None
    | _ => None
    end in
  match cut_scheme s with
  | Some (scheme, rest) => if bool_decide (to_lower scheme ∈ nonTCPListenSchemes) then None else bind rest
  | None => bind s
  end.

Definition wildcardHost (host : list byte) : bool :=
  bool_decide (host = []) || bool_decide (host = lit "0.0.0.0") || bool_decide (host = lit "::").

Definition collides (aHost aPort l : list byte) : bool :=
  match listenHostPort l with
  | Some (lHost, lPort) =>
      bool_decide (lPort = aPort) && (wildcardHost lHost || wildcardHost aHost || bool_decide (lHost = aHost))
  | None => false
  end.
Definition checkAdminAddr (adminAddr : list byte) (listens : list (list byte)) : outcome unit :=
  hostport ← NormalizeAddr adminAddr;
  match SplitHostPort hostport with
  | Ok (aHost, aPort) => if existsb (collides aHost aPort) listens then Err "admin address collides" else Ok tt
  | _ => Err "admin: not a valid address"
  end.
End Admin.

Import Admin.

(** ** Unique names *)

Lemma format_uint_inj a b : 0 <= a → 0 <= b → format_uint a = format_uint b → a = b.
Proof.
  intros Ha Hb E. pose proof (Z.pow_gt_lin_r 2 (a + b) ltac:(lia) ltac:(lia)).
  pose proof (parse_format_uint a (a + b) ltac:(lia)) as H1. rewrite E, parse_format_uint in H1 by lia. by injection H1.
Qed.

Definition candidate (v : list byte) (n : Z) : list byte := v ++ [c_hash] ++ format_uint n.

Lemma take_loop_ok fuel : ∀ u v n,
  (∃ w, take_loop fuel u v n = Ok (w, {[w]} ∪ u) ∧ w ∉ u) ∨
  (take_loop fuel u v n = OutOfFuel ∧ ∀ i, (i < fuel)%nat → candidate v (n + Z.of_nat i) ∈ u).
Proof.
  induction fuel as [|fuel IH]; intros u v n; [right; split; [done|lia]|]. cbn [take_loop]. fold (candidate v n).
  case_bool_decide as Hin; [|left; by exists (candidate v n)].
  destruct (IH u v (n + 1)) as [(w & -> & Hw)|[-> Hall]]; [left; by exists w|right]. split; [done|].
  intros [|i] Hi; [by rewrite Z.add_0_r|]. replace (n + Z.of_nat (S i)) with (n + 1 + Z.of_nat i) by lia. apply Hall. lia.
Qed.

(** More candidates than there are values in use. *)
Lemma uniq_take_ok u v : ∃ w, uniq_take u v = Ok (w, {[w]} ∪ u) ∧ w ∉ u ∧ (v ∉ u → w = v).
Proof.
  unfold uniq_take. case_bool_decide as Hin; [|by exists v].
  destruct (take_loop_ok (S (size u)) u v 1) as [(w & -> & Hw)|[_ Hall]]; [by exists w|exfalso].
  set (cands := (λ i, candidate v (1 + Z.of_nat i)) <$> seq 0 (S (size u))).
  assert (NoDup cands) as Hnd.
  { apply NoDup_fmap_2_strong; [|apply NoDup_seq]. intros i j _ _ E. unfold candidate in E.
    apply app_inv_head, app_inv_head, format_uint_inj in E; lia. }
  assert (list_to_set cands ⊆ u) as Hsub.
  { intros x Hx. apply elem_of_list_to_set, list_elem_of_fmap in Hx as (i & -> & Hi). apply Hall. apply elem_of_seq in Hi. lia. }
  apply subseteq_size in Hsub. rewrite size_list_to_set in Hsub by done. unfold cands in Hsub.
  rewrite length_fmap, length_seq in Hsub. lia.
Qed.

(** The names handed out for a list of values. *)
Fixpoint uniq_all (u : uniquer) (vs : list (list byte)) : list (list byte) :=
  match vs with
  | [] => []
  | v :: vs => match uniq_take u v with Ok (w, u) => w :: uniq_all u vs | _ => [] end
  end.

Lemma uniq_all_ok vs : ∀ u,
  length (uniq_all u vs) = length vs ∧ NoDup (uniq_all u vs) ∧ (∀ w, w ∈ uniq_all u vs → w ∉ u) ∧
  (NoDup vs → (∀ v, v ∈ vs → v ∉ u) → uniq_all u vs = vs).
Proof.
  induction vs as [|v vs IH]; intros u; cbn [uniq_all]; [split_and!; [done|constructor|set_solver|done]|].
  destruct (uniq_take_ok u v) as (w & -> & Hw & Hv). destruct (IH ({[w]} ∪ u)) as (Hl & Hnd & Hall & Hsame).
  split_and!; [simpl; lia|constructor; [intros H%Hall; set_solver|done]|set_solver|].
  intros Hvs Hu. apply NoDup_cons in Hvs as [Hnv Hvs]. rewrite Hv in * by (apply Hu; by left).
  f_equal. apply Hsame; [done|]. intros x Hx. assert (x ≠ v) by (by intros ->). set_solver.
Qed.

(** ** Reading the metrics back *)

Definition sample : Type := list byte * list (list byte * list byte) * list byte.
Definition series (s : sample) : list byte * list (list byte * list byte) := s.1.

Definition k_group : list byte := lit "group".
Definition k_addr : list byte := lit "addr".
Definition forwarder_samples (n : list byte) (af : list byte * ForwarderStatus) : list sample :=
  let ls := [(k_group, n); (k_addr, af.1)] in
  [(m_up, ls, FormatFloat (boolVal (fs_Enabled af.2))); (m_failures, ls, FormatFloat (fs_Failures af.2));
   (m_latency, ls, FormatFloat (fs_LatencyMs af.2))].
Definition group_samples (ng : list byte * GroupStatus) : list sample :=
  [(m_enabled, [(k_group, ng.1)], FormatFloat (Z.of_nat (gst_Enabled ng.2)));
   (m_total, [(k_group, ng.1)], FormatFloat (Z.of_nat (gst_Total ng.2)))] ++
  (zip (uniq_all ∅ (fs_Addr <$> gst_Forwarders ng.2)) (gst_Forwarders ng.2) ≫= forwarder_samples ng.1).
Definition samples (u : uniquer) (gs : list GroupStatus) : list sample :=
  zip (uniq_all u (gst_Group <$> gs)) gs ≫= group_samples.

Definition label_text (ls : list (list byte * list byte)) : list byte := join_bytes (lit ",") ((λ kv, label kv.1 kv.2) <$> ls).
Definition sample_line (s : sample) : list byte := s.1.1 ++ lit "{" ++ label_text s.1.2 ++ lit "}" ++ lit " " ++ s.2.

Definition lines_text (ls : list (list byte)) : list byte := concat ((λ l, l ++ [c_nl]) <$> ls).
Lemma lines_text_app a b : lines_text (a ++ b) = lines_text a ++ lines_text b.
Proof. unfold lines_text. by rewrite fmap_app, concat_app. Qed.

Lemma gauge_line name ls val : gauge name (lit "{" ++ label_text ls ++ lit "}") val = sample_line (name, ls, FormatFloat val) ++ [c_nl].
Proof. unfold gauge, sample_line. cbn [fst snd]. by rewrite <- !app_assoc. Qed.

Lemma render_forwarders_ok n fs : ∀ u,
  render_forwarders (label (lit "group") n) u fs =
    Ok (lines_text (sample_line <$> (zip (uniq_all u (fs_Addr <$> fs)) fs ≫= forwarder_samples n))).
Proof.
  induction fs as [|f fs IH]; intros u; [done|]. cbn [render_forwarders fmap list_fmap uniq_all].
  destruct (uniq_take_ok u (fs_Addr f)) as (w & -> & _). rewrite bind_ret, IH, bind_ret. cbn [zip zip_with].
  change (((w, f) :: ?l) ≫= ?g) with (g (w, f) ++ (l ≫= g)). rewrite fmap_app, lines_text_app. f_equal.
  rewrite app_assoc. rewrite app_assoc. f_equal. change (lit "{" ++ label (lit "group") n ++ lit "," ++ label (lit "addr") w ++ lit "}")
    with (lit "{" ++ label (lit "group") n ++ (lit "," ++ label (lit "addr") w) ++ lit "}").
  rewrite (app_assoc (label (lit "group") n)). change (label (lit "group") n ++ lit "," ++ label (lit "addr") w) with (label_text [(k_group, n); (k_addr, w)]).
  rewrite !gauge_line. unfold lines_text, forwarder_samples. cbn [fmap list_fmap concat fst snd]. by rewrite !app_nil_r, <- !app_assoc.
Qed.

Lemma render_groups_ok gs : ∀ u, render_groups u gs = Ok (lines_text (sample_line <$> samples u gs)).
Proof.
  induction gs as [|g gs IH]; intros u; [done|]. unfold samples in *. cbn [render_groups fmap list_fmap uniq_all].
  destruct (uniq_take_ok u (gst_Group g)) as (w & -> & _).
  rewrite bind_ret, render_forwarders_ok, bind_ret, IH, bind_ret. cbn [zip zip_with].
  change (((w, g) :: ?l) ≫= ?h) with (h (w, g) ++ (l ≫= h)). rewrite fmap_app, lines_text_app. f_equal.
  rewrite !app_assoc. f_equal. change (label (lit "group") w) with (label_text [(k_group, w)]). rewrite <- !(app_assoc (lit "{")).
  rewrite !gauge_line. unfold group_samples. rewrite fmap_app, lines_text_app. f_equal.
  unfold lines_text. cbn [fmap list_fmap concat fst snd]. by rewrite app_nil_r.
Qed.

(** A quoted value as the text format defines it. *)
Fixpoint parse_quoted (s : list byte) : option (list byte * list byte) :=
  match s with
  | [] => None
  | x22 :: s => Some ([], s)
  | x5c :: x6e :: s => (λ '(v, r), (c_nl :: v, r)) <$> parse_quoted s
  | x5c :: c :: s => (λ '(v, r), (c :: v, r)) <$> parse_quoted s
  | c :: s => (λ '(v, r), (c :: v, r)) <$> parse_quoted s
  end.
Fixpoint parse_labels (fuel : nat) (s : list byte) : option (list (list byte * list byte) * list byte) :=
  match fuel with
  | O => None
  | S fuel =>
      i ← index_byte s x3d;
      match drop (S i) s with
      | x22 :: q =>
          '(v, r) ← parse_quoted q;
          match r with
          | x2c :: r => '(ls, r) ← parse_labels fuel r; Some ((take i s, v) :: ls, r)
          | x7d :: r => Some ([(take i s, v)], r)
          | _ => None
          end
      | _ => None
      end
  end.
Definition parse_sample (s : list byte) : option sample :=
  match index_byte s x7b with
  | Some i =>
      match parse_labels (length s) (drop (S i) s) with
      | Some (ls, x20 :: v) => Some (take i s, ls, v)
      | _ => None
      end
  | None => None
  end.
Definition is_sample (s : list byte) : bool := match s with [] => false | x23 :: _ => false | _ => true end.
Definition parse_metrics (text : list byte) : option (list sample) :=
  mapM parse_sample (filter (λ l, is_sample l = true) (split_byte c_nl text)).

Lemma escape_cons x v : escapeLabel (x :: v) = escapeLabel [x] ++ escapeLabel v.
Proof.
  assert (∀ b r s t, replace_byte b r (s ++ t) = replace_byte b r s ++ replace_byte b r t) as Happ
    by (intros; unfold replace_byte; by rewrite map_app, concat_app).
  change (x :: v) with ([x] ++ v). unfold escapeLabel. by rewrite !Happ.
Qed.

Lemma parse_escaped v rest : parse_quoted (escapeLabel v ++ c_quote :: rest) = Some (v, rest).
Proof.
  induction v as [|x v IH]; [done|]. rewrite escape_cons, <- app_assoc.
  set (s := escapeLabel v ++ c_quote :: rest) in *. clearbody s.
  destruct x; match goal with |- context [escapeLabel ?l] => let e := eval vm_compute in (escapeLabel l) in change (escapeLabel l) with e end;
    cbn [app parse_quoted]; by rewrite IH.
Qed.

Lemma escape_plain v : c_nl ∉ escapeLabel v.
Proof.
  induction v as [|x v IH]; [by apply not_elem_of_nil|]. rewrite escape_cons. intros [H|H]%elem_of_app; [|done].
  destruct x; revert H; apply (bool_decide_eq_true_1 _); vm_compute; reflexivity.
Qed.

Definition key_ok (k : list byte) : Prop := x3d ∉ k ∧ c_nl ∉ k.

Lemma parse_labels_ok ls rest : ∀ fuel,
  ls ≠ [] → Forall (λ kv, key_ok kv.1) ls → (length ls <= fuel)%nat →
  parse_labels fuel (label_text ls ++ x7d :: rest) = Some (ls, rest).
Proof.
  unfold label_text. induction ls as [|[k v] ls IH]; intros fuel Hne Hk Hf; [done|]. destruct fuel as [|fuel]; [simpl in Hf; lia|].
  apply Forall_cons in Hk as [[Hk _] Hks]. cbn [parse_labels].
  assert (∀ r, index_byte (label k v ++ r) x3d = Some (length k)) as Hi
    by (intros r; unfold label; rewrite <- app_assoc; apply (index_byte_app k); done).
  assert (∀ r, drop (S (length k)) (label k v ++ r) = c_quote :: escapeLabel v ++ c_quote :: r ∧ take (length k) (label k v ++ r) = k) as Hd.
  { intros r. unfold label. rewrite <- !app_assoc. split; [|apply take_app_length]. rewrite <- Nat.add_1_r, <- drop_drop, drop_app_length. done. }
  destruct ls as [|[k2 v2] ls].
  - cbn [fmap list_fmap join_bytes fst snd]. rewrite Hi. cbn [mbind option_bind]. destruct (Hd (x7d :: rest)) as [-> ->].
    unfold c_quote at 1. rewrite parse_escaped. done.
  - cbn [fmap list_fmap fst snd]. cbn [join_bytes]. rewrite <- !app_assoc. rewrite Hi. cbn [mbind option_bind].
    rewrite (proj1 (Hd _)), (proj2 (Hd _)). unfold c_quote at 1. rewrite parse_escaped. cbn [app mbind option_bind lit].
    change (lit ",") with [x2c]. cbn [app]. cbn [fmap list_fmap fst snd] in IH. rewrite IH; [done|done|done|simpl in *; lia].
Qed.

Lemma drop_app_cons {A} (a : list A) x r : drop (S (length a)) (a ++ x :: r) = r.
Proof. rewrite <- Nat.add_1_r, <- drop_drop, drop_app_length. done. Qed.

(** A sample a parser can find: a name without a brace, labels and a value on one line. *)
Definition sample_ok (s : sample) : Prop :=
  s.1.2 ≠ [] ∧ Forall (λ kv, key_ok kv.1) s.1.2 ∧ x7b ∉ s.1.1 ∧ c_nl ∉ s.1.1 ∧ is_sample s.1.1 = true ∧ c_nl ∉ s.2.

Lemma parse_sample_ok s : sample_ok s → parse_sample (sample_line s) = Some s.
Proof.
  destruct s as [[name ls] val]. unfold sample_ok, parse_sample, sample_line. cbn [fst snd]. intros (Hne & Hk & Hn & _ & _ & _).
  change (lit "{") with [x7b]. change (lit "}") with [x7d]. change (lit " ") with [x20]. cbn [app].
  rewrite index_byte_app by done. rewrite drop_app_cons, take_app_length. rewrite parse_labels_ok; [done|done|done|]. rewrite length_app. cbn [length]. rewrite length_app.
  assert (length ls <= length (label_text ls))%nat; [|lia]. clear. unfold label_text.
  induction ls as [|[k v] [|kv ls] IH]; [done| |]; cbn [fmap list_fmap join_bytes length fst snd] in *.
  - unfold label. rewrite !length_app. simpl. lia.
  - rewrite !length_app. change (length (lit ",")) with 1%nat. lia.
Qed.

Lemma sample_line_ok s : sample_ok s → c_nl ∉ sample_line s ∧ is_sample (sample_line s) = true.
Proof.
  destruct s as [[name ls] val]. unfold sample_ok, sample_line. cbn [fst snd]. intros (Hne & Hk & _ & Hn & Hs & Hv). split.
  - assert (c_nl ∉ label_text ls) as Hl.
    { clear -Hk. unfold label_text. induction ls as [|[k v] ls IH]; [by apply not_elem_of_nil|]. apply Forall_cons in Hk as [[_ Hk] Hks].
      assert (c_nl ∉ label k v) as H1.
      { unfold label. rewrite !not_elem_of_app. pose proof (escape_plain v). split_and!; [done|by apply (bool_decide_eq_true_1 _)|done|by apply (bool_decide_eq_true_1 _)]. }
      specialize (IH Hks). destruct ls as [|kv ls]; [done|]. cbn [fmap list_fmap join_bytes fst snd] in *. rewrite !not_elem_of_app.
      split_and!; [done|by apply (bool_decide_eq_true_1 _)|done]. }
    rewrite !not_elem_of_app. split_and!; try done; by apply (bool_decide_eq_true_1 _).
  - destruct name as [|[] name]; done.
Qed.

Lemma split_lines ls rest : Forall (λ l, c_nl ∉ l) ls → split_byte c_nl (lines_text ls ++ rest) = ls ++ split_byte c_nl rest.
Proof.
  induction 1 as [|l ls Hl Hls IH]; [done|]. unfold lines_text in *. cbn [fmap list_fmap concat app].
  rewrite <- !app_assoc. cbn [app]. by rewrite split_byte_app, IH.
Qed.

Definition head_lines : list (list byte) := take 10 (split_byte c_nl metrics_head).

Lemma parse_metrics_ok ss : Forall sample_ok ss → parse_metrics (metrics_head ++ lines_text (sample_line <$> ss)) = Some ss.
Proof.
  intros Hss. change metrics_head with (lines_text head_lines). unfold parse_metrics.
  rewrite split_lines by (apply (bool_decide_eq_true_1 _); vm_compute; reflexivity).
  rewrite <- (app_nil_r (lines_text (_ <$> ss))), split_lines.
  2:{ apply Forall_fmap. eapply Forall_impl; [exact Hss|]. intros s Hs. by apply sample_line_ok. }
  rewrite !filter_app. change (filter (λ l, is_sample l = true) head_lines) with (@nil (list byte)).
  change (filter (λ l, is_sample l = true) (split_byte c_nl [])) with (@nil (list byte)). rewrite app_nil_l, app_nil_r.
  induction Hss as [|s ss Hs Hss IH]; [done|]. cbn [fmap list_fmap]. rewrite filter_cons_True by (by apply sample_line_ok).
  cbn [mapM]. rewrite parse_sample_ok by done. cbn [mbind option_bind]. by rewrite IH.
Qed.

Lemma FormatFloat_plain z : c_nl ∉ FormatFloat z.
Proof.
  assert (∀ n, c_nl ∉ format_uint n) as Hd.
  { intros n H. by apply (proj1 (Forall_forall _ _) (format_uint_digits n)) in H. }
  assert (∀ l, c_nl ∉ l → c_nl ∉ strip_zeros l) as Hz.
  { induction l as [|b l IH]; intros Hl; [done|]. cbn [strip_zeros]. case_bool_decide; [apply IH; set_solver|done]. }
  assert (∀ z, c_nl ∉ reverse (strip_zeros (reverse (drop 1 (format_uint z))))) as Hf.
  { intros y. rewrite elem_of_reverse. apply Hz. rewrite elem_of_reverse. intros H. apply (Hd y).
    rewrite <- (take_drop 1 (format_uint y)). apply elem_of_app. by right. }
  unfold FormatFloat. pose proof (Hd (Z.abs z)) as H1. pose proof (Hf (Z.abs z)) as H2.
  rewrite elem_of_app. intros [H|H]; [destruct (z <? 0); revert H; by apply (bool_decide_eq_true_1 _)|].
  destruct (_ <=? 6)%nat; [done|]. revert H. rewrite !elem_of_app. intros [H|[H|[H|[H|H]]]].
  - apply H1. rewrite <- (take_drop 1 (format_uint (Z.abs z))). apply elem_of_app. by left.
  - destruct (reverse (strip_zeros _)) as [|b f]; [by apply not_elem_of_nil in H|]. apply elem_of_app in H as [H|H]; [|done].
    revert H. by apply (bool_decide_eq_true_1 _).
  - revert H. by apply (bool_decide_eq_true_1 _).
  - destruct (_ <? 10); revert H; by apply (bool_decide_eq_true_1 _).
  - by apply Hd in H.
Qed.

Lemma samples_ok u gs : Forall sample_ok (samples u gs).
Proof.
  assert (∀ m ls v, ls ≠ [] → Forall (λ kv, key_ok kv.1) ls → m ∈ [m_enabled; m_total; m_up; m_failures; m_latency] →
    sample_ok (m, ls, FormatFloat v)) as Hok.
  { intros m ls v Hne Hk Hm. unfold sample_ok. cbn [fst snd].
    assert (Forall (λ m, x7b ∉ m ∧ c_nl ∉ m ∧ is_sample m = true) [m_enabled; m_total; m_up; m_failures; m_latency]) as Hc
      by (repeat (apply Forall_cons; split); try constructor; try done; try split; try done; apply (bool_decide_eq_true_1 _); vm_compute; reflexivity).
    rewrite Forall_forall in Hc. destruct (Hc m Hm) as (H1 & H2 & H3). pose proof (FormatFloat_plain v). done. }
  assert (key_ok k_group) as Hg by (split; by apply (bool_decide_eq_true_1 _)).
  assert (key_ok k_addr) as Ha by (split; by apply (bool_decide_eq_true_1 _)).
  unfold samples. apply Forall_forall. intros s (ng & Hs & _)%list_elem_of_bind. revert s Hs. apply Forall_forall.
  assert (Forall (λ kv, key_ok kv.1) [(k_group, ng.1)]) as Hl1 by (apply Forall_singleton; done).
  unfold group_samples. apply Forall_app. split; [apply Forall_cons; split; [|apply Forall_singleton]; apply Hok; (done || set_solver)|].
  apply Forall_forall. intros s (af & Hs & _)%list_elem_of_bind. revert s Hs. apply Forall_forall. unfold forwarder_samples.
  assert (Forall (λ kv, key_ok kv.1) [(k_group, ng.1); (k_addr, af.1)]) as Hl2 by (apply Forall_cons; split; [done|by apply Forall_singleton]).
  apply Forall_cons; split; [|apply Forall_cons; split; [|apply Forall_singleton]]; apply Hok; (done || set_solver).
Qed.

(** Pairs with a common first component are one. *)
Lemma zip_functional {A B} (l : list A) (k : list B) x y z : NoDup l → (x, y) ∈ zip l k → (x, z) ∈ zip l k → y = z.
Proof.
  intros Hl [i Hi]%list_elem_of_lookup_1 [j Hj]%list_elem_of_lookup_1.
  apply lookup_zip_with_Some in Hi as (a & b & [= -> ->] & Hi1 & Hi2). apply lookup_zip_with_Some in Hj as (a' & b' & [= -> ->] & Hj1 & Hj2).
  assert (i = j) as -> by (eapply NoDup_lookup; [exact Hl|done..]). congruence.
Qed.

(** The series of a list of things with distinct names are distinct when each one's are and
    name it. *)
Lemma NoDup_series {B} (names : list (list byte)) (bs : list B) (f : list byte * B → list sample) :
  NoDup names → (∀ x, NoDup (series <$> f x)) →
  (∀ x y s t, s ∈ f x → t ∈ f y → series s = series t → x.1 = y.1) → NoDup (series <$> (zip names bs ≫= f)).
Proof.
  intros Hn Hf Hname. assert (series <$> (zip names bs ≫= f) = zip names bs ≫= λ x, series <$> f x) as ->.
  { generalize (zip names bs). induction l as [|x l IH]; [done|]. cbn [mbind list_bind]. rewrite fmap_app. f_equal. apply IH. }
  apply NoDup_bind; [|by intros|by apply NoDup_zip_l].
  intros [n1 b1] [n2 b2] y H1 H2 (s & -> & Hs)%list_elem_of_fmap (t & E & Ht)%list_elem_of_fmap.
  assert (n1 = n2) as -> by (apply (Hname _ _ _ _ Hs Ht); done). f_equal. by eapply zip_functional.
Qed.

Lemma samples_series u gs : NoDup (series <$> samples u gs).
Proof.
  unfold samples. apply NoDup_series; [apply uniq_all_ok| |].
  - intros [n g]. unfold group_samples. cbn [fst snd]. rewrite fmap_app. apply NoDup_app. split_and!.
    + apply (bool_decide_eq_true_1 _). cbn [fmap list_fmap series fst snd]. apply bool_decide_eq_true_2.
      apply NoDup_cons. split; [intros [= E]%list_elem_of_singleton; done|apply NoDup_singleton].
    + intros x Hx (s & -> & (af & Hs & _)%list_elem_of_bind)%list_elem_of_fmap. unfold forwarder_samples in Hs. cbv zeta in Hs.
      cbn [fmap list_fmap series fst snd] in Hx. rewrite !elem_of_cons in Hx. rewrite !elem_of_cons in Hs.
      destruct Hx as [Hx|[Hx|Hx%not_elem_of_nil]]; [| |done]; destruct Hs as [->|[->|[->|Hs%not_elem_of_nil]]]; try done; cbn in Hx; by injection Hx.
    + apply NoDup_series; [apply uniq_all_ok| |].
      * intros [a f]. unfold forwarder_samples. cbn [fmap list_fmap series fst snd].
        repeat (apply NoDup_cons; split); [| | |by apply NoDup_nil_2]; rewrite ?elem_of_cons, ?elem_of_nil; intuition congruence || idtac.
        all: repeat match goal with H : _ ∨ _ |- _ => destruct H as [H|H] end; try done; by injection H.
      * intros [a1 f1] [a2 f2] s t Hs Ht E. unfold forwarder_samples in *. cbv zeta in *. cbn [fst snd] in *. rewrite !elem_of_cons in Hs, Ht.
        destruct Hs as [->|[->|[->|Hs%not_elem_of_nil]]]; try done; destruct Ht as [->|[->|[->|Ht%not_elem_of_nil]]]; try done; cbn in E; by injection E.
  - intros [n1 g1] [n2 g2] s t Hs Ht E. cbn [fst].
    assert (∀ n g s, s ∈ group_samples (n, g) → head s.1.2 = Some (k_group, n)) as Hhead.
    { clear. intros n g s. unfold group_samples. cbn [fst snd]. rewrite elem_of_app, !elem_of_cons.
      intros [[->|[->|H%not_elem_of_nil]]|(af & H & _)%list_elem_of_bind]; try done. unfold forwarder_samples in H. cbv zeta in H.
      rewrite !elem_of_cons in H. by destruct H as [->|[->|[->|H%not_elem_of_nil]]]. }
    apply Hhead in Hs, Ht. unfold series in E. rewrite E, Ht in Hs. by injection Hs.
Qed.

(** C30: The metrics page of any report is well formed and has no series twice, so that a
    scrape is never rejected: a parser of the text format reads back exactly one sample for
    each figure of each group and forwarder, whatever bytes the names hold and however often
    they repeat, and names that are distinct already appear as they are. *)
Theorem admin_metrics gs :
  let names := uniq_all ∅ (gst_Group <$> gs) in
  ∃ text, renderPrometheus gs = Ok text ∧ parse_metrics text = Some (zip names gs ≫= group_samples) ∧
    NoDup (series <$> (zip names gs ≫= group_samples)) ∧ length names = length gs ∧ NoDup names ∧
    (NoDup (gst_Group <$> gs) → names = gst_Group <$> gs).
Proof.
  intros names. unfold renderPrometheus. rewrite render_groups_ok, bind_ret. eexists. split; [done|].
  split; [apply parse_metrics_ok, samples_ok|]. split; [apply samples_series|].
  destruct (uniq_all_ok (gst_Group <$> gs) ∅) as (Hl & Hnd & _ & Hsame). rewrite length_fmap in Hl.
  split_and!; [done|done|]. intros Hg. apply Hsame; [done|]. intros v _. apply not_elem_of_empty.
Qed.

(** ** Addresses *)

Lemma elem_drop {A} (x : A) n l : x ∈ drop n l → x ∈ l.
Proof. intros H. rewrite <- (take_drop n l). apply elem_of_app. by right. Qed.
Lemma elem_take {A} (x : A) n l : x ∈ take n l → x ∈ l.
Proof. intros H. rewrite <- (take_drop n l). apply elem_of_app. by left. Qed.

(** What is split off an address can be joined again. *)
Lemma SplitHostPort_wf s host port : SplitHostPort s = Ok (host, port) → host_ok host ∧ port_ok port.
Proof.
  unfold SplitHostPort. destruct (last_index_byte s c_colon) as [i|] eqn:Ei; [|done].
  apply last_index_byte_Some in Ei as (Hi & Hcolon & _).
  case_bool_decide as Hh.
  - destruct (index_byte s c_rbr) as [e|] eqn:Ee; [|done]. destruct (_ =? length s)%nat; [done|].
    destruct (Nat.eqb_spec (e + 1) i) as [He|]; [|by case_bool_decide]. rewrite bind_ret.
    destruct (index_byte (drop 1 s) c_lbr) eqn:El; [done|]. destruct (index_byte (drop (e + 1) s) c_rbr) eqn:Er; [done|].
    intros [= <- <-]. apply index_byte_None in El, Er. apply index_byte_Some in Ee as [_ Ht].
    split; [split|split_and!]; [by intros H%elem_take| | | |done].
    + intros H. apply Ht. destruct s as [|b s]; [done|]. destruct e as [|e]; [by apply elem_of_nil in H|].
      cbn [take drop]. right. rewrite Nat.sub_succ, Nat.sub_0_r in H. exact H.
    + intros H. apply El. change (S i) with (1 + i)%nat in H. rewrite <- drop_drop in H. by apply elem_drop in H.
    + intros H. apply Er. rewrite <- He in H. replace (S (e + 1)) with ((e + 1) + 1)%nat in H by lia. rewrite <- drop_drop in H. by apply elem_drop in H.
  - destruct (index_byte (take i s) c_colon) eqn:Ec; [done|]. rewrite bind_ret. rewrite !drop_0.
    destruct (index_byte s c_lbr) eqn:El; [done|]. destruct (index_byte s c_rbr) eqn:Er; [done|]. intros [= <- <-].
    apply index_byte_None in El, Er. split; [split|split_and!]; [by intros H%elem_take|by intros H%elem_take|by intros H%elem_drop|by intros H%elem_drop|done].
Qed.

Lemma parse_digits maxVal s : ∀ n v, parse_uint_loop maxVal n s = (v, None) → Forall (λ c, is_digit c = true) s.
Proof.
  induction s as [|b s IH]; intros n v; [constructor|]. cbn [parse_uint_loop]. destruct (is_digit b) eqn:E; [|done].
  destruct (_ <? _); [done|]. intros H. constructor; [done|]. by eapply IH.
Qed.

Lemma valid_port_ok p : port_valid p = true → port_ok p.
Proof.
  assert (∀ c s, c ∈ [c_lbr; c_rbr; c_colon] → Forall (λ c, is_digit c = true) s → c ∉ s) as Hd.
  { intros c s Hc Hs Hin. apply (proj1 (Forall_forall _ _) Hs) in Hin.
    assert (Forall (λ c, is_digit c = false) [c_lbr; c_rbr; c_colon]) as Hf by (by repeat constructor).
    apply (proj1 (Forall_forall _ _) Hf) in Hc. congruence. }
  unfold port_valid, AnyTls.Atoi. set (x := match p with [] => _ | _ => _ end).
  assert (∀ c, c ∈ [c_lbr; c_rbr; c_colon] → c ∉ x.2 → c ∉ p) as Hp.
  { intros c Hc Hx Hin. apply Hx. unfold x. destruct p as [|b p]; [done|]. apply elem_of_cons in Hin as [<-|Hin].
    - rewrite !elem_of_cons, elem_of_nil in Hc. destruct Hc as [->|[->|[->|[]]]]; by left.
    - case_bool_decide; [done|]. case_bool_decide; [done|by right]. }
  destruct x as [neg ds]. cbn [snd] in Hp. unfold parse_uint. destruct ds as [|d ds]; [done|].
  destruct (parse_uint_loop _ 0 (d :: ds)) as [n [e|]] eqn:E; [done|]. intros _. apply parse_digits in E.
  split_and!; apply Hp; try (apply Hd; [|done]); set_solver.
Qed.

(** An address that is accepted names a host: the one that was given, or loopback when none
    was; and it can be split again.  No listener the check understands takes that address. *)
Theorem admin_addr a ls :
  checkAdminAddr a ls = Ok tt →
  ∃ host port, NormalizeAddr a = Ok (JoinHostPort host port) ∧ SplitHostPort (JoinHostPort host port) = Ok (host, port) ∧
    port_valid port = true ∧ host ≠ [] ∧ (host = lit "127.0.0.1" ∨ SplitHostPort (AnyTls.TrimSpace a) = Ok (host, port)) ∧
    ∀ l lHost, l ∈ ls → listenHostPort l = Some (lHost, port) →
      lHost ≠ host ∧ wildcardHost lHost = false ∧ wildcardHost host = false.
Proof.
  unfold checkAdminAddr. intros H. destruct (NormalizeAddr a) as [hp| | |] eqn:E; try done. rewrite bind_ret in H.
  assert (∃ host port, hp = JoinHostPort host port ∧ host_ok host ∧ port_valid port = true ∧ host ≠ [] ∧
    (host = lit "127.0.0.1" ∨ SplitHostPort (AnyTls.TrimSpace a) = Ok (host, port))) as (host & port & -> & Hh & Hp & Hne & Hfrom).
  { unfold NormalizeAddr in E. destruct (AnyTls.TrimSpace a) as [|x t]; [done|]. set (addr := x :: t) in *.
    assert (host_ok (lit "127.0.0.1")) as Hlo by (split; by apply (bool_decide_eq_true_1 _)).
    destruct (SplitHostPort addr) as [[host port]| | |] eqn:Es.
    - destruct port as [|p0 port]; [done|]. destruct (port_valid (p0 :: port)) eqn:Ev; [|done]. injection E as <-.
      destruct host as [|h0 host]; [by exists (lit "127.0.0.1"), (p0 :: port); auto 10|].
      exists (h0 :: host), (p0 :: port). split_and!; [done|by eapply SplitHostPort_wf|done|done|by right].
    - destruct (port_valid addr) eqn:Ev; [|done]. injection E as <-. by exists (lit "127.0.0.1"), addr; auto 10.
    - destruct (port_valid addr) eqn:Ev; [|done]. injection E as <-. by exists (lit "127.0.0.1"), addr; auto 10.
    - destruct (port_valid addr) eqn:Ev; [|done]. injection E as <-. by exists (lit "127.0.0.1"), addr; auto 10. }
  rewrite split_join_host_port in H by (done || by apply valid_port_ok).
  destruct (existsb (collides host port) ls) eqn:Ee; [done|]. exists host, port.
  split_and!; [done|by apply split_join_host_port; [|apply valid_port_ok]|done|done|done|]. intros l lHost Hl El.
  assert (collides host port l = false) as Hc.
  { destruct (collides host port l) eqn:Ec; [|done]. rewrite <- Ee. symmetry. apply existsb_exists. exists l. split; [by apply list_elem_of_In|done]. }
  unfold collides in Hc. rewrite El, bool_decide_eq_true_2 in Hc by done. cbn [andb] in Hc.
  apply orb_false_iff in Hc as [[H1 H2]%orb_false_iff H3]. by apply bool_decide_eq_false_1 in H3.
Qed.
