(* ===== verification/MainConfig.v ===== *)
(** config.go and rule/config.go: the configuration of the program and of its rules, with the
    defaults of their options; proxy/server.go and service/service.go: the registries the
    program looks its servers and services up in; ipset: the sets fed by resolved domains;
    service/dhcpd/dhcpd.go: the start of the DHCP service, with its reserved addresses.

    The flag library is a parameter: what it gives is which options were set, with values of
    the kind they were declared with.  Files and directories are parameters too.  Netlink
    calls are recorded in the order they are made. *)
From S2P Require Import Prelude GoStd Reader ProxyConn Forward Group GroupRotation GroupInv DomainWalk RuleProxy DnsCache DnsClient Admin SocksAddr Dialogue AnyTls Socks4 Dhcp DhcpProofs.

Module Conf.

(** ** path *)

Definition IsAbs (p : list byte) : bool := bool_decide (head p = Some c_slash).

(** The elements of a path that are left, last one first. *)
Fixpoint clean_elems (rooted : bool) (acc : list (list byte)) (es : list (list byte)) : list (list byte) :=
  match es with
  | [] => acc
  | e :: es =>
      if bool_decide (e = []) || bool_decide (e = [c_dot]) then clean_elems rooted acc es
      else if bool_decide (e = [c_dot; c_dot]) then
        match acc with
        | top :: acc' => if bool_decide (top = [c_dot; c_dot]) then clean_elems rooted (e :: acc) es
                         else clean_elems rooted acc' es
        | [] => clean_elems rooted (if rooted then [] else [e]) es
        end
      else clean_elems rooted (e :: acc) es
  end.
(** [path.Clean]. *)
Definition Clean (p : list byte) : list byte :=
  let rooted := IsAbs p in
  let es := join_bytes [c_slash] (reverse (clean_elems rooted [] (split_byte c_slash p))) in
  if rooted then c_slash :: es else match es with [] => [c_dot] | _ => es end.
(** [path.Join] of two. *)
Definition Join (a b : list byte) : list byte :=
  match a, b with
  | [], [] => []
  | [], _ => Clean b
  | _, [] => Clean a
  | _, _ => Clean (a ++ c_slash :: b)
  end.

(** ** Options *)

Inductive fval := FStr (s : list byte) | FInt (z : Z) | FBool (b : bool) | FList (l : list (list byte)).
Definition flags : Type := gmap (list byte) fval.
Definition StringVar (f : flags) (name : string) (value : list byte) : list byte :=
  match f !! lit name with Some (FStr s) => s | _ => value end.
Definition IntVar (f : flags) (name : string) (value : Z) : Z :=
  match f !! lit name with Some (FInt z) => z | _ => value end.
Definition BoolVar (f : flags) (name : string) (value : bool) : bool :=
  match f !! lit name with Some (FBool b) => b | _ => value end.
Definition StringSliceVar (f : flags) (name : string) (value : list (list byte)) : list (list byte) :=
  match f !! lit name with Some (FList l) => l | _ => value end.

(** ** rule/config.go *)

Definition default_check : list byte := lit "http://www.msftconnecttest.com/connecttest.txt#expect=200".

Definition rule_strategy (f : flags) : Strategy :=
  MkStrategy (StringVar f "strategy" (lit "rr")) (StringVar f "check" default_check) (IntVar f "checkinterval" 30)
    (IntVar f "checktimeout" 10) (IntVar f "checktolerance" 0) (IntVar f "checklatencysamples" 10)
    (BoolVar f "checkdisabledonly" false) (IntVar f "maxfailures" 3) (IntVar f "dialtimeout" 3) (IntVar f "relaytimeout" 0)
    (StringVar f "interface" []) (IntVar f "dialattempts" DefaultDialAttempts) (IntVar f "dialbudget" DefaultDialBudget).

(** [NewConfFromFile]; [conflag] is what the flag library makes of a file. *)
Definition NewConfFromFile (conflag : list byte → outcome flags) (ruleFile : list byte) : outcome Config :=
  f ← conflag ruleFile;
  Ok (MkConfig ruleFile (StringSliceVar f "forward" []) (rule_strategy f) (StringSliceVar f "dnsserver" [])
        (StringVar f "ipset" []) (StringSliceVar f "domain" []) (StringSliceVar f "ip" []) (StringSliceVar f "cidr" [])).

(** [ListDir]; [ReadDir] gives names with whether they are directories. *)
Definition has_suffix (s suffix : list byte) : bool := bool_decide (drop (length s - length suffix) s = suffix) && (length suffix <=? length s)%nat.
Definition ListDir (ReadDir : list byte → outcome (list (list byte * bool))) (dirPth suffix : list byte) : outcome (list (list byte)) :=
  let suffix := to_lower suffix in
  let keep (e : list byte * bool) : option (list byte) :=
    if e.2 then None else if has_suffix (to_lower e.1) suffix then Some (dirPth ++ c_slash :: e.1) else None in
  dir ← ReadDir dirPth; Ok (omap keep (dir : list (list byte * bool))).

(** ** config.go *)

Record GConfig := MkGConfig {
  Verbose : bool;
  LogFlags : Z;
  TCPBufSize : Z;
  UDPBufSize : Z;
  Listens : list (list byte);
  g_Admin : list byte;
  Forwards : list (list byte);
  g_Strategy : Strategy;
  RuleFiles : list (list byte);
  RulesDir : list byte;
  g_DNS : list byte;
  DNSConfig : DnsConfig;
  g_rules : list Config;
  Services : list (list byte);
  helpScheme : list byte;
  helpExample : bool }.

Definition main_strategy (f : flags) : Strategy :=
  MkStrategy (StringVar f "strategy" (lit "rr")) (StringVar f "check" default_check) (IntVar f "checkinterval" 30)
    (IntVar f "checktimeout" 10) (IntVar f "checktolerance" 0) (IntVar f "checklatencysamples" 10)
    (BoolVar f "checkdisabledonly" false) (IntVar f "maxfailures" 3) (IntVar f "dialtimeout" 3) (IntVar f "relaytimeout" 0)
    (StringVar f "interface" []) (IntVar f "dialattempts" DefaultDialAttempts) (IntVar f "dialbudget" DefaultDialBudget).

Definition dns_config (f : flags) : DnsConfig :=
  MkDnsConfig (StringSliceVar f "dnsserver" [lit "8.8.8.8:53"]) (IntVar f "dnstimeout" 3) (IntVar f "dnsmaxttl" 1800)
    (IntVar f "dnsminttl" 0) (StringSliceVar f "dnsrecord" []) (BoolVar f "dnsalwaystcp" false) (IntVar f "dnscachesize" 4096)
    (BoolVar f "dnscachelog" false) (BoolVar f "dnsnoaaaa" false).

Section Load.
Context (conflag : list byte → outcome flags) (ReadDir : list byte → outcome (list (list byte * bool))).

Fixpoint load_files (files : list (list byte)) : outcome (list Config) :=
  match files with
  | [] => Ok []
  | p :: files => r ← NewConfFromFile conflag p; rs ← load_files files; Ok (r :: rs)
  end.

(** [loadRules]: the error of [ListDir] is dropped. *)
Definition loadRules (ruleFiles : list (list byte)) (rulesDir confDir : list byte) : outcome (list Config) :=
  let abs p := if IsAbs p then p else Join confDir p in
  rs ← load_files (map abs ruleFiles);
  if bool_decide (rulesDir = []) then Ok rs
  else
    let files := match ListDir ReadDir (abs rulesDir) (lit ".rule") with Ok l => l | _ => [] end in
    rs' ← load_files files; Ok (rs ++ rs').

(** [parseConfig]; [parsed] is what the flag library makes of the arguments and of the
    configuration file, in [confDir]. *)
Definition parseConfig (parsed : outcome flags) (confDir : list byte) : outcome GConfig :=
  f ← parsed;
  let listens := StringSliceVar f "listen" [] in
  let dns := StringVar f "dns" [] in
  let services := StringSliceVar f "service" [] in
  if bool_decide (listens = []) && bool_decide (dns = []) && bool_decide (services = []) then Err "listen url must be specified"
  else
    let ruleFiles := StringSliceVar f "rulefile" [] in
    let rulesDir := StringVar f "rules-dir" [] in
    rules ← loadRules ruleFiles rulesDir confDir;
    Ok (MkGConfig (BoolVar f "verbose" false) (IntVar f "logflags" 19) (IntVar f "tcpbufsize" 32768) (IntVar f "udpbufsize" 2048)
          listens (StringVar f "admin" []) (StringSliceVar f "forward" []) (main_strategy f) ruleFiles rulesDir dns (dns_config f)
          rules services (StringVar f "scheme" []) (BoolVar f "example" false)).
End Load.

(** [applyGlobals]. *)
Record Globals := MkGlobals { gl_verbose : bool; gl_flags : Z; gl_tcp : Z; gl_udp : Z }.
Definition applyGlobals (conf : GConfig) (g : Globals) : Globals :=
  MkGlobals (Verbose conf) (LogFlags conf) (if 0 <? TCPBufSize conf then TCPBufSize conf else gl_tcp g)
    (if 0 <? UDPBufSize conf then UDPBufSize conf else gl_udp g).

(** ** proxy/server.go and service/service.go *)

Section Registry.
Context {S : Type} (creators : gmap (list byte) (list byte → outcome S)).

Definition RegisterServer (name : list byte) (c : list byte → outcome S) : gmap (list byte) (list byte → outcome S) :=
  <[to_lower name := c]> creators.

Definition ServerFromURL (s : list byte) : outcome S :=
  let s := if contains s (lit "://") then s else lit "mixed://" ++ s in
  let scheme := match index_byte s c_colon with Some i => take i s | None => [] end in
  match creators !! to_lower scheme with
  | Some c => c s
  | None => Err (String.append "unknown scheme '" (String.append (String.string_of_list_byte scheme) "'"))
  end.

Definition New (services : gmap (list byte) (list (list byte) → outcome S)) (s : list byte) : outcome S :=
  match split_byte x2c s with
  | name :: args =>
      match services !! to_lower name with
      | Some c => c args
      | None => Err (String.append "unknown service name: '" (String.append (String.string_of_list_byte name) "'"))
      end
  | [] => Panic
  end.
End Registry.

(** ** ipset *)

Inductive set_call := SetCreate (name : list byte) (v6 : bool) | SetFlush (name : list byte) | SetAdd (name item : list byte) | SetAddAddr (name : list byte) (ip : Addr).
Definition six (s : list byte) : list byte := s ++ lit "6".

Definition addToSet (s item : list byte) : set_call :=
  match index_byte item c_dot with Some _ => SetAdd s item | None => SetAdd (six s) item end.
Definition addAddrToSet (s : list byte) (ip : Addr) : set_call :=
  match ip with Addr4 _ => SetAddAddr s ip | _ => SetAddAddr (six s) ip end.

(** [Manager]: domains to sets. *)
Definition Manager : Type := gmap (list byte) (list byte).
Definition manager_rule (m : Manager * gset (list byte) * list set_call) (r : Config) : Manager * gset (list byte) * list set_call :=
  let '(domainSet, sets, calls) := m in
  let s := IPSet r in
  if bool_decide (s = []) then m
  else
    let made := if bool_decide (s ∈ sets) then []
                else [SetCreate s false; SetFlush s; SetCreate (six s) true; SetFlush (six s)] in
    (foldl (λ m d, <[d := s]> m) domainSet (Domain r), {[s]} ∪ sets,
     calls ++ made ++ map (addToSet s) (c_IP r) ++ map (addToSet s) (c_CIDR r)).
(** [NewManager]; [init] is the error of the library's own start. *)
Definition NewManager (init : option error) (rules : list Config) : outcome (Manager * list set_call) :=
  match init with
  | Some e => Err e
  | None => let '(m, _, calls) := foldl manager_rule (∅, ∅, []) rules in Ok (m, calls)
  end.
(** [Manager.AddDomainIP]. *)
Definition Manager_AddDomainIP (m : Manager) (domain : list byte) (ip : Addr) : list set_call :=
  let domain := to_lower domain in
  domain_fold (λ calls k, match m !! k with Some s => calls ++ [addAddrToSet s ip] | None => calls end)
    (walk_fuel domain) domain (length domain) [].
End Conf.

Import Conf.

(** ** Defaults *)

(** A rule that says nothing about its strategy has the one of a program that says nothing:
    the two tables of options declare the same names with the same defaults. *)
Lemma config_defaults f : rule_strategy f = main_strategy f.
Proof. reflexivity. Qed.

(** ** Rules *)

(** A rules folder that cannot be read is an empty one: the configuration is accepted
    without its rules. *)
Lemma loadRules_unreadable conflag ReadDir dir confDir e :
  dir ≠ [] → (∀ p, ReadDir p = Err e) → loadRules conflag ReadDir [] dir confDir = Ok [].
Proof.
  intros Hd He. unfold loadRules, ListDir. cbn [map load_files]. rewrite bind_ret, bool_decide_eq_false_2 by done. by rewrite He.
Qed.

(** A relative rule file is looked for under an absolute configuration folder. *)
Lemma Clean_rooted p : IsAbs p = true → IsAbs (Clean p) = true.
Proof. intros H. unfold Clean. by rewrite H. Qed.
Lemma Join_abs confDir p : IsAbs confDir = true → IsAbs (Join confDir p) = true.
Proof.
  intros H. unfold Join. destruct confDir as [|b confDir]; [done|]. destruct p; apply Clean_rooted; [done|].
  unfold IsAbs in *. apply bool_decide_eq_true in H. by apply bool_decide_eq_true.
Qed.

(** ** Registries *)

(** A listen argument without a scheme is a mixed server's. *)
Lemma ServerFromURL_mixed {S} (creators : gmap (list byte) (list byte → outcome S)) s :
  contains s (lit "://") = false →
  ServerFromURL creators s = match creators !! lit "mixed" with Some c => c (lit "mixed://" ++ s) | None => Err "unknown scheme 'mixed'" end.
Proof.
  intros Hs. unfold ServerFromURL. rewrite Hs.
  assert (index_byte (lit "mixed://" ++ s) c_colon = Some 5%nat) as -> by done.
  change (to_lower (take 5 (lit "mixed://" ++ s))) with (lit "mixed"). by destruct (creators !! lit "mixed").
Qed.

(** ** Sets of resolved addresses *)

(** An address a name resolved to goes into the set of every rule for a domain the name is
    in, in the order of the walk, and into no other; v6 addresses into the set's v6 twin. *)
Theorem ipset_resolved m domain ip :
  Manager_AddDomainIP m domain ip =
    omap (λ k, (λ s, addAddrToSet s ip) <$> m !! k) (dot_suffixes (to_lower domain)).
Proof.
  unfold Manager_AddDomainIP. rewrite domain_fold_spec.
  assert (∀ ks calls, foldl (λ calls k, match m !! k with Some s => calls ++ [addAddrToSet s ip] | None => calls end) calls ks =
    calls ++ omap (λ k, (λ s, addAddrToSet s ip) <$> m !! k) ks) as H; [|apply H].
  induction ks as [|k ks IH]; intros calls; csimpl; [by rewrite app_nil_r|]. rewrite IH.
  destruct (m !! k); csimpl; [by rewrite <- app_assoc|done].
Qed.

(** The domain of a rule is kept as it is written, but looked up in lower case: a rule with
    a capital never matches. *)
Lemma ipset_capital_lost :
  let r := MkConfig (lit "a.rule") [] (rule_strategy ∅) [] (lit "myset") [lit "Example.com"] [] [] in
  match NewManager None [r] with
  | Ok (m, _) => ∀ ip, Manager_AddDomainIP m (lit "example.com") ip = [] ∧ Manager_AddDomainIP m (lit "Example.com") ip = []
  | _ => False
  end.
Proof. intros r. vm_compute. intros ip. done. Qed.

(** * The DHCP service *)

Module DhcpService.
Import Dhcp.

(** [net.IP.IsLoopback]. *)
Definition IsLoopback (ip : list byte) : bool :=
  match Socks4.To4 ip with
  | Some ip4 => bool_decide (head ip4 = Some x7f)
  | None => bool_decide (ip = replicate 15 x00 ++ [x01])
  end.

(** [ifaceAddr] on the addresses of the interface, [None] for one that is not a network's. *)
Fixpoint ifaceAddr (addrs : list (option (list byte * list byte))) : outcome (list byte * list byte) :=
  match addrs with
  | [] => Err "no ip/mask defined on this interface"
  | None :: addrs => ifaceAddr addrs
  | Some (ip, mask) :: addrs =>
      if IsLoopback ip then Err "can't use loopback interface"
      else match Socks4.To4 ip with Some ip4 => Ok (ip4, mask) | None => ifaceAddr addrs end
  end.

Record dhcpd := MkDhcpd {
  dh_failover : bool;
  dh_name : list byte;
  dh_pool : Pool;
  dh_lease : Z;
  dh_ip : list byte;
  dh_mask : list byte }.

Section New.
(** The addresses of an interface, hardware addresses, and the server's socket. *)
Context (Addrs : list byte → outcome (list (option (list byte * list byte)))) (ParseMAC : list byte → option (list byte))
        (NewServer : list byte → option error).

(** A reserved address of the arguments. *)
Definition static_host (host : list byte) : option (list byte * Addr) :=
  match cut_byte host x3d with
  | Some (mac, ip) =>
      match ParseMAC mac, ParseAddr ip with
      | Some mac, Ok ip => Some (mac, ip)
      | _, _ => None
      end
  | None => None
  end.
Definition lease_host (p : Pool) (host : list byte) : Pool :=
  match static_host host with Some (mac, ip) => LeaseStaticIP mac ip p | None => p end.

Definition minute : Z := 60 * second.
(** [New]; of the error for the lease time, what [Atoi] says is left out. *)
Definition dhcpd_New (fuel : nat) (failover : bool) (args : list (list byte)) : outcome dhcpd :=
  match args with
  | iface :: start :: end_ :: leaseMin :: hosts =>
      '(ip, mask) ← wrap_err (lit "get ip of interface '" ++ iface ++ lit "' error: ")
                      (addrs ← Addrs iface; ifaceAddr addrs);
      startIP ← wrap_err (lit "startIP " ++ start ++ lit " is not valid: ") (ParseAddr start);
      endIP ← wrap_err (lit "endIP " ++ end_ ++ lit " is not valid: ") (ParseAddr end_);
      lease ← match AnyTls.Atoi leaseMin with
              | Some i => Ok (i64 (i * minute))
              | None => Err (String.append "LEASE_MINUTES " (String.append (String.string_of_list_byte end_) " is not valid"))
              end;
      pool ← wrap_err (lit "error in pool init: ") (NewPool fuel lease (Some startIP) (Some endIP));
      match NewServer iface with
      | Some e => Err (String.append "error in server creation: " e)
      | None => Ok (MkDhcpd failover iface (foldl lease_host pool hosts) lease ip mask)
      end
  | _ => Err "not enough parameters, exiting"
  end.

(** [setFailover], of what [discovery] found. *)
Definition setFailover (v : bool) (d : dhcpd) : dhcpd := MkDhcpd v (dh_name d) (dh_pool d) (dh_lease d) (dh_ip d) (dh_mask d).
End New.
End DhcpService.

Import Dhcp DhcpService.

(** ** Reserved addresses *)

(** The first item of the client [m] has the address [a], for ever. *)
Definition reserved (m : list byte) (a : Addr) (l : list item) : Prop :=
  ∃ k it, l !! k = Some it ∧ it_mac it = Some m ∧ it_ip it = a ∧ it_expire it = None ∧
    ∀ j x, (j < k)%nat → l !! j = Some x → mac_equal m x = false.

Lemma reserved_owned m a l t : reserved m a l → owned m a t l.
Proof. intros (k & it & Hk & Hm & Ha & He & Hmin). exists k, it. split_and!; try done. intros e. by rewrite He. Qed.

(** Whatever a client with a hardware address asks, whoever releases and however long it
    takes, a reserved address stays. *)
Lemma reserved_event m a p ev :
  m ≠ [] → (∀ mac ip now idx, ev = ELease mac ip now idx → mac ≠ []) →
  reserved m a (items p) → reserved m a (items (apply_event p ev)).
Proof.
  intros Hm Hmac (k & it & Hk & Hmk & Ha & He & Hmin).
  assert (∀ f : item → item, f it = it → (∀ x, mac_equal m x = false → mac_equal m (f x) = false) → reserved m a (f <$> items p)) as Hmap.
  { intros f Hf Hf'. exists k, it. rewrite list_lookup_fmap, Hk. simpl. rewrite Hf. split_and!; try done.
    intros j x Hj Hx. apply list_lookup_fmap_Some in Hx as (y & -> & Hy). by apply Hf', (Hmin j). }
  assert (∀ i y z, items p !! i = Some y → i ≠ k → mac_equal m z = false → reserved m a (<[i := z]> (items p))) as Hins.
  { intros i y z Hi Hne Hz. exists k, it. rewrite list_lookup_insert_ne by done. split_and!; try done.
    intros j x Hj Hx. destruct (decide (i = j)) as [->|]; [|rewrite list_lookup_insert_ne in Hx by done; by apply (Hmin j)].
    rewrite list_lookup_insert_eq in Hx by (by eapply lookup_lt_Some). by simplify_eq. }
  pose proof (proj2 (mac_equal_Some m it Hm) Hmk) as Heqk.
  destruct ev as [mac ip now idx|mac|now]; cbn [apply_event].
  - specialize (Hmac _ _ _ _ eq_refl). destruct (LeaseIP mac ip now idx p) as [r p'] eqn:E. cbn [snd].
    apply LeaseIP_cases in E as [_ [(i & x & Hi & Heq & _ & -> & Hmini)|[Hno [(i & x & Hi & Hf & _ & ->)|(-> & _)]]]].
    + destruct (decide (i = k)) as [->|Hik].
      * rewrite Hk in Hi. injection Hi as <-. exists k, it. rewrite list_lookup_insert_eq by (by eapply lookup_lt_Some).
        unfold renew. rewrite He. split_and!; try done. intros j x Hj Hx. rewrite list_lookup_insert_ne in Hx by lia. by apply (Hmin j).
      * apply (Hins i x); [done..|]. destruct (decide (mac = m)) as [->|Hne].
        { exfalso. destruct (decide (i < k)%nat) as [Hlt|Hge]; [rewrite (Hmin i x Hlt Hi) in Heq; done|].
          rewrite (Hmini k it ltac:(lia) Hk) in Heqk. done. }
        apply (mac_equal_other m mac); [done|]. rewrite renew_mac. by apply mac_equal_Some.
    + destruct (decide (i = k)) as [->|Hik].
      { rewrite Hk in Hi. injection Hi as <-. unfold free in Hf. apply bool_decide_eq_true in Hf. congruence. }
      apply (Hins i x); [done..|]. destruct (decide (mac = m)) as [->|Hne]; [by rewrite (Hno k it Hk) in Heqk|]. by apply (mac_equal_other m mac).
    + by exists k, it.
  - apply Hmap; [by rewrite He|]. intros x Hx. destruct (it_expire x); [|done]. destruct (mac_equal mac x); [|done].
    unfold mac_equal. simpl. by apply bool_decide_eq_false.
  - apply Hmap; [by unfold tick_item; rewrite He|]. intros x Hx. unfold tick_item. destruct (it_expire x) as [e|]; [|done].
    destruct (e <? now); [|done]. unfold mac_equal. simpl. by apply bool_decide_eq_false.
Qed.

Lemma reserved_events m a evs p :
  m ≠ [] → Forall (λ ev, ∀ mac ip now idx, ev = ELease mac ip now idx → mac ≠ []) evs →
  reserved m a (items p) → reserved m a (items (foldl apply_event p evs)) ∧ it_ip <$> items (foldl apply_event p evs) = it_ip <$> items p.
Proof.
  intros Hm Hev. revert p. induction Hev as [|ev evs He Hev IH]; intros p Hr; [done|]. simpl.
  destruct (IH (apply_event p ev)) as [H1 H2]; [by apply reserved_event|]. split; [done|]. by rewrite H2, ips_event.
Qed.

(** ** The pool of the service *)

Lemma pool_loop_items fuel s e r :
  0 <= s → s <= e + 1 → e < 2 ^ 32 - 1 → pool_loop fuel s e = Ok r → r = range_items s (Z.to_nat (e + 1 - s)).
Proof.
  revert s r. induction fuel as [|fuel IH]; intros s r Hs Hse He H; [done|]. cbn [pool_loop] in H.
  destruct (s <=? e) eqn:E; bools.
  - rewrite u32_small in H by lia. apply bind_Ok in H as (r' & H & [= <-]). apply IH in H as ->; [|lia..].
    replace (Z.to_nat (e + 1 - s)) with (S (Z.to_nat (e + 1 - (s + 1)))) by lia. by rewrite range_items_S.
  - replace (Z.to_nat (e + 1 - s)) with 0%nat by lia. by injection H as <-.
Qed.
Lemma range_items_NoDup s n : 0 <= s → s + Z.of_nat n <= 2 ^ 32 → NoDup (it_ip <$> range_items s n).
Proof.
  revert s. induction n as [|n IH]; intros s Hs Hn; [constructor|]. rewrite range_items_S. cbn [fmap list_fmap it_ip].
  constructor; [|apply IH; lia]. intros Hin. apply list_elem_of_fmap in Hin as (it & Hip & Hit).
  unfold range_items in Hit. apply list_elem_of_fmap in Hit as (j & -> & Hj). apply elem_of_seq in Hj.
  cbn [it_ip] in Hip. apply (f_equal ipv4ToNum) in Hip. rewrite !ipv4ToNum_numToIPv4 in Hip by lia. lia.
Qed.
Lemma ipv4ToNum_range a : 0 <= ipv4ToNum a < 2 ^ 32.
Proof. unfold ipv4ToNum. repeat case_match; try lia. apply u32_range. Qed.

(** A new pool has each address once, and all of them free. *)
Lemma NewPool_fresh fuel l s e p :
  NewPool fuel l (Some s) (Some e) = Ok p →
  lease p = l ∧ NoDup (it_ip <$> items p) ∧ Forall (λ it, it_mac it = None ∧ it_expire it = None) (items p).
Proof.
  unfold NewPool. destruct (_ || _); [done|]. destruct (ipv4ToNum e <? ipv4ToNum s) eqn:El; [done|]. bools.
  intros H. apply bind_Ok in H as (r & H & [= <-]). pose proof (ipv4ToNum_range s). pose proof (ipv4ToNum_range e).
  destruct (decide (ipv4ToNum e = 2 ^ 32 - 1)) as [E|E]; [rewrite E, pool_loop_wraps in H by lia; done|].
  apply pool_loop_items in H as ->; [|lia..]. cbn [items lease]. split; [done|]. split; [apply range_items_NoDup; lia|].
  apply Forall_forall. intros it Hit. unfold range_items in Hit. by apply list_elem_of_fmap in Hit as (j & -> & _).
Qed.

(** An item is free and reserved for none of the hosts, or reserved for one of them. *)
Definition of_hosts (hs : list (list byte * Addr)) (it : item) : Prop :=
  it_expire it = None ∧ match it_mac it with None => it_ip it ∉ hs.*2 | Some m => (m, it_ip it) ∈ hs end.

Lemma lease_hosts_ok ParseMAC hosts done p :
  Forall (of_hosts done) (items p) →
  let p' := foldl (lease_host ParseMAC) p hosts in
  Forall (of_hosts (done ++ omap (static_host ParseMAC) hosts)) (items p') ∧ it_ip <$> items p' = it_ip <$> items p ∧ lease p' = lease p.
Proof.
  revert done p. induction hosts as [|h hosts IH]; intros done p Hp; csimpl; [by rewrite app_nil_r|].
  unfold lease_host at 2 4 6. destruct (static_host ParseMAC h) as [[m a]|]; [|by apply IH].
  destruct (IH (done ++ [(m, a)]) (LeaseStaticIP m a p)) as (H1 & H2 & H3).
  - unfold LeaseStaticIP. cbn [items]. apply Forall_fmap. apply (Forall_impl _ _ _ Hp). intros it [He Hm]. cbn. case_bool_decide as Ha.
    + split; [done|]. cbn. set_solver.
    + split; [done|]. destruct (it_mac it); [set_solver|]. rewrite fmap_app. set_solver.
  - split; [by rewrite <- app_assoc in H1|]. rewrite H2, H3. split; [|done]. unfold LeaseStaticIP. cbn [items].
    rewrite <- list_fmap_compose. apply list_fmap_ext. intros j it _. cbn. by case_bool_decide.
Qed.

Lemma NoDup_fmap_fst_inj {A B} (l : list (A * B)) a b b' : NoDup l.*1 → (a, b) ∈ l → (a, b') ∈ l → b = b'.
Proof.
  induction l as [|[x y] l IH]; csimpl; [by intros _ ?%elem_of_nil|]. intros [Hx Hl]%NoDup_cons H1 H2.
  apply elem_of_cons in H1 as [H1|H1], H2 as [H2|H2]; [congruence| | |by apply IH]; exfalso; apply Hx, list_elem_of_fmap; eexists;
    (split; [|eassumption]); cbn; congruence.
Qed.
Lemma NoDup_fmap_snd_inj {A B} (l : list (A * B)) a a' b : NoDup l.*2 → (a, b) ∈ l → (a', b) ∈ l → a = a'.
Proof.
  induction l as [|[x y] l IH]; csimpl; [by intros _ ?%elem_of_nil|]. intros [Hx Hl]%NoDup_cons H1 H2.
  apply elem_of_cons in H1 as [H1|H1], H2 as [H2|H2]; [congruence| | |by apply IH]; exfalso; apply Hx, list_elem_of_fmap; eexists;
    (split; [|eassumption]); cbn; congruence.
Qed.

(** Hosts with distinct hardware addresses and distinct addresses get what is reserved for
    them in a DHCP service, always, and no one else does. *)
Theorem dhcp_static Addrs ParseMAC NewServer fuel failover args d m a evs req now idx :
  dhcpd_New Addrs ParseMAC NewServer fuel failover args = Ok d →
  let hs := omap (static_host ParseMAC) (drop 4 args) in
  NoDup hs.*1 → NoDup hs.*2 → (m, a) ∈ hs → a ∈ it_ip <$> items (dh_pool d) → m ≠ [] →
  Forall (λ ev, ∀ mac ip now idx, ev = ELease mac ip now idx → mac ≠ []) evs →
  let p := foldl apply_event (dh_pool d) evs in
  (LeaseIP m req now idx p).1 = Ok a ∧ ∀ m2 b, m2 ≠ [] → m ≠ m2 → (LeaseIP m2 req now idx p).1 = Ok b → b ≠ a.
Proof.
  intros Hd hs Hn1 Hn2 Hin Ha Hm Hev p. unfold dhcpd_New in Hd. destruct args as [|iface [|start [|end_ [|leaseMin hosts]]]]; try done.
  apply bind_Ok in Hd as ([ip mask] & _ & Hd). apply bind_Ok in Hd as (s & _ & Hd). apply bind_Ok in Hd as (e & _ & Hd).
  apply bind_Ok in Hd as (l & _ & Hd). apply bind_Ok in Hd as (pool & Hp & Hd). apply wrap_err_Ok, NewPool_fresh in Hp as (_ & Hnd & Hfree).
  destruct (NewServer iface); [done|]. injection Hd as <-. cbn [dh_pool] in *. change (drop 4 _) with hosts in hs.
  destruct (lease_hosts_ok ParseMAC hosts [] pool) as (Hof & Hips & _).
  { apply (Forall_impl _ _ _ Hfree). intros it [H1 H2]. split; [done|]. rewrite H1. cbn. set_solver. }
  set (p0 := foldl (lease_host ParseMAC) pool hosts) in *. cbn [app] in Hof. fold hs in Hof. rewrite <- Hips in Hnd.
  assert (reserved m a (items p0)) as Hr.
  { apply list_elem_of_fmap in Ha as (it & -> & Hit). apply list_elem_of_lookup in Hit as [k Hk].
    assert (∀ j x, items p0 !! j = Some x → it_mac x = Some m → j = k) as Huniq.
    { intros j x Hj Hx. pose proof (Forall_lookup_1 _ _ _ _ Hof Hj) as [_ Hxm]. rewrite Hx in Hxm.
      assert (it_ip x = it_ip it) as E by (apply (NoDup_fmap_fst_inj hs m); done).
      eapply NoDup_lookup; [exact Hnd| |]; rewrite list_lookup_fmap; [by rewrite Hj; simpl; rewrite E|by rewrite Hk]. }
    pose proof (Forall_lookup_1 _ _ _ _ Hof Hk) as [He Hkm]. exists k, it. split_and!; try done.
    - destruct (it_mac it) as [m'|]; [f_equal; by eapply (NoDup_fmap_snd_inj hs)|]. exfalso. apply Hkm. apply list_elem_of_fmap. by exists (m, it_ip it).
    - intros j x Hj Hx. destruct (mac_equal m x) eqn:E; [|done]. apply (mac_equal_Some m x Hm) in E. specialize (Huniq _ _ Hx E). lia. }
  destruct (reserved_events m a evs p0 Hm Hev Hr) as [Hr' Hips']. fold p in Hr', Hips'. rewrite <- Hips' in Hnd.
  pose proof (reserved_owned m a _ 0 Hr') as Ho. split.
  - destruct (LeaseIP m req now idx p) as [r p'] eqn:E. by eapply owned_lease_self.
  - intros m2 b Hm2 Hne Hb. destruct (LeaseIP m2 req now idx p) as [r p'] eqn:E. simpl in Hb. subst r. exact (owned_lease_other m m2 a 0 _ _ _ _ _ _ Hm Hm2 Hne Hnd Ho E).
Qed.
