(* ===== verification/MainLoop.v ===== *)
(** main.go: the start of the program, and the loop that reloads its configuration when a
    signal asks for it.

    What the flag library makes of the arguments at each reload is part of the signal.
    The creators of servers and services and the binding of the status endpoint are
    parameters, as are the effects of the DNS handlers on the world they change. *)
From S2P Require Import Prelude GoStd Reader ProxyConn Forward Group GroupRotation GroupInv DomainWalk RuleProxy DnsCache DnsClient Admin MainConfig RuleWitness.
Import Conf.

Module Main.

Definition ErrHelp : error := "flag: help requested".

(** ** What cannot be reloaded *)

Record bindSnapshot := MkBind {
  b_listens : list (list byte);
  b_admin : list byte;
  b_dns : list byte;
  b_services : list (list byte);
  b_dnsCfg : DnsConfig }.
Definition newBindSnapshot (c : GConfig) : bindSnapshot := MkBind (Listens c) (g_Admin c) (g_DNS c) (Services c) (DNSConfig c).

#[global] Instance DnsConfig_eq_dec : EqDecision DnsConfig.
Proof. solve_decision. Defined.
Inductive warning := WarnListen | WarnAdmin | WarnDns | WarnService | WarnDnsSettings.

Fixpoint stringSliceEqual (a b : list (list byte)) : bool :=
  match a, b with
  | [], [] => true
  | x :: a, y :: b => bool_decide (x = y) && stringSliceEqual a b
  | _, _ => false
  end.
Definition warnDiff (b : bindSnapshot) (c : GConfig) : list warning :=
  (if stringSliceEqual (b_listens b) (Listens c) then [] else [WarnListen]) ++
  (if bool_decide (b_admin b = g_Admin c) then [] else [WarnAdmin]) ++
  (if bool_decide (b_dns b = g_DNS c) then [] else [WarnDns]) ++
  (if stringSliceEqual (b_services b) (Services c) then [] else [WarnService]) ++
  (if bool_decide (b_dnsCfg b = DNSConfig c) then [] else [WarnDnsSettings]).

Section Main.
Context (sort : (ptr → Z) → list ptr → list ptr)
        (NewDirect : list byte → Z → Z → outcome Dialer)
        (dialerCreators : gmap (list byte) DialerCreator)
        (checker : GW → option (ptr → GW → (Z + error) * GW))
        (order : GW → list ptr).
Context {Sv W : Type}.
Context (serverCreators : gmap (list byte) (list byte → outcome Sv)) (serviceCreators : gmap (list byte) (list (list byte) → outcome Sv)).
Context (rnd : nat → Z) (now : Z) (on_proxy on_ipset : list byte → Addr → W → W).
Context (ipset_init : option error) (bind_admin : list byte → option error).

(** dns/server.go: the server is its address and the client it answers with. *)
Record DnsServer := MkDnsServer { ds_addr : list byte; ds_client : Client W }.
Definition NewDnsServer (addr : list byte) (config : DnsConfig) : outcome DnsServer :=
  c ← NewClient rnd now config; Ok (MkDnsServer addr c).

Record Program := MkProgram {
  pg_proxy : Proxy;
  pg_globals : Globals;
  pg_bind : bindSnapshot;
  pg_admin : option (list byte);
  pg_dns : option DnsServer;
  pg_ipset : option Manager;
  pg_servers : list Sv;
  pg_services : list Sv;
  pg_warnings : list warning }.

(** ** The start *)

Inductive stopped := Exit (code : Z) | Fatal (e : error).

(** The DNS servers of the rules, and the handlers of answers. *)
Definition setup_dns (rules : list Config) (ipset : option Manager) (d : Client W) : Client W :=
  let d := foldl (λ d r, match DNSServers r with
                         | [] => d
                         | servers => foldl (λ d domain, SetServers domain servers d) d (Domain r)
                         end) d rules in
  let d := AddHandler_ on_proxy d in
  match ipset with Some _ => AddHandler_ on_ipset d | None => d end.

Fixpoint all_of {A} (f : list byte → outcome A) (l : list (list byte)) : outcome (list A) :=
  match l with
  | [] => Ok []
  | s :: l => x ← f s; xs ← all_of f l; Ok (x :: xs)
  end.

(** The status endpoint: its address once bound. *)
Definition start_admin (c : GConfig) : outcome (option (list byte)) :=
  if bool_decide (g_Admin c = []) then Ok None
  else
    _ ← Admin.checkAdminAddr (g_Admin c) (Listens c);
    hostport ← Admin.NormalizeAddr (g_Admin c);
    match bind_admin hostport with Some e => Err e | None => Ok (Some hostport) end.

Definition main_start (parsed : outcome GConfig) (g0 : Globals) : outcome (Program + stopped) :=
  match parsed with
  | Err e => Ok (inr (Exit (if bool_decide (e = ErrHelp) then 0 else -1)))
  | Panic => Panic
  | OutOfFuel => OutOfFuel
  | Ok config =>
      if negb (bool_decide (helpScheme config = [])) || helpExample config then Ok (inr (Exit 0))
      else
        let started :=
          pxy ← NewProxy sort NewDirect dialerCreators checker order (Forwards config) (g_Strategy config) (g_rules config);
          let ipset := match NewManager ipset_init (g_rules config) with Ok (m, _) => Some m | _ => None end in
          dns ← (if bool_decide (g_DNS config = []) then Ok None
                 else d ← NewDnsServer (g_DNS config) (DNSConfig config);
                      Ok (Some (MkDnsServer (ds_addr d) (setup_dns (g_rules config) ipset (ds_client d)))));
          admin ← start_admin config;
          servers ← all_of (ServerFromURL serverCreators) (Listens config);
          services ← all_of (New serviceCreators) (Services config);
          Ok (MkProgram pxy (applyGlobals config g0) (newBindSnapshot config) admin dns ipset servers services []) in
        match started with
        | Ok p => Ok (inl p)
        | Err e => Ok (inr (Fatal e))
        | Panic => Panic
        | OutOfFuel => OutOfFuel
        end
  end.

(** ** Reloads *)

Definition reload (parsed : outcome GConfig) (p : Program) : outcome Program :=
  match parsed with
  | Err _ => Ok p
  | Panic => Panic
  | OutOfFuel => OutOfFuel
  | Ok newCfg =>
      let warned pxy g := MkProgram pxy g (pg_bind p) (pg_admin p) (pg_dns p) (pg_ipset p) (pg_servers p) (pg_services p)
                            (pg_warnings p ++ warnDiff (pg_bind p) newCfg) in
      match Reload sort NewDirect dialerCreators checker order (Forwards newCfg) (g_Strategy newCfg) (g_rules newCfg) (pg_proxy p) with
      | (Ok _, pxy) => Ok (warned pxy (applyGlobals newCfg (pg_globals p)))
      | (Err _, pxy) => Ok (warned pxy (pg_globals p))
      | (Panic, _) => Panic
      | (OutOfFuel, _) => OutOfFuel
      end
  end.

Inductive signal := SIGHUP (parsed : outcome GConfig) | SIGINT | SIGTERM.

(** The loop of [main]: the program after the signals, and whether it has ended. *)
Fixpoint main_loop (sigs : list signal) (p : Program) : outcome (Program * bool) :=
  match sigs with
  | [] => Ok (p, false)
  | SIGHUP parsed :: sigs => p ← reload parsed p; main_loop sigs p
  | _ :: _ => Ok (p, true)
  end.

(** ** What serves after reloads *)

(** The generation a configuration is built to. *)
Definition generation (c : GConfig) : option proxyState :=
  match buildState sort NewDirect dialerCreators (Forwards c) (g_Strategy c) (g_rules c) with
  | Ok s => Some (state_startCheckers (has_checker checker) (state_warmCheck checker order s))
  | _ => None
  end.

(** The configurations the loop accepts: those of the reloads before the program ends that
    parse and build. *)
Fixpoint accepted (sigs : list signal) : list GConfig :=
  match sigs with
  | SIGHUP (Ok c) :: sigs => match generation c with Some _ => c :: accepted sigs | None => accepted sigs end
  | SIGHUP _ :: sigs => accepted sigs
  | _ => []
  end.

Lemma reload_cases parsed p p' :
  reload parsed p = Ok p' →
  pg_bind p' = pg_bind p ∧ pg_admin p' = pg_admin p ∧ pg_dns p' = pg_dns p ∧ pg_ipset p' = pg_ipset p ∧
  pg_servers p' = pg_servers p ∧ pg_services p' = pg_services p ∧
  match parsed with
  | Ok c =>
      match generation c with
      | Some s => p_state (pg_proxy p') = Some s ∧ pg_globals p' = applyGlobals c (pg_globals p) ∧
          p_retired (pg_proxy p') = match p_state (pg_proxy p) with
                                    | Some o => state_stopCheckers o :: p_retired (pg_proxy p)
                                    | None => p_retired (pg_proxy p)
                                    end
      | None => pg_proxy p' = pg_proxy p ∧ pg_globals p' = pg_globals p
      end
  | _ => p' = p
  end.
Proof.
  destruct parsed as [c| | |]; cbn [reload]; try done; [|by intros [= <-]].
  unfold Reload, generation. destruct (buildState _ _ _ _ _ _) as [s| | |]; try done; by intros [= <-].
Qed.

(** The generations that were replaced, each told to stop its checkers, latest first. *)
Fixpoint retired (s : option proxyState) (old : list proxyState) (cs : list GConfig) : list proxyState :=
  match cs with
  | [] => old
  | c :: cs => match generation c with
               | Some s' => retired (Some s') (match s with Some o => state_stopCheckers o :: old | None => old end) cs
               | None => retired s old cs
               end
  end.

(** C25: Through any sequence of signals the routing that serves and the global settings
    come from the same configurations, those that parsed and built, and from no other: a
    reload that fails at any point changes neither, one that succeeds publishes its
    generation, retires the one before and applies its settings; what is bound at start
    never changes. *)
Theorem main_reloads sigs p p' ended :
  main_loop sigs p = Ok (p', ended) →
  let cs := accepted sigs in
  pg_globals p' = foldl (λ g c, applyGlobals c g) (pg_globals p) cs ∧
  p_state (pg_proxy p') = match last cs with Some c => generation c | None => p_state (pg_proxy p) end ∧
  p_retired (pg_proxy p') = retired (p_state (pg_proxy p)) (p_retired (pg_proxy p)) cs ∧
  pg_bind p' = pg_bind p ∧ pg_admin p' = pg_admin p ∧ pg_dns p' = pg_dns p ∧ pg_ipset p' = pg_ipset p ∧
  pg_servers p' = pg_servers p ∧ pg_services p' = pg_services p.
Proof.
  revert p. induction sigs as [|sig sigs IH]; intros p H; [by injection H as <- <-|].
  destruct sig as [parsed| |]; cbn [main_loop accepted] in *; [|by injection H as <- <-..].
  apply bind_Ok in H as (p1 & H1 & H). pose proof (reload_cases _ _ _ H1) as (R1 & R2 & R3 & R4 & R5 & R6 & R7).
  specialize (IH p1 H) as (I1 & I2 & I3 & I4 & I5 & I6 & I7 & I8 & I9).
  assert (∀ c : GConfig, match last (accepted sigs) with Some c' => generation c' | None => generation c end =
    match last (c :: accepted sigs) with Some c' => generation c' | None => None end) as Hlast.
  { intros c. rewrite last_cons. by destruct (last (accepted sigs)). }
  destruct parsed as [c| | |]; try (subst p1; by split_and!). destruct (generation c) as [s|] eqn:Eg.
  - destruct R7 as (R7 & R8 & R9). rewrite R7 in I2, I3. rewrite R8 in I1. rewrite R9 in I3.
    split_and!; [done| | |congruence..].
    + rewrite I2, last_cons. by destruct (last (accepted sigs)).
    + cbn [retired]. by rewrite Eg.
  - destruct R7 as [R7 R8]. rewrite R7 in I2, I3. rewrite R8 in I1. split_and!; [done|done|done|congruence..].
Qed.

(** A program that was started serves a generation, and goes on to serve one. *)
Theorem main_serves parsed g0 p sigs p' ended :
  main_start parsed g0 = Ok (inl p) → main_loop sigs p = Ok (p', ended) → is_Some (p_state (pg_proxy p')).
Proof.
  intros Hs Hl. assert (is_Some (p_state (pg_proxy p))) as Hp.
  { unfold main_start in Hs. destruct parsed as [c| | |]; try done. destruct (_ || _); [done|].
    destruct (NewProxy _ _ _ _ _ _ _ _) as [pxy| | |] eqn:E; try done. rewrite bind_ret in Hs. cbv zeta in Hs.
    assert (is_Some (p_state pxy)) as Hx by (unfold NewProxy in E; apply bind_Ok in E as (s & _ & [= <-]); by eexists).
    destruct (if bool_decide (g_DNS c = []) then _ else _) as [dns| | |]; try done. rewrite bind_ret in Hs.
    destruct (start_admin c) as [adm| | |]; try done. rewrite bind_ret in Hs.
    destruct (all_of _ (Listens c)) as [svs| | |]; try done. rewrite bind_ret in Hs.
    destruct (all_of _ (Services c)) as [scs| | |]; try done. rewrite bind_ret in Hs. by injection Hs as <-. }
  clear Hs. revert p Hl Hp. induction sigs as [|sig sigs IH]; intros p Hl Hp; [by injection Hl as <- <-|].
  destruct sig as [x| |]; cbn [main_loop] in Hl; [|by injection Hl as <- <-..]. apply bind_Ok in Hl as (p1 & H1 & Hl).
  apply (IH p1 Hl). destruct (reload_cases _ _ _ H1) as (_ & _ & _ & _ & _ & _ & R).
  destruct x as [c| | |]; try (by subst p1). destruct (generation c); [destruct R as (-> & _ & _); by eexists|by destruct R as [-> _]].
Qed.
End Main.

Lemma stringSliceEqual_ok a b : stringSliceEqual a b = true ↔ a = b.
Proof.
  revert b. induction a as [|x a IH]; intros [|y b]; cbn [stringSliceEqual]; try done. rewrite andb_true_iff, bool_decide_eq_true, IH. naive_solver.
Qed.

(** A reload warns exactly of the bound settings that changed. *)
Lemma warnDiff_ok b c : warnDiff b c = [] ↔ b = newBindSnapshot c.
Proof.
  unfold warnDiff. destruct b as [l a d s dc]. unfold newBindSnapshot. cbn [b_listens b_admin b_dns b_services b_dnsCfg]. split.
  - intros H. destruct (stringSliceEqual l (Listens c)) eqn:E1; [|done]. destruct (stringSliceEqual s (Services c)) eqn:E2;
      [|by destruct (bool_decide _), (bool_decide _)]. apply stringSliceEqual_ok in E1, E2.
    repeat (case_bool_decide; [|done]). congruence.
  - intros [= -> -> -> -> ->]. rewrite !(proj2 (stringSliceEqual_ok _ _)) by done. by rewrite !bool_decide_eq_true_2.
Qed.
End Main.

Import Main.

(** A program started with two forwarders, asked to reload a configuration that does not
    parse, one with a scheme that does not exist, one with rules, and to end. *)
Definition ex_conf (verbose : bool) (tcp : Z) (fwds : list (list byte)) (rules : list Config) : GConfig :=
  MkGConfig verbose 19 tcp 2048 [lit ":8443"] (lit "9090") fwds ex_strategy [] [] [] (dns_config ∅) rules [] [] false.
Definition ex_servers : gmap (list byte) (list byte → outcome (list byte)) := RegisterServer ∅ (lit "mixed") (λ s, Ok s).
Definition ex_start (parsed : outcome GConfig) : outcome (Program + stopped) :=
  main_start (W := unit) msort ex_NewDirect ex_creators (λ _, None) (λ _, []) ex_servers ∅ (λ _, 0) 0 (λ _ _ w, w)
    (λ _ _ w, w) None (λ _, None) parsed (MkGlobals false 0 32768 2048).
Definition ex_sigs : list signal :=
  [SIGHUP (Err "bad flag"%string); SIGHUP (Ok (ex_conf true 1 [lit "nosuch://a:1"] []));
   SIGHUP (Ok (ex_conf true 0 ex_urls [ex_rule])); SIGTERM; SIGHUP (Ok (ex_conf false 5 ex_urls []))].
Definition ex_loop (p : Program) : outcome (Program * bool) :=
  main_loop (Sv := list byte) (W := unit) msort ex_NewDirect ex_creators (λ _, None) (λ _, []) ex_sigs p.

Definition ex_prog : Program :=
  match ex_start (Ok (ex_conf false 32768 ex_urls [])) with
  | Ok (inl p) => p
  | _ => MkProgram (MkProxy None []) (MkGlobals false 0 0 0) (newBindSnapshot (ex_conf false 0 [] [])) None None None [] [] []
  end.
Definition ex_end : Program * bool := match ex_loop ex_prog with Ok r => r | _ => (ex_prog, false) end.
Lemma ex_end_ok : ex_loop ex_prog = Ok ex_end.
Proof.
  assert (is_ok (ex_loop ex_prog) = true) as H by (vm_compute; reflexivity).
  unfold ex_end. by destruct (ex_loop ex_prog).
Qed.

Lemma main_reloads_witness :
  pg_admin ex_prog = Some (lit "127.0.0.1:9090") ∧ pg_servers ex_prog = [lit "mixed://:8443"] ∧
  pg_globals ex_end.1 = MkGlobals true 19 32768 2048 ∧ pg_servers ex_end.1 = pg_servers ex_prog ∧ is_Some (p_state (pg_proxy ex_end.1)).
Proof.
  split; [vm_compute; reflexivity|]. split; [vm_compute; reflexivity|].
  destruct (main_reloads msort ex_NewDirect ex_creators (λ _, None) (λ _, []) ex_sigs ex_prog ex_end.1 ex_end.2)
    as (G & P & _ & _ & _ & _ & _ & S & _).
  - rewrite <- surjective_pairing. exact ex_end_ok.
  - split; [rewrite G; vm_compute; reflexivity|]. split; [exact S|]. rewrite P.
    apply (bool_decide_unpack _). vm_compute. done.
Defined.
