(* ===== verification/Transport.v ===== *)
(** The dialers and servers that carry a stream without a protocol of their own:
    proxy/direct.go, proxy/reject, proxy/tcp, proxy/tls, proxy/kcp, proxy/unix, proxy/vsock,
    proxy/redir and the servers of proxy/smux, with what they read from their URL.

    The operating system's dials, interfaces and files, the TLS certificates and the KCP
    ciphers are parameters.  A relay is a change of the routing state: what every other
    connection does to it while the relay runs. *)
From S2P Require Import Prelude GoStd Reader ProxyConn Forward Group GroupRotation GroupDial GroupInv DomainWalk RuleProxy SocksAddr RuleWitness.

Module Transport.

(** ** The direct dialer *)

Section Direct.
(** Interfaces of the system, and its connections. *)
Context {I C : Type} (InterfaceByName : list byte → outcome I) (Addrs : I → outcome (list (list byte))).

Record Direct := MkDirect {
  d_iface : option I;
  d_ip : option (list byte);
  d_dialTimeout : Z;
  d_relayTimeout : Z }.

Definition NewDirect (intface : list byte) (dialTimeout relayTimeout : Z) : outcome Direct :=
  if bool_decide (intface = []) then Ok (MkDirect None None dialTimeout relayTimeout)
  else
    match ParseAddr intface with
    | Ok addr => Ok (MkDirect None (Some (AsSlice addr)) dialTimeout relayTimeout)
    | _ =>
        match InterfaceByName intface with
        | Ok iface => Ok (MkDirect (Some iface) None dialTimeout relayTimeout)
        | Err e => Err (String.append e (String.append ": " (String.string_of_list_byte intface)))
        | Panic => Panic
        | OutOfFuel => OutOfFuel
        end
    end.

Definition NewDirectDialer (d : option Direct) : outcome Direct :=
  match d with None => NewDirect [] (3 * second) (3 * second) | Some d => Ok d end.

Definition DirectAddr : list byte := lit "DIRECT".

(** The call of [net.Dialer.Dial]: the local address, if the network has one, and the
    interface the socket is bound to. *)
Inductive laddr := TCPAddr (ip : option (list byte)) | UDPAddr (ip : option (list byte)) | NoAddr.
Record netDial := MkNetDial { nd_local : laddr; nd_iface : option I; nd_timeout : Z; nd_network : list byte; nd_addr : list byte }.
(** The [k]-th dial of the system and its answer; [now] the clock for deadlines. *)
Context (netdial : nat → netDial → C + error) (now : nat → Z).

(** A connection, with the deadline that was set on it. *)
Record DConn := MkDConn { dc_conn : C; dc_deadline : option Z }.

Definition the_dial (network addr : list byte) (localIP : option (list byte)) (d : Direct) : netDial :=
  let la := if bool_decide (network = lit "tcp") then TCPAddr localIP
            else if bool_decide (network = lit "udp") then UDPAddr localIP else NoAddr in
  MkNetDial la (d_iface d) (d_dialTimeout d) network addr.
Definition direct_dial (k : nat) (network addr : list byte) (localIP : option (list byte)) (d : Direct) : DConn + error :=
  match netdial k (the_dial network addr localIP d) with
  | inr e => inr e
  | inl c => inl (MkDConn c (if 0 <? d_relayTimeout d then Some (now k + d_relayTimeout d) else None))
  end.

(** [IFaceIPs]: the addresses of no interface are an error. *)
Definition IFaceIPs (d : Direct) : list (list byte) :=
  match d_iface d with
  | None => []
  | Some iface => match Addrs iface with Ok ips => ips | _ => [] end
  end.

Definition set_ip (ip : list byte) (d : Direct) : Direct := MkDirect (d_iface d) (Some ip) (d_dialTimeout d) (d_relayTimeout d).

(** The loop over the addresses of the interface, after [k] dials with the last error
    [err]. *)
Fixpoint dial_ips (k : nat) (network addr : list byte) (ips : list (list byte)) (err : option error) (d : Direct)
    : (DConn + option error) * Direct :=
  match ips with
  | [] => (inr err, d)
  | ip :: ips =>
      match direct_dial k network addr (Some ip) d with
      | inl c => (inl c, set_ip ip d)
      | inr e => dial_ips (S k) network addr ips (Some e) d
      end
  end.

Definition ErrLinkDown : error := "dial failed, maybe the interface link is down, please check it".
Definition or_linkdown (r : (DConn + option error) * Direct) : (DConn + error) * Direct :=
  match r with
  | (inl c, d) => (inl c, d)
  | (inr (Some e), d) => (inr e, d)
  | (inr None, d) => (inr ErrLinkDown, d)
  end.
Definition Direct_Dial (network addr : list byte) (d : Direct) : (DConn + error) * Direct :=
  if bool_decide (d_iface d = None) || bool_decide (is_Some (d_ip d)) then
    match direct_dial 0 network addr (d_ip d) d with
    | inl c => (inl c, d)
    | inr e => or_linkdown (dial_ips 1 network addr (IFaceIPs d) (Some e) d)
    end
  else or_linkdown (dial_ips 0 network addr (IFaceIPs d) None d).

(** [DialUDP]: the local address that is listened on and the interface. *)
Definition Direct_DialUDP (d : Direct) : list byte * option I :=
  (match d_ip d with Some ip => JoinHostPort (IP_String ip) (lit "0") | None => [] end, d_iface d).
End Direct.

(** ** The reject dialer *)

Definition Reject_Dial (network addr : list byte) : outcome unit := Err "REJECT".
Definition Reject_DialUDP (network addr : list byte) : outcome unit := Err "REJECT".

(** ** Serving a tunnel *)

Section Tunnel.
Context {Conn : Type} (reply : nat → ptr → Conn + error) (clock : nat → Z) (order : list (Prefix * gid)).
(** The relay of a connection. *)
Context (relay : Conn → proxyState → option error * proxyState).

(** What became of the client: the inner server has it, nothing was dialed, or the relay
    ended. *)
Inductive served := Inner | NotDialed | Relayed (e : option error).

(** The end of [Serve]: the failure of the remote counts against the dialer, unless the
    error names the server's own address. *)
Definition relay_record (saddr : list byte) (g : gid) (f : ptr) (rc : Conn) (s : proxyState) : served * proxyState :=
  match relay rc s with
  | (None, s) => (Relayed None, s)
  | (Some e, s) =>
      (Relayed (Some e), if contains (String.list_byte_of_string e) saddr then s else Record_ g f false s)
  end.

(** [Serve] after the dial, [record] saying whether a failed dial is recorded. *)
Definition serve_dialed (record : bool) (saddr : list byte) (g : gid) (r : outcome DialResult) (s : proxyState)
    : outcome served * proxyState :=
  match r with
  | Ok r =>
      match dr_err r, dr_dialer r with
      | Some _, Some f => (Ok NotDialed, if record then Record_ g f false s else s)
      | None, Some f =>
          match dr_conn r with
          | Some rc => let '(o, s) := relay_record saddr g f rc s in (Ok o, s)
          | None => (Panic, s)
          end
      | _, None => (Panic, s)
      end
  | Err _ | Panic => (Panic, s)
  | OutOfFuel => (OutOfFuel, s)
  end.

(** [Serve] of tcp, tls, kcp, unix, vsock and [ServeStream] of smux; [inner]: a server
    follows in the chain. *)
Definition tunnel_Serve (inner : bool) (saddr : list byte) (s : proxyState) : outcome served * proxyState :=
  if inner then (Ok Inner, s)
  else
    let g := findDialer order s [] in
    let '(r, s) := Proxy_Dial reply clock order [] s in
    serve_dialed true saddr g r s.

(** [Serve] of redir: [tgt] is the original destination the kernel tells, [laddr] the
    address the client was accepted on. *)
Definition redir_Serve (is_tcp : bool) (saddr laddr : list byte) (orig : outcome (list byte)) (s : proxyState)
    : outcome served * proxyState :=
  if negb is_tcp then (Ok NotDialed, s)
  else
    match orig with
    | Ok tgt =>
        if bool_decide (laddr = tgt) then (Ok NotDialed, s)
        else
          let g := findDialer order s tgt in
          let '(r, s) := Proxy_Dial reply clock order tgt s in
          serve_dialed false saddr g r s
    | _ => (Ok NotDialed, s)
    end.
End Tunnel.

(** [getorigdst]: the kernel's port is in network order, the field of the structure is read
    in the order of the machine. *)
Definition swap_port (p : Z) : Z := Z.lor (u16 (Z.shiftl p 8)) (Z.shiftr p 8).

(** ** URLs *)

(** [NewTLSServer], [NewKCPServer], [NewUnixServer], [NewVSockServer], [NewSmuxServer]: what
    is before the first comma is the transport's, what is after it another server's. *)
Definition NewChained {T Sv} (new : list byte → outcome T) (ServerFromURL : list byte → outcome Sv) (s : list byte)
    : outcome (T * option Sv) :=
  match cut_byte s x2c with
  | None => t ← new s; Ok (t, None)
  | Some (own, rest) => t ← new own; sv ← ServerFromURL rest; Ok (t, Some sv)
  end.

(** The address of a transport, or the one of what it dials through. *)
Definition transport_Addr (addr dialer : list byte) : list byte := if bool_decide (addr = []) then dialer else addr.

Record TLS := MkTLS {
  tls_addr : list byte;
  tls_serverName : list byte;
  tls_skipVerify : bool;
  tls_certFile : list byte;
  tls_keyFile : list byte;
  tls_alpn : list (list byte) }.
Definition query_all (m : list (list byte * list byte)) (k : list byte) : list (list byte) :=
  (filter (λ kv, kv.1 = k) m).*2.
(** [NewTLS] of a URL's host and query. *)
Definition NewTLS (host : list byte) (query : list (list byte * list byte)) : outcome TLS :=
  let addr := if bool_decide (host = []) then host
              else if bool_decide ((SplitHostPort_ host).2 = []) then JoinHostPort host (lit "443") else host in
  let name := query_get query (lit "serverName") in
  serverName ← (if bool_decide (addr = []) || negb (bool_decide (name = [])) then Ok name
                else match last_index_byte addr c_colon with Some i => Ok (take i addr) | None => Panic end);
  Ok (MkTLS addr serverName (bool_decide (query_get query (lit "skipVerify") = lit "true"))
        (query_get query (lit "cert")) (query_get query (lit "key")) (query_all query (lit "alpn"))).

Section TLSFiles.
Context {Pool Cert : Type} (ReadFile : list byte → outcome (list byte)) (AppendCertsFromPEM : list byte → option Pool)
        (LoadX509KeyPair : list byte → list byte → outcome Cert).
Record TLSConfig := MkTLSConfig {
  tc_serverName : list byte;
  tc_skipVerify : bool;
  tc_nextProtos : list (list byte);
  tc_rootCAs : option Pool;
  tc_certificates : list Cert }.
Definition NewTLSDialer (host : list byte) (query : list (list byte * list byte)) : outcome (TLS * TLSConfig) :=
  t ← NewTLS host query;
  roots ← (if bool_decide (tls_certFile t = []) then Ok None
           else match ReadFile (tls_certFile t) with
                | Ok pem => match AppendCertsFromPEM pem with
                            | Some pool => Ok (Some pool)
                            | None => Err (String.append "[tls] can not append cert file: " (String.string_of_list_byte (tls_certFile t)))
                            end
                | Err e => Err (String.append "[tls] read cert file error: " e)
                | Panic => Panic
                | OutOfFuel => OutOfFuel
                end);
  Ok (t, MkTLSConfig (tls_serverName t) (tls_skipVerify t) (tls_alpn t) roots []).
Definition NewTLSServer (host : list byte) (query : list (list byte * list byte)) : outcome (TLS * TLSConfig) :=
  t ← NewTLS host query;
  if bool_decide (tls_certFile t = []) || bool_decide (tls_keyFile t = [])
  then Err "[tls] cert and key file path must be spcified"
  else cert ← LoadX509KeyPair (tls_certFile t) (tls_keyFile t);
       Ok (t, MkTLSConfig [] false (tls_alpn t) None [cert]).
End TLSFiles.

(** What [Dial] of tls returns, and whether the connection it made is still open. *)
Definition TLS_Dial {C} (dial : C + error) (handshake : C → option error) : option C * option error * list C :=
  match dial with
  | inr e => (None, Some e, [])
  | inl cc => (Some cc, handshake cc, [cc])
  end.

Inductive BlockCrypt := SM4 | TEA | SimpleXOR | NoneCrypt | AES | Blowfish | Twofish | Cast5 | TripleDES | XTEA | Salsa20.
(** [block]: the cipher and the part of the 32-byte key it gets. *)
Definition block (crypt pass : list byte) : outcome (BlockCrypt * list byte) :=
  let named s := bool_decide (crypt = lit s) in
  if named "sm4"%string then Ok (SM4, take 16 pass)
  else if named "tea"%string then Ok (TEA, take 16 pass)
  else if named "xor"%string then Ok (SimpleXOR, pass)
  else if named "none"%string then Ok (NoneCrypt, pass)
  else if named "aes"%string then Ok (AES, pass)
  else if named "aes-128"%string then Ok (AES, take 16 pass)
  else if named "aes-192"%string then Ok (AES, take 24 pass)
  else if named "blowfish"%string then Ok (Blowfish, pass)
  else if named "twofish"%string then Ok (Twofish, pass)
  else if named "cast5"%string then Ok (Cast5, take 16 pass)
  else if named "3des"%string then Ok (TripleDES, take 24 pass)
  else if named "xtea"%string then Ok (XTEA, take 16 pass)
  else if named "salsa20"%string then Ok (Salsa20, pass)
  else Err (String.append "unknown crypt type '" (String.append (String.string_of_list_byte crypt) "'")).

Record KCP := MkKCP {
  k_addr : list byte;
  k_block : option (BlockCrypt * list byte);
  k_mode : list byte;
  k_dataShards : Z;
  k_parityShards : Z }.
Definition shards (query : list (list byte * list byte)) (k dflt : list byte) : outcome Z :=
  let v := query_get query k in
  match parse_uint (if bool_decide (v = []) then dflt else v) 32 with
  | (n, None) => Ok n
  | (_, Some e) => Err e
  end.
(** [NewKCP] of a URL's host, user, password and query; [pbkdf2] derives the key. *)
Definition NewKCP (pbkdf2 : list byte → list byte) (host crypt key : list byte) (query : list (list byte * list byte)) : outcome KCP :=
  data ← shards query (lit "dataShards") (lit "10");
  parity ← shards query (lit "parityShards") (lit "3");
  b ← (if bool_decide (crypt = []) then Ok None
       else match block crypt (pbkdf2 key) with
            | Ok b => Ok (Some b)
            | Err e => Err (String.append "[kcp] error: " e)
            | Panic => Panic
            | OutOfFuel => OutOfFuel
            end);
  let mode := query_get query (lit "mode") in
  Ok (MkKCP host b (if bool_decide (mode = []) then lit "fast" else mode) data parity).

Inductive kcp_call := SetStreamMode (b : bool) | SetWriteDelay (b : bool) | SetNoDelay (nodelay interval resend nc : Z)
  | SetWindowSize (snd rcv : Z) | SetMtu (mtu : Z) | SetACKNoDelay (b : bool).
Definition setParams (mode : list byte) : list kcp_call :=
  [SetStreamMode true; SetWriteDelay false;
   (if bool_decide (mode = lit "normal") then SetNoDelay 0 40 2 1
    else if bool_decide (mode = lit "fast") then SetNoDelay 0 30 2 1
    else if bool_decide (mode = lit "fast2") then SetNoDelay 1 20 2 1
    else if bool_decide (mode = lit "fast3") then SetNoDelay 1 10 2 1
    else SetNoDelay 0 30 2 1);
   SetWindowSize 1024 1024; SetMtu 1350; SetACKNoDelay true].

Record VSock := MkVSock { v_addr : list byte; v_cid : Z; v_port : Z }.
Definition uint32_of (s : list byte) : outcome Z :=
  match parse_uint s 32 with (n, None) => Ok n | (_, Some e) => Err e end.
Definition NewVSock (host : list byte) : outcome VSock :=
  let '(hostStr, portStr) := SplitHostPort_ host in
  if bool_decide (portStr = []) then Ok (MkVSock host 0 0)
  else
    cid ← (if bool_decide (hostStr = []) then Ok 0 else uint32_of hostStr);
    port ← uint32_of portStr;
    Ok (MkVSock host cid port).
(** [NewVSockServer]: without an identifier the one of the machine; [ContextID] asks it. *)
Definition vsock_server (ContextID : outcome Z) (v : VSock) : outcome VSock :=
  if v_cid v =? 0 then cid ← ContextID; Ok (MkVSock (v_addr v) cid (v_port v)) else Ok v.

(** [NewUnix]: the paths of the stream and of the datagram socket; [DialUDP]: the path of a
    client's own socket. *)
Record Unix := MkUnix { u_addr : list byte; u_addru : list byte }.
Definition NewUnix (path : list byte) : Unix := MkUnix path (path ++ lit "u").
Definition unix_laddru (u : Unix) (addr : list byte) : list byte := u_addru u ++ lit "_" ++ addr.

(** ** The servers *)

Section Servers.
Context {Conn : Type} (reply : nat → ptr → Conn + error) (clock : nat → Z) (order : list (Prefix * gid))
        (relay : Conn → proxyState → option error * proxyState).

(** [inner]: whether another server follows in the chain; a tcp server has none. *)
Definition TCP_Serve (addr : list byte) := tunnel_Serve reply clock order relay false addr.
Definition TLS_Serve (t : TLS) (inner : bool) := tunnel_Serve reply clock order relay inner (tls_addr t).
Definition KCP_Serve (k : KCP) (inner : bool) := tunnel_Serve reply clock order relay inner (k_addr k).
Definition Unix_Serve (u : Unix) (inner : bool) := tunnel_Serve reply clock order relay inner (u_addr u).
Definition VSock_Serve (v : VSock) (inner : bool) := tunnel_Serve reply clock order relay inner (v_addr v).
(** [Serve] of ws: the TLS handshake, if there is one, and the one of WebSocket come first. *)
Definition WS_Serve (addr : list byte) (withTLS : bool) (tlsHandshake handshake : option error) (inner : bool) (s : proxyState)
    : outcome served * proxyState :=
  if withTLS && bool_decide (is_Some tlsHandshake) then (Ok NotDialed, s)
  else match handshake with
       | Some _ => (Ok NotDialed, s)
       | None => tunnel_Serve reply clock order relay inner addr s
       end.
Definition Smux_ServeStream (addr : list byte) (inner : bool) := tunnel_Serve reply clock order relay inner addr.
End Servers.
End Transport.

Import Transport.

(** ** The direct dialer *)

Section DirectProps.
Context {I C : Type} (Addrs : I → outcome (list (list byte))) (netdial : nat → netDial (I := I) → C + error) (now : nat → Z)
        (network addr : list byte).

(** The local addresses a dial tries, in order: the one that worked last, if any, then those
    of the interface; without an interface the configured one or the system's choice. *)
Definition locals (d : Direct (I := I)) : list (option (list byte)) :=
  (if bool_decide (d_iface d = None) || bool_decide (is_Some (d_ip d)) then [d_ip d] else []) ++ map Some (IFaceIPs Addrs d).
(** The first of them that connects. *)
Fixpoint first_ok (k : nat) (ls : list (option (list byte))) (d : Direct) : option (option (list byte) * DConn) :=
  match ls with
  | [] => None
  | l :: ls => match direct_dial netdial now k network addr l d with inl c => Some (l, c) | inr _ => first_ok (S k) ls d end
  end.
(** The error of the last. *)
Fixpoint last_error (k : nat) (ls : list (option (list byte))) (err : error) (d : Direct) : error :=
  match ls with
  | [] => err
  | l :: ls => last_error (S k) ls (match direct_dial netdial now k network addr l d with inr e => e | inl _ => err end) d
  end.
Definition use_ip (l : option (list byte)) (d : Direct (I := I)) : Direct := MkDirect (d_iface d) l (d_dialTimeout d) (d_relayTimeout d).

Lemma dial_ips_first k ips err d :
  or_linkdown (dial_ips netdial now k network addr ips err d) =
    match first_ok k (map Some ips) d with
    | Some (l, c) => (inl c, use_ip l d)
    | None => (inr (last_error k (map Some ips) (default ErrLinkDown err) d), d)
    end.
Proof.
  revert k err. induction ips as [|ip ips IH]; intros k err; [by destruct err|]. cbn [dial_ips map first_ok last_error].
  destruct (direct_dial _ _ _ _ _ _ _) as [c|e]; [done|]. apply IH.
Qed.

(** A direct dial connects from the first local address that can, remembers it and tries it
    first the next time; when none can it fails with the last error, and changes nothing. *)
Theorem Direct_Dial_first d :
  match first_ok 0 (locals d) d with
  | Some (l, c) => Direct_Dial Addrs netdial now network addr d = (inl c, use_ip l d) ∧ head (locals (use_ip l d)) = Some l
  | None => Direct_Dial Addrs netdial now network addr d = (inr (last_error 0 (locals d) ErrLinkDown d), d)
  end.
Proof.
  assert (∀ l, l = None → d_iface d = None → head (locals (use_ip l d)) = Some l) as Hn.
  { intros l -> Hi. unfold locals, use_ip. cbn. by rewrite Hi. }
  assert (∀ ip, head (locals (use_ip (Some ip) d)) = Some (Some ip)) as Hs.
  { intros ip. unfold locals, use_ip. cbn. by rewrite orb_true_r. }
  assert (∀ k ips l c, first_ok k (map Some ips) d = Some (l, c) → ∃ ip, l = Some ip) as Hl.
  { intros k ips. revert k. induction ips as [|ip ips IH]; intros k l c; cbn [map first_ok]; [done|].
    destruct (direct_dial _ _ _ _ _ _ _); [intros [= <- _]; eauto|apply IH]. }
  unfold Direct_Dial, locals at 1 3. destruct (bool_decide (d_iface d = None) || _) eqn:E; cbn [app first_ok last_error].
  - destruct (direct_dial netdial now 0 network addr (d_ip d) d) as [c|e] eqn:E0.
    + split; [by destruct d|]. destruct (d_ip d) as [ip|] eqn:Ei; [apply Hs|]. apply Hn; [done|].
      apply orb_true_iff in E as [E|E]; apply bool_decide_eq_true in E; [done|by destruct E].
    + rewrite dial_ips_first. destruct (first_ok 1 _ d) as [[l c]|] eqn:Ef; [|done]. destruct (Hl _ _ _ _ Ef) as [ip ->]. split; [done|apply Hs].
  - rewrite dial_ips_first. destruct (first_ok 0 _ d) as [[l c]|] eqn:Ef; [|done]. destruct (Hl _ _ _ _ Ef) as [ip ->]. split; [done|apply Hs].
Qed.
End DirectProps.

(** ** Serving a tunnel *)

(** The failures a forwarder of a group has. *)
Definition failures (s : proxyState) (g : gid) (f : ptr) : Z :=
  match ps_groups s !! g with Some w => f_failures (fwdr w f) | None => 0 end.

Lemma failures_Record s g f x :
  is_Some (ps_groups s !! g) →
  failures (Record_ g f false s) g x = if decide (f = x) then u32 (failures s g f + 1) else failures s g x.
Proof.
  intros [w Hw]. unfold failures, Record_, on_group. rewrite Hw. cbn [snd ps_groups].
  rewrite lookup_insert_eq. apply IncFailures_failures.
Qed.

Section TunnelProps.
Context {Conn : Type} (reply : nat → ptr → Conn + error) (clock : nat → Z) (order : list (Prefix * gid))
        (relay : Conn → proxyState → option error * proxyState).

(** The first [m] of the candidates that the group of [addr] chose refused, none of them
    dialed at a closed gate. *)
Definition refused (addr : list byte) (s : proxyState) (cands : list ptr) (m : nat) : Prop :=
  ∃ w w1, ps_groups s !! findDialer order s addr = Some w ∧
    dialCandidates addr (g_dialAttempts (gw_group w)) w = (Ok cands, w1) ∧
    (∀ j f, (j < m)%nat → cands !! j = Some f → ∃ e, reply j f = inr e) ∧
    (0 < g_dialBudget (gw_group w) → ∀ a, (1 <= a < m)%nat → admitted clock (g_dialBudget (gw_group w)) a).
(** After them no other candidate was left, or no room in the dial budget. *)
Definition gave_up (addr : list byte) (s : proxyState) (cands : list ptr) (m : nat) : Prop :=
  (1 <= m <= length cands)%nat ∧
  (m = length cands ∨
   ∃ w, ps_groups s !! findDialer order s addr = Some w ∧
        0 < g_dialBudget (gw_group w) ∧ ¬ admitted clock (g_dialBudget (gw_group w)) m).
(** Each forwarder of [l] has one failure more. *)
Definition charged_once (g : gid) (l : list ptr) (s s' : proxyState) : Prop :=
  ∀ x, failures s' g x = if decide (x ∈ l) then u32 (failures s g x + 1) else failures s g x.
(** And the last of them another one. *)
Definition charged_again (g : gid) (l : list ptr) (s s' : proxyState) : Prop :=
  ∃ f, last l = Some f ∧
    ∀ x, failures s' g x =
      if decide (x = f) then u32 (u32 (failures s g x + 1) + 1)
      else if decide (x ∈ l) then u32 (failures s g x + 1) else failures s g x.

(** A dial of the proxy: the candidates it tried are charged once each, and the next one
    answers or there is none to try. *)
Lemma Proxy_Dial_charged addr s :
  state_ok s → range_order s order →
  let g := findDialer order s addr in
  ∃ r s1 cands m,
    Proxy_Dial reply clock order addr s = (Ok r, s1) ∧ is_Some (ps_groups s1 !! g) ∧
    refused addr s cands m ∧ charged_once g (take m cands) s s1 ∧
    match dr_conn r with
    | Some c => ∃ f, cands !! m = Some f ∧ reply m f = inl c ∧ dr_dialer r = Some f ∧ dr_err r = None
    | None => gave_up addr s cands m ∧ is_Some (dr_err r) ∧ ∃ f, dr_dialer r = Some f ∧ last (take m cands) = Some f
    end.
Proof.
  intros Hok Ho g. destruct (findDialer_live s order addr Hok Ho) as (w & Hw & Hg).
  destruct (group_ok_pool w Hg) as (Hnd & Hix & _).
  destruct (Dial_tried reply clock addr w Hnd Hix (ok_attempts _ Hg))
    as (cands & w1 & r & w' & m & Hca & HD & _ & _ & (Hm & Hfail & Hr) & Hch & Hat & (Hge & _) & Hadm & Hstop).
  unfold Proxy_Dial, on_group. fold g. fold g in Hw. rewrite Hw, HD. exists r. eexists _, cands, m. split; [done|].
  cbn [ps_groups]. rewrite lookup_insert_eq. split; [by eexists|].
  split; [exists w, w1; repeat split; [done..|]; intros Hb a Ha; apply Hadm; [done|lia]|].
  split; [intros f; unfold failures; cbn [ps_groups]; rewrite lookup_insert_eq, Hw; apply Hch|].
  destruct (dr_conn r) eqn:Ec; [destruct Hr as (f & ? & ? & ? & ?); eauto|]. cbn in Hat.
  split; [split; [lia|]; destruct (Hstop eq_refl) as [?|(? & ? & ?)]; eauto|].
  destruct m as [|m]; [lia|]. destruct Hr as (f & e & Hf & _ & -> & ->). split; [by eexists|]. exists f. split; [done|].
  by rewrite (take_S_r _ _ _ Hf), last_snoc.
Qed.

(** How a dialed connection was served: the client was turned away after the candidates of
    its group refused, or it is relayed through the first one that answered. *)
Definition served_as (again : bool) (saddr addr : list byte) (s : proxyState) (o : served) (s' : proxyState) : Prop :=
  let g := findDialer order s addr in
  ∃ cands m, refused addr s cands m ∧
    match o with
    | Inner => False
    | NotDialed => gave_up addr s cands m ∧ (if again then charged_again else charged_once) g (take m cands) s s'
    | Relayed e => ∃ f c s1, cands !! m = Some f ∧ reply m f = inl c ∧ charged_once g (take m cands) s s1 ∧
                             relay_record relay saddr g f c s1 = (Relayed e, s')
    end.

Lemma serve_dialed_as again saddr addr s :
  state_ok s → range_order s order →
  ∃ o s', (let '(r, s1) := Proxy_Dial reply clock order addr s in serve_dialed relay again saddr (findDialer order s addr) r s1) = (Ok o, s') ∧
    served_as again saddr addr s o s'.
Proof.
  intros Hok Ho. destruct (Proxy_Dial_charged addr s Hok Ho) as (r & s1 & cands & m & -> & Hg & Hre & Hch & Hr).
  set (g := findDialer order s addr) in *. unfold serve_dialed. destruct (dr_conn r) as [c|] eqn:Ec.
  - destruct Hr as (f & Hf & Hc & -> & ->). destruct (relay_record relay saddr g f c s1) as [o s'] eqn:Er. exists o, s'. split; [done|].
    exists cands, m. split; [done|]. destruct o as [| |e]; [..|by exists f, c, s1]; unfold relay_record in Er; by destruct (relay c s1) as [[?|] ?].
  - destruct Hr as (Hgu & [e ->] & f & -> & Hl). eexists _, _. split; [reflexivity|]. exists cands, m. split; [done|]. split; [done|].
    destruct again; [|done]. exists f. split; [done|]. intros x. rewrite failures_Record by done. rewrite !(Hch _).
    assert (f ∈ take m cands) by (by apply last_Some_elem_of).
    destruct (decide (f = x)) as [->|]; [by rewrite !decide_True|by rewrite (decide_False (P := x = f))].
Qed.

(** C31: A tunnel's connection never panics.  The candidates of its group are dialed in
    order; each that refuses is charged one failure, and the client is relayed through the
    first that answers.  When the last candidate has refused, or the dial budget is spent,
    the one tried last is charged a second time for the same dial; a redirect server, whose
    dials go the same way, charges each forwarder it tried once. *)
Theorem tunnel_dial_charges saddr s :
  state_ok s → range_order s order →
  (∃ o s', tunnel_Serve reply clock order relay false saddr s = (Ok o, s') ∧ served_as true saddr [] s o s') ∧
  ∀ tgt laddr, laddr ≠ tgt →
  ∃ o s', redir_Serve reply clock order relay true saddr laddr (Ok tgt) s = (Ok o, s') ∧ served_as false saddr tgt s o s'.
Proof.
  intros Hok Ho. split; [by apply serve_dialed_as|]. intros tgt laddr Hne. unfold redir_Serve. cbn [negb].
  rewrite bool_decide_eq_false_2 by done. by apply serve_dialed_as.
Qed.

(** A server without an address of its own, as one behind a transport is, never counts a
    failed relay: every text contains the empty one. *)
Lemma relay_never_recorded g f rc s : (relay_record relay [] g f rc s).2 = (relay rc s).2.
Proof. unfold relay_record. destruct (relay rc s) as [[e|] s']; [|done]. by destruct (String.list_byte_of_string e). Qed.
End TunnelProps.

(** ** URLs *)

(** The original port, whatever the bytes of the kernel's answer. *)
Lemma swap_port_ok hi lo : swap_port (b2z hi + 256 * b2z lo) = 256 * b2z hi + b2z lo.
Proof.
  pose proof (b2z_range hi). pose proof (b2z_range lo). unfold swap_port, u16.
  assert (Z.shiftl (b2z hi + 256 * b2z lo) 8 mod 2 ^ 16 = Z.shiftl (b2z hi) 8) as ->.
  { rewrite !Z.shiftl_mul_pow2 by lia. symmetry. apply (Z.mod_unique_pos _ _ (b2z lo)); lia. }
  assert (Z.shiftr (b2z hi + 256 * b2z lo) 8 = b2z lo) as ->.
  { rewrite Z.shiftr_div_pow2 by lia. symmetry. apply (Z.div_unique_pos _ _ _ (b2z hi)); lia. }
  rewrite port_value. change (be_val [hi; lo]) with (b2z hi * 256 + (b2z lo * 1 + 0)). lia.
Qed.

(** [NewTLS] never slices at the colon of an address without one. *)
Lemma NewTLS_total host query : ∃ t, NewTLS host query = Ok t.
Proof.
  unfold NewTLS. set (addr := if bool_decide (host = []) then host else _).
  destruct (bool_decide (addr = []) || _) eqn:E; [eexists; reflexivity|].
  destruct (last_index_byte addr c_colon) eqn:El; [eexists; reflexivity|]. exfalso. apply last_index_byte_None in El. apply El.
  apply orb_false_iff in E as [E _]. apply bool_decide_eq_false in E. subst addr. case_bool_decide; [done|]. case_bool_decide as Hp.
  - apply JoinHostPort_colon.
  - by apply SplitHostPort_colon.
Qed.

(** A host in brackets without a port gets a second pair of them, and no name a
    certificate could hold. *)
Lemma NewTLS_ipv6 : NewTLS (lit "[::1]") [] = Ok (MkTLS (lit "[[::1]]:443") (lit "[[::1]]") false [] [] []).
Proof. vm_compute. reflexivity. Qed.

(** The key sizes the ciphers accept. *)
Definition key_ok (c : BlockCrypt) (n : nat) : Prop :=
  match c with
  | SM4 | TEA | XTEA | Cast5 => n = 16%nat
  | AES | Twofish => n = 16%nat ∨ n = 24%nat ∨ n = 32%nat
  | TripleDES => n = 24%nat
  | Blowfish => (1 <= n <= 56)%nat
  | Salsa20 => n = 32%nat
  | SimpleXOR | NoneCrypt => True
  end.
(** The errors of the ciphers that [block] drops never happen: each gets a key of a size it
    accepts. *)
Lemma block_key_ok crypt pass c k : length pass = 32%nat → block crypt pass = Ok (c, k) → key_ok c (length k).
Proof.
  intros Hp. unfold block. repeat (destruct (bool_decide (crypt = _)); [intros [= <- <-]; cbn [key_ok]; rewrite ?length_take, ?Hp; cbn; first [done | lia | by right; right | by left | by right; left]|]).
  done.
Qed.

(** ** A tunnel whose forwarders refuse *)

Definition ex_relay (c : nat) (s : proxyState) : option error * proxyState := (None, s).
Lemma ex_state_ok : state_ok ex_state.
Proof.
  apply (buildState_ok msort ex_NewDirect ex_creators ex_urls ex_strategy [ex_rule]).
  - vm_compute. reflexivity.
  - constructor; [vm_compute; reflexivity|constructor].
  - exact ex_state_built.
Qed.

Lemma tunnel_dial_charges_witness :
  ∃ s' cands m f,
    tunnel_Serve ex_reply ex_clock (map_to_list (cidrMap ex_state)) ex_relay false (lit ":443") ex_state = (Ok NotDialed, s') ∧
    refused ex_reply ex_clock (map_to_list (cidrMap ex_state)) [] ex_state cands m ∧
    gave_up ex_clock (map_to_list (cidrMap ex_state)) [] ex_state cands m ∧
    last (take m cands) = Some f ∧
    failures s' (findDialer (map_to_list (cidrMap ex_state)) ex_state []) f =
      u32 (u32 (failures ex_state (findDialer (map_to_list (cidrMap ex_state)) ex_state []) f + 1) + 1).
Proof.
  assert ((tunnel_Serve ex_reply ex_clock (map_to_list (cidrMap ex_state)) ex_relay false (lit ":443") ex_state).1 = Ok NotDialed)
    as H by (vm_compute; reflexivity).
  destruct (tunnel_dial_charges ex_reply ex_clock (map_to_list (cidrMap ex_state)) ex_relay (lit ":443") ex_state)
    as [(o & s' & E & cands & m & Hre & Ho) _]; [exact ex_state_ok|unfold range_order; reflexivity|].
  rewrite E in H. injection H as ->. destruct Ho as (Hgu & f & Hl & Hf). exists s', cands, m, f.
  split; [exact E|]. split; [exact Hre|]. split; [exact Hgu|]. split; [exact Hl|].
  pose proof (Hf f) as Hff. rewrite decide_True in Hff by done. exact Hff.
Defined.

(** With a limit of three failures two refused connections take an enabled forwarder out,
    although each dialed it once. *)
Definition serve_twice (s : proxyState) : proxyState :=
  let serve s := (tunnel_Serve ex_reply ex_clock [] ex_relay false (lit ":443") s).2 in serve (serve s).
Lemma tunnel_two_of_three :
  let main := ps_main ex_state in
  let s := Record_ main 1%nat true (Record_ main 0%nat true ex_state) in
  let off s f := match ps_groups s !! main with Some w => f_disabled (fwdr w f) | None => -1 end in
  ∃ f, (failures s main f, off s f) = (0, 0) ∧ (failures (serve_twice s) main f, off (serve_twice s) f) = (4, 1).
Proof. exists 1%nat. vm_compute. done. Qed.
