(* ===== verification/Reconnect.v ===== *)
(** The dialers that keep a connection to their server and renew it: the smux client
    (proxy/smux/client.go), over the sessions of pkg/smux, and the ssh client
    (proxy/ssh/ssh.go), whose keeper reconnects with growing pauses.

    The ssh library's handshakes and channels are parameters; a session's own goroutines
    take their steps between, and in the middle of, the client's. *)
From S2P Require Import Prelude GoStd Reader ProxyConn SmuxFrame SmuxStream SmuxStreamProofs SmuxSession SmuxSessionProofs.
Import Smux Stream Sess.

Module SmuxClient.

(** [OpenStream]: the session's goroutines run while the SYN frame is written. *)
Inductive open_stream : sstate → oid + error → sstate → Prop :=
| open_refused s p e s' : open_begin s = (inr e, s') → open_stream (s, p) (inr e) (s', p)
| open_done s p sid o s1 s2 p2 wrote c r s3 :
    open_begin s = (inl (sid, o), s1) → rtc sstep (s1, p) (s2, p2) → open_end sid o wrote c s2 = Some (r, s3) →
    open_stream (s, p) r (s3, p2).

(** The client: the session it uses, and every session it has made. *)
Record SmuxClient := MkSmuxClient {
  sc_addr : list byte;
  sc_session : option nat;
  sc_all : gmap nat sstate;
  sc_next : nat }.
Definition NewSmuxDialer (host : list byte) : SmuxClient := MkSmuxClient host None ∅ 0.
Definition set_all (i : nat) (st : sstate) (c : SmuxClient) : SmuxClient :=
  MkSmuxClient (sc_addr c) (sc_session c) (<[i := st]> (sc_all c)) (sc_next c).
Definition session_Close (st : sstate) : sstate := ((Close st.1).2, st.2).

(** [initConn]; [derr]: the error of the dial. *)
Definition initConn (derr : option error) (c : SmuxClient) : option error * SmuxClient :=
  match derr with
  | Some e => (Some e, c)
  | None =>
      match VerifyConfig DefaultConfig with
      | Some e => (Some e, MkSmuxClient (sc_addr c) None (sc_all c) (sc_next c))
      | None => (None, MkSmuxClient (sc_addr c) (Some (sc_next c)) (<[sc_next c := (newSession DefaultConfig true, [])]> (sc_all c)) (S (sc_next c)))
      end
  end.

(** The end of [Dial]: a new connection and a stream on it. *)
Inductive dial_new : SmuxClient → (nat * oid) + error → SmuxClient → Prop :=
| new_failed e c e' c' : initConn e c = (Some e', c') → dial_new c (inr e') c'
| new_opened c c' i st r st' :
    initConn None c = (None, c') → sc_session c' = Some i → sc_all c' !! i = Some st → open_stream st r st' →
    dial_new c (match r with inl o => inl (i, o) | inr e => inr e end) (set_all i st' c').
(** [Dial]: a stream of a session. *)
Inductive Dial : SmuxClient → (nat * oid) + error → SmuxClient → Prop :=
| dial_reused c i st o st' :
    sc_session c = Some i → sc_all c !! i = Some st → open_stream st (inl o) st' → Dial c (inl (i, o)) (set_all i st' c)
| dial_renewed c i st e st' r c' :
    sc_session c = Some i → sc_all c !! i = Some st → open_stream st (inr e) st' →
    dial_new (set_all i (session_Close st') c) r c' → Dial c r c'
| dial_first c r c' : sc_session c = None → dial_new c r c' → Dial c r c'.

(** Dials of the client and steps of its sessions, in any order. *)
Inductive cstep : SmuxClient → SmuxClient → Prop :=
| c_dial c r c' : Dial c r c' → cstep c c'
| c_session c i st st' : sc_all c !! i = Some st → sstep st st' → cstep c (set_all i st' c).

(** ** One live session *)

(** Sessions are numbered as they are made, and all but the one in use are closed. *)
Record client_ok (c : SmuxClient) : Prop := {
  co_fresh : ∀ i st, sc_all c !! i = Some st → (i < sc_next c)%nat;
  co_current : ∀ i, sc_session c = Some i → is_Some (sc_all c !! i);
  co_closed : ∀ i st, sc_all c !! i = Some st → sc_session c ≠ Some i → ss_die st.1 = true }.

Lemma client_ok_set i st st' c :
  client_ok c → sc_all c !! i = Some st → (ss_die st.1 = true → ss_die st'.1 = true) → client_ok (set_all i st' c).
Proof.
  intros [Hf Hc Hd] Hi Hm. split; cbn.
  - intros j x. destruct (decide (j = i)) as [->|]; [intros _; by eapply Hf|rewrite lookup_insert_ne by done; apply Hf].
  - intros j Hj. destruct (decide (j = i)) as [->|]; [rewrite lookup_insert_eq; eauto|rewrite lookup_insert_ne by done; auto].
  - intros j x. destruct (decide (j = i)) as [->|].
    + rewrite lookup_insert_eq. intros [= <-] Hne. apply Hm. by eapply Hd.
    + rewrite lookup_insert_ne by done. apply Hd.
Qed.

(** A closed session opens no stream and stays closed. *)
Lemma open_stream_die st r st' : open_stream st r st' → ss_die st.1 = true → ss_die st'.1 = true ∧ r = inr ErrClosedPipe.
Proof.
  intros [s p e s' Hb|s p sid o s1 s2 p2 w c r' s3 Hb Hs He] Hd; cbn in *; unfold open_begin in Hb; rewrite Hd in Hb; by simplify_eq.
Qed.
(** A stream that was opened is in the map of a session that is not closed. *)
Lemma open_stream_live st o st' : open_stream st (inl o) st' → ss_die st'.1 = false ∧ ∃ sid, streams st'.1 !! sid = Some o.
Proof.
  intros H. remember (inl o) as r eqn:Hr. destruct H as [s p e s' Hb|s p sid o' s1 s2 p2 w c r' s3 Hb Hs He]; [done|]. subst r'.
  unfold open_end, sel_error in He. destruct w, c, (socketReadError s2), (socketWriteError s2); destruct (ss_die s2) eqn:Ed; simpl in He; simplify_eq.
  cbn. split; [done|]. exists sid. apply lookup_insert_eq.
Qed.
Lemma session_Close_die st : ss_die (session_Close st).1 = true.
Proof. unfold session_Close, Close. cbn. by destruct (ss_die st.1) eqn:E. Qed.

Lemma initConn_ok derr c e c' :
  initConn derr c = (e, c') → client_ok c → (∀ i st, sc_all c !! i = Some st → ss_die st.1 = true) → client_ok c'.
Proof.
  intros H [Hf Hc Hd] Hall. unfold initConn in H. destruct derr as [e0|]; [injection H as <- <-; by split|].
  change (VerifyConfig DefaultConfig) with (@None error) in H. injection H as <- <-. split; cbn.
  - intros i st. destruct (decide (i = sc_next c)) as [->|]; [lia|]. rewrite lookup_insert_ne by done. intros Hi. apply Hf in Hi. lia.
  - intros i [= <-]. rewrite lookup_insert_eq. eauto.
  - intros i st. destruct (decide (i = sc_next c)) as [->|]; [done|]. rewrite lookup_insert_ne by done. intros Hi _. by eapply Hall.
Qed.

Lemma dial_new_ok c r c' : dial_new c r c' → client_ok c → (∀ i st, sc_all c !! i = Some st → ss_die st.1 = true) → client_ok c'.
Proof.
  intros [e c0 e' c1 Hi|c0 c1 i st r0 st' Hi Hs Hst Ho] Hok Hall; [by eapply initConn_ok|].
  eapply client_ok_set; [by eapply initConn_ok|exact Hst|]. intros Hd. by destruct (open_stream_die _ _ _ Ho Hd).
Qed.
(** With the session in use closed, every session is. *)
Lemma all_closed i st c :
  client_ok c → sc_session c = Some i → ss_die st.1 = true → ∀ j x, sc_all (set_all i st c) !! j = Some x → ss_die x.1 = true.
Proof.
  intros [_ _ Hd] Hs Hst j x. cbn. destruct (decide (j = i)) as [->|]; [rewrite lookup_insert_eq; by intros [= <-]|].
  rewrite lookup_insert_ne by done. intros Hj. apply (Hd j x Hj). rewrite Hs. congruence.
Qed.

Lemma Dial_ok c r c' : Dial c r c' → client_ok c → client_ok c'.
Proof.
  intros [c0 i st o st' Hs Hst Ho|c0 i st e st' r0 c1 Hs Hst Ho Hn|c0 r0 c1 Hs Hn] Hok.
  - eapply client_ok_set; [done..|]. intros Hd. by destruct (open_stream_die _ _ _ Ho Hd).
  - apply (dial_new_ok _ _ _ Hn); [eapply client_ok_set; [done..|intros _; apply session_Close_die]|].
    apply all_closed; [done..|apply session_Close_die].
  - apply (dial_new_ok _ _ _ Hn Hok). intros i st Hi. apply (co_closed _ Hok i st Hi). by rewrite Hs.
Qed.
Lemma cstep_ok c c' : cstep c c' → client_ok c → client_ok c'.
Proof.
  intros [c0 r c1 Hd|c0 i st st' Hi Hst] Hok; [by eapply Dial_ok|]. eapply client_ok_set; [done..|]. intros Hd. by eapply die_step.
Qed.

(** C32: Through any dials and any steps of its sessions an smux client has at most one
    session that is not closed, the one it uses; a dial that succeeds gives a stream of that
    session, live and registered in it, and one that fails has either no new connection or
    a new session that refused its first stream. *)
Theorem smux_client_one_session host c :
  rtc cstep (NewSmuxDialer host) c →
  (∀ i j st st', sc_all c !! i = Some st → sc_all c !! j = Some st' → ss_die st.1 = false → ss_die st'.1 = false → i = j) ∧
  (∀ i o c', Dial c (inl (i, o)) c' → sc_session c' = Some i ∧
     ∃ st sid, sc_all c' !! i = Some st ∧ ss_die st.1 = false ∧ streams st.1 !! sid = Some o) ∧
  ∀ e c', Dial c (inr e) c' → sc_next c' = sc_next c ∨ sc_next c' = S (sc_next c) ∧ sc_session c' = Some (sc_next c).
Proof.
  intros Hr. assert (client_ok c) as Hok.
  { assert (∀ a b, rtc cstep a b → client_ok a → client_ok b) as H by (induction 1; eauto using cstep_ok).
    apply (H _ _ Hr). by split; cbn; intros; simplify_map_eq. }
  split; [|split].
  - assert (∀ i st, sc_all c !! i = Some st → ss_die st.1 = false → sc_session c = Some i) as H.
    { intros i st Hi Hd. destruct (decide (sc_session c = Some i)) as [|Hn]; [done|]. pose proof (co_closed _ Hok i st Hi Hn). congruence. }
    intros i j st st' Hi Hj Hd Hd'. pose proof (H _ _ Hi Hd). pose proof (H _ _ Hj Hd'). congruence.
  - assert (∀ c r c' i o, dial_new c r c' → r = inl (i, o) → sc_session c' = Some i ∧
      ∃ st sid, sc_all c' !! i = Some st ∧ ss_die st.1 = false ∧ streams st.1 !! sid = Some o) as Hnew.
    { intros c0 r c1 i o [e c2 e' c3 _|c2 c3 i' st r0 st' _ Hs _ Ho]; [done|]. destruct r0 as [o'|]; [|done]. intros [= <- <-].
      destruct (open_stream_live _ _ _ Ho) as [Hd [sid Hsid]]. split; [done|]. exists st', sid. cbn. by rewrite lookup_insert_eq. }
    intros i o c' HD. remember (inl (i, o)) as r eqn:Er. destruct HD as [c0 i' st o' st' Hs Hst Ho|c0 i' st e st' r0 c1 Hs Hst Ho Hn|c0 r0 c1 Hs Hn]; [|by eapply Hnew..].
    injection Er as -> ->. destruct (open_stream_live _ _ _ Ho) as [Hd [sid Hsid]]. split; [done|]. exists st', sid. cbn. by rewrite lookup_insert_eq.
  - assert (∀ c r c', dial_new c r c' → sc_next c' = sc_next c ∨ sc_next c' = S (sc_next c) ∧ sc_session c' = Some (sc_next c)) as Hnew.
    { intros c0 r c1 [e c2 e' c3 Hi|c2 c3 i' st r0 st' Hi Hs _ Ho]; unfold initConn in Hi; change (VerifyConfig DefaultConfig) with (@None error) in Hi.
      - destruct e; simplify_eq; by left.
      - injection Hi as <-. by right. }
    intros e c' HD. remember (inr e) as r eqn:Er. destruct HD as [c0 i' st o' st' Hs Hst Ho|c0 i' st e0 st' r0 c1 Hs Hst Ho Hn|c0 r0 c1 Hs Hn]; [done|by apply Hnew in Hn|by eapply Hnew].
Qed.
End SmuxClient.

Import SmuxClient.

(** A client that dialed once: its session and the stream on it. *)
Definition ex_sess : sstate := (newSession DefaultConfig true, []).
Definition ex_client : SmuxClient := MkSmuxClient (lit "server:443") (Some 0%nat) (<[0%nat := ex_sess]> ∅) 1.
Definition ex_open : Session :=
  match open_begin ex_sess.1 with
  | (inl (sid, o), s) => match open_end sid o None SelMain s with Some (_, s) => s | None => s end
  | (inr _, s) => s
  end.
Lemma smux_client_one_session_witness :
  rtc cstep (NewSmuxDialer (lit "server:443")) (set_all 0%nat (ex_open, []) ex_client) ∧
  ∀ i o c', Dial (set_all 0%nat (ex_open, []) ex_client) (inl (i, o)) c' → sc_session c' = Some i.
Proof.
  assert (rtc cstep (NewSmuxDialer (lit "server:443")) (set_all 0%nat (ex_open, []) ex_client)) as H.
  { apply rtc_once. apply (c_dial _ (inl (0%nat, 0%nat))). apply dial_first; [reflexivity|].
    apply (new_opened _ ex_client 0%nat ex_sess (inl 0%nat)); [reflexivity|reflexivity|reflexivity|].
    eapply (open_done _ _ 3 0%nat _ _ _ None SelMain); [reflexivity|apply rtc_refl|reflexivity]. }
  split; [exact H|]. intros i o c' HD.
  destruct (smux_client_one_session (lit "server:443") _ H) as (_ & H2 & _). by destruct (H2 i o c' HD).
Defined.

Module Ssh.

(** ** The options *)

Inductive AuthMethod := Password (pass : list byte) | PublicKeys (key : list byte).
Record SSHConfig := MkSSHConfig {
  sc_user : list byte;
  sc_auth : list AuthMethod;
  sc_timeout : Z;
  sc_addr : list byte }.

Section New.
(** Files, and the keys the library finds in them. *)
Context (ReadFile : list byte → outcome (list byte)) (ParsePrivateKey : list byte → outcome (list byte)).

Definition privateKeyAuth (file : list byte) : outcome AuthMethod :=
  buffer ← ReadFile file; key ← ParsePrivateKey buffer; Ok (PublicKeys key).

(** [NewSSH] of a URL's host, user, password and query. *)
Definition NewSSH (host user pass : list byte) (query : list (list byte * list byte)) : outcome SSHConfig :=
  let auth := if bool_decide (pass = []) then [] else [Password pass] in
  let key := query_get query (lit "key") in
  auth ← (if bool_decide (key = []) then Ok auth else k ← privateKeyAuth key; Ok (auth ++ [k]));
  let qtimeout := query_get query (lit "timeout") in
  match parse_uint (if bool_decide (qtimeout = []) then lit "5" else qtimeout) 32 with
  | (_, Some e) => Err e
  | (timeout, None) =>
      Ok (MkSSHConfig (if bool_decide (user = []) then lit "root" else user) auth (i64 (second * timeout))
            (if bool_decide ((SplitHostPort_ host).2 = []) then JoinHostPort host (lit "22") else host))
  end.
End New.

(** ** The connection and its keeper *)

(** The goroutine of [keepConn]: not started, waiting for the connection to end, or about
    to connect with its variable [sleep], for which it has paused after a failure. *)
Inductive keeper := Unstarted | Waiting | Connecting (sleep : Z).

(** Connections are numbered as they are made; [ss_open] are those this side has not
    closed. *)
Record SSH := MkSSH {
  ssh_conn : option nat;
  ssh_client : option nat;
  ssh_open : gset nat;
  ssh_next : nat;
  ssh_keeper : keeper }.
Definition ssh0 : SSH := MkSSH None None ∅ 0 Unstarted.
Definition set_keeper (k : keeper) (s : SSH) : SSH := MkSSH (ssh_conn s) (ssh_client s) (ssh_open s) (ssh_next s) k.

(** [initConn]: the errors of the dial and of the handshake; a connection whose handshake
    fails is closed. *)
Definition initConn (derr herr : option error) (s : SSH) : option error * SSH :=
  match derr with
  | Some e => (Some e, s)
  | None =>
      let c := ssh_next s in
      match herr with
      | Some e => (Some e, MkSSH (ssh_conn s) (ssh_client s) (ssh_open s) (S c) (ssh_keeper s))
      | None => (None, MkSSH (Some c) (Some c) ({[c]} ∪ ssh_open s) (S c) (ssh_keeper s))
      end
  end.

Definition ErrNilClient : error := "ssh client is nil".
(** [Dial]; [answer]: what a channel of the client gives. *)
Definition Dial {C} (derr herr : option error) (answer : nat → outcome C) (s : SSH) : outcome C * SSH :=
  let s := match ssh_keeper s with
           | Unstarted =>
               let '(e, s) := initConn derr herr s in
               set_keeper (match e with None => Waiting | Some _ => Connecting second end) s
           | _ => s
           end in
  match ssh_client s with
  | None => (Err ErrNilClient, s)
  | Some c => match ssh_conn s with Some _ => (answer c, s) | None => (Panic, s) end
  end.

(** [keepConn]: the end of the wait, when the connection is closed and the pauses start
    over. *)
Definition keep_ended (s : SSH) : outcome SSH :=
  match ssh_conn s with
  | Some c => Ok (MkSSH (Some c) (ssh_client s) (ssh_open s ∖ {[c]}) (ssh_next s) (Connecting second))
  | None => Panic
  end.
Definition backoff (sleep : Z) : Z := let sleep := i64 (sleep * 2) in if second * 60 <? sleep then second * 60 else sleep.
(** One round of its loop: the pause after a failure is in the new state. *)
Definition keep_connect (derr herr : option error) (sleep : Z) (s : SSH) : SSH :=
  let '(e, s) := initConn derr herr s in
  set_keeper (match e with Some _ => Connecting (backoff sleep) | None => Waiting end) s.

(** Dials and the keeper, in any order. *)
Inductive step : SSH → SSH → Prop :=
| s_dial {C} derr herr (answer : nat → outcome C) s : step s (Dial derr herr answer s).2
| s_ended s s' : ssh_keeper s = Waiting → keep_ended s = Ok s' → step s s'
| s_connect derr herr sleep s : ssh_keeper s = Connecting sleep → step s (keep_connect derr herr sleep s).

(** ** One connection *)

(** The client is the one of the connection; only that connection is open, and only while
    the keeper waits for its end. *)
Definition ssh_ok (s : SSH) : Prop :=
  ssh_client s = ssh_conn s ∧
  match ssh_keeper s with
  | Unstarted => ssh_conn s = None ∧ ssh_open s = ∅
  | Waiting => ∃ c, ssh_conn s = Some c ∧ ssh_open s = {[c]}
  | Connecting sleep => ssh_open s = ∅ ∧ second <= sleep <= second * 60
  end.

Lemma backoff_range sleep : second <= sleep <= second * 60 → second <= backoff sleep <= second * 60.
Proof.
  unfold backoff. intros H. cbv zeta. rewrite i64_small by (unfold second in *; lia).
  case_match; bools; lia.
Qed.

Lemma connect_ok derr herr sleep s :
  ssh_open s = ∅ → ssh_client s = ssh_conn s → second <= sleep <= second * 60 →
  ssh_ok (let '(e, s) := initConn derr herr s in set_keeper (match e with None => Waiting | Some _ => Connecting sleep end) s).
Proof.
  intros Ho Hc Hk. unfold initConn. destruct derr; [|destruct herr]; split; cbn; try done.
  exists (ssh_next s). split; [done|]. rewrite Ho. set_solver.
Qed.

Lemma step_ok s s' : step s s' → ssh_ok s → ssh_ok s'.
Proof.
  intros [C derr herr answer s0|s0 s1 Hk He|derr herr sleep s0 Hk] Hok; pose proof Hok as [Hc H].
  - unfold Dial. destruct (ssh_keeper s0) eqn:Ek.
    + destruct H as [Hn Ho].
      pose proof (connect_ok derr herr second s0 Ho Hc ltac:(unfold second; lia)) as Hi.
      destruct (initConn derr herr s0) as [e s1]. by repeat case_match.
    + destruct (ssh_client s0); [destruct (ssh_conn s0)|]; exact Hok.
    + destruct (ssh_client s0); [destruct (ssh_conn s0)|]; exact Hok.
  - rewrite Hk in H. destruct H as (c & Hc' & Ho). unfold keep_ended in He. rewrite Hc' in He. injection He as <-.
    split; cbn; [congruence|]. split; [rewrite Ho; set_solver|unfold second; lia].
  - rewrite Hk in H. destruct H as [Ho Hs]. unfold keep_connect.
    pose proof (connect_ok derr herr (backoff sleep) s0 Ho Hc (backoff_range _ Hs)) as Hi.
    by destruct (initConn derr herr s0) as [[e|] s1].
Qed.

(** ** The pauses *)

(** Where the keeper starts to connect: the first dial failed, or a connection ended. *)
Inductive starts : SSH → Prop :=
| starts_dial {C} derr herr (answer : nat → outcome C) s :
    rtc step ssh0 s → ssh_keeper s = Unstarted → (initConn derr herr s).1 ≠ None →
    starts (Dial derr herr answer s).2
| starts_ended s s' : rtc step ssh0 s → ssh_keeper s = Waiting → keep_ended s = Ok s' → starts s'.
(** The keeper has failed to connect [n] times in a row, whatever was dialed meanwhile. *)
Inductive fails (s0 : SSH) : nat → SSH → Prop :=
| fails_none : fails s0 0 s0
| fails_dial {C} n derr herr (answer : nat → outcome C) s : fails s0 n s → fails s0 n (Dial derr herr answer s).2
| fails_connect n derr herr sleep s :
    fails s0 n s → ssh_keeper s = Connecting sleep → (initConn derr herr s).1 ≠ None →
    fails s0 (S n) (keep_connect derr herr sleep s).

(** A second, doubled [n] times and at most a minute. *)
Definition pause (n : nat) : Z := Z.min (second * 2 ^ Z.of_nat n) (second * 60).
Lemma backoff_pause n : backoff (pause n) = pause (S n).
Proof.
  unfold backoff, pause. cbv zeta. rewrite Nat2Z.inj_succ, Z.pow_succ_r by lia.
  assert (0 < 2 ^ Z.of_nat n) by (apply Z.pow_pos_nonneg; lia). unfold second in *.
  rewrite i64_small by lia. case_match; bools; lia.
Qed.

Lemma initConn_keeper derr herr s : ssh_keeper (initConn derr herr s).2 = ssh_keeper s.
Proof. unfold initConn. destruct derr; [done|]. by destruct herr. Qed.
Lemma Dial_started {C} derr herr (answer : nat → outcome C) s : ssh_keeper s ≠ Unstarted → (Dial derr herr answer s).2 = s.
Proof. intros Hk. unfold Dial. destruct (ssh_keeper s); [done|..]; repeat case_match; done. Qed.
Lemma keep_connect_failed derr herr sleep s :
  (initConn derr herr s).1 ≠ None → ssh_keeper (keep_connect derr herr sleep s) = Connecting (backoff sleep).
Proof. intros H. unfold keep_connect. by destruct (initConn derr herr s) as [[e|] s']. Qed.
Lemma starts_connecting s : starts s → ssh_keeper s = Connecting second.
Proof.
  intros [C derr herr answer s0 _ Hk Hf|s0 s1 _ _ He].
  - unfold Dial. rewrite Hk. destruct (initConn derr herr s0) as [[e|] s1]; [|done]. by repeat case_match.
  - unfold keep_ended in He. destruct (ssh_conn s0); [|done]. by injection He as <-.
Qed.

Lemma fails_pause s0 n s : ssh_keeper s0 = Connecting second → fails s0 n s → ssh_keeper s = Connecting (pause n).
Proof.
  intros H0 Hf. induction Hf as [|C n derr herr answer s Hf IH|n derr herr sleep s Hf IH Hk Hi]; [done| |].
  - by rewrite Dial_started by (by rewrite IH).
  - rewrite keep_connect_failed by done. rewrite IH in Hk. injection Hk as <-. by rewrite backoff_pause.
Qed.

(** Every pause is the last of such a series. *)
Lemma pauses_series s k :
  rtc step ssh0 s → ssh_keeper s = Connecting k → ∃ s0 n, starts s0 ∧ fails s0 n s.
Proof.
  intros Hr. revert k. pattern s. refine (rtc_ind_r _ ssh0 _ _ s Hr); [done|].
  intros y z Hy Hstep IH k. destruct Hstep as [C derr herr answer s0|s0 s1 Hk He|derr herr sleep s0 Hk]; intros Hz.
  - destruct (ssh_keeper s0) eqn:Ek.
    + exists (Dial derr herr answer s0).2, 0%nat. split; [|constructor]. apply starts_dial; [done..|].
      intros Hn. unfold Dial in Hz. rewrite Ek in Hz. destruct (initConn derr herr s0) as [e s1]. simpl in Hn. subst e.
      cbn in Hz. by repeat case_match.
    + rewrite Dial_started, Ek in Hz by (by rewrite Ek). done.
    + destruct (IH sleep eq_refl) as (s1 & n & ? & ?). exists s1, n. split; [done|]. by constructor.
  - exists s1, 0%nat. split; [by eapply starts_ended|constructor].
  - destruct (IH sleep Hk) as (s1 & n & ? & ?). exists s1, (S n). split; [done|]. apply fails_connect; [done..|].
    intros Hn. unfold keep_connect in Hz. destruct (initConn derr herr s0) as [e s2]. simpl in Hn. by subst e.
Qed.

Lemma reachable_ok s : rtc step ssh0 s → ssh_ok s.
Proof.
  intros Hr. assert (∀ a b, rtc step a b → ssh_ok a → ssh_ok b) as H by (induction 1; eauto using step_ok). by apply (H _ _ Hr).
Qed.

(** C33: Through any dials and any fate of its connections an ssh client never panics and
    leaves no connection open but the one in use; a dial fails for want of a client only
    before the first connection; and whenever the keeper is about to connect, it has paused
    for twice as long after each failure since the connection ended (or since the first dial
    failed), from a second up to a minute. *)
Theorem ssh_one_connection s :
  rtc step ssh0 s →
  (∀ c, c ∈ ssh_open s → ssh_conn s = Some c) ∧
  (∀ C derr herr (answer : nat → outcome C), (∀ c, answer c ≠ Panic) → (Dial derr herr answer s).1 ≠ Panic) ∧
  (ssh_keeper s = Waiting → ∃ s', keep_ended s = Ok s') ∧
  (∀ C derr herr (answer : nat → outcome C) c, ssh_conn s = Some c → (Dial derr herr answer s).1 = answer c) ∧
  (∀ k, ssh_keeper s = Connecting k →
    ∃ s0 n, starts s0 ∧ fails s0 n s ∧ k = Z.min (second * 2 ^ Z.of_nat n) (second * 60)) ∧
  (∀ s0 n, starts s0 → fails s0 n s → ssh_keeper s = Connecting (Z.min (second * 2 ^ Z.of_nat n) (second * 60))).
Proof.
  intros Hr. pose proof (reachable_ok s Hr) as Hok.
  assert (∀ s, ssh_ok s → ssh_client s = ssh_conn s) as Hcl by (by intros ? [? _]).
  split_and!.
  - destruct Hok as [_ H]. intros c. destruct (ssh_keeper s); [destruct H as [_ ->]|destruct H as (c' & -> & ->)|destruct H as [-> _]]; set_solver.
  - intros C derr herr answer Ha. unfold Dial. destruct (ssh_keeper s) eqn:Ek.
    + destruct (initConn derr herr s) as [e s1] eqn:Ei. cbn. assert (ssh_client s1 = ssh_conn s1) as E.
      { unfold initConn in Ei. destruct derr; [|destruct herr]; injection Ei as <- <-; [by apply Hcl|by apply (Hcl s)|done]. }
      destruct (ssh_client s1); [|done]. rewrite <- E. apply Ha.
    + rewrite (Hcl s Hok). destruct (ssh_conn s); [apply Ha|done].
    + rewrite (Hcl s Hok). destruct (ssh_conn s); [apply Ha|done].
  - intros Hk. destruct Hok as [_ H]. rewrite Hk in H. destruct H as (c & Hc & _). unfold keep_ended. rewrite Hc. eauto.
  - intros C derr herr answer c Hc. unfold Dial. destruct Hok as [Hcc H]. destruct (ssh_keeper s) eqn:Ek; [by destruct H as [H _]; rewrite H in Hc|..];
      by rewrite Hcc, Hc.
  - intros k Hk. destruct (pauses_series s k Hr Hk) as (s0 & n & Hs & Hf). exists s0, n. split_and!; [done..|].
    apply (fails_pause _ _ _ (starts_connecting _ Hs)) in Hf. rewrite Hk in Hf. by injection Hf.
  - intros s0 n Hs Hf. exact (fails_pause _ _ _ (starts_connecting _ Hs) Hf).
Qed.
End Ssh.

(** A client whose first handshake fails and whose keeper connects after two more failures,
    the second after a pause of two seconds. *)
Definition ssh_first : Ssh.SSH := (Ssh.Dial (C := unit) None (Some "no auth"%string) (λ _, Ok tt) Ssh.ssh0).2.
Definition ssh_paused : Ssh.SSH :=
  Ssh.keep_connect None (Some "no auth"%string) (2 * second) (Ssh.keep_connect (Some "refused"%string) None second ssh_first).
Lemma ssh_one_connection_witness :
  let s := Ssh.keep_connect None None (4 * second) ssh_paused in
  Ssh.ssh_conn s = Some 2%nat ∧ (Ssh.Dial None None (λ _, Ok 5) s).1 = Ok 5 ∧ Ssh.ssh_open s = {[2%nat]} ∧
  Ssh.ssh_keeper ssh_paused = Ssh.Connecting (Z.min (second * 2 ^ Z.of_nat 2) (second * 60)).
Proof.
  intros s. split; [reflexivity|]. assert (rtc Ssh.step Ssh.ssh0 ssh_paused) as H.
  { eapply rtc_l; [apply (Ssh.s_dial (C := unit) None (Some "no auth"%string) (λ _, Ok tt))|].
    eapply rtc_l; [apply (Ssh.s_connect (Some "refused"%string) None second); reflexivity|].
    apply rtc_once. apply (Ssh.s_connect None (Some "no auth"%string) (2 * second)). reflexivity. }
  assert (rtc Ssh.step Ssh.ssh0 s) as H'.
  { eapply rtc_r; [exact H|]. apply (Ssh.s_connect None None (4 * second)). reflexivity. }
  split; [|split; [reflexivity|]].
  - destruct (Ssh.ssh_one_connection s H') as (_ & _ & _ & H4 & _). apply (H4 Z None None (λ _, Ok 5) 2%nat). reflexivity.
  - destruct (Ssh.ssh_one_connection ssh_paused H) as (_ & _ & _ & _ & _ & H6). apply (H6 ssh_first 2%nat).
    + apply (Ssh.starts_dial (C := unit)); [apply rtc_refl|reflexivity|discriminate].
    + apply (Ssh.fails_connect ssh_first 1%nat); [|reflexivity|discriminate].
      apply (Ssh.fails_connect ssh_first 0%nat); [apply Ssh.fails_none|reflexivity|discriminate].
Defined.
